(* ===== verification/_CoqProject ===== *)
-Q . S2P
Prelude.v
RustStr.v
Admission.v
Membership.v
Session.v
Seed.v
Device.v
Registry.v
EffectiveRoster.v
Transport.v
DeviceWire.v
Fixture.v
Daemon.v
Ipc.v
DaemonInv.v
DaemonSafety.v
DeviceLinkSpec.v
DeviceLinkTla.v
DaemonFunctional.v
Swarm.v
SwarmLoop.v
SwarmInv.v
SwarmSafety.v
HashOrder.v
Redial.v
System.v
WireRefine.v
Fleet.v
FleetSafety.v
FleetLive.v
Eviction.v
Server.v
Serve.v
SwarmConfig.v
Startup.v
Process.v
