(* ===== verification/Prelude.v ===== *)
(** * citrate-cluster: a verification development

    citrate-cluster runs the private peer-to-peer mesh of a Citrate group. Two crates under
    [src/crates/]: [cluster-core] decides who may be in a group's mesh (pure logic), and
    [cluster-daemon] runs a mesh per group, over libp2p, behind a local control socket. This
    library models both crates and proves what they are for: no unauthorised peer is ever in
    the mesh, through every request, connection event, network schedule and eviction.

    ** The program and the files that model it

    A client writes JSON lines on a Unix socket; the daemon checks the peer's user and a bearer
    token, maps each line to a request, and drives one session per group. A session couples the
    membership gate with a transport; over libp2p the transport is a second thread, the swarm
    task, that shares a mutex and a command queue with the daemon. Rosters arrive by request,
    together with signed device links and revocations, from which the effective roster, the one
    the gate runs on, is computed.

    - [Prelude]: results with Rust's [?], total orders and the stable sort, ordered iteration of
      maps and sets, list lemmas, bit masks, tactics and the hint database.
    - [RustStr]: the string operations of Rust's standard library the code uses, on byte strings:
      [trim] (Unicode white space), UTF-8 validity, [split], hex parsing.
    - [Admission] (cluster-core/src/lib.rs): roles, [canonical_address], [is_valid_cid],
      [allowed_peers], [allowed_set], [admit].
    - [Membership] (same file): Module [ClusterMembership], and Module [ClusterAdmission], the
      abstract machine of [formal/ClusterAdmission.tla] it refines.
    - [Session] (same file): the trait [ClusterTransport] as a class with its laws, and Module
      [ClusterSession], proved against the class.
    - [Seed] (cluster-core/src/seed.rs): the group seed's validation, percent codec, [encode] and
      [decode]; Module [GroupSeed].
    - [Device], [Registry], [EffectiveRoster] (cluster-core/src/device.rs): link and revocation
      bodies, their signed texts and verification, [DeviceRegistry]; its theorems; and
      [effective_roster] with [device_roster]. Signature recovery is the class [LinkVerifier].
    - [DeviceWire] (cluster-daemon/src/devices.rs): the EIP-191 verifier, an instance of that
      class over the class [Crypto] (k256, sha3, hex), and the wire records.
    - [Transport] (transport.rs): the trait [MeshTransport] as a class; [MeshView] says whom a
      transport authorises and how the network may move it, [MeshTransportLaws] what the daemon
      relies on; the in-process transport satisfies them, and so does libp2p ([SwarmSafety]).
    - [Daemon] (lib.rs), [Ipc] (ipc.rs): Module [ClusterDaemon], every operation, and
      [handle_request]. [Ipc.event] is all that can happen to a daemon: a request, a connection
      event, a move of the network in one group, a change of what the factory will answer.
    - [DaemonInv], [DaemonSafety], [DaemonFunctional]: the daemon's invariant, what holds after
      every sequence of events, and what the single operations answer.
    - [DeviceLinkSpec]: the machine of [formal/DeviceLink.tla], restated with a revocation per
      member as the registry keeps it, and the daemon as a refinement of it. [DeviceLinkTla]:
      the same model exactly as it is written, its invariants proved for any number of members,
      devices and keys, and the daemon as a refinement of it while each device key is claimed
      for one member only.
    - [Swarm], [SwarmLoop], [SwarmInv], [SwarmSafety] (libp2p_transport.rs): the pure helpers;
      the transport's two threads as steps ([surface_step], [task_step], a critical section a
      step, so a handler that takes the lock twice can be interrupted between); their invariant;
      and admission on the wire. [Redial]: what the task's two timers achieve.
      [HashOrder]: the loops over hash maps, over entries in any order.
    - [System]: the daemon over the libp2p transport, where the two sides meet; [WireRefine]:
      the same system against the machine of [formal/ClusterWireAdmission.tla], restated there.
    - [Fleet], [FleetSafety], [FleetLive]: many daemons over libp2p on one network. A step is a
      request to a node, a step of a node's swarm task, or a change of what a node's factory
      answers. Gossipsub may refuse a publication (its error is dropped by the code), and a
      published message is delivered only if a step delivers it: nothing says it must be. Gossipsub is run signed and strict, which is the one thing assumed of the
      network: a message whose source is a node of the fleet is delivered only after that node
      has published it on that group's topic. Strangers connect and publish as they like.
      [Eviction]: one node again, from the roster that leaves a peer out to its later answers.
    - [Server] (server.rs): the connection handler, from peer check to request loop, with the
      other connections' effects interleaved; its two kinds of turn, [handshake] and
      [loop_turn]. A stream is the bytes still to come and what follows them: its end, an error,
      or silence, in which a read fails when the receive time-out is set and blocks the thread
      for good when it is not.
    - [Serve] (server.rs): [bind_hardened] and [harden] over the umask and the file modes; and
      [serve], the accept loop with a thread per connection over the shared daemon, as a
      transition system whose schedules interleave accepts, turns and outside events.
    - [SwarmConfig] (libp2p_transport.rs): [build_swarm] and the gossipsub, score, mDNS and
      connection-limit settings; a built swarm is the configuration it has.
    - [Startup] (lib.rs, libp2p_transport.rs, main.rs): secret files, the environment, the
      transport factory and [main].
    - [Process]: all of it: what [main] starts, served, over libp2p.
    - [Fixture] (cluster-daemon/examples/devicelink_fixture.rs): the tool that mints a test
      fleet, in the state-and-error monad [M] with the triples of [Prelude].

    ** What the theorems show

    - The gate, end to end: [Process.process_keeps_the_gate] for the process [main] starts, from
      [System.mesh_carries_only_the_roster] (the daemon over libp2p, after any events), whose
      ground is [daemon_gate_holds] (any lawful transport), [authorized_is_allowed] (nobody allowed
      is kept out either), [wire_admission] (any schedule of the two
      threads), [session_keeps_the_gate], [membership_refines_admission],
      [mesh_refines_wire_admission], [daemon_refines_device_link],
      [daemon_refines_device_link_tla] (the three TLA+ machines; [tla_invariants] proves the
      third's own properties) and [effective_allowed_exactly]. A change of roster takes effect:
      [set_roster_takes_effect] in the request, [eviction_completes] on the wire, and
      [evicted_peer_is_silent] in every later answer.
    - Across machines: [shared_files_are_authentic], [closed_group_lists_only_shared_files] (what
      a node reports was shared by whom it says, in that group) and [shared_file_arrives] (a
      file asked for is published or refused by gossipsub, and if delivered, reported).
    - Device identity: [signed_text_determines_body], [verify_link_spec], [update_links_exactly],
      [update_order_independent], [update_reports_refusals], [revocation_sticky_and_authorised],
      [revoked_identities_stay_out], [revocation_is_permanent], [effective_roster_well_formed];
      and [fixture_signs_what_the_daemon_verifies], signing against verifying.
    - Who may ask: [serve_refines_events] (the pool of threads drives the daemon through a
      sequence of its own events, so the daemon's theorems hold with the server in front),
      [pool_answers_in_order] (what each connection of the pool is told, whatever the others
      do), [no_request_without_the_bearer], [connection_answers_in_order],
      [connection_ends_or_waits] (what a silent peer can hold), [bind_never_exposes],
      [startup_fails_closed], [secret_file_spec].
    - A group's swarm: [transport_for_spec] (what the factory builds, its settings as
      literal values: [gate_settings]), [score_gates_admission].
    - The daemon's behaviour: [group_isolation], [daemon_bounds],
      [refused_requests_change_nothing], [poll_delivers], [shared_file_pages_cover],
      [seed_then_add_seed], [peers_spec], [leave_forgets_the_mesh_only].
    - Codecs and grammars: [seed_round_trip], [seed_decode_sound], [pct_codec_lossless],
      [canonical_address_normal_form], [is_valid_cid_spec].
    - The swarm: [identify_decides], [message_accepted_exactly], [sweep_reaps_unidentified] and,
      over time, [unidentified_told_to_go], [late_authorisation_gets_in];
      [discovery_bounded], [seed_addrs_from_spec], [group_listen_spec];
      [hash_order_unobservable].
    - Where code and documentation part: [seed_new_exceeds_decode_limit],
      [pct_decode_accepts_sign], [revoked_key_relinked_by_other_member],
      [connected_outruns_authorized], [binary_line_called_too_large],
      [redial_starves_the_rest].

    ** How things are modelled

    Strings are byte strings ([String.string]), lengths and machine integers are [N]; the code's
    only arithmetic that can overflow, a group's port, is written with its check. A [BTreeMap] or
    [BTreeSet] is a [gmap] or [gset] iterated in key order ([map_entries], [set_iter]); a
    [HashMap] is iterated in key order too, which stands for whatever order it has:
    [hash_order_unobservable] proves that no run depends on it. [{:?}] of a string is the parameter
    [StrDebug]. A Rust [&mut self] method is a function that returns the new state, after the
    result.

    Fuel appears once: the request loop of a connection takes the bytes left to read as fuel
    ([conn_fuel]); each turn that continues reads at least one byte, so it is enough, which
    [connection_ends_or_waits] proves. The swarm task runs for ever and is a step function, its
    runs being lists of steps.

    Parameters, with the behaviour relied on: the hash and the signature library ([Crypto]; hex
    output is lowercase and two digits a byte, [CryptoLaws]); libp2p's keys, peer ids and
    addresses ([Libp2p]; a peer id determines its key, [Libp2pLaws]); JSON and the constant-time
    comparison ([Serde]; on equal lengths it is equality, [SerdeLaws]); the socket library
    ([LocalSocket]; a new socket file has the mode the umask leaves, [LocalSocketLaws]); the
    libp2p builder ([SwarmLib]; the score is a weighted sum, [ScoreLaws]); signing ([KeyPairs],
    [KeyLaws]); the file system, sockets and environment ([Startup.Host], and the [metadata]
    and [open_nofollow] arguments). Each class has a concrete instance against which the witnesses run.

    ** What is not modelled

    Poisoned mutexes (the code continues or answers empty); memory zeroisation; gossipsub's own
    rules (a peer is shut out when it is blacklisted and scored below the thresholds) and the
    enforcement of connection limits (the limits a swarm is built with are modelled); the JSON
    text of requests, answers and files; the clock, except as the times of the sweep's ticks and
    as whether a receive time-out is set when the peer goes silent (a pause shorter than the
    time-out is no event). A thread's turn is one step: what it reads and writes is its own
    stream, and the daemon is locked once in it. Other processes do not touch the socket's path
    between binding and [chmod].
    A path's parent and file name are given with it, as [std::path] finds them.
    Dropping a transport aborts its task, so a group that is left has neither: its session, the
    task's state included, goes from the daemon's table, and commands still queued are not taken.
    The addresses the swarm listens on start empty and change as libp2p reports
    ([TListening]). Events of the swarm are delivered for open connections only. A peer that reconnects before
    its close is seen keeps its identified state, as in the code. Device state is kept when a
    group is left, so it is not bounded by [MAX_GROUPS]. *)

From stdpp Require Export prelude gmap strings pretty sorting list fin_maps.
From Stdlib Require Export Ascii.

#[export] Set Warnings "-clear-no-such-hyp".

(** ** Results: Rust's [Result<A, E>] *)

Inductive result (A E : Type) : Type :=
| Ok (a : A)
| Err (e : E).
Global Arguments Ok {A E} a.
Global Arguments Err {A E} e.

Declare Scope cluster_scope.
Delimit Scope cluster_scope with cluster.

(** Rust's [?] on a [Result]: early return of the error. *)
Notation "'let?' x := e 'in' k" :=
  (match e with Ok x => k | Err err => Err err end)
  (at level 10, x pattern, e at level 200, k at level 200) : cluster_scope.
Global Open Scope cluster_scope.

Definition is_ok {A E} (r : result A E) : bool :=
  match r with Ok _ => true | Err _ => false end.

Definition map_err {A E F} (f : E → F) (r : result A E) : result A F :=
  match r with Ok a => Ok a | Err e => Err (f e) end.

(** Rust's [Option::ok_or]. *)
Definition ok_or {A E} (o : option A) (e : E) : result A E :=
  match o with Some a => Ok a | None => Err e end.

Global Instance result_eq_dec {A E} `{EqDecision A, EqDecision E} :
  EqDecision (result A E).
Proof. solve_decision. Defined.

(** ** Stateful, fallible code: [fn f(&mut self, ..) -> Result<A, String>]

    The state survives an early return, as a [&mut self] method's writes do. *)

Definition M (S A : Type) : Type := S → result A string * S.

Global Instance M_ret S : MRet (M S) := λ A a s, (Ok a, s).
Global Instance M_bind S : MBind (M S) := λ A B f m s,
  match m s with
  | (Ok a, s') => f a s'
  | (Err e, s') => (Err e, s')
  end.
Definition mfail {S A} (e : string) : M S A := λ s, (Err e, s).
Definition mget {S A} (f : S → A) : M S A := λ s, (Ok (f s), s).
Definition mmodify {S} (f : S → S) : M S unit := λ s, (Ok tt, f s).
Definition mlift {S A} (r : result A string) : M S A := λ s, (r, s).

(** What a computation keeps of the state, whether or not it fails, and what its result is
    when it does not. *)
Definition triple {S A} (P : S → Prop) (m : M S A) (Q : A → Prop) : Prop :=
  ∀ s, P s → P (m s).2 ∧ ∀ a, (m s).1 = Ok a → Q a.

Section triple.
  Context {S : Type} (P : S → Prop).

Lemma triple_ret {A} (a : A) (Q : A → Prop) : Q a → triple P (mret a) Q.
Proof. intros HQ s Hs. split; [done|]. by intros a' [= <-]. Qed.

Lemma triple_bind {A B} (m : M S A) (f : A → M S B) Q R :
  triple P m Q → (∀ a, Q a → triple P (f a) R) → triple P (m ≫= f) R.
Proof.
  intros Hm Hf s Hs. destruct (Hm s Hs) as [HP HQ]. unfold mbind, M_bind.
  destruct (m s) as [[a|e] s']; simpl in *; [|done]. by apply Hf; [apply HQ|].
Qed.

Lemma triple_lift {A} (r : result A string) : triple P (mlift r) (λ a, r = Ok a).
Proof. by intros s Hs. Qed.

Lemma triple_fail {A} (e : string) (Q : A → Prop) : triple P (mfail e) Q.
Proof. by intros s Hs. Qed.

Lemma triple_conseq {A} (m : M S A) (Q R : A → Prop) :
  triple P m Q → (∀ a, Q a → R a) → triple P m R.
Proof. intros Hm HR s Hs. destruct (Hm s Hs) as [HP HQ]. split; [done|]. auto. Qed.

Lemma triple_mapM {A B} (f : A → M S B) (l : list A) (Q : A → B → Prop) :
  (∀ x, x ∈ l → triple P (f x) (Q x)) → triple P (mapM f l) (Forall2 Q l).
Proof.
  induction l as [|x l IH]; intros Hf; simpl; [by apply triple_ret|].
  eapply triple_bind; [apply Hf; left|]. intros y Hy.
  eapply triple_bind; [apply IH; intros; apply Hf; by right|]. intros ys Hys.
  apply triple_ret. by constructor.
Qed.
End triple.

(** ** Ordered keys: the order a [BTreeSet]/[BTreeMap] iterates in and [sort] uses *)

Class Ord (K : Type) := {
  ord_le : relation K;
  ord_dec :: RelDecision ord_le;
  ord_po :: PartialOrder ord_le;
  ord_total :: Total ord_le;
}.

Global Arguments ord_le : simpl never.

Global Program Instance string_ord : Ord string := {| ord_le := String.le |}.

Global Program Instance N_ord : Ord N := {| ord_le := N.le |}.

(** Lexicographic order on pairs: [Ord] for tuples. *)
Definition pair_le {A B} `{!Ord A, !Ord B} (p q : A * B) : Prop :=
  ord_le p.1 q.1 ∧ (p.1 = q.1 → ord_le p.2 q.2).

Section pair_ord.
  Context {A B : Type} `{!Ord A, !Ord B}.
  Context `{!EqDecision A}.

Global Instance pair_le_dec : RelDecision (pair_le (A:=A) (B:=B)).
Proof. intros p q. unfold pair_le. apply _. Defined.

Global Instance pair_le_po : PartialOrder (pair_le (A:=A) (B:=B)).
Proof.
  split; [split|].
  - intros [a b]. split; simpl; [reflexivity|intros; reflexivity].
  - intros [a1 b1] [a2 b2] [a3 b3] [H1 H2] [H3 H4]; simpl in *. split; simpl.
    + by etrans.
    + intros ->. assert (a3 = a2) as -> by (by apply (anti_symm ord_le)).
      etrans; eauto.
  - intros [a1 b1] [a2 b2] [H1 H2] [H3 H4]; simpl in *.
    assert (a1 = a2) as -> by (by apply (anti_symm ord_le)).
    f_equal. apply (anti_symm ord_le); auto.
Qed.

Global Instance pair_le_total : Total (pair_le (A:=A) (B:=B)).
Proof.
  intros [a1 b1] [a2 b2]. unfold pair_le; simpl.
  destruct (decide (a1 = a2)) as [->|Hne].
  - destruct (total ord_le b1 b2); [left|right]; split; auto; reflexivity.
  - destruct (total ord_le a1 a2); [left|right]; split; auto; congruence.
Qed.

Global Instance pair_ord : Ord (A * B) := {| ord_le := pair_le |}.
End pair_ord.

(** ** Rust's stable [sort_by], as an insertion sort *)

Section stable_sort.
  Context {A : Type} (R : relation A) `{!RelDecision R}.

Fixpoint insert_sorted (x : A) (l : list A) : list A :=
  match l with
  | [] => [x]
  | y :: l' => if decide (R x y) then x :: y :: l' else y :: insert_sorted x l'
  end.

Fixpoint stable_sort (l : list A) : list A :=
  match l with
  | [] => []
  | x :: l' => insert_sorted x (stable_sort l')
  end.

Lemma insert_sorted_Permutation x l : insert_sorted x l ≡ₚ x :: l.
Proof.
  induction l as [|y l IH]; simpl; [done|].
  case_decide; [done|]. rewrite IH. apply Permutation_swap.
Qed.

Lemma stable_sort_Permutation l : stable_sort l ≡ₚ l.
Proof.
  induction l as [|x l IH]; simpl; [done|].
  by rewrite insert_sorted_Permutation, IH.
Qed.

Lemma insert_sorted_Sorted `{!Transitive R, !Total R} x l :
  StronglySorted R l → StronglySorted R (insert_sorted x l).
Proof.
  induction 1 as [|y l Hs IH Hf]; simpl; [repeat constructor|].
  case_decide as Hxy.
  - constructor; [by constructor|]. constructor; [done|].
    eapply Forall_impl; [exact Hf|]. intros z ?. by etrans.
  - constructor; [done|].
    rewrite insert_sorted_Permutation. constructor; [|done].
    destruct (total R x y); done.
Qed.

Lemma stable_sort_Sorted `{!Transitive R, !Total R} l :
  StronglySorted R (stable_sort l).
Proof. induction l; simpl; [constructor|by apply insert_sorted_Sorted]. Qed.

Lemma elem_of_stable_sort x l : x ∈ stable_sort l ↔ x ∈ l.
Proof. by rewrite stable_sort_Permutation. Qed.

Lemma length_stable_sort l : length (stable_sort l) = length l.
Proof. by rewrite stable_sort_Permutation. Qed.

Lemma stable_sort_nil_inv l : stable_sort l = [] → l = [].
Proof. intros H. apply Permutation_nil_r. by rewrite <-H, stable_sort_Permutation. Qed.

Lemma NoDup_stable_sort l : NoDup l → NoDup (stable_sort l).
Proof. by rewrite stable_sort_Permutation. Qed.

(** Two permutations of one list sort alike, when the order separates their elements. *)
Lemma stable_sort_perm `{!Transitive R, !Total R, !AntiSymm (=) R} l1 l2 :
  l1 ≡ₚ l2 → stable_sort l1 = stable_sort l2.
Proof.
  intros Hp. apply (StronglySorted_unique R); auto using stable_sort_Sorted.
  by rewrite !stable_sort_Permutation.
Qed.
End stable_sort.

(** Rust's [sort_by_key]: entries with distinct keys sort alike whatever their order. *)
Definition key_le {K V} `{!Ord K} (e1 e2 : K * V) : Prop := ord_le e1.1 e2.1.

Global Instance key_le_dec {K V} `{!Ord K} : RelDecision (key_le (K:=K) (V:=V)).
Proof. intros e1 e2. unfold key_le. apply _. Defined.
Global Instance key_le_trans {K V} `{!Ord K} : Transitive (key_le (K:=K) (V:=V)).
Proof. intros e1 e2 e3. unfold key_le. apply (transitivity (R:=ord_le)). Qed.
Global Instance key_le_total {K V} `{!Ord K} : Total (key_le (K:=K) (V:=V)).
Proof. intros e1 e2. unfold key_le. apply (total ord_le). Qed.

Lemma NoDup_keys_inj {K V} (l : list (K * V)) e1 e2 :
  NoDup l.*1 → e1 ∈ l → e2 ∈ l → e1.1 = e2.1 → e1 = e2.
Proof.
  intros Hl H1 H2 Hk. apply list_elem_of_lookup_1 in H1 as [i Hi], H2 as [j Hj].
  assert (l.*1 !! i = Some e1.1) as Hi' by by rewrite list_lookup_fmap, Hi.
  assert (l.*1 !! j = Some e1.1) as Hj' by by rewrite list_lookup_fmap, Hj, Hk.
  pose proof (NoDup_lookup _ _ _ _ Hl Hi' Hj') as <-. congruence.
Qed.

Lemma sort_by_key_unique {K V} `{!Ord K} (l1 l2 : list (K * V)) :
  l1 ≡ₚ l2 → NoDup l2.*1 → StronglySorted key_le l2 → stable_sort key_le l1 = l2.
Proof.
  intros Hp Hd Hs. apply (StronglySorted_unique_strong key_le).
  - intros e1 e2 H1 H2 H12 H21. apply (NoDup_keys_inj l2); [done| |done|].
    + by rewrite <-Hp, <-(elem_of_stable_sort key_le).
    + by apply (anti_symm ord_le).
  - apply stable_sort_Sorted; apply _.
  - done.
  - by rewrite stable_sort_Permutation.
Qed.

(** Steps that commute may be taken in any order. *)
Lemma fold_left_perm {S A} (f : S → A → S) l1 l2 s :
  (∀ s x y, f (f s x) y = f (f s y) x) → l1 ≡ₚ l2 → fold_left f l1 s = fold_left f l2 s.
Proof.
  intros Hf Hp. revert s. induction Hp as [|x l1 l2 Hp IH|x y l|l1 l2 l3 H1 IH1 H2 IH2];
    intros s; simpl; [done|by apply IH|by rewrite Hf|by rewrite IH1].
Qed.

Lemma fold_left_mapped {S A B} (g : A → B) (f : S → B → S) l s :
  fold_left f (map g l) s = fold_left (λ s x, f s (g x)) l s.
Proof. revert s. induction l as [|x l IH]; intros s; simpl; [done|]. by rewrite IH. Qed.

Lemma filter_bool_perm {A} (P : A → bool) l1 l2 :
  l1 ≡ₚ l2 → List.filter P l1 ≡ₚ List.filter P l2.
Proof.
  induction 1; simpl; repeat case_match; eauto using Permutation_swap, Permutation_trans.
Qed.

(** The last element of a sorted list is the greatest. *)
Lemma StronglySorted_last {A} (R : relation A) `{!Reflexive R} l y x :
  StronglySorted R l → last l = Some y → x ∈ l → R x y.
Proof.
  intros Hs Hl Hx. apply last_Some in Hl as [l' ->].
  apply elem_of_app in Hx as [Hx|Hx%list_elem_of_singleton]; [|by subst].
  eapply StronglySorted_app_1_elem_of; [done..|]. by left.
Qed.

Lemma last_elem_of {A} (l : list A) y : last l = Some y → y ∈ l.
Proof. intros [l' ->]%last_Some. set_solver. Qed.

Lemma last_is_Some_ne {A} (l : list A) : l ≠ [] → is_Some (last l).
Proof. intros. by apply last_is_Some. Qed.

(** ** Iterating a [BTreeSet] and a [BTreeMap]: ascending key order *)

Section btree.
  Context {K : Type} `{Countable K, !Ord K}.

Definition set_iter (s : gset K) : list K := stable_sort ord_le (elements s).

Lemma elem_of_set_iter x s : x ∈ set_iter s ↔ x ∈ s.
Proof. unfold set_iter. by rewrite elem_of_stable_sort, elem_of_elements. Qed.

Lemma NoDup_set_iter s : NoDup (set_iter s).
Proof. apply NoDup_stable_sort, NoDup_elements. Qed.

Lemma set_iter_Sorted s : StronglySorted ord_le (set_iter s).
Proof. apply stable_sort_Sorted. apply _. apply _. Qed.

Lemma length_set_iter s : length (set_iter s) = size s.
Proof. apply length_stable_sort. Qed.

Lemma list_to_set_set_iter s : list_to_set (C:=gset K) (set_iter s) = s.
Proof. apply set_eq. intros x. by rewrite elem_of_list_to_set, elem_of_set_iter. Qed.

Context {V : Type}.

(** Entries in key order: the keys are visited ascending and each looked up. *)
Definition map_entries (m : gmap K V) : list (K * V) :=
  omap (λ k, pair k <$> m !! k) (set_iter (dom m)).

Lemma elem_of_map_entries k v (m : gmap K V) : (k, v) ∈ map_entries m ↔ m !! k = Some v.
Proof.
  unfold map_entries. rewrite list_elem_of_omap. split.
  - intros (k' & _ & Hk). destruct (m !! k') eqn:E; naive_solver.
  - intros Hk. exists k. rewrite Hk. split; [|done].
    rewrite elem_of_set_iter. by apply elem_of_dom_2 in Hk.
Qed.

Lemma map_entries_keys (m : gmap K V) : (map_entries m).*1 = set_iter (dom m).
Proof.
  unfold map_entries.
  assert (∀ l, (∀ k, k ∈ l → is_Some (m !! k)) →
    (omap (λ k, pair k <$> m !! k) l).*1 = l) as Hl.
  { induction l as [|k l IH]; intros Hk; simpl; [done|].
    destruct (Hk k) as [v Hv]; [left|]. rewrite Hv; simpl. f_equal.
    apply IH. intros k' ?. apply Hk. by right. }
  apply Hl. intros k. rewrite elem_of_set_iter. apply elem_of_dom.
Qed.

Lemma NoDup_map_entries_keys (m : gmap K V) : NoDup (map_entries m).*1.
Proof. rewrite map_entries_keys. apply NoDup_set_iter. Qed.

Lemma map_entries_perm (m : gmap K V) : map_entries m ≡ₚ map_to_list m.
Proof.
  apply NoDup_Permutation.
  - eapply NoDup_fmap_1, NoDup_map_entries_keys.
  - apply NoDup_map_to_list.
  - intros [k v]. by rewrite elem_of_map_entries, elem_of_map_to_list.
Qed.

Lemma map_entries_Sorted (m : gmap K V) : StronglySorted key_le (map_entries m).
Proof.
  assert (StronglySorted ord_le (map_entries m).*1) as Hs
    by (rewrite map_entries_keys; apply set_iter_Sorted).
  revert Hs. induction (map_entries m) as [|e l IH]; [constructor|]. simpl.
  intros [Hs Hf]%StronglySorted_inv. constructor; [by apply IH|].
  by rewrite Forall_fmap in Hf.
Qed.
End btree.

Lemma some_default {A} (x : option A) y : is_Some x → x = Some (default y x).
Proof. by intros [z ->]. Qed.

(** ** [Vec::iter().filter(..)] keeps order *)

(** What no step of a fold changes, the fold does not. *)
Lemma fold_projection {S A X} (π : S → X) (f : S → A → S) l s :
  (∀ s x, π (f s x) = π s) → π (fold_left f l s) = π s.
Proof. intros Hf. revert s. induction l as [|x l IH]; intros s; simpl; [done|]. by rewrite IH. Qed.

Lemma StronglySorted_filter_bool {A} (R : relation A) (P : A → bool) l :
  StronglySorted R l → StronglySorted R (List.filter P l).
Proof.
  induction 1 as [|x l Hs IH Hf]; simpl; [constructor|].
  case_match; [|done]. constructor; [done|].
  rewrite Forall_forall in *. intros y Hy.
  apply Hf. rewrite list_elem_of_In in *. by apply filter_In in Hy as [? _].
Qed.

Lemma sublist_filter_bool {A} (P : A → bool) (l : list A) : List.filter P l `sublist_of` l.
Proof. induction l as [|x l IH]; simpl; [constructor|]. case_match; by constructor. Qed.

Lemma sublist_map {A B} (f : A → B) l k : l `sublist_of` k → map f l `sublist_of` map f k.
Proof. induction 1; simpl; by constructor. Qed.

Lemma StronglySorted_sublist {A} (R : relation A) l k :
  l `sublist_of` k → StronglySorted R k → StronglySorted R l.
Proof.
  induction 1 as [|x l k Hs IH|x l k Hs IH]; [done|..].
  - intros [Hk Hf]%StronglySorted_inv. constructor; [auto|].
    rewrite Forall_forall in *. intros y Hy. apply Hf.
    eapply elem_of_submseteq; [exact Hy|by apply sublist_submseteq].
  - intros [Hk _]%StronglySorted_inv. auto.
Qed.

Lemma NoDup_filter_bool {A} (P : A → bool) (l : list A) : NoDup l → NoDup (List.filter P l).
Proof. rewrite !NoDup_ListNoDup. apply List.NoDup_filter. Qed.

(** ** The development's automation *)

Create HintDb cluster.

(** Case analysis on the [decide]s, matches and boolean tests of the goal and context. *)
Ltac split_bools :=
  repeat match goal with
  | H : _ && _ = true |- _ => apply andb_true_iff in H as [? ?]
  | H : _ || _ = false |- _ => apply orb_false_iff in H as [? ?]
  | H : negb _ = true |- _ => apply negb_true_iff in H
  | H : negb _ = false |- _ => apply negb_false_iff in H
  | H : bool_decide _ = true |- _ => apply bool_decide_eq_true in H
  | H : bool_decide _ = false |- _ => apply bool_decide_eq_false in H
  | H : (_ <=? _)%N = true |- _ => apply N.leb_le in H
  | H : (_ <=? _)%N = false |- _ => apply N.leb_gt in H
  | H : (_ <? _)%N = true |- _ => apply N.ltb_lt in H
  | H : (_ <? _)%N = false |- _ => apply N.ltb_ge in H
  | H : (_ =? _)%N = true |- _ => apply N.eqb_eq in H
  | H : (_ =? _)%N = false |- _ => apply N.eqb_neq in H
  end.

Ltac case_matches :=
  repeat (case_match; simplify_eq/=); split_bools.

(** Membership goals over sets built by the model's operations. *)
Ltac set_crush := intros; set_unfold; naive_solver.

(** ** Bit masks *)

(** A masked word is zero exactly when the word has none of the mask's bits. *)
Lemma land_zero_bits (m k : N) :
  N.land m k = 0%N ↔ ∀ i, N.testbit k i = true → N.testbit m i = false.
Proof.
  split.
  - intros H i Hi. apply (f_equal (λ n, N.testbit n i)) in H.
    rewrite N.land_spec, N.bits_0, Hi, andb_true_r in H. done.
  - intros H. apply N.bits_inj. intros i. rewrite N.land_spec, N.bits_0.
    destruct (N.testbit k i) eqn:Hk; [|by rewrite andb_false_r]. by rewrite H.
Qed.
