(* ===== verification/RustStr.v ===== *)
(** * Rust strings

    A Rust [String]/[&str] is its UTF-8 byte sequence, here a [string] (one [ascii]
    per byte).  This file models the standard-library functions the sources call on
    strings ([trim], [trim_start_matches], [split], [split_once], [strip_prefix],
    [to_ascii_lowercase], the [is_ascii_*] byte classes, [String::from_utf8],
    [u8::from_str_radix], [format!] of integers) and the lemmas the components share. *)

From S2P Require Import Prelude.
Local Open Scope N_scope.

(** ** Bytes *)

Definition byte_in (lo hi : N) (c : ascii) : bool :=
  (lo <=? N_of_ascii c) && (N_of_ascii c <=? hi).

Definition is_ascii_digit : ascii → bool := byte_in 48 57.
Definition is_ascii_uppercase : ascii → bool := byte_in 65 90.
Definition is_ascii_lowercase : ascii → bool := byte_in 97 122.
Definition is_ascii_alphanumeric (c : ascii) : bool :=
  is_ascii_digit c || is_ascii_uppercase c || is_ascii_lowercase c.
Definition is_ascii_hexdigit (c : ascii) : bool :=
  is_ascii_digit c || byte_in 65 70 c || byte_in 97 102 c.
Definition is_ascii_graphic : ascii → bool := byte_in 33 126.
Definition byte_lower (c : ascii) : ascii :=
  if is_ascii_uppercase c then ascii_of_N (N_of_ascii c + 32) else c.

(** Facts about single bytes are decided by running through all 256 of them. *)
Definition all_bytes : list ascii := map ascii_of_nat (seq 0 256).

Lemma all_bytes_spec c : c ∈ all_bytes.
Proof.
  unfold all_bytes. apply list_elem_of_fmap. exists (nat_of_ascii c). split.
  - by rewrite ascii_nat_embedding.
  - apply elem_of_seq. pose proof (nat_ascii_bounded c). lia.
Qed.

Lemma byte_forall (P : ascii → bool) : forallb P all_bytes = true → ∀ c, P c = true.
Proof.
  intros H c. rewrite forallb_forall in H. apply H, list_elem_of_In, all_bytes_spec.
Qed.

Lemma byte_impl (P Q : ascii → bool) :
  forallb (λ c, negb (P c) || Q c) all_bytes = true → ∀ c, P c = true → Q c = true.
Proof.
  intros H c HP. pose proof (byte_forall _ H c) as Hc. simpl in Hc. by rewrite HP in Hc.
Qed.

(** Closes [G c = true] from a hypothesis [A c = true] by checking all bytes. *)
Ltac byte_solve :=
  match goal with
  | c : ascii, H : ?A = true |- ?G = true =>
      lazymatch A with context [c] => idtac end;
      let P := (eval pattern c in A) in
      let Q := (eval pattern c in G) in
      lazymatch P with
      | ?P' c => lazymatch Q with
        | ?Q' c => exact (byte_impl P' Q' ltac:(vm_compute; reflexivity) c H)
        end
      end
  end.

(** ** Strings as byte sequences *)

Fixpoint str_all (p : ascii → bool) (s : string) : bool :=
  match s with
  | "" => true
  | String c s' => p c && str_all p s'
  end.

Fixpoint str_any (p : ascii → bool) (s : string) : bool :=
  match s with
  | "" => false
  | String c s' => p c || str_any p s'
  end.

Fixpoint str_map (f : ascii → ascii) (s : string) : string :=
  match s with
  | "" => ""
  | String c s' => String (f c) (str_map f s')
  end.

(** [str::len]: the number of bytes, a [usize]. *)
Definition str_len (s : string) : N := N.of_nat (String.length s).

Definition str_is_empty (s : string) : bool :=
  match s with "" => true | _ => false end.

Definition to_ascii_lowercase (s : string) : string := str_map byte_lower s.

(** [str::strip_prefix]. *)
Fixpoint strip_prefix (p s : string) : option string :=
  match p, s with
  | "", _ => Some s
  | String a p', String b s' => if decide (a = b) then strip_prefix p' s' else None
  | _, "" => None
  end.

Definition starts_with (p s : string) : bool :=
  match strip_prefix p s with Some _ => true | None => false end.

(** [str::trim_start_matches("0x")]: strips the pattern repeatedly. *)
Fixpoint trim_start_0x (s : string) : string :=
  match s with
  | String "0" (String "x" s') => trim_start_0x s'
  | _ => s
  end.

(** [str::split(c)]: the pieces between the separators, one more than there are. *)
Fixpoint str_split (sep : ascii) (s : string) : list string :=
  match s with
  | "" => [""]
  | String c s' =>
      if decide (c = sep) then "" :: str_split sep s'
      else match str_split sep s' with
           | p :: ps => String c p :: ps
           | [] => [String c ""]
           end
  end.

(** [str::split_once(c)]. *)
Fixpoint split_once (sep : ascii) (s : string) : option (string * string) :=
  match s with
  | "" => None
  | String c s' =>
      if decide (c = sep) then Some ("", s')
      else match split_once sep s' with
           | Some (a, b) => Some (String c a, b)
           | None => None
           end
  end.

(** ** [str::trim]: Unicode White_Space, on the UTF-8 bytes

    White_Space is U+0009..U+000D, U+0020, U+0085, U+00A0, U+1680, U+2000..U+200A,
    U+2028, U+2029, U+202F, U+205F and U+3000; their encodings take one, two or three
    bytes.  No encoding of another character starts with one of these sequences, so
    on valid UTF-8 the byte-level test is the character-level one. *)

Definition ws1 (c : ascii) : bool := byte_in 9 13 c || byte_in 32 32 c.
Definition ws2 (c d : ascii) : bool :=
  byte_in 0xC2 0xC2 c && (byte_in 0x85 0x85 d || byte_in 0xA0 0xA0 d).
Definition ws3 (c d e : ascii) : bool :=
  (byte_in 0xE1 0xE1 c && byte_in 0x9A 0x9A d && byte_in 0x80 0x80 e)
  || (byte_in 0xE2 0xE2 c && byte_in 0x80 0x80 d
        && (byte_in 0x80 0x8A e || byte_in 0xA8 0xA9 e || byte_in 0xAF 0xAF e))
  || (byte_in 0xE2 0xE2 c && byte_in 0x81 0x81 d && byte_in 0x9F 0x9F e)
  || (byte_in 0xE3 0xE3 c && byte_in 0x80 0x80 d && byte_in 0x80 0x80 e).

Fixpoint trim_start (s : string) : string :=
  match s with
  | "" => ""
  | String c s1 =>
      if ws1 c then trim_start s1 else
      match s1 with
      | "" => s
      | String d s2 =>
          if ws2 c d then trim_start s2 else
          match s2 with
          | "" => s
          | String e s3 => if ws3 c d e then trim_start s3 else s
          end
      end
  end.

(** Drops the longest suffix made of whitespace only. *)
Fixpoint trim_end (s : string) : string :=
  match s with
  | "" => ""
  | String c s' => if str_is_empty (trim_start s) then "" else String c (trim_end s')
  end.

Definition trim (s : string) : string := trim_end (trim_start s).

(** ** UTF-8 ([String::from_utf8], [str::from_utf8]): the well-formed byte sequences *)

Definition utf8_tail : ascii → bool := byte_in 0x80 0xBF.

Fixpoint utf8_valid (s : string) : bool :=
  match s with
  | "" => true
  | String c0 s1 =>
      if byte_in 0x00 0x7F c0 then utf8_valid s1 else
      match s1 with
      | "" => false
      | String c1 s2 =>
          if byte_in 0xC2 0xDF c0 then utf8_tail c1 && utf8_valid s2 else
          match s2 with
          | "" => false
          | String c2 s3 =>
              if byte_in 0xE0 0xEF c0 then
                (if byte_in 0xE0 0xE0 c0 then byte_in 0xA0 0xBF c1
                 else if byte_in 0xED 0xED c0 then byte_in 0x80 0x9F c1
                 else utf8_tail c1)
                && utf8_tail c2 && utf8_valid s3
              else
                match s3 with
                | "" => false
                | String c3 s4 =>
                    byte_in 0xF0 0xF4 c0
                    && (if byte_in 0xF0 0xF0 c0 then byte_in 0x90 0xBF c1
                        else if byte_in 0xF4 0xF4 c0 then byte_in 0x80 0x8F c1
                        else utf8_tail c1)
                    && utf8_tail c2 && utf8_tail c3 && utf8_valid s4
                end
          end
      end
  end.

(** [s.chars().any(char::is_control)]: U+0000..U+001F, U+007F and U+0080..U+009F. *)
Fixpoint has_control (s : string) : bool :=
  match s with
  | "" => false
  | String c s' =>
      byte_in 0x00 0x1F c || byte_in 0x7F 0x7F c
      || match s' with
         | String d _ => byte_in 0xC2 0xC2 c && byte_in 0x80 0x9F d
         | "" => false
         end
      || has_control s'
  end.

(** ** Hexadecimal *)

Definition hex_digit_val (c : ascii) : option N :=
  if is_ascii_digit c then Some (N_of_ascii c - 48)
  else if byte_in 65 70 c then Some (N_of_ascii c - 55)
  else if byte_in 97 102 c then Some (N_of_ascii c - 87)
  else None.

(** The digit loop of [u8::from_str_radix(_, 16)], with its overflow checks. *)
Fixpoint radix16_loop (acc : N) (s : string) : option N :=
  match s with
  | "" => Some acc
  | String c s' =>
      match hex_digit_val c with
      | Some d => if acc * 16 + d <=? 255 then radix16_loop (acc * 16 + d) s' else None
      | None => None
      end
  end.

(** [u8::from_str_radix(s, 16)]: empty is an error, and so is a sign alone; a leading
    [+] is accepted, a leading [-] is an invalid digit for an unsigned type. *)
Definition u8_from_str_radix16 (s : string) : option N :=
  match s with
  | "" => None
  | "+" | "-" => None
  | String "+" s' => radix16_loop 0 s'
  | _ => radix16_loop 0 s
  end.

Definition hex_upper_char (n : N) : ascii :=
  if n <? 10 then ascii_of_N (48 + n) else ascii_of_N (55 + n).

(** [format!("%{b:02X}")]. *)
Definition pct_escape (b : ascii) : string :=
  String "%" (String (hex_upper_char (N_of_ascii b / 16))
                     (String (hex_upper_char (N_of_ascii b mod 16)) "")).

(** ** Lemmas on byte sequences *)

Section bytes.
  Implicit Types (s t u : string) (p q : ascii → bool) (c d : ascii).

Lemma str_cons_app c s t : String c s +:+ t = String c (s +:+ t).
Proof. done. Qed.

Lemma str_nil_app t : "" +:+ t = t.
Proof. done. Qed.

Lemma str_app_assoc s t u : s +:+ (t +:+ u) = (s +:+ t) +:+ u.
Proof. induction s; [done|]. rewrite !str_cons_app. by f_equal. Qed.

Lemma str_app_nil_r s : s +:+ "" = s.
Proof. induction s; [done|]. rewrite str_cons_app. by f_equal. Qed.

Lemma length_str_app s t : String.length (s +:+ t) = (String.length s + String.length t)%nat.
Proof. induction s; [done|]. rewrite str_cons_app. simpl. by f_equal. Qed.

Lemma str_len_app s t : str_len (s +:+ t) = str_len s + str_len t.
Proof. unfold str_len. rewrite length_str_app. lia. Qed.

Lemma str_len_cons c s : str_len (String c s) = 1 + str_len s.
Proof. unfold str_len. simpl. lia. Qed.

Lemma str_all_cons p c s : str_all p (String c s) = p c && str_all p s.
Proof. done. Qed.

Lemma str_all_app p s t : str_all p (s +:+ t) = str_all p s && str_all p t.
Proof.
  induction s as [|c s IH]; [done|]. rewrite str_cons_app. simpl.
  by rewrite IH, andb_assoc.
Qed.

Lemma str_any_app p s t : str_any p (s +:+ t) = str_any p s || str_any p t.
Proof.
  induction s as [|c s IH]; [done|]. rewrite str_cons_app. simpl.
  by rewrite IH, orb_assoc.
Qed.

Lemma str_all_impl p q s :
  (∀ c, p c = true → q c = true) → str_all p s = true → str_all q s = true.
Proof.
  intros Hpq. induction s as [|c s IH]; simpl; [done|].
  intros; split_bools. rewrite Hpq; auto.
Qed.

Lemma str_all_any p s : str_all (λ c, negb (p c)) s = negb (str_any p s).
Proof. induction s as [|c s IH]; simpl; [done|]. by rewrite IH, negb_orb. Qed.

Lemma str_map_id f s : str_all (λ c, bool_decide (f c = c)) s = true → str_map f s = s.
Proof.
  induction s as [|c s IH]; simpl; [done|]. intros; split_bools. f_equal; auto.
Qed.

Lemma length_str_map f s : String.length (str_map f s) = String.length s.
Proof. induction s; simpl; auto. Qed.

Lemma str_all_map p f s : str_all p (str_map f s) = str_all (λ c, p (f c)) s.
Proof. induction s as [|c s IH]; simpl; [done|]. by rewrite IH. Qed.

Lemma str_map_map f g s :
  (∀ c, f (g c) = f c) → str_map f (str_map g s) = str_map f s.
Proof. intros H. induction s; simpl; [done|]. by f_equal. Qed.

Lemma str_app_inv_head s t u : s +:+ t = s +:+ u → t = u.
Proof. intros. by apply (inj (String.app s)). Qed.

(** Equal-length prefixes of equal strings are equal. *)
Lemma str_app_inj s1 s2 t1 t2 :
  String.length s1 = String.length s2 →
  s1 +:+ t1 = s2 +:+ t2 → s1 = s2 ∧ t1 = t2.
Proof.
  revert s2. induction s1 as [|c s1 IH]; intros [|d s2] Hl; simplify_eq/=; [done|].
  rewrite !str_cons_app. intros [= -> H]. apply IH in H as [-> ->]; auto.
Qed.

(** Fields up to a separator that occurs in neither are equal. *)
Lemma str_sep_inj sep s1 s2 t1 t2 :
  str_any (λ c, bool_decide (c = sep)) s1 = false →
  str_any (λ c, bool_decide (c = sep)) s2 = false →
  s1 +:+ String sep t1 = s2 +:+ String sep t2 → s1 = s2 ∧ t1 = t2.
Proof.
  revert s2. induction s1 as [|c s1 IH]; intros [|d s2] H1 H2;
    rewrite ?str_cons_app, ?str_nil_app; intros Heq; simplify_eq/=; split_bools;
    [done|done|done|].
  edestruct IH as [-> ->]; eauto.
Qed.

Lemma strip_prefix_app u s : strip_prefix u (u +:+ s) = Some s.
Proof.
  induction u as [|c u IH]; [done|]. rewrite str_cons_app. simpl.
  by rewrite decide_True.
Qed.

Lemma strip_prefix_Some u s t : strip_prefix u s = Some t ↔ s = u +:+ t.
Proof.
  split; [|intros ->; apply strip_prefix_app].
  revert s. induction u as [|c u IH]; intros [|d s]; simpl; intros; simplify_eq; try done.
  case_decide; simplify_eq. rewrite str_cons_app. f_equal. auto.
Qed.

End bytes.

Create Rewrite HintDb str.
#[export] Hint Rewrite str_cons_app str_nil_app str_app_nil_r str_len_app str_len_cons
  str_all_app str_any_app andb_true_iff : str.

(** ** Lemmas on [trim] *)

Lemma graphic_not_ws1 c : is_ascii_graphic c = true → ws1 c = false.
Proof. rewrite <-negb_true_iff. intros H. byte_solve. Qed.

Lemma graphic_not_ws2 c d : is_ascii_graphic c = true → ws2 c d = false.
Proof.
  intros H. unfold ws2. apply andb_false_iff. left.
  rewrite <-negb_true_iff. byte_solve.
Qed.

Lemma graphic_not_ws3 c d e : is_ascii_graphic c = true → ws3 c d e = false.
Proof.
  intros H. unfold ws3.
  assert (byte_in 225 225 c = false ∧ byte_in 226 226 c = false ∧ byte_in 227 227 c = false)
    as (-> & -> & ->); [|done].
  repeat split; rewrite <-negb_true_iff; byte_solve.
Qed.

Lemma trim_start_graphic c s :
  is_ascii_graphic c = true → trim_start (String c s) = String c s.
Proof.
  intros H. simpl. rewrite graphic_not_ws1 by done.
  destruct s as [|d [|e s]]; rewrite ?graphic_not_ws2, ?graphic_not_ws3 by done; done.
Qed.

Lemma trim_start_ws1 w s : str_all ws1 w = true → trim_start (w +:+ s) = trim_start s.
Proof.
  induction w as [|c w IH]; [done|]. rewrite str_cons_app. simpl. intros; split_bools.
  rewrite H. auto.
Qed.

Lemma trim_end_ws1 w : str_all ws1 w = true → trim_end w = "".
Proof.
  intros H. destruct w as [|c w]; [done|].
  pose proof (trim_start_ws1 (String c w) "" H) as Hs. rewrite str_app_nil_r in Hs.
  change (trim_end (String c w)) with
    (if str_is_empty (trim_start (String c w)) then "" else String c (trim_end w)).
  by rewrite Hs.
Qed.

Lemma trim_end_graphic s w :
  str_all is_ascii_graphic s = true → str_all ws1 w = true → trim_end (s +:+ w) = s.
Proof.
  intros Hs Hw. induction s as [|c s IH]; [by apply trim_end_ws1|].
  simpl in Hs. split_bools. rewrite str_cons_app.
  change (trim_end (String c (s +:+ w))) with
    (if str_is_empty (trim_start (String c (s +:+ w))) then ""
     else String c (trim_end (s +:+ w))).
  rewrite trim_start_graphic by done. simpl. f_equal. auto.
Qed.

(** Whitespace around a graphic string is exactly what [trim] removes. *)
Lemma trim_padded w1 s w2 :
  str_all ws1 w1 = true → str_all ws1 w2 = true →
  str_all is_ascii_graphic s = true → trim (w1 +:+ s +:+ w2) = s.
Proof.
  intros H1 H2 Hs. unfold trim. rewrite trim_start_ws1 by done.
  destruct s as [|c s].
  - rewrite str_nil_app. rewrite <-(str_app_nil_r w2) at 1.
    by rewrite trim_start_ws1.
  - rewrite str_cons_app, trim_start_graphic; [|by simpl in Hs; split_bools].
    rewrite <-str_cons_app. by apply trim_end_graphic.
Qed.

Lemma trim_graphic s : str_all is_ascii_graphic s = true → trim s = s.
Proof.
  intros H. rewrite <-(trim_padded "" s "") at 2; try done.
  by rewrite str_app_nil_r.
Qed.

(** ** Lemmas on [split] and [split_once] *)

Abbreviation no_sep sep s := (str_any (λ c, bool_decide (c = sep)) s = false).

Lemma str_split_nonempty sep s : str_split sep s ≠ [].
Proof. induction s; simpl; [done|]. case_decide; [done|]. by case_match. Qed.

Lemma str_split_no_sep sep s : no_sep sep s → str_split sep s = [s].
Proof.
  induction s as [|c s IH]; [done|]. simpl. intros; split_bools.
  rewrite decide_False by done. by rewrite IH.
Qed.

Lemma str_split_app sep s t :
  no_sep sep s → str_split sep (s +:+ String sep t) = s :: str_split sep t.
Proof.
  induction s as [|c s IH]; rewrite ?str_nil_app, ?str_cons_app; simpl.
  - intros _. by rewrite decide_True.
  - intros; split_bools. rewrite decide_False by done. by rewrite IH.
Qed.

Lemma split_once_app sep s t :
  no_sep sep s → split_once sep (s +:+ String sep t) = Some (s, t).
Proof.
  induction s as [|c s IH]; rewrite ?str_nil_app, ?str_cons_app; simpl.
  - intros _. by rewrite decide_True.
  - intros; split_bools. rewrite decide_False by done. by rewrite IH.
Qed.

(** ** Lemmas on UTF-8 *)

Lemma ascii_utf8 s : str_all (byte_in 0 127) s = true → utf8_valid s = true.
Proof. induction s as [|c s IH]; simpl; [done|]. intros; split_bools. rewrite H. auto. Qed.

Lemma graphic_ascii s : str_all is_ascii_graphic s = true → str_all (byte_in 0 127) s = true.
Proof. apply str_all_impl. intros c H. byte_solve. Qed.

(** ** Lemmas on hexadecimal *)

(** A byte's percent escape is read back by [from_str_radix]. *)
Lemma radix16_pct_escape b :
  match pct_escape b with
  | String _ h => u8_from_str_radix16 h = Some (N_of_ascii b)
  | "" => False
  end.
Proof.
  cut (bool_decide (match pct_escape b with
    | String _ h => u8_from_str_radix16 h = Some (N_of_ascii b)
    | "" => False end) = true); [apply bool_decide_eq_true|].
  revert b. apply byte_forall. vm_compute. reflexivity.
Qed.

Lemma byte_lower_idemp c : byte_lower (byte_lower c) = byte_lower c.
Proof.
  apply (bool_decide_eq_true_1 _). revert c. apply byte_forall. vm_compute. reflexivity.
Qed.

Lemma to_ascii_lowercase_idemp s :
  to_ascii_lowercase (to_ascii_lowercase s) = to_ascii_lowercase s.
Proof. apply str_map_map, byte_lower_idemp. Qed.

Lemma length_to_ascii_lowercase s :
  String.length (to_ascii_lowercase s) = String.length s.
Proof. apply length_str_map. Qed.
