(* ===== verification/Admission.v ===== *)
(** * The admission derivation (crates/cluster-core/src/lib.rs)

    Roles, canonical addresses, content ids, and the roster-to-allowed-set functions:
    the pure half of the admission gate. *)

From S2P Require Import Prelude RustStr.
Local Open Scope N_scope.

(** ** Roles *)

Definition MIN_CLUSTER_RANK : N := 2.

Definition role_rank (role : string) : N :=
  if decide (role = "owner") then 5
  else if decide (role = "admin") then 4
  else if decide (role = "partner") then 3
  else if decide (role = "member") then 2
  else if decide (role = "agent") then 1
  else if decide (role = "guest") then 0
  else 0.

(** ** Addresses *)

Definition canonical_address (raw : string) : option string :=
  let h := to_ascii_lowercase (trim_start_0x (trim raw)) in
  if (str_len h =? 40) && str_all is_ascii_hexdigit h then Some h else None.

(** ** Content ids *)

Definition MAX_CID_LEN : N := 128.

Definition B58 : string := "123456789ABCDEFGHJKLMNPQRSTUVWXYZabcdefghijkmnopqrstuvwxyz".

Definition b58_contains (c : ascii) : bool := str_any (λ b, bool_decide (b = c)) B58.

(** [b'a'..=b'z' | b'2'..=b'7'] *)
Definition base32_char (c : ascii) : bool := byte_in 97 122 c || byte_in 50 55 c.

Definition is_valid_cid (s : string) : bool :=
  if (str_len s =? 46) && starts_with "Qm" s then
    match strip_prefix "Qm" s with
    | Some rest => str_all b58_contains rest
    | None => false
    end
  else if (str_len s <? 8) || (MAX_CID_LEN <? str_len s) then false
  else
    match s with
    | String b0 body =>
        if decide (b0 = "b"%char) then
          str_all base32_char body
          && match body with
             | String x0 (String x1 _) =>
                 bool_decide (x0 = "a"%char) && byte_in 101 104 x1
             | _ => false
             end
        else false
    | "" => false
    end.

(** ** The roster-to-allowed-set derivation *)

Definition allowed_peers (roster : list string) : list string :=
  set_iter (fold_left (λ (s : gset string) raw,
    match canonical_address raw with
    | Some addr => {[addr]} ∪ s
    | None => s
    end) roster ∅).

Definition allowed_set (roster : list (string * string)) : gset string :=
  fold_left (λ (s : gset string) '(addr, role),
    if MIN_CLUSTER_RANK <=? role_rank role then
      match canonical_address addr with
      | Some a => {[a]} ∪ s
      | None => s
      end
    else s) roster ∅.

Definition admit_policy (address : string) (allowed : gset string) : bool :=
  match canonical_address address with
  | Some a => bool_decide (a ∈ allowed)
  | None => false
  end.

(** ** Properties of canonical addresses *)

(** The canonical form: forty lowercase hexadecimal digits. *)
Definition lower_hex (c : ascii) : bool := byte_in 48 57 c || byte_in 97 102 c.
Definition is_canonical (a : string) : bool := (str_len a =? 40) && str_all lower_hex a.

Lemma is_canonical_length a : is_canonical a = true → String.length a = 40%nat.
Proof. unfold is_canonical, str_len. intros; split_bools. lia. Qed.

Lemma is_canonical_graphic a : is_canonical a = true → str_all is_ascii_graphic a = true.
Proof.
  unfold is_canonical. intros; split_bools. eapply str_all_impl; [|done].
  intros c Hc. byte_solve.
Qed.

Lemma trim_start_0x_hex a : str_all is_ascii_hexdigit a = true → trim_start_0x a = a.
Proof.
  intros H. destruct a as [|c [|d a]]; simpl in *; split_bools; [done|..].
  - by destruct c as [[][][][][][][][]].
  - destruct (decide (c = "0"%char)) as [->|Hc].
    + destruct (decide (d = "x"%char)) as [->|Hd]; [done|].
      destruct d as [[][][][][][][][]]; done.
    + destruct c as [[][][][][][][][]]; done.
Qed.

Lemma lower_hex_hexdigit a : str_all lower_hex a = true → str_all is_ascii_hexdigit a = true.
Proof. apply str_all_impl. intros c Hc. byte_solve. Qed.

Lemma lower_hex_lower a : str_all lower_hex a = true → to_ascii_lowercase a = a.
Proof.
  intros H. apply str_map_id. eapply str_all_impl; [|done]. intros c Hc. byte_solve.
Qed.

Lemma lowercase_hexdigit s :
  str_all is_ascii_hexdigit (to_ascii_lowercase s) = true →
  str_all lower_hex (to_ascii_lowercase s) = true.
Proof.
  unfold to_ascii_lowercase. rewrite !str_all_map. apply str_all_impl.
  intros c Hc. byte_solve.
Qed.

Lemma canonical_address_canonical raw a :
  canonical_address raw = Some a → is_canonical a = true.
Proof.
  unfold canonical_address, is_canonical. case_match eqn:E; [|done].
  intros [= <-]. split_bools. apply andb_true_iff. split; [by apply N.eqb_eq|].
  by apply lowercase_hexdigit.
Qed.

(** Any spelling of an address: whitespace around, a [0x], upper or lower case. *)
Lemma canonical_address_spelling w1 w2 h a :
  str_all ws1 w1 = true → str_all ws1 w2 = true →
  str_all is_ascii_hexdigit h = true → to_ascii_lowercase h = a →
  is_canonical a = true →
  canonical_address (w1 +:+ h +:+ w2) = Some a
  ∧ canonical_address (w1 +:+ ("0x" +:+ h) +:+ w2) = Some a.
Proof.
  intros Hw1 Hw2 Hh <- Ha. pose proof Ha as Hc. unfold is_canonical in Ha. split_bools.
  assert (str_all is_ascii_graphic h = true) as Hg.
  { eapply str_all_impl; [|done]. intros c Hc'. byte_solve. }
  unfold canonical_address. rewrite !trim_padded by (rewrite ?str_all_app; by rewrite ?Hg).
  change (trim_start_0x ("0x" +:+ h)) with (trim_start_0x h).
  rewrite trim_start_0x_hex by done.
  rewrite (lower_hex_hexdigit _ H0).
  assert ((str_len (to_ascii_lowercase h) =? 40) = true) as -> by by apply N.eqb_eq.
  done.
Qed.

Lemma canonical_address_id a : is_canonical a = true → canonical_address a = Some a.
Proof.
  intros Ha. pose proof Ha as Hc. unfold is_canonical in Ha. split_bools.
  rewrite <-(str_app_nil_r a) at 1.
  apply (canonical_address_spelling "" "" a a); auto using lower_hex_hexdigit, lower_hex_lower.
Qed.

Lemma canonical_address_idemp raw a :
  canonical_address raw = Some a → canonical_address a = Some a.
Proof. intros. eapply canonical_address_id, canonical_address_canonical; eauto. Qed.

#[export] Hint Resolve canonical_address_canonical canonical_address_id
  canonical_address_idemp : cluster.

(** ** Properties of the derived sets *)

Lemma elem_of_fold_allowed a roster (s : gset string) :
  a ∈ fold_left (λ (s : gset string) '(addr, role),
    if MIN_CLUSTER_RANK <=? role_rank role then
      match canonical_address addr with Some a => {[a]} ∪ s | None => s end
    else s) roster s
  ↔ a ∈ s ∨ ∃ addr role, (addr, role) ∈ roster
      ∧ MIN_CLUSTER_RANK <= role_rank role ∧ canonical_address addr = Some a.
Proof.
  revert s. induction roster as [|[addr role] roster IH]; intros s; simpl.
  - set_solver.
  - rewrite IH. setoid_rewrite elem_of_cons.
    destruct (N.leb_spec MIN_CLUSTER_RANK (role_rank role)) as [Hr|Hr];
      [destruct (canonical_address addr) eqn:E|]; set_unfold; naive_solver lia.
Qed.

Lemma elem_of_allowed_set a roster :
  a ∈ allowed_set roster ↔ ∃ addr role, (addr, role) ∈ roster
      ∧ MIN_CLUSTER_RANK <= role_rank role ∧ canonical_address addr = Some a.
Proof. unfold allowed_set. rewrite elem_of_fold_allowed. set_solver. Qed.

Lemma allowed_set_canonical a roster : a ∈ allowed_set roster → is_canonical a = true.
Proof. rewrite elem_of_allowed_set. naive_solver eauto with cluster. Qed.

#[export] Hint Resolve allowed_set_canonical : cluster.

Lemma elem_of_allowed_peers a roster :
  a ∈ allowed_peers roster ↔ ∃ raw, raw ∈ roster ∧ canonical_address raw = Some a.
Proof.
  unfold allowed_peers. rewrite elem_of_set_iter.
  cut (∀ s : gset string, a ∈ fold_left (λ (s : gset string) raw,
      match canonical_address raw with Some addr => {[addr]} ∪ s | None => s end) roster s
    ↔ a ∈ s ∨ ∃ raw, raw ∈ roster ∧ canonical_address raw = Some a).
  { intros ->. set_solver. }
  induction roster as [|raw roster IH]; intros s; simpl; [set_solver|].
  rewrite IH. setoid_rewrite elem_of_cons.
  destruct (canonical_address raw) eqn:E; set_unfold; naive_solver.
Qed.

(** Two sorted duplicate-free lists with the same elements are one list. *)
Lemma sorted_set_unique (l1 l2 : list string) :
  StronglySorted ord_le l1 → StronglySorted ord_le l2 → NoDup l1 → NoDup l2 →
  (∀ x, x ∈ l1 ↔ x ∈ l2) → l1 = l2.
Proof.
  intros. apply (StronglySorted_unique ord_le); [done..|]. by apply NoDup_Permutation.
Qed.

(** ** The CID grammar *)

(** The value of a lowercase RFC 4648 base32 character. *)
Definition base32_val (c : ascii) : N :=
  if byte_in 97 122 c then N_of_ascii c - 97 else N_of_ascii c - 24.

(** The first byte that a base32 body decodes to: five bits, then three. *)
Definition base32_first_byte (body : string) : option N :=
  match body with
  | String x0 (String x1 _) => Some (base32_val x0 * 8 + base32_val x1 / 4)
  | _ => None
  end.

Definition cid_v0 (s : string) : Prop :=
  ∃ body, s = "Qm" +:+ body ∧ str_len body = 44 ∧ str_all b58_contains body = true.
Definition cid_v1 (s : string) : Prop :=
  ∃ body, s = "b" +:+ body ∧ 7 <= str_len body <= 127
    ∧ str_all base32_char body = true ∧ base32_first_byte body = Some 1.

Lemma version_byte_test x0 x1 :
  base32_char x0 = true → base32_char x1 = true →
  bool_decide (x0 = "a"%char) && byte_in 101 104 x1
  = bool_decide (base32_val x0 * 8 + base32_val x1 / 4 = 1).
Proof.
  assert (∀ c, forallb (λ x1, negb (base32_char c) || negb (base32_char x1)
    || Bool.eqb (bool_decide (c = "a"%char) && byte_in 101 104 x1)
         (bool_decide (base32_val c * 8 + base32_val x1 / 4 = 1))) all_bytes = true) as H.
  { apply byte_forall. vm_compute. reflexivity. }
  intros H0 H1. pose proof (byte_forall _ (H x0) x1) as Hx. simpl in Hx.
  rewrite H0, H1 in Hx. by apply Bool.eqb_prop in Hx.
Qed.

Lemma is_valid_cid_v1_body body :
  7 <= str_len body → str_all base32_char body = true →
  match body with
  | String x0 (String x1 _) => bool_decide (x0 = "a"%char) && byte_in 101 104 x1
  | _ => false
  end = true ↔ base32_first_byte body = Some 1.
Proof.
  intros Hl Hall. destruct body as [|x0 [|x1 body]].
  - done.
  - unfold str_len in Hl. simpl in Hl. lia.
  - simpl in Hall. split_bools. rewrite version_byte_test by done. simpl.
    rewrite bool_decide_eq_true. split; congruence.
Qed.

(** ** Theorems *)

(** [canonical_address] is a normal form: what it returns is forty lowercase hex digits
    and its own canonical form, and every spelling of an address (white space around it,
    with or without [0x], in either case) is sent to the same canonical string. *)
Theorem canonical_address_normal_form :
  (∀ raw a, canonical_address raw = Some a →
     is_canonical a = true ∧ canonical_address a = Some a)
  ∧ (∀ w1 w2 h,
     str_all ws1 w1 = true → str_all ws1 w2 = true →
     str_all is_ascii_hexdigit h = true → str_len h = 40 →
     canonical_address (w1 +:+ h +:+ w2) = Some (to_ascii_lowercase h)
     ∧ canonical_address (w1 +:+ ("0x" +:+ h) +:+ w2) = Some (to_ascii_lowercase h)).
Proof.
  split; [eauto with cluster|].
  intros w1 w2 h H1 H2 Hh Hl. apply canonical_address_spelling; auto.
  unfold is_canonical, str_len. rewrite length_to_ascii_lowercase. fold (str_len h).
  rewrite Hl. simpl. apply lowercase_hexdigit.
  unfold to_ascii_lowercase. rewrite str_all_map.
  eapply str_all_impl; [|exact Hh]. intros c Hc. byte_solve.
Qed.

Lemma canonical_address_normal_form_witness :
  canonical_address "  0x00000000000000000000000000000000000000AA" 
    = Some "00000000000000000000000000000000000000aa".
Proof.
  exact (proj2 (proj2 canonical_address_normal_form "  " ""
    "00000000000000000000000000000000000000AA" eq_refl eq_refl eq_refl eq_refl)).
Defined.

(** The derived peer list is sorted, duplicate-free and canonical, holds exactly the
    well-formed addresses of the roster, and depends on nothing but that set: two nodes
    whose rosters name the same addresses, in any order and spelling, compute the same
    list. *)
Theorem allowed_peers_deterministic (r1 r2 : list string) :
  StronglySorted ord_le (allowed_peers r1) ∧ NoDup (allowed_peers r1)
  ∧ (∀ a, a ∈ allowed_peers r1 ↔ ∃ raw, raw ∈ r1 ∧ canonical_address raw = Some a)
  ∧ ((∀ a, (∃ raw, raw ∈ r1 ∧ canonical_address raw = Some a)
         ↔ (∃ raw, raw ∈ r2 ∧ canonical_address raw = Some a)) →
     allowed_peers r1 = allowed_peers r2).
Proof.
  assert (∀ r, StronglySorted ord_le (allowed_peers r) ∧ NoDup (allowed_peers r)) as Hsn
    by (split; [apply set_iter_Sorted|apply NoDup_set_iter]).
  split_and!; [apply Hsn|apply Hsn|intros a; apply elem_of_allowed_peers|].
  intros Heq. apply sorted_set_unique; try apply Hsn.
  intros a. by rewrite !elem_of_allowed_peers.
Qed.

Lemma allowed_peers_deterministic_witness :
  allowed_peers ["0x00000000000000000000000000000000000000AA";
                 "00000000000000000000000000000000000000bb"]
  = allowed_peers ["00000000000000000000000000000000000000BB"; "junk";
                   "00000000000000000000000000000000000000aa"].
Proof.
  apply (allowed_peers_deterministic
    ["0x00000000000000000000000000000000000000AA";
     "00000000000000000000000000000000000000bb"]
    ["00000000000000000000000000000000000000BB"; "junk";
     "00000000000000000000000000000000000000aa"]).
  intros a. rewrite <-!elem_of_allowed_peers.
  match goal with |- _ ∈ ?l1 ↔ _ ∈ ?l2 => replace l1 with l2 by (vm_compute; reflexivity) end.
  reflexivity.
Defined.

(** The admission policy: a candidate is admitted exactly when its canonical address is
    that of a roster entry whose role ranks at least Member; in particular an unknown
    role, a guest and an agent admit nobody. *)
Theorem admit_spec (address : string) (roster : list (string * string)) :
  admit_policy address (allowed_set roster) = true
  ↔ ∃ a addr role, canonical_address address = Some a ∧ (addr, role) ∈ roster
      ∧ canonical_address addr = Some a
      ∧ role ∈ ["owner"; "admin"; "partner"; "member"].
Proof.
  assert (∀ role, MIN_CLUSTER_RANK <= role_rank role
    ↔ role ∈ ["owner"; "admin"; "partner"; "member"]) as Hrank.
  { intros role. unfold role_rank, MIN_CLUSTER_RANK. rewrite !elem_of_cons, elem_of_nil.
    repeat case_decide; subst; split; try naive_solver lia. }
  unfold admit_policy. split.
  - destruct (canonical_address address) as [a|] eqn:E; [|done].
    rewrite bool_decide_eq_true, elem_of_allowed_set.
    intros (addr & role & Hin & Hr & Hc). exists a, addr, role. by rewrite <-Hrank.
  - intros (a & addr & role & -> & Hin & Hc & Hr).
    rewrite bool_decide_eq_true, elem_of_allowed_set.
    exists addr, role. by rewrite Hrank.
Qed.

(** A well-formed CID is ASCII, so valid UTF-8. *)
Lemma b58_ascii c : b58_contains c = true → byte_in 0 127 c = true.
Proof. by destruct c as [[] [] [] [] [] [] [] []]. Qed.

Lemma base32_ascii c : base32_char c = true → byte_in 0 127 c = true.
Proof. by destruct c as [[] [] [] [] [] [] [] []]. Qed.

Lemma cid_utf8 s : is_valid_cid s = true → utf8_valid s = true.
Proof.
  intros Hs. apply ascii_utf8. revert Hs. unfold is_valid_cid, starts_with.
  destruct ((str_len s =? 46) && _).
  - destruct (strip_prefix "Qm" s) as [rest|] eqn:Es; [|done].
    apply strip_prefix_Some in Es as ->. intros Hb.
    rewrite str_all_app. apply andb_true_iff. split; [done|].
    eapply str_all_impl; [apply b58_ascii|done].
  - destruct (_ || _); [done|]. destruct s as [|b0 body]; [done|].
    case_decide as Hb; [|done]. subst b0. intros [Hb _]%andb_true_iff. rewrite str_all_cons.
    apply andb_true_iff. split; [done|]. eapply str_all_impl; [apply base32_ascii|done].
Qed.

(** [is_valid_cid] accepts exactly the two CID forms the co-pin mesh relays: a CIDv0, or
    a base32 CIDv1 of at most [MAX_CID_LEN] bytes whose body decodes to a leading version
    byte of exactly 1. *)
Theorem is_valid_cid_spec (s : string) : is_valid_cid s = true ↔ cid_v0 s ∨ cid_v1 s.
Proof.
  unfold is_valid_cid, cid_v0, cid_v1, starts_with.
  destruct ((str_len s =? 46) && _) eqn:E0.
  - split_bools. destruct (strip_prefix "Qm" s) as [rest|] eqn:Es; [|done].
    apply strip_prefix_Some in Es as ->. split.
    + intros Hall. left. exists rest. split_and!; [done| |done].
      rewrite str_len_app in H. unfold str_len in *; simpl in *. lia.
    + intros [(body & Heq & _ & Hb)|(body & Heq & _)]; [|done].
      by apply str_app_inv_head in Heq as ->.
  - assert (¬ ∃ body, s = "Qm" +:+ body ∧ str_len body = 44 ∧ str_all b58_contains body = true)
      as Hno.
    { intros (body & -> & Hl & _). rewrite strip_prefix_app, str_len_app, Hl in E0. done. }
    destruct ((str_len s <? 8) || (MAX_CID_LEN <? str_len s)) eqn:E1.
    + split; [done|]. intros [?|(body & -> & Hl & _)]; [naive_solver|].
      unfold MAX_CID_LEN in E1. rewrite str_len_app in E1. unfold str_len in *; simpl in *.
      apply orb_true_iff in E1 as [E1|E1]; apply N.ltb_lt in E1; lia.
    + split_bools. unfold MAX_CID_LEN in *. destruct s as [|b0 body]; [done|].
      rewrite str_len_cons in *. case_decide as Hb; [subst b0|].
      * rewrite andb_true_iff. split.
        -- intros [Hall Hv]. right. exists body.
           apply is_valid_cid_v1_body in Hv; [|lia|done]. split_and!; done || lia.
        -- intros [?|(body' & Heq & Hl & Hall & Hv)]; [naive_solver|].
           change (String "b" body) with ("b" +:+ body) in Heq.
           apply str_app_inv_head in Heq as <-. split; [done|].
           apply is_valid_cid_v1_body; done || lia.
      * split; [done|]. intros [?|(body' & Heq & _)]; [naive_solver|].
        by injection Heq as -> ->.
Qed.
