(* ===== verification/Membership.v ===== *)
(** * ClusterMembership (crates/cluster-core/src/lib.rs)

    The admit / leave / reconcile-evict state machine over the role-gated allowed set,
    the abstract admission machine of formal/ClusterAdmission.tla, and the refinement of
    the second by the first. *)

From S2P Require Import Prelude RustStr Admission.

(** ** The state machine *)

Module ClusterMembership.

Record t := mk {
  allowed_f : gset string;
  admitted_f : gset string;
}.

Definition new (roster : list (string * string)) : t :=
  {| allowed_f := allowed_set roster; admitted_f := ∅ |}.

(** Returns whether the candidate was admitted. *)
Definition join (address role : string) (m : t) : bool * t :=
  if (role_rank role <? MIN_CLUSTER_RANK)%N then (false, m)
  else match canonical_address address with
       | Some a =>
           if decide (a ∈ allowed_f m)
           then (true, {| allowed_f := allowed_f m; admitted_f := {[a]} ∪ admitted_f m |})
           else (false, m)
       | None => (false, m)
       end.

Definition leave (address : string) (m : t) : t :=
  match canonical_address address with
  | Some a => {| allowed_f := allowed_f m; admitted_f := admitted_f m ∖ {[a]} |}
  | None => m
  end.

(** Returns the evicted peers, in the order the admitted set iterates. *)
Definition reconcile (roster : list (string * string)) (m : t) : list string * t :=
  let allowed' := allowed_set roster in
  let evicted := List.filter (λ a, negb (bool_decide (a ∈ allowed'))) (set_iter (admitted_f m)) in
  (evicted,
   {| allowed_f := allowed';
      admitted_f := fold_left (λ (s : gset string) e, s ∖ {[e]}) evicted (admitted_f m) |}).

Definition admitted (m : t) : list string := set_iter (admitted_f m).
Definition allowed (m : t) : list string := set_iter (allowed_f m).

Definition is_admitted (address : string) (m : t) : bool :=
  match canonical_address address with
  | Some a => bool_decide (a ∈ admitted_f m)
  | None => false
  end.

Definition invariant_holds (m : t) : bool := bool_decide (admitted_f m ⊆ allowed_f m).

Definition sync_admitted (candidates : gset string) (m : t) : t :=
  {| allowed_f := allowed_f m;
     admitted_f := list_to_set (List.filter (λ a, bool_decide (a ∈ allowed_f m))
                                            (set_iter candidates)) |}.

End ClusterMembership.

Import ClusterMembership.

(** ** What each operation does to the two sets *)

Section sets.
  Implicit Types (m : ClusterMembership.t) (roster : list (string * string)).

Lemma elem_of_filter_list {A} (P : A → bool) x l :
  x ∈ List.filter P l ↔ P x = true ∧ x ∈ l.
Proof. rewrite !list_elem_of_In, filter_In. naive_solver. Qed.

Lemma sync_admitted_sets candidates m :
  admitted_f (sync_admitted candidates m) = candidates ∩ allowed_f m.
Proof.
  apply set_eq. intros x. simpl.
  rewrite elem_of_list_to_set, elem_of_filter_list, elem_of_set_iter, bool_decide_eq_true.
  set_solver.
Qed.

Lemma fold_difference_list l (s : gset string) :
  fold_left (λ (s : gset string) e, s ∖ {[e]}) l s = s ∖ list_to_set l.
Proof.
  revert s. induction l as [|x l IH]; intros s; simpl; [set_solver|].
  rewrite IH. set_solver.
Qed.

Lemma elem_of_evicted x roster m :
  x ∈ (reconcile roster m).1 ↔ x ∈ admitted_f m ∧ x ∉ allowed_set roster.
Proof.
  simpl. rewrite elem_of_filter_list, elem_of_set_iter, negb_true_iff, bool_decide_eq_false.
  naive_solver.
Qed.

Lemma reconcile_allowed roster m : allowed_f (reconcile roster m).2 = allowed_set roster.
Proof. done. Qed.

Lemma reconcile_admitted roster m :
  admitted_f (reconcile roster m).2 = admitted_f m ∩ allowed_set roster.
Proof.
  change (admitted_f (reconcile roster m).2) with
    (fold_left (λ (s : gset string) e, s ∖ {[e]}) (reconcile roster m).1 (admitted_f m)).
  rewrite fold_difference_list. apply set_eq. intros x.
  rewrite elem_of_difference, elem_of_list_to_set, elem_of_evicted, elem_of_intersection.
  destruct (decide (x ∈ allowed_set roster)); naive_solver.
Qed.

Lemma join_admits address role m m' :
  join address role m = (true, m') →
  ∃ a, canonical_address address = Some a ∧ a ∈ allowed_f m
    ∧ m' = {| allowed_f := allowed_f m; admitted_f := {[a]} ∪ admitted_f m |}.
Proof. unfold join. intros. case_matches. naive_solver. Qed.

Lemma join_refuses address role m m' : join address role m = (false, m') → m' = m.
Proof. unfold join. intros. by case_matches. Qed.

Lemma join_allowed address role m : allowed_f (join address role m).2 = allowed_f m.
Proof. unfold join. by repeat case_match. Qed.

Lemma leave_allowed address m : allowed_f (leave address m) = allowed_f m.
Proof. unfold leave. by case_match. Qed.

Lemma leave_admitted address m : admitted_f (leave address m) ⊆ admitted_f m.
Proof. unfold leave. case_match; set_solver. Qed.
End sets.

(** The runtime check decides the safety invariant. *)
Definition adm_safe (m : ClusterMembership.t) : Prop := admitted_f m ⊆ allowed_f m.

Lemma invariant_holds_spec m : invariant_holds m = true ↔ adm_safe m.
Proof. apply bool_decide_eq_true. Qed.

Lemma new_safe roster : adm_safe (new roster).
Proof. unfold adm_safe. set_solver. Qed.

Lemma join_safe address role m : adm_safe m → adm_safe (join address role m).2.
Proof.
  unfold adm_safe. intros Hm. destruct (join address role m) as [[] m'] eqn:E; simpl.
  - apply join_admits in E as (a & _ & Ha & ->). set_solver.
  - by apply join_refuses in E as ->.
Qed.

Lemma leave_safe address m : adm_safe m → adm_safe (leave address m).
Proof.
  unfold adm_safe. rewrite leave_allowed. pose proof (leave_admitted address m). set_solver.
Qed.

Lemma reconcile_safe roster m : adm_safe (reconcile roster m).2.
Proof. unfold adm_safe. rewrite reconcile_admitted, reconcile_allowed. set_solver. Qed.

Lemma sync_admitted_safe candidates m : adm_safe (sync_admitted candidates m).
Proof. unfold adm_safe. rewrite sync_admitted_sets. simpl. set_solver. Qed.

#[export] Hint Resolve new_safe join_safe leave_safe reconcile_safe sync_admitted_safe
  : cluster.

(** ** The abstract machine: formal/ClusterAdmission.tla *)

Module ClusterAdmission.

(** [allowed] and [admitted] of the TLA module. *)
Definition state : Type := gset string * gset string.

Inductive step : state → state → Prop :=
| Join p al ad : p ∈ al → p ∉ ad → step (al, ad) (al, {[p]} ∪ ad)
| Leave p al ad : p ∈ ad → step (al, ad) (al, ad ∖ {[p]})
| Reconcile na al ad : step (al, ad) (na, ad ∩ na).

End ClusterAdmission.

(** The operations a client of [ClusterMembership] can call, and what each does. *)
Inductive membership_op :=
| OpJoin (address role : string)
| OpLeave (address : string)
| OpReconcile (roster : list (string * string))
| OpSync (candidates : gset string).

Definition run_op (op : membership_op) (m : ClusterMembership.t) : ClusterMembership.t :=
  match op with
  | OpJoin address role => (join address role m).2
  | OpLeave address => leave address m
  | OpReconcile roster => (reconcile roster m).2
  | OpSync candidates => sync_admitted candidates m
  end.

Definition abs (m : ClusterMembership.t) : ClusterAdmission.state :=
  (allowed_f m, admitted_f m).

Lemma leave_all al ad : rtc ClusterAdmission.step (al, ad) (al, ∅).
Proof.
  induction ad as [|x ad Hx IH] using set_ind_L; [done|].
  eapply rtc_l; [apply (ClusterAdmission.Leave x); set_solver|].
  by replace (({[x]} ∪ ad) ∖ {[x]}) with ad by set_solver.
Qed.

Lemma join_all al ad : ad ⊆ al → rtc ClusterAdmission.step (al, ∅) (al, ad).
Proof.
  induction ad as [|x ad Hx IH] using set_ind_L; intros Hsub; [done|].
  eapply rtc_r; [apply IH; set_solver|]. apply ClusterAdmission.Join; set_solver.
Qed.

Lemma abs_step_safe (s s' : ClusterAdmission.state) :
  s.2 ⊆ s.1 → ClusterAdmission.step s s' → s'.2 ⊆ s'.1.
Proof. destruct 2; set_solver. Qed.

Lemma abs_steps_safe (s s' : ClusterAdmission.state) :
  rtc ClusterAdmission.step s s' → s.2 ⊆ s.1 → s'.2 ⊆ s'.1.
Proof. induction 1; eauto using abs_step_safe. Qed.

Lemma run_op_refines op m : rtc ClusterAdmission.step (abs m) (abs (run_op op m)).
Proof.
  unfold abs. destruct op as [address role|address|roster|candidates]; cbn [run_op].
  - destruct (join address role m) as [[] m'] eqn:E.
    + apply join_admits in E as (a & _ & Ha & ->). simpl.
      destruct (decide (a ∈ admitted_f m)).
      * by replace ({[a]} ∪ admitted_f m) with (admitted_f m) by set_solver.
      * by apply rtc_once, ClusterAdmission.Join.
    + by apply join_refuses in E as ->.
  - unfold leave. destruct (canonical_address address) as [a|]; [|done]. simpl.
    destruct (decide (a ∈ admitted_f m)).
    + by apply rtc_once, ClusterAdmission.Leave.
    + by replace (admitted_f m ∖ {[a]}) with (admitted_f m) by set_solver.
  - rewrite reconcile_admitted, reconcile_allowed. apply rtc_once, ClusterAdmission.Reconcile.
  - etrans; [apply leave_all|]. rewrite sync_admitted_sets. simpl. apply join_all. set_solver.
Qed.

(** ** Theorems *)

(** C26: Refinement: every sequence of [join], [leave], [reconcile] and [sync_admitted] calls
    on an opened membership is a run of the abstract admission machine from the roster's
    allowed set with nobody admitted, so [admitted ⊆ allowed] (and the runtime check
    [invariant_holds]) is true after every call. *)
Theorem membership_refines_admission (roster : list (string * string))
    (ops : list membership_op) :
  let m := fold_left (λ m op, run_op op m) ops (new roster) in
  rtc ClusterAdmission.step (allowed_set roster, ∅) (abs m)
  ∧ admitted_f m ⊆ allowed_f m ∧ invariant_holds m = true.
Proof.
  intros m.
  assert (rtc ClusterAdmission.step (abs (new roster)) (abs m)) as Hrun.
  { subst m. generalize (new roster) as m0. induction ops as [|op ops IH]; intros m0; [done|].
    simpl. etrans; [apply run_op_refines|apply IH]. }
  assert (admitted_f m ⊆ allowed_f m) as Hs
    by (apply (abs_steps_safe _ _ Hrun); set_solver).
  split_and!; [done|done|]. by apply invariant_holds_spec.
Qed.

(** [reconcile] evicts in one step: the new allowed set is the new roster's, the admitted
    peers that stay are exactly those still allowed, and the returned list is, sorted and
    without repetition, exactly the peers that were admitted and no longer are. *)
Theorem reconcile_evicts (roster : list (string * string)) (m : ClusterMembership.t) :
  let '(evicted, m') := reconcile roster m in
  allowed_f m' = allowed_set roster
  ∧ admitted_f m' = admitted_f m ∩ allowed_set roster
  ∧ StronglySorted ord_le evicted ∧ NoDup evicted
  ∧ (∀ a, a ∈ evicted ↔ a ∈ admitted_f m ∧ a ∉ admitted_f m').
Proof.
  destruct (reconcile roster m) as [evicted m'] eqn:E.
  assert (evicted = (reconcile roster m).1) as -> by by rewrite E.
  assert (m' = (reconcile roster m).2) as -> by by rewrite E. clear E.
  split_and!; [apply reconcile_allowed|apply reconcile_admitted| | |].
  - simpl. apply StronglySorted_filter_bool, set_iter_Sorted.
  - simpl. apply NoDup_filter_bool, NoDup_set_iter.
  - intros a. rewrite elem_of_evicted, reconcile_admitted. set_solver.
Qed.

(** [join] admits exactly a candidate presenting a role of at least Member whose
    canonical address is allowed; it then adds that address and nothing else, and any
    refusal changes nothing. A malformed address or a low role is refused whatever the
    roster says. *)
Theorem join_decides (address role : string) (m : ClusterMembership.t) :
  let '(ok, m') := join address role m in
  (ok = true ↔ ∃ a, canonical_address address = Some a ∧ a ∈ allowed_f m
                 ∧ (MIN_CLUSTER_RANK <= role_rank role)%N)
  ∧ (ok = true → is_admitted address m' = true)
  ∧ (ok = false → m' = m)
  ∧ allowed_f m' = allowed_f m
  ∧ admitted_f m ⊆ admitted_f m'
  ∧ (∀ a, a ∈ admitted_f m' → a ∈ admitted_f m ∨ canonical_address address = Some a).
Proof.
  unfold join, is_admitted. destruct (N.ltb_spec (role_rank role) MIN_CLUSTER_RANK).
  { split_and!; try done; try naive_solver lia. }
  destruct (canonical_address address) as [a|]; [|split_and!; naive_solver].
  case_decide as Ha; simpl.
  - split_and!; try done.
    + naive_solver lia.
    + intros _. apply bool_decide_eq_true. set_solver.
    + set_solver.
    + set_solver.
  - split_and!; try done; naive_solver.
Qed.
