(* ===== verification/Session.v ===== *)
(** * ClusterSession (crates/cluster-core/src/lib.rs)

    The [ClusterTransport] trait as a class, the promise a transport makes about its
    connected set, and the session that binds a membership to a transport. The theorems
    are proved against the class, for every transport. *)

From S2P Require Import Prelude RustStr Admission Membership.

(** ** The transport seam *)

Class ClusterTransport (T : Type) := {
  dial : string → T → T;
  disconnect : string → T → T;
  connected : T → list string;
}.

(** What the session relies on: dialling connects nobody else, and disconnecting an
    address takes it off the wire and connects nobody. *)
Class ClusterTransportLaws (T : Type) `{!ClusterTransport T} : Prop := {
  connected_dial p (t : T) x : x ∈ connected (dial p t) → x = p ∨ x ∈ connected t;
  connected_disconnect p (t : T) x :
    is_canonical p = true → x ∈ connected (disconnect p t) → x ∈ connected t ∧ x ≠ p;
}.

(** ** The session *)

Module ClusterSession.

Record t (T : Type) := mk {
  membership : ClusterMembership.t;
  transport : T;
}.
Global Arguments mk {T} membership transport.
Global Arguments membership {T} _.
Global Arguments transport {T} _.

Section session.
  Context {T : Type} `{!ClusterTransport T}.

Definition new (roster : list (string * string)) (transport : T) : t T :=
  {| membership := ClusterMembership.new roster; transport := transport |}.

Definition join (address role : string) (s : t T) : bool * t T :=
  let '(admitted, m) := ClusterMembership.join address role (membership s) in
  (admitted,
   {| membership := m;
      transport :=
        if admitted then
          match canonical_address address with
          | Some a => dial a (transport s)
          | None => transport s
          end
        else transport s |}).

Definition leave (address : string) (s : t T) : t T :=
  {| membership := ClusterMembership.leave address (membership s);
     transport :=
       match canonical_address address with
       | Some a => disconnect a (transport s)
       | None => transport s
       end |}.

Definition reconcile (roster : list (string * string)) (s : t T) : list string * t T :=
  let '(evicted, m) := ClusterMembership.reconcile roster (membership s) in
  (evicted,
   {| membership := m;
      transport := fold_left (λ tr e, disconnect e tr) evicted (transport s) |}).

(** [transport_mut]: the caller's change of the transport, in place. *)
Definition transport_mut (f : T → T) (s : t T) : t T :=
  {| membership := membership s; transport := f (transport s) |}.

Definition sync_admitted_from_wire (s : t T) : t T :=
  {| membership := ClusterMembership.sync_admitted
       (list_to_set (connected (transport s))) (membership s);
     transport := transport s |}.

Definition wire_tracks_admitted (s : t T) : bool :=
  let admitted : gset string :=
    list_to_set (ClusterMembership.admitted (membership s)) in
  forallb (λ p, bool_decide (p ∈ admitted)) (connected (transport s)).

End session.
End ClusterSession.

Import ClusterMembership.

(** ** The session's two invariants *)

Section invariants.
  Context {T : Type} `{!ClusterTransport T}.
  Implicit Types (s : ClusterSession.t T).

(** [connected ⊆ admitted] *)
Definition wire_safe s : Prop :=
  ∀ p, p ∈ connected (ClusterSession.transport s) →
       p ∈ admitted_f (ClusterSession.membership s).

Lemma wire_tracks_admitted_spec s :
  ClusterSession.wire_tracks_admitted s = true ↔ wire_safe s.
Proof.
  unfold ClusterSession.wire_tracks_admitted, wire_safe, admitted. rewrite forallb_forall.
  split; intros H p Hp.
  - apply list_elem_of_In, H, bool_decide_eq_true in Hp.
    by rewrite elem_of_list_to_set, elem_of_set_iter in Hp.
  - rewrite bool_decide_eq_true, elem_of_list_to_set, elem_of_set_iter. by apply H, list_elem_of_In.
Qed.

(** Every admitted address is canonical: what [join] and [sync] put there is. *)
Definition admitted_canonical s : Prop :=
  ∀ p, p ∈ admitted_f (ClusterSession.membership s) → is_canonical p = true.

Context `{!ClusterTransportLaws T}.

Lemma connected_disconnect_all l (t : T) x :
  (∀ p, p ∈ l → is_canonical p = true) →
  x ∈ connected (fold_left (λ tr e, disconnect e tr) l t) → x ∈ connected t ∧ x ∉ l.
Proof.
  revert t. induction l as [|p l IH]; intros t Hl Hx; simpl in *; [set_solver|].
  apply IH in Hx as [Hx Hnx]; [|set_solver].
  apply connected_disconnect in Hx as [Hx Hne]; set_solver.
Qed.

Definition session_ok s : Prop :=
  adm_safe (ClusterSession.membership s) ∧ admitted_canonical s ∧ wire_safe s.

Lemma join_session_ok address role s :
  session_ok s → session_ok (ClusterSession.join address role s).2.
Proof.
  intros (Ha & Hc & Hw). unfold ClusterSession.join.
  destruct (join address role (ClusterSession.membership s)) as [[] m'] eqn:E.
  - apply join_admits in E as (a & Hca & Hin & ->). rewrite Hca.
    unfold session_ok, adm_safe, admitted_canonical, wire_safe in *; simpl. split_and!.
    + set_solver.
    + intros p. rewrite elem_of_union, elem_of_singleton.
      intros [->|?]; eauto with cluster.
    + intros p [->|?]%connected_dial; set_solver.
  - apply join_refuses in E as ->. by destruct s.
Qed.

Lemma leave_session_ok address s :
  session_ok s → session_ok (ClusterSession.leave address s).
Proof.
  intros (Ha & Hc & Hw). unfold ClusterSession.leave, leave.
  destruct (canonical_address address) as [a|] eqn:E; [|by destruct s].
  unfold session_ok, adm_safe, admitted_canonical, wire_safe in *; simpl.
  split_and!; [set_solver|set_solver|].
  intros p [? ?]%connected_disconnect; [set_solver|eauto with cluster].
Qed.

Lemma reconcile_transport roster s :
  ClusterSession.transport (ClusterSession.reconcile roster s).2
  = fold_left (λ tr e, disconnect e tr)
      (ClusterMembership.reconcile roster (ClusterSession.membership s)).1
      (ClusterSession.transport s).
Proof. done. Qed.

Lemma reconcile_membership roster s :
  ClusterSession.membership (ClusterSession.reconcile roster s).2
  = (ClusterMembership.reconcile roster (ClusterSession.membership s)).2.
Proof. done. Qed.

Lemma reconcile_session_ok roster s :
  session_ok s → session_ok (ClusterSession.reconcile roster s).2.
Proof.
  intros (Ha & Hc & Hw).
  assert (∀ p, p ∈ (ClusterMembership.reconcile roster (ClusterSession.membership s)).1 →
    is_canonical p = true) as Hcan by (intros p [? _]%elem_of_evicted; auto).
  split_and!.
  - apply reconcile_safe.
  - intros p. rewrite reconcile_membership, reconcile_admitted. set_solver.
  - intros p. rewrite reconcile_transport.
    intros [Hp Hev]%connected_disconnect_all; [|done].
    rewrite elem_of_evicted in Hev. rewrite reconcile_membership, reconcile_admitted.
    apply Hw in Hp. destruct (decide (p ∈ allowed_set roster)); set_solver.
Qed.

(** A fresh session over a transport with nobody connected. *)
Lemma new_session_ok roster (t : T) :
  connected t = [] → session_ok (ClusterSession.new roster t).
Proof.
  intros Ht. split_and!; [apply new_safe|unfold admitted_canonical; set_solver|].
  unfold wire_safe. simpl. rewrite Ht. set_solver.
Qed.
End invariants.

(** The calls a client makes on a session. *)
Inductive session_op :=
| SJoin (address role : string)
| SLeave (address : string)
| SReconcile (roster : list (string * string)).

Definition run_session_op {T} `{!ClusterTransport T} (op : session_op)
    (s : ClusterSession.t T) : ClusterSession.t T :=
  match op with
  | SJoin address role => (ClusterSession.join address role s).2
  | SLeave address => ClusterSession.leave address s
  | SReconcile roster => (ClusterSession.reconcile roster s).2
  end.

Lemma run_session_op_ok {T} `{ClusterTransportLaws T} op (s : ClusterSession.t T) :
  session_ok s → session_ok (run_session_op op s).
Proof.
  intros Hs. destruct op; simpl.
  - by apply join_session_ok.
  - by apply leave_session_ok.
  - by apply reconcile_session_ok.
Qed.

(** ** A transport for examples: connections are a set, as in the in-process one *)

Module SetTransport.

Definition t : Type := gset string.

#[global] Instance ops : ClusterTransport t := {|
  dial p s := {[p]} ∪ s;
  disconnect p s := s ∖ {[p]};
  connected s := set_iter s;
|}.

#[global] Instance laws : ClusterTransportLaws t.
Proof.
  split; intros p s x; simpl; rewrite !elem_of_set_iter; set_solver.
Qed.

End SetTransport.

(** ** Theorems *)

(** Over any transport that keeps its promise, every sequence of joins, leaves and
    reconciles on a session keeps [connected ⊆ admitted ⊆ allowed]: the wire never
    outruns the gate, and both runtime checks answer true. *)
Theorem session_keeps_the_gate {T} `{ClusterTransportLaws T}
    (roster : list (string * string)) (t : T) (ops : list session_op) :
  connected t = [] →
  let s := fold_left (λ s op, run_session_op op s) ops (ClusterSession.new roster t) in
  (∀ p, p ∈ connected (ClusterSession.transport s) →
        p ∈ admitted_f (ClusterSession.membership s))
  ∧ admitted_f (ClusterSession.membership s) ⊆ allowed_f (ClusterSession.membership s)
  ∧ ClusterSession.wire_tracks_admitted s = true
  ∧ invariant_holds (ClusterSession.membership s) = true.
Proof.
  intros Ht s.
  assert (session_ok s) as (Ha & _ & Hw).
  { subst s. pose proof (new_session_ok roster t Ht) as H0. revert H0.
    generalize (ClusterSession.new roster t) as s0.
    induction ops as [|op ops IH]; intros s0 Hs; simpl; [done|].
    by apply IH, run_session_op_ok. }
  split_and!; [exact Hw|exact Ha| |].
  - by apply wire_tracks_admitted_spec.
  - by apply invariant_holds_spec.
Qed.

Lemma session_keeps_the_gate_witness :
  let A := "00000000000000000000000000000000000000aa" in
  let s := fold_left (λ s op, run_session_op op s)
    [SJoin A "member"; SJoin "junk" "owner"; SReconcile [(A, "guest")]]
    (ClusterSession.new [(A, "owner")] (∅ : SetTransport.t)) in
  ClusterSession.wire_tracks_admitted s = true.
Proof.
  apply (session_keeps_the_gate (T:=SetTransport.t)
    [("00000000000000000000000000000000000000aa", "owner")] ∅
    [SJoin "00000000000000000000000000000000000000aa" "member"; SJoin "junk" "owner";
     SReconcile [("00000000000000000000000000000000000000aa", "guest")]]).
  vm_compute. reflexivity.
Defined.

(** Syncing from the wire records exactly the connected peers the roster allows, never
    touches the wire, and afterwards [wire_tracks_admitted] answers the real question:
    whether everyone connected is allowed. *)
Theorem sync_from_wire_is_truthful {T} `{!ClusterTransport T} (s : ClusterSession.t T) :
  let s' := ClusterSession.sync_admitted_from_wire s in
  ClusterSession.transport s' = ClusterSession.transport s
  ∧ allowed_f (ClusterSession.membership s') = allowed_f (ClusterSession.membership s)
  ∧ (∀ p, p ∈ admitted_f (ClusterSession.membership s') ↔
          p ∈ connected (ClusterSession.transport s)
          ∧ p ∈ allowed_f (ClusterSession.membership s))
  ∧ (ClusterSession.wire_tracks_admitted s' = true ↔
     ∀ p, p ∈ connected (ClusterSession.transport s) →
          p ∈ allowed_f (ClusterSession.membership s)).
Proof.
  assert (∀ p, p ∈ admitted_f (ClusterSession.membership
      (ClusterSession.sync_admitted_from_wire s)) ↔
    p ∈ connected (ClusterSession.transport s)
    ∧ p ∈ allowed_f (ClusterSession.membership s)) as Hadm.
  { intros p. unfold ClusterSession.sync_admitted_from_wire. cbn [ClusterSession.membership].
    rewrite (sync_admitted_sets _ (ClusterSession.membership s)).
    by rewrite elem_of_intersection, elem_of_list_to_set. }
  split_and!; [done|done|exact Hadm|].
  rewrite wire_tracks_admitted_spec. unfold wire_safe. setoid_rewrite Hadm.
  simpl. naive_solver.
Qed.
