(* ===== verification/Seed.v ===== *)
(** * The group seed (crates/cluster-core/src/seed.rs)

    The link/QR text codec: percent escapes, the field rules, [encode] and [decode]. *)

From S2P Require Import Prelude RustStr.
Local Open Scope N_scope.

Definition SEED_PREFIX : string := "citrate-cluster://seed?".
Definition SEED_VERSION : string := "1".
Definition MAX_SEED_ADDRS : N := 8.
Definition MAX_SEED_LEN : N := 2048.
Definition MAX_GROUP_LEN : N := 256.
Definition MAX_ADDR_LEN : N := 256.

Inductive SeedError :=
| NotASeed
| TooLong
| Version
| Encoding
| Group
| AddrCount
| Addr.

Global Instance SeedError_eq_dec : EqDecision SeedError.
Proof. solve_decision. Defined.

(** [impl Display for SeedError] *)
Definition seed_error_display (e : SeedError) : string :=
  match e with
  | NotASeed => "not a cluster seed"
  | TooLong => "seed is too long"
  | Version => "unsupported seed version"
  | Encoding => "seed has a bad escape or is not UTF-8"
  | Group => "seed has a missing or malformed group id"
  | AddrCount => "seed must carry between 1 and 8 addresses"
  | Addr => "seed has a malformed peer address"
  end.

(** ** Field rules *)

Definition valid_group (g : string) : bool :=
  negb (str_is_empty (trim g)) && (str_len g <=? MAX_GROUP_LEN) && negb (has_control g).

(** [parts.windows(2).any(f)] *)
Fixpoint windows2_any (f : string → string → bool) (parts : list string) : bool :=
  match parts with
  | a :: ((b :: _) as rest) => f a b || windows2_any f rest
  | _ => false
  end.

Definition valid_addr (a : string) : bool :=
  match a with
  | String "/" tail =>
      if MAX_ADDR_LEN <? str_len a then false
      else if negb (str_all is_ascii_graphic a) then false
      else
        let parts := str_split "/" tail in
        if existsb str_is_empty parts then false
        else windows2_any (λ w0 w1, bool_decide (w0 = "p2p") && str_all is_ascii_alphanumeric w1)
               parts
  | _ => false
  end.

(** ** Percent escapes *)

Definition pct_reserved (b : ascii) : bool :=
  bool_decide (b ∈ ["%"; "&"; "="; "#"; "+"]%char).

Definition pct_keep (b : ascii) : bool := is_ascii_graphic b && negb (pct_reserved b).

Fixpoint pct_encode (s : string) : string :=
  match s with
  | "" => ""
  | String b s' => (if pct_keep b then String b "" else pct_escape b) +:+ pct_encode s'
  end.

(** The byte loop of [pct_decode]. *)
Fixpoint pct_decode_bytes (s : string) : result string SeedError :=
  match s with
  | "" => Ok ""
  | String b s1 =>
      if decide (b = "%"%char) then
        match s1 with
        | String h1 (String h2 s3) =>
            let hex := String h1 (String h2 "") in
            if utf8_valid hex then
              match u8_from_str_radix16 hex with
              | Some v => let? out := pct_decode_bytes s3 in Ok (String (ascii_of_N v) out)
              | None => Err Encoding
              end
            else Err Encoding
        | _ => Err Encoding
        end
      else let? out := pct_decode_bytes s1 in Ok (String b out)
  end.

Definition pct_decode (s : string) : result string SeedError :=
  let? out := pct_decode_bytes s in
  if utf8_valid out then Ok out else Err Encoding.

(** ** The codec *)

Module GroupSeed.

Record t := mk {
  group : string;
  addrs : list string;
}.

Definition validate (s : t) : result unit SeedError :=
  if negb (valid_group (group s)) then Err Group
  else if (N.of_nat (length (addrs s)) =? 0)
          || (MAX_SEED_ADDRS <? N.of_nat (length (addrs s))) then Err AddrCount
  else if negb (forallb valid_addr (addrs s)) then Err Addr
  else Ok tt.

Definition new (group : string) (addrs : list string) : result t SeedError :=
  let seed := {| group := group; addrs := addrs |} in
  let? _ := validate seed in Ok seed.

Definition encode (s : t) : string :=
  fold_left (λ out a, (out +:+ "&a=") +:+ pct_encode a) (addrs s)
    ((((SEED_PREFIX +:+ "v=") +:+ SEED_VERSION) +:+ "&g=") +:+ pct_encode (group s)).

(** The fields read so far: [version], [group] and [addrs]. *)
Record fields := mkFields {
  f_version : option string;
  f_group : option string;
  f_addrs : list string;
}.

Definition decode_pair (pair : string) (f : fields) : result fields SeedError :=
  let '(k, v) := match split_once "=" pair with Some kv => kv | None => (pair, "") end in
  if decide (k = "v") then
    let? x := pct_decode v in
    Ok {| f_version := Some x; f_group := f_group f; f_addrs := f_addrs f |}
  else if decide (k = "g") then
    match f_group f with
    | Some _ => Err Group
    | None =>
        let? x := pct_decode v in
        Ok {| f_version := f_version f; f_group := Some x; f_addrs := f_addrs f |}
    end
  else if decide (k = "a") then
    if MAX_SEED_ADDRS <=? N.of_nat (length (f_addrs f)) then Err AddrCount
    else
      let? x := pct_decode v in
      Ok {| f_version := f_version f; f_group := f_group f; f_addrs := f_addrs f ++ [x] |}
  else Ok f.

Fixpoint decode_pairs (pairs : list string) (f : fields) : result fields SeedError :=
  match pairs with
  | [] => Ok f
  | p :: ps => let? f' := decode_pair p f in decode_pairs ps f'
  end.

Definition decode (text : string) : result t SeedError :=
  let text := trim text in
  if MAX_SEED_LEN <? str_len text then Err TooLong
  else
    let? query := ok_or (strip_prefix SEED_PREFIX text) NotASeed in
    let? f := decode_pairs
                (List.filter (λ p, negb (str_is_empty p)) (str_split "&" query))
                {| f_version := None; f_group := None; f_addrs := [] |} in
    if decide (f_version f = Some SEED_VERSION) then
      let? g := ok_or (f_group f) Group in
      let seed := {| group := g; addrs := f_addrs f |} in
      let? _ := validate seed in
      Ok seed
    else Err Version.

End GroupSeed.

Import GroupSeed.
Global Arguments validate : simpl never.

Global Instance GroupSeed_eq_dec : EqDecision GroupSeed.t.
Proof. solve_decision. Defined.

(** ** Escapes decode to the byte they stand for *)

Lemma pct_escape_shape b :
  ∃ h1 h2, pct_escape b = String "%" (String h1 (String h2 ""))
    ∧ utf8_valid (String h1 (String h2 "")) = true
    ∧ u8_from_str_radix16 (String h1 (String h2 "")) = Some (N_of_ascii b).
Proof.
  eexists _, _. split; [reflexivity|]. split.
  - apply ascii_utf8. revert b. apply byte_forall. vm_compute. reflexivity.
  - exact (radix16_pct_escape b).
Qed.

Lemma pct_decode_bytes_encode s : pct_decode_bytes (pct_encode s) = Ok s.
Proof.
  induction s as [|b s IH]; simpl; [done|].
  destruct (pct_keep b) eqn:Hk.
  - rewrite str_cons_app, str_nil_app. simpl. rewrite decide_False; [by rewrite IH|].
    intros ->. done.
  - destruct (pct_escape_shape b) as (h1 & h2 & -> & Hu & Hr).
    rewrite !str_cons_app, str_nil_app.
    change (pct_decode_bytes (String "%" (String h1 (String h2 (pct_encode s))))) with
      (if utf8_valid (String h1 (String h2 "")) then
         match u8_from_str_radix16 (String h1 (String h2 "")) with
         | Some v => let? out := pct_decode_bytes (pct_encode s) in
                     Ok (String (ascii_of_N v) out)
         | None => Err Encoding
         end
       else Err Encoding).
    by rewrite Hu, Hr, IH, ascii_N_embedding.
Qed.

Lemma pct_decode_encode s : utf8_valid s = true → pct_decode (pct_encode s) = Ok s.
Proof. intros Hs. unfold pct_decode. by rewrite pct_decode_bytes_encode, Hs. Qed.

(** What the encoder emits: printable, and free of the characters that split fields. *)
Definition enc_char (c : ascii) : bool :=
  is_ascii_graphic c && negb (bool_decide (c ∈ ["&"; "="; "#"; "+"]%char)).

Lemma pct_encode_chars s : str_all enc_char (pct_encode s) = true.
Proof.
  induction s as [|b s IH]; simpl; [done|]. rewrite str_all_app, IH, andb_true_r.
  destruct (pct_keep b) eqn:Hk.
  - simpl. rewrite andb_true_r. byte_solve.
  - clear Hk IH s. revert b. apply byte_forall. vm_compute. reflexivity.
Qed.

Lemma enc_no_sep sep s :
  enc_char sep = false → str_all enc_char s = true → no_sep sep s.
Proof.
  intros Hsep Hs. apply negb_true_iff. rewrite <-str_all_any.
  eapply str_all_impl; [|exact Hs]. intros c Hc. apply negb_true_iff, bool_decide_eq_false.
  by intros ->; rewrite Hc in Hsep.
Qed.

Lemma enc_graphic s : str_all enc_char s = true → str_all is_ascii_graphic s = true.
Proof. apply str_all_impl. intros c Hc. byte_solve. Qed.

(** ** The shape of an encoded seed *)

Definition field (key value : string) : string := (key +:+ "=") +:+ pct_encode value.

Global Arguments field : simpl never.

Fixpoint addr_fields (l : list string) : string :=
  match l with
  | [] => ""
  | a :: l' => String "&" (field "a" a +:+ addr_fields l')
  end.

Lemma encode_shape s :
  encode s = SEED_PREFIX +:+ ("v=1" +:+ String "&"
               (field "g" (group s) +:+ addr_fields (addrs s))).
Proof.
  assert (∀ l out, fold_left (λ out a, (out +:+ "&a=") +:+ pct_encode a) l out
    = out +:+ addr_fields l) as Hfold.
  { induction l as [|a l IH]; intros out; simpl; [by rewrite str_app_nil_r|].
    rewrite IH. unfold field. by rewrite <-!str_app_assoc. }
  unfold encode. rewrite Hfold. unfold field. by rewrite <-!str_app_assoc.
Qed.

Lemma field_no_amp key v :
  no_sep "&"%char key → no_sep "&"%char (field key v).
Proof.
  intros Hk. unfold field. rewrite !str_any_app, Hk.
  by rewrite (enc_no_sep "&"%char (pct_encode v) eq_refl (pct_encode_chars v)).
Qed.

Lemma str_split_addr_fields x l :
  no_sep "&"%char x →
  str_split "&" (x +:+ addr_fields l) = x :: map (field "a") l.
Proof.
  revert x. induction l as [|a l IH]; intros x Hx; simpl.
  - rewrite str_app_nil_r. by apply str_split_no_sep.
  - rewrite str_split_app by done. f_equal. apply IH. by apply field_no_amp.
Qed.

Lemma encode_fields s :
  ∃ query, strip_prefix SEED_PREFIX (encode s) = Some query
    ∧ List.filter (λ p, negb (str_is_empty p)) (str_split "&" query)
      = "v=1" :: field "g" (group s) :: map (field "a") (addrs s).
Proof.
  eexists. split; [rewrite encode_shape; apply strip_prefix_app|].
  rewrite str_split_app by done. rewrite str_split_addr_fields by by apply field_no_amp.
  simpl. do 2 f_equal. induction (addrs s); simpl; [done|]. by f_equal.
Qed.

Lemma encode_graphic s : str_all is_ascii_graphic (encode s) = true.
Proof.
  assert (∀ key v, str_all is_ascii_graphic key = true →
    str_all is_ascii_graphic (field key v) = true) as Hf.
  { intros key v Hk. unfold field. rewrite !str_all_app, Hk.
    by rewrite (enc_graphic _ (pct_encode_chars v)). }
  rewrite encode_shape, !str_all_app, (str_all_cons _ "&"%char), str_all_app, (Hf "g") by done.
  assert (str_all is_ascii_graphic (addr_fields (addrs s)) = true) as ->; [|done].
  induction (addrs s) as [|a l IH]; [done|].
  cbn [addr_fields]. by rewrite str_all_cons, str_all_app, (Hf "a"), IH.
Qed.

(** ** Decoding what was encoded *)

Lemma decode_pair_field key v f :
  no_sep "="%char key →
  decode_pair (field key v) f =
  if decide (key = "v") then
    let? x := pct_decode (pct_encode v) in
    Ok {| f_version := Some x; f_group := f_group f; f_addrs := f_addrs f |}
  else if decide (key = "g") then
    match f_group f with
    | Some _ => Err Group
    | None =>
        let? x := pct_decode (pct_encode v) in
        Ok {| f_version := f_version f; f_group := Some x; f_addrs := f_addrs f |}
    end
  else if decide (key = "a") then
    if MAX_SEED_ADDRS <=? N.of_nat (length (f_addrs f)) then Err AddrCount
    else
      let? x := pct_decode (pct_encode v) in
      Ok {| f_version := f_version f; f_group := f_group f; f_addrs := f_addrs f ++ [x] |}
  else Ok f.
Proof.
  intros Hk. unfold decode_pair, field.
  assert (split_once "=" ((key +:+ "=") +:+ pct_encode v) = Some (key, pct_encode v)) as ->;
    [|done].
  rewrite <-str_app_assoc. change ("=" +:+ pct_encode v) with (String "=" (pct_encode v)).
  by apply split_once_app.
Qed.

Lemma decode_pairs_addrs l f :
  (∀ a, a ∈ l → utf8_valid a = true) →
  N.of_nat (length (f_addrs f) + length l) <= MAX_SEED_ADDRS →
  decode_pairs (map (field "a") l) f
  = Ok {| f_version := f_version f; f_group := f_group f; f_addrs := f_addrs f ++ l |}.
Proof.
  revert f. induction l as [|a l IH]; intros f Hu Hl; simpl in *.
  - by destruct f; rewrite app_nil_r.
  - rewrite decode_pair_field by done. simpl.
    rewrite (proj2 (N.leb_gt _ _)) by lia.
    rewrite pct_decode_encode by set_solver. rewrite IH; simpl.
    + by rewrite <-app_assoc.
    + set_solver.
    + rewrite length_app. simpl. lia.
Qed.

Lemma valid_addr_graphic a : valid_addr a = true → str_all is_ascii_graphic a = true.
Proof.
  unfold valid_addr. intros H. repeat (case_match; try done).
  by match goal with H : negb (str_all _ _) = false |- _ => apply negb_false_iff in H end.
Qed.

Lemma validate_Ok s :
  validate s = Ok tt ↔
  valid_group (group s) = true
  ∧ 1 <= N.of_nat (length (addrs s)) <= MAX_SEED_ADDRS
  ∧ ∀ a, a ∈ addrs s → valid_addr a = true.
Proof.
  unfold validate. destruct (valid_group (group s)); simpl; [|naive_solver].
  destruct ((N.of_nat (length (addrs s)) =? 0) || _) eqn:E1.
  - apply orb_true_iff in E1. rewrite N.eqb_eq, N.ltb_lt in E1.
    split; [done|]. intros (_ & ? & _). lia.
  - split_bools. destruct (forallb valid_addr (addrs s)) eqn:E2; simpl.
    + split; [|done]. intros _. split_and!; [done|lia|lia|].
      intros a Ha. by apply (proj1 (forallb_forall _ _) E2), list_elem_of_In.
    + split; [done|]. intros (_ & _ & Hall). exfalso.
      assert (forallb valid_addr (addrs s) = true); [|congruence].
      apply forallb_forall. intros a Ha. by apply Hall, list_elem_of_In.
Qed.

Lemma validate_dec s : validate s = Ok tt ∨ ∃ e, validate s = Err e ∧ e ∈ [Group; AddrCount; Addr].
Proof. unfold validate. repeat case_match; eauto; right; eexists; split; eauto; set_solver. Qed.

Lemma decode_encode_padded s w1 w2 :
  validate s = Ok tt → utf8_valid (group s) = true →
  str_len (encode s) <= MAX_SEED_LEN →
  str_all ws1 w1 = true → str_all ws1 w2 = true →
  decode (w1 +:+ encode s +:+ w2) = Ok s.
Proof.
  intros Hv Hu Hl H1 H2. unfold decode.
  rewrite trim_padded by auto using encode_graphic.
  rewrite (proj2 (N.ltb_ge _ _)) by done.
  destruct (encode_fields s) as (query & -> & Hq). cbn [ok_or]. rewrite Hq.
  pose proof (proj1 (validate_Ok s) Hv) as (_ & Hn & Ha).
  change ("v=1") with (field "v" "1"). cbn [decode_pairs].
  rewrite decode_pair_field by done. cbn [decide decide_rel]. simpl.
  rewrite decode_pair_field by done. simpl. rewrite pct_decode_encode by done.
  rewrite decode_pairs_addrs; simpl.
  - assert ({| group := group s; addrs := addrs s |} = s) as -> by by destruct s.
    by rewrite Hv.
  - intros a Hin. by apply ascii_utf8, graphic_ascii, valid_addr_graphic, Ha.
  - lia.
Qed.

(** ** What decoding guarantees *)

Lemma pct_decode_utf8 s x : pct_decode s = Ok x → utf8_valid x = true.
Proof.
  unfold pct_decode. destruct (pct_decode_bytes s); [|done].
  case_match; [|done]. by intros [= <-].
Qed.

(** The fields read so far: UTF-8, at most [MAX_SEED_ADDRS] addresses. *)
Definition fields_ok (f : fields) : Prop :=
  (∀ g, f_group f = Some g → utf8_valid g = true)
  ∧ (∀ a, a ∈ f_addrs f → utf8_valid a = true)
  ∧ N.of_nat (length (f_addrs f)) <= MAX_SEED_ADDRS.

Lemma no_fields_ok : fields_ok {| f_version := None; f_group := None; f_addrs := [] |}.
Proof. split_and!; simpl; [done| |done]. intros a Ha. by apply elem_of_nil in Ha. Qed.

Lemma decode_pair_ok pair f f' : fields_ok f → decode_pair pair f = Ok f' → fields_ok f'.
Proof.
  intros (Hg & Ha & Hl) H. unfold decode_pair in H.
  repeat (case_match; simplify_eq/=); split_bools;
    repeat match goal with H : pct_decode _ = Ok _ |- _ => apply pct_decode_utf8 in H end;
    unfold fields_ok; simpl; split_and!; try done;
    try (intros x; rewrite elem_of_app, list_elem_of_singleton; naive_solver);
    try (rewrite length_app; simpl; lia); naive_solver.
Qed.

Lemma decode_pairs_ok pairs f f' :
  fields_ok f → decode_pairs pairs f = Ok f' → fields_ok f'.
Proof.
  revert f. induction pairs as [|p ps IH]; intros f Hf; simpl; [by intros [= <-]|].
  destruct (decode_pair p f) as [f1|] eqn:E; [|done]. eauto using decode_pair_ok.
Qed.

Lemma decode_pairs_app ps qs f :
  decode_pairs (ps ++ qs) f = let? f' := decode_pairs ps f in decode_pairs qs f'.
Proof.
  revert f. induction ps as [|p ps IH]; intros f; simpl; [done|].
  destruct (decode_pair p f); [apply IH|done].
Qed.

(** ** Theorems *)

(** C35: Round trip: a valid seed whose link text fits the length limit decodes back to
    itself, also with white space around the text (a pasted line). *)
Theorem seed_round_trip (s : GroupSeed.t) (w1 w2 : string) :
  new (group s) (addrs s) = Ok s → utf8_valid (group s) = true →
  str_len (encode s) <= MAX_SEED_LEN →
  str_all ws1 w1 = true → str_all ws1 w2 = true →
  decode (w1 +:+ encode s +:+ w2) = Ok s.
Proof.
  intros Hn. apply decode_encode_padded. unfold new in Hn.
  destruct s as [g l]; simpl in Hn.
  destruct (validate_dec {| group := g; addrs := l |}) as [?|(e & He & _)]; [done|].
  by rewrite He in Hn.
Qed.

Definition example_seed : GroupSeed.t :=
  {| group := "team & co = #1 +x %y";
     addrs := ["/ip4/192.168.1.20/tcp/4211/p2p/16Uiu2HAmPLe7Mzm8TsYUubgC";
               "/ip6/fe80::1/tcp/4211/p2p/16Uiu2HAmPLe7Mzm8TsYUubgC"] |}.

Lemma seed_round_trip_witness :
  decode ("  " +:+ encode example_seed +:+ String "010" "") = Ok example_seed.
Proof.
  apply (seed_round_trip example_seed "  " (String "010" ""));
    vm_compute; first [reflexivity|discriminate].
Defined.

(** C36: Soundness: whatever text is decoded, an accepted seed passes every field rule (a
    printable, non-blank group of at most [MAX_GROUP_LEN] bytes, one to [MAX_SEED_ADDRS]
    well-formed peer addresses) and its strings are UTF-8; the text was at most
    [MAX_SEED_LEN] bytes once trimmed and began with the seed prefix. *)
Theorem seed_decode_sound (text : string) (s : GroupSeed.t) :
  decode text = Ok s →
  valid_group (group s) = true ∧ utf8_valid (group s) = true
  ∧ 1 <= N.of_nat (length (addrs s)) <= MAX_SEED_ADDRS
  ∧ (∀ a, a ∈ addrs s → valid_addr a = true ∧ utf8_valid a = true)
  ∧ str_len (trim text) <= MAX_SEED_LEN
  ∧ starts_with SEED_PREFIX (trim text) = true.
Proof.
  unfold decode, starts_with. destruct (N.ltb_spec MAX_SEED_LEN (str_len (trim text))); [done|].
  destruct (strip_prefix SEED_PREFIX (trim text)) as [query|]; [|done]. cbn [ok_or].
  destruct (decode_pairs _ _) as [f|] eqn:Ef; [|done].
  apply decode_pairs_ok in Ef as (Hg & Ha & Hl); [|exact no_fields_ok].
  case_decide; [|done]. destruct (f_group f) as [g|] eqn:Eg; [|done]. cbn [ok_or].
  destruct (validate_dec {| group := g; addrs := f_addrs f |}) as [Hv|(e & He & _)];
    [|by rewrite He].
  rewrite Hv. intros [= <-]. apply validate_Ok in Hv as (Hvg & Hn & Hva).
  simpl in *. split_and!; auto; lia.
Qed.

Lemma seed_decode_sound_witness :
  valid_group (group example_seed) = true ∧ utf8_valid (group example_seed) = true.
Proof.
  destruct (seed_decode_sound (encode example_seed) example_seed) as (H1 & H2 & _).
  - vm_compute. reflexivity.
  - exact (conj H1 H2).
Defined.

(** Forward compatibility: a pair with any key other than [v], [g] and [a], at any
    position, does not change what the other pairs decode to. *)
Theorem seed_unknown_keys_ignored (key value : string) (ps qs : list string) (f : fields) :
  key ∉ ["v"; "g"; "a"] → no_sep "="%char key →
  decode_pairs (ps ++ (key +:+ String "=" value) :: qs) f = decode_pairs (ps ++ qs) f.
Proof.
  intros Hk Hs. rewrite !decode_pairs_app.
  destruct (decode_pairs ps f) as [f'|]; [|done]. simpl. unfold decode_pair.
  rewrite split_once_app by done. rewrite !not_elem_of_cons in Hk.
  rewrite !decide_False; naive_solver.
Qed.

Lemma seed_unknown_keys_ignored_witness :
  decode_pairs ["v=1"; "x=later"; "g=g1"] {| f_version := None; f_group := None; f_addrs := [] |}
  = decode_pairs ["v=1"; "g=g1"] {| f_version := None; f_group := None; f_addrs := [] |}.
Proof.
  apply (seed_unknown_keys_ignored "x" "later" ["v=1"] ["g=g1"]); [set_solver|done].
Defined.

(** The percent codec is lossless on every string, and its output needs no further
    escaping: it is printable and holds none of the characters that split a query. *)
Theorem pct_codec_lossless (s : string) :
  utf8_valid s = true →
  pct_decode (pct_encode s) = Ok s
  ∧ str_all (λ c, is_ascii_graphic c && negb (bool_decide (c ∈ ["&"; "="; "#"; "+"]%char)))
      (pct_encode s) = true.
Proof. intros. split; [by apply pct_decode_encode|apply pct_encode_chars]. Qed.

Lemma pct_codec_lossless_witness : pct_decode (pct_encode "a b&c%") = Ok "a b&c%".
Proof. apply (pct_codec_lossless "a b&c%"). reflexivity. Defined.

Definition long_addr : string :=
  "/dns4/" +:+ String.concat "" (repeat "h" 240) +:+ "/p2p/abcd".

(** [new] does not apply the length rule [decode] applies: there is a seed that [new]
    accepts and whose own link text [decode] refuses as too long. *)
Theorem seed_new_exceeds_decode_limit :
  ∃ g l s, new g l = Ok s ∧ MAX_SEED_LEN < str_len (encode s)
    ∧ decode (encode s) = Err TooLong.
Proof.
  exists "g", (repeat long_addr 8), {| group := "g"; addrs := repeat long_addr 8 |}.
  split_and!; vm_compute; reflexivity.
Qed.

(** A percent escape whose first character is a plus sign is accepted: [%+A] decodes to a
    line feed, because the integer parser reads a leading sign. *)
Theorem pct_decode_accepts_sign :
  pct_decode "%+A" = Ok (String "010" "")
  ∧ pct_decode "%-A" = Err Encoding ∧ pct_decode "%zz" = Err Encoding.
Proof. vm_compute. done. Qed.
