(* ===== verification/Device.v ===== *)
(** * Device links (crates/cluster-core/src/device.rs, first half)

    The DeviceLink and DeviceRevocation records and the texts their signers sign, link
    verification, and the [DeviceRegistry] of a group: verified links plus the sticky
    revocations.  Signature recovery is the [LinkVerifier] trait, a class here. *)

From S2P Require Import Prelude RustStr Admission.
Local Open Scope N_scope.

Definition DEVICE_LINK_VERSION : N := 1.
Definition MAX_LABEL_LEN : N := 48.
Definition MAX_LINKS_PER_UPDATE : N := 64.
Definition MAX_DEVICE_INDEX : N := 1023.

Definition newline : string := String "010" "".

(** [b' ' | b'.' | b'_' | b'-' | b'\''] or an ASCII letter or digit. *)
Definition label_char (b : ascii) : bool :=
  is_ascii_alphanumeric b || bool_decide (b ∈ [" "; "."; "_"; "-"; "'"]%char).

Definition label_is_valid (label : string) : bool :=
  negb (str_is_empty label)
  && (str_len label <=? MAX_LABEL_LEN)
  && bool_decide (trim label = label)
  && str_all label_char label.

Module DeviceLink.

Record t := mk {
  member : string;
  device : string;
  wallet : string;
  index : N;
  label : string;
  issued_at : N;
}.

Definition new (member device wallet : string) (index : N) (label : string)
    (issued_at : N) : option t :=
  match canonical_address member with
  | None => None
  | Some member =>
  match canonical_address device with
  | None => None
  | Some device =>
  match canonical_address wallet with
  | None => None
  | Some wallet =>
      if bool_decide (device = member) || bool_decide (device = wallet) then None
      else if (MAX_DEVICE_INDEX <? index) || negb (label_is_valid label) then None
      else Some {| member := member; device := device; wallet := wallet;
                   index := index; label := label; issued_at := issued_at |}
  end end end.

Definition signing_message (l : t) : string :=
  "Citrate DeviceLink v" +:+ pretty DEVICE_LINK_VERSION +:+ newline +:+
  "Link this device to my Citrate member identity." +:+ newline +:+
  "member: 0x" +:+ member l +:+ newline +:+
  "device: 0x" +:+ device l +:+ newline +:+
  "wallet: 0x" +:+ wallet l +:+ newline +:+
  "index: " +:+ pretty (index l) +:+ newline +:+
  "label: " +:+ label l +:+ newline +:+
  "issued_at: " +:+ pretty (issued_at l).

(** The constructor's checks run on a body taken as received. *)
Definition canon (l : t) : option t :=
  new (member l) (device l) (wallet l) (index l) (label l) (issued_at l).

End DeviceLink.

Global Instance DeviceLink_eq_dec : EqDecision DeviceLink.t.
Proof. solve_decision. Defined.

Module SignedDeviceLink.

Record t := mk {
  link : DeviceLink.t;
  member_sig : string;
  device_sig : string;
  wallet_sig : string;
}.

End SignedDeviceLink.

Module DeviceRevocation.

Record t := mk {
  member : string;
  device : string;
  revoked_at : N;
}.

Definition new (member device : string) (revoked_at : N) : option t :=
  match canonical_address member with
  | None => None
  | Some member =>
  match canonical_address device with
  | None => None
  | Some device => Some {| member := member; device := device; revoked_at := revoked_at |}
  end end.

Definition signing_message (r : t) : string :=
  "Citrate DeviceRevocation v" +:+ pretty DEVICE_LINK_VERSION +:+ newline +:+
  "Remove this device from my Citrate member identity." +:+ newline +:+
  "member: 0x" +:+ member r +:+ newline +:+
  "device: 0x" +:+ device r +:+ newline +:+
  "revoked_at: " +:+ pretty (revoked_at r).

End DeviceRevocation.

Module SignedRevocation.

Record t := mk {
  revocation : DeviceRevocation.t;
  member_sig : string;
}.

End SignedRevocation.

(** ** Verification *)

Class LinkVerifier := {
  recover : string → string → option string;
}.

Inductive LinkRejection :=
| Malformed (device : string)
| BadSignature (device which : string)
| Conflict (device : string)
| Revoked (device : string)
| BadRevocation (device : string)
| TooMany.

Global Instance LinkRejection_eq_dec : EqDecision LinkRejection.
Proof. solve_decision. Defined.

Section verifier.
  Context `{!LinkVerifier}.

(** The loop over the three [(which, sig, want)] triples. *)
Fixpoint check_signatures (msg device : string) (l : list (string * string * string))
    : result unit LinkRejection :=
  match l with
  | [] => Ok tt
  | (which, sig, want) :: l' =>
      if decide (recover msg sig = Some want) then check_signatures msg device l'
      else Err (BadSignature device which)
  end.

Definition verify_link (signed : SignedDeviceLink.t) : result unit LinkRejection :=
  let l := SignedDeviceLink.link signed in
  match DeviceLink.canon l with
  | None => Err (Malformed (DeviceLink.device l))
  | Some canon =>
      check_signatures (DeviceLink.signing_message canon) (DeviceLink.device canon)
        [("member", SignedDeviceLink.member_sig signed, DeviceLink.member canon);
         ("device", SignedDeviceLink.device_sig signed, DeviceLink.device canon);
         ("wallet", SignedDeviceLink.wallet_sig signed, DeviceLink.wallet canon)]
  end.

End verifier.

(** ** The registry *)

Module DeviceRegistry.

Record t := mk {
  links_f : gmap string DeviceLink.t;
  revoked_f : gset (string * string);
}.

Definition new : t := {| links_f := ∅; revoked_f := ∅ |}.

Section update.
  Context `{!LinkVerifier}.

(** Step 1, one revocation. *)
Definition record_revocation (acc : gset (string * string) * list LinkRejection)
    (r : SignedRevocation.t) : gset (string * string) * list LinkRejection :=
  let '(revoked, rejected) := acc in
  let b := SignedRevocation.revocation r in
  match DeviceRevocation.new (DeviceRevocation.member b) (DeviceRevocation.device b)
          (DeviceRevocation.revoked_at b) with
  | None => (revoked, rejected ++ [BadRevocation (DeviceRevocation.device b)])
  | Some rev =>
      if decide (recover (DeviceRevocation.signing_message rev) (SignedRevocation.member_sig r)
                 = Some (DeviceRevocation.member rev))
      then ({[(DeviceRevocation.member rev, DeviceRevocation.device rev)]} ∪ revoked, rejected)
      else (revoked, rejected ++ [BadRevocation (DeviceRevocation.device rev)])
  end.

(** Step 2, one link: verified bodies are kept per device, in order. *)
Definition collect_link (acc : gmap string (list DeviceLink.t) * list LinkRejection)
    (s : SignedDeviceLink.t) : gmap string (list DeviceLink.t) * list LinkRejection :=
  let '(verified, rejected) := acc in
  match verify_link s with
  | Ok _ =>
      match DeviceLink.canon (SignedDeviceLink.link s) with
      | Some c =>
          (<[DeviceLink.device c := default [] (verified !! DeviceLink.device c) ++ [c]]> verified,
           rejected)
      | None => (verified, rejected)
      end
  | Err e => (verified, rejected ++ [e])
  end.

Definition link_key (l : DeviceLink.t) : N * string :=
  (DeviceLink.issued_at l, DeviceLink.label l).
Definition link_le (a b : DeviceLink.t) : Prop := ord_le (link_key a) (link_key b).

#[global] Instance link_le_dec : RelDecision link_le.
Proof. intros a b. unfold link_le. apply _. Defined.

(** Step 3, one device: refuse a conflict, take the newest link, refuse a revoked key. *)
Definition resolve_device (revoked : gset (string * string))
    (acc : gmap string DeviceLink.t * list LinkRejection)
    (e : string * list DeviceLink.t) : gmap string DeviceLink.t * list LinkRejection :=
  let '(candidates, rejected) := acc in
  let '(device, ls) := e in
  let members : gset string := list_to_set (map DeviceLink.member ls) in
  if decide (1 < size members)%nat then (candidates, rejected ++ [Conflict device])
  else
    match last (stable_sort link_le ls) with
    | None => (candidates, rejected)
    | Some newest =>
        if decide ((DeviceLink.member newest, DeviceLink.device newest) ∈ revoked)
        then (candidates, rejected ++ [Revoked device])
        else (<[device := newest]> candidates, rejected)
    end.

Definition update (links : list SignedDeviceLink.t) (revocations : list SignedRevocation.t)
    (reg : t) : list LinkRejection * t :=
  if (MAX_LINKS_PER_UPDATE <? N.of_nat (length links))
     || (MAX_LINKS_PER_UPDATE <? N.of_nat (length revocations))
  then ([TooMany], reg)
  else
    let '(revoked, rejected) :=
      fold_left record_revocation revocations (revoked_f reg, []) in
    let '(verified, rejected) := fold_left collect_link links (∅, rejected) in
    let '(candidates, rejected) :=
      fold_left (resolve_device revoked) (map_entries verified) (∅, rejected) in
    (rejected, {| links_f := candidates; revoked_f := revoked |}).

End update.

Definition member_of (device : string) (reg : t) : option string :=
  match canonical_address device with
  | None => None
  | Some d => DeviceLink.member <$> links_f reg !! d
  end.

Definition is_revoked (member device : string) (reg : t) : bool :=
  match canonical_address member, canonical_address device with
  | Some m, Some d => bool_decide ((m, d) ∈ revoked_f reg)
  | _, _ => false
  end.

(** All active links, sorted by device. *)
Definition links (reg : t) : list DeviceLink.t := (map_entries (links_f reg)).*2.

Definition index_le (a b : DeviceLink.t) : Prop :=
  ord_le (DeviceLink.index a) (DeviceLink.index b).

#[global] Instance index_le_dec : RelDecision index_le.
Proof. intros a b. unfold index_le. apply _. Defined.

Definition devices_of (member : string) (reg : t) : list DeviceLink.t :=
  match canonical_address member with
  | None => []
  | Some m =>
      stable_sort index_le
        (List.filter (λ l, bool_decide (DeviceLink.member l = m)) (links reg))
  end.

Definition revocations (reg : t) : list (string * string) := set_iter (revoked_f reg).

End DeviceRegistry.

Import DeviceRegistry.

(** ** Link bodies *)

Definition link_ok (l : DeviceLink.t) : Prop :=
  is_canonical (DeviceLink.member l) = true
  ∧ is_canonical (DeviceLink.device l) = true
  ∧ is_canonical (DeviceLink.wallet l) = true
  ∧ DeviceLink.device l ≠ DeviceLink.member l
  ∧ DeviceLink.device l ≠ DeviceLink.wallet l
  ∧ DeviceLink.index l <= MAX_DEVICE_INDEX
  ∧ label_is_valid (DeviceLink.label l) = true.

Lemma DeviceLink_new_Some m d w i lb t c :
  DeviceLink.new m d w i lb t = Some c →
  canonical_address m = Some (DeviceLink.member c)
  ∧ canonical_address d = Some (DeviceLink.device c)
  ∧ canonical_address w = Some (DeviceLink.wallet c)
  ∧ DeviceLink.index c = i ∧ DeviceLink.label c = lb ∧ DeviceLink.issued_at c = t
  ∧ link_ok c.
Proof.
  unfold DeviceLink.new, link_ok. intros H.
  repeat (case_match; try done); simplify_eq/=. split_bools.
  split_and!; eauto with cluster.
Qed.

Lemma canon_ok l c : DeviceLink.canon l = Some c → link_ok c.
Proof. intros H. by apply DeviceLink_new_Some in H as (_&_&_&_&_&_&?). Qed.

Lemma link_ok_canon l : link_ok l → DeviceLink.canon l = Some l.
Proof.
  intros (Hm & Hd & Hw & Hdm & Hdw & Hi & Hl). unfold DeviceLink.canon, DeviceLink.new.
  rewrite !canonical_address_id by done. rewrite !bool_decide_eq_false_2 by done. simpl.
  rewrite (proj2 (N.ltb_ge _ _)), Hl by done. by destruct l.
Qed.

Lemma canon_idemp l c : DeviceLink.canon l = Some c → DeviceLink.canon c = Some c.
Proof. intros. eapply link_ok_canon, canon_ok; eauto. Qed.

(** ** The signed text determines the body *)

Lemma pretty_N_digits (n : N) : str_all is_ascii_digit (pretty n) = true.
Proof.
  assert (∀ x s, str_all is_ascii_digit s = true →
    str_all is_ascii_digit (pretty_N_go x s) = true) as H.
  { intros x. induction (N.lt_wf_0 x) as [x _ IH]; intros s Hs.
    destruct (decide (x = 0)) as [->|Hx]; [by rewrite pretty_N_go_0|].
    rewrite pretty_N_go_step by lia. apply IH; [apply N.div_lt; lia|].
    simpl. rewrite Hs, andb_true_r. unfold pretty_N_char. by repeat case_match. }
  unfold pretty, pretty_N. case_decide; [done|]. by apply H.
Qed.

Lemma digits_no_newline n : no_sep "010"%char (pretty (n : N)).
Proof.
  apply negb_true_iff. rewrite <-str_all_any. eapply str_all_impl; [|apply pretty_N_digits].
  intros c Hc. byte_solve.
Qed.

Lemma label_no_newline lb : label_is_valid lb = true → no_sep "010"%char lb.
Proof.
  unfold label_is_valid. intros; split_bools. apply negb_true_iff. rewrite <-str_all_any.
  eapply str_all_impl; [|done]. intros c Hc. byte_solve.
Qed.

(** Peels a common literal, a fixed-width address or a newline-terminated field. *)
Lemma peel_literal (s t u : string) : s +:+ t = s +:+ u → t = u.
Proof. apply str_app_inv_head. Qed.

Lemma peel_address a b t u :
  is_canonical a = true → is_canonical b = true → a +:+ t = b +:+ u → a = b ∧ t = u.
Proof.
  intros Ha Hb. apply str_app_inj. by rewrite !is_canonical_length.
Qed.

Lemma peel_line a b t u :
  no_sep "010"%char a → no_sep "010"%char b →
  a +:+ newline +:+ t = b +:+ newline +:+ u → a = b ∧ t = u.
Proof. intros Ha Hb. by apply str_sep_inj. Qed.

Lemma signing_message_inj_ok l1 l2 :
  link_ok l1 → link_ok l2 →
  DeviceLink.signing_message l1 = DeviceLink.signing_message l2 → l1 = l2.
Proof.
  destruct l1, l2. intros (Hm1&Hd1&Hw1&_&_&_&Hl1) (Hm2&Hd2&Hw2&_&_&_&Hl2).
  unfold DeviceLink.signing_message; simpl in *. intros H.
  do 6 apply peel_literal in H. apply peel_address in H as [-> H]; [|done..].
  do 2 apply peel_literal in H. apply peel_address in H as [-> H]; [|done..].
  do 2 apply peel_literal in H. apply peel_address in H as [-> H]; [|done..].
  do 2 apply peel_literal in H.
  apply peel_line in H as [Hi H]; [|apply digits_no_newline..].
  apply (inj pretty) in Hi as ->.
  apply peel_literal in H.
  apply peel_line in H as [-> H]; [|by apply label_no_newline..].
  apply peel_literal, (inj pretty) in H as ->. done.
Qed.

Lemma revocation_message_inj_ok m1 d1 t1 m2 d2 t2 r1 r2 :
  DeviceRevocation.new m1 d1 t1 = Some r1 → DeviceRevocation.new m2 d2 t2 = Some r2 →
  DeviceRevocation.signing_message r1 = DeviceRevocation.signing_message r2 → r1 = r2.
Proof.
  unfold DeviceRevocation.new. intros H1 H2. repeat (case_match; try done). simplify_eq.
  unfold DeviceRevocation.signing_message; simpl. intros Hm.
  do 6 apply peel_literal in Hm. apply peel_address in Hm as [-> Hm]; [|eauto with cluster..].
  do 2 apply peel_literal in Hm. apply peel_address in Hm as [-> Hm]; [|eauto with cluster..].
  do 2 apply peel_literal in Hm. by apply (inj pretty) in Hm as ->.
Qed.

Lemma messages_disjoint l r :
  DeviceLink.signing_message l ≠ DeviceRevocation.signing_message r.
Proof.
  unfold DeviceLink.signing_message, DeviceRevocation.signing_message. intros H.
  rewrite !str_cons_app in H. by injection H.
Qed.

(** ** Link verification *)

Section verify.
  Context `{!LinkVerifier}.

(** The three signatures recover to the three keys the body names. *)
Definition signed_by_all (s : SignedDeviceLink.t) (c : DeviceLink.t) : Prop :=
  recover (DeviceLink.signing_message c) (SignedDeviceLink.member_sig s)
    = Some (DeviceLink.member c)
  ∧ recover (DeviceLink.signing_message c) (SignedDeviceLink.device_sig s)
    = Some (DeviceLink.device c)
  ∧ recover (DeviceLink.signing_message c) (SignedDeviceLink.wallet_sig s)
    = Some (DeviceLink.wallet c).

Lemma verify_link_Ok s :
  verify_link s = Ok tt ↔
  ∃ c, DeviceLink.canon (SignedDeviceLink.link s) = Some c ∧ signed_by_all s c.
Proof.
  unfold verify_link, signed_by_all. destruct (DeviceLink.canon _) as [c|]; [|naive_solver].
  simpl. repeat case_decide; naive_solver.
Qed.

(** The canonical body a verified link contributes. *)
Definition verified_link (s : SignedDeviceLink.t) : option DeviceLink.t :=
  match verify_link s with
  | Ok _ => DeviceLink.canon (SignedDeviceLink.link s)
  | Err _ => None
  end.

Lemma verified_link_Some s c :
  verified_link s = Some c ↔
  DeviceLink.canon (SignedDeviceLink.link s) = Some c ∧ signed_by_all s c.
Proof.
  unfold verified_link. destruct (verify_link s) as [[]|e] eqn:E.
  - apply verify_link_Ok in E as (c' & Hc & Hs). naive_solver.
  - split; [done|]. intros [Hc Hs].
    assert (verify_link s = Ok tt) by (apply verify_link_Ok; eauto). congruence.
Qed.

(** The verified bodies for one device, in the order of the update. *)
Definition device_links (links : list SignedDeviceLink.t) (d : string) : list DeviceLink.t :=
  List.filter (λ l, bool_decide (DeviceLink.device l = d)) (omap verified_link links).

Lemma elem_of_device_links links d l :
  l ∈ device_links links d ↔
  DeviceLink.device l = d ∧ ∃ s, s ∈ links ∧ verified_link s = Some l.
Proof.
  unfold device_links.
  rewrite list_elem_of_In, filter_In, <-list_elem_of_In, bool_decide_eq_true, list_elem_of_omap.
  naive_solver.
Qed.

Lemma device_links_cons s links d :
  device_links (s :: links) d =
  match verified_link s with
  | Some c => if bool_decide (DeviceLink.device c = d) then c :: device_links links d
              else device_links links d
  | None => device_links links d
  end.
Proof. unfold device_links. simpl. by destruct (verified_link s). Qed.

Lemma collect_link_eq v rej s :
  collect_link (v, rej) s =
  match verified_link s with
  | Some c => (<[DeviceLink.device c := default [] (v !! DeviceLink.device c) ++ [c]]> v, rej)
  | None => (v, match verify_link s with Ok _ => rej | Err e => rej ++ [e] end)
  end.
Proof.
  unfold collect_link, verified_link. destruct (verify_link s); [|done].
  by destruct (DeviceLink.canon _).
Qed.

Lemma collect_links_spec links (v : gmap string (list DeviceLink.t)) rej d :
  default [] ((fold_left collect_link links (v, rej)).1 !! d)
  = default [] (v !! d) ++ device_links links d
  ∧ (is_Some ((fold_left collect_link links (v, rej)).1 !! d) ↔
     is_Some (v !! d) ∨ device_links links d ≠ []).
Proof.
  revert v rej. induction links as [|s links IH]; intros v rej.
  { change (device_links [] d) with (@nil DeviceLink.t). cbn [fold_left fst].
    rewrite app_nil_r. naive_solver. }
  cbn [fold_left]. rewrite collect_link_eq, device_links_cons.
  destruct (verified_link s) as [c|]; [|apply IH].
  edestruct (IH (<[DeviceLink.device c := default [] (v !! DeviceLink.device c) ++ [c]]> v) rej)
    as [-> ->].
  case_bool_decide as Hd; [subst d|by rewrite lookup_insert_ne].
  rewrite lookup_insert_eq. simpl. rewrite <-app_assoc. simpl. naive_solver.
Qed.

Lemma collected_lookup links rej d ls :
  (fold_left collect_link links (∅, rej)).1 !! d = Some ls ↔
  ls = device_links links d ∧ ls ≠ [].
Proof.
  destruct (collect_links_spec links ∅ rej d) as [Hd Hs].
  rewrite lookup_empty in Hd, Hs. simpl in Hd. split.
  - intros Hx. rewrite Hx in Hd, Hs. simpl in Hd. subst. split; [done|].
    destruct Hs as [[[]|?] _]; [eauto|done|done].
  - intros [-> Hne]. destruct Hs as [_ [ls Hls]]; [by right|].
    rewrite Hls in *. simpl in Hd. by subst.
Qed.

(** A revocation in the update that counts: canonical, and signed by its member. *)
Definition valid_revocation (r : SignedRevocation.t) (m d : string) : Prop :=
  ∃ rev, DeviceRevocation.new (DeviceRevocation.member (SignedRevocation.revocation r))
           (DeviceRevocation.device (SignedRevocation.revocation r))
           (DeviceRevocation.revoked_at (SignedRevocation.revocation r)) = Some rev
    ∧ recover (DeviceRevocation.signing_message rev) (SignedRevocation.member_sig r)
      = Some (DeviceRevocation.member rev)
    ∧ DeviceRevocation.member rev = m ∧ DeviceRevocation.device rev = d.

Lemma record_revocations_spec (rs : list SignedRevocation.t) (r0 : gset (string * string)) rej m d :
  (m, d) ∈ (fold_left record_revocation rs (r0, rej)).1 ↔
  (m, d) ∈ r0 ∨ ∃ r, r ∈ rs ∧ valid_revocation r m d.
Proof.
  revert r0 rej. induction rs as [|r rs IH]; intros r0 rej; simpl; [set_solver|].
  setoid_rewrite elem_of_cons. unfold valid_revocation in *.
  destruct (DeviceRevocation.new _ _ _) as [rev|] eqn:En; [case_decide as Hr|];
    rewrite IH; clear IH; set_unfold; naive_solver.
Qed.

(** What one device's verified links resolve to, given the revocations. *)
Definition resolved (revoked : gset (string * string)) (ls : list DeviceLink.t)
    : option DeviceLink.t :=
  if decide (1 < size (list_to_set (map DeviceLink.member ls) : gset string))%nat then None
  else
    match last (stable_sort link_le ls) with
    | Some newest =>
        if decide ((DeviceLink.member newest, DeviceLink.device newest) ∈ revoked)
        then None else Some newest
    | None => None
    end.

Lemma resolve_devices_spec revoked es (c : gmap string DeviceLink.t) rej d :
  NoDup es.*1 →
  (fold_left (resolve_device revoked) es (c, rej)).1 !! d
  = match list_find (λ e, e.1 = d) es with
    | Some (_, (_, ls)) =>
        match resolved revoked ls with Some l => Some l | None => c !! d end
    | None => c !! d
    end.
Proof.
  revert c rej. induction es as [|[d' ls] es IH]; intros c rej Hnd; [done|].
  rewrite fmap_cons in Hnd. apply NoDup_cons in Hnd as [Hni Hnd]. simpl.
  assert (∀ c' rej', (d' ≠ d → c' !! d = c !! d) →
    (d' = d → c' !! d = match resolved revoked ls with Some l => Some l | None => c !! d end) →
    (fold_left (resolve_device revoked) es (c', rej')).1 !! d
    = match (if decide (d' = d) then Some (0%nat, (d', ls))
             else prod_map S id <$> list_find (λ e, e.1 = d) es) with
      | Some (_, (_, ls)) =>
          match resolved revoked ls with Some l => Some l | None => c !! d end
      | None => c !! d
      end) as Hstep.
  { intros c' rej' Hne Heq. rewrite IH by done. case_decide as Hd.
    - subst d'. destruct (list_find _ es) as [[i [k v]]|] eqn:Ef; [|by apply Heq].
      apply list_find_Some in Ef as (Hl & Hk & _). simpl in Hk. subst k.
      exfalso. apply Hni. apply list_elem_of_fmap. exists (d, v). split; [done|].
      by eapply list_elem_of_lookup_2.
    - rewrite Hne by done. by destruct (list_find _ es) as [[i [k v]]|]. }
  unfold resolved in Hstep at 1. unfold resolved at 1.
  destruct (decide (1 < _)%nat); [apply Hstep; naive_solver|].
  destruct (last _) as [newest|]; [|apply Hstep; naive_solver].
  destruct (decide (_ ∈ revoked)); apply Hstep; intros; subst;
    rewrite ?lookup_insert_eq, ?lookup_insert_ne by done; done.
Qed.
End verify.
