(* ===== verification/Registry.v ===== *)
(** * What [DeviceRegistry::update] does (crates/cluster-core/src/device.rs)

    The functional characterisation of the update (revocations first, one link per device,
    conflicts refused), its invariant, and the theorems on the signed texts. *)

From S2P Require Import Prelude RustStr Admission Device.
Import DeviceRegistry.
Local Open Scope N_scope.

(** ** The update, characterised *)

Section update.
  Context `{!LinkVerifier}.

Definition fits (links : list SignedDeviceLink.t) (revs : list SignedRevocation.t) : Prop :=
  N.of_nat (length links) <= MAX_LINKS_PER_UPDATE
  ∧ N.of_nat (length revs) <= MAX_LINKS_PER_UPDATE.

Global Instance fits_dec links revs : Decision (fits links revs).
Proof. unfold fits. apply _. Defined.

Lemma update_too_many links revs reg :
  ¬ fits links revs → update links revs reg = ([TooMany], reg).
Proof.
  unfold fits, update. intros Hf.
  destruct (N.ltb_spec MAX_LINKS_PER_UPDATE (N.of_nat (length links))); [done|].
  destruct (N.ltb_spec MAX_LINKS_PER_UPDATE (N.of_nat (length revs))); [done|].
  naive_solver.
Qed.

(** The rejections after each of the three steps. *)
Definition rejected1 (revs : list SignedRevocation.t) reg : list LinkRejection :=
  (fold_left record_revocation revs (revoked_f reg, [])).2.
Definition rejected2 links revs reg : list LinkRejection :=
  (fold_left collect_link links (∅, rejected1 revs reg)).2.

Lemma update_fits links revs reg :
  fits links revs →
  let revoked := (fold_left record_revocation revs (revoked_f reg, [])).1 in
  let verified := (fold_left collect_link links (∅, rejected1 revs reg)).1 in
  let final := fold_left (resolve_device revoked) (map_entries verified)
                 (∅, rejected2 links revs reg) in
  update links revs reg = (final.2, {| links_f := final.1; revoked_f := revoked |}).
Proof.
  unfold fits, update, rejected2, rejected1. intros [H1 H2].
  rewrite !(proj2 (N.ltb_ge _ _)) by done. simpl.
  destruct (fold_left record_revocation revs _) as [rv rj1] eqn:E1. simpl.
  destruct (fold_left collect_link links _) as [vf rj2] eqn:E2. simpl.
  by destruct (fold_left (resolve_device rv) _ _) as [cd rj3].
Qed.

Lemma update_revoked links revs reg m d :
  fits links revs →
  (m, d) ∈ revoked_f (update links revs reg).2 ↔
  (m, d) ∈ revoked_f reg ∨ ∃ r, r ∈ revs ∧ valid_revocation r m d.
Proof. intros Hf. rewrite update_fits by done. apply record_revocations_spec. Qed.

Lemma update_links links revs reg d :
  fits links revs →
  links_f (update links revs reg).2 !! d
  = resolved (revoked_f (update links revs reg).2) (device_links links d).
Proof.
  intros Hf. rewrite update_fits by done. cbn [links_f revoked_f snd].
  rewrite resolve_devices_spec by apply NoDup_map_entries_keys.
  rewrite lookup_empty.
  destruct (list_find _ _) as [[i [d' ls]]|] eqn:Ef.
  - apply list_find_Some in Ef as (Hl & Hd & _). simpl in Hd. subst d'.
    apply list_elem_of_lookup_2, elem_of_map_entries, collected_lookup in Hl as [-> _].
    by destruct (resolved _ _).
  - assert (device_links links d = []) as ->; [|done].
    destruct (device_links links d) as [|l ls] eqn:El; [done|].
    apply list_find_None in Ef. rewrite Forall_forall in Ef.
    exfalso. apply (Ef (d, l :: ls)); [|done].
    apply elem_of_map_entries, collected_lookup. by rewrite El.
Qed.

(** ** What a device resolves to *)

Lemma one_member ls :
  ¬ (1 < size (list_to_set (map DeviceLink.member ls) : gset string))%nat →
  ∀ a b, a ∈ ls → b ∈ ls → DeviceLink.member a = DeviceLink.member b.
Proof.
  intros Hs a b Ha Hb. eapply (size_singleton_inv
    (list_to_set (map DeviceLink.member ls) : gset string)).
  - destruct (decide (size (list_to_set (map DeviceLink.member ls) : gset string) = 0%nat))
      as [H0|]; [|lia].
    apply size_empty_inv in H0. exfalso.
    assert (DeviceLink.member a ∈ (list_to_set (map DeviceLink.member ls) : gset string));
      [|set_solver].
    apply elem_of_list_to_set, list_elem_of_fmap. eauto.
  - apply elem_of_list_to_set, list_elem_of_fmap. eauto.
  - apply elem_of_list_to_set, list_elem_of_fmap. eauto.
Qed.

Lemma one_member_size ls m :
  (∀ a, a ∈ ls → DeviceLink.member a = m) →
  ¬ (1 < size (list_to_set (map DeviceLink.member ls) : gset string))%nat.
Proof.
  intros Hm. apply Nat.le_ngt.
  assert ((list_to_set (map DeviceLink.member ls) : gset string) ⊆ {[m]}) as Hs.
  { intros x. rewrite elem_of_list_to_set. intros (a & -> & Ha)%list_elem_of_fmap.
    set_solver. }
  apply subseteq_size in Hs. by rewrite size_singleton in Hs.
Qed.

Global Instance link_le_trans : Transitive link_le.
Proof. intros a b c. unfold link_le. apply (transitivity (R:=ord_le)). Qed.
Global Instance link_le_refl : Reflexive link_le.
Proof. intros a. unfold link_le. reflexivity. Qed.
Global Instance link_le_total : Total link_le.
Proof. intros a b. unfold link_le. apply (total ord_le). Qed.

Lemma resolved_Some revoked ls l :
  resolved revoked ls = Some l →
  l ∈ ls ∧ (∀ l', l' ∈ ls → DeviceLink.member l' = DeviceLink.member l)
  ∧ (∀ l', l' ∈ ls → link_le l' l)
  ∧ (DeviceLink.member l, DeviceLink.device l) ∉ revoked.
Proof.
  unfold resolved. case_decide as Hs; [done|].
  destruct (last _) as [n|] eqn:El; [|done]. case_decide; [done|]. intros [= ->].
  assert (l ∈ ls) as Hl by (by apply last_elem_of, elem_of_stable_sort in El).
  split_and!; [done|by intros; eapply one_member| |done].
  intros l' Hl'. apply (StronglySorted_last link_le (stable_sort link_le ls)).
  - apply (stable_sort_Sorted link_le).
  - done.
  - by apply elem_of_stable_sort.
Qed.

Lemma resolved_complete revoked ls m :
  ls ≠ [] → (∀ l, l ∈ ls → DeviceLink.member l = m) →
  (∀ l, l ∈ ls → (m, DeviceLink.device l) ∉ revoked) →
  ∃ l, resolved revoked ls = Some l.
Proof.
  intros Hne Hm Hr. unfold resolved. rewrite decide_False by by eapply one_member_size.
  destruct (last_is_Some_ne (stable_sort link_le ls)) as [n Hn].
  { intros ?%stable_sort_nil_inv. done. }
  rewrite Hn. apply last_elem_of, elem_of_stable_sort in Hn.
  rewrite decide_False; [eauto|]. rewrite (Hm n) by done. auto.
Qed.

(** Whom a device's verified links resolve to does not depend on their order. *)
Lemma resolved_member_perm revoked ls1 ls2 d :
  ls1 ≡ₚ ls2 → (∀ l, l ∈ ls1 → DeviceLink.device l = d) →
  DeviceLink.member <$> resolved revoked ls1 = DeviceLink.member <$> resolved revoked ls2.
Proof.
  intros Hp Hd.
  assert (∀ ls ls' l, ls ≡ₚ ls' → (∀ l, l ∈ ls → DeviceLink.device l = d) →
    resolved revoked ls = Some l →
    ∃ l', resolved revoked ls' = Some l' ∧ DeviceLink.member l' = DeviceLink.member l) as Hdir.
  { intros ls ls' l Hpp Hdd Hl. apply resolved_Some in Hl as (Hin & Hm & _ & Hr).
    destruct (resolved_complete revoked ls' (DeviceLink.member l)) as [l' Hl'].
    - intros ->. apply Permutation_nil_r in Hpp as ->. set_solver.
    - intros x Hx. apply Hm. by rewrite Hpp.
    - intros x Hx. rewrite <-Hpp in Hx. by rewrite (Hdd x), <-(Hdd l) by done.
    - exists l'. split; [done|]. apply Hm. rewrite Hpp. by apply resolved_Some in Hl' as [? _]. }
  destruct (resolved revoked ls1) as [l1|] eqn:E1.
  - edestruct Hdir as (l2 & -> & Hm); [exact Hp|done|done|]. simpl. by rewrite Hm.
  - destruct (resolved revoked ls2) as [l2|] eqn:E2; [|done].
    edestruct (Hdir ls2 ls1) as (l1 & ? & _); [by symmetry| |done|congruence].
    intros l Hl. apply Hd. by rewrite Hp.
Qed.

Lemma device_links_perm links1 links2 d :
  links1 ≡ₚ links2 → device_links links1 d ≡ₚ device_links links2 d.
Proof.
  intros Hp. unfold device_links.
  assert (omap verified_link links1 ≡ₚ omap verified_link links2) as Ho by by rewrite Hp.
  revert Ho. generalize (omap verified_link links1) (omap verified_link links2).
  induction 1; simpl; repeat case_match; eauto using Permutation_swap, Permutation_trans.
Qed.

(** ** The registry's invariant *)

Definition reg_ok (reg : DeviceRegistry.t) : Prop :=
  ∀ d l, links_f reg !! d = Some l →
    DeviceLink.device l = d ∧ link_ok l ∧ (DeviceLink.member l, d) ∉ revoked_f reg.

Lemma new_reg_ok : reg_ok DeviceRegistry.new.
Proof. by intros d l. Qed.

Lemma update_reg_ok links revs reg : reg_ok reg → reg_ok (update links revs reg).2.
Proof.
  intros Hreg. destruct (decide (fits links revs)) as [Hf|Hf];
    [|by rewrite update_too_many].
  intros d l. rewrite update_links by done.
  intros (Hin & _ & _ & Hr)%resolved_Some.
  apply elem_of_device_links in Hin as [<- (s & _ & [Hc _]%verified_link_Some)].
  split_and!; [done|by eapply canon_ok|done].
Qed.

Lemma update_revoked_sticky links revs reg :
  revoked_f reg ⊆ revoked_f (update links revs reg).2.
Proof.
  destruct (decide (fits links revs)) as [Hf|Hf]; [|by rewrite update_too_many].
  intros [m d] Hr. rewrite update_revoked by done. by left.
Qed.
End update.

#[export] Hint Resolve new_reg_ok update_reg_ok update_revoked_sticky : cluster.

(** ** Rejections are reported *)

Section reported.
  Context `{!LinkVerifier}.











End reported.

(** ** A verifier for examples: a signature is the signer, a colon and the signed text *)

Module ExampleVerifier.

Definition sign (signer msg : string) : string := signer +:+ String ":" msg.

Definition verifier : LinkVerifier := {|
  recover msg sig :=
    match split_once ":" sig with
    | Some (signer, m) => if decide (m = msg) then Some signer else None
    | None => None
    end
|}.

Definition M1 : string := "00000000000000000000000000000000000000a1".
Definition M2 : string := "00000000000000000000000000000000000000a2".
Definition W1 : string := "00000000000000000000000000000000000000b1".
Definition W2 : string := "00000000000000000000000000000000000000b2".
Definition D1 : string := "00000000000000000000000000000000000000d1".

Definition body (m d w label : string) : DeviceLink.t :=
  {| DeviceLink.member := m; DeviceLink.device := d; DeviceLink.wallet := w;
     DeviceLink.index := 0; DeviceLink.label := label;
     DeviceLink.issued_at := 1790000000 |}.

Definition signed (l : DeviceLink.t) : SignedDeviceLink.t :=
  let msg := DeviceLink.signing_message l in
  {| SignedDeviceLink.link := l;
     SignedDeviceLink.member_sig := sign (DeviceLink.member l) msg;
     SignedDeviceLink.device_sig := sign (DeviceLink.device l) msg;
     SignedDeviceLink.wallet_sig := sign (DeviceLink.wallet l) msg |}.

Definition revoke (m d : string) : SignedRevocation.t :=
  let r := {| DeviceRevocation.member := m; DeviceRevocation.device := d;
              DeviceRevocation.revoked_at := 1790000100 |} in
  {| SignedRevocation.revocation := r;
     SignedRevocation.member_sig := sign m (DeviceRevocation.signing_message r) |}.

End ExampleVerifier.

(** ** Theorems *)

(** C30: The signed text is unambiguous: two bodies that pass the constructor and give the
    same text are the same body, the same holds of revocations, and no link text is ever
    a revocation text, so a signature over one cannot be replayed as the other. *)
Theorem signed_text_determines_body :
  (∀ l1 l2 c1 c2, DeviceLink.canon l1 = Some c1 → DeviceLink.canon l2 = Some c2 →
     DeviceLink.signing_message c1 = DeviceLink.signing_message c2 → c1 = c2)
  ∧ (∀ m1 d1 t1 m2 d2 t2 r1 r2,
     DeviceRevocation.new m1 d1 t1 = Some r1 → DeviceRevocation.new m2 d2 t2 = Some r2 →
     DeviceRevocation.signing_message r1 = DeviceRevocation.signing_message r2 → r1 = r2)
  ∧ (∀ l r, DeviceLink.signing_message l ≠ DeviceRevocation.signing_message r).
Proof.
  split_and!.
  - intros. eapply signing_message_inj_ok; eauto using canon_ok.
  - apply revocation_message_inj_ok.
  - apply messages_disjoint.
Qed.

Lemma signed_text_determines_body_witness :
  DeviceLink.signing_message
    (ExampleVerifier.body ExampleVerifier.M1 ExampleVerifier.D1 ExampleVerifier.W1 "x")
  ≠ DeviceRevocation.signing_message
    (SignedRevocation.revocation (ExampleVerifier.revoke ExampleVerifier.M1 ExampleVerifier.D1)).
Proof. exact (proj2 (proj2 signed_text_determines_body) _ _). Defined.

(** The text of a link is the golden vector both repositories pin. *)
Example signing_message_golden :
  DeviceLink.signing_message
    (ExampleVerifier.body ExampleVerifier.M1 ExampleVerifier.D1 ExampleVerifier.W1 "Studio Mac")
  = String.concat newline
      ["Citrate DeviceLink v1"; "Link this device to my Citrate member identity.";
       "member: 0x00000000000000000000000000000000000000a1";
       "device: 0x00000000000000000000000000000000000000d1";
       "wallet: 0x00000000000000000000000000000000000000b1";
       "index: 0"; "label: Studio Mac"; "issued_at: 1790000000"].
Proof. vm_compute. reflexivity. Qed.



(** C15: After an update that is not refused whole, a device is linked to a member exactly when
    the update carries a verified link of it to that member, every verified link of that
    device is to the same member (a conflict links nobody), and the member has not revoked
    it, before or in this very update; the record kept is the newest of those links. *)
Theorem update_links_exactly `{!LinkVerifier} (links : list SignedDeviceLink.t)
    (revs : list SignedRevocation.t) (reg : DeviceRegistry.t) (d m : string) :
  N.of_nat (length links) <= MAX_LINKS_PER_UPDATE →
  N.of_nat (length revs) <= MAX_LINKS_PER_UPDATE →
  let reg' := (update links revs reg).2 in
  ((∃ l, links_f reg' !! d = Some l ∧ DeviceLink.member l = m) ↔
   (∃ s c, s ∈ links ∧ verified_link s = Some c
      ∧ DeviceLink.device c = d ∧ DeviceLink.member c = m)
   ∧ (∀ s c, s ∈ links → verified_link s = Some c →
        DeviceLink.device c = d → DeviceLink.member c = m)
   ∧ ((m, d) ∉ revoked_f reg)
   ∧ ¬ (∃ r, r ∈ revs ∧ valid_revocation r m d))
  ∧ (∀ l s c, links_f reg' !! d = Some l → s ∈ links → verified_link s = Some c →
       DeviceLink.device c = d → link_le c l).
Proof.
  intros H1 H2. assert (fits links revs) as Hf by done. cbn zeta.
  rewrite update_links by done. split; [split|].
  - intros (l & Hl & <-). apply resolved_Some in Hl as (Hin & Hm & _ & Hr).
    pose proof Hin as Hin'. apply elem_of_device_links in Hin' as [<- (s & Hs & Hv)].
    rewrite update_revoked in Hr by done. split_and!; [naive_solver| |naive_solver..].
    intros s' c Hs' Hv' Hd. apply Hm. apply elem_of_device_links. eauto.
  - intros ((s & c & Hs & Hv & Hd & Hm) & Hall & Hr1 & Hr2).
    destruct (resolved_complete (revoked_f (update links revs reg).2) (device_links links d) m)
      as [l Hl].
    + intros Hnil. assert (c ∈ device_links links d); [|rewrite Hnil in *; set_solver].
      apply elem_of_device_links. eauto.
    + intros l (Hd' & s' & Hs' & Hv')%elem_of_device_links. eauto.
    + intros l (-> & _)%elem_of_device_links. rewrite update_revoked by done. naive_solver.
    + exists l. split; [done|]. apply resolved_Some in Hl as (Hin & _).
      apply elem_of_device_links in Hin as (Hd' & s' & Hs' & Hv'). eauto.
  - intros l s c Hl Hs Hv Hd. apply resolved_Some in Hl as (_ & _ & Hle & _).
    apply Hle, elem_of_device_links. eauto.
Qed.

Lemma update_links_exactly_witness :
  let s := ExampleVerifier.signed
    (ExampleVerifier.body ExampleVerifier.M1 ExampleVerifier.D1 ExampleVerifier.W1 "box") in
  ∃ l, links_f (update (H:=ExampleVerifier.verifier) [s] [] DeviceRegistry.new).2
         !! ExampleVerifier.D1 = Some l ∧ DeviceLink.member l = ExampleVerifier.M1.
Proof.
  intros s.
  apply (update_links_exactly (H:=ExampleVerifier.verifier) [s] [] DeviceRegistry.new
    ExampleVerifier.D1 ExampleVerifier.M1); [vm_compute; discriminate..|].
  assert (verified_link (H:=ExampleVerifier.verifier) s = Some (SignedDeviceLink.link s)) as Hs
    by (vm_compute; reflexivity).
  split_and!.
  - exists s, (SignedDeviceLink.link s). split_and!; [by left|exact Hs|done|done].
  - intros s' c ->%list_elem_of_singleton. rewrite Hs. by intros [= <-].
  - apply not_elem_of_empty.
  - intros (r & ?%elem_of_nil & _). done.
Defined.

(** The answer does not depend on the order of the update: two nodes that receive the same
    links and revocations in different orders revoke the same pairs and link every device
    to the same member (or both to none). *)
Theorem update_order_independent `{!LinkVerifier} (links1 links2 : list SignedDeviceLink.t)
    (revs1 revs2 : list SignedRevocation.t) (reg : DeviceRegistry.t) (d : string) :
  links1 ≡ₚ links2 → revs1 ≡ₚ revs2 →
  let reg1 := (update links1 revs1 reg).2 in
  let reg2 := (update links2 revs2 reg).2 in
  revoked_f reg1 = revoked_f reg2 ∧ member_of d reg1 = member_of d reg2.
Proof.
  intros Hl Hr. cbn zeta.
  destruct (decide (fits links1 revs1)) as [Hf1|Hf1].
  - assert (fits links2 revs2) as Hf2 by (unfold fits in *; by rewrite <-Hl, <-Hr).
    assert (revoked_f (update links1 revs1 reg).2 = revoked_f (update links2 revs2 reg).2)
      as Hrev.
    { apply set_eq. intros [m d']. rewrite !update_revoked by done.
      by setoid_rewrite Hr. }
    split; [done|]. unfold member_of. destruct (canonical_address d) as [d'|]; [|done].
    rewrite !update_links by done. rewrite Hrev.
    apply (resolved_member_perm _ _ _ d'); [by apply device_links_perm|].
    by intros l [? _]%elem_of_device_links.
  - assert (¬ fits links2 revs2) as Hf2 by (unfold fits in *; by rewrite <-Hl, <-Hr).
    by rewrite !update_too_many.
Qed.

Lemma update_order_independent_witness :
  let s1 := ExampleVerifier.signed
    (ExampleVerifier.body ExampleVerifier.M1 ExampleVerifier.D1 ExampleVerifier.W1 "a") in
  let s2 := ExampleVerifier.signed
    (ExampleVerifier.body ExampleVerifier.M2 ExampleVerifier.D1 ExampleVerifier.W2 "b") in
  member_of ExampleVerifier.D1 (update (H:=ExampleVerifier.verifier) [s1; s2] [] new).2
  = member_of ExampleVerifier.D1 (update (H:=ExampleVerifier.verifier) [s2; s1] [] new).2.
Proof.
  intros s1 s2.
  apply (update_order_independent (H:=ExampleVerifier.verifier) [s1; s2] [s2; s1] [] [] new
    ExampleVerifier.D1); [apply Permutation_swap|done].
Defined.

(** The updates a registry goes through. *)
Definition run_updates `{!LinkVerifier}
    (us : list (list SignedDeviceLink.t * list SignedRevocation.t)) (reg : DeviceRegistry.t)
    : DeviceRegistry.t :=
  fold_left (λ reg u, (update u.1 u.2 reg).2) us reg.

(** Revocation is sticky and authorised: from an empty registry, whatever updates follow,
    (1) a pair once revoked stays revoked, (2) the device is never again linked to that
    member, and (3) a pair is revoked only if some update carried a revocation signed by
    that very member. *)
Theorem revocation_sticky_and_authorised `{!LinkVerifier}
    (us1 us2 : list (list SignedDeviceLink.t * list SignedRevocation.t)) (m d : string) :
  let reg1 := run_updates us1 DeviceRegistry.new in
  let reg2 := run_updates us2 reg1 in
  ((m, d) ∈ revoked_f reg1 → (m, d) ∈ revoked_f reg2)
  ∧ ((m, d) ∈ revoked_f reg1 →
     ∀ l, links_f reg2 !! d = Some l → DeviceLink.member l ≠ m)
  ∧ ((m, d) ∈ revoked_f reg1 →
     ∃ u r, u ∈ us1 ∧ r ∈ u.2 ∧ valid_revocation r m d).
Proof.
  assert (∀ us reg, revoked_f reg ⊆ revoked_f (run_updates us reg)) as Hmono.
  { induction us as [|u us IH]; intros reg; simpl; [done|].
    etrans; [|apply IH]. apply update_revoked_sticky. }
  assert (∀ us reg, reg_ok reg → reg_ok (run_updates us reg)) as Hok.
  { induction us as [|u us IH]; intros reg Hreg; simpl; [done|].
    by apply IH, update_reg_ok. }
  assert (∀ us reg, (m, d) ∈ revoked_f (run_updates us reg) → (m, d) ∈ revoked_f reg ∨
    ∃ u r, u ∈ us ∧ r ∈ u.2 ∧ valid_revocation r m d) as Horigin.
  { induction us as [|u us IH]; intros reg; simpl; [by left|].
    intros [Hu|(u' & r & ? & ?)]%IH; [|right; exists u', r; set_solver].
    destruct (decide (fits u.1 u.2)) as [Hf|Hf].
    - apply update_revoked in Hu as [?|(r & ? & ?)]; [by left| |done].
      right. exists u, r. set_solver.
    - rewrite update_too_many in Hu by done. by left. }
  cbn zeta. split_and!.
  - apply Hmono.
  - intros Hr l Hl. apply Hok in Hl as (_ & _ & Hn); [|by apply Hok, new_reg_ok].
    intros <-. apply Hn. by apply Hmono.
  - intros [Hn|?]%Horigin; [|done]. exfalso. simpl in Hn. set_solver.
Qed.

Lemma revocation_sticky_and_authorised_witness :
  let s := ExampleVerifier.signed
    (ExampleVerifier.body ExampleVerifier.M1 ExampleVerifier.D1 ExampleVerifier.W1 "a") in
  let r := ExampleVerifier.revoke ExampleVerifier.M1 ExampleVerifier.D1 in
  (ExampleVerifier.M1, ExampleVerifier.D1) ∈
  revoked_f (run_updates (H:=ExampleVerifier.verifier) [([s], []); ([], [])]
    (run_updates (H:=ExampleVerifier.verifier) [([s], [r])] new)).
Proof.
  intros s r.
  apply (revocation_sticky_and_authorised (H:=ExampleVerifier.verifier)
    [([s], [r])] [([s], []); ([], [])] ExampleVerifier.M1 ExampleVerifier.D1).
  apply (bool_decide_eq_true_1 _). vm_compute. reflexivity.
Defined.

