(* ===== verification/EffectiveRoster.v ===== *)
(** * The effective roster (crates/cluster-core/src/device.rs, second half)

    [effective_roster]: the roster the admission gate runs on, members and their linked
    devices, with a member's comms identity dropped once it is on device keys; and
    [device_roster], the roster with each member's devices listed under it. *)

From S2P Require Import Prelude RustStr Admission Device Registry.
Import DeviceRegistry.
Local Open Scope N_scope.

(** ** The derivation *)

(** One roster entry: the highest role wins, the first of equals stays. *)
Definition insert_role (role_of : gmap string string) (e : string * string)
    : gmap string string :=
  let '(addr, role) := e in
  match canonical_address addr with
  | Some a =>
      let better :=
        match role_of !! a with
        | Some r => role_rank r <? role_rank role
        | None => true
        end in
      if better then <[a := role]> role_of else role_of
  | None => role_of
  end.

Definition role_of_roster (roster : list (string * string)) : gmap string string :=
  fold_left insert_role roster ∅.

(** One active link: the device joins with its member's role, unless its key is on the
    roster or its member does not pass the gate. *)
Definition add_device (role_of : gmap string string)
    (acc : list (string * string) * gset string) (l : DeviceLink.t)
    : list (string * string) * gset string :=
  let '(devices, on_device_keys) := acc in
  if decide (is_Some (role_of !! DeviceLink.device l)) then acc
  else
    match role_of !! DeviceLink.member l with
    | Some role =>
        if MIN_CLUSTER_RANK <=? role_rank role
        then (devices ++ [(DeviceLink.device l, role)], {[DeviceLink.member l]} ∪ on_device_keys)
        else acc
    | None => acc
    end.

Definition effective_roster (roster : list (string * string)) (registry : DeviceRegistry.t)
    : list (string * string) :=
  let role_of := role_of_roster roster in
  let on_device_keys : gset string := list_to_set (map fst (revocations registry)) in
  let '(devices, on_device_keys) :=
    fold_left (add_device role_of) (links registry) ([], on_device_keys) in
  let out := List.filter (λ e, negb (bool_decide (e.1 ∈ on_device_keys)))
                         (map_entries role_of) in
  stable_sort ord_le (out ++ devices).

Module DeviceView.

Record t := mk {
  device : string;
  index : N;
  label : string;
  issued_at : N;
}.

Definition of_link (l : DeviceLink.t) : t :=
  {| device := DeviceLink.device l; index := DeviceLink.index l;
     label := DeviceLink.label l; issued_at := DeviceLink.issued_at l |}.

End DeviceView.

Module MemberDevices.

Record t := mk {
  member : string;
  role : string;
  devices : list DeviceView.t;
}.

End MemberDevices.

Definition roster_entry (out : gmap string MemberDevices.t) (e : string * string)
    : gmap string MemberDevices.t :=
  let '(addr, role) := e in
  match canonical_address addr with
  | None => out
  | Some a =>
      if role_rank role <? MIN_CLUSTER_RANK then out
      else
        let entry := default {| MemberDevices.member := a; MemberDevices.role := role;
                                MemberDevices.devices := [] |} (out !! a) in
        <[a := if role_rank (MemberDevices.role entry) <? role_rank role
               then {| MemberDevices.member := MemberDevices.member entry;
                       MemberDevices.role := role;
                       MemberDevices.devices := MemberDevices.devices entry |}
               else entry]> out
  end.

Definition device_roster (roster : list (string * string)) (registry : DeviceRegistry.t)
    : list MemberDevices.t :=
  map (λ m, {| MemberDevices.member := MemberDevices.member m;
               MemberDevices.role := MemberDevices.role m;
               MemberDevices.devices :=
                 map DeviceView.of_link (devices_of (MemberDevices.member m) registry) |})
    (map_entries (fold_left roster_entry roster ∅)).*2.

(** ** The role map *)

(** [r] is a role the roster gives [a], and none it gives [a] ranks higher. *)
Definition best_role (roster : list (string * string)) (a r : string) : Prop :=
  (∃ addr, (addr, r) ∈ roster ∧ canonical_address addr = Some a)
  ∧ ∀ addr r', (addr, r') ∈ roster → canonical_address addr = Some a →
      role_rank r' <= role_rank r.

Definition on_roster (roster : list (string * string)) (a : string) : Prop :=
  ∃ addr r, (addr, r) ∈ roster ∧ canonical_address addr = Some a.

Lemma role_of_snoc roster e :
  role_of_roster (roster ++ [e]) = insert_role (role_of_roster roster) e.
Proof. unfold role_of_roster. by rewrite fold_left_app. Qed.

Lemma role_of_None roster a : role_of_roster roster !! a = None ↔ ¬ on_roster roster a.
Proof.
  unfold on_roster. induction roster as [|[addr r] roster IH] using rev_ind; [set_solver|].
  rewrite role_of_snoc. setoid_rewrite elem_of_app. setoid_rewrite list_elem_of_singleton.
  unfold insert_role. destruct (canonical_address addr) as [b|] eqn:E; [|naive_solver].
  destruct (decide (a = b)) as [->|Hne].
  - split; [|naive_solver]. case_match; [by rewrite lookup_insert_eq|].
    intros Hn. rewrite Hn in *. done.
  - assert ((if match role_of_roster roster !! b with
                | Some r' => role_rank r' <? role_rank r | None => true end
             then <[b:=r]> (role_of_roster roster) else role_of_roster roster) !! a
            = role_of_roster roster !! a) as -> by
      (repeat case_match; by rewrite ?lookup_insert_ne by done).
    rewrite IH. naive_solver.
Qed.

Lemma role_of_Some roster a r : role_of_roster roster !! a = Some r → best_role roster a r.
Proof.
  unfold best_role. revert r.
  induction roster as [|[addr r0] roster IH] using rev_ind; intros r; [done|].
  rewrite role_of_snoc. setoid_rewrite elem_of_app. setoid_rewrite list_elem_of_singleton.
  unfold insert_role. destruct (canonical_address addr) as [b|] eqn:E;
    [|intros [[]?]%IH; naive_solver].
  destruct (role_of_roster roster !! b) as [rb|] eqn:Eb.
  - destruct (N.ltb_spec (role_rank rb) (role_rank r0)).
    + destruct (decide (a = b)) as [->|].
      * rewrite lookup_insert_eq. intros [= ->]. apply IH in Eb as [_ Hb].
        split; [naive_solver|]. intros addr' r' [Hin|[= -> ->]] Hc; [|done].
        specialize (Hb _ _ Hin Hc). lia.
      * rewrite lookup_insert_ne by done. intros [? Hm]%IH. split; naive_solver.
    + intros Hr. pose proof (IH _ Hr) as [? Hm]. split; [naive_solver|].
      intros addr' r' [Hin|[= -> ->]] Hc; [eauto|]. simplify_eq. lia.
  - destruct (decide (a = b)) as [->|].
    + rewrite lookup_insert_eq. intros [= ->]. apply role_of_None in Eb.
      split; [naive_solver|]. intros addr' r' [Hin|[= -> ->]] Hc; [|done].
      destruct Eb. by exists addr', r'.
    + rewrite lookup_insert_ne by done. intros [? Hm]%IH. split; naive_solver.
Qed.

Lemma role_of_on_roster roster a :
  on_roster roster a ↔ is_Some (role_of_roster roster !! a).
Proof.
  destruct (role_of_roster roster !! a) as [r|] eqn:E.
  - split; [eauto|]. intros _. apply role_of_Some in E as [(addr & ? & ?) _].
    by exists addr, r.
  - apply role_of_None in E. split; [done|]. by intros [].
Qed.

Lemma best_role_allowed roster a r :
  best_role roster a r → (a ∈ allowed_set roster ↔ MIN_CLUSTER_RANK <= role_rank r).
Proof.
  intros [(addr & Hin & Hc) Hmax]. rewrite elem_of_allowed_set. split.
  - intros (addr' & r' & Hin' & Hr & Hc'). specialize (Hmax _ _ Hin' Hc'). lia.
  - intros Hr. by exists addr, r.
Qed.

Lemma role_of_allowed roster a :
  a ∈ allowed_set roster ↔
  ∃ r, role_of_roster roster !! a = Some r ∧ MIN_CLUSTER_RANK <= role_rank r.
Proof.
  destruct (role_of_roster roster !! a) as [r|] eqn:E.
  - rewrite (best_role_allowed _ _ r) by by apply role_of_Some. naive_solver.
  - split; [|naive_solver]. intros (addr & r & Hin & _ & Hc)%elem_of_allowed_set.
    apply role_of_None in E. destruct E. by exists addr, r.
Qed.

Lemma role_of_canonical roster a r :
  role_of_roster roster !! a = Some r → is_canonical a = true.
Proof. intros [(addr & _ & Hc) _]%role_of_Some. eauto with cluster. Qed.

(** ** The devices of the effective roster *)

(** A link whose device joins: its key is no roster member and its member is allowed. *)
Definition active_device (roster : list (string * string)) (l : DeviceLink.t) : Prop :=
  ¬ on_roster roster (DeviceLink.device l) ∧ DeviceLink.member l ∈ allowed_set roster.

Global Instance on_roster_dec roster a : Decision (on_roster roster a).
Proof. refine (cast_if (decide (is_Some (role_of_roster roster !! a))));
  by rewrite role_of_on_roster. Defined.
Global Instance active_device_dec roster l : Decision (active_device roster l).
Proof. unfold active_device. apply _. Defined.

Definition role_in (roster : list (string * string)) (l : DeviceLink.t) : string :=
  default "" (role_of_roster roster !! DeviceLink.member l).

Lemma add_device_eq roster ds on l :
  add_device (role_of_roster roster) (ds, on) l =
  if decide (active_device roster l)
  then (ds ++ [(DeviceLink.device l, role_in roster l)], {[DeviceLink.member l]} ∪ on)
  else (ds, on).
Proof.
  unfold add_device, active_device, role_in.
  destruct (decide (is_Some _)) as [Hs|Hs].
  - rewrite <-role_of_on_roster in Hs. rewrite decide_False by naive_solver. done.
  - rewrite <-role_of_on_roster in Hs.
    destruct (role_of_roster roster !! DeviceLink.member l) as [r|] eqn:E.
    + simpl. destruct (N.leb_spec MIN_CLUSTER_RANK (role_rank r)).
      * rewrite decide_True; [done|]. split; [done|]. apply role_of_allowed. eauto.
      * rewrite decide_False; [done|]. intros [_ (r' & Hr & ?)%role_of_allowed].
        rewrite E in Hr. simplify_eq. lia.
    + rewrite decide_False; [done|]. intros [_ (r' & Hr & ?)%role_of_allowed].
      by rewrite E in Hr.
Qed.

Lemma add_devices_eq roster ls ds on :
  fold_left (add_device (role_of_roster roster)) ls (ds, on) =
  (ds ++ map (λ l, (DeviceLink.device l, role_in roster l))
           (List.filter (λ l, bool_decide (active_device roster l)) ls),
   list_to_set (map DeviceLink.member
           (List.filter (λ l, bool_decide (active_device roster l)) ls)) ∪ on).
Proof.
  revert ds on. induction ls as [|l ls IH]; intros ds on.
  - simpl. f_equal; [by rewrite app_nil_r|set_solver].
  - cbn [fold_left List.filter]. rewrite add_device_eq. case_bool_decide as Ha.
    + rewrite decide_True, IH by done. simpl. f_equal; [|set_solver].
      by rewrite <-app_assoc.
    + by rewrite decide_False, IH by done.
Qed.

(** ** Membership in the effective roster *)

Section effective.
  Implicit Types (roster : list (string * string)) (reg : DeviceRegistry.t).

Lemma elem_of_links l reg :
  l ∈ links reg ↔ ∃ d, links_f reg !! d = Some l.
Proof.
  unfold links. rewrite list_elem_of_fmap. split.
  - intros ([d l'] & -> & Hl%elem_of_map_entries). by exists d.
  - intros (d & Hl). exists (d, l). by rewrite elem_of_map_entries.
Qed.

(** A member admitted through device keys only. *)
Definition on_device_keys roster reg (m : string) : Prop :=
  (∃ d, (m, d) ∈ revoked_f reg)
  ∨ ∃ l, l ∈ links reg ∧ DeviceLink.member l = m ∧ active_device roster l.

Lemma elem_of_effective a r roster reg :
  (a, r) ∈ effective_roster roster reg ↔
  (role_of_roster roster !! a = Some r ∧ ¬ on_device_keys roster reg a)
  ∨ ∃ l, l ∈ links reg ∧ active_device roster l
      ∧ a = DeviceLink.device l ∧ r = role_in roster l.
Proof.
  unfold effective_roster. rewrite add_devices_eq. cbn [app].
  rewrite elem_of_stable_sort, elem_of_app. f_equiv.
  - rewrite list_elem_of_In, filter_In, <-list_elem_of_In, elem_of_map_entries,
      negb_true_iff, bool_decide_eq_false. cbn [fst]. f_equiv. f_equiv.
    unfold on_device_keys. rewrite elem_of_union, !elem_of_list_to_set.
    rewrite (or_comm (∃ d, _)). f_equiv.
    + rewrite list_elem_of_fmap.
      setoid_rewrite list_elem_of_In at 1. setoid_rewrite filter_In.
      setoid_rewrite <-list_elem_of_In. setoid_rewrite bool_decide_eq_true. naive_solver.
    + unfold revocations. rewrite list_elem_of_fmap. split.
      * intros ([m d] & -> & Hm%elem_of_set_iter). by exists d.
      * intros (d & Hm). exists (a, d). by rewrite elem_of_set_iter.
  - rewrite list_elem_of_fmap.
    setoid_rewrite list_elem_of_In at 1. setoid_rewrite filter_In.
    setoid_rewrite <-list_elem_of_In. setoid_rewrite bool_decide_eq_true. naive_solver.
Qed.

Lemma role_in_allowed roster l :
  active_device roster l →
  role_of_roster roster !! DeviceLink.member l = Some (role_in roster l)
  ∧ MIN_CLUSTER_RANK <= role_rank (role_in roster l).
Proof.
  intros [_ (r & Hr & ?)%role_of_allowed]. unfold role_in. by rewrite Hr.
Qed.

(** Every address of the effective roster is canonical already. *)
Lemma effective_canonical a r roster reg :
  reg_ok reg → (a, r) ∈ effective_roster roster reg → is_canonical a = true.
Proof.
  intros Hreg [[Hr _]|(l & Hl & _ & -> & _)]%elem_of_effective.
  - by eapply role_of_canonical.
  - apply elem_of_links in Hl as [d Hl]. by apply Hreg in Hl as (_ & (_ & ? & _) & _).
Qed.

Lemma allowed_effective a roster reg :
  reg_ok reg →
  a ∈ allowed_set (effective_roster roster reg) ↔
  (a ∈ allowed_set roster ∧ ¬ on_device_keys roster reg a)
  ∨ ∃ l, links_f reg !! a = Some l ∧ active_device roster l.
Proof.
  intros Hreg. rewrite elem_of_allowed_set. split.
  - intros (addr & r & Hin & Hrank & Hc).
    rewrite canonical_address_id in Hc by by eapply effective_canonical. simplify_eq.
    apply elem_of_effective in Hin as [[Hr Hk]|(l & Hl & Ha & -> & ->)].
    + left. split; [|done]. apply role_of_allowed. eauto.
    + right. apply elem_of_links in Hl as [d Hl].
      pose proof Hl as (-> & _)%Hreg. eauto.
  - intros [[(r & Hr & ?)%role_of_allowed Hk]|(l & Hl & Ha)].
    + exists a, r. split_and!; [apply elem_of_effective; eauto|done|].
      apply canonical_address_id. by eapply role_of_canonical.
    + pose proof Hl as (Hd & (_ & Hc & _) & _)%Hreg.
      exists a, (role_in roster l). split_and!.
      * apply elem_of_effective. right. exists l. rewrite elem_of_links. eauto.
      * by apply role_in_allowed.
      * subst a. by apply canonical_address_id.
Qed.

Lemma run_updates_ok `{!LinkVerifier} us reg :
  reg_ok reg → reg_ok (run_updates us reg).
Proof.
  unfold run_updates. revert reg. induction us as [|u us IH]; intros reg Hreg; simpl; [done|].
  by apply IH, update_reg_ok.
Qed.

Lemma run_updates_sticky `{!LinkVerifier} us reg :
  revoked_f reg ⊆ revoked_f (run_updates us reg).
Proof.
  unfold run_updates. revert reg. induction us as [|u us IH]; intros reg; simpl; [done|].
  etrans; [apply (update_revoked_sticky u.1 u.2)|apply IH].
Qed.

(** Devices of distinct links have distinct keys. *)
Lemma NoDup_link_devices reg :
  reg_ok reg → NoDup (map DeviceLink.device (links reg)).
Proof.
  intros Hreg.
  replace (map DeviceLink.device (links reg)) with (map_entries (links_f reg)).*1;
    [apply NoDup_map_entries_keys|].
  unfold links. rewrite (list_fmap_compose snd) || rewrite map_map.
  apply list_fmap_ext. intros i [d l] Hl. simpl.
  apply list_elem_of_lookup_2, elem_of_map_entries in Hl. by apply Hreg in Hl as [-> _].
Qed.

Lemma NoDup_map_filter {A B} (f : A → B) (P : A → bool) l :
  NoDup (map f l) → NoDup (map f (List.filter P l)).
Proof.
  induction l as [|x l IH]; [done|]. cbn. intros [Hn Hd]%NoDup_cons.
  case_match; [|auto]. apply NoDup_cons. split; [|auto].
  intros (y & Hy & Hin)%list_elem_of_fmap. apply Hn, list_elem_of_fmap. exists y.
  split; [done|]. rewrite list_elem_of_In in Hin |- *. by apply filter_In in Hin as [? _].
Qed.

Lemma effective_keys_NoDup roster reg :
  reg_ok reg → NoDup (effective_roster roster reg).*1.
Proof.
  intros Hreg. unfold effective_roster. rewrite add_devices_eq. cbn [app].
  rewrite stable_sort_Permutation, fmap_app, NoDup_app. split_and!.
  - apply NoDup_map_filter. apply NoDup_map_entries_keys.
  - intros a Hm Hd. apply list_elem_of_fmap in Hm as ([a' r] & -> & Hm).
    apply list_elem_of_fmap in Hd as ([d r'] & Hd & Hin).
    apply list_elem_of_fmap in Hin as (l & [= -> ->] & Hin).
    apply list_elem_of_In, filter_In in Hm as [Hm%list_elem_of_In _].
    apply list_elem_of_In, filter_In in Hin as [_ Hact].
    apply bool_decide_eq_true in Hact as [Hnr _]. cbn in Hd. subst a'.
    apply elem_of_map_entries in Hm. apply Hnr, role_of_on_roster. eauto.
  - rewrite <-list_fmap_compose. apply (NoDup_map_filter DeviceLink.device).
    by apply NoDup_link_devices.
Qed.
End effective.

(** ** The roster of members and devices *)

Section device_roster.
  Implicit Types (roster : list (string * string)).

Definition entry_ok roster (a : string) (e : MemberDevices.t) : Prop :=
  MemberDevices.member e = a ∧ best_role roster a (MemberDevices.role e)
  ∧ MIN_CLUSTER_RANK <= role_rank (MemberDevices.role e).

Lemma best_role_snoc_other roster a r addr r0 :
  best_role roster a r →
  (canonical_address addr = Some a → role_rank r0 <= role_rank r) →
  best_role (roster ++ [(addr, r0)]) a r.
Proof.
  intros [Hex Hmax] Hle. split; [set_solver|].
  intros addr' r' [Hin|[= -> ->]%list_elem_of_singleton]%elem_of_app Hc; eauto.
Qed.

(** An address the roster gives a passing role to has a best role that passes. *)
Lemma not_allowed_low roster a addr r :
  a ∉ allowed_set roster → (addr, r) ∈ roster → canonical_address addr = Some a →
  role_rank r < MIN_CLUSTER_RANK.
Proof.
  intros Hn Hin Hc. apply N.lt_nge. intros Hr. apply Hn, elem_of_allowed_set. eauto.
Qed.

Lemma allowed_set_snoc roster addr r a :
  a ∈ allowed_set (roster ++ [(addr, r)]) ↔
  a ∈ allowed_set roster ∨ (MIN_CLUSTER_RANK <= role_rank r ∧ canonical_address addr = Some a).
Proof.
  rewrite !elem_of_allowed_set. setoid_rewrite elem_of_app.
  setoid_rewrite list_elem_of_singleton. naive_solver.
Qed.

Lemma roster_entries_spec roster a :
  match fold_left roster_entry roster ∅ !! a with
  | Some e => entry_ok roster a e
  | None => a ∉ allowed_set roster
  end.
Proof.
  induction roster as [|[addr r] roster IH] using rev_ind.
  { cbn [fold_left]. rewrite lookup_empty. apply not_elem_of_empty. }
  rewrite fold_left_app. cbn [fold_left roster_entry].
  set (out := fold_left roster_entry roster ∅) in *.
  destruct (canonical_address addr) as [b|] eqn:Ec; cbn.
  2: { destruct (out !! a) as [e|]; [|rewrite allowed_set_snoc; naive_solver].
       destruct IH as (? & ? & ?). split_and!; [done| |done].
       apply best_role_snoc_other; [done|congruence]. }
  destruct (N.ltb_spec (role_rank r) MIN_CLUSTER_RANK) as [Hlow|Hhigh].
  { destruct (out !! a) as [e|].
    - destruct IH as (? & ? & ?). split_and!; [done| |done].
      apply best_role_snoc_other; [done|lia].
    - rewrite allowed_set_snoc. intros [?|[? _]]; [done|lia]. }
  destruct (decide (a = b)) as [->|Hne].
  2: { rewrite lookup_insert_ne by done. destruct (out !! a) as [e|].
       - destruct IH as (? & ? & ?). split_and!; [done| |done].
         apply best_role_snoc_other; [done|congruence].
       - rewrite allowed_set_snoc. naive_solver. }
  rewrite lookup_insert_eq. unfold entry_ok. destruct (out !! b) as [e|]; simpl.
  - destruct IH as (Hm & Hb & Hr).
    destruct (N.ltb_spec (role_rank (MemberDevices.role e)) (role_rank r)); simpl.
    + split_and!; [done| |done]. destruct Hb as [_ Hmax]. split; [set_solver|].
      intros addr' r' [Hin|[= -> ->]%list_elem_of_singleton]%elem_of_app Hc; [|done].
      specialize (Hmax _ _ Hin Hc). lia.
    + split_and!; [done| |done]. by apply best_role_snoc_other.
  - rewrite N.ltb_irrefl. simpl. split_and!; [done| |done]. split; [set_solver|].
    intros addr' r' [Hin|[= -> ->]%list_elem_of_singleton]%elem_of_app Hc; [|done].
    apply (not_allowed_low _ _ _ _ IH Hin) in Hc. lia.
Qed.

Lemma set_iter_ext {K} `{Countable K, !Ord K} (X Y : gset K) :
  (∀ x, x ∈ X ↔ x ∈ Y) → set_iter X = set_iter Y.
Proof. intros HX. f_equal. by apply set_eq. Qed.

Lemma device_roster_members roster reg :
  map MemberDevices.member (device_roster roster reg) = set_iter (allowed_set roster).
Proof.
  unfold device_roster. rewrite map_map. simpl.
  set (out := fold_left roster_entry roster ∅).
  assert (∀ a, match out !! a with
    | Some e => entry_ok roster a e | None => a ∉ allowed_set roster end) as Hspec
    by apply roster_entries_spec.
  transitivity (map_entries out).*1.
  - rewrite map_map. apply list_fmap_ext. intros i [a e] Hi. simpl.
    apply list_elem_of_lookup_2, elem_of_map_entries in Hi.
    specialize (Hspec a). rewrite Hi in Hspec. by destruct Hspec as [? _].
  - rewrite map_entries_keys. apply set_iter_ext. intros a.
    rewrite elem_of_dom. specialize (Hspec a). destruct (out !! a) as [e|].
    + destruct Hspec as (_ & Hb & Hr). rewrite (best_role_allowed _ _ _ Hb). naive_solver.
    + split; [by intros []|done].
Qed.

Lemma device_roster_entry roster reg m :
  m ∈ device_roster roster reg →
  best_role roster (MemberDevices.member m) (MemberDevices.role m)
  ∧ MIN_CLUSTER_RANK <= role_rank (MemberDevices.role m)
  ∧ MemberDevices.devices m
    = map DeviceView.of_link (devices_of (MemberDevices.member m) reg).
Proof.
  unfold device_roster. intros (m' & -> & Hin)%list_elem_of_fmap. simpl.
  apply list_elem_of_fmap in Hin as ([a e] & -> & Hin). simpl.
  apply elem_of_map_entries in Hin. pose proof (roster_entries_spec roster a) as Hspec.
  rewrite Hin in Hspec. destruct Hspec as (-> & ? & ?). done.
Qed.

Lemma elem_of_devices_of m l reg :
  is_canonical m = true →
  l ∈ devices_of m reg ↔ l ∈ links reg ∧ DeviceLink.member l = m.
Proof.
  intros Hm. unfold devices_of. rewrite canonical_address_id by done.
  rewrite elem_of_stable_sort, list_elem_of_In, filter_In, <-list_elem_of_In.
  by rewrite bool_decide_eq_true.
Qed.

Lemma devices_of_sorted m reg : StronglySorted index_le (devices_of m reg).
Proof.
  unfold devices_of. destruct (canonical_address m); [|constructor].
  apply stable_sort_Sorted.
  - intros a b c. unfold index_le. apply (transitivity (R:=ord_le)).
  - intros a b. unfold index_le. apply (total ord_le).
Qed.

Lemma device_views_sorted ls :
  StronglySorted index_le ls →
  StronglySorted (λ v w, DeviceView.index v <= DeviceView.index w)
    (map DeviceView.of_link ls).
Proof.
  induction 1 as [|l ls Hs IH Hf]; simpl; constructor; [done|].
  apply Forall_map. eapply Forall_impl; [exact Hf|]. done.
Qed.
End device_roster.

(** ** Theorems *)

(** C14: The gate admits, after any registry updates, exactly: the allowed members that are not
    on device keys (have revoked no device and have no active device), and the devices with
    a link whose own key is not on the roster and whose member is allowed. *)
Theorem effective_allowed_exactly `{!LinkVerifier} (roster : list (string * string))
    (us : list (list SignedDeviceLink.t * list SignedRevocation.t)) (a : string) :
  let reg := run_updates us DeviceRegistry.new in
  a ∈ allowed_set (effective_roster roster reg) ↔
  (a ∈ allowed_set roster
   ∧ (∀ d, (a, d) ∉ revoked_f reg)
   ∧ (∀ d l, links_f reg !! d = Some l → DeviceLink.member l = a →
        on_roster roster (DeviceLink.device l)))
  ∨ ∃ l, links_f reg !! a = Some l
      ∧ DeviceLink.member l ∈ allowed_set roster ∧ ¬ on_roster roster a.
Proof.
  cbn zeta. set (reg := run_updates us DeviceRegistry.new).
  assert (reg_ok reg) as Hreg by apply run_updates_ok, new_reg_ok.
  rewrite allowed_effective by done. unfold on_device_keys, active_device. f_equiv.
  - split.
    + intros [Ha Hk]. split_and!; [done|naive_solver|]. intros d l Hl Hm.
      destruct (decide (on_roster roster (DeviceLink.device l))) as [?|Hn]; [done|].
      exfalso. apply Hk. right. exists l. rewrite elem_of_links. subst a. eauto.
    + intros (Ha & Hr & Hl). split; [done|].
      intros [[d ?]|(l & [d Hd]%elem_of_links & Hm & Hn & _)]; naive_solver.
  - f_equiv. intros l. split.
    + intros (Hl & Hn & Hm). pose proof Hl as (<- & _)%Hreg. done.
    + intros (Hl & Hm & Hn). pose proof Hl as (<- & _)%Hreg. done.
Qed.

(** C34: The effective roster is well formed: sorted, every address canonical and listed once
    (peer ids stay one-to-one), and with no link and no revocation the gate it feeds is
    the gate of the plain roster. *)
Theorem effective_roster_well_formed `{!LinkVerifier} (roster : list (string * string))
    (us : list (list SignedDeviceLink.t * list SignedRevocation.t)) :
  let eff := effective_roster roster (run_updates us DeviceRegistry.new) in
  StronglySorted ord_le eff ∧ NoDup eff.*1
  ∧ (∀ a r, (a, r) ∈ eff → is_canonical a = true)
  ∧ allowed_set (effective_roster roster DeviceRegistry.new) = allowed_set roster.
Proof.
  cbn zeta. assert (reg_ok (run_updates us DeviceRegistry.new)) as Hreg
    by apply run_updates_ok, new_reg_ok.
  split_and!.
  - unfold effective_roster. destruct (fold_left _ _ _). apply stable_sort_Sorted; apply _.
  - by apply effective_keys_NoDup.
  - intros a r. by apply effective_canonical.
  - apply set_eq. intros a. rewrite allowed_effective by apply new_reg_ok.
    unfold on_device_keys. setoid_rewrite elem_of_links. simpl.
    setoid_rewrite lookup_empty. set_solver.
Qed.

(** Once a member has revoked a device: whatever updates follow, and for every roster, the
    member's comms identity is not admitted while it is on the roster, and the device is
    admitted only if its key is itself on the roster or another member links it. *)
Theorem revoked_identities_stay_out `{!LinkVerifier} (roster : list (string * string))
    (us1 us2 : list (list SignedDeviceLink.t * list SignedRevocation.t)) (m d : string) :
  let reg1 := run_updates us1 DeviceRegistry.new in
  let allowed := allowed_set (effective_roster roster (run_updates us2 reg1)) in
  (m, d) ∈ revoked_f reg1 →
  (on_roster roster m → m ∉ allowed)
  ∧ (d ∈ allowed → on_roster roster d
     ∨ ∃ l, links_f (run_updates us2 reg1) !! d = Some l ∧ DeviceLink.member l ≠ m).
Proof.
  cbn zeta. intros Hr.
  set (reg1 := run_updates us1 DeviceRegistry.new) in *.
  assert (reg_ok (run_updates us2 reg1)) as Hreg by (do 2 apply run_updates_ok; apply new_reg_ok).
  pose proof (run_updates_sticky us2 reg1 _ Hr) as Hr2.
  rewrite !allowed_effective by done. unfold on_device_keys, active_device. split.
  - intros Hon [[_ Hk]|(l & Hl & Hn & _)]; [naive_solver|].
    by pose proof Hl as (<- & _)%Hreg.
  - intros [[(addr & r & ? & _ & ?)%elem_of_allowed_set _]|(l & Hl & _)].
    + left. by exists addr, r.
    + right. exists l. split; [done|]. intros <-. by apply Hreg in Hl as (_ & _ & []).
Qed.

Lemma revoked_identities_stay_out_witness :
  let s := ExampleVerifier.signed
    (ExampleVerifier.body ExampleVerifier.M1 ExampleVerifier.D1 ExampleVerifier.W1 "a") in
  let r := ExampleVerifier.revoke ExampleVerifier.M1 ExampleVerifier.D1 in
  let roster := [(ExampleVerifier.M1, "owner")] in
  let reg1 := run_updates (H:=ExampleVerifier.verifier) [([s], [r])] DeviceRegistry.new in
  ExampleVerifier.M1 ∉ allowed_set (effective_roster roster
    (run_updates (H:=ExampleVerifier.verifier) [([s], []); ([], [])] reg1)).
Proof.
  intros s r roster reg1.
  apply (revoked_identities_stay_out (H:=ExampleVerifier.verifier) roster
    [([s], [r])] [([s], []); ([], [])] ExampleVerifier.M1 ExampleVerifier.D1).
  - apply (bool_decide_eq_true_1 _). vm_compute. reflexivity.
  - exists ExampleVerifier.M1, "owner". split; [by left|vm_compute; reflexivity].
Defined.

(** A revocation binds the (member, device) pair, not the device key: in any registry where
    one member has revoked a device, a verified link of that very key to another allowed
    member admits it again. *)
Theorem revoked_key_relinked_by_other_member `{!LinkVerifier}
    (roster : list (string * string)) (reg : DeviceRegistry.t) (s : SignedDeviceLink.t)
    (c : DeviceLink.t) (m1 : string) :
  verify_link s = Ok tt → DeviceLink.canon (SignedDeviceLink.link s) = Some c →
  (m1, DeviceLink.device c) ∈ revoked_f reg →
  (DeviceLink.member c, DeviceLink.device c) ∉ revoked_f reg →
  DeviceLink.member c ∈ allowed_set roster → ¬ on_roster roster (DeviceLink.device c) →
  reg_ok reg →
  let reg' := (update [s] [] reg).2 in
  (m1, DeviceLink.device c) ∈ revoked_f reg'
  ∧ DeviceLink.device c ∈ allowed_set (effective_roster roster reg').
Proof.
  intros Hs Hc Hm1 Hm Hal Hon Hreg. cbn zeta.
  assert (fits [s] []) as Hf by (split; vm_compute; discriminate).
  split; [by apply update_revoked_sticky|].
  apply allowed_effective; [by apply update_reg_ok|]. right.
  assert (verified_link s = Some c) as Hv by (unfold verified_link; by rewrite Hs).
  assert (device_links [s] (DeviceLink.device c) = [c]) as Hd.
  { rewrite device_links_cons, Hv, bool_decide_eq_true_2; done. }
  exists c. split; [|done].
  rewrite update_links, Hd by done. unfold resolved.
  rewrite decide_False
    by (eapply one_member_size; by intros x ->%list_elem_of_singleton). simpl.
  rewrite decide_False; [done|]. intros Hr.
  apply update_revoked in Hr as [?|(r & ?%elem_of_nil & _)]; done.
Qed.

Lemma revoked_key_relinked_by_other_member_witness :
  let s := ExampleVerifier.signed
    (ExampleVerifier.body ExampleVerifier.M2 ExampleVerifier.D1 ExampleVerifier.W2 "b") in
  let reg := {| links_f := ∅;
                revoked_f := {[(ExampleVerifier.M1, ExampleVerifier.D1)]} |} in
  let roster := [(ExampleVerifier.M1, "member"); (ExampleVerifier.M2, "member")] in
  ExampleVerifier.D1 ∈ allowed_set (effective_roster roster
    (update (H:=ExampleVerifier.verifier) [s] [] reg).2).
Proof.
  intros s reg roster.
  apply (revoked_key_relinked_by_other_member (H:=ExampleVerifier.verifier) roster reg s
    (SignedDeviceLink.link s) ExampleVerifier.M1).
  - vm_compute. reflexivity.
  - vm_compute. reflexivity.
  - apply (bool_decide_eq_true_1 _). vm_compute. reflexivity.
  - apply (bool_decide_eq_false_1 _). vm_compute. reflexivity.
  - apply (bool_decide_eq_true_1 _). vm_compute. reflexivity.
  - apply (bool_decide_eq_false_1 _). vm_compute. reflexivity.
  - by intros d l.
Defined.

(** The member roster lists exactly the allowed addresses, each once, sorted, with the
    best role the roster gives it (which passes the gate), and under each exactly the
    devices linked to it, sorted by index. *)
Theorem device_roster_spec `{!LinkVerifier} (roster : list (string * string))
    (us : list (list SignedDeviceLink.t * list SignedRevocation.t)) :
  let reg := run_updates us DeviceRegistry.new in
  map MemberDevices.member (device_roster roster reg) = set_iter (allowed_set roster)
  ∧ ∀ m, m ∈ device_roster roster reg →
      best_role roster (MemberDevices.member m) (MemberDevices.role m)
      ∧ MIN_CLUSTER_RANK <= role_rank (MemberDevices.role m)
      ∧ StronglySorted (λ v w, DeviceView.index v <= DeviceView.index w)
          (MemberDevices.devices m)
      ∧ ∀ v, v ∈ MemberDevices.devices m ↔
          ∃ l, links_f reg !! DeviceView.device v = Some l
             ∧ DeviceLink.member l = MemberDevices.member m ∧ v = DeviceView.of_link l.
Proof.
  cbn zeta. set (reg := run_updates us DeviceRegistry.new).
  assert (reg_ok reg) as Hreg by apply run_updates_ok, new_reg_ok.
  split; [apply device_roster_members|].
  intros m Hm. pose proof Hm as (Hb & Hr & Hd)%device_roster_entry.
  split_and!; [done..| |].
  - rewrite Hd. apply device_views_sorted, devices_of_sorted.
  - intros v. rewrite Hd, list_elem_of_fmap. destruct Hb as [(addr & _ & Hc) _].
    setoid_rewrite elem_of_devices_of; [|by eapply canonical_address_canonical].
    setoid_rewrite elem_of_links. split.
    + intros (l & -> & [d Hl] & Hmem). pose proof Hl as (<- & _)%Hreg. by exists l.
    + intros (l & Hl & Hmem & ->). eauto 10.
Qed.
