(* ===== verification/Transport.v ===== *)
(** * The mesh transport seam (crates/cluster-daemon/src/transport.rs)

    The [MeshTransport] trait as a class over [ClusterTransport], what the daemon's theorems
    ask of a transport, and the in-process transport, which keeps both promises. *)

From S2P Require Import Prelude RustStr Admission Membership Session.

(** One received message: the sender's canonical address and the body. *)
Module MeshMessage.

Record t := mk {
  from : string;
  data : string;
}.

#[global] Instance message_eq : EqDecision t.
Proof. solve_decision. Defined.

End MeshMessage.

Class MeshTransport (T : Type) := {
  mesh_cluster :: ClusterTransport T;
  publish : string → string → T → T;
  drain : T → list MeshMessage.t * T;
  authorize : string → T → T;
  add_peers : list string → T → result N string * T;
  seed_addrs : T → result (list string) string;
}.

Definition NO_MESH : string :=
  "this node runs without the cross-machine mesh, so it has no address to share or dial".

(** ** What a transport promises

    [authorized t]: the addresses that may mesh. [env t t']: a step the transport takes on
    its own (the network delivers, connects, closes) while the daemon is not calling it.
    Only [dial] and [authorize] let an address in, [disconnect] takes it out, and the
    network never widens the set. *)

Class MeshView (T : Type) := {
  authorized : T → gset string;
  env : T → T → Prop;
}.

Class MeshTransportLaws (T : Type) `{!MeshTransport T, !MeshView T} : Prop := {
  authorized_dial p (t : T) :
    is_canonical p = true → authorized (dial p t) ⊆ {[p]} ∪ authorized t;
  authorized_authorize p (t : T) :
    is_canonical p = true → authorized (authorize p t) ⊆ {[p]} ∪ authorized t;
  authorized_disconnect p (t : T) :
    is_canonical p = true → authorized (disconnect p t) = authorized t ∖ {[p]};
  authorized_publish a b (t : T) : authorized (publish a b t) = authorized t;
  authorized_drain (t : T) : authorized (drain t).2 = authorized t;
  authorized_add_peers l (t : T) : authorized (add_peers l t).2 = authorized t;
  authorized_env (t t' : T) : env t t' → authorized t' = authorized t;
}.

(** A transport with a mesh: [authorize] really lets the address in. *)
Class MeshAuthorizes (T : Type) `{!MeshTransport T, !MeshView T} : Prop := {
  authorize_lets_in p (t : T) :
    is_canonical p = true → authorized (authorize p t) = {[p]} ∪ authorized t;
}.

(** ** The in-process transport *)

Module InProcessTransport.

Record t := mk {
  connected_f : gset string;
  inbox : list MeshMessage.t;
}.

Definition new : t := {| connected_f := ∅; inbox := [] |}.

Definition deliver (from data : string) (s : t) : t :=
  {| connected_f := connected_f s;
     inbox := inbox s ++ [{| MeshMessage.from := from; MeshMessage.data := data |}] |}.

#[global] Instance cluster : ClusterTransport t := {|
  dial peer s := {| connected_f := {[peer]} ∪ connected_f s; inbox := inbox s |};
  disconnect peer s := {| connected_f := connected_f s ∖ {[peer]}; inbox := inbox s |};
  connected s := set_iter (connected_f s);
|}.

#[global] Instance mesh : MeshTransport t := {|
  publish _ _ s := s;
  drain s := (inbox s, {| connected_f := connected_f s; inbox := [] |});
  authorize _ s := s;
  add_peers _ s := (Err NO_MESH, s);
  seed_addrs _ := Err NO_MESH;
|}.

(** Who may mesh is who is connected; the outside world only delivers messages. *)
#[global] Instance view : MeshView t := {|
  authorized := connected_f;
  env s s' := ∃ from data, s' = deliver from data s;
|}.

#[global] Instance laws : MeshTransportLaws t.
Proof.
  split; intros; simpl in *; try done.
  - set_solver.
  - by destruct H as (from & data & ->).
Qed.

End InProcessTransport.

(** ** A mesh for examples: a set of authorised addresses and a queue of arrivals *)

Module SetMesh.

Record t := mk {
  auth : gset string;
  online : gset string;
  inbox : list MeshMessage.t;
  sent : list string;
}.

Definition new : t := {| auth := ∅; online := ∅; inbox := []; sent := [] |}.

#[global] Instance cluster : ClusterTransport t := {|
  dial p s := {| auth := {[p]} ∪ auth s; online := online s; inbox := inbox s;
                 sent := sent s |};
  disconnect p s := {| auth := auth s ∖ {[p]}; online := online s ∖ {[p]};
                       inbox := inbox s; sent := sent s |};
  connected s := set_iter (online s);
|}.

#[global] Instance mesh : MeshTransport t := {|
  publish _ data s := {| auth := auth s; online := online s; inbox := inbox s;
                         sent := sent s ++ [data] |};
  drain s := (inbox s, {| auth := auth s; online := online s; inbox := [];
                          sent := sent s |});
  authorize p s := {| auth := {[p]} ∪ auth s; online := online s; inbox := inbox s;
                      sent := sent s |};
  add_peers l s := (Ok (N.of_nat (length l)), s);
  seed_addrs _ := Ok ["/ip4/10.0.0.7/tcp/4001/p2p/QmPeer"];
|}.

(** The network connects authorised addresses, drops connections and delivers. *)
#[global] Instance view : MeshView t := {|
  authorized := auth;
  env s s' := auth s' = auth s;
|}.

#[global] Instance laws : MeshTransportLaws t.
Proof. split; intros; simpl in *; done. Qed.

#[global] Instance authorizes : MeshAuthorizes t.
Proof. by split. Qed.

End SetMesh.

(** ** Theorems *)

(** The in-process transport behaves as a set of connections and a message queue: dialling
    adds exactly one connection, disconnecting removes exactly one, delivered messages are
    drained once, in order, and authorising or publishing changes nothing; it has no
    address to share and dials nobody. *)
Theorem in_process_transport_spec (t : InProcessTransport.t) (a x : string)
    (ms : list (string * string)) :
  (x ∈ connected (dial a t) ↔ x = a ∨ x ∈ connected t)
  ∧ (x ∈ connected (disconnect a t) ↔ x ∈ connected t ∧ x ≠ a)
  ∧ authorize a t = t ∧ publish a x t = t
  ∧ (let t' := fold_left (λ t m, InProcessTransport.deliver m.1 m.2 t) ms t in
     (drain t').1 = InProcessTransport.inbox t
                      ++ map (λ m, {| MeshMessage.from := m.1; MeshMessage.data := m.2 |}) ms
     ∧ (drain (drain t').2).1 = [])
  ∧ add_peers [a] t = (Err NO_MESH, t) ∧ seed_addrs t = Err NO_MESH.
Proof.
  split_and!; try done.
  - simpl. rewrite !elem_of_set_iter. set_solver.
  - simpl. rewrite !elem_of_set_iter. set_solver.
  - split; [|done]. cbn [drain InProcessTransport.mesh fst].
    revert t. induction ms as [|[f d] ms IH]; intros t; cbn [fold_left map].
    + by rewrite app_nil_r.
    + rewrite IH. simpl. by rewrite <-app_assoc.
Qed.
