(* ===== verification/DeviceWire.v ===== *)
(** * The daemon side of device identity (crates/cluster-daemon/src/devices.rs)

    [Eip191Verifier], the signature recovery the registry is given, the JSON wire records
    with their conversions, and the text of a rejection. The elliptic curve, Keccak and hex
    crates are parameters: the class [Crypto]. *)

From S2P Require Import Prelude RustStr Admission Device Registry EffectiveRoster.
Local Open Scope N_scope.

(** ** The crates [k256], [sha3] and [hex]; a byte string is a [string] *)

Class Crypto := {
  Signature : Type;
  RecoveryId : Type;
  VerifyingKey : Type;
  keccak256 : string → string;
  hex_encode : string → string;
  hex_decode : string → option string;
  sig_from_slice : string → option Signature;
  normalize_s : Signature → option Signature;
  recid_from_byte : N → option RecoveryId;
  recover_from_prehash : string → Signature → RecoveryId → option VerifyingKey;
  encoded_point_uncompressed : VerifyingKey → string;
}.

(** What the documentation of [sha3] and [hex] promises: a Keccak-256 digest is 32 bytes,
    and [hex::encode] writes two lowercase digits a byte. *)
Class CryptoLaws `{!Crypto} : Prop := {
  keccak256_length s : String.length (keccak256 s) = 32%nat;
  hex_encode_lower s : str_all lower_hex (hex_encode s) = true;
  hex_encode_length s : String.length (hex_encode s) = (2 * String.length s)%nat;
}.

(** [&b[..n]] and [&b[n..]], for [n] within the length. *)
Definition str_take (n : nat) (s : string) : string := String.substring 0 n s.
Definition str_drop (n : nat) (s : string) : string :=
  String.substring n (String.length s - n) s.

Section eip191.
  Context `{!Crypto}.

Definition eip191_prefix : string :=
  String "025" ("Ethereum Signed Message:" +:+ newline).

Definition eip191_digest (message : string) : string :=
  keccak256 (eip191_prefix +:+ pretty (str_len message) +:+ message).

Definition address_of (key : VerifyingKey) : string :=
  let point := encoded_point_uncompressed key in
  let digest := keccak256 (str_drop 1 point) in
  hex_encode (str_drop 12 digest).

(** The recovery byte [raw[64]]: 0/27 and 1/28 name the two candidates. *)
Definition recovery_byte (b : N) : option N :=
  if (b =? 0) || (b =? 27) then Some 0
  else if (b =? 1) || (b =? 28) then Some 1
  else None.

Definition eip191_recover (message sig_hex : string) : option string :=
  raw ← hex_decode (trim_start_0x (trim sig_hex));
  if negb (str_len raw =? 65) then None
  else
    sig ← sig_from_slice (str_take 64 raw);
    match normalize_s sig with
    | Some _ => None
    | None =>
        b ← String.get 64 raw;
        v ← recovery_byte (N_of_ascii b);
        recid ← recid_from_byte v;
        key ← recover_from_prehash (eip191_digest message) sig recid;
        Some (address_of key)
    end.

#[global] Instance Eip191Verifier : LinkVerifier := {| recover := eip191_recover |}.
End eip191.

(** ** The wire records *)

Module DeviceLinkWire.

Record t := mk {
  member : string;
  device : string;
  wallet : string;
  index : N;
  label : string;
  issued_at : N;
  member_sig : string;
  device_sig : string;
  wallet_sig : string;
}.

Definition into (w : t) : SignedDeviceLink.t :=
  {| SignedDeviceLink.link :=
       {| DeviceLink.member := member w; DeviceLink.device := device w;
          DeviceLink.wallet := wallet w; DeviceLink.index := index w;
          DeviceLink.label := label w; DeviceLink.issued_at := issued_at w |};
     SignedDeviceLink.member_sig := member_sig w;
     SignedDeviceLink.device_sig := device_sig w;
     SignedDeviceLink.wallet_sig := wallet_sig w |}.

End DeviceLinkWire.

Module RevocationWire.

Record t := mk {
  member : string;
  device : string;
  revoked_at : N;
  member_sig : string;
}.

Definition into (w : t) : SignedRevocation.t :=
  {| SignedRevocation.revocation :=
       {| DeviceRevocation.member := member w; DeviceRevocation.device := device w;
          DeviceRevocation.revoked_at := revoked_at w |};
     SignedRevocation.member_sig := member_sig w |}.

End RevocationWire.

Module DeviceViewWire.

Record t := mk {
  device : string;
  index : N;
  label : string;
  issued_at : N;
  online : bool;
}.

Definition from_core (connected : gset string) (d : DeviceView.t) : t :=
  {| device := DeviceView.device d; index := DeviceView.index d;
     label := DeviceView.label d; issued_at := DeviceView.issued_at d;
     online := bool_decide (DeviceView.device d ∈ connected) |}.

End DeviceViewWire.

Module MemberDevicesWire.

Record t := mk {
  member : string;
  role : string;
  online : bool;
  devices : list DeviceViewWire.t;
}.

Definition from_core (m : MemberDevices.t) (connected : gset string) : t :=
  {| online := bool_decide (MemberDevices.member m ∈ connected);
     devices := map (DeviceViewWire.from_core connected) (MemberDevices.devices m);
     member := MemberDevices.member m;
     role := MemberDevices.role m |}.

End MemberDevicesWire.

(** A short description of a rejected item for the client. *)
Definition describe_rejection (r : LinkRejection) : string :=
  match r with
  | Malformed device => device +:+ ": malformed link"
  | BadSignature device which =>
      device +:+ ": " +:+ which +:+ " signature does not verify"
  | Conflict device => device +:+ ": conflicting links"
  | Revoked device => device +:+ ": revoked"
  | BadRevocation device => device +:+ ": revocation signature does not verify"
  | TooMany => "too many links in one update"
  end.

(** ** Concrete crates, for examples

    A toy curve: a signature is 44 bytes of padding and the 20-byte key that made it, the
    "hash" keeps the last 20 bytes of its input, so a key's address is its hex spelling. *)

Module ExampleCrypto.

Definition hex_digit (n : N) : ascii :=
  ascii_of_N (if n <? 10 then 48 + n else 87 + n).

Fixpoint hex_enc (s : string) : string :=
  match s with
  | String c s' =>
      let n := N_of_ascii c in
      String (hex_digit (n / 16)) (String (hex_digit (n mod 16)) (hex_enc s'))
  | "" => ""
  end.

Definition hex_val (c : ascii) : option N :=
  let n := N_of_ascii c in
  if (48 <=? n) && (n <=? 57) then Some (n - 48)
  else if (97 <=? n) && (n <=? 102) then Some (n - 87)
  else if (65 <=? n) && (n <=? 70) then Some (n - 55)
  else None.

Fixpoint hex_dec (s : string) : option string :=
  match s with
  | "" => Some ""
  | String a (String b s') =>
      x ← hex_val a; y ← hex_val b; rest ← hex_dec s';
      Some (String (ascii_of_N (16 * x + y)) rest)
  | _ => None
  end.

Fixpoint pad (n : nat) : string :=
  match n with O => "" | S n => String "000" (pad n) end.

(** The last 32 bytes of the zero-padded input. *)
Definition toy_hash (s : string) : string :=
  let p := pad 32 +:+ s in String.substring (String.length p - 32) 32 p.

#[local] Instance crypto : Crypto := {|
  Signature := string;
  RecoveryId := N;
  VerifyingKey := string;
  keccak256 := toy_hash;
  hex_encode := hex_enc;
  hex_decode := hex_dec;
  sig_from_slice s := Some s;
  normalize_s _ := None;
  recid_from_byte n := Some n;
  recover_from_prehash _ sig _ := Some (str_drop 44 sig);
  encoded_point_uncompressed key := String "004" key;
|}.

(** The hex signature of the key spelled [addr]. *)
Definition sign (addr : string) : string := hex_enc (pad 44) +:+ addr +:+ "1b".

Lemma hex_enc_length s : String.length (hex_enc s) = (2 * String.length s)%nat.
Proof. induction s as [|c s IH]; [done|]. cbn [hex_enc String.length]. lia. Qed.

Lemma hex_digits_lower c :
  lower_hex (hex_digit (N_of_ascii c / 16))
  && lower_hex (hex_digit (N_of_ascii c mod 16)) = true.
Proof. revert c. apply byte_forall. vm_compute. reflexivity. Qed.

Lemma hex_enc_lower s : str_all lower_hex (hex_enc s) = true.
Proof.
  induction s as [|c s IH]; [done|]. cbn [hex_enc str_all]. rewrite IH, andb_true_r.
  apply hex_digits_lower.
Qed.

Lemma pad_app_length s : (32 <= String.length (pad 32 +:+ s))%nat.
Proof. rewrite length_str_app. simpl. lia. Qed.

Lemma substring_len n k s :
  (n + k <= String.length s)%nat → String.length (String.substring n k s) = k.
Proof.
  revert n k. induction s as [|c s IH]; intros [|n] [|k]; simpl; try lia; intros H.
  - rewrite IH; simpl; lia.
  - apply IH. lia.
  - apply IH. lia.
Qed.

#[local] Instance laws : CryptoLaws.
Proof.
  split.
  - intros s. apply substring_len. pose proof (pad_app_length s). lia.
  - apply hex_enc_lower.
  - apply hex_enc_length.
Qed.

End ExampleCrypto.

(** ** Theorems *)

(** Recovery answers only for a hex text (with or without [0x], padded or not) of exactly
    65 bytes whose first 64 are a low-s signature and whose last is 0, 1, 27 or 28, and the
    answer is the address of the key recovered over the EIP-191 digest of the message; the
    two spellings of the recovery byte give the same answer. *)
Theorem eip191_recover_spec `{!Crypto} (message sig_hex a : string) :
  recover message sig_hex = Some a ↔
  ∃ raw sig b v recid key,
    hex_decode (trim_start_0x (trim sig_hex)) = Some raw
    ∧ str_len raw = 65
    ∧ sig_from_slice (str_take 64 raw) = Some sig ∧ normalize_s sig = None
    ∧ String.get 64 raw = Some b
    ∧ ((N_of_ascii b = 0 ∨ N_of_ascii b = 27) ∧ v = 0
       ∨ (N_of_ascii b = 1 ∨ N_of_ascii b = 28) ∧ v = 1)
    ∧ recid_from_byte v = Some recid
    ∧ recover_from_prehash (eip191_digest message) sig recid = Some key
    ∧ a = address_of key.
Proof.
  assert (∀ n v, recovery_byte n = Some v ↔
    ((n = 0 ∨ n = 27) ∧ v = 0 ∨ (n = 1 ∨ n = 28) ∧ v = 1)) as Hv.
  { intros n v. unfold recovery_byte.
    destruct (N.eqb_spec n 0), (N.eqb_spec n 27), (N.eqb_spec n 1), (N.eqb_spec n 28);
      simpl; naive_solver lia. }
  setoid_rewrite <-Hv. cbn [recover Eip191Verifier]. unfold eip191_recover. split.
  - intros Hr.
    apply bind_Some in Hr as (raw & Hraw & Hr).
    destruct (N.eqb_spec (str_len raw) 65) as [Hlen|]; [|done]. cbn [negb] in Hr.
    apply bind_Some in Hr as (sig & Hsig & Hr).
    destruct (normalize_s sig) eqn:Hn; [done|].
    apply bind_Some in Hr as (b & Hb & Hr). apply bind_Some in Hr as (v & Hv' & Hr).
    apply bind_Some in Hr as (recid & Hrec & Hr). apply bind_Some in Hr as (key & Hkey & Hr).
    exists raw, sig, b, v, recid, key. split_and!; congruence.
  - intros (raw & sig & b & v & recid & key & Hraw & Hlen & Hsig & Hn & Hb & Hv' & Hrec
      & Hkey & ->).
    rewrite Hraw. simpl. rewrite Hlen. simpl. rewrite Hsig. simpl. rewrite Hn, Hb. simpl.
    rewrite Hv'. simpl. rewrite Hrec. simpl. by rewrite Hkey.
Qed.

Lemma address_of_canonical `{!Crypto, !CryptoLaws} key : is_canonical (address_of key) = true.
Proof.
  unfold address_of, is_canonical. rewrite hex_encode_lower, andb_true_r.
  apply N.eqb_eq. unfold str_len, str_drop.
  rewrite hex_encode_length, ExampleCrypto.substring_len;
    by rewrite keccak256_length.
Qed.

(** The addresses the verifier returns are canonical, so they compare with the addresses
    of a canonical link body. *)
Theorem eip191_recover_canonical `{!Crypto, !CryptoLaws} (message sig_hex a : string) :
  recover message sig_hex = Some a →
  is_canonical a = true ∧ canonical_address a = Some a.
Proof.
  intros (raw & sig & b & v & recid & key & _ & _ & _ & _ & _ & _ & _ & _ & ->)%eip191_recover_spec.
  pose proof (address_of_canonical key). split; eauto with cluster.
Qed.

Lemma eip191_recover_canonical_witness :
  is_canonical ExampleVerifier.M1 = true.
Proof.
  apply (eip191_recover_canonical (H:=ExampleCrypto.crypto) (H0:=ExampleCrypto.laws) "any text"
    (ExampleCrypto.sign ExampleVerifier.M1) ExampleVerifier.M1).
  vm_compute. reflexivity.
Defined.
