(* ===== verification/Fixture.v ===== *)
(** * The soak fixture (crates/cluster-daemon/examples/devicelink_fixture.rs)

    The tool that mints a throwaway fleet: it draws keys, signs the device links and the
    revocations the daemon is later given, and writes them next to the device secrets. The
    signing half of the [k256] crate is the class [KeyPairs]; the daemon's verification is
    [DeviceWire]'s. *)

From S2P Require Import Prelude RustStr Admission Device Registry DeviceWire.
Import DeviceRegistry.
Local Open Scope N_scope.

Definition MAX_MEMBERS : N := 16.
Definition MAX_DEVICES_PER_MEMBER : N := 8.

(** ** [str::parse::<u32>] *)

Fixpoint u32_digits (acc : N) (s : string) : option N :=
  match s with
  | "" => Some acc
  | String c s =>
      if is_ascii_digit c then
        let acc := 10 * acc + (N_of_ascii c - 48) in
        if acc <? 2 ^ 32 then u32_digits acc s else None
      else None
  end.

(** An optional plus sign, then at least a digit. *)
Definition parse_u32 (s : string) : option N :=
  match s with
  | "" => None
  | String "+" "" => None
  | String "+" s => u32_digits 0 s
  | s => u32_digits 0 s
  end.

(** ** The signing half of [k256] *)

Class KeyPairs `{!Crypto} := {
  SigningKey : Type;
  key_from_slice : string → option SigningKey;
  key_to_bytes : SigningKey → string;
  verifying_key : SigningKey → VerifyingKey;
  sign_prehash_recoverable : SigningKey → string → result (Signature * N) string;
  sig_to_bytes : Signature → string;
}.

(** What a signature made with a key is, per the crate: 64 bytes in low-s form that parse back,
    and a recovery id with which the digest gives the key back; and [hex] reads what it
    writes. The recovery id says whether the point's x coordinate was reduced, which no input
    is known to reach; without that it is 0 or 1. *)
Class KeyLaws `{!Crypto, !KeyPairs} : Prop := {
  sign_parses k h s r : sign_prehash_recoverable k h = Ok (s, r) →
    String.length (sig_to_bytes s) = 64%nat ∧ sig_from_slice (sig_to_bytes s) = Some s;
  sign_low_s k h s r : sign_prehash_recoverable k h = Ok (s, r) → normalize_s s = None;
  sign_unreduced k h s r : sign_prehash_recoverable k h = Ok (s, r) → r = 0 ∨ r = 1;
  sign_recovers k h s r : sign_prehash_recoverable k h = Ok (s, r) →
    ∃ id, recid_from_byte r = Some id ∧ recover_from_prehash h s id = Some (verifying_key k);
  hex_round_trip s : hex_decode (hex_encode s) = Some s;
}.

Section fixture.
  Context `{!Crypto, !KeyPairs}.

(** ** Files *)

(** What the tool writes: JSON documents, by the wire shape the daemon reads them as, and the
    hex of a device's secret. *)
Record DeviceSummary := {
  summary_device : string;
  summary_label : string;
  seed_file : string;
}.

Record Fleet := {
  created_at : N;
  fleet_members : list (string * list DeviceSummary);
}.

Inductive Contents :=
| RosterJson (roster : list (string * string))
| LinksJson (links : list DeviceLinkWire.t)
| RevocationsJson (revocations : list RevocationWire.t)
| FleetJson (fleet : Fleet)
| SeedHex (seed : string).

Record OutFile := {
  file_name : string;
  contents : Contents;
  file_mode : N;
}.

(** The 32-byte reads that [/dev/urandom] will give, and the files written so far into the
    output directory. *)
Record St := mkSt {
  urandom : list string;
  written : list OutFile;
}.

(** A write that fails for a reason of the system's. *)
Context (write_error : string → option string).

(** ** The helpers *)

(** The loop of [fresh_key]: reads until 32 bytes are a key. *)
Fixpoint draw_key (reads : list string) : result SigningKey string * list string :=
  match reads with
  | [] => (Err "failed to fill whole buffer", [])
  | b :: reads =>
      match key_from_slice b with
      | Some k => (Ok k, reads)
      | None => draw_key reads
      end
  end.

Definition fresh_key : M St SigningKey := λ st,
  let '(r, reads) := draw_key (urandom st) in (r, mkSt reads (written st)).

Definition sign (k : SigningKey) (msg : string) : result string string :=
  let? (sig, recid) := sign_prehash_recoverable k (eip191_digest msg) in
  Ok ("0x" +:+ hex_encode (sig_to_bytes sig +:+ String (ascii_of_N (27 + recid)) "")).

(** [write]: [create_new] with the mode, then the body. *)
Definition write (name : string) (c : Contents) (m : N) : M St unit := λ st,
  if decide (name ∈ map file_name (written st)) then (Err "File exists (os error 17)", st)
  else
    match write_error name with
    | Some e => (Err e, st)
    | None =>
        (Ok tt, mkSt (urandom st)
                  (written st ++ [{| file_name := name; contents := c; file_mode := m |}]))
    end.

(** ** The fleet *)

Definition numbered (m d : N) : string := pretty m +:+ "-" +:+ pretty d.

(** The JSON of a link with its three signatures. *)
Definition wire_of (l : DeviceLink.t) (msig dsig wsig : string) : DeviceLinkWire.t :=
  DeviceLinkWire.mk (DeviceLink.member l) (DeviceLink.device l) (DeviceLink.wallet l)
    (DeviceLink.index l) (DeviceLink.label l) (DeviceLink.issued_at l) msig dsig wsig.

(** One device of a member: its key, its link signed by the three keys, its revocation signed
    by the member, and its two files. *)
Definition link_device (member wallet : SigningKey) (now m d : N)
    : M St (DeviceLinkWire.t * DeviceSummary) :=
  let member_addr := address_of (verifying_key member) in
  device ← fresh_key;
  let label := "member " +:+ pretty m +:+ " device " +:+ pretty d in
  link ← mlift (ok_or (DeviceLink.new member_addr (address_of (verifying_key device))
                         (address_of (verifying_key wallet)) (d - 1) label now)
                  "link body did not validate");
  let msg := DeviceLink.signing_message link in
  member_sig ← mlift (sign member msg);
  device_sig ← mlift (sign device msg);
  wallet_sig ← mlift (sign wallet msg);
  let wire := wire_of link member_sig device_sig wallet_sig in
  rev ← mlift (ok_or (DeviceRevocation.new member_addr (DeviceLink.device link)
                        ((now + 1) mod 2 ^ 64)) "revocation body did not validate");
  rev_sig ← mlift (sign member (DeviceRevocation.signing_message rev));
  let rev_wire :=
    RevocationWire.mk (DeviceRevocation.member rev) (DeviceRevocation.device rev)
      (DeviceRevocation.revoked_at rev) rev_sig in
  _ ← write ("revoke-" +:+ numbered m d +:+ ".json") (RevocationsJson [rev_wire]) 420;
  let seed := "device-" +:+ numbered m d +:+ ".seed" in
  _ ← write seed (SeedHex (hex_encode (key_to_bytes device))) 384;
  mret (wire, {| summary_device := DeviceLink.device link; summary_label := label;
                 seed_file := seed |}).

(** [1..=n]. *)
Definition upto (n : N) : list N := map N.of_nat (seq 1 (N.to_nat n)).

Definition link_member (now m n : N)
    : M St (string * list (DeviceLinkWire.t * DeviceSummary)) :=
  member ← fresh_key;
  wallet ← fresh_key;
  devices ← mapM (link_device member wallet now m) (upto n);
  mret (address_of (verifying_key member), devices).

Definition fleet_links (rows : list (string * list (DeviceLinkWire.t * DeviceSummary)))
    : list DeviceLinkWire.t := rows ≫= λ r, r.2.*1.

(** The loop over the members and the three closing files. *)
Definition mint (now : N) (counts : list N) : M St (list DeviceLinkWire.t * Fleet) :=
  rows ← mapM (λ '(m, n), link_member now m n)
           (imap (λ i n, (N.of_nat (S i), n)) counts);
  _ ← write "roster.json" (RosterJson (map (λ r, (r.1, "member")) rows)) 420;
  _ ← write "links.json" (LinksJson (fleet_links rows)) 420;
  let fleet := {| created_at := now; fleet_members := map (λ r, (r.1, r.2.*2)) rows |} in
  _ ← write "fleet.json" (FleetJson fleet) 420;
  mret (fleet_links rows, fleet).

Definition usage : string :=
  "usage: devicelink_fixture <out-dir> <devices-per-member> [<devices-per-member> ...]".

(** The counts the tool takes. *)
Definition counts_ok (counts : list N) : bool :=
  negb (bool_decide (counts = [])
        || existsb (λ c, (c =? 0) || (MAX_DEVICES_PER_MEMBER <? c)) counts
        || (MAX_MEMBERS <? N.of_nat (length counts))).

(** [main]: [exists] and [create_dir] are the system's answers for the directory, [now] the
    clock's. *)
Definition main (exists_dir : string → bool) (create_dir : string → result unit string)
    (now : result N string) (args : list string) : M St (list DeviceLinkWire.t * Fleet) :=
  match args with
  | [] => mfail usage
  | out :: args =>
      counts ← mlift (ok_or (mapM parse_u32 args) usage);
      if negb (counts_ok counts) then mfail "1 to 16 members, each with 1 to 8 devices"
      else if exists_dir out then mfail (out +:+ " exists; pick a new directory")
      else
        _ ← mlift (create_dir out);
        now ← mlift now;
        mint now counts
  end.

(** ** What the daemon makes of the files *)

(** A link or a revocation the daemon's verifier accepts. *)
Definition link_accepted (w : DeviceLinkWire.t) : Prop :=
  verify_link (DeviceLinkWire.into w) = Ok tt
  ∧ DeviceLink.canon (SignedDeviceLink.link (DeviceLinkWire.into w))
    = Some (SignedDeviceLink.link (DeviceLinkWire.into w)).

Definition revocation_accepted (w : RevocationWire.t) : Prop :=
  valid_revocation (RevocationWire.into w) (RevocationWire.member w) (RevocationWire.device w).

Definition file_ok (f : OutFile) : Prop :=
  match contents f with
  | SeedHex _ => file_mode f = 384
  | LinksJson ls => Forall link_accepted ls
  | RevocationsJson rs => Forall revocation_accepted rs
  | _ => True
  end.

Definition files_ok (st : St) : Prop := Forall file_ok (written st).

Section verified.
  Context `{!CryptoLaws, !KeyLaws}.

Lemma substring_prefix s t : String.substring 0 (String.length s) (s +:+ t) = s.
Proof. induction s as [|c s IH]; simpl; [by destruct t|by rewrite IH]. Qed.

Lemma get_after s c : String.get (String.length s) (s +:+ String c "") = Some c.
Proof. by induction s as [|c' s IH]. Qed.

(** What [sign] makes, the daemon's verifier reads as its key's address. *)
Lemma sign_verifies k msg sig :
  sign k msg = Ok sig → eip191_recover msg sig = Some (address_of (verifying_key k)).
Proof.
  unfold sign. destruct (sign_prehash_recoverable k _) as [[s r]|] eqn:E; [|done].
  intros [= <-]. destruct (sign_parses _ _ _ _ E) as [Hlen Hparse].
  pose proof (sign_low_s _ _ _ _ E) as Hlow.
  pose proof (sign_unreduced _ _ _ _ E) as Hr. destruct (sign_recovers _ _ _ _ E) as (id & Hid & Hrec).
  apply eip191_recover_spec.
  set (raw := sig_to_bytes s +:+ String (ascii_of_N (27 + r)) "").
  exists raw, s, (ascii_of_N (27 + r)), r, id, (verifying_key k).
  assert (str_all lower_hex (hex_encode raw) = true) as Hlo by apply hex_encode_lower.
  split_and!.
  - rewrite trim_graphic.
    + change (trim_start_0x ("0x" +:+ hex_encode raw)) with (trim_start_0x (hex_encode raw)).
      rewrite trim_start_0x_hex by by apply lower_hex_hexdigit. apply hex_round_trip.
    + rewrite str_all_app. apply andb_true_iff. split; [done|].
      eapply str_all_impl; [|exact Hlo]. intros c Hc. byte_solve.
  - unfold str_len, raw. by rewrite length_str_app, Hlen.
  - unfold str_take, raw. by rewrite <-Hlen, substring_prefix.
  - done.
  - unfold raw. rewrite <-Hlen. apply get_after.
  - destruct Hr as [-> | ->]; [left|right]; (split; [|done]); right; done.
  - done.
  - done.
  - done.
Qed.

Lemma address_canonical k : canonical_address (address_of k) = Some (address_of k).
Proof. apply canonical_address_id, address_of_canonical. Qed.

(** *** The pieces *)

Lemma fresh_key_ok : triple files_ok fresh_key (λ _, True).
Proof. intros st Hst. unfold fresh_key. by destruct (draw_key (urandom st)). Qed.

Lemma write_ok name c m :
  file_ok {| file_name := name; contents := c; file_mode := m |} →
  triple files_ok (write name c m) (λ _, True).
Proof.
  intros Hf st Hst. unfold write. case_decide; [done|].
  destruct (write_error name); [done|]. split; [|done].
  apply Forall_app. split; [exact Hst|]. by constructor.
Qed.

Lemma signed_link_accepted km kd kw i lb t l msig dsig wsig :
  DeviceLink.new (address_of (verifying_key km)) (address_of (verifying_key kd))
    (address_of (verifying_key kw)) i lb t = Some l →
  sign km (DeviceLink.signing_message l) = Ok msig →
  sign kd (DeviceLink.signing_message l) = Ok dsig →
  sign kw (DeviceLink.signing_message l) = Ok wsig →
  link_accepted (wire_of l msig dsig wsig).
Proof.
  intros (Hm & Hd & Hw & _ & _ & _ & Hok)%DeviceLink_new_Some
    Hms%sign_verifies Hds%sign_verifies Hws%sign_verifies.
  rewrite address_canonical in Hm, Hd, Hw. injection Hm as Hm. injection Hd as Hd.
  injection Hw as Hw.
  assert (DeviceLink.canon (SignedDeviceLink.link (DeviceLinkWire.into
    (wire_of l msig dsig wsig))) = Some l) as Hcanon
    by (simpl; destruct l; by apply link_ok_canon).
  split; [|rewrite Hcanon; by destruct l]. apply verify_link_Ok. exists l.
  split; [exact Hcanon|]. unfold signed_by_all. simpl. rewrite <-Hm, <-Hd, <-Hw.
  by rewrite Hms, Hds, Hws.
Qed.

Lemma signed_revocation_accepted km kd t rev sig :
  DeviceRevocation.new (address_of (verifying_key km)) (address_of (verifying_key kd)) t
    = Some rev →
  sign km (DeviceRevocation.signing_message rev) = Ok sig →
  revocation_accepted (RevocationWire.mk (DeviceRevocation.member rev)
    (DeviceRevocation.device rev) (DeviceRevocation.revoked_at rev) sig).
Proof.
  unfold DeviceRevocation.new. rewrite !address_canonical. intros [= <-] Hs%sign_verifies.
  exists {| DeviceRevocation.member := address_of (verifying_key km);
            DeviceRevocation.device := address_of (verifying_key kd);
            DeviceRevocation.revoked_at := t |}.
  unfold DeviceRevocation.new. simpl. by rewrite !address_canonical.
Qed.

Lemma link_device_ok member wallet now m d :
  triple files_ok (link_device member wallet now m d) (λ r, link_accepted r.1).
Proof.
  unfold link_device. eapply triple_bind; [apply fresh_key_ok|]. intros device _.
  eapply triple_bind; [apply triple_lift|]. intros link Hl.
  destruct (DeviceLink.new _ _ _ _ _ _) as [l|] eqn:Hnew; [|done]. injection Hl as ->.
  pose proof (DeviceLink_new_Some _ _ _ _ _ _ _ Hnew) as (_ & Hd & _).
  rewrite address_canonical in Hd. injection Hd as Hd.
  eapply triple_bind; [apply triple_lift|]. intros msig Hms.
  eapply triple_bind; [apply triple_lift|]. intros dsig Hds.
  eapply triple_bind; [apply triple_lift|]. intros wsig Hws.
  eapply triple_bind; [apply triple_lift|]. intros rev Hr.
  rewrite <-Hd in Hr. destruct (DeviceRevocation.new _ _ _) as [r|] eqn:Hrev; [|done].
  injection Hr as ->. eapply triple_bind; [apply triple_lift|]. intros rsig Hrs.
  eapply triple_bind; [apply write_ok; constructor; [|done]|intros _ _].
  { by eapply signed_revocation_accepted. }
  eapply triple_bind; [by apply write_ok|intros _ _]. apply triple_ret. simpl.
  by eapply signed_link_accepted.
Qed.

Lemma link_member_ok now m n :
  triple files_ok (link_member now m n)
    (λ r, Forall link_accepted r.2.*1 ∧ length r.2 = N.to_nat n).
Proof.
  unfold link_member. eapply triple_bind; [apply fresh_key_ok|]. intros member _.
  eapply triple_bind; [apply fresh_key_ok|]. intros wallet _.
  eapply triple_bind; [apply triple_mapM; intros d _; apply link_device_ok|].
  intros devices Hf. apply triple_ret. simpl. split.
  - rewrite Forall_fmap. apply Forall2_Forall_r with (1 := Hf). apply Forall_forall.
    intros d _ r Ha. exact Ha.
  - rewrite <-(Forall2_length _ _ _ Hf). unfold upto. by rewrite length_map, length_seq.
Qed.

Lemma fleet_links_ok rows (counts : list (N * N)) :
  Forall2 (λ c r, Forall link_accepted r.2.*1 ∧ length r.2 = N.to_nat c.2) counts rows →
  Forall link_accepted (fleet_links rows)
  ∧ length (fleet_links rows) = sum_list (map (λ c, N.to_nat c.2) counts).
Proof.
  induction 1 as [|c r counts rows [Ha Hl] _ [IHa IHl]]; simpl; [by split|].
  split; [by apply Forall_app|]. rewrite length_app, length_fmap, Hl. by f_equal.
Qed.

Lemma numbered_counts (f : nat → N) counts :
  map (λ c, N.to_nat c.2) (imap (λ i n, (f i, n)) counts) = map N.to_nat counts.
Proof.
  revert f. induction counts as [|c counts IH]; intros f; simpl; [done|].
  f_equal. apply (IH (λ i, f (S i))).
Qed.

Lemma mint_ok now counts :
  triple files_ok (mint now counts)
    (λ r, Forall link_accepted r.1 ∧ length r.1 = sum_list (map N.to_nat counts)).
Proof.
  unfold mint. eapply triple_bind.
  { apply triple_mapM with (Q := λ c r, Forall link_accepted r.2.*1
      ∧ length r.2 = N.to_nat c.2). intros [m n] _. apply link_member_ok. }
  intros rows Hrows. apply fleet_links_ok in Hrows as [Ha Hl].
  eapply triple_bind; [by apply write_ok|intros _ _].
  eapply triple_bind; [by apply write_ok|intros _ _].
  eapply triple_bind; [by apply write_ok|intros _ _].
  apply triple_ret. simpl. split; [done|].
  rewrite Hl. f_equal. apply numbered_counts.
Qed.

(** *** The fleet in the registry *)

(** A fleet that fits one update, over distinct devices: each is linked as the tool wrote. *)
Lemma accepted_fleet_linked ls w :
  N.of_nat (length ls) <= MAX_LINKS_PER_UPDATE → Forall link_accepted ls →
  NoDup (map DeviceLinkWire.device ls) → w ∈ ls →
  links_f (update (map DeviceLinkWire.into ls) [] DeviceRegistry.new).2
    !! DeviceLinkWire.device w
  = Some (SignedDeviceLink.link (DeviceLinkWire.into w)).
Proof.
  intros Hlen Hacc Hnd Hw. set (links := map DeviceLinkWire.into ls).
  assert (fits links []) as Hf.
  { split; simpl; [|done]. subst links. by rewrite length_map. }
  assert (∀ l, l ∈ device_links links (DeviceLinkWire.device w) →
    l = SignedDeviceLink.link (DeviceLinkWire.into w)) as Honly.
  { intros l [Hd (s & Hs & Hv)]%elem_of_device_links.
    apply list_elem_of_fmap in Hs as (w' & -> & Hw').
    apply verified_link_Some in Hv as [Hc _]. rewrite Forall_forall in Hacc.
    rewrite (proj2 (Hacc w' Hw')) in Hc. injection Hc as <-. simpl in Hd.
    destruct (list_elem_of_lookup_1 _ _ Hw) as [i Hi].
    destruct (list_elem_of_lookup_1 _ _ Hw') as [j Hj].
    assert (j = i) as ->; [|assert (w' = w) as -> by congruence; done].
    eapply NoDup_lookup; [exact Hnd|rewrite list_lookup_fmap, Hj; simpl; by rewrite Hd|].
    by rewrite list_lookup_fmap, Hi. }
  assert (SignedDeviceLink.link (DeviceLinkWire.into w)
    ∈ device_links links (DeviceLinkWire.device w)) as Hin.
  { apply elem_of_device_links. split; [done|]. exists (DeviceLinkWire.into w).
    rewrite Forall_forall in Hacc. destruct (Hacc w Hw) as [Hv Hc].
    split; [|unfold verified_link; by rewrite Hv].
    apply list_elem_of_fmap. by exists w. }
  rewrite update_links by done.
  destruct (resolved_complete (revoked_f (update links [] DeviceRegistry.new).2)
    (device_links links (DeviceLinkWire.device w)) (DeviceLinkWire.member w)) as [l Hl].
  - intros Hn. rewrite Hn in Hin. set_solver.
  - by intros l ->%Honly.
  - intros l _. rewrite update_revoked by done. simpl. set_solver.
  - rewrite Hl. f_equal. apply Honly. by apply resolved_Some in Hl as [? _].
Qed.

(** C31: The fixture signs what the daemon verifies. Whatever its arguments, the directory and
    the clock, and also when it fails half-way, each link and each revocation it has written
    is one the daemon accepts, and the files with a secret are the owner's alone. When it
    succeeds, there is one link per device asked for; a daemon given them in one update links
    every device to its member when they are at most 64, and refuses them all as too many
    otherwise. *)
Theorem fixture_signs_what_the_daemon_verifies exists_dir create_dir now args reads r st :
  main exists_dir create_dir now args (mkSt reads []) = (r, st) →
  files_ok st
  ∧ ∀ ls fleet, r = Ok (ls, fleet) →
      ∃ out counts, args = out :: counts ∧ Forall link_accepted ls
        ∧ (∃ ns, mapM parse_u32 counts = Some ns ∧ counts_ok ns = true
             ∧ length ls = sum_list (map N.to_nat ns))
        ∧ let links := map DeviceLinkWire.into ls in
          if decide (N.of_nat (length ls) <= MAX_LINKS_PER_UPDATE) then
            NoDup (map DeviceLinkWire.device ls) → ∀ w, w ∈ ls →
            links_f (update links [] DeviceRegistry.new).2 !! DeviceLinkWire.device w
            = Some (SignedDeviceLink.link (DeviceLinkWire.into w))
          else ∀ reg, update links [] reg = ([TooMany], reg).
Proof.
  assert (triple files_ok (main exists_dir create_dir now args) (λ r,
    ∃ out counts, args = out :: counts ∧ Forall link_accepted r.1
      ∧ ∃ ns, mapM parse_u32 counts = Some ns ∧ counts_ok ns = true
        ∧ length r.1 = sum_list (map N.to_nat ns))) as Ht.
  { unfold main. destruct args as [|out counts]; [apply triple_fail|].
    eapply triple_bind; [apply triple_lift|]. intros ns Hns.
    destruct (mapM parse_u32 counts) as [ns'|] eqn:Hp; [|done]. injection Hns as ->.
    destruct (counts_ok ns) eqn:Hc; simpl; [|apply triple_fail].
    destruct (exists_dir out); [apply triple_fail|].
    eapply triple_bind; [apply triple_lift|intros _ _].
    eapply triple_bind; [apply triple_lift|intros t _].
    eapply triple_conseq; [apply mint_ok|]. intros [ls fleet] [Ha Hl]. simpl in *.
    exists out, counts. split_and!; [done..|]. by exists ns. }
  intros Hrun. destruct (Ht (mkSt reads [])) as [Hok Hres]; [constructor|].
  rewrite Hrun in Hok, Hres. split; [exact Hok|]. intros ls fleet ->.
  destruct (Hres _ eq_refl) as (out & counts & -> & Ha & Hns). simpl in Ha, Hns.
  exists out, counts. split_and!; [done..|]. cbv zeta. case_decide as Hlen.
  - intros Hnd w. by apply accepted_fleet_linked.
  - intros reg. apply update_too_many. intros [Hl _]. by rewrite length_map in Hl.
Qed.

End verified.

End fixture.

(** ** A concrete curve *)

Module ExampleFixture.

#[local] Instance crypto : Crypto := ExampleCrypto.crypto.
#[local] Instance crypto_laws : CryptoLaws := ExampleCrypto.laws.

(** A toy key is the last 20 of its 32 bytes, and signs by being the signature's tail. *)
#[local] Instance keys : KeyPairs := {|
  SigningKey := string;
  key_from_slice b := if str_len b =? 32 then Some (str_drop 12 b) else None;
  key_to_bytes k := k;
  verifying_key k := k;
  sign_prehash_recoverable k _ :=
    if decide (String.length k = 20%nat) then Ok (ExampleCrypto.pad 44 +:+ k, 0)
    else Err "bad key";
  sig_to_bytes s := s;
|}.

Lemma hex_digits_read c :
  match ExampleCrypto.hex_val (ExampleCrypto.hex_digit (N_of_ascii c / 16)),
        ExampleCrypto.hex_val (ExampleCrypto.hex_digit (N_of_ascii c mod 16)) with
  | Some x, Some y => bool_decide (ascii_of_N (16 * x + y) = c)
  | _, _ => false
  end = true.
Proof. revert c. apply byte_forall. vm_compute. reflexivity. Qed.

Lemma hex_dec_enc s : ExampleCrypto.hex_dec (ExampleCrypto.hex_enc s) = Some s.
Proof.
  induction s as [|c s IH]; [done|].
  cbn [ExampleCrypto.hex_enc ExampleCrypto.hex_dec]. pose proof (hex_digits_read c) as Hc.
  destruct (ExampleCrypto.hex_val _) as [x|]; [|done].
  destruct (ExampleCrypto.hex_val _) as [y|]; [|done].
  apply bool_decide_eq_true in Hc. simpl. rewrite IH. simpl. by rewrite Hc.
Qed.

Lemma drop_pad k : String.length k = 20%nat → str_drop 44 (ExampleCrypto.pad 44 +:+ k) = k.
Proof.
  intros Hk. unfold str_drop. rewrite length_str_app, Hk. simpl.
  rewrite <-Hk, <-(str_app_nil_r (_ +:+ k)). apply (substring_prefix k "").
Qed.

#[local] Instance laws : KeyLaws.
Proof.
  split; try (intros k h s r; simpl; case_decide as Hk; [intros [= <- <-]|done]).
  - split; [by rewrite length_str_app, Hk|done].
  - done.
  - by left.
  - exists 0. split; [done|]. by rewrite drop_pad.
  - apply hex_dec_enc.
Qed.

(** Reads that are distinct keys, and one that is too short to be a key. *)
Definition key (c : ascii) : string :=
  ExampleCrypto.pad 12 +:+ String.concat "" (replicate 20 (String c "")).
Definition reads : list string :=
  [key "a"; "short"; key "b"; key "c"; key "d"; key "e"; key "f"; key "g"].

(** Two members, with two devices and one. *)
Definition run := main (λ _, None) (λ _, false) (λ _, Ok tt) (Ok 1700000000)
  ["fleet"; "2"; "+1"] (mkSt reads []).

Definition fleet : list DeviceLinkWire.t :=
  match run.1 with Ok (ls, _) => ls | Err _ => [] end.

Lemma fleet_devices :
  map DeviceLinkWire.device fleet
  = ["6363636363636363636363636363636363636363"; "6464646464646464646464646464646464646464";
     "6767676767676767676767676767676767676767"].
Proof. vm_compute. reflexivity. Qed.

End ExampleFixture.

Lemma fixture_signs_what_the_daemon_verifies_witness :
  Forall (λ w, DeviceRegistry.links_f (DeviceRegistry.update
      (H:=Eip191Verifier (H:=ExampleCrypto.crypto))
      (map DeviceLinkWire.into ExampleFixture.fleet) [] DeviceRegistry.new).2
      !! DeviceLinkWire.device w
    = Some (SignedDeviceLink.link (DeviceLinkWire.into w))) ExampleFixture.fleet.
Proof.
  destruct (ExampleFixture.run) as [[[ls fl]|e] st] eqn:E;
    [|vm_compute in E; discriminate E].
  assert (ExampleFixture.fleet = ls) as Hfl by (unfold ExampleFixture.fleet; by rewrite E).
  destruct (fixture_signs_what_the_daemon_verifies (H:=ExampleCrypto.crypto)
    (H0:=ExampleFixture.keys) (H1:=ExampleCrypto.laws) (H2:=ExampleFixture.laws)
    (λ _, None) (λ _, false) (λ _, Ok tt) (Ok 1700000000) ["fleet"; "2"; "+1"]
    ExampleFixture.reads (Ok (ls, fl)) st E) as [_ Hrun].
  destruct (Hrun ls fl eq_refl) as (out & counts & _ & _ & _ & Hlinks).
  rewrite <-Hfl in Hlinks. cbv zeta in Hlinks. rewrite decide_True in Hlinks.
  - apply Forall_forall, Hlinks. rewrite ExampleFixture.fleet_devices.
    apply (bool_decide_eq_true_1 _). vm_compute. reflexivity.
  - apply (bool_decide_eq_true_1 _). vm_compute. reflexivity.
Defined.
