(* ===== verification/Daemon.v ===== *)
(** * The daemon (crates/cluster-daemon/src/lib.rs)

    [ClusterDaemon]: one session, one shared set and one device registry per group, and
    every operation the IPC maps onto it. A [&mut self] method that can fail is a
    computation in the state-and-error monad [M] over the daemon. *)

From S2P Require Import Prelude RustStr Admission Membership Session Seed Device Registry.
From S2P Require Import EffectiveRoster Transport DeviceWire.
Local Open Scope N_scope.

Definition MAX_SHARED_FILES : N := 4096.
Definition MAX_SHARED_FILES_PAGE : N := 1024.
Definition MAX_GROUPS : N := 32.

(** The text [{:?}] prints of a string: part of the error messages only. *)
Class StrDebug := str_debug : string → string.

Module GroupDevices.

Record t := mk {
  roster : list (string * string);
  registry : DeviceRegistry.t;
}.

Definition default : t := {| roster := []; registry := DeviceRegistry.new |}.

End GroupDevices.

Module PeerView.

Record t := mk {
  address : string;
  online : bool;
  member : option string;
}.

End PeerView.

Module ClusterDaemon.

Record t (T : Type) := mk {
  self_address : string;
  make_transport : string → result T string;
  single_group : option string;
  groups_f : gmap string (ClusterSession.t T);
  shared_files : gmap string (gset string);
  device_state : gmap string GroupDevices.t;
}.
Global Arguments mk {T}.
Global Arguments self_address {T} _.
Global Arguments make_transport {T} _ _.
Global Arguments single_group {T} _.
Global Arguments groups_f {T} _.
Global Arguments shared_files {T} _.
Global Arguments device_state {T} _.

Section daemon.
  Context {T : Type} `{!MeshTransport T, !Crypto, !StrDebug}.
  Implicit Types (d : t T) (s : ClusterSession.t T) (group : string).

(** *** Field updates *)

Definition set_groups (f : gmap string (ClusterSession.t T) → gmap string (ClusterSession.t T))
    (d : t T) : t T :=
  {| self_address := self_address d; make_transport := make_transport d;
     single_group := single_group d; groups_f := f (groups_f d);
     shared_files := shared_files d; device_state := device_state d |}.

Definition set_shared (f : gmap string (gset string) → gmap string (gset string))
    (d : t T) : t T :=
  {| self_address := self_address d; make_transport := make_transport d;
     single_group := single_group d; groups_f := groups_f d;
     shared_files := f (shared_files d); device_state := device_state d |}.

Definition set_devices (f : gmap string GroupDevices.t → gmap string GroupDevices.t)
    (d : t T) : t T :=
  {| self_address := self_address d; make_transport := make_transport d;
     single_group := single_group d; groups_f := groups_f d;
     shared_files := shared_files d; device_state := f (device_state d) |}.

(** Writing back a session a [get_mut] handed out. *)
Definition put_session (group : string) (s : ClusterSession.t T) : t T → t T :=
  set_groups <[group := s]>.

(** *** Construction *)

Definition with_factory (self_address : string) (make_transport : string → result T string)
    : t T :=
  {| self_address := default "" (canonical_address self_address);
     make_transport := make_transport; single_group := None;
     groups_f := ∅; shared_files := ∅; device_state := ∅ |}.

Definition new (self_address : string) (make_transport : unit → T) : t T :=
  with_factory self_address (λ _, Ok (make_transport tt)).

Definition pin (group : string) (d : t T) : t T :=
  {| self_address := self_address d; make_transport := make_transport d;
     single_group := Some group; groups_f := groups_f d;
     shared_files := shared_files d; device_state := device_state d |}.

Definition new_single_group (self_address : string) (make_transport : unit → T)
    (group : string) : t T :=
  pin group (new self_address make_transport).

Definition with_factory_single_group (self_address : string)
    (make_transport : string → result T string) (group : string) : t T :=
  pin group (with_factory self_address make_transport).

Definition groups (d : t T) : list string := stable_sort ord_le (map_entries (groups_f d)).*1.

(** *** Helpers *)

Definition ensure_group_allowed (group : string) (d : t T) : result unit string :=
  match single_group d with
  | Some g =>
      if negb (bool_decide (g = group)) then
        Err ("this daemon serves only group " +:+ str_debug g
             +:+ " (libp2p one-group-per-daemon, S1); refusing group " +:+ str_debug group)
      else Ok tt
  | None => Ok tt
  end.

Definition sync_admission (group : string) (d : t T) : t T :=
  match groups_f d !! group with
  | Some s => put_session group (ClusterSession.sync_admitted_from_wire s) d
  | None => d
  end.

(** One received co-pin into the bounded set. *)
Definition insert_shared (set : gset string) (m : MeshMessage.t) : gset string :=
  if N.of_nat (size set) <? MAX_SHARED_FILES then {[MeshMessage.data m]} ∪ set else set.

Definition drain_into_shared (group : string) (d : t T) : list MeshMessage.t * t T :=
  match groups_f d !! group with
  | None => ([], d)
  | Some s =>
      let '(drained, tr) := drain (ClusterSession.transport s) in
      let d := put_session group (ClusterSession.transport_mut (λ _, tr) s) d in
      let messages := List.filter (λ m, is_valid_cid (MeshMessage.data m)) drained in
      if bool_decide (messages = []) then (messages, d)
      else
        let set := default ∅ (shared_files d !! group) in
        (messages, set_shared <[group := fold_left insert_shared messages set]> d)
  end.

Definition ensure_session (group : string) : M (t T) (ClusterSession.t T) := λ d,
  match groups_f d !! group with
  | Some s => (Ok s, d)
  | None =>
      if str_is_empty (trim group) then (Err "empty group id", d)
      else if MAX_GROUPS <=? N.of_nat (size (groups_f d)) then
        (Err ("this daemon already serves " +:+ pretty MAX_GROUPS
              +:+ " groups; leave one first"), d)
      else
        match make_transport d group with
        | Err e => (Err ("starting the mesh for group " +:+ str_debug group +:+ ": " +:+ e), d)
        | Ok transport =>
            let s := ClusterSession.new [] transport in
            (Ok s, put_session group s d)
        end
  end.

(** *** Rosters *)

Definition apply_roster (group : string) (roster : list (string * string))
    : M (t T) (list string) :=
  session ← ensure_session group;
  let before : gset string :=
    list_to_set (ClusterMembership.allowed (ClusterSession.membership session)) in
  let '(evicted, session) := ClusterSession.reconcile roster session in
  let allowed := ClusterMembership.allowed (ClusterSession.membership session) in
  let after : gset string := list_to_set allowed in
  let removed := List.filter (λ a, negb (bool_decide (a ∈ after))) (set_iter before) in
  let session := fold_left (λ s a, ClusterSession.transport_mut (disconnect a) s)
                           removed session in
  let session := fold_left (λ s a, ClusterSession.transport_mut (authorize a) s)
                           allowed session in
  mmodify (put_session group session);;
  mret evicted.

Definition set_roster_with_devices (group : string) (roster : list (string * string))
    (links : list DeviceLinkWire.t) (revocations : list RevocationWire.t)
    : M (t T) (list string * list string) :=
  allowed ← mget (ensure_group_allowed group);
  _ ← mlift allowed;
  _ ← ensure_session group;
  state ← mget (λ d, default GroupDevices.default (device_state d !! group));
  let '(rejections, registry) :=
    DeviceRegistry.update (map DeviceLinkWire.into links) (map RevocationWire.into revocations)
      (GroupDevices.registry state) in
  let rejected := map describe_rejection rejections in
  _ ← mmodify (set_devices <[group := {| GroupDevices.roster := roster;
                                         GroupDevices.registry := registry |}]>);
  let effective := effective_roster roster registry in
  evicted ← apply_roster group effective;
  mret (evicted, rejected).

Definition set_roster (group : string) (roster : list (string * string))
    : M (t T) (list string) :=
  r ← set_roster_with_devices group roster [] [];
  mret r.1.

(** *** Joining, leaving, seeds *)

Definition join (group : string) : M (t T) unit :=
  allowed ← mget (ensure_group_allowed group);
  _ ← mlift allowed;
  _ ← ensure_session group;
  mret tt.

Definition seed (group : string) (d : t T) : result (string * list string) string :=
  match groups_f d !! group with
  | None => Err ("not in group " +:+ group)
  | Some s =>
      let? addrs := seed_addrs (ClusterSession.transport s) in
      if bool_decide (addrs = []) then
        Err "no shareable listen address yet; try again in a moment"
      else
        let? seed := map_err seed_error_display (GroupSeed.new group addrs) in
        Ok (GroupSeed.encode seed, addrs)
  end.

Definition add_seed (group seed_text : string) : M (t T) N :=
  seed ← mlift (map_err seed_error_display (GroupSeed.decode seed_text));
  if negb (bool_decide (GroupSeed.group seed = group))
  then mfail "the seed is for a different group"
  else λ d,
    match groups_f d !! group with
    | None => (Err ("not in group " +:+ group), d)
    | Some s =>
        let '(r, tr) := add_peers (GroupSeed.addrs seed) (ClusterSession.transport s) in
        (r, put_session group (ClusterSession.transport_mut (λ _, tr) s) d)
    end.

Definition leave (group : string) (d : t T) : t T :=
  set_shared (delete group) (set_groups (delete group) d).

(** *** Reads *)

Definition status (group : string) (d : t T) : (N * N * list string) * t T :=
  let d := sync_admission group d in
  let d := (drain_into_shared group d).2 in
  match groups_f d !! group with
  | Some s =>
      let shared := match shared_files d !! group with
                    | Some set => set_iter set
                    | None => []
                    end in
      ((N.of_nat (length (connected (ClusterSession.transport s))),
        N.of_nat (length (ClusterMembership.allowed (ClusterSession.membership s))),
        shared), d)
  | None => ((0, 0, []), d)
  end.

Definition peers (group : string) (d : t T) : list PeerView.t * t T :=
  let d := sync_admission group d in
  match groups_f d !! group with
  | None => ([], d)
  | Some s =>
      let registry := GroupDevices.registry <$> device_state d !! group in
      let conn : gset string := list_to_set (connected (ClusterSession.transport s)) in
      (map (λ address,
         {| PeerView.address := address;
            PeerView.online := bool_decide (address ∈ conn);
            PeerView.member := r ← registry; DeviceRegistry.member_of address r |})
         (ClusterMembership.allowed (ClusterSession.membership s)), d)
  end.

Definition devices (group : string) (d : t T) : list MemberDevicesWire.t * t T :=
  let d := sync_admission group d in
  match device_state d !! group with
  | None => ([], d)
  | Some state =>
      let conn : gset string :=
        match groups_f d !! group with
        | Some s => list_to_set (connected (ClusterSession.transport s))
        | None => ∅
        end in
      (map (λ m, MemberDevicesWire.from_core m conn)
         (device_roster (GroupDevices.roster state) (GroupDevices.registry state)), d)
  end.

(** *** The co-pinned files *)

Definition share_file (group cid : string) : M (t T) unit := λ d,
  match groups_f d !! group with
  | None => (Err ("not in group " +:+ group), d)
  | Some s =>
      if negb (is_valid_cid cid) then (Err "not a well-formed CID", d)
      else
        (* [entry(group).or_default()] records the empty set before the cap is checked *)
        let set := default ∅ (shared_files d !! group) in
        let d := set_shared <[group := set]> d in
        if negb (bool_decide (cid ∈ set)) && (MAX_SHARED_FILES <=? N.of_nat (size set)) then
          (Err ("shared file set for " +:+ group +:+ " is full ("
                +:+ pretty MAX_SHARED_FILES +:+ " CIDs)"), d)
        else
          let s := ClusterSession.transport_mut (publish (self_address d) cid) s in
          (Ok tt, set_shared <[group := {[cid]} ∪ set]> (put_session group s d))
  end.

Definition shared_files_page (group : string) (offset limit : N) (d : t T)
    : (list string * N) * t T :=
  let d := (drain_into_shared group d).2 in
  match shared_files d !! group with
  | None => (([], 0), d)
  | Some set =>
      ((take (N.to_nat (N.min limit MAX_SHARED_FILES_PAGE))
          (drop (N.to_nat offset) (set_iter set)),
        N.of_nat (size set)), d)
  end.

Definition poll (group : string) (d : t T) : list MeshMessage.t * t T :=
  drain_into_shared group (sync_admission group d).

(** *** The hooks a transport calls on connection events *)

Definition admit_peer (group address role : string) (d : t T) : bool * t T :=
  match ensure_group_allowed group d with
  | Err _ => (false, d)
  | Ok _ =>
      match ensure_session group d with
      | (Ok s, d) =>
          let '(admitted, s) := ClusterSession.join address role s in
          (admitted, put_session group s d)
      | (Err _, d) => (false, d)
      end
  end.

Definition drop_peer (group address : string) (d : t T) : t T :=
  match groups_f d !! group with
  | Some s => put_session group (ClusterSession.leave address s) d
  | None => d
  end.

End daemon.

End ClusterDaemon.
