(* ===== verification/Ipc.v ===== *)
(** * The loopback IPC (crates/cluster-daemon/src/ipc.rs)

    The requests and responses, and [handle_request], which maps one request onto the
    daemon. JSON (de)serialisation is serde's and is not modelled. *)

From S2P Require Import Prelude RustStr Transport DeviceWire Daemon.
Local Open Scope N_scope.

Inductive Request :=
| SetRoster (group : string) (roster : list (string * string))
    (devices : list DeviceLinkWire.t) (revocations : list RevocationWire.t)
| Devices (group : string)
| Join (group : string)
| Leave (group : string)
| Status (group : string)
| Peers (group : string)
| ShareFile (group cid : string)
| Poll (group : string)
| SharedFiles (group : string) (offset : N) (limit : option N)
| Seed (group : string)
| AddSeed (group seed : string).

Module Response.

Inductive t :=
| Ok
| Reconciled (evicted rejected : list string)
| Devices (members : list MemberDevicesWire.t)
| Status (online total : N) (shared_files : list string)
| Peers (peers : list PeerView.t)
| Messages (messages : list MeshMessage.t)
| SharedFiles (files : list string) (offset total : N)
| Seed (seed : string) (addrs : list string)
| Seeded (dialing : N)
| Error (message : string).

End Response.

Definition request_group (req : Request) : string :=
  match req with
  | SetRoster g _ _ _ | Devices g | Join g | Leave g | Status g | Peers g
  | ShareFile g _ | Poll g | SharedFiles g _ _ | Seed g | AddSeed g _ => g
  end.

Section handle.
  Context {T : Type} `{!MeshTransport T, !Crypto, !StrDebug}.
  Implicit Types d : ClusterDaemon.t T.

(** Running a fallible operation and turning its result into a response. *)
Definition respond {A} (m : M (ClusterDaemon.t T) A) (ok : A → Response.t) d
    : Response.t * ClusterDaemon.t T :=
  match m d with
  | (Ok a, d) => (ok a, d)
  | (Err e, d) => (Response.Error e, d)
  end.

Definition handle_request (req : Request) (d : ClusterDaemon.t T)
    : Response.t * ClusterDaemon.t T :=
  match req with
  | SetRoster group roster devices revocations =>
      respond (ClusterDaemon.set_roster_with_devices group roster devices revocations)
        (λ r, Response.Reconciled r.1 r.2) d
  | Devices group =>
      let '(members, d) := ClusterDaemon.devices group d in (Response.Devices members, d)
  | Join group => respond (ClusterDaemon.join group) (λ _, Response.Ok) d
  | Leave group => (Response.Ok, ClusterDaemon.leave group d)
  | Status group =>
      let '(online, total, shared_files, d) := ClusterDaemon.status group d in
      (Response.Status online total shared_files, d)
  | Peers group =>
      let '(peers, d) := ClusterDaemon.peers group d in (Response.Peers peers, d)
  | ShareFile group cid => respond (ClusterDaemon.share_file group cid) (λ _, Response.Ok) d
  | Poll group =>
      let '(messages, d) := ClusterDaemon.poll group d in (Response.Messages messages, d)
  | SharedFiles group offset limit =>
      let '(files, total, d) :=
        ClusterDaemon.shared_files_page group offset (default MAX_SHARED_FILES_PAGE limit) d in
      (Response.SharedFiles files offset total, d)
  | Seed group =>
      (match ClusterDaemon.seed group d with
       | Ok (seed, addrs) => Response.Seed seed addrs
       | Err e => Response.Error e
       end, d)
  | AddSeed group seed => respond (ClusterDaemon.add_seed group seed) Response.Seeded d
  end.

(** ** Everything that can happen to a daemon *)

(** One step: a request, a connection event the transport reports, the network acting on
    one group's transport, or a change of what the transport factory will answer. *)
Inductive event :=
| EvRequest (req : Request)
| EvAdmit (group address role : string)
| EvDrop (group address : string)
| EvNetwork (group : string) (f : T → T)
| EvFactory (make_transport : string → result T string).

Definition set_factory (mk : string → result T string) d : ClusterDaemon.t T :=
  {| ClusterDaemon.self_address := ClusterDaemon.self_address d;
     ClusterDaemon.make_transport := mk;
     ClusterDaemon.single_group := ClusterDaemon.single_group d;
     ClusterDaemon.groups_f := ClusterDaemon.groups_f d;
     ClusterDaemon.shared_files := ClusterDaemon.shared_files d;
     ClusterDaemon.device_state := ClusterDaemon.device_state d |}.

Definition run_event (e : event) d : ClusterDaemon.t T :=
  match e with
  | EvRequest req => (handle_request req d).2
  | EvAdmit group address role => (ClusterDaemon.admit_peer group address role d).2
  | EvDrop group address => ClusterDaemon.drop_peer group address d
  | EvNetwork group f =>
      ClusterDaemon.set_groups (alter (Session.ClusterSession.transport_mut f) group) d
  | EvFactory mk => set_factory mk d
  end.

Definition event_group (e : event) : option string :=
  match e with
  | EvRequest req => Some (request_group req)
  | EvAdmit group _ _ | EvDrop group _ | EvNetwork group _ => Some group
  | EvFactory _ => None
  end.

Context `{!MeshView T}.

(** The network moves by [env], and a new transport authorises nobody. *)
Definition event_ok (e : event) : Prop :=
  match e with
  | EvNetwork _ f => ∀ t, env t (f t)
  | EvFactory mk => ∀ g t, mk g = Ok t → authorized t = ∅
  | _ => True
  end.

End handle.
Global Arguments event : clear implicits.
