(* ===== verification/DaemonInv.v ===== *)
(** * The daemon's invariant

    Lemmas on each operation of [ClusterDaemon]: it touches one group only, and it keeps the
    invariant. Proved against the class [MeshTransportLaws], for every transport. *)

From S2P Require Import Prelude RustStr Admission Membership Session Seed Device Registry.
From S2P Require Import EffectiveRoster Transport DeviceWire Daemon Ipc.
Import ClusterMembership ClusterDaemon.
Local Open Scope N_scope.

(** ** One group at a time *)

Section frame.
  Context {T : Type} `{!MeshTransport T, !Crypto, !StrDebug}.
  Implicit Types d : ClusterDaemon.t T.

(** Nothing but [group]'s session, shared set and device state changed. *)
Record frame (group : string) (d d' : ClusterDaemon.t T) : Prop := {
  frame_self : self_address d' = self_address d;
  frame_factory : make_transport d' = make_transport d;
  frame_single : single_group d' = single_group d;
  frame_groups g : g ≠ group → groups_f d' !! g = groups_f d !! g;
  frame_shared g : g ≠ group → shared_files d' !! g = shared_files d !! g;
  frame_devices g : g ≠ group → device_state d' !! g = device_state d !! g;
}.

Global Instance frame_refl group : Reflexive (frame group).
Proof. by split. Qed.

Global Instance frame_trans group : Transitive (frame group).
Proof.
  intros d1 d2 d3 [] []. split; try congruence; intros g Hg;
    match goal with H : ∀ g, _ → ?f d3 !! g = _ |- ?f d3 !! _ = _ => rewrite H by done end; auto.
Qed.

Lemma frame_put group s d : frame group d (put_session group s d).
Proof. split; try done. intros g Hg. simpl. by rewrite lookup_insert_ne. Qed.

Lemma frame_set_shared group x d : frame group d (set_shared <[group := x]> d).
Proof. split; try done. intros g Hg. simpl. by rewrite lookup_insert_ne. Qed.

Lemma frame_set_devices group x d : frame group d (set_devices <[group := x]> d).
Proof. split; try done. intros g Hg. simpl. by rewrite lookup_insert_ne. Qed.

Lemma frame_alter group f d : frame group d (set_groups (alter f group) d).
Proof. split; try done. intros g Hg. simpl. by rewrite lookup_alter_ne. Qed.

Lemma frame_leave group d : frame group d (leave group d).
Proof. split; try done; intros g Hg; simpl; by rewrite lookup_delete_ne. Qed.

Hint Resolve frame_put frame_set_shared frame_set_devices frame_alter frame_leave : cluster.

Lemma frame_sync group d : frame group d (sync_admission group d).
Proof. unfold sync_admission. case_match; auto with cluster. reflexivity. Qed.

Lemma frame_drain group d : frame group d (drain_into_shared group d).2.
Proof.
  unfold drain_into_shared. destruct (groups_f d !! group) as [s|]; [|reflexivity].
  destruct (drain _) as [drained tr]. case_match; simpl; [auto with cluster|].
  etrans; [apply frame_put|apply frame_set_shared].
Qed.

Lemma frame_ensure group d : frame group d (ensure_session group d).2.
Proof.
  unfold ensure_session. repeat case_match; simpl; auto with cluster; reflexivity.
Qed.

(** ** What the fallible operations do *)

Lemma ensure_session_Ok group d s d' :
  ensure_session group d = (Ok s, d') →
  groups_f d' !! group = Some s ∧
  (d' = d ∨ (groups_f d !! group = None ∧ str_is_empty (trim group) = false
             ∧ N.of_nat (size (groups_f d)) < MAX_GROUPS
             ∧ ∃ t, make_transport d group = Ok t
                 ∧ s = ClusterSession.new [] t ∧ d' = put_session group s d)).
Proof.
  unfold ensure_session. destruct (groups_f d !! group) as [s0|] eqn:E;
    [intros [= <- <-]; auto|].
  destruct (str_is_empty (trim group)); [done|].
  destruct (N.leb_spec MAX_GROUPS (N.of_nat (size (groups_f d)))); [done|].
  destruct (make_transport d group) as [t|]; [|done].
  intros [= <- <-]. split; [by simpl; rewrite lookup_insert_eq|]. right. eauto 10.
Qed.

Lemma ensure_session_Err group d e d' : ensure_session group d = (Err e, d') → d' = d.
Proof. unfold ensure_session. intros. by case_matches. Qed.

Lemma ensure_session_exists group d s :
  groups_f d !! group = Some s → ensure_session group d = (Ok s, d).
Proof. unfold ensure_session. by intros ->. Qed.

(** The session after [apply_roster]. *)
Definition reconciled (roster : list (string * string)) (s : ClusterSession.t T)
    : ClusterSession.t T :=
  let s' := (ClusterSession.reconcile roster s).2 in
  let after := allowed_f (ClusterSession.membership s') in
  let removed := List.filter (λ a, negb (bool_decide (a ∈ after)))
                   (set_iter (allowed_f (ClusterSession.membership s))) in
  {| ClusterSession.membership := ClusterSession.membership s';
     ClusterSession.transport :=
       fold_left (λ t a, authorize a t) (set_iter after)
         (fold_left (λ t a, disconnect a t) removed (ClusterSession.transport s')) |}.

Lemma fold_transport_mut (f : string → T → T) l (s : ClusterSession.t T) :
  fold_left (λ s a, ClusterSession.transport_mut (f a) s) l s
  = {| ClusterSession.membership := ClusterSession.membership s;
       ClusterSession.transport := fold_left (λ t a, f a t) l (ClusterSession.transport s) |}.
Proof. revert s. induction l as [|a l IH]; intros s; simpl; [by destruct s|]. by rewrite IH. Qed.

Lemma apply_roster_run group roster d s :
  groups_f d !! group = Some s →
  apply_roster group roster d
  = (Ok (ClusterSession.reconcile roster s).1, put_session group (reconciled roster s) d).
Proof.
  intros Hs. unfold apply_roster, mbind, M_bind. rewrite (ensure_session_exists _ _ s) by done.
  unfold reconciled, ClusterMembership.allowed.
  destruct (ClusterSession.reconcile roster s) as [evicted s'].
  rewrite !fold_transport_mut, !list_to_set_set_iter. done.
Qed.

(** The device state after an accepted [SetRoster]. *)
Definition updated_state (group : string) (roster : list (string * string))
    (links : list DeviceLinkWire.t) (revocations : list RevocationWire.t) d
    : list LinkRejection * GroupDevices.t :=
  let st := default GroupDevices.default (device_state d !! group) in
  let u := DeviceRegistry.update (map DeviceLinkWire.into links)
             (map RevocationWire.into revocations) (GroupDevices.registry st) in
  (u.1, {| GroupDevices.roster := roster; GroupDevices.registry := u.2 |}).

Lemma set_roster_run group roster links revocations d :
  set_roster_with_devices group roster links revocations d =
  match ensure_group_allowed group d with
  | Err e => (Err e, d)
  | Ok _ =>
      match ensure_session group d with
      | (Err e, d') => (Err e, d')
      | (Ok s, d') =>
          let '(rejections, st) := updated_state group roster links revocations d' in
          let eff := effective_roster roster (GroupDevices.registry st) in
          (Ok ((ClusterSession.reconcile eff s).1, map describe_rejection rejections),
           put_session group (reconciled eff s) (set_devices <[group := st]> d'))
      end
  end.
Proof.
  unfold set_roster_with_devices. unfold mbind at 1, M_bind at 1, mget at 1.
  destruct (ensure_group_allowed group d) as [[]|e]; [|done].
  unfold mbind at 1, M_bind at 1, mlift at 1.
  unfold mbind at 1, M_bind at 1.
  destruct (ensure_session group d) as [[s|e] d'] eqn:E; [|done].
  apply ensure_session_Ok in E as [Hs _].
  unfold mbind at 1, M_bind at 1, mget at 1. unfold updated_state.
  destruct (DeviceRegistry.update _ _ _) as [rejections registry]. cbn [fst snd].
  unfold mbind, M_bind, mmodify.
  rewrite (apply_roster_run _ _ _ s) by done. done.
Qed.

Lemma join_run group d :
  ClusterDaemon.join group d =
  match ensure_group_allowed group d with
  | Err e => (Err e, d)
  | Ok _ => match ensure_session group d with
            | (Err e, d') => (Err e, d')
            | (Ok _, d') => (Ok tt, d')
            end
  end.
Proof.
  unfold ClusterDaemon.join, mbind, M_bind, mget, mlift.
  destruct (ensure_group_allowed group d) as [[]|]; [|done].
  by destruct (ensure_session group d) as [[]].
Qed.

Lemma add_seed_run group text d :
  add_seed group text d =
  match map_err seed_error_display (GroupSeed.decode text) with
  | Err e => (Err e, d)
  | Ok seed =>
      if negb (bool_decide (GroupSeed.group seed = group))
      then (Err "the seed is for a different group", d)
      else match groups_f d !! group with
           | None => (Err ("not in group " +:+ group), d)
           | Some s =>
               let r := add_peers (GroupSeed.addrs seed) (ClusterSession.transport s) in
               (r.1, put_session group (ClusterSession.transport_mut (λ _, r.2) s) d)
           end
  end.
Proof.
  unfold add_seed, mbind, M_bind, mlift.
  destruct (map_err _ _) as [seed|]; [|done]. case_match; [done|].
  destruct (groups_f d !! group); [|done]. by destruct (add_peers _ _).
Qed.
End frame.

#[export] Hint Resolve frame_put frame_set_shared frame_set_devices frame_alter frame_leave
  frame_sync frame_drain frame_ensure : cluster.

Section frame_requests.
  Context {T : Type} `{!MeshTransport T, !Crypto, !StrDebug}.
  Implicit Types d : ClusterDaemon.t T.

Lemma frame_ensure_eq group d r d' : ensure_session group d = (r, d') → frame group d d'.
Proof. intros Hr. pose proof (frame_ensure group d) as Hf. by rewrite Hr in Hf. Qed.

Lemma frame_set_roster group roster links revs d :
  frame group d (set_roster_with_devices group roster links revs d).2.
Proof.
  rewrite set_roster_run. destruct (ensure_group_allowed group d); [|reflexivity].
  destruct (ensure_session group d) as [[s|e] d'] eqn:E; apply frame_ensure_eq in E; [|done].
  destruct (updated_state _ _ _ _ _). simpl.
  etrans; [exact E|]. etrans; [apply frame_set_devices|apply frame_put].
Qed.

Lemma frame_join group d : frame group d (ClusterDaemon.join group d).2.
Proof.
  rewrite join_run. destruct (ensure_group_allowed group d); [|reflexivity].
  by destruct (ensure_session group d) as [[s|e] d'] eqn:E; apply frame_ensure_eq in E.
Qed.

Lemma frame_add_seed group text d : frame group d (add_seed group text d).2.
Proof. rewrite add_seed_run. repeat case_match; simpl; auto with cluster; reflexivity. Qed.

Lemma frame_share_file group cid d : frame group d (share_file group cid d).2.
Proof.
  unfold share_file. destruct (groups_f d !! group); [|reflexivity].
  destruct (negb (is_valid_cid cid)); [reflexivity|]. case_match; simpl; [auto with cluster|].
  etrans; [apply frame_set_shared|]. etrans; [apply frame_put|apply frame_set_shared].
Qed.

Lemma frame_poll group d : frame group d (poll group d).2.
Proof. unfold poll. etrans; [apply frame_sync|apply frame_drain]. Qed.

Lemma frame_admit group address role d : frame group d (admit_peer group address role d).2.
Proof.
  unfold admit_peer. destruct (ensure_group_allowed group d); [|reflexivity].
  destruct (ensure_session group d) as [[s|e] d'] eqn:E; apply frame_ensure_eq in E; [|done].
  destruct (ClusterSession.join address role s). simpl. etrans; [exact E|apply frame_put].
Qed.

Lemma frame_drop group address d : frame group d (drop_peer group address d).
Proof. unfold drop_peer. case_match; auto with cluster. reflexivity. Qed.

Lemma respond_state {A} (m : M (ClusterDaemon.t T) A) ok d : (respond m ok d).2 = (m d).2.
Proof. unfold respond. by destruct (m d) as [[]]. Qed.

Lemma status_state group d :
  (status group d).2 = (drain_into_shared group (sync_admission group d)).2.
Proof. unfold status. cbv zeta. by case_match. Qed.

Lemma page_state group o l d : (shared_files_page group o l d).2 = (drain_into_shared group d).2.
Proof. unfold shared_files_page. cbv zeta. by case_match. Qed.

Lemma peers_state group d : (peers group d).2 = sync_admission group d.
Proof. unfold peers. cbv zeta. by case_match. Qed.

Lemma devices_state group d : (devices group d).2 = sync_admission group d.
Proof. unfold devices. cbv zeta. by case_match. Qed.

(** The state after a request. *)
Lemma handle_request_state req d :
  (handle_request req d).2 =
  match req with
  | SetRoster g r l v => (set_roster_with_devices g r l v d).2
  | Devices g | Peers g => sync_admission g d
  | Join g => (ClusterDaemon.join g d).2
  | Leave g => leave g d
  | Status g | Poll g => (drain_into_shared g (sync_admission g d)).2
  | ShareFile g c => (share_file g c d).2
  | SharedFiles g _ _ => (drain_into_shared g d).2
  | Seed _ => d
  | AddSeed g s => (add_seed g s d).2
  end.
Proof.
  destruct req; simpl; rewrite ?respond_state; try done.
  - rewrite <-(devices_state group d). by destruct (devices group d).
  - rewrite <-(status_state group d). by destruct (status group d) as [[[]]].
  - rewrite <-(peers_state group d). by destruct (peers group d).
  - unfold poll. by destruct (drain_into_shared _ _).
  - rewrite <-(page_state group offset (default MAX_SHARED_FILES_PAGE limit) d).
    by destruct (shared_files_page _ _ _ d) as [[]].
Qed.

Lemma frame_request req d : frame (request_group req) d (handle_request req d).2.
Proof.
  rewrite handle_request_state.
  destruct req; simpl; first [reflexivity | apply frame_poll
    | by auto using frame_set_roster, frame_join, frame_add_seed, frame_share_file
        with cluster].
Qed.

Lemma frame_event e g d : event_group e = Some g → frame g d (run_event e d).
Proof.
  destruct e; simpl; intros [= <-].
  - apply frame_request.
  - apply frame_admit.
  - apply frame_drop.
  - apply frame_alter.
Qed.
End frame_requests.

(** ** The invariant *)

Section invariant.
  Context {T : Type} `{!MeshTransport T, !MeshView T, !MeshTransportLaws T}.
  Context `{!Crypto, !StrDebug}.
  Implicit Types (d : ClusterDaemon.t T) (s : ClusterSession.t T).

(** A group's session: whom the transport lets in is allowed, whom the session counts as
    admitted is allowed, and the allowed set is empty or the group's effective roster's. *)
Definition session_inv (st : option GroupDevices.t) s : Prop :=
  authorized (ClusterSession.transport s) ⊆ allowed_f (ClusterSession.membership s)
  ∧ admitted_f (ClusterSession.membership s) ⊆ allowed_f (ClusterSession.membership s)
  ∧ (allowed_f (ClusterSession.membership s) = ∅
     ∨ ∃ gd, st = Some gd ∧ allowed_f (ClusterSession.membership s)
         = allowed_set (effective_roster (GroupDevices.roster gd) (GroupDevices.registry gd))).

Record daemon_inv d : Prop := {
  inv_session g s : groups_f d !! g = Some s → session_inv (device_state d !! g) s;
  inv_registry g gd : device_state d !! g = Some gd → reg_ok (GroupDevices.registry gd);
  inv_groups : N.of_nat (size (groups_f d)) <= MAX_GROUPS;
  inv_group g s : groups_f d !! g = Some s →
    str_is_empty (trim g) = false ∧ ensure_group_allowed g d = Ok tt;
  inv_shared g set : shared_files d !! g = Some set →
    is_Some (groups_f d !! g) ∧ N.of_nat (size set) <= MAX_SHARED_FILES
    ∧ ∀ c, c ∈ set → is_valid_cid c = true;
  inv_factory g t : make_transport d g = Ok t → authorized t = ∅;
}.

Lemma session_allowed_canonical st s a :
  session_inv st s → a ∈ allowed_f (ClusterSession.membership s) → is_canonical a = true.
Proof.
  intros (_ & _ & [Ha|(gd & _ & Ha)]) Hin; rewrite Ha in Hin; [set_solver|].
  eauto with cluster.
Qed.

Lemma inv_put g s s' d :
  daemon_inv d → groups_f d !! g = Some s → session_inv (device_state d !! g) s' →
  daemon_inv (put_session g s' d).
Proof.
  intros Hd Hg Hs. split; simpl.
  - intros g' s''. destruct (decide (g = g')) as [<-|Hne];
      [rewrite lookup_insert_eq; by intros [= <-]|].
    rewrite lookup_insert_ne by done. apply (inv_session _ Hd).
  - apply (inv_registry _ Hd).
  - rewrite map_size_insert_Some by eauto. apply (inv_groups _ Hd).
  - intros g' s''. destruct (decide (g = g')) as [<-|Hne];
      [intros _; by apply (inv_group _ Hd _ s)|].
    rewrite lookup_insert_ne by done. apply (inv_group _ Hd).
  - intros g' set Hset. apply (inv_shared _ Hd) in Hset as (Hg' & ? & ?).
    split_and!; [|done..]. destruct (decide (g = g')) as [<-|Hne];
      [rewrite lookup_insert_eq; eauto|by rewrite lookup_insert_ne].
  - apply (inv_factory _ Hd).
Qed.

Lemma fresh_session_inv st t : authorized t = ∅ → session_inv st (ClusterSession.new [] t).
Proof. intros Ht. split_and!; simpl; [rewrite Ht; set_solver|set_solver|by left]. Qed.

Lemma inv_ensure g d r d' :
  daemon_inv d → ensure_group_allowed g d = Ok tt → ensure_session g d = (r, d') →
  daemon_inv d'.
Proof.
  intros Hd Hal. destruct r as [s|e]; [|by intros ->%ensure_session_Err].
  intros [_ [->|(Hn & Htrim & Hsize & t & Ht & -> & ->)]]%ensure_session_Ok; [done|].
  apply (inv_factory _ Hd) in Ht. split; simpl.
  - intros g' s. destruct (decide (g = g')) as [<-|Hne].
    + rewrite lookup_insert_eq. intros [= <-]. by apply fresh_session_inv.
    + rewrite lookup_insert_ne by done. apply (inv_session _ Hd).
  - apply (inv_registry _ Hd).
  - rewrite map_size_insert_None by done. lia.
  - intros g' s. destruct (decide (g = g')) as [<-|Hne]; [done|].
    rewrite lookup_insert_ne by done. apply (inv_group _ Hd).
  - intros g' set Hset. apply (inv_shared _ Hd) in Hset as (Hg' & ? & ?).
    split_and!; [|done..]. destruct (decide (g = g')) as [<-|Hne];
      [rewrite lookup_insert_eq; eauto|by rewrite lookup_insert_ne].
  - apply (inv_factory _ Hd).
Qed.

Lemma inv_sync g d : daemon_inv d → daemon_inv (sync_admission g d).
Proof.
  intros Hd. unfold sync_admission. destruct (groups_f d !! g) as [s|] eqn:E; [|done].
  apply (inv_put _ s); [done..|].
  apply (inv_session _ Hd) in E as (Ha & _ & Hr).
  split_and!; [done| |done]. unfold ClusterSession.sync_admitted_from_wire.
  cbn [ClusterSession.membership]. rewrite sync_admitted_sets. simpl. set_solver.
Qed.

Lemma insert_shared_bound (set : gset string) m :
  N.of_nat (size set) <= MAX_SHARED_FILES →
  N.of_nat (size (insert_shared set m)) <= MAX_SHARED_FILES.
Proof.
  unfold insert_shared. intros Hs. destruct (N.ltb_spec (N.of_nat (size set)) MAX_SHARED_FILES);
    [|done].
  destruct (decide (MeshMessage.data m ∈ set)).
  - by replace ({[MeshMessage.data m]} ∪ set) with set by set_solver.
  - rewrite size_union by set_solver. rewrite size_singleton. lia.
Qed.

Lemma insert_shared_elem (set : gset string) m c :
  c ∈ insert_shared set m → c ∈ set ∨ c = MeshMessage.data m.
Proof. unfold insert_shared. case_match; set_solver. Qed.

Lemma fold_insert_shared ms (set : gset string) :
  N.of_nat (size set) <= MAX_SHARED_FILES →
  N.of_nat (size (fold_left insert_shared ms set)) <= MAX_SHARED_FILES
  ∧ ∀ c, c ∈ fold_left insert_shared ms set →
      c ∈ set ∨ ∃ m, m ∈ ms ∧ c = MeshMessage.data m.
Proof.
  revert set. induction ms as [|m ms IH]; intros set Hs; [naive_solver|].
  destruct (IH (insert_shared set m)) as [Hb He]; [by apply insert_shared_bound|].
  split; [done|]. intros c [[Hc| ->]%insert_shared_elem|(m' & ? & ->)]%He; [by left| |];
    right; set_solver.
Qed.

Lemma inv_set_shared g (set : gset string) d :
  daemon_inv d → is_Some (groups_f d !! g) → N.of_nat (size set) <= MAX_SHARED_FILES →
  (∀ c, c ∈ set → is_valid_cid c = true) →
  daemon_inv (set_shared <[g := set]> d).
Proof.
  intros Hd Hg Hsize Hcid. split; simpl; try apply Hd.
  intros g' set'. destruct (decide (g = g')) as [<-|Hne].
  - rewrite lookup_insert_eq. by intros [= <-].
  - rewrite lookup_insert_ne by done. apply (inv_shared _ Hd).
Qed.

(** The shared set of a group, empty when it has none, is within the bounds. *)
Lemma inv_shared_default g d :
  daemon_inv d →
  N.of_nat (size (default ∅ (shared_files d !! g))) <= MAX_SHARED_FILES
  ∧ ∀ c, c ∈ default ∅ (shared_files d !! g) → is_valid_cid c = true.
Proof.
  intros Hd. destruct (shared_files d !! g) as [set|] eqn:E; simpl.
  - by apply (inv_shared _ Hd) in E as (_ & ? & ?).
  - split; [done|set_solver].
Qed.

(** Replacing a session's transport by one that lets nobody new in. *)
Lemma session_inv_transport st s t :
  session_inv st s → authorized t ⊆ authorized (ClusterSession.transport s) →
  session_inv st (ClusterSession.transport_mut (λ _, t) s).
Proof. intros (? & ? & ?) Ht. split_and!; simpl; [set_solver|done..]. Qed.
End invariant.

(** ** The invariant is kept *)

Section preserved.
  Context {T : Type} `{!MeshTransport T, !MeshView T, !MeshTransportLaws T}.
  Context `{!Crypto, !StrDebug}.
  Implicit Types (d : ClusterDaemon.t T) (s : ClusterSession.t T) (t : T).

Lemma authorized_disconnect_all l t :
  (∀ a, a ∈ l → is_canonical a = true) →
  authorized (fold_left (λ t a, disconnect a t) l t) = authorized t ∖ list_to_set l.
Proof.
  revert t. induction l as [|a l IH]; intros t Hl; simpl; [set_solver|].
  rewrite IH, authorized_disconnect by set_solver. set_solver.
Qed.

Lemma authorized_authorize_all l t :
  (∀ a, a ∈ l → is_canonical a = true) →
  authorized (fold_left (λ t a, authorize a t) l t) ⊆ list_to_set l ∪ authorized t.
Proof.
  revert t. induction l as [|a l IH]; intros t Hl; simpl; [set_solver|].
  specialize (IH (authorize a t)). pose proof (authorized_authorize a t). set_solver.
Qed.

Lemma authorized_authorize_all_eq `{!MeshAuthorizes T} l t :
  (∀ a, a ∈ l → is_canonical a = true) →
  authorized (fold_left (λ t a, authorize a t) l t) = list_to_set l ∪ authorized t.
Proof.
  revert t. induction l as [|a l IH]; intros t Hl; simpl; [set_solver|].
  rewrite IH by set_solver. rewrite authorize_lets_in by set_solver. set_solver.
Qed.

Lemma reconciled_allowed roster s :
  allowed_f (ClusterSession.membership (reconciled roster s)) = allowed_set roster.
Proof. done. Qed.

Lemma reconciled_admitted roster s :
  admitted_f (ClusterSession.membership (reconciled roster s))
  = admitted_f (ClusterSession.membership s) ∩ allowed_set roster.
Proof.
  unfold reconciled. cbn [ClusterSession.membership].
  rewrite reconcile_membership. apply reconcile_admitted.
Qed.

(** Before the new addresses are let in, nobody outside the new allowed set is left. *)
Lemma reconciled_removed st roster s :
  session_inv st s →
  let m := ClusterSession.membership s in
  let removed := List.filter (λ a, negb (bool_decide (a ∈ allowed_set roster)))
                   (set_iter (allowed_f m)) in
  authorized (fold_left (λ t a, disconnect a t) removed
    (ClusterSession.transport (ClusterSession.reconcile roster s).2)) ⊆ allowed_set roster.
Proof.
  intros Hs. cbv zeta. rewrite reconcile_transport.
  pose proof (session_allowed_canonical st s) as Hcan.
  pose proof Hs as (Hau & Had & _).
  rewrite authorized_disconnect_all, authorized_disconnect_all.
  - intros x. rewrite !elem_of_difference, !elem_of_list_to_set, elem_of_filter_list,
      negb_true_iff, bool_decide_eq_false, elem_of_set_iter.
    intros [[Hx _] Hn]. apply dec_stable. intros Hna. apply Hn. set_solver.
  - intros a [Ha _]%elem_of_evicted. apply Hcan; set_solver.
  - intros a [_ Ha%elem_of_set_iter]%elem_of_filter_list. by apply Hcan.
Qed.

Lemma reconciled_authorized st roster s :
  session_inv st s →
  authorized (ClusterSession.transport (reconciled roster s)) ⊆ allowed_set roster.
Proof.
  intros Hs. pose proof (reconciled_removed st roster s Hs) as Hr. cbv zeta in Hr.
  unfold reconciled. cbn [ClusterSession.transport].
  rewrite reconcile_membership, reconcile_allowed.
  etrans; [apply authorized_authorize_all|].
  - intros a Ha%elem_of_set_iter. eauto with cluster.
  - rewrite list_to_set_set_iter. set_solver.
Qed.

Lemma reconciled_authorized_eq `{!MeshAuthorizes T} st roster s :
  session_inv st s →
  authorized (ClusterSession.transport (reconciled roster s)) = allowed_set roster.
Proof.
  intros Hs. pose proof (reconciled_removed st roster s Hs) as Hr. cbv zeta in Hr.
  unfold reconciled. cbn [ClusterSession.transport].
  rewrite reconcile_membership, reconcile_allowed.
  rewrite authorized_authorize_all_eq.
  - rewrite list_to_set_set_iter. set_solver.
  - intros a Ha%elem_of_set_iter. eauto with cluster.
Qed.

Lemma reconciled_inv st gd s :
  session_inv st s →
  session_inv (Some gd) (reconciled
    (effective_roster (GroupDevices.roster gd) (GroupDevices.registry gd)) s).
Proof.
  intros Hs. split_and!.
  - by eapply reconciled_authorized.
  - rewrite reconciled_admitted, reconciled_allowed. set_solver.
  - right. by exists gd.
Qed.

Lemma inv_put_state g s s' gd d :
  daemon_inv d → groups_f d !! g = Some s → reg_ok (GroupDevices.registry gd) →
  session_inv (Some gd) s' →
  daemon_inv (put_session g s' (set_devices <[g := gd]> d)).
Proof.
  intros Hd Hg Hreg Hs. split; simpl.
  - intros g' s''. destruct (decide (g = g')) as [<-|Hne];
      [rewrite !lookup_insert_eq; by intros [= <-]|].
    rewrite !lookup_insert_ne by done. apply (inv_session _ Hd).
  - intros g' gd'. destruct (decide (g = g')) as [<-|Hne];
      [rewrite lookup_insert_eq; by intros [= <-]|].
    rewrite lookup_insert_ne by done. apply (inv_registry _ Hd).
  - rewrite map_size_insert_Some by eauto. apply (inv_groups _ Hd).
  - intros g' s''. destruct (decide (g = g')) as [<-|Hne];
      [intros _; by apply (inv_group _ Hd _ s)|].
    rewrite lookup_insert_ne by done. apply (inv_group _ Hd).
  - intros g' set Hset. apply (inv_shared _ Hd) in Hset as (Hg' & ? & ?).
    split_and!; [|done..]. destruct (decide (g = g')) as [<-|Hne];
      [rewrite lookup_insert_eq; eauto|by rewrite lookup_insert_ne].
  - apply (inv_factory _ Hd).
Qed.

Lemma default_registry_ok g d :
  daemon_inv d →
  reg_ok (GroupDevices.registry (default GroupDevices.default (device_state d !! g))).
Proof.
  intros Hd. destruct (device_state d !! g) eqn:E; simpl; [by apply (inv_registry _ Hd) in E|].
  apply new_reg_ok.
Qed.

Lemma inv_set_roster g roster links revs d :
  daemon_inv d → daemon_inv (set_roster_with_devices g roster links revs d).2.
Proof.
  intros Hd. rewrite set_roster_run. destruct (ensure_group_allowed g d) as [[]|] eqn:Eg; [|done].
  destruct (ensure_session g d) as [[s|e] d'] eqn:E.
  - pose proof (inv_ensure _ _ _ _ Hd Eg E) as Hd'.
    apply ensure_session_Ok in E as [Hs _]. unfold updated_state. cbn [snd].
    apply (inv_put_state _ s); [done..| |].
    + cbn [GroupDevices.registry]. apply update_reg_ok. by apply default_registry_ok.
    + match goal with |- session_inv (Some ?gd) _ =>
        apply (reconciled_inv (device_state d' !! g) gd s) end.
      by apply (inv_session _ Hd').
  - by apply ensure_session_Err in E as ->.
Qed.

Lemma inv_join g d : daemon_inv d → daemon_inv (ClusterDaemon.join g d).2.
Proof.
  intros Hd. rewrite join_run. destruct (ensure_group_allowed g d) as [[]|] eqn:Eg; [|done].
  destruct (ensure_session g d) as [[s|e] d'] eqn:E; by eapply inv_ensure.
Qed.

Lemma inv_drain g d : daemon_inv d → daemon_inv (drain_into_shared g d).2.
Proof.
  intros Hd. unfold drain_into_shared. destruct (groups_f d !! g) as [s|] eqn:E; [|done].
  destruct (drain (ClusterSession.transport s)) as [ms tr] eqn:Em.
  assert (daemon_inv (put_session g (ClusterSession.transport_mut (λ _, tr) s) d)) as Hd'.
  { apply (inv_put _ s); [done..|]. apply session_inv_transport; [by apply (inv_session _ Hd)|].
    assert (tr = (drain (ClusterSession.transport s)).2) as -> by by rewrite Em.
    by rewrite authorized_drain. }
  case_match; [done|]. cbn [snd].
  destruct (inv_shared_default g _ Hd') as [Hsize Hcid].
  destruct (fold_insert_shared (List.filter (λ m, is_valid_cid (MeshMessage.data m)) ms) _ Hsize)
    as [Hsize' Hel].
  apply inv_set_shared; [done| |done|].
  - simpl. rewrite lookup_insert_eq. eauto.
  - intros c [Hc|(m & Hm & ->)]%Hel; [auto|].
    by apply list_elem_of_In, filter_In in Hm as [_ ?].
Qed.

Lemma inv_add_seed g text d : daemon_inv d → daemon_inv (add_seed g text d).2.
Proof.
  intros Hd. rewrite add_seed_run. destruct (map_err _ _) as [seed|]; [|done].
  destruct (negb _); [done|]. destruct (groups_f d !! g) as [s|] eqn:E; [|done]. cbn [snd].
  apply (inv_put _ s); [done..|]. apply session_inv_transport; [by apply (inv_session _ Hd)|].
  by rewrite authorized_add_peers.
Qed.

Lemma inv_share_file g cid d : daemon_inv d → daemon_inv (share_file g cid d).2.
Proof.
  intros Hd. unfold share_file. destruct (groups_f d !! g) as [s|] eqn:E; [|done].
  destruct (is_valid_cid cid) eqn:Ec; [|done]. cbn [negb].
  destruct (inv_shared_default g _ Hd) as [Hsize Hcid].
  assert (daemon_inv (set_shared <[g:=default ∅ (shared_files d !! g)]> d)) as Hd1
    by (apply inv_set_shared; eauto).
  case_match eqn:Efull; [done|]. cbn [snd].
  apply inv_set_shared.
  - apply (inv_put _ s); [done..|].
    apply (session_inv_transport _ s (publish (self_address d) cid (ClusterSession.transport s)));
      [by apply (inv_session _ Hd)|]. by rewrite authorized_publish.
  - simpl. rewrite lookup_insert_eq. eauto.
  - apply andb_false_iff in Efull as [Hin|Hlt].
    + apply negb_false_iff, bool_decide_eq_true in Hin.
      by replace ({[cid]} ∪ _) with (default ∅ (shared_files d !! g)) by set_solver.
    + apply N.leb_gt in Hlt.
      destruct (decide (cid ∈ default ∅ (shared_files d !! g))).
      * by replace ({[cid]} ∪ _) with (default ∅ (shared_files d !! g)) by set_solver.
      * rewrite size_union by set_solver. rewrite size_singleton. lia.
  - intros c. rewrite elem_of_union, elem_of_singleton. naive_solver.
Qed.

Lemma inv_leave g d : daemon_inv d → daemon_inv (leave g d).
Proof.
  intros Hd. split; simpl.
  - intros g' s. rewrite lookup_delete_Some. intros [_ ?]. by apply (inv_session _ Hd).
  - apply (inv_registry _ Hd).
  - pose proof (inv_groups _ Hd). destruct (groups_f d !! g) as [s|] eqn:E.
    + rewrite map_size_delete_Some by eauto. lia.
    + by rewrite map_size_delete_None.
  - intros g' s. rewrite lookup_delete_Some. intros [_ ?]. by apply (inv_group _ Hd _ s).
  - intros g' set. rewrite lookup_delete_Some. intros [Hne Hset].
    rewrite lookup_delete_ne by done. by apply (inv_shared _ Hd).
  - apply (inv_factory _ Hd).
Qed.

(** A join by a connecting peer dials only an allowed address. *)
Lemma session_join_inv st address role s :
  session_inv st s → session_inv st (ClusterSession.join address role s).2.
Proof.
  intros (Hau & Had & Hr). unfold ClusterSession.join.
  destruct (ClusterMembership.join address role (ClusterSession.membership s)) as [[] m'] eqn:E.
  - apply join_admits in E as (a & Hca & Hin & ->). rewrite Hca.
    split_and!; simpl; [|set_solver|done].
    pose proof (authorized_dial a (ClusterSession.transport s)
      ltac:(eauto with cluster)). set_solver.
  - apply join_refuses in E as ->. by split_and!.
Qed.

Lemma session_leave_inv st address s :
  session_inv st s → session_inv st (ClusterSession.leave address s).
Proof.
  intros (Hau & Had & Hr). unfold ClusterSession.leave, ClusterMembership.leave.
  destruct (canonical_address address) as [a|] eqn:E; [|by split_and!].
  split_and!; simpl; [|set_solver|done].
  rewrite authorized_disconnect by eauto with cluster. set_solver.
Qed.

Lemma inv_admit g address role d : daemon_inv d → daemon_inv (admit_peer g address role d).2.
Proof.
  intros Hd. unfold admit_peer. destruct (ensure_group_allowed g d) as [[]|] eqn:Eg; [|done].
  destruct (ensure_session g d) as [[s|e] d'] eqn:E; pose proof (inv_ensure _ _ _ _ Hd Eg E) as Hd';
    [|done].
  apply ensure_session_Ok in E as [Hs _].
  pose proof (session_join_inv _ address role s (inv_session _ Hd' _ _ Hs)) as Hj.
  destruct (ClusterSession.join address role s) as [b s']. by apply (inv_put _ s).
Qed.

Lemma inv_drop g address d : daemon_inv d → daemon_inv (drop_peer g address d).
Proof.
  intros Hd. unfold drop_peer. destruct (groups_f d !! g) as [s|] eqn:E; [|done].
  apply (inv_put _ s); [done..|]. apply session_leave_inv. by apply (inv_session _ Hd).
Qed.

Lemma inv_network g f d :
  (∀ t, env t (f t)) → daemon_inv d →
  daemon_inv (set_groups (alter (ClusterSession.transport_mut f) g) d).
Proof.
  intros Hf Hd. destruct (groups_f d !! g) as [s|] eqn:E.
  - assert (set_groups (alter (ClusterSession.transport_mut f) g) d
      = put_session g (ClusterSession.transport_mut f s) d) as ->.
    { unfold put_session, set_groups. f_equal. by rewrite alter_insert_eq || (
        apply map_eq; intros g'; destruct (decide (g = g')) as [<-|];
        [by rewrite lookup_alter_eq, E, lookup_insert_eq
        |by rewrite lookup_alter_ne, lookup_insert_ne]). }
    apply (inv_put _ s); [done..|].
    apply (session_inv_transport _ s (f (ClusterSession.transport s)));
      [by apply (inv_session _ Hd)|]. by rewrite (authorized_env _ _ (Hf _)).
  - assert (set_groups (alter (ClusterSession.transport_mut f) g) d = d) as ->; [|done].
    destruct d as [? ? ? m ? ?]. unfold set_groups. simpl in *. f_equal.
    apply map_eq. intros g'. destruct (decide (g = g')) as [<-|].
    + by rewrite lookup_alter_eq, E.
    + by rewrite lookup_alter_ne.
Qed.

Lemma inv_set_factory mk d :
  (∀ g t, mk g = Ok t → authorized t = ∅) → daemon_inv d → daemon_inv (set_factory mk d).
Proof. intros Hmk Hd. split; simpl; apply Hd || apply Hmk. Qed.

Lemma inv_event e d : event_ok e → daemon_inv d → daemon_inv (run_event e d).
Proof.
  intros He Hd. destruct e as [req| | | |]; simpl.
  - rewrite handle_request_state.
    destruct req; auto using inv_set_roster, inv_sync, inv_join, inv_leave, inv_drain,
      inv_share_file, inv_add_seed.
  - by apply inv_admit.
  - by apply inv_drop.
  - by apply inv_network.
  - by apply inv_set_factory.
Qed.

Lemma inv_events es d : Forall event_ok es → daemon_inv d →
  daemon_inv (fold_left (λ d e, run_event e d) es d).
Proof.
  intros Hes. revert d. induction Hes as [|e es He Hes IH]; intros d Hd; simpl; [done|].
  by apply IH, inv_event.
Qed.

(** A daemon just constructed. *)
Lemma inv_with_factory address mk :
  (∀ g t, mk g = Ok t → authorized t = ∅) → daemon_inv (with_factory address mk).
Proof. intros Hmk. by split; simpl; try (intros ? ?; by rewrite lookup_empty). Qed.

Lemma inv_pin g address mk :
  (∀ g t, mk g = Ok t → authorized t = ∅) →
  daemon_inv (with_factory_single_group address mk g).
Proof. intros Hmk. by split; simpl; try (intros ? ?; by rewrite lookup_empty). Qed.
End preserved.
