(* ===== verification/DaemonSafety.v ===== *)
(** * What the daemon guarantees, whatever happens

    Theorems over every sequence of requests, connection events, network steps and factory
    changes: the gate, the bounds, the isolation of groups, and the permanence of
    revocations. *)

From S2P Require Import Prelude RustStr Admission Membership Session Seed Device Registry.
From S2P Require Import EffectiveRoster Transport DeviceWire Daemon Ipc DaemonInv.
Import ClusterMembership ClusterDaemon.
Local Open Scope N_scope.

(** ** Reachable daemons *)

(** The states a daemon reaches from its construction, pinned to a group or not. *)
Definition built {T} (address : string) (pinned : option string)
    (mk : string → result T string) : ClusterDaemon.t T :=
  match pinned with
  | Some g => with_factory_single_group address mk g
  | None => with_factory address mk
  end.

Definition run_events {T} `{!MeshTransport T, !Crypto, !StrDebug} (es : list (event T))
    (d : ClusterDaemon.t T) : ClusterDaemon.t T :=
  fold_left (λ d e, run_event e d) es d.

Section reachable.
  Context {T : Type} `{!MeshTransport T, !MeshView T, !MeshTransportLaws T}.
  Context `{!Crypto, !StrDebug}.

Lemma inv_built address pinned mk :
  (∀ g t, mk g = Ok t → authorized t = ∅) → daemon_inv (built address pinned mk).
Proof. destruct pinned; [apply inv_pin|apply inv_with_factory]. Qed.

Lemma inv_reachable address pinned mk es :
  (∀ g t, mk g = Ok t → authorized t = ∅) → Forall event_ok es →
  daemon_inv (run_events es (built address pinned mk)).
Proof. intros. apply inv_events; [done|by apply inv_built]. Qed.

Lemma frame_event_any e (d : ClusterDaemon.t T) :
  single_group (run_event e d) = single_group d
  ∧ self_address (run_event e d) = self_address d.
Proof.
  destruct (event_group e) as [g|] eqn:E.
  - pose proof (frame_event e g d E) as []. done.
  - destruct e; done.
Qed.

Lemma run_events_single es (d : ClusterDaemon.t T) :
  single_group (run_events es d) = single_group d.
Proof.
  unfold run_events. revert d. induction es as [|e es IH]; intros d; simpl; [done|].
  rewrite IH. apply frame_event_any.
Qed.

(** ** Device state over a run *)

Lemma put_session_devices g s (d : ClusterDaemon.t T) :
  device_state (put_session g s d) = device_state d.
Proof. done. Qed.

Lemma ensure_session_devices g (d : ClusterDaemon.t T) r d' :
  ensure_session g d = (r, d') → device_state d' = device_state d.
Proof.
  destruct r as [s|e]; [|by intros ->%ensure_session_Err].
  intros [_ [->|(_ & _ & _ & t & _ & _ & ->)]]%ensure_session_Ok; done.
Qed.

Lemma sync_devices g (d : ClusterDaemon.t T) :
  device_state (sync_admission g d) = device_state d.
Proof. unfold sync_admission. by case_match. Qed.

Lemma drain_devices g (d : ClusterDaemon.t T) :
  device_state (drain_into_shared g d).2 = device_state d.
Proof.
  unfold drain_into_shared. destruct (groups_f d !! g); [|done].
  destruct (drain _). by case_match.
Qed.

(** Every event but [SetRoster] leaves the device state alone. *)
Lemma event_devices e (d : ClusterDaemon.t T) :
  (∃ g roster links revs, e = EvRequest (SetRoster g roster links revs))
  ∨ device_state (run_event e d) = device_state d.
Proof.
  destruct e as [req|g a r|g a| |]; simpl; [| | |by right..].
  - rewrite handle_request_state. destruct req; [left; eauto 10|right..]; try done.
    + apply sync_devices.
    + rewrite join_run. destruct (ensure_group_allowed group d); [|done].
      by destruct (ensure_session group d) as [[] ?] eqn:E; apply ensure_session_devices in E.
    + by rewrite drain_devices, sync_devices.
    + apply sync_devices.
    + unfold share_file. by repeat case_match.
    + by rewrite drain_devices, sync_devices.
    + apply drain_devices.
    + rewrite add_seed_run. by repeat case_match.
  - right. unfold admit_peer. destruct (ensure_group_allowed g d); [|done].
    destruct (ensure_session g d) as [[s|] d'] eqn:E; apply ensure_session_devices in E; [|done].
    by destruct (ClusterSession.join a r s).
  - right. unfold drop_peer. by case_match.
Qed.

(** A group's registry after [SetRoster]: unchanged, or updated. *)
Lemma set_roster_devices g roster links revs (d : ClusterDaemon.t T) g' :
  device_state (set_roster_with_devices g roster links revs d).2 !! g' = device_state d !! g'
  ∨ (g' = g ∧ device_state (set_roster_with_devices g roster links revs d).2 !! g
      = Some (updated_state g roster links revs d).2).
Proof.
  rewrite set_roster_run. destruct (ensure_group_allowed g d); [|by left].
  destruct (ensure_session g d) as [[s|e] d'] eqn:E; pose proof E as E'%ensure_session_devices.
  - unfold updated_state. rewrite E'. simpl.
    destruct (decide (g' = g)) as [->|]; [right|left].
    + by rewrite lookup_insert_eq.
    + by rewrite lookup_insert_ne, E'.
  - left. simpl. by rewrite E'.
Qed.

Lemma event_revoked e (d : ClusterDaemon.t T) g st m dev :
  device_state d !! g = Some st → (m, dev) ∈ DeviceRegistry.revoked_f (GroupDevices.registry st) →
  ∃ st', device_state (run_event e d) !! g = Some st'
    ∧ (m, dev) ∈ DeviceRegistry.revoked_f (GroupDevices.registry st').
Proof.
  intros Hst Hr. destruct (event_devices e d) as [(g0 & roster & links & revs & ->)|Heq];
    [|rewrite Heq; eauto].
  cbn [run_event]. rewrite handle_request_state.
  destruct (set_roster_devices g0 roster links revs d g) as [Heq|[-> Heq]];
    rewrite Heq; [eauto|].
  eexists. split; [done|]. unfold updated_state. rewrite Hst. simpl.
  by apply update_revoked_sticky.
Qed.

Lemma events_revoked es (d : ClusterDaemon.t T) g st m dev :
  device_state d !! g = Some st → (m, dev) ∈ DeviceRegistry.revoked_f (GroupDevices.registry st) →
  ∃ st', device_state (run_events es d) !! g = Some st'
    ∧ (m, dev) ∈ DeviceRegistry.revoked_f (GroupDevices.registry st').
Proof.
  unfold run_events. revert d st. induction es as [|e es IH]; intros d st Hst Hr; simpl;
    [eauto|].
  destruct (event_revoked e d g st m dev Hst Hr) as (st' & Hst' & Hr'). eauto.
Qed.

(** Whom a session lets in, once a member has revoked a device. *)
Lemma session_revoked st s m dev :
  reg_ok (GroupDevices.registry st) →
  session_inv (Some st) s → (m, dev) ∈ DeviceRegistry.revoked_f (GroupDevices.registry st) →
  (on_roster (GroupDevices.roster st) m → m ∉ authorized (ClusterSession.transport s))
  ∧ (dev ∈ authorized (ClusterSession.transport s) →
     on_roster (GroupDevices.roster st) dev
     ∨ ∃ l, DeviceRegistry.links_f (GroupDevices.registry st) !! dev = Some l
         ∧ DeviceLink.member l ≠ m).
Proof.
  intros Hreg (Hau & _ & Hal) Hr.
  assert (∀ a, a ∈ authorized (ClusterSession.transport s) →
    a ∈ allowed_set (effective_roster (GroupDevices.roster st) (GroupDevices.registry st)))
    as Hin.
  { intros a Ha%Hau. destruct Hal as [Hal|(gd & [= <-] & Hal)]; rewrite Hal in Ha; set_solver. }
  split.
  - intros Hon Ha%Hin. apply allowed_effective in Ha as [[_ Hk]|(l & Hl & Hn & _)]; [| |done].
    + apply Hk. left. eauto.
    + by pose proof Hl as (<- & _)%Hreg.
  - intros Ha%Hin. apply allowed_effective in Ha as [[Ha _]|(l & Hl & _)]; [| |done].
    + left. apply elem_of_allowed_set in Ha as (addr & r & ? & _ & ?). by exists addr, r.
    + right. exists l. split; [done|]. intros <-. by apply Hreg in Hl as (_ & _ & []).
Qed.
End reachable.

(** ** Only [SetRoster] changes whom a group allows *)

Section allowed.
  Context {T : Type} `{!MeshTransport T, !Crypto, !StrDebug}.
  Implicit Types d : ClusterDaemon.t T.

Definition allowed_at g d : gset string :=
  from_option (λ s, allowed_f (ClusterSession.membership s)) ∅ (groups_f d !! g).

Lemma allowed_put g g' s d :
  allowed_f (ClusterSession.membership s) = allowed_at g' d →
  allowed_at g (put_session g' s d) = allowed_at g d.
Proof.
  intros Hs. unfold allowed_at in *. simpl. destruct (decide (g' = g)) as [<-|Hne].
  - by rewrite lookup_insert_eq.
  - by rewrite lookup_insert_ne.
Qed.

Lemma allowed_found g d s :
  groups_f d !! g = Some s → allowed_at g d = allowed_f (ClusterSession.membership s).
Proof. intros Hs. unfold allowed_at. by rewrite Hs. Qed.

Lemma allowed_ensure g g' d r d' :
  ensure_session g' d = (r, d') → allowed_at g d' = allowed_at g d.
Proof.
  destruct r as [s|e]; [|by intros ->%ensure_session_Err].
  intros [_ [->|(Hn & _ & _ & t & _ & -> & ->)]]%ensure_session_Ok; [done|].
  apply allowed_put. unfold allowed_at. by rewrite Hn.
Qed.

Lemma allowed_sync g g' d : allowed_at g (sync_admission g' d) = allowed_at g d.
Proof.
  unfold sync_admission. destruct (groups_f d !! g') as [s|] eqn:E; [|done].
  apply allowed_put. by rewrite (allowed_found _ _ _ E).
Qed.

Lemma allowed_drain g g' d : allowed_at g (drain_into_shared g' d).2 = allowed_at g d.
Proof.
  unfold drain_into_shared. destruct (groups_f d !! g') as [s|] eqn:E; [|done].
  destruct (drain _) as [ms tr].
  assert (allowed_at g (put_session g' (ClusterSession.transport_mut (λ _, tr) s) d)
    = allowed_at g d) as Ha by (apply allowed_put; by rewrite (allowed_found _ _ _ E)).
  case_match; exact Ha.
Qed.

Lemma request_allowed req g d s' :
  (∀ roster links revs, req ≠ SetRoster g roster links revs) →
  groups_f (handle_request req d).2 !! g = Some s' →
  allowed_f (ClusterSession.membership s') = allowed_at g d.
Proof.
  intros Hreq Hs. rewrite <-(allowed_found _ _ _ Hs). rewrite handle_request_state in Hs |- *.
  destruct req as [g' roster links revs|g'|g'|g'|g'|g'|g' cid|g'|g' o l|g'|g' text];
    rewrite ?allowed_drain, ?allowed_sync; try done.
  - cbn [snd]. unfold allowed_at. rewrite (frame_groups _ _ _ (frame_set_roster g' roster links
      revs d)); [done|]. intros <-. by apply (Hreq roster links revs).
  - rewrite join_run. destruct (ensure_group_allowed g' d); [|done].
    by destruct (ensure_session g' d) as [[] ?] eqn:E; eapply allowed_ensure in E.
  - simpl in Hs. apply lookup_delete_Some in Hs as [Hne Hs]. unfold allowed_at. simpl.
    by rewrite lookup_delete_ne.
  - unfold share_file. destruct (groups_f d !! g') as [s|] eqn:E; [|done].
    destruct (negb (is_valid_cid cid)); [done|]. case_match; [done|]. cbn [snd].
    apply (allowed_put g g' (ClusterSession.transport_mut _ s) d).
    by rewrite (allowed_found _ _ _ E).
  - rewrite add_seed_run. destruct (map_err _ _) as [sd|]; [|done].
    destruct (negb _); [done|]. destruct (groups_f d !! g') as [s|] eqn:E; [|done].
    apply allowed_put. by rewrite (allowed_found _ _ _ E).
Qed.

Lemma event_allowed e g d s' :
  (∀ roster links revs, e ≠ EvRequest (SetRoster g roster links revs)) →
  groups_f (run_event e d) !! g = Some s' →
  allowed_f (ClusterSession.membership s') = allowed_at g d.
Proof.
  intros He Hs. destruct e as [req|g' a r|g' a|g' f|f].
  - eapply request_allowed; [|exact Hs]. intros ro li re ->. by apply (He ro li re).
  - rewrite <-(allowed_found _ _ _ Hs). cbn [run_event]. unfold admit_peer.
    destruct (ensure_group_allowed g' d); [|done].
    destruct (ensure_session g' d) as [[s|] d'] eqn:E; pose proof E as Ea;
      apply (allowed_ensure g) in Ea; [|done].
    apply ensure_session_Ok in E as [E _].
    destruct (ClusterSession.join a r s) as [b s1] eqn:Ej. cbn [snd].
    rewrite (allowed_put g g' s1 d'); [done|]. rewrite (allowed_found _ _ _ E).
    replace s1 with (ClusterSession.join a r s).2 by by rewrite Ej.
    unfold ClusterSession.join. destruct (ClusterMembership.join _ _ _) as [b' m'] eqn:Em. simpl.
    replace m' with (ClusterMembership.join a r (ClusterSession.membership s)).2 by by rewrite Em.
    apply join_allowed.
  - rewrite <-(allowed_found _ _ _ Hs). cbn [run_event]. unfold drop_peer.
    destruct (groups_f d !! g') as [s|] eqn:E; [|done].
    apply allowed_put. rewrite (allowed_found _ _ _ E). apply leave_allowed.
  - simpl in Hs. destruct (decide (g' = g)) as [<-|Hne].
    + rewrite lookup_alter_eq in Hs. unfold allowed_at.
      destruct (groups_f d !! g') as [s|]; [|done]. by injection Hs as <-.
    + rewrite lookup_alter_ne in Hs by done. by rewrite (allowed_found _ _ _ Hs).
  - by rewrite (allowed_found g d s').
Qed.

End allowed.

(** ** What a group's requests read *)

Section view.
  Context {T : Type} `{!MeshTransport T, !Crypto, !StrDebug}.
  Implicit Types d : ClusterDaemon.t T.

(** Two daemons agree on group [g]: the configuration, the session, the shared set and the
    device state of [g]. *)
Record same_view (g : string) d1 d2 : Prop := {
  sv_self : self_address d1 = self_address d2;
  sv_single : single_group d1 = single_group d2;
  sv_groups : groups_f d1 !! g = groups_f d2 !! g;
  sv_shared : shared_files d1 !! g = shared_files d2 !! g;
  sv_devices : device_state d1 !! g = device_state d2 !! g;
}.

Lemma frame_same_view g g' d d' : frame g d d' → g' ≠ g → same_view g' d' d.
Proof. intros [] Hne. split; auto. Qed.

Lemma same_view_put g s d1 d2 :
  same_view g d1 d2 → same_view g (put_session g s d1) (put_session g s d2).
Proof. intros []. split; simpl; rewrite ?lookup_insert_eq; done. Qed.

Lemma same_view_shared g x d1 d2 :
  same_view g d1 d2 → same_view g (set_shared <[g := x]> d1) (set_shared <[g := x]> d2).
Proof. intros []. split; simpl; rewrite ?lookup_insert_eq; done. Qed.

Lemma same_view_sync g d1 d2 :
  same_view g d1 d2 → same_view g (sync_admission g d1) (sync_admission g d2).
Proof.
  intros Hv. unfold sync_admission. rewrite (sv_groups _ _ _ Hv).
  destruct (groups_f d2 !! g); [by apply same_view_put|done].
Qed.

Lemma same_view_drain g d1 d2 :
  same_view g d1 d2 →
  (drain_into_shared g d1).1 = (drain_into_shared g d2).1
  ∧ same_view g (drain_into_shared g d1).2 (drain_into_shared g d2).2.
Proof.
  intros Hv. unfold drain_into_shared. rewrite (sv_groups _ _ _ Hv).
  destruct (groups_f d2 !! g) as [s|]; [|done]. destruct (drain _) as [ms tr].
  case_match; simpl; (split; [done|]); [by apply same_view_put|].
  rewrite (sv_shared _ _ _ Hv). by apply same_view_shared, same_view_put.
Qed.

Lemma same_view_allowed g d1 d2 :
  same_view g d1 d2 → ensure_group_allowed g d1 = ensure_group_allowed g d2.
Proof. intros Hv. unfold ensure_group_allowed. by rewrite (sv_single _ _ _ Hv). Qed.

(** With a session for the group, a request's answer depends on nothing else. *)
Lemma same_view_response req d1 d2 :
  same_view (request_group req) d1 d2 →
  is_Some (groups_f d2 !! request_group req) →
  (handle_request req d1).1 = (handle_request req d2).1.
Proof.
  intros Hv [s Hs]. set (g := request_group req) in *.
  pose proof (sv_groups _ _ _ Hv) as Hg. pose proof (same_view_sync _ _ _ Hv) as Hsync.
  destruct (same_view_drain _ _ _ Hv) as [Hdr Hdr'].
  destruct (same_view_drain _ _ _ Hsync) as [Hsdr Hsdr'].
  pose proof (same_view_allowed _ _ _ Hv) as Hal.
  destruct req; cbn [request_group] in g; subst g; cbn [handle_request]; unfold respond.
  - rewrite !set_roster_run, Hal. destruct (ensure_group_allowed group d2); [|done].
    rewrite (ensure_session_exists _ d1 s), (ensure_session_exists _ d2 s) by congruence.
    unfold updated_state. by rewrite (sv_devices _ _ _ Hv).
  - unfold devices. cbv zeta. rewrite (sv_devices _ _ _ Hsync), (sv_groups _ _ _ Hsync).
    by destruct (device_state (sync_admission group d2) !! group).
  - rewrite !join_run, Hal. destruct (ensure_group_allowed group d2); [|done].
    by rewrite (ensure_session_exists _ d1 s), (ensure_session_exists _ d2 s) by congruence.
  - done.
  - unfold status. cbv zeta. rewrite (sv_groups _ _ _ Hsdr'), (sv_shared _ _ _ Hsdr').
    by destruct (groups_f (drain_into_shared _ _).2 !! group).
  - unfold peers. cbv zeta. rewrite (sv_devices _ _ _ Hsync), (sv_groups _ _ _ Hsync).
    by destruct (groups_f (sync_admission group d2) !! group).
  - unfold share_file. rewrite Hg, Hs, (sv_shared _ _ _ Hv).
    destruct (negb (is_valid_cid cid)); [done|]. by destruct (negb _ && _).
  - unfold poll. destruct (drain_into_shared group (sync_admission group d1)),
      (drain_into_shared group (sync_admission group d2)). simpl in Hsdr. by subst.
  - unfold shared_files_page. cbv zeta. rewrite (sv_shared _ _ _ Hdr').
    by destruct (shared_files (drain_into_shared group d2).2 !! group).
  - unfold seed. by rewrite Hg.
  - rewrite !add_seed_run, Hg. destruct (map_err _ _); [|done].
    destruct (negb _); [done|]. rewrite Hs. cbv zeta.
    by destruct (add_peers _ _) as [[] ?].
Qed.
End view.

(** ** What a response carries *)

(** The size and content bounds of a response. *)
Definition response_bounded (r : Response.t) : Prop :=
  match r with
  | Response.Status _ _ files =>
      N.of_nat (length files) <= MAX_SHARED_FILES
      ∧ StronglySorted ord_le files ∧ ∀ c, c ∈ files → is_valid_cid c = true
  | Response.SharedFiles files _ total =>
      N.of_nat (length files) <= MAX_SHARED_FILES_PAGE ∧ total <= MAX_SHARED_FILES
      ∧ ∀ c, c ∈ files → is_valid_cid c = true
  | Response.Messages ms => ∀ m, m ∈ ms → is_valid_cid (MeshMessage.data m) = true
  | _ => True
  end.

Section bounded.
  Context {T : Type} `{!MeshTransport T, !MeshView T, !MeshTransportLaws T}.
  Context `{!Crypto, !StrDebug}.
  Implicit Types d : ClusterDaemon.t T.

Lemma drained_valid g d m :
  m ∈ (drain_into_shared g d).1 → is_valid_cid (MeshMessage.data m) = true.
Proof.
  unfold drain_into_shared. destruct (groups_f d !! g); [|set_solver].
  destruct (drain _) as [ms tr]. case_match; simpl;
    intros Hm; by apply list_elem_of_In, filter_In in Hm as [_ ?].
Qed.

Lemma respond_bounded {A} (m : M (ClusterDaemon.t T) A) ok d :
  (∀ a, response_bounded (ok a)) → response_bounded (respond m ok d).1.
Proof. intros Hok. unfold respond. destruct (m d) as [[]]; simpl; auto. Qed.

Lemma handle_bounded req d : daemon_inv d → response_bounded (handle_request req d).1.
Proof.
  intros Hd. destruct req; cbn [handle_request]; try apply respond_bounded; try done.
  - by destruct (devices group d).
  - pose proof (inv_drain group _ (inv_sync group _ Hd)) as Hd'. unfold status. cbv zeta.
    destruct (groups_f _ !! group) as [s|]; simpl; [|split_and!; [done|constructor|set_solver]].
    destruct (shared_files _ !! group) as [set|] eqn:E;
      [|split_and!; [done|constructor|set_solver]].
    apply (inv_shared _ Hd') in E as (_ & Hsize & Hcid). split_and!.
    + by rewrite length_set_iter.
    + apply set_iter_Sorted.
    + intros c. rewrite elem_of_set_iter. apply Hcid.
  - by destruct (peers group d).
  - pose proof (drained_valid group (sync_admission group d)) as Hm. unfold poll.
    destruct (drain_into_shared _ _). exact Hm.
  - pose proof (inv_drain group _ Hd) as Hd'. unfold shared_files_page. cbv zeta.
    destruct (shared_files _ !! group) as [set|] eqn:E; simpl;
      [|split_and!; [done|done|set_solver]].
    apply (inv_shared _ Hd') in E as (_ & Hsize & Hcid). split_and!; [|done|].
    + rewrite length_take. unfold MAX_SHARED_FILES_PAGE in *. lia.
    + intros c Hc. apply Hcid. rewrite <-elem_of_set_iter.
      eapply elem_of_submseteq; [exact Hc|].
      etrans; [apply sublist_submseteq, sublist_take|].
      apply sublist_submseteq, sublist_drop.
  - by destruct (seed group d) as [[]|].
Qed.
End bounded.

(** ** A daemon for examples *)

Module ExampleDaemon.

#[local] Instance crypto : Crypto := ExampleCrypto.crypto.
#[local] Instance debug : StrDebug := λ s, String "034" (s +:+ String "034" "").

Definition mk (_ : string) : result SetMesh.t string := Ok SetMesh.new.
Definition self : string := "00000000000000000000000000000000000000f0".
Definition cid : string := "QmYwAPJzv5CZsnA625s3Xf2nemtYgPpHdWEz79ojWnPbdG".

Definition link (m d w : string) : DeviceLinkWire.t :=
  {| DeviceLinkWire.member := m; DeviceLinkWire.device := d; DeviceLinkWire.wallet := w;
     DeviceLinkWire.index := 0; DeviceLinkWire.label := "box";
     DeviceLinkWire.issued_at := 1790000000;
     DeviceLinkWire.member_sig := ExampleCrypto.sign m;
     DeviceLinkWire.device_sig := ExampleCrypto.sign d;
     DeviceLinkWire.wallet_sig := ExampleCrypto.sign w |}.

Definition revocation (m d : string) : RevocationWire.t :=
  {| RevocationWire.member := m; RevocationWire.device := d;
     RevocationWire.revoked_at := 1790000100;
     RevocationWire.member_sig := ExampleCrypto.sign m |}.

(** A member on a device key, then the network connects, then the device is revoked. *)
Definition roster : list (string * string) :=
  [(ExampleVerifier.M1, "owner"); (ExampleVerifier.M2, "member")].

Definition setup : list (event SetMesh.t) :=
  [EvRequest (SetRoster "g" roster
     [link ExampleVerifier.M1 ExampleVerifier.D1 ExampleVerifier.W1] []);
   EvRequest (SetRoster "g" roster
     [link ExampleVerifier.M1 ExampleVerifier.D1 ExampleVerifier.W1]
     [revocation ExampleVerifier.M1 ExampleVerifier.D1])].

Definition later : list (event SetMesh.t) :=
  [EvRequest (Leave "g"); EvRequest (Join "g");
   EvRequest (SetRoster "g" roster
     [link ExampleVerifier.M1 ExampleVerifier.D1 ExampleVerifier.W1] [])].

Definition d0 : ClusterDaemon.t SetMesh.t := run_events setup (built self None mk).

(** The session of that group. *)
Definition s0 : ClusterSession.t SetMesh.t :=
  default (ClusterSession.new [] SetMesh.new) (groups_f d0 !! "g").

Lemma s0_eq : groups_f d0 !! "g" = Some s0.
Proof. vm_compute. reflexivity. Qed.

Lemma mk_fresh g t : mk g = Ok t → authorized t = ∅.
Proof. by intros [= <-]. Qed.

Lemma setup_ok : Forall event_ok setup.
Proof. repeat constructor. Qed.

Lemma later_ok : Forall event_ok later.
Proof. repeat constructor. Qed.

End ExampleDaemon.

(** ** Theorems *)

(** C4: The gate: whatever requests arrive and whatever the network and the transport factory
    do, in every group the addresses the transport lets in and the peers counted as
    admitted are all allowed, the runtime check agrees, and the allowed set is exactly the
    role-gated effective roster of the last accepted [SetRoster], or empty before one. *)
Theorem daemon_gate_holds {T} `{MeshTransportLaws T, !Crypto, !StrDebug}
    (address : string) (pinned : option string) (mk : string → result T string)
    (es : list (event T)) (g : string) (s : ClusterSession.t T) :
  (∀ g t, mk g = Ok t → authorized t = ∅) → Forall event_ok es →
  let d := run_events es (built address pinned mk) in
  groups_f d !! g = Some s →
  authorized (ClusterSession.transport s) ⊆ allowed_f (ClusterSession.membership s)
  ∧ admitted_f (ClusterSession.membership s) ⊆ allowed_f (ClusterSession.membership s)
  ∧ invariant_holds (ClusterSession.membership s) = true
  ∧ (allowed_f (ClusterSession.membership s) = ∅
     ∨ ∃ st, device_state d !! g = Some st ∧ allowed_f (ClusterSession.membership s)
         = allowed_set (effective_roster (GroupDevices.roster st) (GroupDevices.registry st))).
Proof.
  intros Hmk Hes d Hs. pose proof (inv_reachable address pinned mk es Hmk Hes) as Hd.
  apply (inv_session _ Hd) in Hs as (Hau & Had & Hal).
  split_and!; [done|done|by apply invariant_holds_spec|].
  destruct Hal as [Hal|(gd & ? & ?)]; [by left|right; by exists gd].
Qed.

Lemma daemon_gate_holds_witness :
  ∃ s, groups_f ExampleDaemon.d0 !! "g" = Some s
    ∧ authorized (ClusterSession.transport s) ⊆ allowed_f (ClusterSession.membership s).
Proof.
  exists ExampleDaemon.s0. split; [exact ExampleDaemon.s0_eq|].
  exact (proj1 (daemon_gate_holds (H0:=ExampleCrypto.crypto) (H1:=ExampleDaemon.debug)
      ExampleDaemon.self None ExampleDaemon.mk ExampleDaemon.setup "g" ExampleDaemon.s0
      ExampleDaemon.mk_fresh ExampleDaemon.setup_ok ExampleDaemon.s0_eq)).
Defined.

(** C12: An accepted [SetRoster] takes effect in that one request, on a transport with a mesh:
    the group's allowed set becomes the effective roster of the new roster and the updated
    registry, the transport lets in exactly that set, and the evicted list is exactly the
    peers that were admitted and are no longer allowed. A refused one changes nothing. *)
Theorem set_roster_takes_effect {T} `{MeshTransportLaws T, !MeshAuthorizes T, !Crypto, !StrDebug}
    (address : string) (pinned : option string) (mk : string → result T string)
    (es : list (event T)) (g : string) (roster : list (string * string))
    (links : list DeviceLinkWire.t) (revs : list RevocationWire.t) :
  (∀ g t, mk g = Ok t → authorized t = ∅) → Forall event_ok es →
  let d := run_events es (built address pinned mk) in
  let admitted_before :=
    match groups_f d !! g with
    | Some s => admitted_f (ClusterSession.membership s) | None => ∅ end in
  match set_roster_with_devices g roster links revs d with
  | (Err _, d') => d' = d
  | (Ok (evicted, rejected), d') =>
      ∃ s' st', groups_f d' !! g = Some s' ∧ device_state d' !! g = Some st'
      ∧ GroupDevices.roster st' = roster
      ∧ (map describe_rejection (updated_state g roster links revs d).1, st')
        = (rejected, (updated_state g roster links revs d).2)
      ∧ allowed_f (ClusterSession.membership s')
        = allowed_set (effective_roster roster (GroupDevices.registry st'))
      ∧ authorized (ClusterSession.transport s') = allowed_f (ClusterSession.membership s')
      ∧ ∀ a, a ∈ evicted ↔ a ∈ admitted_before ∧ a ∉ allowed_f (ClusterSession.membership s')
  end.
Proof.
  intros Hmk Hes d. cbv zeta. pose proof (inv_reachable address pinned mk es Hmk Hes) as Hd.
  change (daemon_inv d) in Hd. rewrite set_roster_run.
  destruct (ensure_group_allowed g d) as [[]|] eqn:Eg; [|done].
  destruct (ensure_session g d) as [[s|e] d'] eqn:E; [|by apply ensure_session_Err in E].
  pose proof (inv_ensure _ _ _ _ Hd Eg E) as Hd'.
  pose proof (ensure_session_devices _ _ _ _ E) as Hdev.
  assert (admitted_f (ClusterSession.membership s) = match groups_f d !! g with
    | Some s => admitted_f (ClusterSession.membership s) | None => ∅ end) as Hadm.
  { apply ensure_session_Ok in E as [Hs [->|(-> & _ & _ & t & _ & -> & _)]]; [by rewrite Hs|].
    done. }
  apply ensure_session_Ok in E as [Hs _]. rewrite <-Hadm.
  assert (updated_state g roster links revs d' = updated_state g roster links revs d) as ->
    by (unfold updated_state; by rewrite Hdev).
  destruct (updated_state g roster links revs d) as [rj st] eqn:Eu.
  assert (GroupDevices.roster st = roster) as Hros
    by (unfold updated_state in Eu; by injection Eu as _ <-).
  cbv zeta. exists (reconciled (effective_roster roster (GroupDevices.registry st)) s), st.
  split_and!; [by simpl; rewrite lookup_insert_eq..|done|done|done| |].
  - rewrite reconciled_allowed.
    by apply (reconciled_authorized_eq (device_state d' !! g)), (inv_session _ Hd').
  - intros a. apply elem_of_evicted.
Qed.

Lemma set_roster_takes_effect_witness :
  match set_roster_with_devices (H:=ExampleCrypto.crypto) (H0:=ExampleDaemon.debug)
          "g" [(ExampleVerifier.M2, "guest")] [] []
          (run_events (H:=ExampleCrypto.crypto) (H0:=ExampleDaemon.debug)
             ExampleDaemon.setup (built ExampleDaemon.self None ExampleDaemon.mk)) with
  | (Err _, d') => False
  | (Ok _, d') => ∃ s', groups_f d' !! "g" = Some s'
      ∧ authorized (ClusterSession.transport s') = allowed_f (ClusterSession.membership s')
  end.
Proof.
  pose proof (set_roster_takes_effect (H0:=ExampleCrypto.crypto)
    (H1:=ExampleDaemon.debug) ExampleDaemon.self None ExampleDaemon.mk
    ExampleDaemon.setup "g" [(ExampleVerifier.M2, "guest")] [] []
    ExampleDaemon.mk_fresh ExampleDaemon.setup_ok) as Hw.
  cbv zeta in Hw. destruct (set_roster_with_devices _ _ _ _ _) as [[[ev rj]|e] d'] eqn:E.
  - destruct Hw as (s' & st' & Hs & _ & _ & _ & _ & Hau & _). exists s'. exact (conj Hs Hau).
  - apply (f_equal (λ r, is_ok r.1)) in E. vm_compute in E. discriminate E.
Defined.

(** C29: Groups are isolated: a request, connection event or network step of one group leaves
    every other group's session, shared set, roster and registry as they were, and every
    request about another group that has a session is answered as if it had not happened. *)
Theorem group_isolation {T} `{!MeshTransport T, !Crypto, !StrDebug} (e : event T)
    (req : Request) (d : ClusterDaemon.t T) (g : string) :
  event_group e = Some g → request_group req ≠ g →
  is_Some (groups_f d !! request_group req) →
  let g' := request_group req in
  let d' := run_event e d in
  groups_f d' !! g' = groups_f d !! g' ∧ shared_files d' !! g' = shared_files d !! g'
  ∧ device_state d' !! g' = device_state d !! g'
  ∧ (handle_request req d').1 = (handle_request req d).1.
Proof.
  intros He Hne Hs. cbv zeta. pose proof (frame_event e g d He) as Hf.
  pose proof (frame_same_view _ _ _ _ Hf Hne) as Hv.
  split_and!; [apply Hf; done..|]. by apply same_view_response.
Qed.

Lemma group_isolation_witness :
  (handle_request (H:=ExampleCrypto.crypto) (H0:=ExampleDaemon.debug) (Peers "g")
     (run_event (H:=ExampleCrypto.crypto) (H0:=ExampleDaemon.debug)
        (EvRequest (Join "h")) ExampleDaemon.d0)).1
  = (handle_request (H:=ExampleCrypto.crypto) (H0:=ExampleDaemon.debug) (Peers "g")
       ExampleDaemon.d0).1.
Proof.
  apply (group_isolation (H:=ExampleCrypto.crypto) (H0:=ExampleDaemon.debug)
    (EvRequest (Join "h")) (Peers "g") ExampleDaemon.d0 "h").
  - reflexivity.
  - intros Heq. discriminate Heq.
  - apply (bool_decide_eq_true_1 _). vm_compute. reflexivity.
Defined.

(** C37: The bounds hold whatever happens: at most [MAX_GROUPS] groups, none with a blank id or
    outside the pin; at most [MAX_SHARED_FILES] co-pinned files a group, all of them
    well-formed CIDs, kept only for a joined group; and every response is bounded, its
    page no longer than [MAX_SHARED_FILES_PAGE] and its CIDs well formed. *)
Theorem daemon_bounds {T} `{MeshTransportLaws T, !Crypto, !StrDebug}
    (address : string) (pinned : option string) (mk : string → result T string)
    (es : list (event T)) (req : Request) :
  (∀ g t, mk g = Ok t → authorized t = ∅) → Forall event_ok es →
  let d := run_events es (built address pinned mk) in
  N.of_nat (size (groups_f d)) <= MAX_GROUPS
  ∧ (∀ g s, groups_f d !! g = Some s →
       str_is_empty (trim g) = false ∧ (∀ g0, pinned = Some g0 → g = g0))
  ∧ (∀ g set, shared_files d !! g = Some set →
       is_Some (groups_f d !! g) ∧ N.of_nat (size set) <= MAX_SHARED_FILES
       ∧ ∀ c, c ∈ set → is_valid_cid c = true)
  ∧ response_bounded (handle_request req d).1.
Proof.
  intros Hmk Hes. cbv zeta. pose proof (inv_reachable address pinned mk es Hmk Hes) as Hd.
  split_and!; [apply Hd| |apply Hd|by apply handle_bounded].
  intros g s Hg. apply (inv_group _ Hd) in Hg as [Ht Hal]. split; [done|].
  intros g0 ->. revert Hal. unfold ensure_group_allowed. rewrite run_events_single. simpl.
  by case_bool_decide.
Qed.

Lemma daemon_bounds_witness :
  response_bounded (handle_request (H:=ExampleCrypto.crypto) (H0:=ExampleDaemon.debug)
    (SharedFiles "g" 0 None) ExampleDaemon.d0).1.
Proof.
  exact (proj2 (proj2 (proj2 (daemon_bounds (H0:=ExampleCrypto.crypto)
    (H1:=ExampleDaemon.debug) ExampleDaemon.self None ExampleDaemon.mk ExampleDaemon.setup
    (SharedFiles "g" 0 None) ExampleDaemon.mk_fresh ExampleDaemon.setup_ok)))).
Defined.

(** C13: A revocation is for good: once a member's revocation of a device is in a group's
    registry, whatever follows (leaving and rejoining the group included) it stays there;
    and while the group has a session, the transport lets in neither the member's comms
    identity, if it is on the roster, nor the device, unless its key is on the roster
    itself or another member links it. *)
Theorem revocation_is_permanent {T} `{MeshTransportLaws T, !Crypto, !StrDebug}
    (address : string) (pinned : option string) (mk : string → result T string)
    (es1 es2 : list (event T)) (g m dev : string) (st1 : GroupDevices.t) :
  (∀ g t, mk g = Ok t → authorized t = ∅) → Forall event_ok (es1 ++ es2) →
  let d1 := run_events es1 (built address pinned mk) in
  let d2 := run_events es2 d1 in
  device_state d1 !! g = Some st1 →
  (m, dev) ∈ DeviceRegistry.revoked_f (GroupDevices.registry st1) →
  ∃ st2, device_state d2 !! g = Some st2
  ∧ (m, dev) ∈ DeviceRegistry.revoked_f (GroupDevices.registry st2)
  ∧ ∀ s, groups_f d2 !! g = Some s →
      (on_roster (GroupDevices.roster st2) m → m ∉ authorized (ClusterSession.transport s))
      ∧ (dev ∈ authorized (ClusterSession.transport s) →
         on_roster (GroupDevices.roster st2) dev
         ∨ ∃ l, DeviceRegistry.links_f (GroupDevices.registry st2) !! dev = Some l
             ∧ DeviceLink.member l ≠ m).
Proof.
  intros Hmk [He1 He2]%Forall_app. cbv zeta. intros Hst Hr.
  pose proof (inv_reachable address pinned mk es1 Hmk He1) as Hd1.
  destruct (events_revoked es2 _ g st1 m dev Hst Hr) as (st2 & Hst2 & Hr2).
  assert (daemon_inv (run_events es2 (run_events es1 (built address pinned mk)))) as Hd2
    by by apply inv_events.
  exists st2. split_and!; [done..|].
  intros s Hs. apply session_revoked; [by apply (inv_registry _ Hd2 g)| |done].
  apply (inv_session _ Hd2) in Hs. by rewrite Hst2 in Hs.
Qed.

Lemma revocation_is_permanent_witness :
  ∃ st2, device_state (run_events (H:=ExampleCrypto.crypto) (H0:=ExampleDaemon.debug)
           ExampleDaemon.later ExampleDaemon.d0) !! "g" = Some st2
    ∧ (ExampleVerifier.M1, ExampleVerifier.D1)
        ∈ DeviceRegistry.revoked_f (GroupDevices.registry st2).
Proof.
  edestruct (revocation_is_permanent (H0:=ExampleCrypto.crypto) (H1:=ExampleDaemon.debug)
    ExampleDaemon.self None ExampleDaemon.mk ExampleDaemon.setup ExampleDaemon.later "g"
    ExampleVerifier.M1 ExampleVerifier.D1
    (default GroupDevices.default (device_state ExampleDaemon.d0 !! "g")))
    as (st2 & Hst2 & Hr & _).
  - exact ExampleDaemon.mk_fresh.
  - apply Forall_app. exact (conj ExampleDaemon.setup_ok ExampleDaemon.later_ok).
  - vm_compute. reflexivity.
  - apply (bool_decide_eq_true_1 _). vm_compute. reflexivity.
  - exists st2. exact (conj Hst2 Hr).
Defined.

(** C38: A refused request changes nothing that matters: when [SetRoster], [Join], [ShareFile]
    or [Seed] answers with an error, no session, no transport and no device state of any
    group has changed, and no shared set has gained or lost a file. *)
Theorem refused_requests_change_nothing {T} `{!MeshTransport T, !Crypto, !StrDebug}
    (req : Request) (d : ClusterDaemon.t T) (msg : string) :
  (∀ g s, req ≠ AddSeed g s) →
  (handle_request req d).1 = Response.Error msg →
  let d' := (handle_request req d).2 in
  groups_f d' = groups_f d ∧ device_state d' = device_state d
  ∧ ∀ g, default ∅ (shared_files d' !! g) = default ∅ (shared_files d !! g).
Proof.
  intros Hreq. destruct req as [g roster links revs|g|g|g|g|g|g cid|g|g o l|g|g text];
    cbn [handle_request]; unfold respond.
  - rewrite set_roster_run. destruct (ensure_group_allowed g d); [|done].
    destruct (ensure_session g d) as [[s|e] d'] eqn:E; [done|].
    by apply ensure_session_Err in E as ->.
  - by destruct (devices g d).
  - rewrite join_run. destruct (ensure_group_allowed g d); [|done].
    destruct (ensure_session g d) as [[s|e] d'] eqn:E; [done|].
    by apply ensure_session_Err in E as ->.
  - done.
  - by destruct (status g d) as [[[]]].
  - by destruct (peers g d).
  - unfold share_file. destruct (groups_f d !! g); [|done].
    destruct (negb (is_valid_cid cid)); [done|].
    destruct (negb _ && _); [|done]. intros _. cbv zeta. split_and!; [done..|].
    intros g'. simpl. destruct (decide (g = g')) as [<-|].
    + by rewrite lookup_insert_eq.
    + by rewrite lookup_insert_ne.
  - by destruct (poll g d).
  - by destruct (shared_files_page g o _ d) as [[]].
  - done.
  - by destruct (Hreq g text).
Qed.

Lemma refused_requests_change_nothing_witness :
  groups_f (handle_request (H:=ExampleCrypto.crypto) (H0:=ExampleDaemon.debug)
    (ShareFile "g" "not a cid") ExampleDaemon.d0).2 = groups_f ExampleDaemon.d0.
Proof.
  apply (refused_requests_change_nothing (H:=ExampleCrypto.crypto) (H0:=ExampleDaemon.debug)
    (ShareFile "g" "not a cid") ExampleDaemon.d0 "not a well-formed CID").
  - intros g s Heq. discriminate Heq.
  - vm_compute. reflexivity.
Defined.

(** A daemon pinned to a group serves only it: every [SetRoster] and [Join] of another
    group, and every connecting peer of one, is refused and changes nothing. *)
Theorem pinned_daemon_serves_one_group {T} `{!MeshTransport T, !Crypto, !StrDebug}
    (d : ClusterDaemon.t T) (g0 g : string) :
  single_group d = Some g0 → g ≠ g0 →
  (∀ roster links revs, ∃ e,
     handle_request (SetRoster g roster links revs) d = (Response.Error e, d))
  ∧ (∃ e, handle_request (Join g) d = (Response.Error e, d))
  ∧ (∀ address role, admit_peer g address role d = (false, d)).
Proof.
  intros Hp Hne.
  assert (∃ e, ensure_group_allowed g d = Err e) as [e He].
  { unfold ensure_group_allowed. rewrite Hp, bool_decide_eq_false_2 by done. eauto. }
  split_and!.
  - intros. exists e. cbn [handle_request]. unfold respond. by rewrite set_roster_run, He.
  - exists e. cbn [handle_request]. unfold respond. by rewrite join_run, He.
  - intros. unfold admit_peer. by rewrite He.
Qed.

Lemma pinned_daemon_serves_one_group_witness :
  admit_peer (H0:=ExampleDaemon.debug) "h" ExampleVerifier.M1 "owner"
    (built ExampleDaemon.self (Some "g") ExampleDaemon.mk)
  = (false, built ExampleDaemon.self (Some "g") ExampleDaemon.mk).
Proof.
  apply (pinned_daemon_serves_one_group (H:=ExampleCrypto.crypto) (H0:=ExampleDaemon.debug)
    (built ExampleDaemon.self (Some "g") ExampleDaemon.mk) "g" "h").
  - reflexivity.
  - intros Heq. discriminate Heq.
Defined.

(** ** The transport authorises exactly the allowed set *)

Section synced.
  Context {T : Type} `{!MeshTransport T, !MeshView T, !MeshTransportLaws T}.
  Context `{!MeshAuthorizes T, !Crypto, !StrDebug}.
  Implicit Types (d : ClusterDaemon.t T) (s : ClusterSession.t T).

(** What clients and the network do; the connection hooks, which only tests call, are left
    out. *)
Definition no_hook (e : event T) : Prop :=
  match e with EvAdmit _ _ _ | EvDrop _ _ => False | _ => True end.

Definition in_step s : Prop :=
  authorized (ClusterSession.transport s) = allowed_f (ClusterSession.membership s).

Definition synced d : Prop := ∀ g s, groups_f d !! g = Some s → in_step s.

Lemma synced_put g s d : synced d → in_step s → synced (put_session g s d).
Proof.
  intros Hd Hs g' s'. simpl. destruct (decide (g = g')) as [<-|Hne].
  - rewrite lookup_insert_eq. by intros [= <-].
  - rewrite lookup_insert_ne by done. apply Hd.
Qed.

Lemma synced_transport g f d s :
  synced d → groups_f d !! g = Some s →
  (∀ t, authorized (f t) = authorized t) →
  synced (put_session g (ClusterSession.transport_mut f s) d).
Proof. intros Hd Hs Hf. apply synced_put; [done|]. unfold in_step. simpl. rewrite Hf. by eapply Hd. Qed.

Lemma synced_ensure g d r d' :
  daemon_inv d → synced d → ensure_session g d = (r, d') → synced d'.
Proof.
  intros Hi Hd. destruct r as [s|e]; [|by intros ->%ensure_session_Err].
  intros [_ [->|(_ & _ & _ & t & Ht & -> & ->)]]%ensure_session_Ok; [done|].
  apply synced_put; [done|]. unfold in_step. simpl. by rewrite (inv_factory _ Hi _ _ Ht).
Qed.

Lemma synced_sync g d : synced d → synced (sync_admission g d).
Proof.
  intros Hd. unfold sync_admission. destruct (groups_f d !! g) as [s|] eqn:E; [|done].
  apply synced_put; [done|]. exact (Hd _ _ E).
Qed.

Lemma synced_drain g d : synced d → synced (drain_into_shared g d).2.
Proof.
  intros Hd. unfold drain_into_shared. destruct (groups_f d !! g) as [s|] eqn:E; [|done].
  pose proof (authorized_drain (ClusterSession.transport s)) as Ht.
  destruct (drain _) as [ms tr]. simpl in Ht.
  assert (synced (put_session g (ClusterSession.transport_mut (λ _, tr) s) d)) as Hd'.
  { apply synced_put; [done|]. unfold in_step. simpl. rewrite Ht. exact (Hd _ _ E). }
  case_match; exact Hd'.
Qed.

Lemma synced_set_roster g roster links revs d :
  daemon_inv d → synced d → synced (set_roster_with_devices g roster links revs d).2.
Proof.
  intros Hi Hd. rewrite set_roster_run. destruct (ensure_group_allowed g d) as [[]|] eqn:Eg; [|done].
  destruct (ensure_session g d) as [[s|e] d'] eqn:E; pose proof (synced_ensure _ _ _ _ Hi Hd E);
    [|done].
  pose proof (inv_ensure _ _ _ _ Hi Eg E) as Hi'. apply ensure_session_Ok in E as [Hs _].
  destruct (updated_state g roster links revs d') as [rj st]. cbn [snd].
  apply (synced_put g _ (set_devices <[g := st]> d')); [done|].
  unfold in_step. rewrite reconciled_allowed.
  by apply (reconciled_authorized_eq (device_state d' !! g)), (inv_session _ Hi').
Qed.

Lemma synced_request req d : daemon_inv d → synced d → synced (handle_request req d).2.
Proof.
  intros Hi Hd. rewrite handle_request_state.
  destruct req as [g roster links revs|g|g|g|g|g|g cid|g|g o l|g|g text];
    auto using synced_set_roster, synced_sync, synced_drain.
  - rewrite join_run. destruct (ensure_group_allowed g d); [|done].
    by destruct (ensure_session g d) as [[] ?] eqn:E; eapply synced_ensure in E.
  - intros g' s. simpl. rewrite lookup_delete_Some. intros [_ Hs]. exact (Hd _ _ Hs).
  - unfold share_file. destruct (groups_f d !! g) as [s|] eqn:E; [|done].
    destruct (negb (is_valid_cid cid)); [done|]. case_match; [exact Hd|]. cbn [snd].
    apply (synced_transport g (publish (self_address d) cid) d s Hd E).
    intros t. apply authorized_publish.
  - rewrite add_seed_run. destruct (map_err _ _) as [sd|]; [|done].
    destruct (negb _); [done|]. destruct (groups_f d !! g) as [s|] eqn:E; [|done].
    apply synced_put; [done|]. unfold in_step. simpl. rewrite authorized_add_peers.
    exact (Hd _ _ E).
Qed.

Lemma synced_event e d :
  event_ok e → no_hook e → daemon_inv d → synced d → synced (run_event e d).
Proof.
  intros He Hn Hi Hd. destruct e as [req| | |g f|f]; try done; [by apply synced_request|].
  intros g' s. simpl. destruct (decide (g = g')) as [<-|Hne].
  - rewrite lookup_alter_eq. destruct (groups_f d !! g) as [s0|] eqn:E; [|done].
    intros [= <-]. unfold in_step. simpl. rewrite (authorized_env _ _ (He _)). exact (Hd _ _ E).
  - rewrite lookup_alter_ne by done. apply Hd.
Qed.

Lemma synced_events es d :
  Forall event_ok es → Forall no_hook es → daemon_inv d → synced d → synced (run_events es d).
Proof.
  unfold run_events. intros He. revert d. induction He as [|e es He Hes IH]; intros d Hn Hi Hd;
    [done|]. apply Forall_cons in Hn as [Hn1 Hn]. simpl.
  apply IH; [done|by apply inv_event|by apply synced_event].
Qed.

(** C5: On a transport with a mesh, and whatever clients ask and the network does, the set the
    transport lets in is at every moment exactly the set the group allows: nobody is let in
    that is not allowed, and nobody allowed is kept out ([AuthorizedIsAllowed] of
    [formal/ClusterWireAdmission.tla]). *)
Theorem authorized_is_allowed (address : string) (pinned : option string)
    (mk : string → result T string) (es : list (event T)) (g : string) s :
  (∀ g t, mk g = Ok t → authorized t = ∅) → Forall event_ok es → Forall no_hook es →
  let d := run_events es (built address pinned mk) in
  groups_f d !! g = Some s →
  authorized (ClusterSession.transport s) = allowed_f (ClusterSession.membership s)
  ∧ (allowed_f (ClusterSession.membership s) = ∅ ∨ ∃ st, device_state d !! g = Some st
     ∧ authorized (ClusterSession.transport s)
       = allowed_set (effective_roster (GroupDevices.roster st) (GroupDevices.registry st))).
Proof.
  intros Hmk He Hn d Hs. pose proof (inv_reachable address pinned mk es Hmk He) as Hi.
  assert (in_step s) as Hin.
  { eapply synced_events; [exact He|exact Hn|by apply inv_built| |exact Hs].
    intros g' s'. destruct pinned; simpl; by rewrite lookup_empty. }
  split; [exact Hin|]. rewrite Hin. apply (inv_session _ Hi _ _ Hs).
Qed.

End synced.

Lemma authorized_is_allowed_witness :
  authorized (ClusterSession.transport ExampleDaemon.s0)
  = allowed_f (ClusterSession.membership ExampleDaemon.s0).
Proof.
  refine (proj1 (authorized_is_allowed (H:=ExampleCrypto.crypto) (H0:=ExampleDaemon.debug)
    ExampleDaemon.self None ExampleDaemon.mk ExampleDaemon.setup "g" ExampleDaemon.s0
    ExampleDaemon.mk_fresh ExampleDaemon.setup_ok _ ExampleDaemon.s0_eq)).
  repeat constructor.
Defined.
