(* ===== verification/DeviceLinkSpec.v ===== *)
(** * The device-link gate against its TLA+ specification (formal/DeviceLink.tla)

    The abstract machine of the repository's device-key model, with revocations kept per
    member as the registry keeps them, and the daemon, over any transport, as a refinement
    of it. A device is its key's address, so [key], [MintKey] and [DistinctPeerIds] have no
    counterpart; [revokeLog] is [revoked_by]. *)

From S2P Require Import Prelude RustStr Admission Membership Session Device Registry.
From S2P Require Import EffectiveRoster Transport DeviceWire Daemon Ipc DaemonInv DaemonSafety.
Import ClusterMembership ClusterDaemon.
Local Open Scope N_scope.

(** ** The specification *)

Module DeviceLinkMachine.

(** [allowed], [links] and [revokedBy] of the module: what the gate decides on. Pairs are
    member first, as in the registry. *)
Record gate := mkGate {
  allowed : gset string;
  links : gset (string * string);
  revoked_by : gset (string * string);
}.

(** [admitted] and [legacy]: the devices meshed, and the members meshed under their comms
    identity. *)
Record state := mk {
  the_gate : gate;
  admitted : gset string;
  legacy : gset string;
}.

Definition init : state := mk (mkGate ∅ ∅ ∅) ∅ ∅.

(** [AllowedDevices], [OnDeviceKeys] and [LegacyAllowed]. *)
Definition allowed_device (g : gate) (d : string) : Prop :=
  set_Exists (λ m, (m, d) ∈ links g ∧ (m, d) ∉ revoked_by g) (allowed g).

Definition on_device_keys (g : gate) (m : string) : Prop :=
  set_Exists (λ e, e.1 = m) (links g ∪ revoked_by g).

Definition legacy_allowed (g : gate) (m : string) : Prop :=
  m ∈ allowed g ∧ ¬ on_device_keys g m.

Global Instance allowed_device_dec g d : Decision (allowed_device g d).
Proof. unfold allowed_device. apply _. Defined.
Global Instance legacy_allowed_dec g m : Decision (legacy_allowed g m).
Proof. unfold legacy_allowed, on_device_keys. apply _. Defined.

(** The connections that come and go. *)
Inductive move : state → state → Prop :=
| Admit d g ad le : allowed_device g d → d ∉ ad → move (mk g ad le) (mk g ({[d]} ∪ ad) le)
| Leave d g ad le : d ∈ ad → move (mk g ad le) (mk g (ad ∖ {[d]}) le)
| LegacyAdmit m g ad le : legacy_allowed g m → m ∉ le → move (mk g ad le) (mk g ad ({[m]} ∪ le))
| LegacyLeave m g ad le : m ∈ le → move (mk g ad le) (mk g ad (le ∖ {[m]})).

Inductive step : state → state → Prop :=
| Move st st' : move st st' → step st st'
| IssueLink d m al li rb ad le :
    (m, d) ∉ rb → (∀ m', (m', d) ∈ li → m' = m) →
    step (mk (mkGate al li rb) ad le) (mk (mkGate al ({[(m, d)]} ∪ li) rb) ad (le ∖ {[m]}))
| Revoke d m al li rb ad le :
    step (mk (mkGate al li rb) ad le)
      (mk (mkGate al li ({[(m, d)]} ∪ rb))
         (if decide ((m, d) ∈ li) then ad ∖ {[d]} else ad) (le ∖ {[m]}))
| Reconcile na al li rb ad le :
    step (mk (mkGate al li rb) ad le)
      (mk (mkGate na li rb) (filter (λ d, set_Exists (λ m, (m, d) ∈ li) na) ad) (le ∩ na))
| DropLink d m al li rb ad le :
    (m, d) ∈ li →
    step (mk (mkGate al li rb) ad le)
      (mk (mkGate al (filter (λ e, e.2 ≠ d) li) rb) (ad ∖ {[d]}) le).

(** [NoActWithoutLink] with [RevokedDeviceEvicted] (a device acts under a link that its member
    has not revoked), [OneMemberPerDevice], and [LegacySubsetAllowed] with
    [LegacyOnlyWithoutDevices] and [RevokedMachineNotBackAsMember]. *)
Definition safe (st : state) : Prop :=
  (∀ d, d ∈ admitted st → allowed_device (the_gate st) d)
  ∧ (∀ m m' d, (m, d) ∈ links (the_gate st) → (m', d) ∈ links (the_gate st) → m = m')
  ∧ (∀ m, m ∈ legacy st → legacy_allowed (the_gate st) m).

Lemma move_safe st st' : safe st → move st st' → safe st'.
Proof.
  intros (Ha & Ho & Hl) Hm.
  destruct Hm; split_and!; simpl in *; try done; intros x; rewrite ?elem_of_union,
    ?elem_of_difference, ?elem_of_singleton; naive_solver.
Qed.

Lemma any_step_safe st st' : safe st → step st st' → safe st'.
Proof.
  intros Hs Hst. destruct Hst as [st st' Hm|d m al li rb ad le Hr Ho|d m al li rb ad le
    |na al li rb ad le|d m al li rb ad le Hd]; [by eapply move_safe|..];
    destruct Hs as (Ha & Hone & Hl); unfold safe, allowed_device, legacy_allowed,
    on_device_keys in *; simpl in *; split_and!.
  - intros x (m' & ? & ? & ?)%Ha. exists m'. set_solver.
  - intros m1 m2 x. rewrite !elem_of_union, !elem_of_singleton.
    intros [[= -> ->]|H1] [[= ->]|H2]; naive_solver.
  - intros x [[Hx Hn]%Hl Hne]%elem_of_difference. split; [done|].
    intros ([m' d'] & Hin & Hm). apply Hn. exists (m', d'). set_solver.
  - intros x Hx. case_decide as Hin.
    + apply elem_of_difference in Hx as [(m' & ? & ? & ?)%Ha Hne]. exists m'.
      split_and!; [done..|]. rewrite elem_of_union, elem_of_singleton. set_solver.
    + apply Ha in Hx as (m' & ? & ? & ?). exists m'. split_and!; [done..|].
      rewrite elem_of_union, elem_of_singleton. intros [[= <- <-]|]; done.
  - done.
  - intros x [[Hx Hn]%Hl Hne]%elem_of_difference. split; [done|].
    intros ([m' d'] & Hin & Hm). apply Hn. exists (m', d'). set_solver.
  - intros x [(m & Hm & Hin) (m' & Hm' & Hin' & Hr)%Ha]%elem_of_filter.
    assert (m = m') as <- by eauto. by exists m.
  - done.
  - intros x [[Hx Hn]%Hl ?]%elem_of_intersection. done.
  - intros x [(m' & Hm & Hin & Hr)%Ha Hne]%elem_of_difference. exists m'.
    rewrite elem_of_filter. set_solver.
  - intros m1 m2 x. rewrite !elem_of_filter. intros [_ H1] [_ H2]. eauto.
  - intros x [Hx Hn]%Hl. split; [done|]. intros (e & Hin & Hm). apply Hn. exists e.
    split; [|done]. rewrite elem_of_union, elem_of_filter in Hin. set_solver.
Qed.

Lemma run_safe st : rtc step init st → safe st.
Proof.
  assert (safe init) as Hinit by (unfold safe, init; simpl; set_solver).
  revert Hinit. generalize init. induction 2; eauto using any_step_safe.
Qed.

(** *** Runs *)

Lemma moves_run st st' : rtc move st st' → rtc step st st'.
Proof. induction 1; [done|]. eapply rtc_l; [by apply Move|done]. Qed.

Lemma leave_everyone g ad le : rtc move (mk g ad le) (mk g ∅ ∅).
Proof.
  trans (mk g ∅ le).
  - induction ad as [|d ad Hd IH] using set_ind_L; [done|].
    eapply rtc_l; [apply (Leave d); set_solver|].
    by replace (({[d]} ∪ ad) ∖ {[d]}) with ad by set_solver.
  - induction le as [|m le Hm IH] using set_ind_L; [done|].
    eapply rtc_l; [apply (LegacyLeave m); set_solver|].
    by replace (({[m]} ∪ le) ∖ {[m]}) with le by set_solver.
Qed.

Lemma admit_all g ad le :
  set_Forall (allowed_device g) ad → set_Forall (legacy_allowed g) le →
  rtc move (mk g ∅ ∅) (mk g ad le).
Proof.
  intros Ha Hl. trans (mk g ad ∅).
  - clear Hl. induction ad as [|d ad Hd IH] using set_ind_L; [done|].
    eapply rtc_r; [apply IH|apply Admit; [apply Ha|done]]; set_solver.
  - induction le as [|m le Hm IH] using set_ind_L; [done|].
    eapply rtc_r; [apply IH|apply LegacyAdmit; [apply Hl|done]]; set_solver.
Qed.

(** Under one gate the meshed come and go freely, within what the gate allows. *)
Lemma moves_within g ad le ad' le' :
  set_Forall (allowed_device g) ad' → set_Forall (legacy_allowed g) le' →
  rtc move (mk g ad le) (mk g ad' le').
Proof. intros. etrans; [apply leave_everyone|by apply admit_all]. Qed.

(** A roster update under the gate [g]: whoever is meshed and still allowed stays, as what the
    new gate takes it for. *)
Definition regate (g : gate) (st : state) : state :=
  mk g (filter (allowed_device g) (admitted st ∪ legacy st))
       (filter (legacy_allowed g) (admitted st ∪ legacy st)).

Lemma drop_links al li rb : rtc step (mk (mkGate al li rb) ∅ ∅) (mk (mkGate al ∅ rb) ∅ ∅).
Proof.
  induction li as [li IH] using (induction_ltof1 _ (λ li : gset (string * string), size li)).
  destruct (decide (li = ∅)) as [->|([m d] & Hin)%set_choose_L]; [done|].
  eapply rtc_l; [by apply (DropLink d m)|].
  replace (∅ ∖ {[d]}) with (∅ : gset string) by set_solver. apply IH.
  unfold ltof. apply subset_size. split; [set_solver|]. intros Hsub. apply Hsub in Hin.
  by apply elem_of_filter in Hin as [[] _].
Qed.

Lemma revoke_all al rb rb' :
  rtc step (mk (mkGate al ∅ rb) ∅ ∅) (mk (mkGate al ∅ (rb' ∪ rb)) ∅ ∅).
Proof.
  induction rb' as [|[m d] rb' Hin IH] using set_ind_L;
    [by replace (∅ ∪ rb) with rb by set_solver|].
  eapply rtc_r; [apply IH|]. replace (({[(m, d)]} ∪ rb') ∪ rb) with ({[(m, d)]} ∪ (rb' ∪ rb))
    by set_solver.
  pose proof (Revoke d m al ∅ (rb' ∪ rb) ∅ ∅) as Hr. rewrite decide_False in Hr by set_solver.
  by replace (∅ ∖ {[m]}) with (∅ : gset string) in Hr by set_solver.
Qed.

Lemma issue_all al li rb :
  li ## rb → (∀ m m' d, (m, d) ∈ li → (m', d) ∈ li → m = m') →
  rtc step (mk (mkGate al ∅ rb) ∅ ∅) (mk (mkGate al li rb) ∅ ∅).
Proof.
  intros Hr Ho. induction li as [|[m d] li Hin IH] using set_ind_L; [done|].
  eapply rtc_r; [apply IH; [set_solver|]|].
  - intros m1 m2 x H1 H2. apply (Ho m1 m2 x); set_solver.
  - pose proof (IssueLink d m al li rb ∅ ∅) as Hi.
    replace (∅ ∖ {[m]}) with (∅ : gset string) in Hi by set_solver. apply Hi; [set_solver|].
    intros m' Hm'. apply (Ho m' m d); set_solver.
Qed.

(** A roster update is a run of the specification: revocations are kept, no link is of a pair
    that is revoked, and a device is linked once. *)
Lemma regate_run g st :
  revoked_by (the_gate st) ⊆ revoked_by g → links g ## revoked_by g →
  (∀ m m' d, (m, d) ∈ links g → (m', d) ∈ links g → m = m') →
  rtc step st (regate g st).
Proof.
  destruct st as [[al0 li0 rb0] ad le], g as [al li rb]. simpl. intros Hrb Hr Ho.
  etrans; [apply moves_run, leave_everyone|]. etrans; [apply drop_links|].
  etrans; [apply (revoke_all _ _ rb)|]. replace (rb ∪ rb0) with rb by set_solver.
  eapply rtc_l; [apply (Reconcile al)|].
  replace (filter _ ∅) with (∅ : gset string) by set_solver.
  replace (∅ ∩ al) with (∅ : gset string) by set_solver.
  etrans; [by apply issue_all|]. apply moves_run, admit_all; intros x; simpl;
    by intros [? _]%elem_of_filter.
Qed.

End DeviceLinkMachine.

Import DeviceLinkMachine.

(** ** The group's state in the specification *)

(** The links whose device is not itself on the roster: the others admit nobody. *)
Definition live_links (st : GroupDevices.t) : gset (string * string) :=
  list_to_set (map (λ l, (DeviceLink.member l, DeviceLink.device l))
    (List.filter (λ l, negb (bool_decide
        (on_roster (GroupDevices.roster st) (DeviceLink.device l))))
      (DeviceRegistry.links (GroupDevices.registry st)))).

(** The gate of a group whose membership allows [al]: no member, while it allows nobody. *)
Definition gate_of (st : GroupDevices.t) (al : gset string) : gate :=
  mkGate (if decide (al = ∅) then ∅ else allowed_set (GroupDevices.roster st))
    (live_links st) (DeviceRegistry.revoked_f (GroupDevices.registry st)).

(** The gate an accepted [SetRoster] leaves. *)
Definition roster_gate (st : GroupDevices.t) : gate :=
  gate_of st (allowed_set (effective_roster (GroupDevices.roster st) (GroupDevices.registry st))).

Definition view (st : GroupDevices.t) (m : ClusterMembership.t) : state :=
  regate (gate_of st (allowed_f m)) (mk (mkGate ∅ ∅ ∅) (admitted_f m) ∅).

Lemma elem_of_live_links st m d :
  reg_ok (GroupDevices.registry st) →
  (m, d) ∈ live_links st ↔
  ∃ l, DeviceRegistry.links_f (GroupDevices.registry st) !! d = Some l
    ∧ DeviceLink.member l = m ∧ ¬ on_roster (GroupDevices.roster st) d.
Proof.
  intros Hreg. unfold live_links. rewrite elem_of_list_to_set, list_elem_of_fmap.
  setoid_rewrite elem_of_filter_list. setoid_rewrite negb_true_iff.
  setoid_rewrite bool_decide_eq_false. setoid_rewrite elem_of_links. split.
  - intros (l & [= -> ->] & Hn & d' & Hl). pose proof Hl as (<- & _)%Hreg. eauto.
  - intros (l & Hl & <- & Hn). pose proof Hl as (<- & _)%Hreg. exists l. eauto.
Qed.

(** What makes a gate one that updates may lead to. *)
Lemma gate_ok st al :
  reg_ok (GroupDevices.registry st) →
  links (gate_of st al) ## revoked_by (gate_of st al)
  ∧ ∀ m m' d, (m, d) ∈ links (gate_of st al) → (m', d) ∈ links (gate_of st al) → m = m'.
Proof.
  intros Hreg. simpl. split.
  - intros [m d] (l & Hl & <- & _)%elem_of_live_links Hr; [|done].
    by apply Hreg in Hl as (_ & _ & []).
  - intros m m' d (l & Hl & <- & _)%elem_of_live_links (l' & Hl' & <- & _)%elem_of_live_links;
      [|done..]. congruence.
Qed.

(** The specification's gate is the code's: the allowed set is the allowed devices with the
    comms identities still accepted. *)
Lemma gate_of_allowed st al :
  reg_ok (GroupDevices.registry st) →
  al = ∅ ∨ al = allowed_set (effective_roster (GroupDevices.roster st)
                               (GroupDevices.registry st)) →
  ∀ a, a ∈ al ↔ allowed_device (gate_of st al) a ∨ legacy_allowed (gate_of st al) a.
Proof.
  intros Hreg Hal a. unfold allowed_device, legacy_allowed. simpl.
  destruct (decide (al = ∅)) as [->|Hne].
  { split; [set_solver|]. intros [(m & ? & _)|[? _]]; set_solver. }
  destruct Hal as [|Heq]; [done|]. rewrite Heq at 1. rewrite allowed_effective by done.
  rewrite (or_comm (_ ∧ _)). f_equiv.
  - split.
    + intros (l & Hl & Hn & Hm). pose proof Hl as (<- & _ & ?)%Hreg.
      exists (DeviceLink.member l). rewrite elem_of_live_links by done. eauto 10.
    + intros (m & Hm & (l & Hl & <- & Hn)%elem_of_live_links & _); [|done].
      exists l. split; [done|]. pose proof Hl as (<- & _)%Hreg. done.
  - split; intros [Ha Hk]; (split; [done|]); intros Hkey; apply Hk.
    + destruct Hkey as ([m d] & Hin & Hm). simpl in Hm. subst m.
      apply elem_of_union in Hin as [Hin|Hin].
      * apply elem_of_live_links in Hin as (l & Hl & <- & Hn); [|done]. right. exists l.
        rewrite elem_of_links. pose proof Hl as (<- & _)%Hreg.
        split_and!; [by eexists|done|by split].
      * left. eauto.
    + destruct Hkey as [(d & Hd)|(l & (d & Hl)%elem_of_links & <- & Hn & _)].
      * exists (a, d). set_solver.
      * pose proof Hl as (<- & _)%Hreg. exists (DeviceLink.member l, DeviceLink.device l).
        split; [|done]. apply elem_of_union_l, elem_of_live_links; eauto.
Qed.

(** ** The daemon refines the specification *)

Section daemon.
  Context {T : Type} `{!MeshTransport T, !MeshView T, !MeshTransportLaws T}.
  Context `{!Crypto, !StrDebug}.
  Implicit Types d : ClusterDaemon.t T.

Definition devices_at g d : GroupDevices.t := default GroupDevices.default (device_state d !! g).

Definition membership_at g d : ClusterMembership.t :=
  from_option ClusterSession.membership (ClusterMembership.new []) (groups_f d !! g).

(** A group's state in the specification; one without a session allows and meshes nobody. *)
Definition view_at g d : state := view (devices_at g d) (membership_at g d).

(** What the invariant says of a group's membership. *)
Definition gated (st : GroupDevices.t) (m : ClusterMembership.t) : Prop :=
  reg_ok (GroupDevices.registry st) ∧ adm_safe m
  ∧ (allowed_f m = ∅
     ∨ allowed_f m = allowed_set (effective_roster (GroupDevices.roster st)
                                   (GroupDevices.registry st))).

Lemma gated_at g d : daemon_inv d → gated (devices_at g d) (membership_at g d).
Proof.
  intros Hd. split; [by apply default_registry_ok|]. unfold membership_at, devices_at.
  destruct (groups_f d !! g) as [s|] eqn:Hs; simpl; [|split; [set_solver|by left]].
  apply (inv_session _ Hd) in Hs as (_ & ? & Hal). split; [done|].
  destruct Hal as [?|(gd & -> & ?)]; [by left|by right].
Qed.

(** Everybody meshed is a device or a comms identity that the specification has meshed. *)
Lemma meshed_is_viewed st m :
  gated st m → admitted_f m = admitted (view st m) ∪ legacy (view st m).
Proof.
  intros (Hreg & Hsafe & Hal). apply set_eq. intros a. simpl.
  rewrite union_empty_r_L, elem_of_union, !elem_of_filter.
  pose proof (gate_of_allowed st (allowed_f m) Hreg Hal a) as Ha. specialize (Hsafe a).
  naive_solver.
Qed.

Lemma view_regate st m st' m' :
  gated st m → gated st' m' → admitted_f m' = admitted_f m ∩ allowed_f m' →
  view st' m' = regate (gate_of st' (allowed_f m')) (view st m).
Proof.
  intros Hm (Hreg & _ & Hal) Had. unfold regate. rewrite <-meshed_is_viewed by done.
  unfold view, regate. simpl. rewrite Had, union_empty_r_L.
  pose proof (gate_of_allowed st' (allowed_f m') Hreg Hal) as Ha.
  f_equal; apply set_eq; intros a; rewrite !elem_of_filter, elem_of_intersection; naive_solver.
Qed.

(** The same gate: the meshed come and go. *)
Lemma view_moves st m m' :
  allowed_f m' = allowed_f m → rtc move (view st m) (view st m').
Proof.
  intros Hal. unfold view. rewrite Hal. apply moves_within; intros a; simpl;
    by intros [? _]%elem_of_filter.
Qed.

(** What a group goes through between its roster updates: its session ends, or peers connect
    and leave under an unchanged gate. *)
Definition quiet_step g d d' : Prop :=
  (groups_f d' !! g = None ∧ view_at g d' = regate (gate_of (devices_at g d) ∅) (view_at g d))
  ∨ rtc move (view_at g d) (view_at g d').

(** What one event may do to a group. *)
Definition link_step (e : event T) g d : Prop :=
  let d' := run_event e d in
  match e with
  | EvRequest (SetRoster g' roster links revs) =>
      if decide (g' = g) then
        match (set_roster_with_devices g roster links revs d).1 with
        | Ok _ => view_at g d'
            = regate (roster_gate (updated_state g roster links revs d).2) (view_at g d)
        | Err _ => view_at g d' = view_at g d
        end
      else quiet_step g d d'
  | _ => quiet_step g d d'
  end.

Lemma default_updated g roster links revs d d' :
  device_state d' = device_state d →
  updated_state g roster links revs d' = updated_state g roster links revs d.
Proof. unfold updated_state. by intros ->. Qed.

Lemma membership_ensure g d s d' :
  ensure_session g d = (Ok s, d') → membership_at g d = ClusterSession.membership s.
Proof.
  unfold membership_at.
  intros [Hs [->|(Hn & _ & _ & t & _ & -> & _)]]%ensure_session_Ok;
    [by rewrite Hs|by rewrite Hn].
Qed.

Lemma set_roster_link_step g roster links revs d :
  daemon_inv d →
  let st := (updated_state g roster links revs d).2 in
  let '(res, d1) := set_roster_with_devices g roster links revs d in
  match res with
  | Ok _ => view_at g d1 = regate (roster_gate st) (view_at g d)
  | Err _ => view_at g d1 = view_at g d
  end.
Proof.
  intros Hd st. pose proof (gated_at g d Hd) as Hg.
  pose proof (gated_at g _ (inv_set_roster g roster links revs d Hd)) as Hg1.
  rewrite set_roster_run in Hg1 |- *.
  destruct (ensure_group_allowed g d) as [[]|]; [|done].
  destruct (ensure_session g d) as [[s|err] d'] eqn:E;
    [|by apply ensure_session_Err in E as ->].
  pose proof (ensure_session_devices _ _ _ _ E) as Hst.
  pose proof (membership_ensure _ _ _ _ E) as Hms.
  rewrite (default_updated g roster links revs d d' Hst) in Hg1 |- *. subst st.
  destruct (updated_state g roster links revs d) as [rj st] eqn:Eu.
  assert (roster = GroupDevices.roster st) as ->
    by (unfold updated_state in Eu; by injection Eu as _ <-).
  set (eff := effective_roster _ _) in *. cbn [snd fst] in *. unfold view_at in *.
  set (d1 := put_session _ _ _) in *.
  assert (devices_at g d1 = st) as Ha by (unfold devices_at; simpl; by rewrite lookup_insert_eq).
  assert (membership_at g d1 = ClusterSession.membership (reconciled eff s)) as Hb
    by (unfold membership_at; simpl; by rewrite lookup_insert_eq).
  rewrite Ha, Hb in *. rewrite Hms in *. unfold roster_gate. fold eff.
  rewrite <-(reconciled_allowed eff s). apply view_regate; [done..|].
  by rewrite reconciled_admitted, reconciled_allowed.
Qed.

Lemma same_gate_step g d d' s' :
  device_state d' !! g = device_state d !! g → groups_f d' !! g = Some s' →
  allowed_f (ClusterSession.membership s') = allowed_at g d →
  rtc move (view_at g d) (view_at g d').
Proof.
  intros Hst Hs Hal. unfold view_at, devices_at. rewrite Hst. apply view_moves.
  unfold membership_at. rewrite Hs. simpl. rewrite Hal. unfold allowed_at.
  by destruct (groups_f d !! g).
Qed.

Lemma no_session_step g d d' :
  daemon_inv d → device_state d' !! g = device_state d !! g → groups_f d' !! g = None →
  view_at g d' = regate (gate_of (devices_at g d) ∅) (view_at g d).
Proof.
  intros Hd Hst Hn. pose proof (gated_at g d Hd) as Hg.
  unfold view_at. unfold devices_at at 1. rewrite Hst.
  unfold membership_at at 1. rewrite Hn. simpl.
  apply (view_regate _ _ _ (ClusterMembership.new [])); [done| |set_solver].
  split; [by apply Hg|]. split; [set_solver|by left].
Qed.

Lemma other_event_quiet e g d :
  daemon_inv d → (∀ roster links revs, e ≠ EvRequest (SetRoster g roster links revs)) →
  quiet_step g d (run_event e d).
Proof.
  intros Hd Hno.
  assert (device_state (run_event e d) !! g = device_state d !! g) as Hst.
  { destruct (event_devices e d) as [(g' & roster & links & revs & ->)|Heq];
      [|by rewrite Heq].
    apply (frame_devices g'); [by apply frame_event|].
    intros <-. by apply (Hno roster links revs). }
  destruct (groups_f (run_event e d) !! g) as [s'|] eqn:Hs.
  - right. eapply same_gate_step; [done..|]. by apply (event_allowed e).
  - left. split; [done|]. by apply no_session_step.
Qed.

Lemma event_link_step e g d : daemon_inv d → link_step e g d.
Proof.
  intros Hd. pose proof (other_event_quiet e g d Hd) as Hq. unfold link_step.
  destruct e as [[g' roster links revs| | | | | | | | | |]| | | |]; try (by apply Hq).
  case_decide as Hg; [subst g'|apply Hq; congruence].
  pose proof (set_roster_link_step g roster links revs d Hd) as Hv. cbn [run_event].
  rewrite handle_request_state. by destruct (set_roster_with_devices _ _ _ _ _).
Qed.

Lemma quiet_steps g d d' : daemon_inv d → quiet_step g d d' →
  rtc step (view_at g d) (view_at g d').
Proof.
  intros Hd [[_ ->]|Hm]; [|by apply moves_run].
  apply regate_run; [done|apply gate_ok..]; by apply default_registry_ok.
Qed.

Lemma link_step_steps e g d :
  daemon_inv d → link_step e g d → rtc step (view_at g d) (view_at g (run_event e d)).
Proof.
  intros Hd. unfold link_step.
  destruct e as [[g' roster links revs| | | | | | | | | |]| | | |]; try (by apply quiet_steps).
  case_decide; [subst g'|by apply quiet_steps].
  destruct (set_roster_with_devices _ _ _ _ _).1; intros ->; [|done].
  apply regate_run; [apply update_revoked_sticky|apply gate_ok..];
    apply update_reg_ok; by apply default_registry_ok.
Qed.

Lemma view_built g address pinned mk : view_at g (built (T:=T) address pinned mk) = init.
Proof.
  unfold view_at, devices_at, membership_at. destruct pinned; simpl; rewrite !lookup_empty;
    vm_compute; reflexivity.
Qed.

(** C7: The daemon, over any transport, refines [formal/DeviceLink.tla]. After any requests,
    connections and network activity, one more event does the following to a group. A
    [SetRoster] of it that succeeds installs exactly the gate of the updated registry and the
    new roster, and of everybody meshed it keeps exactly those that this gate still allows, as
    what it takes them for; one that is refused changes nothing. Any other event leaves the
    gate alone while peers connect and leave within it, or ends the group's session. Each is a
    run of the specification, which therefore reaches every state of the group; there each
    meshed device acts under a link to an allowed member that has not revoked it, no device has
    two members, and each meshed comms identity is of an allowed member without devices or
    revocations. *)
Theorem daemon_refines_device_link address pinned mk (es : list (event T)) e g :
  (∀ g t, mk g = Ok t → authorized t = ∅) → Forall event_ok (es ++ [e]) →
  let d := run_events es (built address pinned mk) in
  link_step e g d
  ∧ rtc step init (view_at g (run_event e d)) ∧ safe (view_at g (run_event e d))
  ∧ (∀ s, groups_f (run_event e d) !! g = Some s →
       admitted_f (ClusterSession.membership s)
       = admitted (view_at g (run_event e d)) ∪ legacy (view_at g (run_event e d))).
Proof.
  intros Hmk [Hes He]%Forall_app d. apply Forall_cons in He as [He _].
  assert (daemon_inv d) as Hd by by apply inv_reachable.
  pose proof (event_link_step e g d Hd) as Hst. split; [done|].
  assert (rtc step init (view_at g d)) as Hrun.
  { subst d. clear Hst Hd. induction es as [|e0 es IH] using rev_ind.
    - unfold run_events. simpl. by rewrite view_built.
    - apply Forall_app in Hes as [Hes _].
      unfold run_events. rewrite fold_left_app. simpl. etrans; [by apply IH|].
      assert (daemon_inv (run_events es (built address pinned mk))) by by apply inv_reachable.
      by apply link_step_steps, event_link_step. }
  assert (rtc step init (view_at g (run_event e d))) as Hrun'
    by (etrans; [exact Hrun|by apply link_step_steps]).
  split; [done|]. split; [by apply run_safe|].
  intros s Hs. pose proof (gated_at g _ (inv_event e d He Hd)) as Hg.
  apply meshed_is_viewed in Hg. unfold view_at. rewrite <-Hg. unfold membership_at.
  by rewrite Hs.
Qed.

End daemon.

(** A device joins under its member's link; the member then revokes it. *)
Module ExampleDeviceLink.

#[local] Instance crypto : Crypto := ExampleCrypto.crypto.
#[local] Instance debug : StrDebug := ExampleDaemon.debug.

Definition D1 : string := ExampleVerifier.D1.
Definition links : list DeviceLinkWire.t :=
  [ExampleDaemon.link ExampleVerifier.M1 D1 ExampleVerifier.W1].

Definition joined : list (event SetMesh.t) :=
  [EvRequest (SetRoster "g" ExampleDaemon.roster links []); EvAdmit "g" D1 "owner";
   EvAdmit "g" ExampleVerifier.M2 "member"].
Definition revoking : event SetMesh.t :=
  EvRequest (SetRoster "g" ExampleDaemon.roster links
               [ExampleDaemon.revocation ExampleVerifier.M1 D1]).

Definition d : ClusterDaemon.t SetMesh.t :=
  run_events joined (built ExampleDaemon.self None ExampleDaemon.mk).

Lemma events_ok : Forall event_ok (joined ++ [revoking]).
Proof. repeat constructor. Qed.

(** Before and after: the device leaves at once, the other member stays. *)
Lemma before : admitted (view_at "g" d) = {[D1]} ∧ legacy (view_at "g" d) = {[ExampleVerifier.M2]}.
Proof. split; apply (bool_decide_eq_true_1 _); vm_compute; reflexivity. Qed.

Lemma after : admitted (view_at "g" (run_event revoking d)) = ∅
  ∧ legacy (view_at "g" (run_event revoking d)) = {[ExampleVerifier.M2]}.
Proof. split; apply (bool_decide_eq_true_1 _); vm_compute; reflexivity. Qed.

End ExampleDeviceLink.

Lemma daemon_refines_device_link_witness :
  rtc step init (view_at "g"
    (run_event (H:=ExampleCrypto.crypto) (H0:=ExampleDaemon.debug)
       ExampleDeviceLink.revoking ExampleDeviceLink.d)).
Proof.
  exact (proj1 (proj2 (daemon_refines_device_link (H:=ExampleCrypto.crypto)
    (H0:=ExampleDaemon.debug) ExampleDaemon.self None ExampleDaemon.mk ExampleDeviceLink.joined
    ExampleDeviceLink.revoking "g" ExampleDaemon.mk_fresh ExampleDeviceLink.events_ok))).
Defined.
