(* ===== verification/DeviceLinkTla.v ===== *)
(** * formal/DeviceLink.tla as it is, and when the daemon refines it

    The repository's device-link model restated without a change, keys and the revocation log
    included, with its invariants proved for any number of members, devices and keys. The
    model revokes a device for everybody, the code for the member that signed, so the daemon
    refines the model exactly as long as each device key is claimed, by links and revocations,
    for one member only; the refinement builds on [DeviceLinkSpec]. *)

From S2P Require Import Prelude RustStr Admission Membership Session Device Registry.
From S2P Require Import EffectiveRoster Transport DeviceWire Daemon Ipc DaemonInv DaemonSafety.
From S2P Require Import DeviceLinkSpec.
Import ClusterMembership ClusterDaemon.
Local Open Scope N_scope.

(** ** The model *)

Module DeviceLinkTla.

(** The variables of the module. A pair of [links], [revoked_by] or [revoke_log] is a member
    and a device; a device without a key has none in [key]. *)
Record state := mk {
  allowed : gset string;
  key : gmap string string;
  links : gset (string * string);
  revoked : gset string;
  admitted : gset string;
  legacy : gset string;
  revoked_by : gset (string * string);
  revoke_log : gset (string * string);
}.

Definition init (al : gset string) : state := mk al ∅ ∅ ∅ ∅ ∅ ∅ ∅.

(** The links of [d], and the members they are to. *)
Definition links_of (d : string) (li : gset (string * string)) : gset (string * string) :=
  filter (λ e, e.2 = d) li.
Definition member_of (d : string) (li : gset (string * string)) : gset string :=
  set_map fst (links_of d li).

Definition linked_to_allowed (st : state) (d : string) : Prop :=
  ∃ m, m ∈ allowed st ∧ (m, d) ∈ links st.
Definition allowed_device (st : state) (d : string) : Prop :=
  linked_to_allowed st d ∧ d ∉ revoked st.
Definition on_device_keys (st : state) (m : string) : Prop :=
  (∃ d, (m, d) ∈ links st) ∨ ∃ d, (m, d) ∈ revoked_by st.
Definition legacy_allowed (st : state) (m : string) : Prop :=
  m ∈ allowed st ∧ ¬ on_device_keys st m.

Inductive step : state → state → Prop :=
| MintKey d k al ke li rv ad le rb lg :
    ke !! d = None → (∀ d', ke !! d' ≠ Some k) →
    step (mk al ke li rv ad le rb lg) (mk al (<[d := k]> ke) li rv ad le rb lg)
| IssueLink d m al ke li rv ad le rb lg :
    is_Some (ke !! d) → d ∉ rv → (∀ m', (m', d) ∈ li → m' = m) →
    step (mk al ke li rv ad le rb lg) (mk al ke ({[(m, d)]} ∪ li) rv ad (le ∖ {[m]}) rb lg)
| Admit d al ke li rv ad le rb lg :
    allowed_device (mk al ke li rv ad le rb lg) d → d ∉ ad →
    step (mk al ke li rv ad le rb lg) (mk al ke li rv ({[d]} ∪ ad) le rb lg)
| Leave d al ke li rv ad le rb lg :
    d ∈ ad →
    step (mk al ke li rv ad le rb lg) (mk al ke li rv (ad ∖ {[d]}) le rb lg)
| Revoke d al ke li rv ad le rb lg :
    links_of d li ≠ ∅ →
    step (mk al ke li rv ad le rb lg)
      (mk al ke li ({[d]} ∪ rv) (ad ∖ {[d]}) (le ∖ member_of d li)
         (links_of d li ∪ rb) (links_of d li ∪ lg))
| Reconcile na al ke li rv ad le rb lg :
    step (mk al ke li rv ad le rb lg)
      (mk na ke li rv (filter (λ d, set_Exists (λ m, (m, d) ∈ li) na) ad) (le ∩ na) rb lg)
| LegacyAdmit m al ke li rv ad le rb lg :
    legacy_allowed (mk al ke li rv ad le rb lg) m → m ∉ le →
    step (mk al ke li rv ad le rb lg) (mk al ke li rv ad ({[m]} ∪ le) rb lg)
| LegacyLeave m al ke li rv ad le rb lg :
    m ∈ le →
    step (mk al ke li rv ad le rb lg) (mk al ke li rv ad (le ∖ {[m]}) rb lg)
| DropLink d al ke li rv ad le rb lg :
    links_of d li ≠ ∅ →
    step (mk al ke li rv ad le rb lg)
      (mk al ke (filter (λ e, e.2 ≠ d) li) rv (ad ∖ {[d]}) le rb lg).

(** *** The invariants of DeviceLink.cfg, in its order *)

Record safe (st : state) : Prop := {
  no_act_without_link d : d ∈ admitted st → linked_to_allowed st d;
  revoked_device_evicted d : d ∈ admitted st → d ∉ revoked st;
  distinct_peer_ids d1 d2 k : key st !! d1 = Some k → key st !! d2 = Some k → d1 = d2;
  one_member_per_device m m' d : (m, d) ∈ links st → (m', d) ∈ links st → m = m';
  admitted_subset_allowed d : d ∈ admitted st → allowed_device st d;
  legacy_only_without_devices m : m ∈ legacy st → ¬ on_device_keys st m;
  revoked_machine_not_back m d : m ∈ legacy st → (m, d) ∉ revoke_log st;
  legacy_subset_allowed : legacy st ⊆ allowed st;
}.

(** The invariants that are inductive. *)
Definition ok (st : state) : Prop :=
  set_Forall (allowed_device st) (admitted st)
  ∧ set_Forall (legacy_allowed st) (legacy st)
  ∧ (∀ d1 d2 k, key st !! d1 = Some k → key st !! d2 = Some k → d1 = d2)
  ∧ (∀ m m' d, (m, d) ∈ links st → (m', d) ∈ links st → m = m')
  ∧ revoke_log st = revoked_by st.

Lemma ok_safe st : ok st → safe st.
Proof.
  intros (Ha & Hl & Hk & Ho & Hlog). split; try done.
  - intros d Hd. by apply Ha.
  - intros d Hd. by apply Ha.
  - intros m Hm. by apply Hl.
  - intros m d Hm. rewrite Hlog. intros Hd. apply (Hl m Hm). right. by exists d.
  - intros m Hm. by apply Hl.
Qed.

Lemma elem_of_links_of m d d' li : (m, d') ∈ links_of d li ↔ d' = d ∧ (m, d') ∈ li.
Proof. unfold links_of. by rewrite elem_of_filter. Qed.

Lemma elem_of_member_of m d li : m ∈ member_of d li ↔ (m, d) ∈ li.
Proof.
  unfold member_of. rewrite elem_of_map. split.
  - intros ([m' d'] & -> & [-> Hin]%elem_of_links_of). done.
  - intros Hin. exists (m, d). by rewrite elem_of_links_of.
Qed.

Ltac ok_split := unfold ok; simpl; split_and!; try done.

Lemma step_ok st st' : ok st → step st st' → ok st'.
Proof.
  intros (Ha & Hl & Hk & Ho & Hlog) Hst.
  destruct Hst as [d k al ke li rv ad le rb lg Hn Hf|d m al ke li rv ad le rb lg Hd Hr Hm
    |d al ke li rv ad le rb lg Hd _|d al ke li rv ad le rb lg _|d al ke li rv ad le rb lg _
    |na al ke li rv ad le rb lg|m al ke li rv ad le rb lg Hm _|m al ke li rv ad le rb lg _
    |d al ke li rv ad le rb lg _]; simpl in *; subst; ok_split.
  - intros d1 d2 k'. rewrite !lookup_insert_Some. naive_solver.
  - intros x Hx. destruct (Ha x Hx) as [(m' & ? & ?) ?]. split; [|done]. exists m'. set_solver.
  - intros x [Hx Hne]%elem_of_difference. destruct (Hl x Hx) as [? Hk'].
    split; [done|]. unfold on_device_keys in *. simpl in *. set_solver.
  - intros m1 m2 x. rewrite !elem_of_union, !elem_of_singleton. naive_solver.
  - intros x [->%elem_of_singleton|Hx]%elem_of_union; [done|by apply Ha].
  - intros x [Hx _]%elem_of_difference. by apply Ha.
  - intros x [Hx Hne]%elem_of_difference. destruct (Ha x Hx) as [? ?]. split; [done|].
    simpl in *. set_solver.
  - intros x [Hx Hne]%elem_of_difference. destruct (Hl x Hx) as [? Hk'].
    rewrite elem_of_member_of in Hne. split; [done|].
    unfold on_device_keys in *. simpl in *. intros [?|(d' & [Hd'|Hd']%elem_of_union)]; [naive_solver| |naive_solver].
    apply elem_of_links_of in Hd' as [-> ?]. done.
  - intros x [(m & Hm & Hin) Hx]%elem_of_filter. destruct (Ha x Hx) as [_ ?].
    split; [by exists m|done].
  - intros x [Hx Hna]%elem_of_intersection. split; [done|]. by apply (Hl x Hx).
  - intros x [->%elem_of_singleton|Hx]%elem_of_union; [done|by apply Hl].
  - intros x [Hx _]%elem_of_difference. by apply Hl.
  - intros x [Hx Hne]%elem_of_difference. destruct (Ha x Hx) as [(m & ? & ?) ?].
    split; [|done]. exists m. simpl in *. rewrite elem_of_filter. set_solver.
  - intros x Hx. destruct (Hl x Hx) as [? Hk']. split; [done|].
    unfold on_device_keys in *. simpl in *. set_solver.
  - intros m1 m2 x. rewrite !elem_of_filter. naive_solver.
Qed.

(** Whatever the sizes of the three sets, every state the model reaches has its invariants. *)
Lemma reachable_ok al st : rtc step (init al) st → ok st.
Proof.
  assert (ok (init al)) as Hinit by (ok_split; set_solver).
  revert Hinit. generalize (init al). induction 2; eauto using step_ok.
Qed.

Theorem tla_invariants al st : rtc step (init al) st → safe st.
Proof. intros H. by eapply ok_safe, reachable_ok. Qed.

End DeviceLinkTla.

(** ** The model's runs on the states of the finer machine *)

Import DeviceLinkMachine.

Section claimed.
  (** The member each device key is claimed for. *)
  Context (owner : string → string).

Definition claimed (ps : gset (string * string)) : Prop := ∀ m d, (m, d) ∈ ps → owner d = m.

(** Every device with a link or a revocation holds its own key. *)
Record keyed (ke : gmap string string) (g : gate) : Prop := {
  keyed_own d k : ke !! d = Some k → k = d;
  keyed_has m d : (m, d) ∈ links g ∪ revoked_by g → is_Some (ke !! d);
}.

(** A state of the finer machine, in the model. *)
Definition exact (ke : gmap string string) (st : state) : DeviceLinkTla.state :=
  let g := the_gate st in
  DeviceLinkTla.mk (allowed g) ke (links g) (set_map snd (revoked_by g)) (admitted st)
    (legacy st) (revoked_by g) (revoked_by g).

Lemma exact_allowed_device ke g ad le d :
  claimed (links g) → claimed (revoked_by g) →
  allowed_device g d ↔ DeviceLinkTla.allowed_device (exact ke (mk g ad le)) d.
Proof.
  intros Hl Hr. unfold allowed_device, DeviceLinkTla.allowed_device,
    DeviceLinkTla.linked_to_allowed. simpl. split.
  - intros (m & Hm & Hin & Hn). split; [by exists m|].
    rewrite elem_of_map. intros ([m' d'] & -> & Hr'). simpl in *.
    apply Hn. by rewrite <-(Hl _ _ Hin), (Hr _ _ Hr').
  - intros [(m & Hm & Hin) Hn]. exists m. split; [done|]. split; [done|].
    intros Hr'. apply Hn, elem_of_map. by exists (m, d).
Qed.

Lemma exact_legacy_allowed ke g ad le m :
  legacy_allowed g m ↔ DeviceLinkTla.legacy_allowed (exact ke (mk g ad le)) m.
Proof.
  unfold legacy_allowed, DeviceLinkTla.legacy_allowed, on_device_keys,
    DeviceLinkTla.on_device_keys, set_Exists. simpl.
  setoid_rewrite elem_of_union. split; (intros [? Hn]; split; [done|]); intros Hk; apply Hn.
  - destruct Hk as [[d Hd]|[d Hd]]; exists (m, d); auto.
  - destruct Hk as ([m' d] & [Hd|Hd] & Hm); simpl in Hm; subst; [left|right]; by exists d.
Qed.

Lemma exact_move ke st st' :
  claimed (links (the_gate st)) → claimed (revoked_by (the_gate st)) →
  move st st' → DeviceLinkTla.step (exact ke st) (exact ke st').
Proof.
  intros Hl Hr Hm. destruct Hm as [d g ad le Hd Hn|d g ad le Hd|m g ad le Hd Hn|m g ad le Hd].
  - apply DeviceLinkTla.Admit; [|done]. by apply (exact_allowed_device ke g ad le).
  - by apply DeviceLinkTla.Leave.
  - apply DeviceLinkTla.LegacyAdmit; [|done]. by apply (exact_legacy_allowed ke g ad le).
  - by apply DeviceLinkTla.LegacyLeave.
Qed.

Lemma exact_moves ke st st' :
  claimed (links (the_gate st)) → claimed (revoked_by (the_gate st)) →
  rtc move st st' → rtc DeviceLinkTla.step (exact ke st) (exact ke st').
Proof.
  intros Hl Hr. induction 1 as [|st1 st2 st3 Hm _ IH]; [done|].
  eapply rtc_l; [by apply exact_move|]. apply IH; by destruct Hm.
Qed.

Lemma moves_gate st st' : rtc move st st' → the_gate st' = the_gate st.
Proof. induction 1 as [|st1 st2 st3 Hm _ IH]; [done|]. rewrite IH. by destruct Hm. Qed.

(** *** A roster update, from nobody meshed to nobody meshed *)

Lemma mint_key al ke li rv rb lg d :
  (∀ d' k, ke !! d' = Some k → k = d') → ∃ ke',
  rtc DeviceLinkTla.step (DeviceLinkTla.mk al ke li rv ∅ ∅ rb lg)
    (DeviceLinkTla.mk al ke' li rv ∅ ∅ rb lg)
  ∧ ke ⊆ ke' ∧ is_Some (ke' !! d) ∧ (∀ d' k, ke' !! d' = Some k → k = d').
Proof.
  intros Hke. destruct (ke !! d) as [k|] eqn:Hd; [by exists ke; rewrite Hd|].
  exists (<[d := d]> ke). split_and!.
  - apply rtc_once, DeviceLinkTla.MintKey; [done|]. intros d' Hd'.
    pose proof (Hke _ _ Hd') as ->. congruence.
  - by apply insert_subseteq.
  - by rewrite lookup_insert_eq.
  - intros d' k. rewrite lookup_insert_Some. naive_solver.
Qed.

Lemma drop_links_exact al ke li rv rb lg :
  rtc DeviceLinkTla.step (DeviceLinkTla.mk al ke li rv ∅ ∅ rb lg)
    (DeviceLinkTla.mk al ke ∅ rv ∅ ∅ rb lg).
Proof.
  induction li as [li IH] using (induction_ltof1 _ (λ li : gset (string * string), size li)).
  destruct (decide (li = ∅)) as [->|([m d] & Hin)%set_choose_L]; [done|].
  eapply rtc_l; [apply (DeviceLinkTla.DropLink d)|].
  { intros He. assert ((m, d) ∈ DeviceLinkTla.links_of d li) as Hm
      by by apply DeviceLinkTla.elem_of_links_of.
    rewrite He in Hm. set_solver. }
  replace (∅ ∖ {[d]}) with (∅ : gset string) by set_solver. apply IH.
  unfold ltof. apply subset_size. split; [set_solver|]. intros Hsub. apply Hsub in Hin.
  by apply elem_of_filter in Hin as [[] _].
Qed.

Lemma issue_link_exact al ke rv rb lg li m d :
  (∀ d' k, ke !! d' = Some k → k = d') → d ∉ rv → (∀ m', (m', d) ∈ li → m' = m) → ∃ ke',
  rtc DeviceLinkTla.step (DeviceLinkTla.mk al ke li rv ∅ ∅ rb lg)
    (DeviceLinkTla.mk al ke' ({[(m, d)]} ∪ li) rv ∅ ∅ rb lg)
  ∧ ke ⊆ ke' ∧ is_Some (ke' !! d) ∧ (∀ d' k, ke' !! d' = Some k → k = d').
Proof.
  intros Hke Hr Hm. destruct (mint_key al ke li rv rb lg d Hke) as (ke' & Hrun & ? & ? & ?).
  exists ke'. split_and!; [|done..]. eapply rtc_r; [exact Hrun|].
  pose proof (DeviceLinkTla.IssueLink d m al ke' li rv ∅ ∅ rb lg) as Hi.
  replace (∅ ∖ {[m]}) with (∅ : gset string) in Hi by set_solver. by apply Hi.
Qed.

Lemma revoke_one_exact al ke rv rb lg m d :
  (∀ d' k, ke !! d' = Some k → k = d') → d ∉ rv → ∃ ke',
  rtc DeviceLinkTla.step (DeviceLinkTla.mk al ke ∅ rv ∅ ∅ rb lg)
    (DeviceLinkTla.mk al ke' ∅ ({[d]} ∪ rv) ∅ ∅ ({[(m, d)]} ∪ rb) ({[(m, d)]} ∪ lg))
  ∧ ke ⊆ ke' ∧ is_Some (ke' !! d) ∧ (∀ d' k, ke' !! d' = Some k → k = d').
Proof.
  intros Hke Hr.
  destruct (issue_link_exact al ke rv rb lg ∅ m d Hke Hr) as (ke' & Hrun & ? & ? & ?);
    [set_solver|].
  exists ke'. split_and!; [|done..]. etrans; [exact Hrun|].
  assert (DeviceLinkTla.links_of d ({[(m, d)]} ∪ ∅) = {[(m, d)]}) as Hof.
  { apply set_eq. intros [m' d']. rewrite DeviceLinkTla.elem_of_links_of. set_solver. }
  eapply rtc_l; [apply (DeviceLinkTla.Revoke d); rewrite Hof; set_solver|].
  rewrite Hof. replace (∅ ∖ {[d]}) with (∅ : gset string) by set_solver.
  replace (∅ ∖ DeviceLinkTla.member_of d _) with (∅ : gset string) by set_solver.
  apply drop_links_exact.
Qed.

Lemma revoke_all_exact al ke rb new :
  (∀ d' k, ke !! d' = Some k → k = d') → new ## rb → claimed (new ∪ rb) → ∃ ke',
  rtc DeviceLinkTla.step (DeviceLinkTla.mk al ke ∅ (set_map snd rb) ∅ ∅ rb rb)
    (DeviceLinkTla.mk al ke' ∅ (set_map snd (new ∪ rb)) ∅ ∅ (new ∪ rb) (new ∪ rb))
  ∧ ke ⊆ ke' ∧ (∀ m d, (m, d) ∈ new → is_Some (ke' !! d))
  ∧ (∀ d' k, ke' !! d' = Some k → k = d').
Proof.
  intros Hke. induction new as [|[m d] new Hin IH] using set_ind_L; intros Hd Hc.
  - exists ke. replace (∅ ∪ rb) with rb by set_solver. split_and!; [done|done|set_solver|done].
  - destruct IH as (ke1 & Hrun1 & Hsub1 & Hhas1 & Hown1);
      [set_solver|intros m' d' Hin'; apply Hc; set_solver|].
    destruct (revoke_one_exact al ke1 (set_map snd (new ∪ rb)) (new ∪ rb) (new ∪ rb) m d Hown1)
      as (ke2 & Hrun2 & Hsub2 & Hhas2 & Hown2).
    { rewrite elem_of_map. intros ([m' d'] & -> & Hin'). simpl in *.
      assert (m' = m) as ->; [|set_solver].
      rewrite <-(Hc m' d'), <-(Hc m d'); set_solver. }
    exists ke2. split_and!; [| |intros m' d'; rewrite elem_of_union; intros [Heq|Hin']|done].
    + etrans; [exact Hrun1|]. revert Hrun2.
      replace (({[(m, d)]} ∪ new) ∪ rb) with ({[(m, d)]} ∪ (new ∪ rb)) by set_solver.
      by rewrite (set_map_union_L snd {[(m, d)]} (new ∪ rb)), set_map_singleton_L.
    + by etrans.
    + apply elem_of_singleton in Heq as [= -> ->]. done.
    + destruct (Hhas1 m' d' Hin') as [k Hk]. exists k. by eapply lookup_weaken.
Qed.

Lemma issue_all_exact al ke rv rb lg li :
  (∀ d' k, ke !! d' = Some k → k = d') → claimed li → (∀ m d, (m, d) ∈ li → d ∉ rv) → ∃ ke',
  rtc DeviceLinkTla.step (DeviceLinkTla.mk al ke ∅ rv ∅ ∅ rb lg)
    (DeviceLinkTla.mk al ke' li rv ∅ ∅ rb lg)
  ∧ ke ⊆ ke' ∧ (∀ m d, (m, d) ∈ li → is_Some (ke' !! d))
  ∧ (∀ d' k, ke' !! d' = Some k → k = d').
Proof.
  intros Hke. induction li as [|[m d] li Hin IH] using set_ind_L; intros Hc Hr.
  - exists ke. split_and!; [done|done|set_solver|done].
  - destruct IH as (ke1 & Hrun1 & Hsub1 & Hhas1 & Hown1);
      [intros m' d' Hin'; apply Hc; set_solver|intros m' d' Hin'; apply (Hr m'); set_solver|].
    destruct (issue_link_exact al ke1 rv rb lg li m d Hown1)
      as (ke2 & Hrun2 & Hsub2 & Hhas2 & Hown2).
    { apply (Hr m). set_solver. }
    { intros m' Hin'. rewrite <-(Hc m' d), <-(Hc m d); set_solver. }
    exists ke2. split_and!; [by etrans|by etrans| |done].
    intros m' d'. rewrite elem_of_union. intros [Heq|Hin'].
    + apply elem_of_singleton in Heq as [= -> ->]. done.
    + destruct (Hhas1 m' d' Hin') as [k Hk]. exists k. by eapply lookup_weaken.
Qed.

(** A roster update is a run of the model, some devices getting their keys in it. *)
Lemma exact_regate ke g st :
  keyed ke (the_gate st) → claimed (links (the_gate st)) →
  claimed (links g) → claimed (revoked_by g) →
  revoked_by (the_gate st) ⊆ revoked_by g → links g ## revoked_by g →
  ∃ ke', ke ⊆ ke' ∧ keyed ke' g
    ∧ rtc DeviceLinkTla.step (exact ke st) (exact ke' (regate g st)).
Proof.
  destruct st as [[al0 li0 rb0] ad le], g as [al li rb]. simpl.
  intros [Hown Hhas] Hl0 Hl Hr Hsub Hdisj. simpl in Hhas.
  assert (claimed rb0) as Hr0 by (intros m d Hin; apply Hr; set_solver).
  destruct (revoke_all_exact al0 ke rb0 (rb ∖ rb0) Hown) as (ke1 & Hrun1 & Hsub1 & Hhas1 & Hown1);
    [set_solver|intros m d Hin; apply Hr; set_solver|].
  replace (rb ∖ rb0 ∪ rb0) with rb in Hrun1
    by (rewrite difference_union_L; set_solver).
  destruct (issue_all_exact al ke1 (set_map snd rb) rb rb li Hown1 Hl)
    as (ke2 & Hrun2 & Hsub2 & Hhas2 & Hown2).
  { intros m d Hin. rewrite elem_of_map. intros ([m' d'] & -> & Hin'). simpl in *.
    assert (m = m') as ->; [|set_solver]. by rewrite <-(Hl m d'), <-(Hr m' d'). }
  exists ke2. split; [by etrans|]. split.
  { split; [done|]. simpl. intros m d [Hin|Hin]%elem_of_union; [by eapply Hhas2|].
    assert (is_Some (ke1 !! d)) as [k Hk]; [|exists k; by eapply lookup_weaken].
    destruct (decide ((m, d) ∈ rb0)) as [Hin0|Hn0]; [|apply (Hhas1 m); set_solver].
    destruct (Hhas m d) as [k Hk]; [set_solver|]. exists k. by eapply lookup_weaken. }
  etrans; [apply (exact_moves ke _ (mk (mkGate al0 li0 rb0) ∅ ∅)); [done..|apply leave_everyone]|].
  etrans; [apply drop_links_exact|]. etrans; [exact Hrun1|].
  eapply rtc_l; [apply (DeviceLinkTla.Reconcile al)|].
  replace (filter _ ∅) with (∅ : gset string) by set_solver.
  replace (∅ ∩ al) with (∅ : gset string) by set_solver.
  etrans; [exact Hrun2|]. unfold regate.
  apply (exact_moves ke2 (mk (mkGate al li rb) ∅ ∅)); [done..|].
  apply admit_all; intros x; by intros [? _]%elem_of_filter.
Qed.

End claimed.

(** ** The daemon *)

Section daemon.
  Context {T : Type} `{!MeshTransport T, !MeshView T, !MeshTransportLaws T}.
  Context `{!Crypto, !StrDebug}.
  Context (owner : string → string).
  Implicit Types (d : ClusterDaemon.t T) (e : event T).

(** What the event brings for a group claims each device key for its [owner]: the links that
    verify, and the revocations. *)
Definition claims_ok g e : Prop :=
  match e with
  | EvRequest (SetRoster g' _ links revs) => g' = g →
      (∀ s c, s ∈ map DeviceLinkWire.into links → verified_link s = Some c →
         owner (DeviceLink.device c) = DeviceLink.member c)
      ∧ (∀ r m dev, r ∈ map RevocationWire.into revs → valid_revocation r m dev → owner dev = m)
  | _ => True
  end.

Definition reg_claimed (reg : DeviceRegistry.t) : Prop :=
  (∀ dev l, DeviceRegistry.links_f reg !! dev = Some l → owner dev = DeviceLink.member l)
  ∧ claimed owner (DeviceRegistry.revoked_f reg).

Lemma update_claimed links revs reg :
  (∀ s c, s ∈ links → verified_link s = Some c →
     owner (DeviceLink.device c) = DeviceLink.member c) →
  (∀ r m dev, r ∈ revs → valid_revocation r m dev → owner dev = m) →
  reg_claimed reg → reg_claimed (DeviceRegistry.update links revs reg).2.
Proof.
  intros Hlinks Hrevs [Hl Hr].
  destruct (decide (fits links revs)) as [Hf|Hf]; [|by rewrite update_too_many].
  split.
  - intros dev l. rewrite update_links by done. intros (Hin & _)%resolved_Some.
    apply elem_of_device_links in Hin as [<- (s & Hs & Hv)]. eauto.
  - intros m dev. rewrite update_revoked by done. intros [?|(r & Hin & Hv)]; eauto.
Qed.

Lemma event_claimed e g d :
  claims_ok g e → reg_claimed (GroupDevices.registry (devices_at g d)) →
  reg_claimed (GroupDevices.registry (devices_at g (run_event e d))).
Proof.
  intros He Hd. unfold devices_at in *.
  destruct (event_devices e d) as [(g' & roster & links & revs & ->)|Heq]; [|by rewrite Heq].
  cbn [run_event]. rewrite handle_request_state.
  destruct (set_roster_devices g' roster links revs d g) as [Heq|[-> Heq]]; rewrite Heq; [done|].
  destruct (He eq_refl) as [Hlinks Hrevs]. by apply update_claimed.
Qed.

Lemma live_links_claimed st :
  reg_ok (GroupDevices.registry st) → reg_claimed (GroupDevices.registry st) →
  claimed owner (live_links st).
Proof.
  intros Hreg [Hl _] m dev Hin. apply elem_of_live_links in Hin as (l & Hin & <- & _); [|done].
  by apply Hl.
Qed.

Lemma view_claimed g d :
  daemon_inv d → reg_claimed (GroupDevices.registry (devices_at g d)) →
  claimed owner (links (the_gate (view_at g d)))
  ∧ claimed owner (revoked_by (the_gate (view_at g d))).
Proof.
  intros Hd Hc. split; [|apply Hc]. apply live_links_claimed; [|done].
  by apply default_registry_ok.
Qed.

(** The step of [DeviceLinkSpec] is a run of the model. *)
Lemma exact_event e g d ke :
  daemon_inv d → daemon_inv (run_event e d) → claims_ok g e →
  reg_claimed (GroupDevices.registry (devices_at g d)) →
  keyed ke (the_gate (view_at g d)) →
  ∃ ke', ke ⊆ ke' ∧ keyed ke' (the_gate (view_at g (run_event e d)))
    ∧ rtc DeviceLinkTla.step (exact ke (view_at g d)) (exact ke' (view_at g (run_event e d))).
Proof.
  intros Hd Hd' He Hc Hke.
  pose proof (event_claimed e g d He Hc) as Hc'.
  destruct (view_claimed g d Hd Hc) as [Hl Hr].
  destruct (view_claimed g _ Hd' Hc') as [Hl' Hr'].
  pose proof (event_link_step e g d Hd) as Hst.
  assert (∀ gt, view_at g (run_event e d) = regate gt (view_at g d) →
    revoked_by (the_gate (view_at g d)) ⊆ revoked_by gt → links gt ## revoked_by gt →
    ∃ ke', ke ⊆ ke' ∧ keyed ke' (the_gate (view_at g (run_event e d)))
      ∧ rtc DeviceLinkTla.step (exact ke (view_at g d)) (exact ke' (view_at g (run_event e d))))
    as Hregate.
  { intros gt Heq. rewrite Heq in *. by apply (exact_regate owner). }
  assert (quiet_step g d (run_event e d) →
    ∃ ke', ke ⊆ ke' ∧ keyed ke' (the_gate (view_at g (run_event e d)))
      ∧ rtc DeviceLinkTla.step (exact ke (view_at g d)) (exact ke' (view_at g (run_event e d))))
    as Hquiet.
  { intros [[_ Heq]|Hm].
    - apply (Hregate _ Heq); [done|]. apply gate_ok. by apply default_registry_ok.
    - exists ke. split; [done|]. split; [|by apply (exact_moves owner)].
      by rewrite (moves_gate _ _ Hm). }
  unfold link_step in Hst.
  destruct e as [[g' roster lks revs| | | | | | | | | |]| | | |]; try (by apply Hquiet).
  case_decide as Hg; [subst g'|by apply Hquiet].
  destruct (set_roster_with_devices g roster lks revs d).1.
  - apply (Hregate _ Hst); [apply update_revoked_sticky|apply gate_ok].
    apply update_reg_ok. by apply default_registry_ok.
  - exists ke. by rewrite Hst.
Qed.

Lemma claimed_events g (es : list (event T)) d :
  Forall (claims_ok g) es → reg_claimed (GroupDevices.registry (devices_at g d)) →
  reg_claimed (GroupDevices.registry (devices_at g (run_events es d))).
Proof.
  unfold run_events. intros Hes. revert d. induction Hes as [|e es He _ IH]; intros d Hd; [done|].
  simpl. by apply IH, event_claimed.
Qed.

Lemma built_claimed g address pinned mk :
  reg_claimed (GroupDevices.registry (devices_at g (built (T:=T) address pinned mk))).
Proof.
  assert (devices_at g (built (T:=T) address pinned mk) = GroupDevices.default) as ->
    by (unfold devices_at; by destruct pinned).
  split; [intros dev l; simpl; by rewrite lookup_empty|intros m dev; simpl; set_solver].
Qed.

(** The group as the model's state [st] has it: its members are the devices and the comms
    identities the model has meshed, its gate is the model's, so that whom the transport
    authorises the model allows, and the revocations are the registry's. *)
Record shows g d (st : DeviceLinkTla.state) : Prop := {
  shows_mesh :
    admitted_f (membership_at g d) = DeviceLinkTla.admitted st ∪ DeviceLinkTla.legacy st;
  shows_gate a :
    a ∈ allowed_f (membership_at g d)
    ↔ DeviceLinkTla.allowed_device st a ∨ DeviceLinkTla.legacy_allowed st a;
  shows_wire s a :
    groups_f d !! g = Some s → a ∈ authorized (ClusterSession.transport s) →
    DeviceLinkTla.allowed_device st a ∨ DeviceLinkTla.legacy_allowed st a;
  shows_revoked :
    DeviceLinkTla.revoked_by st
    = DeviceRegistry.revoked_f (GroupDevices.registry (devices_at g d));
}.

Lemma exact_shows g d ke :
  daemon_inv d → reg_claimed (GroupDevices.registry (devices_at g d)) →
  shows g d (exact ke (view_at g d)).
Proof.
  intros Hd Hc. destruct (view_claimed g d Hd Hc) as [Hl Hr].
  pose proof (gated_at g d Hd) as Hg. pose proof Hg as (Hreg & _ & Hal).
  assert (∀ a, a ∈ allowed_f (membership_at g d)
    ↔ DeviceLinkTla.allowed_device (exact ke (view_at g d)) a
      ∨ DeviceLinkTla.legacy_allowed (exact ke (view_at g d)) a) as Hgate.
  { intros a. rewrite (gate_of_allowed _ _ Hreg Hal). unfold view_at, view, regate in *.
    f_equiv; [by apply (exact_allowed_device owner)|apply exact_legacy_allowed]. }
  split; [|done| |done].
  - by apply meshed_is_viewed.
  - intros s a Hs Ha. apply Hgate. unfold membership_at. rewrite Hs. simpl.
    by apply (inv_session _ Hd) in Hs as [Hau _]; apply Hau.
Qed.

(** C8: The daemon refines [formal/DeviceLink.tla] as it is written, as long as each device key is
    claimed for one member: if every verified link and every valid revocation that clients send
    for a group is by the [owner] of its device, then one more event does to the group exactly
    what [link_step] says (a [SetRoster] installs the new gate and keeps exactly the meshed
    peers it still allows), and that is a run of the model (some devices drawing their keys in
    it) between two states that are the group's: its admitted peers are the model's meshed
    devices and comms identities and nobody else, its allowed set is the model's, revocations
    included. The model reaches both, and all the invariants of [DeviceLink.cfg] hold, for any
    number of members, devices and keys. *)
Theorem daemon_refines_device_link_tla address pinned mk (es : list (event T)) e g :
  (∀ g t, mk g = Ok t → authorized t = ∅) → Forall event_ok (es ++ [e]) →
  Forall (claims_ok g) (es ++ [e]) →
  let d := run_events es (built address pinned mk) in
  let d' := run_event e d in
  link_step e g d
  ∧ ∃ ke ke',
    let st := exact ke (view_at g d) in
    let st' := exact ke' (view_at g d') in
    shows g d st ∧ shows g d' st'
    ∧ rtc DeviceLinkTla.step (DeviceLinkTla.init ∅) st
    ∧ ke ⊆ ke' ∧ rtc DeviceLinkTla.step st st'
    ∧ DeviceLinkTla.safe st'.
Proof.
  intros Hmk [Hes He]%Forall_app [Hcs Hc]%Forall_app d.
  apply Forall_cons in He as [He _], Hc as [Hc _].
  assert (∀ es, Forall event_ok es → daemon_inv (run_events es (built address pinned mk))) as Hinv
    by (intros; by apply inv_reachable).
  assert (∃ ke, keyed ke (the_gate (view_at g d))
    ∧ rtc DeviceLinkTla.step (DeviceLinkTla.init ∅) (exact ke (view_at g d))) as (ke & Hke & Hrun).
  { subst d. clear He Hc. induction es as [|e0 es IH] using rev_ind.
    - exists ∅. unfold run_events. cbn [fold_left]. rewrite view_built. split; [|done].
      split; [done|]. by intros m dev [Hin%elem_of_empty|Hin%elem_of_empty]%elem_of_union.
    - pose proof Hes as [Hes1 He0]%Forall_app. pose proof Hcs as [Hcs1 Hc0]%Forall_app.
      apply Forall_cons in He0 as [He0 _], Hc0 as [Hc0 _].
      destruct (IH Hes1 Hcs1) as (ke & Hke & Hrun).
      pose proof (Hinv _ Hes) as Hd'. unfold run_events in Hd' |- *. rewrite fold_left_app in Hd' |- *.
      destruct (exact_event e0 g (run_events es (built address pinned mk)) ke)
        as (ke' & _ & Hke' & Hrun'); [by apply Hinv|done|done| |done|].
      + apply claimed_events; [done|apply built_claimed].
      + exists ke'. split; [done|]. by etrans. }
  assert (daemon_inv d) as Hd by by apply Hinv.
  assert (daemon_inv (run_event e d)) as Hd' by by apply inv_event.
  assert (reg_claimed (GroupDevices.registry (devices_at g d))) as Hcl
    by (apply claimed_events; [done|apply built_claimed]).
  split; [by apply event_link_step|].
  destruct (exact_event e g d ke) as (ke' & Hsub & _ & Hstep); [done..|].
  exists ke, ke'. cbv zeta. split_and!; [by apply exact_shows| |done..|].
  - apply exact_shows; [done|]. by apply event_claimed.
  - apply DeviceLinkTla.ok_safe, (DeviceLinkTla.reachable_ok ∅). by etrans.
Qed.

End daemon.

(** The example of [DeviceLinkSpec]: M1's device joins and is revoked. *)
Module ExampleTla.

#[local] Instance crypto : Crypto := ExampleCrypto.crypto.
#[local] Instance debug : StrDebug := ExampleDaemon.debug.

Definition owner (device : string) : string := ExampleVerifier.M1.

Lemma claims : Forall (claims_ok owner "g") (ExampleDeviceLink.joined ++ [ExampleDeviceLink.revoking]).
Proof.
  assert (∀ s c, s ∈ map DeviceLinkWire.into ExampleDeviceLink.links → verified_link s = Some c →
    owner (DeviceLink.device c) = DeviceLink.member c) as Hl.
  { intros s c ->%list_elem_of_singleton Hc. vm_compute in Hc. by injection Hc as <-. }
  repeat apply Forall_cons_2; simpl; try done; intros _; (split; [exact Hl|]).
  - intros r m dev Hr. by apply elem_of_nil in Hr.
  - intros r m dev ->%list_elem_of_singleton (rev & Hrev & _ & <- & _).
    vm_compute in Hrev. by injection Hrev as <-.
Qed.

End ExampleTla.

Lemma daemon_refines_device_link_tla_witness :
  ∃ ke,
    let d' := run_event (H:=ExampleCrypto.crypto) (H0:=ExampleDaemon.debug)
      ExampleDeviceLink.revoking ExampleDeviceLink.d in
    let st := exact ke (view_at "g" d') in
    DeviceLinkTla.safe st
    ∧ admitted_f (membership_at "g" d') = DeviceLinkTla.admitted st ∪ DeviceLinkTla.legacy st.
Proof.
  destruct (daemon_refines_device_link_tla (H:=ExampleCrypto.crypto)
    (H0:=ExampleDaemon.debug) ExampleTla.owner ExampleDaemon.self None ExampleDaemon.mk
    ExampleDeviceLink.joined ExampleDeviceLink.revoking "g" ExampleDaemon.mk_fresh
    ExampleDeviceLink.events_ok ExampleTla.claims)
    as (_ & _ & ke' & _ & Hshows & _ & _ & _ & Hsafe).
  exists ke'. exact (conj Hsafe (shows_mesh _ _ _ Hshows)).
Defined.
