(* ===== verification/DaemonFunctional.v ===== *)
(** * What each daemon operation answers

    Functional theorems on the operations of [ClusterDaemon]: sharing and receiving files,
    paging, the peer and member views, seeds, and leaving. *)

From S2P Require Import Prelude RustStr Admission Membership Session Seed Device Registry.
From S2P Require Import EffectiveRoster Transport DeviceWire Daemon Ipc DaemonInv.
From S2P Require Import DaemonSafety.
Import ClusterMembership ClusterDaemon.
Local Open Scope N_scope.

Section functional.
  Context {T : Type} `{!MeshTransport T, !Crypto, !StrDebug}.
  Implicit Types d : ClusterDaemon.t T.

(** A group's shared set, empty when it has none. *)
Definition shared_of (g : string) d : gset string := default ∅ (shared_files d !! g).

(** ** Draining *)

Lemma drain_into_shared_run g d s :
  groups_f d !! g = Some s →
  let ms := List.filter (λ m, is_valid_cid (MeshMessage.data m))
              (drain (ClusterSession.transport s)).1 in
  let r := drain_into_shared g d in
  r.1 = ms
  ∧ shared_of g r.2 = fold_left insert_shared ms (shared_of g d)
  ∧ groups_f r.2 !! g
    = Some (ClusterSession.transport_mut (λ _, (drain (ClusterSession.transport s)).2) s)
  ∧ (ms = [] → shared_files r.2 = shared_files d).
Proof.
  intros Hs. cbv zeta. unfold drain_into_shared. rewrite Hs.
  destruct (drain _) as [drained tr]. cbn [fst snd]. case_bool_decide as Hms.
  - rewrite Hms. split_and!; [done..| |done]. simpl. by rewrite lookup_insert_eq.
  - split_and!; [done| | |done].
    + unfold shared_of. simpl. by rewrite lookup_insert_eq.
    + simpl. by rewrite lookup_insert_eq.
Qed.

Lemma insert_shared_mono (set : gset string) m : set ⊆ insert_shared set m.
Proof. unfold insert_shared. case_match; set_solver. Qed.

Lemma fold_insert_mono ms (set : gset string) : set ⊆ fold_left insert_shared ms set.
Proof.
  revert set. induction ms as [|m ms IH]; intros set; simpl; [done|].
  etrans; [apply (insert_shared_mono set m)|apply IH].
Qed.

(** A received file is in the set afterwards, unless the set is full. *)
Lemma fold_insert_delivered ms (set : gset string) m :
  m ∈ ms →
  MeshMessage.data m ∈ fold_left insert_shared ms set
  ∨ MAX_SHARED_FILES <= N.of_nat (size (fold_left insert_shared ms set)).
Proof.
  revert set. induction ms as [|m' ms IH]; intros set; [set_solver|].
  intros [<-|Hm]%elem_of_cons; cbn [fold_left]; [|by apply IH].
  destruct (N.ltb_spec (N.of_nat (size set)) MAX_SHARED_FILES) as [Hlt|Hge].
  - left. apply (fold_insert_mono ms). unfold insert_shared.
    rewrite (proj2 (N.ltb_lt _ _)) by done. set_solver.
  - right. etrans; [exact Hge|].
    assert (size set ≤ size (fold_left insert_shared ms (insert_shared set m)))%nat; [|lia].
    apply subseteq_size. etrans; [apply (insert_shared_mono set m)|apply fold_insert_mono].
Qed.

Lemma sync_shared g d : shared_files (sync_admission g d) = shared_files d.
Proof. unfold sync_admission. by case_match. Qed.

Lemma sync_session g d s :
  groups_f d !! g = Some s →
  groups_f (sync_admission g d) !! g = Some (ClusterSession.sync_admitted_from_wire s).
Proof. unfold sync_admission. intros ->. simpl. by rewrite lookup_insert_eq. Qed.

(** ** Paging *)

(** The page the code cuts out of the sorted set. *)
Definition page (set : gset string) (offset limit : nat) : list string :=
  take limit (drop offset (set_iter set)).

Lemma page_app set o l1 l2 : page set o l1 ++ page set (o + l1) l2 = page set o (l1 + l2).
Proof.
  unfold page. rewrite <-drop_drop, <-take_take_drop. done.
Qed.

Lemma page_whole set n : (size set <= n)%nat → page set 0 n = set_iter set.
Proof. intros Hn. unfold page. rewrite drop_0, take_ge; [done|]. by rewrite length_set_iter. Qed.

(** The successive pages of [l] files from offset [o]. *)
Fixpoint pages (set : gset string) (l o n : nat) : list string :=
  match n with
  | O => []
  | S n => page set o l ++ pages set l (o + l) n
  end.

Lemma pages_page set l o n : pages set l o n = page set o (n * l).
Proof.
  revert o. induction n as [|n IH]; intros o; simpl.
  - unfold page. by rewrite take_0.
  - by rewrite IH, page_app.
Qed.
End functional.

(** ** Theorems *)

(** [share_file] succeeds exactly on a joined group, a well-formed CID and either a known
    file or a set below the cap. Success publishes that one CID under this node's address
    on that group's transport and adds it to the set; every refusal publishes nothing and
    leaves the set as it was. *)
Theorem share_file_spec {T} `{!MeshTransport T, !Crypto, !StrDebug}
    (g cid : string) (d : ClusterDaemon.t T) :
  let '(r, d') := share_file g cid d in
  (is_ok r = true ↔ is_Some (groups_f d !! g) ∧ is_valid_cid cid = true
     ∧ (cid ∈ shared_of g d ∨ N.of_nat (size (shared_of g d)) < MAX_SHARED_FILES))
  ∧ (is_ok r = true → shared_of g d' = {[cid]} ∪ shared_of g d
     ∧ groups_f d' = alter (ClusterSession.transport_mut (publish (self_address d) cid)) g
                       (groups_f d))
  ∧ (is_ok r = false → groups_f d' = groups_f d ∧ shared_of g d' = shared_of g d).
Proof.
  unfold share_file. fold (shared_of g d).
  destruct (groups_f d !! g) as [s|] eqn:Hs; [|split_and!; try done; naive_solver].
  destruct (is_valid_cid cid) eqn:Hc; cbn [negb]; [|split_and!; try done; naive_solver].
  assert (∀ x (d : ClusterDaemon.t T), shared_of g (set_shared <[g:=x]> d) = x) as Hset
    by (intros; unfold shared_of; simpl; by rewrite lookup_insert_eq).
  destruct (bool_decide_reflect (cid ∈ shared_of g d)) as [Hin|Hin]; cbn [negb andb];
    [|destruct (N.leb_spec MAX_SHARED_FILES (N.of_nat (size (shared_of g d)))) as [Hge|Hlt]].
  2: { split_and!; [|done|by rewrite Hset]. split; [done|]. intros (_ & _ & [?|?]); [done|lia]. }
  all: split_and!; [split; [eauto|done]| |done]; intros _; rewrite Hset; split; [done|];
    simpl; apply map_eq; intros g'; (destruct (decide (g = g')) as [<-|];
      [by rewrite lookup_insert_eq, lookup_alter_eq, Hs
      |by rewrite lookup_insert_ne, lookup_alter_ne]).
Qed.

(** [poll] delivers every well-formed message the transport held, in order, drops the
    rest, and empties the inbox; afterwards every delivered CID is in the group's set
    unless the set is at its cap, and no file has left it. *)
Theorem poll_delivers {T} `{!MeshTransport T, !Crypto, !StrDebug}
    (g : string) (d : ClusterDaemon.t T) (s : ClusterSession.t T) :
  groups_f d !! g = Some s →
  let '(ms, d') := poll g d in
  ms = List.filter (λ m, is_valid_cid (MeshMessage.data m))
         (drain (ClusterSession.transport s)).1
  ∧ (∀ m, m ∈ ms → MeshMessage.data m ∈ shared_of g d'
       ∨ MAX_SHARED_FILES <= N.of_nat (size (shared_of g d')))
  ∧ shared_of g d ⊆ shared_of g d'
  ∧ ∃ s', groups_f d' !! g = Some s'
      ∧ ClusterSession.transport s' = (drain (ClusterSession.transport s)).2.
Proof.
  intros Hs. unfold poll. apply sync_session in Hs as Hs'.
  destruct (drain_into_shared_run g _ _ Hs') as (Hms & Hset & Hg & _). cbv zeta in *.
  assert (shared_of g (sync_admission g d) = shared_of g d) as Hsh
    by (unfold shared_of; by rewrite sync_shared).
  rewrite Hsh in Hset. destruct (drain_into_shared g _) as [ms d']. cbn [fst snd] in *.
  subst ms. split_and!; [done| | |eauto].
  - intros m Hm. rewrite Hset. by apply fold_insert_delivered.
  - rewrite Hset. apply fold_insert_mono.
Qed.

Lemma poll_delivers_witness :
  let s := ClusterSession.new [] (InProcessTransport.deliver "a" ExampleDaemon.cid
             (InProcessTransport.deliver "a" "junk" InProcessTransport.new)) in
  let d := put_session "g" s (with_factory ExampleDaemon.self
             (λ _, Ok InProcessTransport.new)) in
  (poll "g" d).1 = [{| MeshMessage.from := "a"; MeshMessage.data := ExampleDaemon.cid |}].
Proof.
  intros s d. pose proof (poll_delivers (H:=ExampleCrypto.crypto) (H0:=ExampleDaemon.debug)
    "g" d s ltac:(vm_compute; reflexivity)) as Hw.
  destruct (poll "g" d) as [ms d']. destruct Hw as [Hw _]. cbn [fst]. rewrite Hw.
  vm_compute. reflexivity.
Defined.

Section paging.
  Context {T : Type} `{!MeshTransport T, !Crypto, !StrDebug}.

Lemma put_session_id g s (d : ClusterDaemon.t T) :
  groups_f d !! g = Some s → put_session g s d = d.
Proof.
  intros Hs. destruct d as [? ? ? m ? ?]. unfold put_session, set_groups. simpl in *.
  f_equal. by apply insert_id.
Qed.

Lemma quiet_page g offset limit (d : ClusterDaemon.t T) s :
  groups_f d !! g = Some s →
  drain (ClusterSession.transport s) = ([], ClusterSession.transport s) →
  shared_files_page g offset limit d
  = (page (shared_of g d) (N.to_nat offset) (N.to_nat (N.min limit MAX_SHARED_FILES_PAGE)),
     N.of_nat (size (shared_of g d)), d).
Proof.
  intros Hs Hq.
  assert (drain_into_shared g d = ([], d)) as Hd.
  { unfold drain_into_shared. rewrite Hs, Hq. simpl. f_equal.
    unfold ClusterSession.transport_mut. destruct s. simpl. by apply put_session_id. }
  unfold shared_files_page, shared_of, page. rewrite Hd. cbn [snd].
  destruct (shared_files d !! g) as [set|]; [done|]. simpl.
  assert (set_iter (∅ : gset string) = []) as -> by (vm_compute; reflexivity).
  rewrite drop_nil, take_nil. done.
Qed.

Lemma pages_concat (set : gset string) l o n :
  concat (map (λ i, page set (o + i * l) l) (seq 0 n)) = pages set l o n.
Proof.
  revert o. induction n as [|n IH]; intros o; [done|].
  cbn [seq map concat pages]. rewrite Nat.mul_0_l, Nat.add_0_r. f_equal.
  rewrite <-(IH (o + l)%nat), <-seq_shift, map_map. f_equal.
  apply map_ext. intros i. f_equal. lia.
Qed.

Lemma seed_Ok g (d : ClusterDaemon.t T) text addrs :
  seed g d = Ok (text, addrs) →
  GroupSeed.validate {| GroupSeed.group := g; GroupSeed.addrs := addrs |} = Ok tt
  ∧ text = GroupSeed.encode {| GroupSeed.group := g; GroupSeed.addrs := addrs |}
  ∧ ∃ s, groups_f d !! g = Some s ∧ seed_addrs (ClusterSession.transport s) = Ok addrs.
Proof.
  unfold seed. destruct (groups_f d !! g) as [s|]; [|done].
  destruct (seed_addrs _) as [l|] eqn:El; [|done]. case_bool_decide; [done|].
  unfold GroupSeed.new.
  destruct (GroupSeed.validate {| GroupSeed.group := g; GroupSeed.addrs := l |}) as [[]|] eqn:Ev;
    simpl; [|done].
  intros [= <- <-]. eauto.
Qed.
End paging.

(** Walking the shared set: on a group whose inbox is empty, the successive pages of any
    size up to the maximum, concatenated, are the whole sorted set, each file once, the
    total is its size, and reading changes nothing. *)
Theorem shared_file_pages_cover {T} `{!MeshTransport T, !Crypto, !StrDebug}
    (g : string) (d : ClusterDaemon.t T) (s : ClusterSession.t T) (l : N) (n : nat) :
  groups_f d !! g = Some s →
  drain (ClusterSession.transport s) = ([], ClusterSession.transport s) →
  l <= MAX_SHARED_FILES_PAGE →
  N.of_nat (size (shared_of g d)) <= N.of_nat n * l →
  concat (map (λ i, (shared_files_page g (N.of_nat i * l) l d).1.1) (seq 0 n))
    = set_iter (shared_of g d)
  ∧ NoDup (set_iter (shared_of g d))
  ∧ ∀ o, (shared_files_page g o l d).2 = d
      ∧ (shared_files_page g o l d).1.2 = N.of_nat (size (shared_of g d)).
Proof.
  intros Hs Hq Hl Hn. split_and!.
  - transitivity (concat (map (λ i, page (shared_of g d) (0 + i * N.to_nat l) (N.to_nat l))
      (seq 0 n))).
    { f_equal. apply map_ext. intros i. rewrite (quiet_page _ _ _ _ s) by done. cbn [fst].
      f_equal; lia. }
    rewrite pages_concat, pages_page. apply page_whole. lia.
  - apply NoDup_set_iter.
  - intros o. by rewrite (quiet_page _ _ _ _ s).
Qed.

Lemma shared_file_pages_cover_witness :
  let s := ClusterSession.new [] InProcessTransport.new in
  let d := set_shared <["g" := {["a"; "b"; "c"]}]> (put_session "g" s
    (with_factory ExampleDaemon.self (λ _, Ok InProcessTransport.new))) in
  (shared_files_page "g" 0 2 d).1.1 ++ (shared_files_page "g" 2 2 d).1.1 = ["a"; "b"; "c"].
Proof.
  intros s d. pose proof (shared_file_pages_cover (H:=ExampleCrypto.crypto)
    (H0:=ExampleDaemon.debug) "g" d s 2 2) as Hw.
  destruct Hw as [Hw _]; [vm_compute; reflexivity..|vm_compute; discriminate
    |vm_compute; discriminate|].
  transitivity (set_iter (shared_of "g" d)); [|vm_compute; reflexivity].
  rewrite <-Hw. cbn [seq map concat]. by rewrite app_nil_r.
Defined.

(** The peers listed for a group are exactly its allowed addresses, sorted and once each;
    a peer is online exactly when the transport reports it connected, and it acts for a
    member exactly when it is a linked device of that member. Listing them records as
    admitted exactly the connected peers that are allowed. *)
Theorem peers_spec {T} `{MeshTransportLaws T, !Crypto, !StrDebug}
    (address : string) (pinned : option string) (mk : string → result T string)
    (es : list (event T)) (g : string) (s : ClusterSession.t T) :
  (∀ g t, mk g = Ok t → authorized t = ∅) → Forall event_ok es →
  let d := run_events es (built address pinned mk) in
  groups_f d !! g = Some s →
  let '(vs, d') := peers g d in
  map PeerView.address vs = set_iter (allowed_f (ClusterSession.membership s))
  ∧ (∀ v, v ∈ vs →
      (PeerView.online v = true ↔ PeerView.address v ∈ connected (ClusterSession.transport s))
      ∧ ∀ m, PeerView.member v = Some m ↔
          ∃ st l, device_state d !! g = Some st
            ∧ DeviceRegistry.links_f (GroupDevices.registry st) !! PeerView.address v = Some l
            ∧ DeviceLink.member l = m)
  ∧ ∃ s', groups_f d' !! g = Some s'
      ∧ ∀ a, a ∈ admitted_f (ClusterSession.membership s') ↔
          a ∈ connected (ClusterSession.transport s)
          ∧ a ∈ allowed_f (ClusterSession.membership s).
Proof.
  intros Hmk Hes d Hs. pose proof (inv_reachable address pinned mk es Hmk Hes) as Hd.
  pose proof (inv_session _ Hd _ _ Hs) as Hi. apply sync_session in Hs as Hs'.
  unfold peers. cbv zeta. rewrite Hs'. rewrite sync_devices. split_and!.
  - rewrite map_map. simpl. apply map_id.
  - intros v (a & -> & Ha)%list_elem_of_fmap. apply elem_of_set_iter in Ha. simpl in *.
    split.
    + rewrite bool_decide_eq_true. apply elem_of_list_to_set.
    + intros m. destruct (device_state d !! g) as [st|]; simpl; [|naive_solver].
      unfold DeviceRegistry.member_of.
      rewrite canonical_address_id by (by eapply session_allowed_canonical).
      rewrite fmap_Some. naive_solver.
  - eexists. split; [exact Hs'|]. intros a.
    unfold ClusterSession.sync_admitted_from_wire. cbn [ClusterSession.membership].
    rewrite (sync_admitted_sets _ (ClusterSession.membership s)).
    by rewrite elem_of_intersection, elem_of_list_to_set.
Qed.

Lemma peers_spec_witness :
  map PeerView.address (peers "g" (run_events (H:=ExampleCrypto.crypto)
    (H0:=ExampleDaemon.debug) ExampleDaemon.setup
    (built ExampleDaemon.self None ExampleDaemon.mk))).1 = [ExampleVerifier.M2].
Proof.
  pose proof (peers_spec (H0:=ExampleCrypto.crypto) (H1:=ExampleDaemon.debug)
    ExampleDaemon.self None ExampleDaemon.mk ExampleDaemon.setup "g"
    ExampleDaemon.s0 ExampleDaemon.mk_fresh ExampleDaemon.setup_ok ExampleDaemon.s0_eq) as Hw.
  destruct (peers "g" _) as [vs d']. destruct Hw as [Hw _]. cbn [fst]. rewrite Hw.
  vm_compute. reflexivity.
Defined.

(** The seed one member shares works for another: the text [seed] gives for a group,
    passed to [add_seed] on any daemon in that group, hands exactly the shared addresses
    to that group's transport; for any other group it is refused and changes nothing. *)
Theorem seed_then_add_seed {T} `{!MeshTransport T, !Crypto, !StrDebug}
    (dA dB : ClusterDaemon.t T) (g text : string) (addrs : list string)
    (s : ClusterSession.t T) :
  seed g dA = Ok (text, addrs) → utf8_valid g = true → str_len text <= MAX_SEED_LEN →
  groups_f dB !! g = Some s →
  let r := add_peers addrs (ClusterSession.transport s) in
  add_seed g text dB
    = (r.1, put_session g (ClusterSession.transport_mut (λ _, r.2) s) dB)
  ∧ ∀ g', g' ≠ g → ∃ e, add_seed g' text dB = (Err e, dB).
Proof.
  intros (Hv & -> & _)%seed_Ok Hu Hlen Hs. cbv zeta.
  assert (GroupSeed.decode (GroupSeed.encode
    {| GroupSeed.group := g; GroupSeed.addrs := addrs |})
    = Ok {| GroupSeed.group := g; GroupSeed.addrs := addrs |}) as Hdec.
  { rewrite <-(str_app_nil_r (GroupSeed.encode _)).
    by apply (decode_encode_padded _ "" ""). }
  split.
  - rewrite add_seed_run, Hdec. simpl. rewrite bool_decide_eq_true_2 by done. simpl.
    by rewrite Hs.
  - intros g' Hne. rewrite add_seed_run, Hdec. simpl.
    rewrite bool_decide_eq_false_2 by done. simpl. eauto.
Qed.

Lemma seed_then_add_seed_witness :
  (add_seed "g" (GroupSeed.encode {| GroupSeed.group := "g";
     GroupSeed.addrs := ["/ip4/10.0.0.7/tcp/4001/p2p/QmPeer"] |}) ExampleDaemon.d0).1 = Ok 1.
Proof.
  pose proof (seed_then_add_seed (H:=ExampleCrypto.crypto) (H0:=ExampleDaemon.debug)
    ExampleDaemon.d0 ExampleDaemon.d0 "g"
    (GroupSeed.encode {| GroupSeed.group := "g";
       GroupSeed.addrs := ["/ip4/10.0.0.7/tcp/4001/p2p/QmPeer"] |}) ["/ip4/10.0.0.7/tcp/4001/p2p/QmPeer"]
    ExampleDaemon.s0) as Hw.
  destruct Hw as [Hw _].
  - vm_compute. reflexivity.
  - vm_compute. reflexivity.
  - vm_compute. discriminate.
  - exact ExampleDaemon.s0_eq.
  - rewrite Hw. reflexivity.
Defined.

(** Leaving a group forgets its session and shared files and nothing else: the group's
    reads answer empty, sharing and seeding are refused, the registry with its
    revocations is kept, and a later join starts from a session that lets nobody in. *)
Theorem leave_forgets_the_mesh_only {T} `{!MeshTransport T, !Crypto, !StrDebug}
    (g : string) (d : ClusterDaemon.t T) :
  let d' := leave g d in
  device_state d' = device_state d
  ∧ (handle_request (Peers g) d') = (Response.Peers [], d')
  ∧ (handle_request (Poll g) d') = (Response.Messages [], d')
  ∧ (handle_request (Status g) d') = (Response.Status 0 0 [], d')
  ∧ (handle_request (SharedFiles g 0 None) d') = (Response.SharedFiles [] 0 0, d')
  ∧ (∀ cid, ∃ e, handle_request (ShareFile g cid) d' = (Response.Error e, d'))
  ∧ (∃ e, handle_request (Seed g) d' = (Response.Error e, d'))
  ∧ ∀ d'', ClusterDaemon.join g d' = (Ok tt, d'') →
      shared_files d'' !! g = None ∧ device_state d'' = device_state d
      ∧ ∃ t, make_transport d g = Ok t ∧ groups_f d'' !! g = Some (ClusterSession.new [] t).
Proof.
  cbv zeta. set (d' := leave g d).
  assert (groups_f d' !! g = None) as Hg by (simpl; by rewrite lookup_delete_eq).
  assert (shared_files d' !! g = None) as Hf by (simpl; by rewrite lookup_delete_eq).
  assert (sync_admission g d' = d') as Hsync by (unfold sync_admission; by rewrite Hg).
  assert (drain_into_shared g d' = ([], d')) as Hdr by (unfold drain_into_shared; by rewrite Hg).
  cbn [handle_request]. unfold peers, poll, status, shared_files_page, respond. cbv zeta.
  rewrite Hsync, Hdr. cbn [snd]. rewrite Hg, Hf. split_and!; try done.
  - intros cid. unfold share_file. rewrite Hg. eauto.
  - unfold seed. rewrite Hg. eauto.
  - intros d'' Hj. rewrite join_run in Hj. destruct (ensure_group_allowed g d'); [|done].
    destruct (ensure_session g d') as [[s|e] d1] eqn:E; [|done]. simplify_eq.
    apply ensure_session_Ok in E as [Hs [->|(_ & _ & _ & t & Ht & -> & ->)]]; [congruence|].
    split_and!; [done..|]. exists t. split; [exact Ht|exact Hs].
Qed.
