(* ===== verification/Swarm.v ===== *)
(** * The swarm's bookkeeping (crates/cluster-daemon/src/libp2p_transport.rs, helpers)

    The pure functions the libp2p transport is built from: which addresses are kept, dialled
    and shared, how a key and a peer id become an address, what a payload must look like,
    and the per-group listen port. The libp2p crates are parameters: the class [Libp2p]. *)

From S2P Require Import Prelude RustStr Admission Seed Transport DeviceWire.
Local Open Scope N_scope.

Definition MAX_INBOX : N := 1024.
Definition MAX_BOOTSTRAP : nat := 64.
Definition MAX_REDIAL_PER_TICK : nat := 16.
Definition MAX_DISCOVERED_PEERS : nat := 256.
Definition MAX_DISCOVERED_ADDRS : nat := 8.
Definition GROUP_PORT_SPAN : N := 1024.
Global Arguments MAX_BOOTSTRAP : simpl never.
Global Arguments MAX_REDIAL_PER_TICK : simpl never.
Global Arguments MAX_DISCOVERED_PEERS : simpl never.
Global Arguments MAX_DISCOVERED_ADDRS : simpl never.

(** In milliseconds. *)
Definition IDENTIFY_TIMEOUT : N := 5000.

(** The application score of a peer that is not admitted, and the gossipsub thresholds. *)
Definition UNADMITTED_APP_SCORE : Z := -1000.
Definition GOSSIP_THRESHOLD : Z := -10.
Definition PUBLISH_THRESHOLD : Z := -50.
Definition GRAYLIST_THRESHOLD : Z := -10000.

(** ** The libp2p crates

    A multiaddr is its list of protocols; the variants the code looks at are named, any
    other is opaque. *)

Inductive Protocol (Peer Other : Type) :=
| Ip4 (a b c d : N)
| Ip6 (segments : list N)
| Dns (name : string)
| Dns4 (name : string)
| Dns6 (name : string)
| Tcp (port : N)
| P2p (id : Peer)
| OtherProtocol (o : Other).
Global Arguments Ip4 {Peer Other}.
Global Arguments Ip6 {Peer Other}.
Global Arguments Dns {Peer Other}.
Global Arguments Dns4 {Peer Other}.
Global Arguments Dns6 {Peer Other}.
Global Arguments Tcp {Peer Other}.
Global Arguments P2p {Peer Other}.
Global Arguments OtherProtocol {Peer Other}.

Class Libp2p := {
  PeerId : Type;
  peer_eq :: EqDecision PeerId;
  peer_countable :: Countable PeerId;
  peer_ord :: Ord PeerId;
  Other : Type;
  other_eq :: EqDecision Other;
  parse_multiaddr : string → result (list (Protocol PeerId Other)) string;
  multiaddr_to_string : list (Protocol PeerId Other) → string;
  PublicKey : Type;
  Secp : Type;
  to_peer_id : PublicKey → PeerId;
  try_into_secp256k1 : PublicKey → option Secp;
  to_bytes_uncompressed : Secp → string;
  multihash_code : PeerId → N;
  multihash_digest : PeerId → string;
  try_decode_protobuf : string → option PublicKey;
}.

Section swarm.
  Context `{!Libp2p, !Crypto}.

Definition Multiaddr : Type := list (Protocol PeerId Other).

#[global] Instance protocol_eq : EqDecision (Protocol PeerId Other).
Proof. solve_decision. Defined.

#[global] Instance multiaddr_eq : EqDecision Multiaddr.
Proof. unfold Multiaddr. apply _. Defined.

(** ** Addresses *)

(** [keccak256(uncompressed_pubkey[1..])[12..]] of a secp256k1 key, in hex. *)
Definition address_from_public_key (pk : PublicKey) : option string :=
  secp ← try_into_secp256k1 pk;
  let uncompressed := to_bytes_uncompressed secp in
  let digest := keccak256 (str_drop 1 uncompressed) in
  Some (hex_encode (str_drop 12 digest)).

Definition address_from_peer_id (peer : PeerId) : option string :=
  if negb (multihash_code peer =? 0) then None
  else
    pk ← try_decode_protobuf (multihash_digest peer);
    address_from_public_key pk.

Definition peer_authorized (peer : PeerId) (authorized : gset string) : bool :=
  match address_from_peer_id peer with
  | Some a => bool_decide (a ∈ authorized)
  | None => false
  end.

(** The peer id a multiaddr names: its first [/p2p/<id>]. *)
Fixpoint bootstrap_peer_id (addr : Multiaddr) : option PeerId :=
  match addr with
  | [] => None
  | P2p id :: _ => Some id
  | _ :: rest => bootstrap_peer_id rest
  end.

(** ** Whom to dial *)

Definition remember_bootstrap (bootstrap : list Multiaddr) (addr : Multiaddr)
    : list Multiaddr :=
  if bool_decide (addr ∈ bootstrap) then bootstrap
  else
    (if (MAX_BOOTSTRAP <=? length bootstrap)%nat then tail bootstrap else bootstrap) ++ [addr].

(** [DialOpts], always with [allocate_new_port]. *)
Inductive DialOpts :=
| DialPeer (id : PeerId) (addresses : list Multiaddr)
| DialUnknown (address : Multiaddr).

Definition redial_opts (addr : Multiaddr) : DialOpts :=
  match bootstrap_peer_id addr with
  | Some id => DialPeer id [addr]
  | None => DialUnknown addr
  end.

Definition redial_due (is_connected : PeerId → bool) (any_admitted : bool) (a : Multiaddr)
    : bool :=
  match bootstrap_peer_id a with
  | Some id => negb (is_connected id)
  | None => negb any_admitted
  end.

Definition redial_targets (bootstrap : list Multiaddr) (is_connected : PeerId → bool)
    (any_admitted : bool) : list Multiaddr :=
  take MAX_REDIAL_PER_TICK (List.filter (redial_due is_connected any_admitted) bootstrap).

(** Returns whether anything new was learned. *)
Definition remember_discovered (discovered : gmap PeerId (list Multiaddr)) (peer : PeerId)
    (addr : Multiaddr) : bool * gmap PeerId (list Multiaddr) :=
  if negb (bool_decide (is_Some (discovered !! peer)))
     && (MAX_DISCOVERED_PEERS <=? size discovered)%nat
  then (false, discovered)
  else
    let addrs := default [] (discovered !! peer) in
    if bool_decide (addr ∈ addrs) then (false, <[peer := addrs]> discovered)
    else
      let addrs := if (MAX_DISCOVERED_ADDRS <=? length addrs)%nat then tail addrs else addrs in
      (true, <[peer := addrs ++ [addr]]> discovered).

Definition forget_discovered (discovered : gmap PeerId (list Multiaddr)) (peer : PeerId)
    (addr : Multiaddr) : gmap PeerId (list Multiaddr) :=
  match discovered !! peer with
  | None => discovered
  | Some addrs =>
      let addrs := List.filter (λ a, negb (bool_decide (a = addr))) addrs in
      if bool_decide (addrs = []) then delete peer discovered
      else <[peer := addrs]> discovered
  end.

(** Due peers in peer-id order: the entries are visited in that order already. *)
Definition discovery_targets (discovered : gmap PeerId (list Multiaddr))
    (is_connected is_authorized : PeerId → bool) : list (PeerId * list Multiaddr) :=
  take MAX_REDIAL_PER_TICK
    (List.filter (λ e, negb (is_connected e.1) && is_authorized e.1) (map_entries discovered)).

(** ** What to share *)

Definition ip4_is_unspecified (a b c d : N) : bool :=
  (a =? 0) && (b =? 0) && (c =? 0) && (d =? 0).
Definition ip4_is_loopback (a : N) : bool := a =? 127.
Definition ip6_is_unspecified (segments : list N) : bool :=
  bool_decide (segments = [0; 0; 0; 0; 0; 0; 0; 0]).
Definition ip6_is_loopback (segments : list N) : bool :=
  bool_decide (segments = [0; 0; 0; 0; 0; 0; 0; 1]).
Definition ip6_is_link_local (segments : list N) : bool :=
  N.land (hd 0 segments) 65472 =? 65152.

(** [Some true] for loopback, [Some false] for routable, [None] for never offered. *)
Definition listener_class (a : Multiaddr) : option bool :=
  match a with
  | Ip4 a b c d :: _ =>
      if ip4_is_unspecified a b c d then None else Some (ip4_is_loopback a)
  | Ip6 segments :: _ =>
      if ip6_is_unspecified segments then None
      else if ip6_is_link_local segments then None
      else Some (ip6_is_loopback segments)
  | Dns _ :: _ | Dns4 _ :: _ | Dns6 _ :: _ => Some false
  | _ => None
  end.

Definition with_peer_id (local : PeerId) (a : Multiaddr) : Multiaddr :=
  match bootstrap_peer_id a with
  | None => a ++ [P2p local]
  | Some _ => a
  end.

Definition offer_listener (local : PeerId) (acc : list Multiaddr * list Multiaddr)
    (a : Multiaddr) : list Multiaddr * list Multiaddr :=
  let '(routable, loopback) := acc in
  let with_id := with_peer_id local a in
  match listener_class a with
  | Some false =>
      if bool_decide (with_id ∈ routable) then acc else (routable ++ [with_id], loopback)
  | Some true =>
      if bool_decide (with_id ∈ loopback) then acc else (routable, loopback ++ [with_id])
  | None => acc
  end.

Definition seed_addrs_from (listeners : list Multiaddr) (local : PeerId) : list Multiaddr :=
  let '(routable, loopback) := fold_left (offer_listener local) listeners ([], []) in
  take (N.to_nat MAX_SEED_ADDRS) (if bool_decide (routable = []) then loopback else routable).

(** ** What may come in *)

Definition accept_payload (data : string) : option string :=
  if utf8_valid data && is_valid_cid data then Some data else None.

Definition push_inbox (inbox : list MeshMessage.t) (m : MeshMessage.t)
    : bool * list MeshMessage.t :=
  if MAX_INBOX <=? N.of_nat (length inbox) then (false, inbox) else (true, inbox ++ [m]).

(** ** Seeded peers *)

Definition peer_addr_error (i : N) (what : string) : string :=
  "peer address " +:+ pretty i +:+ what.

(** One address; [i] is its position from 1. *)
Definition parse_peer_addr (local : PeerId) (i : N) (a : string) : result Multiaddr string :=
  match parse_multiaddr (trim a) with
  | Err _ => Err (peer_addr_error i " is not a multiaddr")
  | Ok ma =>
      match bootstrap_peer_id ma with
      | None => Err (peer_addr_error i " names no /p2p/ peer")
      | Some p => if decide (p = local) then Err (peer_addr_error i " is this node") else Ok ma
      end
  end.

(** [collect] of the fallible map: the first error, or every address. *)
Fixpoint parse_peer_addrs_from (local : PeerId) (i : N) (addrs : list string)
    : result (list Multiaddr) string :=
  match addrs with
  | [] => Ok []
  | a :: rest =>
      let? ma := parse_peer_addr local i a in
      let? mas := parse_peer_addrs_from local (i + 1) rest in
      Ok (ma :: mas)
  end.

Definition parse_peer_addrs (addrs : list string) (local : PeerId)
    : result (list Multiaddr) string :=
  if bool_decide (addrs = []) || (MAX_SEED_ADDRS <? N.of_nat (length addrs)) then
    Err ("between 1 and " +:+ pretty MAX_SEED_ADDRS +:+ " peer addresses, got "
         +:+ pretty (N.of_nat (length addrs)))
  else parse_peer_addrs_from local 1 addrs.

(** ** Listen addresses *)

(** [u16::from_be_bytes([h[0], h[1]])] of the digest. *)
Definition be16 (h : string) : N :=
  match h with
  | String b0 (String b1 _) => N_of_ascii b0 * 256 + N_of_ascii b1
  | _ => 0
  end.

(** [port.checked_add(off).unwrap_or(0)] on [u16]. *)
Definition group_port (port off : N) : N := if port + off <? 65536 then port + off else 0.

Definition group_listen (base : Multiaddr) (group : string) : Multiaddr :=
  map (λ p, match p with
            | Tcp 0 => Tcp 0
            | Tcp port => Tcp (group_port port (be16 (keccak256 group) mod GROUP_PORT_SPAN))
            | other => other
            end) base.

Definition ephemeral (addr : Multiaddr) : Multiaddr :=
  map (λ p, match p with Tcp _ => Tcp 0 | other => other end) addr.

End swarm.

(** [CITRATE_CLUSTER_MDNS]: the error quotes the value with [{:?}]. *)
Definition parse_flag (debug : string → string) (v : option string) : result bool string :=
  match (λ s, to_ascii_lowercase (trim s)) <$> v with
  | None => Ok false
  | Some s =>
      if decide (s ∈ [""; "0"; "false"; "off"]) then Ok false
      else if decide (s ∈ ["1"; "true"; "on"]) then Ok true
      else Err ("CITRATE_CLUSTER_MDNS must be 1 or 0, got " +:+ debug s)
  end.

(** ** Lemmas *)

Section swarm_lemmas.
  Context `{!Libp2p, !Crypto}.
  Implicit Types (a addr : Multiaddr) (peer local : PeerId).

Lemma bootstrap_peer_id_app a b :
  bootstrap_peer_id (a ++ b)
  = match bootstrap_peer_id a with Some p => Some p | None => bootstrap_peer_id b end.
Proof. induction a as [|p a IH]; [done|]. by destruct p. Qed.

Lemma with_peer_id_names local a : is_Some (bootstrap_peer_id (with_peer_id local a)).
Proof.
  unfold with_peer_id. destruct (bootstrap_peer_id a) eqn:E; [by rewrite E|].
  rewrite bootstrap_peer_id_app, E. simpl. eauto.
Qed.

(** The listeners of one class, as offered, in order and without repetition. *)
Definition offered (local : PeerId) (c : bool) (listeners out : list Multiaddr) : Prop :=
  NoDup out
  ∧ ∀ x, x ∈ out ↔ ∃ l, l ∈ listeners ∧ listener_class l = Some c ∧ x = with_peer_id local l.

Lemma offer_one local c listeners out l :
  offered local c listeners out →
  offered local c (listeners ++ [l])
    (if bool_decide (listener_class l = Some c) then
       if bool_decide (with_peer_id local l ∈ out) then out else out ++ [with_peer_id local l]
     else out).
Proof.
  intros [Hnd Hout]. case_bool_decide as Hc; [case_bool_decide as Hin|]; split.
  - done.
  - intros x. setoid_rewrite elem_of_app. setoid_rewrite list_elem_of_singleton.
    rewrite Hout. rewrite Hout in Hin. naive_solver.
  - apply NoDup_app. split_and!; [done| |apply NoDup_singleton].
    intros x Hx ->%list_elem_of_singleton. done.
  - intros x. setoid_rewrite elem_of_app. setoid_rewrite list_elem_of_singleton.
    rewrite Hout. naive_solver.
  - done.
  - intros x. setoid_rewrite elem_of_app. setoid_rewrite list_elem_of_singleton.
    rewrite Hout. naive_solver.
Qed.

Lemma offer_listeners_spec local listeners :
  offered local false listeners (fold_left (offer_listener local) listeners ([], [])).1
  ∧ offered local true listeners (fold_left (offer_listener local) listeners ([], [])).2.
Proof.
  induction listeners as [|l ls IH] using rev_ind.
  { split; (split; [constructor|set_solver]). }
  rewrite fold_left_app. cbn [fold_left].
  destruct (fold_left _ ls _) as [r lo]. cbn [fst snd] in IH. destruct IH as [Hr Hl].
  apply (offer_one _ _ _ _ l) in Hr, Hl. unfold offer_listener.
  destruct (listener_class l) as [[]|]; simpl in *; repeat case_bool_decide; try done;
    simpl; (split; assumption).
Qed.

(** ** Discovered peers *)

(** The bounds the discovery table keeps. *)
Definition discovered_ok (m : gmap PeerId (list Multiaddr)) : Prop :=
  (size m <= MAX_DISCOVERED_PEERS)%nat
  ∧ ∀ p l, m !! p = Some l → l ≠ [] ∧ (length l <= MAX_DISCOVERED_ADDRS)%nat ∧ NoDup l.

Lemma remember_discovered_ok m peer addr :
  discovered_ok m → discovered_ok (remember_discovered m peer addr).2.
Proof.
  intros [Hsize Hl]. unfold remember_discovered.
  destruct (m !! peer) as [l|] eqn:E.
  - rewrite bool_decide_eq_true_2 by eauto. cbn [negb andb default from_option id].
    destruct (Hl _ _ E) as (Hne & Hlen & Hnd).
    case_bool_decide as Hin; cbn [snd].
    + rewrite insert_id by done. done.
    + split; [rewrite map_size_insert_Some by eauto; done|].
      intros p l'. destruct (decide (peer = p)) as [<-|];
        [rewrite lookup_insert_eq; intros <-%(inj Some)|rewrite lookup_insert_ne by done; apply Hl].
      destruct (Nat.leb_spec MAX_DISCOVERED_ADDRS (length l)) as [Hfull|Hfull]; split_and!.
      * by intros [_ ?]%app_nil.
      * rewrite length_app.
        destruct l; [done|]. cbn [length tail] in *. lia.
      * apply NoDup_app. split_and!; [| |apply NoDup_singleton].
        -- destruct l; [constructor|]. by apply NoDup_cons in Hnd as [_ ?].
        -- intros x Hx ->%list_elem_of_singleton. apply Hin. destruct l; [done|]. by right.
      * by intros [_ ?]%app_nil.
      * rewrite length_app. cbn [length]. lia.
      * apply NoDup_app. split_and!; [done| |apply NoDup_singleton].
        intros x Hx ->%list_elem_of_singleton. done.
  - rewrite bool_decide_eq_false_2 by (intros []; done). cbn [negb andb].
    destruct (Nat.leb_spec MAX_DISCOVERED_PEERS (size m)); cbn [snd]; [done|]. simpl.
    split; [rewrite map_size_insert_None by done; lia|].
    intros p l'. destruct (decide (peer = p)) as [<-|];
      [rewrite lookup_insert_eq; intros <-%(inj Some)|rewrite lookup_insert_ne by done; apply Hl].
    simpl. split_and!; [done|unfold MAX_DISCOVERED_ADDRS; lia|apply NoDup_singleton].
Qed.

Lemma forget_discovered_ok m peer addr :
  discovered_ok m → discovered_ok (forget_discovered m peer addr).
Proof.
  intros [Hsize Hl]. unfold forget_discovered. destruct (m !! peer) as [l|] eqn:E; [|done].
  destruct (Hl _ _ E) as (Hne & Hlen & Hnd). case_bool_decide as Hf.
  - split; [rewrite map_size_delete_Some by eauto; lia|].
    intros p l'. rewrite lookup_delete_Some. naive_solver.
  - split; [rewrite map_size_insert_Some by eauto; done|].
    intros p l'. destruct (decide (peer = p)) as [<-|];
      [rewrite lookup_insert_eq; intros <-%(inj Some)|rewrite lookup_insert_ne by done; apply Hl].
    split_and!; [done| |by apply NoDup_filter_bool].
    etrans; [|exact Hlen]. apply filter_length_le.
Qed.

Lemma elem_of_take_filter {A} (P : A → bool) n l x :
  x ∈ take n (List.filter P l) → P x = true ∧ x ∈ l.
Proof.
  intros Hx. assert (x ∈ List.filter P l) as Hx'
    by (eapply elem_of_submseteq; [exact Hx|apply sublist_submseteq, sublist_take]).
  apply list_elem_of_In, filter_In in Hx' as [Hin ?].
  split; [done|by apply list_elem_of_In].
Qed.

(** Everything due is taken, unless the tick is full. *)
Lemma take_filter_complete {A} (P : A → bool) n l x :
  x ∈ l → P x = true →
  x ∈ take n (List.filter P l) ∨ length (take n (List.filter P l)) = n.
Proof.
  intros Hin HP. destruct (Nat.le_gt_cases (length (List.filter P l)) n).
  - left. rewrite take_ge by done. apply list_elem_of_In, filter_In. by rewrite <-list_elem_of_In.
  - right. rewrite length_take. lia.
Qed.

(** The parsing of a seed's addresses, one by one. *)
Lemma parse_peer_addr_Ok local i x ma :
  parse_peer_addr local i x = Ok ma ↔
  parse_multiaddr (trim x) = Ok ma ∧ ∃ p, bootstrap_peer_id ma = Some p ∧ p ≠ local.
Proof.
  unfold parse_peer_addr. destruct (parse_multiaddr _) as [ma'|]; [|naive_solver].
  destruct (bootstrap_peer_id ma') as [p|] eqn:E; [case_decide|]; naive_solver.
Qed.

Lemma parse_peer_addrs_from_Ok local i addrs mas :
  parse_peer_addrs_from local i addrs = Ok mas ↔
  Forall2 (λ x ma, parse_multiaddr (trim x) = Ok ma
    ∧ ∃ p, bootstrap_peer_id ma = Some p ∧ p ≠ local) addrs mas.
Proof.
  revert i mas. induction addrs as [|x addrs IH]; intros i mas; simpl.
  - split; [by intros [= <-]|].
    intros Hf. by apply Forall2_nil_inv_l in Hf as ->.
  - destruct (parse_peer_addr local i x) as [ma|e] eqn:Ex.
    + destruct (parse_peer_addrs_from local (i + 1) addrs) as [mas'|e] eqn:Er.
      * apply parse_peer_addr_Ok in Ex. pose proof (proj1 (IH _ _) Er) as Hf. split.
        -- intros [= <-]. by constructor.
        -- intros (ma2 & mas2 & Hx2 & Hf2 & ->)%Forall2_cons_inv_l.
           destruct Ex as [Ex _], Hx2 as [Hx2 _]. rewrite Ex in Hx2. injection Hx2 as ->.
           apply (IH (i + 1)) in Hf2. rewrite Er in Hf2. by injection Hf2 as ->.
      * split; [done|]. intros (ma2 & mas2 & _ & Hf2 & _)%Forall2_cons_inv_l.
        apply (IH (i + 1)) in Hf2. by rewrite Er in Hf2.
    + split; [done|]. intros (ma2 & mas2 & Hx2 & _)%Forall2_cons_inv_l.
      apply (parse_peer_addr_Ok _ i) in Hx2. by rewrite Ex in Hx2.
Qed.
End swarm_lemmas.

(** ** A libp2p for examples: a peer id is its public key, an address one [/p2p/] part *)

Module ExampleLibp2p.

#[local] Instance crypto : Crypto := ExampleCrypto.crypto.

#[local] Instance libp2p : Libp2p := {|
  PeerId := string;
  Other := unit;
  parse_multiaddr s := if str_is_empty s then Err "empty" else Ok [Tcp 4001; P2p s];
  multiaddr_to_string _ := "/tcp/4001/p2p/peer";
  PublicKey := string;
  Secp := string;
  to_peer_id pk := pk;
  try_into_secp256k1 pk := Some pk;
  to_bytes_uncompressed pk := String "004" pk;
  multihash_code _ := 0;
  multihash_digest p := p;
  try_decode_protobuf s := Some s;
|}.

End ExampleLibp2p.

(** ** Theorems *)

(** What a seed offers: at most [MAX_SEED_ADDRS] addresses, each once, each a listener's
    with this node's peer id on it (so each names a peer); never an unspecified or
    link-local one; a loopback one only when nothing routable listens; and no routable
    listener is left out unless the seed is full. *)
Theorem seed_addrs_from_spec `{!Libp2p} (listeners : list Multiaddr) (local : PeerId) :
  let out := seed_addrs_from listeners local in
  (length out <= N.to_nat MAX_SEED_ADDRS)%nat ∧ NoDup out
  ∧ (∀ x, x ∈ out → is_Some (bootstrap_peer_id x)
       ∧ ∃ l c, l ∈ listeners ∧ listener_class l = Some c ∧ x = with_peer_id local l)
  ∧ ((∃ l, l ∈ listeners ∧ listener_class l = Some false) →
     (∀ x, x ∈ out → ∃ l, l ∈ listeners ∧ listener_class l = Some false
        ∧ x = with_peer_id local l)
     ∧ ∀ l, l ∈ listeners → listener_class l = Some false →
        with_peer_id local l ∈ out ∨ length out = N.to_nat MAX_SEED_ADDRS).
Proof.
  cbn zeta. unfold seed_addrs_from.
  destruct (offer_listeners_spec local listeners) as [[Hnr Hr] [Hnl Hl]].
  destruct (fold_left _ listeners _) as [r lo]. cbn [fst snd] in *.
  set (n := N.to_nat MAX_SEED_ADDRS). set (src := if bool_decide (r = []) then lo else r).
  assert (∀ x, x ∈ take n src → x ∈ src) as Htake
    by (intros x Hx; eapply elem_of_submseteq; [exact Hx|apply sublist_submseteq, sublist_take]).
  split_and!.
  - rewrite length_take. lia.
  - apply (sublist_NoDup _ src); [|apply sublist_take]. unfold src. by case_match.
  - intros x Hx%Htake.
    assert (∃ l c, l ∈ listeners ∧ listener_class l = Some c ∧ x = with_peer_id local l)
      as (l & c & ? & ? & ->).
    { unfold src in Hx. case_match; [apply Hl in Hx|apply Hr in Hx]; naive_solver. }
    split; [apply with_peer_id_names|eauto].
  - intros (l0 & Hl0 & Hc0).
    assert (src = r) as Hsrc.
    { unfold src. rewrite bool_decide_eq_false_2; [done|]. intros ->.
      assert (with_peer_id local l0 ∈ @nil Multiaddr) by (apply Hr; eauto). set_solver. }
    split.
    + intros x Hx%Htake. rewrite Hsrc in Hx. by apply Hr.
    + intros l Hin Hc. rewrite Hsrc.
      destruct (Nat.le_gt_cases (length r) n).
      * left. rewrite take_ge by done. apply Hr. eauto.
      * right. rewrite length_take. lia.
Qed.

Lemma seed_addrs_from_spec_witness :
  is_Some (bootstrap_peer_id (H:=ExampleLibp2p.libp2p)
    (hd [] (seed_addrs_from (H:=ExampleLibp2p.libp2p) [[Ip4 10 0 0 7; Tcp 4001]] "me"))).
Proof.
  apply (seed_addrs_from_spec (H:=ExampleLibp2p.libp2p) [[Ip4 10 0 0 7; Tcp 4001]] "me").
  by left.
Defined.

(** The memory of discovered peers is bounded whatever the network announces: over any
    sequence of discoveries and expiries at most [MAX_DISCOVERED_PEERS] peers are kept,
    each with at least one and at most [MAX_DISCOVERED_ADDRS] addresses, without
    repetition; and a record reported as new is kept. *)
Theorem discovery_bounded `{!Libp2p} (es : list (bool * (PeerId * Multiaddr)))
    (peer : PeerId) (addr : Multiaddr) :
  let m := fold_left (λ m (e : bool * (PeerId * Multiaddr)),
    if e.1 then (remember_discovered m e.2.1 e.2.2).2
    else forget_discovered m e.2.1 e.2.2) es ∅ in
  (size m <= MAX_DISCOVERED_PEERS)%nat
  ∧ (∀ p l, m !! p = Some l →
       l ≠ [] ∧ (length l <= MAX_DISCOVERED_ADDRS)%nat ∧ NoDup l)
  ∧ let '(fresh, m') := remember_discovered m peer addr in
    fresh = true → ∃ l, m' !! peer = Some l ∧ last l = Some addr.
Proof.
  cbn zeta. set (m := fold_left _ es ∅).
  assert (discovered_ok m) as [Hsize Hl].
  { subst m. assert (discovered_ok ∅) as H0.
    { split; [rewrite map_size_empty; lia|]. intros p l. by rewrite lookup_empty. }
    revert H0. generalize (∅ : gmap PeerId (list Multiaddr)).
    induction es as [|[[] [p a]] es IH]; intros m Hm; simpl; [done|..]; apply IH;
      auto using remember_discovered_ok, forget_discovered_ok. }
  split_and!; [done..|].
  unfold remember_discovered. destruct (negb _ && _); [done|].
  case_bool_decide; [done|].
  intros _. eexists. rewrite lookup_insert_eq. split; [done|]. apply last_snoc.
Qed.

(** Whom a tick dials: only discovered peers that the group authorises and that are not
    connected, in peer-id order, each once, at most [MAX_REDIAL_PER_TICK] of them, and
    every due peer unless the tick is full; of the bootstrap list, only addresses whose
    peer is not connected (or that name none while nobody is admitted). *)
Theorem dial_targets_spec `{!Libp2p} (m : gmap PeerId (list Multiaddr))
    (bootstrap : list Multiaddr) (connected authorized : PeerId → bool) (admitted : bool) :
  let due := discovery_targets m connected authorized in
  let redial := redial_targets bootstrap connected admitted in
  (length due <= MAX_REDIAL_PER_TICK)%nat ∧ (length redial <= MAX_REDIAL_PER_TICK)%nat
  ∧ StronglySorted ord_le due.*1 ∧ NoDup due.*1
  ∧ (∀ p l, (p, l) ∈ due → m !! p = Some l ∧ connected p = false ∧ authorized p = true)
  ∧ (∀ p l, m !! p = Some l → connected p = false → authorized p = true →
       (p, l) ∈ due ∨ length due = MAX_REDIAL_PER_TICK)
  ∧ (∀ a, a ∈ redial → a ∈ bootstrap
       ∧ match bootstrap_peer_id a with
         | Some p => connected p = false | None => admitted = false end).
Proof.
  cbn zeta. unfold discovery_targets, redial_targets.
  set (P := λ e : PeerId * list Multiaddr, negb (connected e.1) && authorized e.1).
  assert ((take MAX_REDIAL_PER_TICK (List.filter P (map_entries m))).*1
    `sublist_of` (map_entries m).*1) as Hsub.
  { apply (sublist_map fst). etrans; [apply sublist_take|apply sublist_filter_bool]. }
  rewrite map_entries_keys in Hsub. split_and!.
  - rewrite length_take. lia.
  - rewrite length_take. lia.
  - eapply StronglySorted_sublist; [exact Hsub|apply set_iter_Sorted].
  - eapply sublist_NoDup; [apply NoDup_set_iter|exact Hsub].
  - intros p l [HP Hin]%elem_of_take_filter. apply elem_of_map_entries in Hin.
    subst P. simpl in HP. split_bools. done.
  - intros p l Hin Hc Ha. apply take_filter_complete; [by apply elem_of_map_entries|].
    subst P. simpl. by rewrite Hc, Ha.
  - intros a [HP Hin]%elem_of_take_filter. split; [done|]. unfold redial_due in HP.
    destruct (bootstrap_peer_id a); by apply negb_true_iff in HP.
Qed.

(** Per-group listening: a fixed base port moves by less than [GROUP_PORT_SPAN], the same
    for the same group, and never wraps: it stays a valid port or becomes ephemeral (0);
    an ephemeral base stays ephemeral, and nothing else of the address changes. *)
Theorem group_listen_spec `{!Libp2p, !Crypto} (base : Multiaddr) (group : string) (i : nat)
    (p : Protocol PeerId Other) :
  base !! i = Some p →
  match p with
  | Tcp port =>
      ∃ port', group_listen base group !! i = Some (Tcp port')
      ∧ (port = 0 → port' = 0)
      ∧ (port < 65536 → port' < 65536)
      ∧ (port' = 0 ∨ port <= port' < port + GROUP_PORT_SPAN)
      ∧ (port + GROUP_PORT_SPAN <= 65536 → 0 < port → port <= port')
      ∧ ephemeral (group_listen base group) !! i = Some (Tcp 0)
  | _ => group_listen base group !! i = Some p
      ∧ ephemeral (group_listen base group) !! i = Some p
  end.
Proof.
  intros Hp. unfold group_listen, ephemeral. rewrite map_map.
  assert (∀ f : Protocol PeerId Other → Protocol PeerId Other, map f base !! i = Some (f p))
    as Hmap.
  { intros f. change ((f <$> base) !! i = Some (f p)). 
    rewrite list_lookup_fmap. exact (f_equal (fmap f) Hp). }
  rewrite !Hmap. destruct p; try done.
  assert (be16 (keccak256 group) mod GROUP_PORT_SPAN < GROUP_PORT_SPAN) as Hoff
    by (apply N.mod_lt; done).
  set (off := be16 (keccak256 group) mod GROUP_PORT_SPAN) in *. unfold GROUP_PORT_SPAN in *.
  destruct port as [|q]; [exists 0; split_and!; done || lia|].
  exists (group_port (N.pos q) off). unfold group_port.
  destruct (N.ltb_spec (N.pos q + off) 65536); split_and!; done || lia.
Qed.

Lemma group_listen_spec_witness :
  ∃ port', group_listen (H:=ExampleLibp2p.libp2p) (H0:=ExampleCrypto.crypto)
      [Ip4 0 0 0 0; Tcp 65000] "team" !! 1%nat = Some (Tcp port') ∧ port' < 65536.
Proof.
  destruct (group_listen_spec (H:=ExampleLibp2p.libp2p) (H0:=ExampleCrypto.crypto)
    [Ip4 0 0 0 0; Tcp 65000] "team" 1 (Tcp 65000) eq_refl) as (port' & Hp & _ & Hb & _).
  exists port'. split; [exact Hp|]. apply Hb. reflexivity.
Defined.

(** Seeded peers are taken all or nothing: parsing succeeds exactly on 1 to
    [MAX_SEED_ADDRS] texts that each parse (trimmed) to an address naming a peer other
    than this node, and then gives those addresses in order. *)
Theorem parse_peer_addrs_spec `{!Libp2p} (addrs : list string) (local : PeerId)
    (mas : list Multiaddr) :
  parse_peer_addrs addrs local = Ok mas ↔
  0 < N.of_nat (length addrs) <= MAX_SEED_ADDRS
  ∧ Forall2 (λ x ma, parse_multiaddr (trim x) = Ok ma
      ∧ ∃ p, bootstrap_peer_id ma = Some p ∧ p ≠ local) addrs mas.
Proof.
  unfold parse_peer_addrs.
  destruct (bool_decide_reflect (addrs = [])) as [->|Hne]; cbn [orb].
  { split; [done|]. simpl. lia. }
  destruct (N.ltb_spec MAX_SEED_ADDRS (N.of_nat (length addrs))).
  { split; [done|]. lia. }
  rewrite parse_peer_addrs_from_Ok. destruct addrs; [done|]. cbn [length].
  split; [|by intros [_ ?]]. intros Hf. split; [|done]. cbn [length] in *. lia.
Qed.

(** The re-dial list is bounded and keeps the latest request: over any sequence of dials
    from a list within the cap it holds at most [MAX_BOOTSTRAP] addresses without
    repetition, and an address dialled now is in it. *)
Theorem bootstrap_bounded `{!Libp2p} (start : list Multiaddr) (dials : list Multiaddr)
    (addr : Multiaddr) :
  NoDup start →
  let l := fold_left remember_bootstrap dials (take MAX_BOOTSTRAP start) in
  (length l <= MAX_BOOTSTRAP)%nat ∧ NoDup l
  ∧ addr ∈ remember_bootstrap l addr
  ∧ (∀ x, x ∈ remember_bootstrap l addr → x = addr ∨ x ∈ l).
Proof.
  intros Hnd. cbn zeta.
  assert (∀ l a, (length l <= MAX_BOOTSTRAP)%nat → NoDup l →
    (length (remember_bootstrap l a) <= MAX_BOOTSTRAP)%nat ∧ NoDup (remember_bootstrap l a))
    as Hstep.
  { intros l a Hlen Hl. unfold remember_bootstrap. case_bool_decide as Ha; [done|].
    destruct (Nat.leb_spec MAX_BOOTSTRAP (length l)).
    - destruct l as [|x l]; [unfold MAX_BOOTSTRAP in *; simpl in *; lia|].
      cbn [tail length] in *.
      apply NoDup_cons in Hl as [Hx Hl]. rewrite length_app. cbn [length]. split; [lia|].
      apply NoDup_app. split_and!; [done| |apply NoDup_singleton]. set_solver.
    - rewrite length_app. cbn [length]. split; [lia|].
      apply NoDup_app. split_and!; [done| |apply NoDup_singleton]. set_solver. }
  assert (∀ l0, (length l0 <= MAX_BOOTSTRAP)%nat → NoDup l0 →
    (length (fold_left remember_bootstrap dials l0) <= MAX_BOOTSTRAP)%nat
    ∧ NoDup (fold_left remember_bootstrap dials l0)) as Hfold.
  { induction dials as [|a dials IH]; intros l0 Hlen Hl; simpl; [done|].
    destruct (Hstep l0 a Hlen Hl). by apply IH. }
  destruct (Hfold (take MAX_BOOTSTRAP start)) as [Hlen Hl].
  - rewrite length_take. lia.
  - eapply sublist_NoDup; [exact Hnd|apply sublist_take].
  - split_and!; [done..| |].
    + unfold remember_bootstrap. case_bool_decide; [done|]. set_solver.
    + intros x. unfold remember_bootstrap. case_bool_decide; [by right|].
      intros [Hx| ->%list_elem_of_singleton]%elem_of_app; [right|by left].
      case_match; [|done]. destruct (fold_left _ _ _); [done|]. by right.
Qed.

Lemma bootstrap_bounded_witness :
  [P2p "b"; Tcp 1] ∈ remember_bootstrap (H:=ExampleLibp2p.libp2p)
    (fold_left (remember_bootstrap (H:=ExampleLibp2p.libp2p)) [[P2p "a"]]
       (take MAX_BOOTSTRAP [])) [P2p "b"; Tcp 1].
Proof.
  apply (bootstrap_bounded (H:=ExampleLibp2p.libp2p) [] [[P2p "a"]] [P2p "b"; Tcp 1]).
  constructor.
Defined.

(** Only what the mesh carries gets past the wire: a payload is accepted exactly when it
    is UTF-8 and a well-formed CID, unchanged, and the inbox never passes [MAX_INBOX],
    keeping what it holds. *)
Theorem accepted_payloads (data s : string) (inbox : list MeshMessage.t) (m : MeshMessage.t) :
  (accept_payload data = Some s ↔ s = data ∧ utf8_valid data = true ∧ is_valid_cid data = true)
  ∧ let '(taken, inbox') := push_inbox inbox m in
    inbox' = (if taken then inbox ++ [m] else inbox)
    ∧ (taken = true ↔ N.of_nat (length inbox) < MAX_INBOX).
Proof.
  split.
  - unfold accept_payload. destruct (utf8_valid data), (is_valid_cid data); naive_solver.
  - unfold push_inbox. destruct (N.leb_spec MAX_INBOX (N.of_nat (length inbox)));
      (split; [done|]); (split; [done|lia]) || (split; [lia|done]).
Qed.
