(* ===== verification/SwarmLoop.v ===== *)
(** * The libp2p transport (crates/cluster-daemon/src/libp2p_transport.rs)

    The sync surface ([dial], [disconnect], [drain], ...) and the swarm task, two threads
    over one mutex and one command queue. A critical section is one step; a handler that
    takes the lock twice is two steps, so the other thread can run in between. *)

From S2P Require Import Prelude RustStr Admission Seed Session Transport DeviceWire Swarm.
Local Open Scope N_scope.

(** ** State *)

Section loop.
  Context `{!Libp2p, !Crypto}.

(** The mutex-protected state. *)
Record Shared := mkShared {
  authorized_s : gset string;
  connected_s : gset string;
  inbox_s : list MeshMessage.t;
}.

Inductive SwarmCmd :=
| Publish (bytes : string)
| Dial (addr : Multiaddr)
| Disconnect (address : string)
| Listeners
| SeedAddrs.

(** A swarm-task handler between its two critical sections. *)
Inductive Mid :=
| MidConnect (address : string)
| MidPush (m : MeshMessage.t).

(** The transport: what both threads share, where each thread is, the task's tables, and
    the libp2p swarm as the task sees and drives it ([conns] open connections a peer,
    [blacklist] and [score] of gossipsub, [kicked] peers [disconnect_peer_id] was called
    for since they last had no connection, [dialed] and [published] what was asked,
    [replies] what was answered). *)
Record transport := mkTransport {
  shared : Shared;
  queue : list SwarmCmd;
  unsent : option string;
  mid : option Mid;
  peer_addr : gmap PeerId string;
  unidentified : gmap PeerId N;
  bootstrap : list Multiaddr;
  discovered : gmap PeerId (list Multiaddr);
  conns : gmap PeerId nat;
  blacklist : gset PeerId;
  score : gmap PeerId Z;
  kicked : gset PeerId;
  dialed : list DialOpts;
  published : list string;
  listeners : list Multiaddr;
  local_peer : PeerId;
  replies : list (list Multiaddr);
}.

(** *** Field updates *)

Definition set_shared (f : Shared → Shared) (t : transport) : transport :=
  mkTransport (f (shared t)) (queue t) (unsent t) (mid t) (peer_addr t) (unidentified t)
    (bootstrap t) (discovered t) (conns t) (blacklist t) (score t) (kicked t) (dialed t)
    (published t) (listeners t) (local_peer t) (replies t).
Definition set_queue (f : list SwarmCmd → list SwarmCmd) (t : transport) : transport :=
  mkTransport (shared t) (f (queue t)) (unsent t) (mid t) (peer_addr t) (unidentified t)
    (bootstrap t) (discovered t) (conns t) (blacklist t) (score t) (kicked t) (dialed t)
    (published t) (listeners t) (local_peer t) (replies t).
Definition set_unsent (u : option string) (t : transport) : transport :=
  mkTransport (shared t) (queue t) u (mid t) (peer_addr t) (unidentified t)
    (bootstrap t) (discovered t) (conns t) (blacklist t) (score t) (kicked t) (dialed t)
    (published t) (listeners t) (local_peer t) (replies t).
Definition set_mid (m : option Mid) (t : transport) : transport :=
  mkTransport (shared t) (queue t) (unsent t) m (peer_addr t) (unidentified t)
    (bootstrap t) (discovered t) (conns t) (blacklist t) (score t) (kicked t) (dialed t)
    (published t) (listeners t) (local_peer t) (replies t).
Definition set_peer_addr (f : gmap PeerId string → gmap PeerId string) (t : transport)
    : transport :=
  mkTransport (shared t) (queue t) (unsent t) (mid t) (f (peer_addr t)) (unidentified t)
    (bootstrap t) (discovered t) (conns t) (blacklist t) (score t) (kicked t) (dialed t)
    (published t) (listeners t) (local_peer t) (replies t).
Definition set_unidentified (f : gmap PeerId N → gmap PeerId N) (t : transport) : transport :=
  mkTransport (shared t) (queue t) (unsent t) (mid t) (peer_addr t) (f (unidentified t))
    (bootstrap t) (discovered t) (conns t) (blacklist t) (score t) (kicked t) (dialed t)
    (published t) (listeners t) (local_peer t) (replies t).
Definition set_bootstrap (f : list Multiaddr → list Multiaddr) (t : transport) : transport :=
  mkTransport (shared t) (queue t) (unsent t) (mid t) (peer_addr t) (unidentified t)
    (f (bootstrap t)) (discovered t) (conns t) (blacklist t) (score t) (kicked t) (dialed t)
    (published t) (listeners t) (local_peer t) (replies t).
Definition set_discovered (m : gmap PeerId (list Multiaddr)) (t : transport) : transport :=
  mkTransport (shared t) (queue t) (unsent t) (mid t) (peer_addr t) (unidentified t)
    (bootstrap t) m (conns t) (blacklist t) (score t) (kicked t) (dialed t)
    (published t) (listeners t) (local_peer t) (replies t).
Definition set_conns (f : gmap PeerId nat → gmap PeerId nat) (t : transport) : transport :=
  mkTransport (shared t) (queue t) (unsent t) (mid t) (peer_addr t) (unidentified t)
    (bootstrap t) (discovered t) (f (conns t)) (blacklist t) (score t) (kicked t) (dialed t)
    (published t) (listeners t) (local_peer t) (replies t).
Definition set_gossip (f : gset PeerId → gset PeerId) (g : gmap PeerId Z → gmap PeerId Z)
    (t : transport) : transport :=
  mkTransport (shared t) (queue t) (unsent t) (mid t) (peer_addr t) (unidentified t)
    (bootstrap t) (discovered t) (conns t) (f (blacklist t)) (g (score t)) (kicked t)
    (dialed t) (published t) (listeners t) (local_peer t) (replies t).
Definition set_kicked (f : gset PeerId → gset PeerId) (t : transport) : transport :=
  mkTransport (shared t) (queue t) (unsent t) (mid t) (peer_addr t) (unidentified t)
    (bootstrap t) (discovered t) (conns t) (blacklist t) (score t) (f (kicked t)) (dialed t)
    (published t) (listeners t) (local_peer t) (replies t).
Definition log_dial (o : DialOpts) (t : transport) : transport :=
  mkTransport (shared t) (queue t) (unsent t) (mid t) (peer_addr t) (unidentified t)
    (bootstrap t) (discovered t) (conns t) (blacklist t) (score t) (kicked t)
    (dialed t ++ [o]) (published t) (listeners t) (local_peer t) (replies t).
Definition log_publish (b : string) (t : transport) : transport :=
  mkTransport (shared t) (queue t) (unsent t) (mid t) (peer_addr t) (unidentified t)
    (bootstrap t) (discovered t) (conns t) (blacklist t) (score t) (kicked t)
    (dialed t) (published t ++ [b]) (listeners t) (local_peer t) (replies t).
Definition log_reply (l : list Multiaddr) (t : transport) : transport :=
  mkTransport (shared t) (queue t) (unsent t) (mid t) (peer_addr t) (unidentified t)
    (bootstrap t) (discovered t) (conns t) (blacklist t) (score t) (kicked t)
    (dialed t) (published t) (listeners t) (local_peer t) (replies t ++ [l]).

Definition set_listeners (l : list Multiaddr) (t : transport) : transport :=
  mkTransport (shared t) (queue t) (unsent t) (mid t) (peer_addr t) (unidentified t)
    (bootstrap t) (discovered t) (conns t) (blacklist t) (score t) (kicked t)
    (dialed t) (published t) l (local_peer t) (replies t).

(** A transport just built: nothing authorised, nobody connected, no listener up yet, the
    bootstrap list cut. *)
Definition new_transport (boot : list Multiaddr) (local : PeerId) : transport :=
  mkTransport (mkShared ∅ ∅ []) [] None None ∅ ∅ (take MAX_BOOTSTRAP boot) ∅ ∅ ∅ ∅ ∅ [] []
    [] local [].

(** ** The sync surface *)

Definition authorize_shared (a : string) (s : Shared) : Shared :=
  mkShared ({[a]} ∪ authorized_s s) (connected_s s) (inbox_s s).
Definition deauthorize_shared (a : string) (s : Shared) : Shared :=
  mkShared (authorized_s s ∖ {[a]}) (connected_s s ∖ {[a]}) (inbox_s s).
Definition connect_shared (a : string) (s : Shared) : Shared :=
  mkShared (authorized_s s) ({[a]} ∪ connected_s s) (inbox_s s).
Definition unconnect_shared (a : string) (s : Shared) : Shared :=
  mkShared (authorized_s s) (connected_s s ∖ {[a]}) (inbox_s s).
Definition push_shared (m : MeshMessage.t) (s : Shared) : Shared :=
  mkShared (authorized_s s) (connected_s s) (push_inbox (inbox_s s) m).2.

Definition surface_dial (peer : string) (t : transport) : transport :=
  match canonical_address peer with
  | Some a => set_shared (authorize_shared a) t
  | None => t
  end.

(** [disconnect]: the critical section, then (the lock released) the command. *)
Definition disconnect_lock (peer : string) (t : transport) : transport :=
  match canonical_address peer with
  | Some a => set_unsent (Some a) (set_shared (deauthorize_shared a) t)
  | None => t
  end.

Definition disconnect_send (t : transport) : transport :=
  match unsent t with
  | Some a => set_unsent None (set_queue (λ q, q ++ [Disconnect a]) t)
  | None => t
  end.

Definition surface_disconnect (peer : string) (t : transport) : transport :=
  disconnect_send (disconnect_lock peer t).

Definition surface_publish (data : string) (t : transport) : transport :=
  set_queue (λ q, q ++ [Publish data]) t.

Definition surface_drain (t : transport) : list MeshMessage.t * transport :=
  (inbox_s (shared t),
   set_shared (λ s, mkShared (authorized_s s) (connected_s s) []) t).

Definition dial_multiaddr (addr : Multiaddr) (t : transport) : transport :=
  set_queue (λ q, q ++ [Dial addr]) t.

Definition surface_add_peers (addrs : list string) (t : transport)
    : result N string * transport :=
  match parse_peer_addrs addrs (local_peer t) with
  | Err e => (Err e, t)
  | Ok parsed =>
      (Ok (N.of_nat (length parsed)), fold_left (λ t a, dial_multiaddr a t) parsed t)
  end.

(** [listeners] and [seed_multiaddrs] send a command and block for its reply ([replies] logs
    them); the reply is what the swarm listens on when the task takes the command, so a call
    that only reads is made atomic at that moment. *)
Definition ask_listeners (t : transport) : transport :=
  set_queue (λ q, q ++ [Listeners]) t.

Definition ask_seed_addrs (t : transport) : transport :=
  set_queue (λ q, q ++ [SeedAddrs]) t.

Definition seed_multiaddrs (t : transport) : list Multiaddr :=
  seed_addrs_from (listeners t) (local_peer t).

(** ** The swarm task *)

Definition gate_peer (peer : PeerId) (t : transport) : transport :=
  set_gossip (λ b, {[peer]} ∪ b) <[peer := UNADMITTED_APP_SCORE]> t.

Definition ungate_peer (peer : PeerId) (t : transport) : transport :=
  set_gossip (λ b, b ∖ {[peer]}) <[peer := 0%Z]> t.

Definition disconnect_peer_id (peer : PeerId) (t : transport) : transport :=
  set_kicked (λ k, {[peer]} ∪ k) t.

Definition is_connected (t : transport) (peer : PeerId) : bool :=
  bool_decide (is_Some (conns t !! peer)).

(** Gate a peer and ask for its disconnection. *)
Definition drop_peer_id (peer : PeerId) (t : transport) : transport :=
  disconnect_peer_id peer (gate_peer peer t).

(** [sweep.tick()]: connections past the identify window. *)
Definition sweep (now : N) (t : transport) : transport :=
  let expired := List.filter (λ e, IDENTIFY_TIMEOUT <=? now - e.2)
                   (map_entries (unidentified t)) in
  fold_left (λ t e, drop_peer_id e.1 (set_unidentified (delete e.1) t)) expired t.

(** [redial.tick()]. *)
Definition redial (t : transport) : transport :=
  let any_admitted := negb (bool_decide (peer_addr t = ∅)) in
  let t := fold_left (λ t a, log_dial (redial_opts a) t)
             (redial_targets (bootstrap t) (is_connected t) any_admitted) t in
  let authorized := authorized_s (shared t) in
  fold_left (λ t e, log_dial (DialPeer e.1 e.2) t)
    (discovery_targets (discovered t) (is_connected t)
       (λ p, peer_authorized p authorized)) t.

(** The peers a [Disconnect] command is for. *)
Definition peers_at (address : string) (t : transport) : list PeerId :=
  (List.filter (λ e, bool_decide (e.2 = address)) (map_entries (peer_addr t))).*1.

(** [taken]: whether gossipsub takes a publication. It refuses one while the topic's mesh has
    no peers, or one it has just seen; the task ignores the error, and the message is lost. *)
Definition handle_cmd (taken : bool) (cmd : SwarmCmd) (t : transport) : transport :=
  match cmd with
  | Publish bytes => if taken then log_publish bytes t else t
  | Dial addr =>
      log_dial (redial_opts addr) (set_bootstrap (λ b, remember_bootstrap b addr) t)
  | Disconnect address => fold_left (λ t p, drop_peer_id p t) (peers_at address t) t
  | Listeners => log_reply (listeners t) t
  | SeedAddrs => log_reply (seed_addrs_from (listeners t) (local_peer t)) t
  end.

Definition on_established (peer : PeerId) (now : N) (t : transport) : transport :=
  let t := set_conns (λ c, <[peer := S (default O (c !! peer))]> c) t in
  if decide (is_Some (peer_addr t !! peer)) then t
  else
    set_unidentified (λ u, if decide (is_Some (u !! peer)) then u else <[peer := now]> u)
      (gate_peer peer t).

(** [identify::Event::Received], up to the end of its first critical section. *)
Definition on_identify (peer : PeerId) (key : PublicKey) (t : transport) : transport :=
  let t := set_unidentified (delete peer) t in
  if negb (bool_decide (to_peer_id key = peer)) then disconnect_peer_id peer t
  else
    match address_from_public_key key with
    | None => disconnect_peer_id peer t
    | Some address =>
        if decide (address ∈ authorized_s (shared t)) then
          set_mid (Some (MidConnect address))
            (ungate_peer peer (set_peer_addr <[peer := address]> t))
        else drop_peer_id peer t
    end.

(** A gossipsub message, up to the authorisation check; [on_topic] is [topic == topic_hash]. *)
Definition on_message (on_topic : bool) (source : option PeerId) (data : string)
    (t : transport) : transport :=
  if negb on_topic then t
  else
    match source with
    | None => t
    | Some source =>
        match peer_addr t !! source with
        | None => t
        | Some address =>
            if decide (address ∈ authorized_s (shared t)) then
              match accept_payload data with
              | Some data =>
                  set_mid (Some (MidPush {| MeshMessage.from := address;
                                            MeshMessage.data := data |})) t
              | None => t
              end
            else t
        end
    end.

(** The second critical section of either handler. *)
Definition on_mid (m : Mid) (t : transport) : transport :=
  set_mid None
    (match m with
     | MidConnect address => set_shared (connect_shared address) t
     | MidPush m => set_shared (push_shared m) t
     end).

(** [ConnectionClosed]: only the last connection's close forgets the peer. *)
Definition on_closed (peer : PeerId) (t : transport) : transport :=
  match conns t !! peer with
  | Some (S (S n)) => set_conns <[peer := S n]> t
  | _ =>
      let t := set_kicked (λ k, k ∖ {[peer]}) (set_conns (delete peer) t) in
      let t := set_gossip (λ b, b ∖ {[peer]}) id (set_unidentified (delete peer) t) in
      match peer_addr t !! peer with
      | Some address =>
          set_shared (unconnect_shared address) (set_peer_addr (delete peer) t)
      | None => t
      end
  end.

(** mDNS: [fresh] collects the peers something new was learned of. *)
Definition discover_one (local : PeerId) (acc : list PeerId * gmap PeerId (list Multiaddr))
    (e : PeerId * Multiaddr) : list PeerId * gmap PeerId (list Multiaddr) :=
  let '(fresh, disc) := acc in
  if decide (e.1 = local) then acc
  else
    let '(learned, disc) := remember_discovered disc e.1 e.2 in
    (if learned && negb (bool_decide (e.1 ∈ fresh)) then fresh ++ [e.1] else fresh, disc).

Definition dial_fresh (authorized : gset string) (t : transport) (peer : PeerId) : transport :=
  if is_connected t peer || negb (peer_authorized peer authorized) then t
  else
    match discovered t !! peer with
    | Some addrs => log_dial (DialPeer peer addrs) t
    | None => t
    end.

Definition on_discovered (found : list (PeerId * Multiaddr)) (t : transport) : transport :=
  let '(fresh, disc) := fold_left (discover_one (local_peer t)) found ([], discovered t) in
  let t := set_discovered disc t in
  fold_left (dial_fresh (authorized_s (shared t))) fresh t.

Definition on_expired (gone : list (PeerId * Multiaddr)) (t : transport) : transport :=
  set_discovered (fold_left (λ m e, forget_discovered m e.1 e.2) gone (discovered t)) t.

(** ** Steps of the two threads *)

(** The network's events are as libp2p delivers them: a connection closes, identifies or
    speaks only while it is open. What the swarm listens on comes and goes ([TListening]). *)
Inductive task_label :=
| TSweep (now : N)
| TRedial
| TRecv (taken : bool)
| TEstablished (peer : PeerId) (now : N)
| TIdentify (peer : PeerId) (key : PublicKey)
| TMessage (on_topic : bool) (source : option PeerId) (data : string)
| TClosed (peer : PeerId)
| TDiscovered (found : list (PeerId * Multiaddr))
| TExpired (gone : list (PeerId * Multiaddr))
| TListening (addrs : list Multiaddr)
| TMid.

Inductive surface_label :=
| SDial (peer : string)
| SDisconnectLock (peer : string)
| SDisconnectSend
| SPublish (data : string)
| SDrain
| SDialMultiaddr (addr : Multiaddr)
| SAskListeners
| SAskSeedAddrs.

(** The task runs one handler at a time: in the middle of one it can only finish it. *)
Definition task_step (l : task_label) (t : transport) : option transport :=
  match mid t with
  | Some m => match l with TMid => Some (on_mid m t) | _ => None end
  | None =>
      match l with
      | TSweep now => Some (sweep now t)
      | TRedial => Some (redial t)
      | TRecv taken =>
          match queue t with
          | cmd :: q => Some (handle_cmd taken cmd (set_queue (λ _, q) t))
          | [] => None
          end
      | TEstablished p now => Some (on_established p now t)
      | TIdentify p key =>
          if decide (is_Some (conns t !! p)) then Some (on_identify p key t) else None
      | TMessage on_topic source data => Some (on_message on_topic source data t)
      | TClosed p => if decide (is_Some (conns t !! p)) then Some (on_closed p t) else None
      | TDiscovered found => Some (on_discovered found t)
      | TExpired gone => Some (on_expired gone t)
      | TListening addrs => Some (set_listeners addrs t)
      | TMid => None
      end
  end.

(** The surface is one caller: between the two halves of [disconnect] it does nothing else. *)
Definition surface_step (l : surface_label) (t : transport) : option transport :=
  match unsent t with
  | Some _ => match l with SDisconnectSend => Some (disconnect_send t) | _ => None end
  | None =>
      match l with
      | SDial p => Some (surface_dial p t)
      | SDisconnectLock p => Some (disconnect_lock p t)
      | SDisconnectSend => None
      | SPublish data => Some (surface_publish data t)
      | SDrain => Some (surface_drain t).2
      | SDialMultiaddr a => Some (dial_multiaddr a t)
      | SAskListeners => Some (ask_listeners t)
      | SAskSeedAddrs => Some (ask_seed_addrs t)
      end
  end.

Definition label : Type := surface_label + task_label.

Definition step (l : label) (t : transport) : option transport :=
  match l with
  | inl l => surface_step l t
  | inr l => task_step l t
  end.

(** A schedule: labels that are not enabled do nothing. *)
Definition run (ls : list label) (t : transport) : transport :=
  fold_left (λ t l, default t (step l t)) ls t.

End loop.
