(* ===== verification/SwarmInv.v ===== *)
(** * Admission on the wire

    The invariant of the two threads of the libp2p transport, kept by every step of every
    schedule: whoever is not shut out of the group topic is authorised or about to be
    evicted, and so is whoever is counted connected. *)

From S2P Require Import Prelude RustStr Admission Seed Session Transport DeviceWire Swarm.
From S2P Require Import SwarmLoop.
Local Open Scope N_scope.

(** libp2p: a peer id determines its public key. *)
Class Libp2pLaws `{!Libp2p} : Prop := {
  to_peer_id_inj : Inj (=) (=) to_peer_id;
}.

Section inv.
  Context `{!Libp2p, !Crypto}.
  Implicit Types (t : transport) (p : PeerId) (a : string).

(** Shut out of the topic: blacklisted, and scored as not admitted. *)
Definition gated t p : Prop :=
  p ∈ blacklist t ∧ score t !! p = Some UNADMITTED_APP_SCORE.

(** An eviction of [a] is on its way to the swarm task. *)
Definition evicting t a : Prop := Disconnect a ∈ queue t ∨ unsent t = Some a.

Definition ok_addr t a : Prop := a ∈ authorized_s (shared t) ∨ evicting t a.

Record loop_inv t : Prop := {
  li_conn a : a ∈ connected_s (shared t) →
    ∃ p, peer_addr t !! p = Some a ∧ (ok_addr t a ∨ gated t p);
  li_mid a : mid t = Some (MidConnect a) →
    ok_addr t a ∧ ∃ p, peer_addr t !! p = Some a;
  li_gate p : is_Some (conns t !! p) →
    gated t p ∨ ∃ a, peer_addr t !! p = Some a ∧ ok_addr t a;
  li_dom p a : peer_addr t !! p = Some a →
    is_Some (conns t !! p)
    ∧ ∃ key, to_peer_id key = p ∧ address_from_public_key key = Some a;
  li_id p : is_Some (conns t !! p) →
    is_Some (peer_addr t !! p) ∨ is_Some (unidentified t !! p) ∨ p ∈ kicked t;
  li_kick p : is_Some (peer_addr t !! p) → gated t p → p ∈ kicked t;
  li_inbox : N.of_nat (length (inbox_s (shared t))) <= MAX_INBOX;
  li_cids m : m ∈ inbox_s (shared t) ∨ mid t = Some (MidPush m) →
    is_valid_cid (MeshMessage.data m) = true;
}.

Lemma inv_new boot local : loop_inv (new_transport boot local).
Proof.
  split; simpl; try done; try set_solver; intros p; rewrite lookup_empty; by intros [].
Qed.

(** Steps that touch only the shared state, the queue and the logs. *)
Lemma inv_quiet t t' :
  loop_inv t →
  peer_addr t' = peer_addr t → conns t' = conns t → unidentified t' = unidentified t →
  blacklist t' = blacklist t → score t' = score t → kicked t' = kicked t → mid t' = mid t →
  (∀ a, ok_addr t a → ok_addr t' a) →
  connected_s (shared t') ⊆ connected_s (shared t) →
  (∀ m, m ∈ inbox_s (shared t') → m ∈ inbox_s (shared t)) →
  N.of_nat (length (inbox_s (shared t'))) <= MAX_INBOX →
  loop_inv t'.
Proof.
  intros Hi Hpa Hco Hun Hbl Hsc Hki Hmi Hok Hcon Hin Hlen.
  split; unfold gated; rewrite ?Hpa, ?Hco, ?Hun, ?Hbl, ?Hsc, ?Hki, ?Hmi.
  - intros a Ha. destruct (li_conn _ Hi a) as (p & ? & [?|?]); [set_solver|..];
      exists p; eauto.
  - intros a Ha. destruct (li_mid _ Hi a Ha) as [? ?]. eauto.
  - intros p Hp. destruct (li_gate _ Hi p Hp) as [?|(a & ? & ?)]; [by left|right; eauto].
  - apply (li_dom _ Hi).
  - apply (li_id _ Hi).
  - apply (li_kick _ Hi).
  - done.
  - intros m Hm. apply (li_cids _ Hi). naive_solver.
Qed.

(** ** The surface *)

Lemma inv_enqueue c t : loop_inv t → loop_inv (set_queue (λ q, q ++ [c]) t).
Proof.
  intros Hi. apply (inv_quiet t); try done; [|apply (li_inbox _ Hi)].
  intros b [?|[?|?]]; [by left|right; left; simpl; set_solver|right; by right].
Qed.

Lemma inv_surface l t t' : loop_inv t → surface_step l t = Some t' → loop_inv t'.
Proof.
  intros Hi. unfold surface_step.
  destruct (unsent t) as [u|] eqn:Hu.
  { destruct l; try done. unfold disconnect_send. rewrite Hu. intros [= <-].
    apply (inv_quiet t); try done; [|apply (li_inbox _ Hi)].
    intros a [?|[?|?]]; [by left|right; left..]; simpl; set_solver. }
  destruct l as [peer|peer| |data| |addr| |]; intros [= <-]; try by apply inv_enqueue.
  - unfold surface_dial. destruct (canonical_address peer); [|done].
    apply (inv_quiet t); try done; [|apply (li_inbox _ Hi)].
    intros b [?|?]; [left; simpl; set_solver|by right].
  - unfold disconnect_lock. destruct (canonical_address peer) as [a|]; [|done].
    apply (inv_quiet t); try done; [|simpl; set_solver|apply (li_inbox _ Hi)].
    intros b [Hb|[Hb|Hb]]; [|right; by left|congruence].
    destruct (decide (a = b)) as [->|]; [right; by right|left; simpl; set_solver].
  - apply (inv_quiet t); try done. simpl. set_solver.
Qed.

(** ** The task *)

Lemma gated_gate t p q : gated (gate_peer q t) p ↔ gated t p ∨ p = q.
Proof.
  unfold gated. simpl. destruct (decide (p = q)) as [->|Hne].
  - rewrite lookup_insert_eq. set_solver.
  - rewrite lookup_insert_ne by done. set_solver.
Qed.

Lemma gated_drop t p q : gated (drop_peer_id q t) p ↔ gated t p ∨ p = q.
Proof. apply gated_gate. Qed.

(** Gating and dropping a peer, whether or not it was being identified. *)
Lemma inv_drop_forget t p (f : gmap PeerId N → gmap PeerId N) :
  loop_inv t → (∀ u q, q ≠ p → f u !! q = u !! q) →
  loop_inv (drop_peer_id p (set_unidentified f t)).
Proof.
  intros Hi Hf.
  assert (∀ q, gated t q → gated (drop_peer_id p (set_unidentified f t)) q) as Hg
    by (intros q Hq; apply gated_drop; by left).
  split; simpl.
  - intros a Ha. destruct (li_conn _ Hi a Ha) as (q & ? & [?|?]); exists q; eauto.
  - apply (li_mid _ Hi).
  - intros q Hq. destruct (li_gate _ Hi q Hq) as [?|(a & ? & ?)]; [left; auto|right; eauto].
  - apply (li_dom _ Hi).
  - intros q Hq. destruct (decide (q = p)) as [->|Hne]; [right; right; set_solver|].
    rewrite Hf by done. destruct (li_id _ Hi q Hq) as [?|[?|?]]; [by left|right; by left|].
    right; right. set_solver.
  - intros q Hq [Hk| ->]%gated_drop; [|set_solver].
    apply elem_of_union_r. by apply (li_kick _ Hi).
  - apply (li_inbox _ Hi).
  - apply (li_cids _ Hi).
Qed.

Lemma set_unidentified_id t : set_unidentified (λ u, u) t = t.
Proof. by destruct t. Qed.

Lemma inv_kick t p : loop_inv t → loop_inv (drop_peer_id p t).
Proof.
  intros Hi. rewrite <-(set_unidentified_id t). by apply inv_drop_forget.
Qed.

Lemma inv_sweep now t : loop_inv t → loop_inv (sweep now t).
Proof.
  unfold sweep. generalize (List.filter (λ e : PeerId * N, IDENTIFY_TIMEOUT <=? now - e.2)
    (map_entries (unidentified t))). intros l. revert t.
  induction l as [|e l IH]; intros t Hi; simpl; [done|]. apply IH, inv_drop_forget; [done|].
  intros u q Hq. by rewrite lookup_delete_ne.
Qed.

(** Logging changes nothing the invariant reads. *)
Lemma inv_log_dial o t : loop_inv t → loop_inv (log_dial o t).
Proof. intros Hi. apply (inv_quiet t); try done. apply (li_inbox _ Hi). Qed.

Lemma inv_log_publish b t : loop_inv t → loop_inv (log_publish b t).
Proof. intros Hi. apply (inv_quiet t); try done. apply (li_inbox _ Hi). Qed.

Lemma inv_log_reply l t : loop_inv t → loop_inv (log_reply l t).
Proof. intros Hi. apply (inv_quiet t); try done. apply (li_inbox _ Hi). Qed.

Lemma inv_fold {A} (f : transport → A → transport) l t :
  (∀ t x, loop_inv t → loop_inv (f t x)) → loop_inv t → loop_inv (fold_left f l t).
Proof. intros Hf. revert t. induction l; intros t Hi; simpl; auto. Qed.

Lemma inv_redial t : loop_inv t → loop_inv (redial t).
Proof.
  intros Hi. unfold redial. apply inv_fold; [intros; by apply inv_log_dial|].
  apply inv_fold; [intros; by apply inv_log_dial|done].
Qed.

(** Dropping a list of peers: what stays, and who is gated afterwards. *)
Lemma drop_all_fields ps t :
  let t' := fold_left (λ t p, drop_peer_id p t) ps t in
  shared t' = shared t ∧ queue t' = queue t ∧ unsent t' = unsent t ∧ mid t' = mid t
  ∧ peer_addr t' = peer_addr t ∧ conns t' = conns t ∧ unidentified t' = unidentified t
  ∧ kicked t' = list_to_set ps ∪ kicked t
  ∧ ∀ p, gated t' p ↔ gated t p ∨ p ∈ ps.
Proof.
  cbv zeta. revert t. induction ps as [|q ps IH]; intros t; simpl.
  { split_and!; try done; [set_solver|]. intros p. set_solver. }
  destruct (IH (drop_peer_id q t)) as (F1 & F2 & F3 & F4 & F5 & F6 & F7 & F8 & F9).
  rewrite F1, F2, F3, F4, F5, F6, F7, F8. split_and!; try done; [simpl; set_solver|].
  intros p. rewrite F9, gated_drop. set_solver.
Qed.

Lemma elem_of_peers_at a p t : p ∈ peers_at a t ↔ peer_addr t !! p = Some a.
Proof.
  unfold peers_at. rewrite list_elem_of_fmap. split.
  - intros ([q b] & -> & Hin%list_elem_of_In). apply filter_In in Hin as [Hin Hb].
    apply bool_decide_eq_true in Hb. apply list_elem_of_In, elem_of_map_entries in Hin.
    simpl in *. by subst.
  - intros Hp. exists (p, a). split; [done|]. apply list_elem_of_In, filter_In.
    rewrite <-list_elem_of_In, elem_of_map_entries. split; [done|].
    by apply bool_decide_eq_true.
Qed.

Lemma inv_recv_disconnect taken t a q :
  loop_inv t → mid t = None → queue t = Disconnect a :: q →
  loop_inv (handle_cmd taken (Disconnect a) (set_queue (λ _, q) t)).
Proof.
  intros Hi Hm Hq. cbn [handle_cmd].
  set (t1 := set_queue (λ _, q) t).
  destruct (drop_all_fields (peers_at a t1) t1)
    as (F1 & F2 & F3 & F4 & F5 & F6 & F7 & F8 & F9).
  set (t' := fold_left _ (peers_at a t1) t1) in *.
  assert (∀ b, b ≠ a → ok_addr t b → ok_addr t' b) as Hok.
  { intros b Hne. unfold ok_addr, evicting. rewrite F1, F2, F3, Hq. simpl. set_solver. }
  assert (∀ p, peer_addr t !! p = Some a → gated t' p) as Hga.
  { intros p Hp. apply F9. right. by apply elem_of_peers_at. }
  split; rewrite ?F1, ?F4, ?F5, ?F6, ?F7, ?F8; simpl.
  - intros b Hb. destruct (li_conn _ Hi b Hb) as (p & Hp & Hor). exists p. split; [done|].
    destruct (decide (b = a)) as [->|Hne]; [right; by apply Hga|].
    destruct Hor as [?|?]; [left; by apply Hok|right; apply F9; by left].
  - intros b Hb. rewrite Hm in Hb. done.
  - intros p Hp. destruct (li_gate _ Hi p Hp) as [?|(b & Hb & ?)]; [left; apply F9; by left|].
    destruct (decide (b = a)) as [->|Hne]; [left; by apply Hga|right; eauto].
  - apply (li_dom _ Hi).
  - intros p Hp. destruct (li_id _ Hi p Hp) as [?|[?|?]]; [by left|right; by left|].
    right; right. set_solver.
  - intros p Hp [Hk|Hk]%F9; [|set_solver]. apply elem_of_union_r. by apply (li_kick _ Hi).
  - apply (li_inbox _ Hi).
  - apply (li_cids _ Hi).
Qed.

Lemma inv_recv taken t cmd q :
  loop_inv t → mid t = None → queue t = cmd :: q →
  loop_inv (handle_cmd taken cmd (set_queue (λ _, q) t)).
Proof.
  intros Hi Hm Hq. destruct cmd as [bytes|addr|a| |]; [| |by apply inv_recv_disconnect| |].
  all: assert (∀ b, ok_addr t b → ok_addr (set_queue (λ _, q) t) b) as Hok
    by (intros b; unfold ok_addr, evicting; rewrite Hq; simpl; set_solver).
  all: cbn [handle_cmd]; try destruct taken; apply (inv_quiet t); try done; apply (li_inbox _ Hi).
Qed.

Lemma inv_established p now t : loop_inv t → loop_inv (on_established p now t).
Proof.
  intros Hi. unfold on_established.
  assert (∀ q, is_Some ((conns (set_conns
    (λ c, <[p := S (default O (c !! p))]> c) t)) !! q) → q = p ∨ is_Some (conns t !! q)) as Hc.
  { intros q. simpl. destruct (decide (q = p)) as [->|]; [by left|].
    rewrite lookup_insert_ne by done. by right. }
  assert (∀ q, is_Some (conns t !! q) → is_Some ((conns (set_conns
    (λ c, <[p := S (default O (c !! p))]> c) t)) !! q)) as Hc'.
  { intros q. simpl. destruct (decide (q = p)) as [->|]; [rewrite lookup_insert_eq; eauto|].
    by rewrite lookup_insert_ne. }
  case_decide as Hpa.
  - cbn [set_conns peer_addr] in Hpa. split; simpl.
    + apply (li_conn _ Hi).
    + apply (li_mid _ Hi).
    + intros q [->|Hq]%Hc; [|by apply (li_gate _ Hi)].
      destruct Hpa as [a Ha]. apply (li_gate _ Hi). by apply (li_dom _ Hi p a).
    + intros q a Ha. apply (li_dom _ Hi) in Ha as [Hd ?]. split; [by apply Hc'|done].
    + intros q [->|Hq]%Hc; [by left|by apply (li_id _ Hi)].
    + apply (li_kick _ Hi).
    + apply (li_inbox _ Hi).
    + apply (li_cids _ Hi).
  - set (t' := set_unidentified _ _).
    assert (∀ q, gated t' q ↔ gated t q ∨ q = p) as Hg
      by (intros q; exact (gated_gate (set_conns (λ c, <[p := S (default O (c !! p))]> c) t) q p)).
    cbn [set_conns peer_addr] in Hpa. split; simpl.
    + intros a Ha. destruct (li_conn _ Hi a Ha) as (q & ? & [?|?]); exists q;
        rewrite Hg; eauto.
    + apply (li_mid _ Hi).
    + intros q [->|Hq]%Hc; [left; apply Hg; by right|].
      destruct (li_gate _ Hi q Hq) as [?|?]; [left; apply Hg; by left|by right].
    + intros q a Ha. apply (li_dom _ Hi) in Ha as [Hd ?]. split; [by apply Hc'|done].
    + intros q Hq. destruct (decide (q = p)) as [->|Hne].
      * right; left. case_decide; [done|]. rewrite lookup_insert_eq. eauto.
      * apply Hc in Hq as [?|Hq]; [done|].
        destruct (li_id _ Hi q Hq) as [?|[?|?]]; [by left| |by right; right].
        right; left. case_decide; [done|]. by rewrite lookup_insert_ne.
    + intros q Hq [Hk| ->]%Hg; [by apply (li_kick _ Hi)|done].
    + apply (li_inbox _ Hi).
    + apply (li_cids _ Hi).
Qed.

(** Asking for a disconnection alone. *)
Lemma inv_kick_forget p t :
  loop_inv t → loop_inv (disconnect_peer_id p (set_unidentified (delete p) t)).
Proof.
  intros Hi. split; simpl; try apply Hi.
  - intros q Hq. destruct (decide (q = p)) as [->|Hne]; [right; right; set_solver|].
    rewrite lookup_delete_ne by done.
    destruct (li_id _ Hi q Hq) as [?|[?|?]]; [by left|right; by left|right; right; set_solver].
  - intros q Hq Hk. apply elem_of_union_r. by apply (li_kick _ Hi).
Qed.

Context `{!Libp2pLaws}.

Lemma inv_let_in p key a t :
  loop_inv t → is_Some (conns t !! p) → to_peer_id key = p →
  address_from_public_key key = Some a → a ∈ authorized_s (shared t) →
  loop_inv (set_mid (Some (MidConnect a))
    (ungate_peer p (set_peer_addr <[p := a]> (set_unidentified (delete p) t)))).
Proof.
  intros Hi Hp Hkey Ha Hau.
  set (t' := set_mid _ _).
  assert (∀ q, q ≠ p → (gated t' q ↔ gated t q)) as Hg.
  { intros q Hne. unfold gated. simpl. rewrite lookup_insert_ne by done. set_solver. }
  assert (ok_addr t' a) as Hok by by left.
  assert (∀ q b, peer_addr t !! q = Some b → q = p → b = a) as Hsame.
  { intros q b Hb ->. apply (li_dom _ Hi) in Hb as (_ & key' & Hk' & Hb').
    rewrite <-Hkey in Hk'. apply to_peer_id_inj in Hk' as ->. congruence. }
  split; simpl.
  - intros b Hb. destruct (li_conn _ Hi b Hb) as (q & Hq & Hor). exists q.
    destruct (decide (q = p)) as [->|Hne].
    + rewrite lookup_insert_eq, (Hsame p b) by done. auto.
    + rewrite lookup_insert_ne by done. split; [done|].
      destruct Hor; [by left|right; by apply Hg].
  - intros b [= <-]. split; [done|]. exists p. by rewrite lookup_insert_eq.
  - intros q Hq. destruct (decide (q = p)) as [->|Hne].
    + right. exists a. by rewrite lookup_insert_eq.
    + rewrite lookup_insert_ne by done.
      destruct (li_gate _ Hi q Hq) as [?|?]; [left; by apply Hg|by right].
  - intros q b. destruct (decide (q = p)) as [->|Hne].
    + rewrite lookup_insert_eq. intros [= <-]. eauto.
    + rewrite lookup_insert_ne by done. apply (li_dom _ Hi).
  - intros q Hq. destruct (decide (q = p)) as [->|Hne].
    + left. rewrite lookup_insert_eq. eauto.
    + rewrite lookup_insert_ne, lookup_delete_ne by done. by apply (li_id _ Hi).
  - intros q Hq Hk. destruct (decide (q = p)) as [->|Hne].
    + destruct Hk as [Hk _]. simpl in Hk. set_solver.
    + rewrite lookup_insert_ne in Hq by done. apply Hg in Hk; [|done].
      by apply (li_kick _ Hi).
  - apply (li_inbox _ Hi).
  - intros m [Hm|Hm]; [|done]. apply (li_cids _ Hi). by left.
Qed.

Lemma inv_identify p key t :
  loop_inv t → is_Some (conns t !! p) → loop_inv (on_identify p key t).
Proof.
  intros Hi Hp. unfold on_identify. case_bool_decide as Hkey; cbn [negb];
    [|by apply inv_kick_forget].
  destruct (address_from_public_key key) as [a|] eqn:Ha; [|by apply inv_kick_forget].
  case_decide as Hau; [by eapply inv_let_in|].
  apply inv_drop_forget; [done|]. intros u q Hq. by rewrite lookup_delete_ne.
Qed.

Lemma accept_payload_valid data s : accept_payload data = Some s → is_valid_cid s = true.
Proof.
  unfold accept_payload. destruct (utf8_valid data), (is_valid_cid data) eqn:E; simpl;
    naive_solver.
Qed.

Lemma inv_message on_topic src data t :
  loop_inv t → mid t = None → loop_inv (on_message on_topic src data t).
Proof.
  intros Hi Hm. unfold on_message. destruct on_topic; [|done]. cbn [negb].
  destruct src as [p|]; [|done]. destruct (peer_addr t !! p) as [a|]; [|done].
  case_decide; [|done]. destruct (accept_payload data) as [s|] eqn:Ed; [|done].
  apply accept_payload_valid in Ed.
  split; simpl; try apply Hi.
  - done.
  - intros m [Hin|[= <-]]; [|done]. apply (li_cids _ Hi). by left.
Qed.

Lemma inv_on_mid m t : loop_inv t → mid t = Some m → loop_inv (on_mid m t).
Proof.
  intros Hi Hm. destruct m as [a|m]; unfold on_mid.
  - destruct (li_mid _ Hi a Hm) as [Hok Hp].
    split; simpl; try apply Hi; try done.
    + intros b [ ->%elem_of_singleton|Hb]%elem_of_union; [|by apply (li_conn _ Hi)].
      destruct Hp as [p Hp]. exists p. split; [done|by left].
    + intros m [Hin|?]; [|done]. apply (li_cids _ Hi). by left.
  - split; simpl; try apply Hi; try done.
    + unfold push_inbox. destruct (N.leb_spec MAX_INBOX (N.of_nat (length (inbox_s (shared t)))));
        simpl; [apply (li_inbox _ Hi)|]. rewrite length_app. simpl. lia.
    + intros m' [Hin|?]; [|done]. unfold push_inbox in Hin. case_match; simpl in Hin.
      * apply (li_cids _ Hi). by left.
      * apply elem_of_app in Hin as [?| ->%list_elem_of_singleton];
          apply (li_cids _ Hi); [by left|by right].
Qed.

(** The last connection of a peer closes: everything about it is forgotten. *)
Lemma inv_forget t t' p :
  loop_inv t → mid t' = None → queue t' = queue t → unsent t' = unsent t →
  authorized_s (shared t') = authorized_s (shared t) →
  inbox_s (shared t') = inbox_s (shared t) →
  peer_addr t' = delete p (peer_addr t) → conns t' = delete p (conns t) →
  unidentified t' = delete p (unidentified t) → blacklist t' = blacklist t ∖ {[p]} →
  score t' = score t → kicked t' = kicked t ∖ {[p]} →
  (∀ b, b ∈ connected_s (shared t') →
     b ∈ connected_s (shared t) ∧ peer_addr t !! p ≠ Some b) →
  loop_inv t'.
Proof.
  intros Hi Hm Hq Hu Hau Hin Hpa Hco Hun Hbl Hsc Hki Hcon.
  assert (∀ q, q ≠ p → gated t q → gated t' q) as Hg
    by (unfold gated; rewrite Hbl, Hsc; set_solver).
  assert (∀ b, ok_addr t b → ok_addr t' b) as Hok
    by (unfold ok_addr, evicting; by rewrite Hau, Hq, Hu).
  assert (∀ q, is_Some (conns t' !! q) → q ≠ p ∧ is_Some (conns t !! q)) as Hc.
  { intros q. rewrite Hco. destruct (decide (q = p)) as [->|Hne].
    - rewrite lookup_delete_eq. by intros [].
    - by rewrite lookup_delete_ne. }
  split; rewrite ?Hm, ?Hpa, ?Hun, ?Hki, ?Hin; try done.
  - intros b [Hb Hne]%Hcon. destruct (li_conn _ Hi b Hb) as (q & Hq' & Hor).
    assert (q ≠ p) by congruence. exists q. rewrite lookup_delete_ne by done.
    destruct Hor; auto.
  - intros q [Hne Hq']%Hc. rewrite lookup_delete_ne by done.
    destruct (li_gate _ Hi q Hq') as [?|(b & ? & ?)]; eauto.
  - intros q b. rewrite lookup_delete_Some. intros [Hne Hq'].
    rewrite Hco, lookup_delete_ne by done. by apply (li_dom _ Hi).
  - intros q [Hne Hq']%Hc. rewrite !lookup_delete_ne by done.
    destruct (li_id _ Hi q Hq') as [?|[?|?]]; [by left|right; by left|].
    right; right. set_solver.
  - intros q. destruct (decide (q = p)) as [->|Hne]; [rewrite lookup_delete_eq; by intros []|].
    rewrite lookup_delete_ne by done. intros Hq' Hk.
    assert (gated t q) as Hk' by (revert Hk; unfold gated; rewrite Hbl, Hsc; set_solver).
    pose proof (li_kick _ Hi q Hq' Hk'). set_solver.
  - apply (li_inbox _ Hi).
  - intros m [?|?]; [|done]. apply (li_cids _ Hi). by left.
Qed.

Lemma inv_closed p t :
  loop_inv t → mid t = None → is_Some (conns t !! p) → loop_inv (on_closed p t).
Proof.
  intros Hi Hm [n Hn]. unfold on_closed. rewrite Hn.
  assert (loop_inv (let t1 := set_kicked (λ k, k ∖ {[p]}) (set_conns (delete p) t) in
    let t2 := set_gossip (λ b, b ∖ {[p]}) id (set_unidentified (delete p) t1) in
    match peer_addr t2 !! p with
    | Some a => set_shared (unconnect_shared a) (set_peer_addr (delete p) t2)
    | None => t2
    end)) as Hlast.
  { simpl. destruct (peer_addr t !! p) as [a|] eqn:Ep; apply (inv_forget t _ p); try done.
    - simpl. intros b Hb. rewrite Ep. set_solver.
    - simpl. by rewrite delete_id.
    - intros b Hb. by rewrite Ep. }
  destruct n as [|[|n]]; [exact Hlast|exact Hlast|].
  assert (∀ q, is_Some (<[p := S n]> (conns t) !! q) ↔ is_Some (conns t !! q)) as Hc.
  { intros q. destruct (decide (p = q)) as [<-|Hne].
    - rewrite lookup_insert_eq, Hn. naive_solver.
    - by rewrite lookup_insert_ne. }
  split; simpl; try apply Hi.
  - intros q Hq. by apply (li_gate _ Hi), Hc.
  - intros q a Ha. apply (li_dom _ Hi) in Ha as [? ?]. split; [by apply Hc|done].
  - intros q Hq. by apply (li_id _ Hi), Hc.
Qed.

Lemma inv_discovered found t : loop_inv t → loop_inv (on_discovered found t).
Proof.
  intros Hi. unfold on_discovered. destruct (fold_left _ found _) as [fresh disc].
  apply inv_fold.
  - intros t' p Hi'. unfold dial_fresh. repeat case_match; auto using inv_log_dial.
  - apply (inv_quiet t); try done. apply (li_inbox _ Hi).
Qed.

Lemma inv_task l t t' : loop_inv t → task_step l t = Some t' → loop_inv t'.
Proof.
  intros Hi. unfold task_step. destruct (mid t) as [m|] eqn:Hm.
  { destruct l; try done. intros [= <-]. by apply inv_on_mid. }
  destruct l as [now| |taken|p now|p key|on_topic src data|p|found|gone|addrs|]; try done.
  - intros [= <-]. by apply inv_sweep.
  - intros [= <-]. by apply inv_redial.
  - destruct (queue t) as [|cmd q] eqn:Hq; [done|]. intros [= <-]. by apply inv_recv.
  - intros [= <-]. by apply inv_established.
  - case_decide; [|done]. intros [= <-]. by apply inv_identify.
  - intros [= <-]. by apply inv_message.
  - case_decide; [|done]. intros [= <-]. by apply inv_closed.
  - intros [= <-]. by apply inv_discovered.
  - intros [= <-]. apply (inv_quiet t); try done. apply (li_inbox _ Hi).
  - intros [= <-]. apply (inv_quiet t); try done. apply (li_inbox _ Hi).
Qed.

Lemma inv_step l t t' : loop_inv t → step l t = Some t' → loop_inv t'.
Proof. destruct l; [apply inv_surface|apply inv_task]. Qed.

Lemma inv_run ls t : loop_inv t → loop_inv (run ls t).
Proof.
  unfold run. revert t. induction ls as [|l ls IH]; intros t Hi; simpl; [done|].
  apply IH. destruct (step l t) eqn:E; [by eapply inv_step|done].
Qed.
End inv.
