(* ===== verification/SwarmSafety.v ===== *)
(** * What the libp2p transport guarantees

    Theorems on every schedule of the two threads, and the transport as an instance of the
    daemon's [MeshTransport] interface with its laws. *)

From S2P Require Import Prelude RustStr Admission Membership Session Seed Transport.
From S2P Require Import DeviceWire Swarm SwarmLoop SwarmInv.
Local Open Scope N_scope.

(** ** The transport behind the daemon's seam *)

Section instance.
  Context `{!Libp2p, !Crypto}.

#[global] Instance libp2p_cluster : ClusterTransport transport := {|
  dial := surface_dial;
  disconnect := surface_disconnect;
  connected t := set_iter (connected_s (shared t));
|}.

#[global] Instance libp2p_mesh : MeshTransport transport := {|
  publish _ data t := surface_publish data t;
  drain := surface_drain;
  authorize := surface_dial;
  add_peers := surface_add_peers;
  seed_addrs t := Ok (map multiaddr_to_string (seed_multiaddrs t));
|}.

(** Between two calls of the surface, the swarm task takes any number of steps. *)
#[global] Instance libp2p_view : MeshView transport := {|
  authorized t := authorized_s (shared t);
  env t t' := ∃ ls : list task_label, t' = run (map inr ls) t;
|}.

Lemma fold_dial_multiaddr mas t :
  shared (fold_left (λ t a, dial_multiaddr a t) mas t) = shared t.
Proof. by apply (fold_projection shared). Qed.

Lemma fold_log_dial {A} (f : A → DialOpts) l t :
  shared (fold_left (λ t x, log_dial (f x) t) l t) = shared t
  ∧ unsent (fold_left (λ t x, log_dial (f x) t) l t) = unsent t
  ∧ queue (fold_left (λ t x, log_dial (f x) t) l t) = queue t.
Proof. by rewrite (fold_projection shared), (fold_projection unsent), (fold_projection queue). Qed.

Lemma sweep_fields now t :
  shared (sweep now t) = shared t ∧ unsent (sweep now t) = unsent t
  ∧ queue (sweep now t) = queue t.
Proof.
  unfold sweep. generalize (List.filter (λ e : PeerId * N, IDENTIFY_TIMEOUT <=? now - e.2)
    (map_entries (unidentified t))). intros l. revert t.
  induction l as [|e l IH]; intros t; simpl; [done|].
  by destruct (IH (drop_peer_id e.1 (set_unidentified (delete e.1) t))) as (-> & -> & ->).
Qed.

Lemma redial_fields t :
  shared (redial t) = shared t ∧ unsent (redial t) = unsent t ∧ queue (redial t) = queue t.
Proof.
  unfold redial. cbv zeta. rewrite !(proj1 (fold_log_dial _ _ _)).
  rewrite !(proj1 (proj2 (fold_log_dial _ _ _))), !(proj2 (proj2 (fold_log_dial _ _ _))).
  done.
Qed.

Lemma dial_fresh_fields au t p :
  shared (dial_fresh au t p) = shared t ∧ unsent (dial_fresh au t p) = unsent t
  ∧ queue (dial_fresh au t p) = queue t.
Proof. unfold dial_fresh. by repeat case_match. Qed.

Lemma discovered_fields found t :
  shared (on_discovered found t) = shared t ∧ unsent (on_discovered found t) = unsent t
  ∧ queue (on_discovered found t) = queue t.
Proof.
  unfold on_discovered. destruct (fold_left _ found _) as [fresh disc].
  generalize (authorized_s (shared (set_discovered disc t))). intros au.
  change (shared t) with (shared (set_discovered disc t)).
  change (unsent t) with (unsent (set_discovered disc t)).
  change (queue t) with (queue (set_discovered disc t)).
  generalize (set_discovered disc t). clear t.
  induction fresh as [|p fresh IH]; intros t; simpl; [done|].
  destruct (IH (dial_fresh au t p)) as (-> & -> & ->). apply dial_fresh_fields.
Qed.

(** The task never changes who is authorised and never adds a command. *)
Lemma task_authorized l t t' :
  task_step l t = Some t' →
  authorized_s (shared t') = authorized_s (shared t) ∧ unsent t' = unsent t
  ∧ (queue t' = queue t ∨ (∃ taken, l = TRecv taken) ∧ ∃ cmd, queue t = cmd :: queue t').
Proof.
  unfold task_step. destruct (mid t) as [m|].
  { destruct l; try done. intros [= <-]. destruct m; simpl; auto. }
  destruct l as [now| |taken|p now|p key|on_topic src data|p|found|gone|addrs|]; try done.
  - intros [= <-]. destruct (sweep_fields now t) as (-> & -> & ->). auto.
  - intros [= <-]. destruct (redial_fields t) as (-> & -> & ->). auto.
  - destruct (queue t) as [|cmd q] eqn:Hq; [done|]. intros [= <-].
    destruct cmd as [b|a|a| |]; simpl; [destruct taken|..]; simpl; try by eauto 8.
    destruct (drop_all_fields (peers_at a (set_queue (λ _, q) t)) (set_queue (λ _, q) t))
      as (-> & -> & -> & _). simpl. eauto 8.
  - intros [= <-]. unfold on_established. case_decide; simpl; auto.
  - case_decide; [|done]. intros [= <-]. unfold on_identify.
    destruct (negb _); simpl; [auto|].
    destruct (address_from_public_key key); simpl; [|auto]. case_decide; simpl; auto.
  - intros [= <-]. unfold on_message. repeat case_match; simpl; auto.
  - case_decide; [|done]. intros [= <-]. unfold on_closed.
    destruct (conns t !! p) as [[|[|n]]|]; simpl;
      [destruct (peer_addr t !! p); simpl; auto..|auto|].
    destruct (peer_addr t !! p); simpl; auto.
  - intros [= <-]. destruct (discovered_fields found t) as (-> & -> & ->). auto.
  - intros [= <-]. simpl. auto.
  - intros [= <-]. simpl. auto.
Qed.

Lemma run_tasks_authorized ls t :
  authorized_s (shared (run (map inr ls) t)) = authorized_s (shared t)
  ∧ unsent (run (map inr ls) t) = unsent t
  ∧ ∃ taken, queue t = taken ++ queue (run (map inr ls) t).
Proof.
  unfold run. revert t. induction ls as [|l ls IH]; intros t; simpl.
  { split_and!; [done..|by exists []]. }
  destruct (task_step l t) as [t'|] eqn:E; [|apply IH]. cbn [default from_option id].
  apply task_authorized in E as (Ha & Hu & Hq).
  destruct (IH t') as (-> & -> & taken & Ht). split_and!; [done..|].
  destruct Hq as [Hq|(_ & cmd & Hq)].
  - exists taken. by rewrite <-Hq.
  - exists (cmd :: taken). by rewrite Hq, Ht.
Qed.

#[global] Instance libp2p_laws : MeshTransportLaws transport.
Proof.
  split; simpl; try done.
  - intros p t Hp. unfold surface_dial. by rewrite canonical_address_id.
  - intros p t Hp. unfold surface_dial. by rewrite canonical_address_id.
  - intros p t Hp. unfold surface_disconnect, disconnect_lock.
    by rewrite canonical_address_id.
  - intros l t. unfold surface_add_peers. destruct (parse_peer_addrs _ _) as [mas|]; [|done].
    cbn [snd]. by rewrite fold_dial_multiaddr.
  - intros t t' [ls ->]. apply run_tasks_authorized.
Qed.

#[global] Instance libp2p_authorizes : MeshAuthorizes transport.
Proof. split. intros p t Hp. simpl. unfold surface_dial. by rewrite canonical_address_id. Qed.
End instance.

(** ** Draining the command queue *)

Section drain.
  Context `{!Libp2p, !Crypto}.

(** Finish the handler under way, then take every queued command. *)
Definition drain_labels (t : transport) : list task_label :=
  TMid :: repeat (TRecv true) (length (queue t)).

Lemma mid_none_recv t n :
  mid t = None → n = length (queue t) →
  queue (run (map inr (repeat (TRecv true) n)) t) = [].
Proof.
  unfold run. revert t. induction n as [|n IH]; intros t Hm Hn; simpl.
  { by destruct (queue t). }
  unfold task_step. rewrite Hm. destruct (queue t) as [|cmd q] eqn:Hq; [done|].
  cbn [default from_option id]. apply IH.
  - destruct cmd as [b|a|a| |]; simpl; try done.
    destruct (drop_all_fields (peers_at a (set_queue (λ _, q) t)) (set_queue (λ _, q) t))
      as (_ & _ & _ & -> & _). done.
  - destruct cmd as [b|a|a| |]; simpl in *; try lia.
    destruct (drop_all_fields (peers_at a (set_queue (λ _, q) t)) (set_queue (λ _, q) t))
      as (_ & -> & _). simpl in *. lia.
Qed.

Lemma drain_labels_empty t : queue (run (map inr (drain_labels t)) t) = [].
Proof.
  unfold drain_labels. cbn [map]. unfold run. cbn [fold_left].
  assert (mid (default t (step (inr TMid) t)) = None
    ∧ queue (default t (step (inr TMid) t)) = queue t) as [Hm Hq].
  { simpl. unfold task_step. by destruct (mid t) as [[]|] eqn:E. }
  apply mid_none_recv; [done|by rewrite Hq].
Qed.

(** The reply to [SeedAddrs] is what [seed_multiaddrs] reads when the task takes the command:
    the commands before it change neither what the swarm listens on nor its peer id. *)
Lemma drop_peers_listen ps t :
  listeners (fold_left (λ t p, drop_peer_id p t) ps t) = listeners t
  ∧ local_peer (fold_left (λ t p, drop_peer_id p t) ps t) = local_peer t.
Proof. revert t. induction ps as [|p ps IH]; intros t; [done|apply (IH (drop_peer_id p t))]. Qed.

Lemma handle_cmd_listen taken cmd q t :
  listeners (handle_cmd taken cmd (set_queue (λ _, q) t)) = listeners t
  ∧ local_peer (handle_cmd taken cmd (set_queue (λ _, q) t)) = local_peer t
  ∧ mid (handle_cmd taken cmd (set_queue (λ _, q) t)) = mid t
  ∧ queue (handle_cmd taken cmd (set_queue (λ _, q) t)) = q.
Proof.
  destruct cmd as [b|a|a| |]; simpl; try by destruct taken.
  destruct (drop_peers_listen (peers_at a (set_queue (λ _, q) t)) (set_queue (λ _, q) t))
    as [-> ->].
  destruct (drop_all_fields (peers_at a (set_queue (λ _, q) t)) (set_queue (λ _, q) t))
    as (_ & -> & _ & -> & _). done.
Qed.

Lemma drain_seed_reply q t :
  mid t = None → queue t = q ++ [SeedAddrs] →
  last (replies (run (map inr (repeat (TRecv true) (S (length q)))) t)) = Some (seed_multiaddrs t).
Proof.
  unfold run, seed_multiaddrs. revert t. induction q as [|cmd q IH]; intros t Hm Hq.
  - cbn [repeat length map fold_left step]. unfold task_step. rewrite Hm, Hq. simpl.
    by rewrite last_snoc.
  - change (repeat (TRecv true) (S (length (cmd :: q))))
      with (TRecv true :: repeat (TRecv true) (S (length q))).
    cbn [map fold_left].
    assert (step (inr (TRecv true)) t
      = Some (handle_cmd true cmd (set_queue (λ _, q ++ [SeedAddrs]) t)))
      as -> by (unfold step, task_step; by rewrite Hm, Hq).
    cbn [default from_option id].
    destruct (handle_cmd_listen true cmd (q ++ [SeedAddrs]) t) as (Hl & Hp & Hm' & Hq').
    rewrite <-Hl, <-Hp. apply IH; [by rewrite Hm'|done].
Qed.
End drain.

(** ** A transport for examples *)

Module ExampleSwarm.

#[local] Instance crypto : Crypto := ExampleCrypto.crypto.
#[local] Instance libp2p : Libp2p := ExampleLibp2p.libp2p.

#[local] Instance laws : Libp2pLaws.
Proof. split. intros x y Hxy. exact Hxy. Qed.

(** A 20-byte key, which is its own peer id, and its address. *)
Definition K : string := "aaaaaaaaaaaaaaaaaaaa".
Definition A : string := "6161616161616161616161616161616161616161".
Definition CID : string := "QmYwAPJzv5CZsnA625s3Xf2nemtYgPpHdWEz79ojWnPbdG".

Definition t0 : transport := new_transport [] "me".

(** The peer is authorised, connects and identifies. *)
Definition admitted : list label :=
  [inl (SDial A); inr (TEstablished K 0); inr (TIdentify K K); inr TMid].

(** The peer is evicted while the identify handler is between its two critical sections. *)
Definition race : list label :=
  [inl (SDial A); inr (TEstablished K 0); inr (TIdentify K K);
   inl (SDisconnectLock A); inl SDisconnectSend; inr TMid].

(** The task takes the eviction, and the connection closes. *)
Definition after_race : list label := [inr (TRecv true); inr (TClosed K)].

Definition connected_once : transport := run [inr (TEstablished K 0)] t0.

Definition peer : PeerId := K.
Definition key : PublicKey := K.

End ExampleSwarm.

(** ** Theorems *)

(** C6: Admission on the wire: in every schedule of the two threads and whatever the network
    does, a peer with an open connection is shut out of the group topic (blacklisted, and
    scored below the gossip and publish thresholds though above the graylist one), or it
    has proved the key of an address that is authorised or whose eviction is already on
    its way to the task. Whoever is counted connected has proved such an address or is
    already shut out, and what waits for the daemon is bounded and well formed. *)
Theorem wire_admission `{!Libp2p, !Libp2pLaws, !Crypto} (boot : list Multiaddr)
    (local : PeerId) (ls : list label) :
  let t := run ls (new_transport boot local) in
  (∀ p, is_Some (conns t !! p) →
     gated t p
     ∨ ∃ a key, to_peer_id key = p ∧ address_from_public_key key = Some a
         ∧ (a ∈ authorized_s (shared t) ∨ evicting t a))
  ∧ (∀ p s, gated t p → score t !! p = Some s →
       (GRAYLIST_THRESHOLD < s < PUBLISH_THRESHOLD ∧ s < GOSSIP_THRESHOLD)%Z)
  ∧ (∀ a, a ∈ connected_s (shared t) →
       ∃ p key, to_peer_id key = p ∧ address_from_public_key key = Some a
         ∧ is_Some (conns t !! p)
         ∧ (a ∈ authorized_s (shared t) ∨ evicting t a ∨ gated t p))
  ∧ N.of_nat (length (inbox_s (shared t))) <= MAX_INBOX
  ∧ ∀ m, m ∈ inbox_s (shared t) → is_valid_cid (MeshMessage.data m) = true.
Proof.
  cbn zeta. pose proof (inv_run ls _ (inv_new boot local)) as Hi.
  set (t := run ls _) in *. split_and!.
  - intros p Hp. destruct (li_gate _ Hi p Hp) as [?|(a & Ha & Hok)]; [by left|right].
    apply (li_dom _ Hi) in Ha as (_ & key & ? & ?). eauto 10.
  - intros p s [_ Hs] Hs'. rewrite Hs in Hs'. injection Hs' as <-.
    unfold GRAYLIST_THRESHOLD, UNADMITTED_APP_SCORE, PUBLISH_THRESHOLD, GOSSIP_THRESHOLD. lia.
  - intros a Ha. destruct (li_conn _ Hi a Ha) as (p & Hp & Hor).
    apply (li_dom _ Hi) in Hp as (? & key & ? & ?). exists p, key.
    unfold ok_addr in Hor. split_and!; try done. tauto.
  - apply (li_inbox _ Hi).
  - intros m Hm. apply (li_cids _ Hi). by left.
Qed.

Lemma wire_admission_witness :
  let t := run (H:=ExampleLibp2p.libp2p) (H0:=ExampleCrypto.crypto) ExampleSwarm.admitted
             ExampleSwarm.t0 in
  N.of_nat (length (inbox_s (shared t))) <= MAX_INBOX.
Proof.
  apply (wire_admission (H:=ExampleLibp2p.libp2p) (H0:=ExampleSwarm.laws)
    (H1:=ExampleCrypto.crypto) [] "me" ExampleSwarm.admitted).
Defined.

(** C10: Eviction reaches the wire: after [disconnect] of an address (no call half done), in any
    continuation of the swarm task that has taken every queued command, every peer still
    connected under that address is shut out and its disconnection has been requested, and
    the address is no longer counted connected once none of its connections is left; such
    a continuation always exists. *)
Theorem eviction_completes `{!Libp2p, !Libp2pLaws, !Crypto} (boot : list Multiaddr)
    (local : PeerId) (ls : list label) (peer a : string) :
  let t := run ls (new_transport boot local) in
  unsent t = None → canonical_address peer = Some a →
  let t1 := surface_disconnect peer t in
  queue (run (map inr (drain_labels t1)) t1) = []
  ∧ ∀ ks : list task_label, let t2 := run (map inr ks) t1 in
    queue t2 = [] →
    (a ∉ authorized_s (shared t2))
    ∧ (∀ p, peer_addr t2 !! p = Some a → gated t2 p ∧ p ∈ kicked t2)
    ∧ ((∀ p, peer_addr t2 !! p ≠ Some a) → a ∉ connected_s (shared t2)).
Proof.
  cbn zeta. intros Hu Ha. pose proof (inv_run ls _ (inv_new boot local)) as Hi.
  set (t := run ls _) in *. set (t1 := surface_disconnect peer t).
  assert (loop_inv t1) as Hi1.
  { apply (inv_surface SDisconnectSend (disconnect_lock peer t)).
    - apply (inv_surface (SDisconnectLock peer) t); [done|]. unfold surface_step. by rewrite Hu.
    - subst t1. unfold surface_step, surface_disconnect, disconnect_lock. by rewrite Ha. }
  assert (authorized_s (shared t1) = authorized_s (shared t) ∖ {[a]} ∧ unsent t1 = None)
    as [Hau1 Hu1] by (subst t1; unfold surface_disconnect, disconnect_lock; by rewrite Ha).
  split; [apply drain_labels_empty|]. intros ks Hq.
  pose proof (inv_run (map inr ks) _ Hi1) as Hi2.
  destruct (run_tasks_authorized ks t1) as (Hau2 & Hu2 & _).
  set (t2 := run (map inr ks) t1) in *.
  assert (¬ ok_addr t2 a) as Hnok.
  { unfold ok_addr, evicting. rewrite Hau2, Hau1, Hq, Hu2, Hu1. set_solver. }
  split_and!.
  - intros Hin. apply Hnok. by left.
  - intros p Hp. pose proof (li_dom _ Hi2 p a Hp) as [Hc _].
    assert (gated t2 p) as Hg.
    { destruct (li_gate _ Hi2 p Hc) as [?|(b & Hb & Hok)]; [done|].
      rewrite Hp in Hb. injection Hb as <-. done. }
    split; [done|]. apply (li_kick _ Hi2); eauto.
  - intros Hnone Hcon. destruct (li_conn _ Hi2 a Hcon) as (p & Hp & _). by eapply Hnone.
Qed.

Lemma eviction_completes_witness :
  let t := run (H:=ExampleLibp2p.libp2p) (H0:=ExampleCrypto.crypto) ExampleSwarm.admitted
             ExampleSwarm.t0 in
  let t1 := surface_disconnect ExampleSwarm.A t in
  queue (run (H:=ExampleLibp2p.libp2p) (H0:=ExampleCrypto.crypto)
    (map inr (drain_labels t1)) t1) = [].
Proof.
  apply (eviction_completes (H:=ExampleLibp2p.libp2p) (H0:=ExampleSwarm.laws)
    (H1:=ExampleCrypto.crypto) [] "me" ExampleSwarm.admitted
    ExampleSwarm.A ExampleSwarm.A).
  - vm_compute. reflexivity.
  - vm_compute. reflexivity.
Defined.

(** [connected] can outrun [authorized] for a moment: the identify handler reads the
    authorised set and adds to the connected set in two critical sections, and an eviction
    between them leaves an address counted connected that is no longer authorised, until
    the task takes the queued eviction and the connection's close arrives. *)
Theorem connected_outruns_authorized :
  let t := run (H:=ExampleLibp2p.libp2p) (H0:=ExampleCrypto.crypto) ExampleSwarm.race
             ExampleSwarm.t0 in
  (ExampleSwarm.A ∈ connected_s (shared t)) ∧ (ExampleSwarm.A ∉ authorized_s (shared t))
  ∧ let t' := run (H:=ExampleLibp2p.libp2p) (H0:=ExampleCrypto.crypto)
                ExampleSwarm.after_race t in
    ExampleSwarm.A ∉ connected_s (shared t').
Proof.
  cbn zeta. split_and!.
  - apply (bool_decide_eq_true_1 _). vm_compute. reflexivity.
  - apply (bool_decide_eq_false_1 _). vm_compute. reflexivity.
  - apply (bool_decide_eq_false_1 _). vm_compute. reflexivity.
Qed.

(** What the identify handler decides: a key that is not the connection's, or is not a
    secp256k1 key, gets the peer disconnected and nothing else; a key of an address that
    is not authorised gets it shut out and disconnected; the key of an authorised address
    gets it let in, and only then counted connected. *)
Theorem identify_decides `{!Libp2p, !Crypto} (t : transport) (p : PeerId) (key : PublicKey) :
  mid t = None → is_Some (conns t !! p) →
  ∃ t1, task_step (TIdentify p key) t = Some t1
  ∧ unidentified t1 = delete p (unidentified t) ∧ shared t1 = shared t
  ∧ match address_from_public_key key with
    | Some a =>
        if decide (to_peer_id key = p ∧ a ∈ authorized_s (shared t)) then
          peer_addr t1 !! p = Some a ∧ ¬ gated t1 p
          ∧ ∃ t2, task_step TMid t1 = Some t2 ∧ mid t2 = None
              ∧ connected_s (shared t2) = {[a]} ∪ connected_s (shared t)
        else
          p ∈ kicked t1 ∧ peer_addr t1 = peer_addr t ∧ mid t1 = None
          ∧ (to_peer_id key = p → gated t1 p)
    | None => p ∈ kicked t1 ∧ peer_addr t1 = peer_addr t ∧ mid t1 = None
    end.
Proof.
  intros Hm Hc. eexists. unfold task_step at 1. rewrite Hm, decide_True by done.
  split; [done|]. unfold on_identify.
  destruct (address_from_public_key key) as [a|].
  - case_bool_decide as Hk; cbn [negb].
    + case_decide as Hau.
      * rewrite decide_True by done. simpl. split_and!; try done.
        -- by rewrite lookup_insert_eq.
        -- unfold gated. simpl. set_solver.
        -- eauto.
      * rewrite decide_False by (intros [_ ?]; done). simpl. split_and!; try done.
        -- set_solver.
        -- intros _. apply gated_drop. by right.
    + rewrite decide_False by (intros [? _]; done). simpl. split_and!; try done. set_solver.
  - case_bool_decide; simpl; split_and!; try done; set_solver.
Qed.

Lemma identify_decides_witness :
  is_Some (task_step (H:=ExampleLibp2p.libp2p) (H0:=ExampleCrypto.crypto)
    (TIdentify ExampleSwarm.peer ExampleSwarm.key) ExampleSwarm.connected_once).
Proof.
  destruct (identify_decides (H:=ExampleLibp2p.libp2p) (H0:=ExampleCrypto.crypto)
    ExampleSwarm.connected_once ExampleSwarm.peer ExampleSwarm.key) as (t1 & Ht1 & _).
  - reflexivity.
  - apply (bool_decide_eq_true_1 _). vm_compute. reflexivity.
  - exists t1. exact Ht1.
Defined.

Section sweep.
  Context `{!Libp2p, !Crypto}.

Lemma sweep_fold_unidentified (l : list (PeerId * N)) t p :
  unidentified (fold_left (λ t e, drop_peer_id e.1 (set_unidentified (delete e.1) t)) l t) !! p
  = if decide (p ∈ l.*1) then None else unidentified t !! p.
Proof.
  revert t. induction l as [|[q s] l IH]; intros t; [done|]. cbn [fold_left]. rewrite IH.
  rewrite fmap_cons. cbn [fst unidentified drop_peer_id disconnect_peer_id set_kicked gate_peer
    set_gossip set_unidentified].
  destruct (decide (p = q)) as [->|Hne].
  - rewrite lookup_delete_eq. rewrite (decide_True (P:=q ∈ q :: _)) by set_solver.
    by case_decide.
  - rewrite lookup_delete_ne by done.
    destruct (decide (p ∈ l.*1)); [rewrite decide_True by set_solver|
      rewrite decide_False by set_solver]; done.
Qed.

Lemma sweep_keeps now t p s :
  unidentified (sweep now t) !! p = Some s →
  unidentified t !! p = Some s ∧ now - s < IDENTIFY_TIMEOUT.
Proof.
  unfold sweep. rewrite sweep_fold_unidentified. case_decide as Hin; [done|]. intros Hs.
  split; [done|]. apply N.lt_nge. intros Hexp. apply Hin.
  apply list_elem_of_fmap. exists (p, s). split; [done|].
  apply list_elem_of_In, filter_In. rewrite <-list_elem_of_In, elem_of_map_entries.
  split; [done|by apply N.leb_le].
Qed.

Lemma dial_fresh_logs au ps t :
  ∃ l, dialed (fold_left (dial_fresh au) ps t) = dialed t ++ l
    ∧ (∀ o, o ∈ l → ∃ p addrs, o = DialPeer p addrs ∧ peer_authorized p au = true
         ∧ is_connected t p = false ∧ discovered t !! p = Some addrs).
Proof.
  revert t. induction ps as [|p ps IH]; intros t; simpl.
  { exists []. rewrite app_nil_r. split; [done|set_solver]. }
  unfold dial_fresh at 2. destruct (is_connected t p || negb (peer_authorized p au)) eqn:E;
    [apply IH|]. split_bools.
  destruct (discovered t !! p) as [addrs|] eqn:Ed; [|apply IH].
  destruct (IH (log_dial (DialPeer p addrs) t)) as (l & Hl & Ho).
  exists (DialPeer p addrs :: l). rewrite Hl. simpl. rewrite <-app_assoc. split; [done|].
  intros o [->|Hin]%elem_of_cons; [eauto 10|]. by apply Ho.
Qed.

Lemma dial_fresh_discovered au ps t :
  discovered (fold_left (dial_fresh au) ps t) = discovered t.
Proof.
  revert t. induction ps as [|q ps IH]; intros t; simpl; [done|].
  rewrite IH. unfold dial_fresh. by repeat case_match.
Qed.
End sweep.

(** A connection that never identifies does not last: in any schedule, right after a sweep
    every peer with an open connection has identified, or came within the identify window,
    or has had its disconnection requested. *)
Theorem sweep_reaps_unidentified `{!Libp2p, !Libp2pLaws, !Crypto}
    (boot : list Multiaddr) (local : PeerId) (ls : list label) (now : N) (p : PeerId) :
  let t := run ls (new_transport boot local) in
  mid t = None →
  ∃ t', task_step (TSweep now) t = Some t'
  ∧ (is_Some (conns t' !! p) →
     is_Some (peer_addr t' !! p)
     ∨ (∃ since, unidentified t !! p = Some since ∧ now - since < IDENTIFY_TIMEOUT)
     ∨ p ∈ kicked t')
  ∧ (∀ since, unidentified t !! p = Some since → since + IDENTIFY_TIMEOUT <= now →
     unidentified t' !! p = None).
Proof.
  cbn zeta. intros Hm. pose proof (inv_run ls _ (inv_new boot local)) as Hi.
  set (t := run ls _) in *. exists (sweep now t).
  split; [unfold task_step; by rewrite Hm|].
  pose proof (inv_sweep now t Hi) as Hi'. split.
  - intros Hc. destruct (li_id _ Hi' p Hc) as [?|[[s Hs]|?]]; [by left| |by right; right].
    apply sweep_keeps in Hs. right; left. eauto.
  - intros since Hs Hexp. destruct (unidentified (sweep now t) !! p) as [s|] eqn:E; [|done].
    apply sweep_keeps in E as [Hs' Hlt]. rewrite Hs in Hs'. injection Hs' as ->. lia.
Qed.

Lemma sweep_reaps_unidentified_witness :
  ∃ t', task_step (H:=ExampleLibp2p.libp2p) (H0:=ExampleCrypto.crypto) (TSweep 5000)
          (run (H:=ExampleLibp2p.libp2p) (H0:=ExampleCrypto.crypto) [] ExampleSwarm.t0) = Some t'.
Proof.
  destruct (sweep_reaps_unidentified (H:=ExampleLibp2p.libp2p) (H0:=ExampleSwarm.laws)
    (H1:=ExampleCrypto.crypto) [] "me" [] 5000 ExampleSwarm.peer)
    as (t' & Ht' & _).
  - reflexivity.
  - exists t'. exact Ht'.
Defined.

(** Whose messages get in: a gossip message is taken, under its sender's address, exactly
    when it is on the group's topic, its source has identified, that address is authorised
    now, and its payload is a well-formed CID; taking it appends it to the inbox unless
    the inbox is full, and any other message changes nothing. *)
Theorem message_accepted_exactly `{!Libp2p, !Crypto} (t : transport) (on_topic : bool)
    (source : option PeerId) (data : string) (m : MeshMessage.t) :
  mid t = None →
  ∃ t1, task_step (TMessage on_topic source data) t = Some t1
  ∧ (mid t1 = Some (MidPush m) ↔
     on_topic = true ∧ ∃ p, source = Some p ∧ peer_addr t !! p = Some (MeshMessage.from m)
       ∧ MeshMessage.from m ∈ authorized_s (shared t)
       ∧ accept_payload data = Some (MeshMessage.data m))
  ∧ (mid t1 = None → t1 = t)
  ∧ (mid t1 = Some (MidPush m) →
     ∃ t2, task_step TMid t1 = Some t2
     ∧ inbox_s (shared t2) = if MAX_INBOX <=? N.of_nat (length (inbox_s (shared t)))
                             then inbox_s (shared t) else inbox_s (shared t) ++ [m]).
Proof.
  intros Hm. exists (on_message on_topic source data t).
  split; [unfold task_step; by rewrite Hm|].
  assert (∀ m', task_step TMid (set_mid (Some (MidPush m')) t)
    = Some (on_mid (MidPush m') (set_mid (Some (MidPush m')) t))) as Hmid by done.
  unfold on_message. destruct on_topic; cbn [negb]; [|rewrite Hm; split_and!; naive_solver].
  destruct source as [p|]; [|rewrite Hm; split_and!; naive_solver].
  destruct (peer_addr t !! p) as [a|] eqn:Ep; [|rewrite Hm; split_and!; naive_solver].
  case_decide as Ha; [|rewrite Hm; split_and!; naive_solver].
  destruct (accept_payload data) as [s|] eqn:Ed; [|rewrite Hm; split_and!; naive_solver].
  split_and!; [split| |].
  - intros [= <-]. eauto 10.
  - intros (_ & q & [= <-] & Hq & _ & [= ->]). rewrite Ep in Hq. injection Hq as ->.
    by destruct m.
  - done.
  - intros [= <-]. rewrite Hmid. eexists. split; [done|]. simpl. unfold push_inbox.
    by case_match.
Qed.

Lemma message_accepted_exactly_witness :
  is_Some (task_step (H:=ExampleLibp2p.libp2p) (H0:=ExampleCrypto.crypto)
    (TMessage true (Some ExampleSwarm.peer) ExampleSwarm.CID) ExampleSwarm.connected_once).
Proof.
  destruct (message_accepted_exactly (H:=ExampleLibp2p.libp2p) (H0:=ExampleCrypto.crypto)
    ExampleSwarm.connected_once true (Some ExampleSwarm.peer) ExampleSwarm.CID
    {| MeshMessage.from := ExampleSwarm.A; MeshMessage.data := ExampleSwarm.CID |})
    as (t1 & Ht1 & _).
  - reflexivity.
  - exists t1. exact Ht1.
Defined.

(** Discovery never dials a stranger: what a batch of discovered records makes the swarm
    dial is peers whose id resolves to an authorised address and that are not connected,
    at addresses it remembers for them. *)
Theorem discovery_dials_only_authorised `{!Libp2p, !Crypto} (t : transport)
    (found : list (PeerId * Multiaddr)) :
  let t' := on_discovered found t in
  ∃ l, dialed t' = dialed t ++ l
    ∧ ∀ o, o ∈ l → ∃ p a addrs, o = DialPeer p addrs
        ∧ address_from_peer_id p = Some a ∧ a ∈ authorized_s (shared t)
        ∧ is_connected t p = false ∧ discovered t' !! p = Some addrs.
Proof.
  cbn zeta. unfold on_discovered. destruct (fold_left _ found _) as [fresh disc].
  destruct (dial_fresh_logs (authorized_s (shared (set_discovered disc t))) fresh
    (set_discovered disc t)) as (l & Hl & Ho).
  exists l. split; [exact Hl|]. intros o (p & addrs & -> & Hp & Hc & Hd)%Ho.
  unfold peer_authorized in Hp.
  destruct (address_from_peer_id p) as [a|] eqn:Ea; [|done]. apply bool_decide_eq_true in Hp.
  exists p, a, addrs. split_and!; try done. by rewrite dial_fresh_discovered.
Qed.
