(* ===== verification/HashOrder.v ===== *)
(** * The order of hash maps is not observable

    The swarm task and the daemon keep their tables in [HashMap]s, whose iteration order is
    unspecified. Each loop over one of them, written here over the entries in whatever order
    they come (libp2p_transport.rs, lib.rs), does what the development's definition over the
    ordered entries does; so a whole run of the transport does not depend on those orders. *)

From S2P Require Import Prelude RustStr Admission Seed Session Transport DeviceWire Swarm.
From S2P Require Import SwarmLoop Daemon DaemonSafety.
Local Open Scope N_scope.

Section orders.
  Context `{!Libp2p, !Crypto}.
  Implicit Types t : transport.

(** ** The loops, over the entries in a given order *)

Definition sweep_over (entries : list (PeerId * N)) (now : N) t : transport :=
  let expired := map fst (List.filter (λ e, IDENTIFY_TIMEOUT <=? now - e.2) entries) in
  fold_left (λ t p, drop_peer_id p (set_unidentified (delete p) t)) expired t.

Definition disconnect_over (entries : list (PeerId * string)) (address : string) t
    : transport :=
  let targets := map fst (List.filter (λ e, bool_decide (e.2 = address)) entries) in
  fold_left (λ t p, drop_peer_id p t) targets t.

Definition discovery_targets_over (entries : list (PeerId * list Multiaddr))
    (is_connected is_authorized : PeerId → bool) : list (PeerId * list Multiaddr) :=
  let due := List.filter (λ e, negb (is_connected e.1) && is_authorized e.1) entries in
  take MAX_REDIAL_PER_TICK (stable_sort key_le due).

Definition redial_over (entries : list (PeerId * list Multiaddr)) t : transport :=
  let any_admitted := negb (bool_decide (peer_addr t = ∅)) in
  let t := fold_left (λ t a, log_dial (redial_opts a) t)
             (redial_targets (bootstrap t) (is_connected t) any_admitted) t in
  let authorized := authorized_s (shared t) in
  fold_left (λ t e, log_dial (DialPeer e.1 e.2) t)
    (discovery_targets_over entries (is_connected t) (λ p, peer_authorized p authorized)) t.

(** An order for each of the task's tables. *)
Record orders := mkOrders {
  peers_in : list (PeerId * string);
  unidentified_in : list (PeerId * N);
  discovered_in : list (PeerId * list Multiaddr);
}.

Definition orders_of (o : orders) t : Prop :=
  peers_in o ≡ₚ map_to_list (peer_addr t)
  ∧ unidentified_in o ≡ₚ map_to_list (unidentified t)
  ∧ discovered_in o ≡ₚ map_to_list (discovered t).

Definition handle_cmd_over (o : orders) (taken : bool) (cmd : SwarmCmd) t : transport :=
  match cmd with
  | Disconnect address => disconnect_over (peers_in o) address t
  | _ => handle_cmd taken cmd t
  end.

Definition step_over (o : orders) (l : label) t : option transport :=
  match l, mid t with
  | inr (TSweep now), None => Some (sweep_over (unidentified_in o) now t)
  | inr TRedial, None => Some (redial_over (discovered_in o) t)
  | inr (TRecv taken), None =>
      match queue t with
      | cmd :: q => Some (handle_cmd_over o taken cmd (set_queue (λ _, q) t))
      | [] => None
      end
  | _, _ => step l t
  end.

(** The runs in which every step meets the tables in some order. *)
Inductive runs : list label → transport → transport → Prop :=
| RunsNil t : runs [] t t
| RunsStep l ls o t t' :
    orders_of o t → runs ls (default t (step_over o l t)) t' → runs (l :: ls) t t'.

(** ** Each loop over the ordered entries is the loop over any *)

Lemma drop_peer_comm t p q : drop_peer_id p (drop_peer_id q t) = drop_peer_id q (drop_peer_id p t).
Proof.
  unfold drop_peer_id, disconnect_peer_id, gate_peer, set_kicked, set_gossip. simpl.
  f_equal; [set_solver| |set_solver].
  destruct (decide (p = q)) as [->|Hne]; [done|by rewrite insert_insert_ne].
Qed.

Lemma drop_forget_comm t p q :
  drop_peer_id p (set_unidentified (delete p) (drop_peer_id q (set_unidentified (delete q) t)))
  = drop_peer_id q (set_unidentified (delete q) (drop_peer_id p (set_unidentified (delete p) t))).
Proof.
  change (drop_peer_id p (drop_peer_id q (set_unidentified (delete p) (set_unidentified (delete q) t)))
    = drop_peer_id q (drop_peer_id p (set_unidentified (delete q) (set_unidentified (delete p) t)))).
  rewrite drop_peer_comm. do 2 f_equal. unfold set_unidentified. simpl. f_equal. apply delete_delete.
Qed.

Lemma sweep_over_any entries now t :
  entries ≡ₚ map_to_list (unidentified t) → sweep_over entries now t = sweep now t.
Proof.
  rewrite <-map_entries_perm. intros Hp. unfold sweep_over, sweep.
  rewrite fold_left_mapped. apply fold_left_perm; [intros; apply drop_forget_comm|].
  by apply filter_bool_perm.
Qed.

Lemma disconnect_over_any entries address t :
  entries ≡ₚ map_to_list (peer_addr t) →
  disconnect_over entries address t = fold_left (λ t p, drop_peer_id p t) (peers_at address t) t.
Proof.
  rewrite <-map_entries_perm. intros Hp. apply fold_left_perm; [intros; apply drop_peer_comm|].
  by apply Permutation_map, filter_bool_perm.
Qed.

Lemma discovery_targets_over_any entries m is_connected is_authorized :
  entries ≡ₚ map_to_list m →
  discovery_targets_over entries is_connected is_authorized
  = discovery_targets m is_connected is_authorized.
Proof.
  rewrite <-map_entries_perm. intros Hp. unfold discovery_targets_over, discovery_targets.
  f_equal. apply sort_by_key_unique.
  - by apply filter_bool_perm.
  - eapply sublist_NoDup; [apply (NoDup_map_entries_keys m)|].
    apply sublist_map, sublist_filter_bool.
  - apply StronglySorted_filter_bool, map_entries_Sorted.
Qed.

Lemma redial_over_any entries t :
  entries ≡ₚ map_to_list (discovered t) → redial_over entries t = redial t.
Proof.
  intros Hp. unfold redial_over, redial. cbv zeta. set (t1 := fold_left _ _ t).
  rewrite (discovery_targets_over_any entries (discovered t1)); [done|].
  assert (discovered t1 = discovered t) as -> by by apply (fold_projection discovered). done.
Qed.

Lemma step_over_any o l t : orders_of o t → step_over o l t = step l t.
Proof.
  intros (Hp & Hu & Hd). unfold step_over. destruct l as [l|l]; [done|].
  destruct (mid t) as [m|] eqn:Hm; [by destruct l|].
  assert (step (inr l) t = task_step l t) as -> by done. unfold task_step. rewrite Hm.
  destruct l; try done.
  - by rewrite sweep_over_any.
  - by rewrite redial_over_any.
  - destruct (queue t) as [|cmd q]; [done|]. destruct cmd; try done. simpl.
    by rewrite (disconnect_over_any _ _ (set_queue (λ _, q) t)).
Qed.

(** Some order there always is. *)
Lemma some_orders t : ∃ o, orders_of o t.
Proof.
  by exists (mkOrders (map_to_list (peer_addr t)) (map_to_list (unidentified t))
               (map_to_list (discovered t))).
Qed.

(** C19: The order hash maps iterate in is not observable: whatever order each loop of the swarm
    task meets its table in, and however the orders differ from step to step, a schedule of the
    transport has exactly one outcome, the one of the step function; and the daemon lists its
    groups the same. *)
Theorem hash_order_unobservable (ls : list label) t :
  (∀ t', runs ls t t' ↔ t' = run ls t)
  ∧ ∀ {T} (d : ClusterDaemon.t T) entries, entries ≡ₚ map_to_list (ClusterDaemon.groups_f d) →
      stable_sort ord_le (map fst entries) = ClusterDaemon.groups d.
Proof.
  split.
  - revert t. induction ls as [|l ls IH]; intros t t'.
    + split; [by inversion 1|intros ->; constructor].
    + unfold run. cbn [fold_left]. fold (run ls (default t (step l t))). rewrite <-IH. split.
      * inversion 1 as [|? ? o ? ? Ho Hr]; subst. by rewrite step_over_any in Hr.
      * destruct (some_orders t) as [o Ho]. intros Hr. econstructor; [exact Ho|].
        by rewrite step_over_any.
  - intros T d entries Hp. unfold ClusterDaemon.groups. apply (stable_sort_perm ord_le).
    rewrite map_entries_perm. by apply Permutation_map.
Qed.

End orders.

Lemma hash_order_unobservable_witness :
  stable_sort ord_le (map fst (reverse (map_to_list (ClusterDaemon.groups_f ExampleDaemon.d0))))
  = ClusterDaemon.groups ExampleDaemon.d0.
Proof.
  apply (proj2 (hash_order_unobservable (H:=ExampleLibp2p.libp2p) (H0:=ExampleCrypto.crypto) []
    (new_transport (H:=ExampleLibp2p.libp2p) [] ("me" : string)))).
  apply reverse_Permutation.
Defined.
