(* ===== verification/Redial.v ===== *)
(** * Time in the swarm task: re-dials and the identify window

    What the two timers of the swarm task achieve (libp2p_transport.rs, [sweep] and [redial]):
    a peer refused before it was authorised gets in at a later re-dial; whom a full re-dial
    list leaves out; and how long a connection that never identifies can last. *)

From S2P Require Import Prelude RustStr Admission Seed Session Transport DeviceWire Swarm.
From S2P Require Import SwarmLoop SwarmInv SwarmSafety.
Local Open Scope N_scope.

(** The periods of the two timers, in milliseconds. *)
Definition IDENTIFY_SWEEP : N := 500.
Definition BOOTSTRAP_REDIAL : N := 5000.

(** ** What a tick dials *)

Section redial.
  Context `{!Libp2p, !Crypto}.
  Implicit Types (t : transport) (addr : Multiaddr).

Definition any_admitted t : bool := negb (bool_decide (peer_addr t = ∅)).

Definition bootstrap_due t : list Multiaddr :=
  redial_targets (bootstrap t) (is_connected t) (any_admitted t).

Definition discovered_due t : list (PeerId * list Multiaddr) :=
  discovery_targets (discovered t) (is_connected t)
    (λ p, peer_authorized p (authorized_s (shared t))).

Lemma fold_log_dialed {A} (f : A → DialOpts) l t :
  dialed (fold_left (λ t x, log_dial (f x) t) l t) = dialed t ++ map f l.
Proof.
  revert t. induction l as [|x l IH]; intros t; simpl; [by rewrite app_nil_r|].
  rewrite IH. simpl. by rewrite <-app_assoc.
Qed.

(** All a tick changes is the log of dials. *)
Definition undialled t : transport :=
  mkTransport (shared t) (queue t) (unsent t) (mid t) (peer_addr t) (unidentified t)
    (bootstrap t) (discovered t) (conns t) (blacklist t) (score t) (kicked t) []
    (published t) (listeners t) (local_peer t) (replies t).

Lemma fold_log_undialled {A} (f : A → DialOpts) l t :
  undialled (fold_left (λ t x, log_dial (f x) t) l t) = undialled t.
Proof. by apply (fold_projection undialled). Qed.

Lemma redial_undialled t : undialled (redial t) = undialled t.
Proof. unfold redial. cbv zeta. by rewrite !fold_log_undialled. Qed.

Lemma redial_dialed t :
  dialed (redial t)
  = dialed t ++ map redial_opts (bootstrap_due t)
    ++ map (λ e, DialPeer e.1 e.2) (discovered_due t).
Proof.
  unfold redial. cbv zeta. rewrite !fold_log_dialed.
  change (negb (bool_decide (peer_addr t = ∅))) with (any_admitted t). fold (bootstrap_due t).
  pose proof (fold_log_undialled redial_opts (bootstrap_due t) t) as Hu.
  set (t1 := fold_left _ _ t) in *. rewrite <-app_assoc. do 2 f_equal.
  unfold discovered_due, is_connected.
  change (discovered t) with (discovered (undialled t)).
  change (conns t) with (conns (undialled t)). change (shared t) with (shared (undialled t)).
  by rewrite <-Hu.
Qed.

(** An address due with fewer than a tick's worth before it is dialled. *)
Lemma due_in_turn l1 addr l2 c adm :
  redial_due c adm addr = true →
  (length (List.filter (redial_due c adm) l1) < MAX_REDIAL_PER_TICK)%nat →
  addr ∈ redial_targets (l1 ++ addr :: l2) c adm.
Proof.
  intros Hdue Hlt. unfold redial_targets. rewrite List.filter_app. cbn [List.filter].
  rewrite Hdue. rewrite take_app_ge by lia. apply elem_of_app. right.
  destruct (MAX_REDIAL_PER_TICK - _)%nat eqn:E; [lia|]. simpl. set_solver.
Qed.

(** Nothing past a full tick of due addresses is dialled. *)
Lemma due_out_of_turn l1 l2 c adm :
  (MAX_REDIAL_PER_TICK <= length (List.filter (redial_due c adm) l1))%nat →
  redial_targets (l1 ++ l2) c adm = take MAX_REDIAL_PER_TICK (List.filter (redial_due c adm) l1).
Proof.
  intros Hge. unfold redial_targets. rewrite List.filter_app. by rewrite take_app_le.
Qed.

Lemma filter_all {A} (P : A → bool) l : (∀ x, x ∈ l → P x = true) → List.filter P l = l.
Proof.
  induction l as [|x l IH]; intros Hl; [done|]. simpl. rewrite Hl by set_solver.
  f_equal. apply IH. set_solver.
Qed.

End redial.

(** ** The first addresses of a full list, re-dialled for ever *)

Section starving.
  Context `{!Libp2p, !Crypto}.
  Implicit Types (t : transport) (addr : Multiaddr).
  Context (l1 : list Multiaddr).

(** A step that connects none of the peers of [l1] and neither discovers nor asks to dial. *)
Definition unhelpful (l : task_label) : Prop :=
  match l with
  | TEstablished q _ => ∀ x, x ∈ l1 → bootstrap_peer_id x ≠ Some q
  | TDiscovered _ => False
  | _ => True
  end.

Definition no_dials t : Prop := ∀ a, Dial a ∉ queue t.

(** [l1] starts the list, none of its peers is connected, nothing is discovered. *)
Record stuck (l2 : list Multiaddr) t : Prop := {
  st_boot : bootstrap t = l1 ++ l2;
  st_off x : x ∈ l1 → ∃ q, bootstrap_peer_id x = Some q ∧ conns t !! q = None;
  st_disc : discovered t = ∅;
  st_quiet : no_dials t;
}.

Lemma map_entries_empty : map_entries (∅ : gmap PeerId (list Multiaddr)) = [].
Proof.
  destruct (map_entries ∅) as [|[p l] m] eqn:E; [done|].
  assert ((p, l) ∈ map_entries (∅ : gmap PeerId (list Multiaddr))) as Hin
    by (rewrite E; by left).
  apply elem_of_map_entries in Hin. by rewrite lookup_empty in Hin.
Qed.

Lemma stuck_due l2 t :
  stuck l2 t → (MAX_REDIAL_PER_TICK <= length l1)%nat →
  bootstrap_due t = take MAX_REDIAL_PER_TICK l1 ∧ discovered_due t = [].
Proof.
  intros Ht Hlen.
  assert (List.filter (redial_due (is_connected t) (any_admitted t)) l1 = l1) as Hall.
  { apply filter_all. intros x Hx. destruct (st_off _ _ Ht x Hx) as (q & Hq & Hc).
    unfold redial_due, is_connected. rewrite Hq, Hc. simpl. done. }
  split.
  - unfold bootstrap_due. rewrite (st_boot _ _ Ht). by rewrite due_out_of_turn; rewrite Hall.
  - unfold discovered_due, discovery_targets. rewrite (st_disc _ _ Ht), map_entries_empty.
    apply take_nil.
Qed.

(** *** One step *)

(** What the dials come from, and what has been dialled. *)
Definition dialling t : list Multiaddr * gmap PeerId (list Multiaddr) * list DialOpts :=
  (bootstrap t, discovered t, dialed t).

Lemma task_dialling l t t' :
  task_step l t = Some t' → no_dials t →
  match l with TRedial | TDiscovered _ | TExpired _ => True | _ => dialling t' = dialling t end.
Proof.
  unfold task_step. destruct (mid t) as [m|].
  { destruct l; try done. intros [= <-] _. by destruct m. }
  destruct l as [now| |taken|p now|p key|on_topic src data|p|found|gone|addrs|]; try done.
  - intros [= <-] _. unfold sweep. by apply (fold_projection dialling).
  - destruct (queue t) as [|cmd q] eqn:Hq; [done|]. intros [= <-] Hn.
    destruct cmd as [b|a|a| |]; simpl; try done.
    + by destruct taken.
    + exfalso. apply (Hn a). rewrite Hq. by left.
    + rewrite (fold_projection dialling); done.
  - intros [= <-] _. unfold on_established. by case_decide.
  - case_decide; [|done]. intros [= <-] _. unfold on_identify.
    destruct (negb _); simpl; [done|].
    destruct (address_from_public_key key); simpl; [|done]. by case_decide.
  - intros [= <-] _. unfold on_message. by repeat case_match.
  - case_decide; [|done]. intros [= <-] _. unfold on_closed.
    destruct (conns t !! p) as [[|[|n]]|]; try done; cbv zeta; simpl;
      by destruct (peer_addr t !! p).
  - by intros [= <-] _.
Qed.

(** A peer comes to be connected only by a connection. *)
Lemma task_conns l t t' q :
  task_step l t = Some t' → conns t !! q = None →
  (∃ now, l = TEstablished q now) ∨ conns t' !! q = None.
Proof.
  unfold task_step. destruct (mid t) as [m|].
  { destruct l; try done. intros [= <-]. right. by destruct m. }
  assert (∀ t1, conns t1 = conns t → Some t1 = Some t' → conns t !! q = None →
    (∃ now, l = TEstablished q now) ∨ conns t' !! q = None) as Heq
    by (intros t1 Ht1 [= <-] Hn; right; by rewrite Ht1).
  destruct l as [now| |taken|p now|p key|on_topic src data|p|found|gone|addrs|]; try done.
  - apply Heq. unfold sweep. by apply (fold_projection conns).
  - apply Heq. exact (f_equal conns (redial_undialled t)).
  - destruct (queue t) as [|cmd q']; [done|]. apply Heq.
    destruct cmd as [b|a|a| |]; simpl; try done; [by destruct taken|].
    by rewrite (fold_projection conns).
  - intros [= <-] Hn. destruct (decide (p = q)) as [->|Hne]; [left; eauto|right].
    unfold on_established. case_decide; simpl; by rewrite lookup_insert_ne.
  - case_decide; [|done]. apply Heq. unfold on_identify. destruct (negb _); simpl; [done|].
    destruct (address_from_public_key key); simpl; [|done]. by case_decide.
  - apply Heq. unfold on_message. by repeat case_match.
  - case_decide as Hc; [|done]. intros [= <-] Hn. right. unfold on_closed.
    assert (p ≠ q) by (intros ->; rewrite Hn in Hc; by destruct Hc).
    destruct (conns t !! p) as [[|[|n]]|]; cbv zeta; simpl;
      try destruct (peer_addr t !! p); simpl; by rewrite ?lookup_delete_ne, ?lookup_insert_ne.
  - apply Heq. unfold on_discovered. destruct (fold_left _ found _) as [fresh disc].
    rewrite (fold_projection conns); [done|]. intros t1 x. unfold dial_fresh. by repeat case_match.
  - by apply Heq.
  - by apply Heq.
Qed.

Lemma expired_nothing gone :
  fold_left (λ m (e : PeerId * Multiaddr), forget_discovered m e.1 e.2) gone ∅ = ∅.
Proof.
  induction gone as [|e gone IH]; [done|]. simpl. unfold forget_discovered at 2.
  by rewrite lookup_empty.
Qed.

Definition first_tick : list DialOpts := map redial_opts (take MAX_REDIAL_PER_TICK l1).

Lemma stuck_step l2 l t t' :
  stuck l2 t → (MAX_REDIAL_PER_TICK <= length l1)%nat → unhelpful l → task_step l t = Some t' →
  stuck l2 t' ∧ (dialed t' = dialed t ∨ dialed t' = dialed t ++ first_tick).
Proof.
  intros Ht Hlen Hl Hstep.
  assert (no_dials t') as Hq'.
  { intros a Ha. apply (st_quiet _ _ Ht a).
    pose proof Hstep as (_ & _ & [<-|(_ & cmd & ->)])%task_authorized; [done|]. by right. }
  assert (bootstrap t' = bootstrap t → discovered t' = ∅ → stuck l2 t') as Hstuck.
  { intros Hb Hd. split; [by rewrite Hb; apply (st_boot _ _ Ht)| |done|done].
    intros x Hx. destruct (st_off _ _ Ht x Hx) as (q & Hxq & Hcq). exists q. split; [done|].
    destruct (task_conns l t t' q Hstep Hcq) as [[now ->]|?]; [|done].
    by apply Hl in Hxq. }
  pose proof (task_dialling l t t' Hstep (st_quiet _ _ Ht)) as Hd.
  destruct l as [now| |taken|p now|p key|on_topic src data|p|found|gone|addrs|]; try done;
    try (injection Hd as Hb Hdi Hlog; split; [apply Hstuck; [done|];
           rewrite Hdi; apply (st_disc _ _ Ht)|by left]).
  - unfold task_step in Hstep. destruct (mid t); [done|]. injection Hstep as <-. split.
    + apply Hstuck; [exact (f_equal bootstrap (redial_undialled t))|].
      etrans; [exact (f_equal discovered (redial_undialled t))|apply (st_disc _ _ Ht)].
    + right. destruct (stuck_due l2 t Ht Hlen) as [Hb Hdi].
      rewrite redial_dialed, Hb, Hdi. simpl. by rewrite app_nil_r.
  - unfold task_step in Hstep. destruct (mid t); [done|]. injection Hstep as <-.
    split; [|by left]. apply Hstuck; [done|]. simpl. rewrite (st_disc _ _ Ht).
    apply expired_nothing.
Qed.

Lemma stuck_run l2 ls t :
  stuck l2 t → (MAX_REDIAL_PER_TICK <= length l1)%nat → (∀ l, l ∈ ls → unhelpful l) →
  stuck l2 (run (map inr ls) t)
  ∧ ∃ n, dialed (run (map inr ls) t) = dialed t ++ concat (repeat first_tick n).
Proof.
  intros Ht Hlen. revert t Ht. induction ls as [|l ls IH]; intros t Ht Hls.
  { split; [done|]. exists O. by rewrite app_nil_r. }
  unfold run. cbn [map fold_left step]. destruct (task_step l t) as [t1|] eqn:Hl; simpl.
  - destruct (stuck_step l2 l t t1 Ht Hlen) as [Ht1 Hd]; [apply Hls; by left|done|].
    destruct (IH t1 Ht1) as [Hst (n & Hn)]; [intros; apply Hls; by right|]. split; [exact Hst|].
    unfold run in Hn. rewrite Hn. destruct Hd as [->| ->]; [eauto|].
    exists (S n). simpl. by rewrite <-app_assoc.
  - apply (IH t Ht). intros; apply Hls; by right.
Qed.

End starving.

(** ** A connection that never identifies *)

Section watching.
  Context `{!Libp2p, !Crypto}.
  Implicit Types (t : transport).
  Context (p : PeerId) (now : N).

(** Connected, shut out, not identified: waiting since [now], or told to go. *)
Record watched t : Prop := {
  wa_conn : is_Some (conns t !! p);
  wa_addr : peer_addr t !! p = None;
  wa_gated : gated t p;
  wa_since : unidentified t !! p = Some now ∨ p ∈ kicked t;
}.

(** All the watch looks at. *)
Definition seen t : gmap PeerId nat * gmap PeerId string * gset PeerId * gmap PeerId Z
    * gmap PeerId N * gset PeerId :=
  (conns t, peer_addr t, blacklist t, score t, unidentified t, kicked t).

Lemma watched_seen t t' : seen t' = seen t → watched t → watched t'.
Proof.
  intros [= Hc Ha Hb Hs Hu Hk] [Wc Wa [Wb Ws] Ww].
  split; unfold gated; rewrite ?Hc, ?Ha, ?Hb, ?Hs, ?Hu, ?Hk; try done.
Qed.

(** Dropping a peer, this one or another, is as it should be. *)
Lemma watched_drop q t : watched t → watched (drop_peer_id q t).
Proof.
  intros [Wc Wa Wg Ww]. split; [done|done|apply gated_drop; by left|].
  destruct Ww as [?|?]; [by left|right]. simpl. set_solver.
Qed.

Lemma watched_drop_forget q t :
  watched t → watched (drop_peer_id q (set_unidentified (delete q) t)).
Proof.
  intros [Wc Wa Wg Ww]. split; [done|done|apply gated_drop; by left|].
  simpl. destruct (decide (q = p)) as [->|Hne]; [right; set_solver|].
  rewrite lookup_delete_ne by done. destruct Ww as [?|?]; [by left|right; set_solver].
Qed.

Lemma watched_fold {A} (f : transport → A → transport) l t :
  (∀ t x, watched t → watched (f t x)) → watched t → watched (fold_left f l t).
Proof. intros Hf. revert t. induction l as [|x l IH]; intros t Ht; simpl; auto. Qed.

Lemma watched_surface l t t' : surface_step l t = Some t' → watched t → watched t'.
Proof.
  intros Hl. apply watched_seen. unfold surface_step in Hl.
  destruct (unsent t) as [u|] eqn:Hu.
  { destruct l; try done. injection Hl as <-. unfold disconnect_send. by rewrite Hu. }
  destruct l; try done; injection Hl as <-; try done.
  - unfold surface_dial. by destruct (canonical_address _).
  - unfold disconnect_lock. by destruct (canonical_address _).
Qed.

(** The labels that end the watch. *)
Definition ends_watch (l : label) : Prop :=
  match l with inr (TIdentify q _) | inr (TClosed q) => q = p | _ => False end.

Lemma watched_identify q key t : q ≠ p → watched t → watched (on_identify q key t).
Proof.
  intros Hne [Wc Wa [Wb Ws] Ww]. unfold on_identify.
  assert (∀ t1, watched t1 → watched (disconnect_peer_id q t1)) as Hdis.
  { intros t1 [? ? ? W1]. split; [done..|]. simpl. destruct W1; [by left|right; set_solver]. }
  assert (watched (set_unidentified (delete q) t)) as Ht.
  { split; [done|done|done|]. simpl. by rewrite lookup_delete_ne. }
  destruct (negb _); [by apply Hdis|].
  destruct (address_from_public_key key) as [a|]; [|by apply Hdis].
  case_decide; [|by apply watched_drop]. destruct Ht as [Tc Ta [Tb Ts] Tw]. split; simpl in *.
  - done.
  - by rewrite lookup_insert_ne.
  - split; simpl; [set_solver|by rewrite lookup_insert_ne].
  - done.
Qed.

Lemma watched_established q n t : watched t → watched (on_established q n t).
Proof.
  intros [Wc Wa Wg Ww]. unfold on_established.
  assert (is_Some ((<[q := S (default O (conns t !! q))]> (conns t)) !! p)) as Hc.
  { destruct (decide (q = p)) as [->|?]; [rewrite lookup_insert_eq|rewrite lookup_insert_ne]; eauto. }
  case_decide; [by split|]. split; [done|done|by apply gated_gate; left|]. simpl.
  destruct Ww as [Hu|?]; [left|by right].
  destruct (decide (q = p)) as [->|Hne].
  - rewrite decide_True by eauto. done.
  - case_decide; [done|]. by rewrite lookup_insert_ne.
Qed.

Lemma watched_closed q t : q ≠ p → watched t → watched (on_closed q t).
Proof.
  intros Hne [Wc Wa [Wb Ws] Ww]. unfold on_closed.
  destruct (conns t !! q) as [[|[|n]]|]; cbv zeta; simpl; try destruct (peer_addr t !! q);
    (split; simpl; [| |split; simpl|]);
    rewrite ?lookup_delete_ne, ?lookup_insert_ne by done; try done; try set_solver;
    (destruct Ww as [?|?]; [by left|right; set_solver]).
Qed.

Lemma watched_step l t t' :
  ¬ ends_watch l → step l t = Some t' → watched t → watched t'.
Proof.
  intros Hl Hstep. destruct l as [l|l]; [by eapply watched_surface|].
  simpl in Hstep. unfold task_step in Hstep. destruct (mid t) as [m|].
  { destruct l; try done. injection Hstep as <-. apply watched_seen. by destruct m. }
  destruct l as [n| |taken|q n|q key|on_topic src data|q|found|gone|addrs|]; try done.
  - injection Hstep as <-. apply watched_fold. intros t1 e. apply watched_drop_forget.
  - injection Hstep as <-. apply watched_seen.
    assert (∀ t1, seen t1 = seen (undialled t1)) as Hun by done.
    by rewrite Hun, redial_undialled.
  - destruct (queue t) as [|cmd q]; [done|]. injection Hstep as <-. intros Ht.
    assert (watched (set_queue (λ _, q) t)) as Hq by by eapply watched_seen; [|exact Ht].
    destruct cmd as [b|a|a| |]; simpl; try destruct taken;
      try (by eapply watched_seen; [|exact Hq]).
    all: apply watched_fold; [|done]; intros t1 q1; apply watched_drop.
  - injection Hstep as <-. apply watched_established.
  - destruct (decide _); [|done]. injection Hstep as <-. by apply watched_identify.
  - injection Hstep as <-. apply watched_seen. unfold on_message. by repeat case_match.
  - destruct (decide _); [|done]. injection Hstep as <-. by apply watched_closed.
  - injection Hstep as <-. apply watched_seen. unfold on_discovered.
    destruct (fold_left _ found _) as [fresh disc].
    rewrite (fold_projection seen); [done|]. intros t1 x. unfold dial_fresh. by repeat case_match.
  - injection Hstep as <-. by apply watched_seen.
  - injection Hstep as <-. by apply watched_seen.
Qed.

Lemma watched_run ls t :
  (∀ l, l ∈ ls → ¬ ends_watch l) → watched t → watched (run ls t).
Proof.
  unfold run. revert t. induction ls as [|l ls IH]; intros t Hls Ht; [done|]. simpl.
  apply IH; [intros; apply Hls; by right|]. destruct (step l t) as [t1|] eqn:E; [|done]. simpl.
  eapply watched_step; [apply Hls; by left|exact E|done].
Qed.

Lemma fold_drop_kicks (l : list (PeerId * N)) t :
  kicked t ⊆ kicked (fold_left (λ t e, drop_peer_id e.1 (set_unidentified (delete e.1) t)) l t)
  ∧ ∀ q, q ∈ l.*1 →
      q ∈ kicked (fold_left (λ t e, drop_peer_id e.1 (set_unidentified (delete e.1) t)) l t).
Proof.
  revert t. induction l as [|e l IH]; intros t; [split; [done|set_solver]|].
  cbn [fold_left]. destruct (IH (drop_peer_id e.1 (set_unidentified (delete e.1) t))) as [Hk Hl].
  split.
  - etrans; [|exact Hk]. simpl. set_solver.
  - intros q. rewrite fmap_cons. intros [->|?]%elem_of_cons; [|by apply Hl].
    apply Hk. simpl. set_solver.
Qed.

Lemma sweep_kicks s t : watched t → now + IDENTIFY_TIMEOUT <= s → p ∈ kicked (sweep s t).
Proof.
  intros [_ _ _ Hw] Hs. unfold sweep.
  destruct (fold_drop_kicks (List.filter (λ e, IDENTIFY_TIMEOUT <=? s - e.2)
    (map_entries (unidentified t))) t) as [Hk Hl].
  destruct Hw as [Hu|?]; [|by apply Hk]. apply Hl. apply list_elem_of_fmap.
  exists (p, now). split; [done|]. apply list_elem_of_In, filter_In.
  rewrite <-list_elem_of_In, elem_of_map_entries. split; [done|]. apply N.leb_le. simpl. lia.
Qed.

End watching.

Lemma run_split `{!Libp2p, !Crypto} pre l post t :
  run (pre ++ l :: post) t = run post (default (run pre t) (step l (run pre t))).
Proof. unfold run. by rewrite fold_left_app. Qed.

(** Some tick falls in the period after [due]. *)
Lemma tick_in_window first due :
  first <= due →
  let k := (due - first + (IDENTIFY_SWEEP - 1)) / IDENTIFY_SWEEP in
  due <= first + k * IDENTIFY_SWEEP <= due + IDENTIFY_SWEEP.
Proof.
  intros Hf. cbv zeta. change IDENTIFY_SWEEP with 500. change (500 - 1) with 499.
  pose proof (N.div_mod (due - first + 499) 500 ltac:(done)) as Hd.
  pose proof (N.mod_lt (due - first + 499) 500 ltac:(done)) as Hm.
  set (q := (due - first + 499) / 500) in *. set (r := (due - first + 499) mod 500) in *.
  clearbody q r. lia.
Qed.

(** Told to go: watched, whatever the time. *)
Lemma kicked_watched `{!Libp2p, !Crypto} p now t :
  watched p now t → p ∈ kicked t → ∀ n, watched p n t.
Proof. intros [] Hk n. split; auto. Qed.

Lemma watched_kicked `{!Libp2p, !Crypto} p t : (∀ n, watched p n t) → p ∈ kicked t.
Proof.
  intros Hw. destruct (wa_since _ _ _ (Hw 0)) as [Hu0|?]; [|done].
  destruct (wa_since _ _ _ (Hw 1)) as [Hu1|?]; [|done]. congruence.
Qed.

(** ** Refused, and let in later *)

Section attempts.
  Context `{!Libp2p, !Crypto}.
  Implicit Types (t : transport).
  Context (p : PeerId) (key : PublicKey) (a : string).
  Context (Hkey : to_peer_id key = p) (Haddr : address_from_public_key key = Some a).

(** The peer is away: not connected, not identified. *)
Record away t : Prop := {
  aw_mid : mid t = None;
  aw_unsent : unsent t = None;
  aw_conns : conns t !! p = None;
  aw_addr : peer_addr t !! p = None;
}.

(** What a refused attempt leaves as it was. *)
Definition background t : list Multiaddr * gmap PeerId string * list DialOpts * Shared :=
  (bootstrap t, peer_addr t, dialed t, shared t).

Lemma connects now t :
  away t →
  let t1 := on_established p now t in
  run [inr (TEstablished p now)] t = t1 ∧ background t1 = background t ∧ mid t1 = None
  ∧ unsent t1 = None ∧ conns t1 = <[p := 1%nat]> (conns t) ∧ gated t1 p.
Proof.
  intros [Hm Hu Hc Ha]. cbv zeta. unfold run. cbn [fold_left step]. unfold task_step.
  rewrite Hm. split; [done|]. unfold on_established. cbn [peer_addr set_conns].
  rewrite decide_False by (rewrite Ha; by intros []).
  split_and!; [done|exact Hm|exact Hu|simpl; by rewrite Hc|apply gated_gate; by right].
Qed.

Lemma refused_away now t :
  away t → a ∉ authorized_s (shared t) →
  let t1 := run [inr (TEstablished p now); inr (TIdentify p key)] t in
  let t2 := run [inr (TClosed p)] t1 in
  (gated t1 p ∧ p ∈ kicked t1 ∧ peer_addr t1 !! p = None)
  ∧ away t2 ∧ background t2 = background t ∧ conns t2 = conns t.
Proof.
  intros Ht Hnot. destruct (connects now t Ht) as (Hr & Hb & Hm & Hu & Hc & Hg). cbv zeta.
  change (run [inr (TEstablished p now); inr (TIdentify p key)] t)
    with (run [inr (TIdentify p key)] (run [inr (TEstablished p now)] t)).
  rewrite Hr. set (t0 := on_established p now t) in *. destruct Ht as [_ _ Hc0 Ha0].
  injection Hb as Hb1 Hb2 Hb3 Hb4.
  assert (run [inr (TIdentify p key)] t0 = drop_peer_id p (set_unidentified (delete p) t0)) as ->.
  { unfold run. cbn [fold_left step]. unfold task_step. rewrite Hm, Hc, lookup_insert_eq.
    rewrite decide_True by done. cbn [default from_option id]. unfold on_identify.
    rewrite bool_decide_eq_true_2 by done. cbn [negb]. rewrite Haddr.
    cbn [shared set_unidentified]. by rewrite Hb4, decide_False. }
  set (t1 := drop_peer_id p (set_unidentified (delete p) t0)).
  assert (run [inr (TClosed p)] t1 = on_closed p t1) as ->.
  { unfold run. cbn [fold_left step]. unfold task_step. simpl. rewrite Hm, Hc, lookup_insert_eq.
    by rewrite decide_True. }
  assert (conns t1 !! p = Some 1%nat ∧ peer_addr t1 !! p = None) as [Hc1 Ha1]
    by (simpl; by rewrite Hc, lookup_insert_eq, Hb2).
  split_and!; [apply gated_drop; by right|simpl; set_solver|done| | |].
  - unfold on_closed. rewrite Hc1. cbv zeta. cbn [peer_addr set_gossip set_unidentified set_kicked
      set_conns]. rewrite Ha1. split; simpl; [done|done|by rewrite lookup_delete_eq|by rewrite Hb2].
  - unfold on_closed. rewrite Hc1. cbv zeta. cbn [peer_addr set_gossip set_unidentified set_kicked
      set_conns]. rewrite Ha1. unfold background. simpl. by rewrite Hb1, Hb2, Hb3, Hb4.
  - unfold on_closed. rewrite Hc1. cbv zeta. cbn [peer_addr set_gossip set_unidentified set_kicked
      set_conns]. rewrite Ha1. simpl. rewrite Hc. by rewrite delete_insert_id.
Qed.

Lemma let_in now t :
  away t → a ∈ authorized_s (shared t) →
  let t1 := run [inr (TEstablished p now); inr (TIdentify p key); inr TMid] t in
  peer_addr t1 !! p = Some a ∧ ¬ gated t1 p ∧ a ∈ connected_s (shared t1).
Proof.
  intros Ht Hin. destruct (connects now t Ht) as (Hr & Hb & Hm & Hu & Hc & Hg). cbv zeta.
  change (run [inr (TEstablished p now); inr (TIdentify p key); inr TMid] t)
    with (run [inr (TIdentify p key); inr TMid] (run [inr (TEstablished p now)] t)).
  rewrite Hr. set (t0 := on_established p now t) in *.
  injection Hb as Hb1 Hb2 Hb3 Hb4.
  change (run [inr (TIdentify p key); inr TMid] t0)
    with (run [inr TMid] (run [inr (TIdentify p key)] t0)).
  set (t1 := set_mid (Some (MidConnect a))
    (ungate_peer p (set_peer_addr <[p := a]> (set_unidentified (delete p) t0)))).
  assert (run [inr (TIdentify p key)] t0 = t1) as ->.
  { unfold run. cbn [fold_left step]. unfold task_step. rewrite Hm, Hc, lookup_insert_eq.
    rewrite decide_True by done. cbn [default from_option id]. unfold on_identify.
    rewrite bool_decide_eq_true_2 by done. cbn [negb]. rewrite Haddr.
    cbn [shared set_unidentified]. by rewrite Hb4, decide_True. }
  change (run [inr TMid] t1) with (on_mid (MidConnect a) t1). simpl.
  rewrite lookup_insert_eq. split_and!; [done| |set_solver]. unfold gated. simpl. set_solver.
Qed.

End attempts.

(** ** Theorems *)

(** C23: A connection that never identifies is told to go in time: whatever else happens, if the
    sweep ticks every [IDENTIFY_SWEEP] (and is taken: no handler is half done), then by
    [IDENTIFY_TIMEOUT] plus one tick after a peer connects, unless it has identified or its
    connection has closed, its disconnection has been requested; and all that time it was
    shut out of the topic and spoke under no address. *)
Theorem unidentified_told_to_go `{!Libp2p, !Crypto} (t : transport) (p : PeerId)
    (now first : N) (ls : list label) :
  mid t = None → conns t !! p = None → peer_addr t !! p = None → unidentified t !! p = None →
  first <= now →
  let t1 := run [inr (TEstablished p now)] t in
  (∀ l, l ∈ ls → ¬ ends_watch p l) →
  (∀ k, first + k * IDENTIFY_SWEEP <= now + IDENTIFY_TIMEOUT + IDENTIFY_SWEEP →
     ∃ pre post : list label, ls = pre ++ inr (TSweep (first + k * IDENTIFY_SWEEP)) :: post
       ∧ mid (run pre t1) = None) →
  p ∈ kicked (run ls t1)
  ∧ ∀ pre post, ls = pre ++ post →
      gated (run pre t1) p ∧ peer_addr (run pre t1) !! p = None.
Proof.
  intros Hm Hc Ha Hu Hf t1 Hls Hticks.
  assert (watched p now t1) as Hw1.
  { subst t1. unfold run. simpl. unfold task_step. rewrite Hm. simpl. unfold on_established.
    simpl. rewrite decide_False by (rewrite Ha; by intros []). split; simpl.
    - rewrite lookup_insert_eq. eauto.
    - done.
    - apply gated_gate. by right.
    - left. rewrite decide_False by (rewrite Hu; by intros []). by rewrite lookup_insert_eq. }
  assert (∀ pre post, ls = pre ++ post → watched p now (run pre t1)) as Hw.
  { intros pre post ->. apply watched_run; [|done]. intros l Hl. apply Hls. set_solver. }
  split; [|intros pre post Hp; by destruct (Hw pre post Hp)].
  set (k := (now + IDENTIFY_TIMEOUT - first + (IDENTIFY_SWEEP - 1)) / IDENTIFY_SWEEP).
  assert (now + IDENTIFY_TIMEOUT <= first + k * IDENTIFY_SWEEP
    <= now + IDENTIFY_TIMEOUT + IDENTIFY_SWEEP) as [Hk1 Hk2].
  { apply tick_in_window. lia. }
  destruct (Hticks k Hk2) as (pre & post & Heq & Hmid).
  pose proof (Hw pre _ Heq) as Hwp. set (s := first + k * IDENTIFY_SWEEP) in *.
  assert (run ls t1 = run post (sweep s (run pre t1))) as ->.
  { rewrite Heq. etrans; [apply (run_split pre)|]. f_equal. cbn [step]. unfold task_step.
    by rewrite Hmid. }
  assert (watched p now (sweep s (run pre t1))) as Hws.
  { apply (watched_step p now (inr (TSweep s)) (run pre t1)); [by intros []| |done].
    simpl. unfold task_step. by rewrite Hmid. }
  apply watched_kicked. intros n. apply watched_run.
  - intros l Hl. apply Hls. rewrite Heq. set_solver.
  - eapply kicked_watched; [exact Hws|]. by eapply sweep_kicks.
Qed.

(** A peer that connects and says nothing while the sweep ticks twelve times. *)
Module ExampleSilent.

#[local] Instance crypto : Crypto := ExampleCrypto.crypto.
#[local] Instance libp2p : Libp2p := ExampleLibp2p.libp2p.

Definition ticks : list label :=
  map (λ k, inr (TSweep (N.of_nat k * IDENTIFY_SWEEP))) (seq 0 12).

Definition K : PeerId := ExampleSwarm.K.
Definition t0 : transport := ExampleSwarm.t0.
Definition silent : transport := run ticks (run [inr (TEstablished K 100)] t0).

Lemma t0_empty : mid t0 = None ∧ conns t0 !! K = None ∧ peer_addr t0 !! K = None
  ∧ unidentified t0 !! K = None.
Proof. split_and!; done || apply lookup_empty. Qed.

Lemma ticks_end_nothing l : l ∈ ticks → ¬ ends_watch K l.
Proof.
  unfold ticks. intros Hl. apply list_elem_of_In, in_map_iff in Hl as (k & <- & _). by intros [].
Qed.

Lemma sweeps_keep_mid (ns : list nat) t :
  mid t = None →
  mid (run (map (λ k, inr (TSweep (N.of_nat k * IDENTIFY_SWEEP))) ns) t) = None.
Proof.
  revert t. induction ns as [|n ns IH]; intros t Hm; [exact Hm|].
  apply (IH (default t (step (inr (TSweep (N.of_nat n * IDENTIFY_SWEEP))) t))).
  cbn [step]. unfold task_step. rewrite Hm. cbn [default from_option id].
  unfold sweep. by rewrite (fold_projection mid).
Qed.

Lemma ticks_taken k :
  0 + k * IDENTIFY_SWEEP <= 100 + IDENTIFY_TIMEOUT + IDENTIFY_SWEEP →
  ∃ pre post : list label, ticks = pre ++ inr (TSweep (0 + k * IDENTIFY_SWEEP)) :: post
    ∧ mid (run pre (run [inr (TEstablished K 100)] t0)) = None.
Proof.
  intros Hk. assert (N.to_nat k < 12)%nat as Hlt.
  { unfold IDENTIFY_SWEEP, IDENTIFY_TIMEOUT in Hk. lia. }
  exists (take (N.to_nat k) ticks), (drop (S (N.to_nat k)) ticks). split.
  - symmetry. apply take_drop_middle. unfold ticks.
    change (map ?f ?l) with (f <$> l). rewrite list_lookup_fmap, lookup_seq_lt by done.
    simpl. by rewrite N2Nat.id.
  - unfold ticks. rewrite firstn_map. apply sweeps_keep_mid. reflexivity.
Qed.

End ExampleSilent.

Lemma unidentified_told_to_go_witness :
  ExampleSilent.K ∈ kicked (H:=ExampleSilent.libp2p) ExampleSilent.silent.
Proof.
  destruct ExampleSilent.t0_empty as (Hm & Hc & Ha & Hu).
  destruct (unidentified_told_to_go (H:=ExampleSilent.libp2p) (H0:=ExampleSilent.crypto)
    ExampleSilent.t0 ExampleSilent.K 100 0 ExampleSilent.ticks Hm Hc Ha Hu (N.le_0_l 100)
    ExampleSilent.ticks_end_nothing ExampleSilent.ticks_taken) as [Hk _].
  exact Hk.
Defined.

(** C22: A peer refused before it was authorised gets in without a restart: it connects and
    proves its key, is shut out and told to go; once it has gone and its address is
    authorised, the next re-dial tick dials the bootstrap address that names it, if fewer
    than a tick's worth of due addresses stand before it in the list; and when that
    connection identifies, the peer is let in under its address and counted connected. *)
Theorem late_authorisation_gets_in `{!Libp2p, !Crypto} (t : transport) (p : PeerId)
    (key : PublicKey) (a x : string) (l1 l2 : list Multiaddr) (addr : Multiaddr)
    (now1 now2 : N) :
  away p t → to_peer_id key = p → address_from_public_key key = Some a →
  a ∉ authorized_s (shared t) → canonical_address x = Some a →
  bootstrap t = l1 ++ addr :: l2 → bootstrap_peer_id addr = Some p →
  (length (List.filter (redial_due (is_connected t) (any_admitted t)) l1)
     < MAX_REDIAL_PER_TICK)%nat →
  let refused := run [inr (TEstablished p now1); inr (TIdentify p key)] t in
  let later := run [inl (SDial x); inr TRedial] (run [inr (TClosed p)] refused) in
  let after := run [inr (TEstablished p now2); inr (TIdentify p key); inr TMid] later in
  (gated refused p ∧ p ∈ kicked refused ∧ peer_addr refused !! p = None)
  ∧ (∃ new, dialed later = dialed t ++ new ∧ DialPeer p [addr] ∈ new)
  ∧ (peer_addr after !! p = Some a ∧ ¬ gated after p ∧ a ∈ connected_s (shared after)).
Proof.
  intros Ht Hkey Haddr Hnot Hx Hboot Hp Hlt refused later after.
  destruct (refused_away p key a Hkey Haddr now1 t Ht Hnot) as (Href & Ht2 & Hb & Hc).
  fold refused in Href, Ht2, Hb, Hc. set (t2 := run [inr (TClosed p)] refused) in *.
  split; [exact Href|].
  set (t3 := set_shared (authorize_shared a) t2).
  assert (later = redial t3) as Hlater.
  { subst later. unfold run. cbn [fold_left step]. unfold surface_step.
    rewrite (aw_unsent _ _ Ht2). cbn [default from_option id]. unfold surface_dial. rewrite Hx.
    unfold task_step. fold t3. change (mid t3) with (mid t2). by rewrite (aw_mid _ _ Ht2). }
  injection Hb as Hb1 Hb2 Hb3 Hb4. pose proof (redial_undialled t3) as Hu. split.
  - exists (map redial_opts (bootstrap_due t3) ++ map (λ e, DialPeer e.1 e.2) (discovered_due t3)).
    rewrite Hlater, redial_dialed. split; [simpl; by rewrite Hb3|]. apply elem_of_app. left.
    assert (DialPeer p [addr] = redial_opts addr) as -> by (unfold redial_opts; by rewrite Hp).
    apply list_elem_of_In, in_map, list_elem_of_In. unfold bootstrap_due. simpl.
    rewrite Hb1, Hboot. unfold is_connected, any_admitted in *. simpl. rewrite Hb2, Hc.
    apply due_in_turn; [|exact Hlt]. unfold redial_due. rewrite Hp.
    by rewrite (aw_conns _ _ Ht).
  - apply let_in; [done|done| |].
    + rewrite Hlater. destruct Ht2 as [Hm2 Hu2 Hc2 Ha2]. split.
      * etrans; [exact (f_equal mid Hu)|exact Hm2].
      * etrans; [exact (f_equal unsent Hu)|exact Hu2].
      * etrans; [exact (f_equal (λ t, conns t !! p) Hu)|exact Hc2].
      * etrans; [exact (f_equal (λ t, peer_addr t !! p) Hu)|exact Ha2].
    + rewrite Hlater. rewrite (f_equal shared Hu : shared (redial t3) = shared t3).
      apply elem_of_union_l. by apply elem_of_singleton.
Qed.

(** A node whose one bootstrap address names a peer that is not authorised yet. *)
Module ExampleLate.

#[local] Instance crypto : Crypto := ExampleCrypto.crypto.
#[local] Instance libp2p : Libp2p := ExampleLibp2p.libp2p.

Definition K : PeerId := ExampleSwarm.K.
Definition addr : Multiaddr := [Tcp 4001; P2p K].
Definition t0 : transport := new_transport [addr] "me".

Definition refused : transport := run [inr (TEstablished K 0); inr (TIdentify K K)] t0.
Definition later : transport :=
  run [inl (SDial ExampleSwarm.A); inr TRedial] (run [inr (TClosed K)] refused).
Definition after : transport :=
  run [inr (TEstablished K 9000); inr (TIdentify K K); inr TMid] later.

Lemma t0_away : away K t0.
Proof. split; done || apply lookup_empty. Qed.

Lemma K_address : address_from_public_key (K : PublicKey) = Some ExampleSwarm.A.
Proof. vm_compute. reflexivity. Qed.

End ExampleLate.

Lemma late_authorisation_gets_in_witness :
  ExampleSwarm.A ∈ connected_s (shared ExampleLate.after).
Proof.
  destruct (late_authorisation_gets_in (H:=ExampleLate.libp2p) (H0:=ExampleLate.crypto)
    ExampleLate.t0 ExampleLate.K ExampleLate.K ExampleSwarm.A ExampleSwarm.A [] []
    ExampleLate.addr 0 9000 ExampleLate.t0_away eq_refl ExampleLate.K_address
    (not_elem_of_empty _) eq_refl eq_refl eq_refl (Nat.lt_0_succ 15)) as (_ & _ & _ & _ & Hin).
  exact Hin.
Defined.

(** A full list starves what follows its first tick: while the peers of the first addresses of
    the re-dial list, a tick's worth or more, stay unconnected and nothing is discovered or
    asked to be dialled, every tick dials the same first [MAX_REDIAL_PER_TICK] addresses,
    and no other address of the list is ever dialled, however long the swarm task runs. *)
Theorem redial_starves_the_rest `{!Libp2p, !Crypto} (l1 l2 : list Multiaddr) (t : transport)
    (ls : list task_label) :
  stuck l1 l2 t → (MAX_REDIAL_PER_TICK <= length l1)%nat → (∀ l, l ∈ ls → unhelpful l1 l) →
  let t' := run (map inr ls) t in
  (∃ n, dialed t' = dialed t ++ concat (repeat (first_tick l1) n))
  ∧ (∀ o addr, o = redial_opts addr → addr ∉ l1 → o ∈ dialed t' → o ∈ dialed t).
Proof.
  intros Ht Hlen Hls t'. destruct (stuck_run l1 l2 ls t Ht Hlen Hls) as [_ (n & Hn)].
  split; [by exists n|]. intros o addr -> Hna. unfold t'. rewrite Hn.
  intros [?|Hin]%elem_of_app; [done|exfalso]. apply Hna.
  apply list_elem_of_In, in_concat in Hin as (l & Hl & Hin). apply repeat_spec in Hl as ->.
  unfold first_tick in Hin. apply in_map_iff in Hin as (y & Hy & Hin).
  assert (y = addr) as <-.
  { unfold redial_opts in Hy.
    destruct (bootstrap_peer_id y), (bootstrap_peer_id addr); congruence. }
  apply list_elem_of_In in Hin. eapply elem_of_submseteq; [exact Hin|].
  apply sublist_submseteq, sublist_take.
Qed.

(** Seventeen bootstrap addresses whose peers never answer: the last is never dialled. *)
Module ExampleStarved.

#[local] Instance crypto : Crypto := ExampleCrypto.crypto.
#[local] Instance libp2p : Libp2p := ExampleLibp2p.libp2p.

Definition first : list Multiaddr := map (λ n, [P2p (pretty (N.of_nat n) : PeerId)]) (seq 0 16).
Definition last : Multiaddr := [P2p (ExampleSwarm.K : PeerId)].
Definition t0 : transport := new_transport (first ++ [last]) "me".
Definition ticks : list task_label := repeat TRedial 1000.

Lemma t0_stuck : stuck first [last] t0.
Proof.
  split; [reflexivity| |reflexivity|by intros a []%not_elem_of_nil].
  intros x Hx. unfold first in Hx. apply list_elem_of_In, in_map_iff in Hx as (n & <- & _).
  eexists. split; [reflexivity|]. apply lookup_empty.
Qed.

Lemma ticks_unhelpful l : l ∈ ticks → unhelpful first l.
Proof. intros Hl. apply list_elem_of_In, repeat_spec in Hl as ->. done. Qed.

Lemma last_not_first : last ∉ first.
Proof.
  unfold first. intros Hin. apply list_elem_of_In, in_map_iff in Hin as (n & Hn & Hin).
  apply in_seq in Hin. unfold last in Hn. injection Hn as Hk.
  do 16 (destruct n as [|n]; [vm_compute in Hk; discriminate Hk|]). lia.
Qed.

End ExampleStarved.

Lemma redial_starves_the_rest_witness :
  ¬ redial_opts ExampleStarved.last
      ∈ dialed (run (H:=ExampleStarved.libp2p) (H0:=ExampleStarved.crypto)
          (map inr ExampleStarved.ticks) ExampleStarved.t0).
Proof.
  destruct (redial_starves_the_rest (H:=ExampleStarved.libp2p) (H0:=ExampleStarved.crypto)
    ExampleStarved.first [ExampleStarved.last] ExampleStarved.t0 ExampleStarved.ticks
    ExampleStarved.t0_stuck (le_n 16) ExampleStarved.ticks_unhelpful) as [_ Hrest].
  intros Hin. apply (not_elem_of_nil (redial_opts ExampleStarved.last)).
  exact (Hrest _ ExampleStarved.last eq_refl ExampleStarved.last_not_first Hin).
Defined.
