(* ===== verification/System.v ===== *)
(** * The daemon over the libp2p mesh

    The two developments meet: the daemon's gate, proved for every transport that keeps the
    [MeshTransportLaws], and the transport's admission on the wire. Who may speak and
    listen on a group's topic is who the roster and the device links allow. *)

From S2P Require Import Prelude RustStr Admission Membership Session Seed Device Registry.
From S2P Require Import EffectiveRoster Transport DeviceWire Daemon Ipc DaemonInv.
From S2P Require Import DaemonSafety Swarm SwarmLoop SwarmInv SwarmSafety.
Import ClusterMembership ClusterDaemon.
Local Open Scope N_scope.

(** ** An invariant of a transport is an invariant of every session's transport

    [P g t]: what holds of group [g]'s transport; [asked g cid]: what a client may share. *)

Section lift.
  Context {T : Type} `{!MeshTransport T, !Crypto, !StrDebug}.
  Context (P : string → T → Prop) (asked : string → string → Prop).
  Context (P_dial : ∀ g a t, P g t → P g (dial a t)).
  Context (P_disconnect : ∀ g a t, P g t → P g (disconnect a t)).
  Context (P_authorize : ∀ g a t, P g t → P g (authorize a t)).
  Context (P_publish : ∀ g a b t, asked g b → P g t → P g (publish a b t)).
  Context (P_drain : ∀ g t, P g t → P g (drain t).2).
  Context (P_add_peers : ∀ g l t, P g t → P g (add_peers l t).2).
  Implicit Types d : ClusterDaemon.t T.

Definition all_transports d : Prop :=
  (∀ g s, groups_f d !! g = Some s → P g (ClusterSession.transport s))
  ∧ ∀ g t, make_transport d g = Ok t → P g t.

Lemma all_put g s d :
  all_transports d → P g (ClusterSession.transport s) → all_transports (put_session g s d).
Proof.
  intros [Hg Hmk] Hs. split; [|done]. intros g' s'. simpl.
  destruct (decide (g = g')) as [<-|Hne]; [rewrite lookup_insert_eq; by intros [= <-]|].
  rewrite lookup_insert_ne by done. apply Hg.
Qed.

Lemma all_ensure g d r d' :
  all_transports d → ensure_session g d = (r, d') → all_transports d'.
Proof.
  intros Hd. destruct r as [s|e]; [|by intros ->%ensure_session_Err].
  intros [_ [->|(_ & _ & _ & t & Ht & -> & ->)]]%ensure_session_Ok; [done|].
  apply all_put; [done|]. exact (proj2 Hd _ _ Ht).
Qed.

Lemma all_sync g d : all_transports d → all_transports (sync_admission g d).
Proof.
  intros Hd. unfold sync_admission. destruct (groups_f d !! g) as [s|] eqn:E; [|done].
  apply all_put; [done|]. exact (proj1 Hd _ _ E).
Qed.

Lemma all_drain g d : all_transports d → all_transports (drain_into_shared g d).2.
Proof.
  intros Hd. unfold drain_into_shared. destruct (groups_f d !! g) as [s|] eqn:E; [|done].
  pose proof (P_drain _ _ (proj1 Hd _ _ E)) as Ht.
  destruct (drain _) as [ms tr].
  assert (all_transports (put_session g (ClusterSession.transport_mut (λ _, tr) s) d)) as Hd'
    by by apply all_put.
  case_match; [done|]. exact Hd'.
Qed.

Lemma P_fold g (f : string → T → T) l t :
  (∀ a t, P g t → P g (f a t)) → P g t → P g (fold_left (λ t a, f a t) l t).
Proof. intros Hf. revert t. induction l as [|a l IH]; intros t Ht; simpl; auto. Qed.

Lemma P_reconciled g roster s :
  P g (ClusterSession.transport s) → P g (ClusterSession.transport (reconciled roster s)).
Proof.
  intros Hs. unfold reconciled. cbn [ClusterSession.transport].
  apply P_fold; [auto|]. apply P_fold; [auto|]. rewrite reconcile_transport. apply P_fold; auto.
Qed.

Lemma all_set_roster g roster links revs d :
  all_transports d → all_transports (set_roster_with_devices g roster links revs d).2.
Proof.
  intros Hd. rewrite set_roster_run. destruct (ensure_group_allowed g d); [|done].
  destruct (ensure_session g d) as [[s|e] d'] eqn:E; pose proof (all_ensure _ _ _ _ Hd E) as Hd';
    [|done].
  apply ensure_session_Ok in E as [Hs _]. destruct (updated_state _ _ _ _ _). cbn [snd].
  apply all_put; [exact Hd'|]. apply P_reconciled. exact (proj1 Hd' _ _ Hs).
Qed.

(** A client may ask only for what [asked] covers. *)
Definition request_asked (req : Request) : Prop :=
  match req with ShareFile g cid => asked g cid | _ => True end.

Lemma all_request req d :
  request_asked req → all_transports d → all_transports (handle_request req d).2.
Proof.
  intros Hreq Hd. rewrite handle_request_state.
  destruct req as [g roster links revs|g|g|g|g|g|g cid|g|g o l|g|g text];
    auto using all_set_roster, all_sync, all_drain.
  - rewrite join_run. destruct (ensure_group_allowed g d); [|done].
    by destruct (ensure_session g d) as [[] ?] eqn:E; apply all_ensure in E.
  - split; [|apply Hd]. simpl. intros g' s. rewrite lookup_delete_Some. intros [_ Hs].
    exact (proj1 Hd _ _ Hs).
  - unfold share_file. destruct (groups_f d !! g) as [s|] eqn:E; [|done].
    destruct (negb (is_valid_cid cid)); [done|]. case_match; [exact Hd|]. cbn [snd].
    assert (all_transports (put_session g (ClusterSession.transport_mut
      (publish (self_address d) cid) s) d)) as Hp; [|exact Hp].
    apply all_put; [done|]. simpl. apply P_publish; [exact Hreq|]. exact (proj1 Hd _ _ E).
  - rewrite add_seed_run. destruct (map_err _ _) as [sd|]; [|done].
    destruct (negb _); [done|]. destruct (groups_f d !! g) as [s|] eqn:E; [|done].
    apply all_put; [done|]. simpl. apply P_add_peers. exact (proj1 Hd _ _ E).
Qed.

(** What the network and the factory must keep. *)
Definition event_keeps (e : event T) : Prop :=
  match e with
  | EvRequest req => request_asked req
  | EvNetwork g f => ∀ t, P g t → P g (f t)
  | EvFactory f => ∀ g t, f g = Ok t → P g t
  | _ => True
  end.

Lemma all_event e d : event_keeps e → all_transports d → all_transports (run_event e d).
Proof.
  intros He Hd. destruct e as [req|g a r|g a|g f|f]; cbn [run_event].
  - by apply all_request.
  - unfold admit_peer. destruct (ensure_group_allowed g d); [|done].
    destruct (ensure_session g d) as [[s|e] d'] eqn:E;
      pose proof (all_ensure _ _ _ _ Hd E) as Hd'; [|done].
    apply ensure_session_Ok in E as [Hs _]. unfold ClusterSession.join.
    destruct (ClusterMembership.join a r _) as [b m]. cbn [snd].
    apply all_put; [done|]. simpl. pose proof (proj1 Hd' _ _ Hs).
    destruct b; [|done]. destruct (canonical_address a); auto.
  - unfold drop_peer. destruct (groups_f d !! g) as [s|] eqn:E; [|done].
    apply all_put; [done|]. simpl. pose proof (proj1 Hd _ _ E).
    destruct (canonical_address a); auto.
  - split; [|apply Hd]. intros g' s. simpl. destruct (decide (g = g')) as [<-|Hne].
    + rewrite lookup_alter_eq. destruct (groups_f d !! g) as [s0|] eqn:E; [|done].
      intros [= <-]. simpl. apply He. exact (proj1 Hd _ _ E).
    + rewrite lookup_alter_ne by done. apply (proj1 Hd).
  - split; [apply Hd|exact He].
Qed.

Lemma all_events es d :
  Forall event_keeps es → all_transports d → all_transports (run_events es d).
Proof.
  unfold run_events. intros He. revert d. induction He as [|e es He Hes IH]; intros d Hd;
    [done|]. simpl. apply IH. by apply all_event.
Qed.
End lift.

(** ** The libp2p transport between two calls *)

Section libp2p.
  Context `{!Libp2p, !Libp2pLaws, !Crypto}.

(** The two threads' invariant, with no [disconnect] half done. *)
Definition settled (t : transport) : Prop := loop_inv t ∧ unsent t = None.

Lemma settled_step l t t' :
  settled t → surface_step l t = Some t' → unsent t' = None → settled t'.
Proof. intros [Hi _] Hs Hu. split; [by eapply inv_surface|done]. Qed.

Lemma settled_dial a t : settled t → settled (surface_dial a t).
Proof.
  intros Hs. apply (settled_step (SDial a) t); [done|..]; destruct Hs as [_ Hu].
  - unfold surface_step. by rewrite Hu.
  - unfold surface_dial. by case_match.
Qed.

Lemma settled_disconnect a t : settled t → settled (surface_disconnect a t).
Proof.
  intros [Hi Hu]. unfold surface_disconnect.
  assert (loop_inv (disconnect_lock a t)) as Hl
    by (apply (inv_surface (SDisconnectLock a) t); [done|unfold surface_step; by rewrite Hu]).
  unfold disconnect_send. destruct (unsent (disconnect_lock a t)) as [u|] eqn:E; [|done].
  split; [|done]. apply (inv_surface SDisconnectSend (disconnect_lock a t)); [done|].
  unfold surface_step, disconnect_send. by rewrite E.
Qed.

Lemma settled_publish b t : settled t → settled (surface_publish b t).
Proof.
  intros Hs. apply (settled_step (SPublish b) t); [done| |by destruct Hs].
  destruct Hs as [_ Hu]. unfold surface_step. by rewrite Hu.
Qed.

Lemma settled_drain t : settled t → settled (surface_drain t).2.
Proof.
  intros Hs. apply (settled_step SDrain t); [done| |by destruct Hs].
  destruct Hs as [_ Hu]. unfold surface_step. by rewrite Hu.
Qed.

Lemma settled_add_peers l t : settled t → settled (surface_add_peers l t).2.
Proof.
  intros Hs. unfold surface_add_peers. destruct (parse_peer_addrs l _) as [mas|]; [|done].
  cbn [snd]. revert t Hs. induction mas as [|m mas IH]; intros t Hs; simpl; [done|].
  apply IH. apply (settled_step (SDialMultiaddr m) t); [done| |by destruct Hs].
  destruct Hs as [_ Hu]. unfold surface_step. by rewrite Hu.
Qed.

Lemma settled_env (t t' : transport) : env t t' → settled t → settled t'.
Proof.
  intros [ls ->] [Hi Hu]. split; [by apply inv_run|].
  by rewrite (proj1 (proj2 (run_tasks_authorized ls t))).
Qed.

Lemma settled_new boot local : settled (new_transport boot local).
Proof. split; [apply inv_new|done]. Qed.

(** A factory of group transports, as [Libp2pFactory] is: what it gives is just built. *)
Definition builds_fresh (mk : string → result transport string) : Prop :=
  ∀ g t, mk g = Ok t → ∃ boot local, t = new_transport boot local.

Definition events_ok (es : list (event transport)) : Prop :=
  Forall (λ e, match e with
               | EvNetwork _ f => ∀ t, env t (f t)
               | EvFactory f => builds_fresh f
               | _ => True
               end) es.

Context `{!StrDebug}.

Lemma builds_fresh_authorized mk g t : builds_fresh mk → mk g = Ok t → authorized t = ∅.
Proof. intros Hmk Ht. by destruct (Hmk g t Ht) as (boot & local & ->). Qed.

Lemma events_ok_inv es :
  events_ok es →
  Forall event_ok es ∧ Forall (event_keeps (λ _, settled) (λ _ _, True)) es.
Proof.
  intros Hes. split; (eapply Forall_impl; [exact Hes|]); intros [req| | | |] He; simpl;
    try done.
  - intros g t. by apply builds_fresh_authorized.
  - by destruct req.
  - intros t. by apply settled_env.
  - intros g t Ht. destruct (He g t Ht) as (boot & local & ->). apply settled_new.
Qed.

Lemma system_all_settled address pinned mk es :
  builds_fresh mk → events_ok es →
  all_transports (λ _, settled) (run_events es (built address pinned mk)).
Proof.
  intros Hmk [_ Hf]%events_ok_inv. apply (all_events (λ _, settled) (λ _ _, True)); try done.
  - intros _. apply settled_dial.
  - intros _. apply settled_disconnect.
  - intros _. apply settled_dial.
  - intros _ a b t _. by apply settled_publish.
  - intros _. apply settled_drain.
  - intros _. apply settled_add_peers.
  - split.
    + intros g' s'. destruct pinned; simpl; by rewrite lookup_empty.
    + intros g' t Ht. assert (mk g' = Ok t) as Ht' by by destruct pinned.
      destruct (Hmk g' t Ht') as (boot & local & ->). apply settled_new.
Qed.

Lemma system_settled address pinned mk es g s :
  builds_fresh mk → events_ok es →
  groups_f (run_events es (built address pinned mk)) !! g = Some s →
  settled (ClusterSession.transport s).
Proof.
  intros Hmk Hes. exact (proj1 (system_all_settled address pinned mk es Hmk Hes) g s).
Qed.

(** What a session whose transport is settled lets in. *)
Definition lets_in (allowed : gset string) (t : transport) : Prop :=
  (∀ p, is_Some (conns t !! p) →
     gated t p
     ∨ ∃ a key, to_peer_id key = p ∧ address_from_public_key key = Some a
         ∧ (a ∈ allowed ∨ Disconnect a ∈ queue t))
  ∧ (queue t = [] → ∀ p, is_Some (conns t !! p) → ¬ gated t p →
       ∃ a key, to_peer_id key = p ∧ address_from_public_key key = Some a ∧ a ∈ allowed)
  ∧ ∀ m, m ∈ inbox_s (shared t) → is_valid_cid (MeshMessage.data m) = true.

Lemma settled_lets_in allowed t :
  settled t → (∀ a, a ∈ authorized_s (shared t) → a ∈ allowed) → lets_in allowed t.
Proof.
  intros [Hi Hu] Hau.
  assert (∀ p, is_Some (conns t !! p) → gated t p ∨ ∃ a key, to_peer_id key = p
    ∧ address_from_public_key key = Some a ∧ (a ∈ allowed ∨ Disconnect a ∈ queue t)) as Hgate.
  { intros p Hp. destruct (li_gate _ Hi p Hp) as [?|(a & Ha & Hok)]; [by left|right].
    apply (li_dom _ Hi) in Ha as (_ & key & ? & ?). exists a, key. split_and!; [done..|].
    destruct Hok as [Hok|[Hok|Hok]]; [left; by apply Hau|by right|congruence]. }
  split_and!; [exact Hgate| |].
  - intros Hq p Hp Hn. destruct (Hgate p Hp) as [?|(a & key & ? & ? & [?|Hin])]; [done|eauto|].
    rewrite Hq in Hin. set_solver.
  - intros m Hm. apply (li_cids _ Hi). by left.
Qed.

Lemma system_lets_in address pinned mk es g s :
  builds_fresh mk → events_ok es →
  let d := run_events es (built address pinned mk) in
  let allowed := allowed_f (ClusterSession.membership s) in
  groups_f d !! g = Some s →
  lets_in allowed (ClusterSession.transport s)
  ∧ (allowed = ∅ ∨ ∃ st, device_state d !! g = Some st
     ∧ allowed = allowed_set (effective_roster (GroupDevices.roster st)
                                (GroupDevices.registry st))).
Proof.
  intros Hmk Hes d allowed Hs.
  pose proof (system_settled address pinned mk es g s Hmk Hes Hs) as Ht.
  pose proof (events_ok_inv es Hes) as [He _].
  assert (∀ g t, mk g = Ok t → authorized t = ∅) as Hfresh
    by (intros; by eapply builds_fresh_authorized).
  pose proof (inv_reachable address pinned mk es Hfresh He) as Hd.
  apply (inv_session _ Hd) in Hs as (Hau & _ & Hal). split.
  - apply settled_lets_in; [done|]. intros a. apply Hau.
  - destruct Hal as [?|(gd & ? & ?)]; [by left|right; by exists gd].
Qed.

(** A group's roster is the one of a [SetRoster] among the events. *)
Lemma roster_requested address pinned mk es g gd :
  device_state (run_events es (built address pinned mk)) !! g = Some gd →
  ∃ links revs, EvRequest (SetRoster g (GroupDevices.roster gd) links revs) ∈ es.
Proof.
  induction es as [|e es IH] using rev_ind.
  { destruct pinned; simpl; by rewrite lookup_empty. }
  unfold run_events. rewrite fold_left_app. simpl. fold (run_events es (built address pinned mk)).
  set (d := run_events es _) in *. intros Hgd.
  assert (device_state d !! g = Some gd → ∃ links revs,
    EvRequest (SetRoster g (GroupDevices.roster gd) links revs) ∈ es ++ [e]) as Hold.
  { intros (links & revs & Hin)%IH. exists links, revs. set_solver. }
  destruct (event_devices e d) as [(g0 & roster & links & revs & ->)|Heq];
    [|rewrite Heq in Hgd; auto].
  cbn [run_event] in Hgd. rewrite handle_request_state in Hgd.
  destruct (set_roster_devices g0 roster links revs d g) as [Heq|[-> Heq]];
    rewrite Heq in Hgd; [auto|]. injection Hgd as <-. exists links, revs.
  unfold updated_state. cbn [snd GroupDevices.roster]. set_solver.
Qed.
End libp2p.

(** ** Theorems *)

(** C2: The mesh carries only the roster: a daemon over the libp2p transport, after any
    requests, connection events and network activity. In every group, a peer with an open
    connection is shut out of the topic, or has proved the key of an address that the
    group's role-gated effective roster allows, or whose eviction is queued; so once the
    queued commands are taken, whoever is let in is allowed. Every message waiting for the
    daemon is a well-formed CID. *)
Theorem mesh_carries_only_the_roster `{!Libp2p, !Libp2pLaws, !Crypto, !StrDebug}
    (address : string) (pinned : option string) (mk : string → result transport string)
    (es : list (event transport)) (g : string) (s : ClusterSession.t transport) :
  builds_fresh mk → events_ok es →
  let d := run_events es (built address pinned mk) in
  groups_f d !! g = Some s →
  let t := ClusterSession.transport s in
  let allowed := allowed_f (ClusterSession.membership s) in
  (allowed = ∅ ∨ ∃ st, device_state d !! g = Some st
     ∧ allowed = allowed_set (effective_roster (GroupDevices.roster st)
                                (GroupDevices.registry st)))
  ∧ (∀ p, is_Some (conns t !! p) →
       gated t p
       ∨ ∃ a key, to_peer_id key = p ∧ address_from_public_key key = Some a
           ∧ (a ∈ allowed ∨ Disconnect a ∈ queue t))
  ∧ (queue t = [] → ∀ p, is_Some (conns t !! p) → ¬ gated t p →
       ∃ a key, to_peer_id key = p ∧ address_from_public_key key = Some a ∧ a ∈ allowed)
  ∧ ∀ m, m ∈ inbox_s (shared t) → is_valid_cid (MeshMessage.data m) = true.
Proof.
  intros Hmk Hes d Hs. cbv zeta.
  destruct (system_lets_in address pinned mk es g s Hmk Hes Hs) as [Hin Hal].
  split; [exact Hal|exact Hin].
Qed.

(** A group whose one member connects and identifies. *)
Module ExampleSystem.

#[local] Instance crypto : Crypto := ExampleCrypto.crypto.
#[local] Instance libp2p : Libp2p := ExampleLibp2p.libp2p.
#[local] Instance debug : StrDebug := ExampleDaemon.debug.

Definition mk (_ : string) : result transport string :=
  Ok (new_transport [] "me").

Definition network : list task_label :=
  [TEstablished ExampleSwarm.K 0; TIdentify ExampleSwarm.K ExampleSwarm.K; TMid].

Definition events : list (event transport) :=
  [EvRequest (SetRoster "g" [(ExampleSwarm.A, "member")] [] []);
   EvNetwork "g" (run (map inr network))].

Lemma mk_builds_fresh : builds_fresh mk.
Proof. intros g t [= <-]. by exists [], "me". Qed.

Lemma events_are_ok : events_ok events.
Proof. repeat constructor. intros t. by exists network. Qed.

Definition d : ClusterDaemon.t transport :=
  run_events events (built ExampleDaemon.self None mk).

Definition s : ClusterSession.t transport :=
  default (ClusterSession.new [] (new_transport [] "me")) (groups_f d !! "g").

Lemma quiet : queue (ClusterSession.transport s) = [].
Proof. vm_compute. reflexivity. Qed.

Lemma s_eq : groups_f d !! "g" = Some s.
Proof.
  apply some_default, (bool_decide_eq_true_1 _). vm_compute. reflexivity.
Qed.

End ExampleSystem.

Lemma mesh_carries_only_the_roster_witness :
  ∃ a (key : PublicKey (Libp2p:=ExampleLibp2p.libp2p)),
    to_peer_id key = ExampleSwarm.peer ∧ a ∈ allowed_f (ClusterSession.membership ExampleSystem.s).
Proof.
  destruct (mesh_carries_only_the_roster (H:=ExampleLibp2p.libp2p) (H0:=ExampleSwarm.laws)
    (H1:=ExampleCrypto.crypto) (H2:=ExampleDaemon.debug) ExampleDaemon.self None
    ExampleSystem.mk ExampleSystem.events "g" ExampleSystem.s
    ExampleSystem.mk_builds_fresh ExampleSystem.events_are_ok ExampleSystem.s_eq)
    as (_ & _ & Hin & _).
  edestruct (Hin ExampleSystem.quiet ExampleSwarm.peer) as (a & key & Hk & _ & Ha).
  - apply (bool_decide_eq_true_1 _). vm_compute. reflexivity.
  - intros [Hb _]. apply (bool_decide_eq_true_2 _) in Hb. vm_compute in Hb. discriminate Hb.
  - exists a, key. exact (conj Hk Ha).
Defined.
