(* ===== verification/WireRefine.v ===== *)
(** * The group's mesh against its TLA+ specification (formal/ClusterWireAdmission.tla)

    The abstract machine of the repository's wire-admission model, and the daemon over the
    libp2p transport as a refinement of it: an accepted [SetRoster] is the machine's, in one
    step, and everything else only connects and drops peers. *)

From S2P Require Import Prelude RustStr Admission Membership Session Device Registry.
From S2P Require Import EffectiveRoster Transport DeviceWire Daemon Ipc DaemonInv.
From S2P Require Import DaemonSafety Swarm SwarmLoop SwarmInv SwarmSafety System.
Import ClusterMembership ClusterDaemon.
Local Open Scope N_scope.

(** ** The specification *)

Module ClusterWireAdmission.

(** [allowed], [authorized] and [wire] of the module, with [RevokeDeauthorizes]. *)
Definition state : Type := gset string * gset string * gset string.

Definition init : state := (∅, ∅, ∅).

Definition set_roster (na : gset string) (st : state) : state := (na, na, st.2 ∩ na).

(** A peer connects or a connection drops. *)
Inductive move : state → state → Prop :=
| Connect p al au w : p ∈ au → move (al, au, w) (al, au, {[p]} ∪ w)
| Drop p al au w : p ∈ w → move (al, au, w) (al, au, w ∖ {[p]}).

Inductive step : state → state → Prop :=
| SetRosterStep na st : step st (set_roster na st)
| MoveStep st st' : move st st' → step st st'.

(** [AuthorizedIsAllowed] and [WireSubsetAllowed]. *)
Definition safe (st : state) : Prop := st.1.2 = st.1.1 ∧ st.2 ⊆ st.1.1.

Lemma step_safe st st' : safe st → step st st' → safe st'.
Proof.
  intros Hsafe Hs. revert Hsafe.
  destruct Hs as [na [[al au] w]|? ? [p al au w Hp|p al au w Hp]]; intros [Ha Hw];
    unfold safe, set_roster in *; simpl in *; subst; split; done || set_solver.
Qed.

Lemma reachable_safe st : rtc step init st → safe st.
Proof.
  assert (safe init) as Hinit by done. revert Hinit. generalize init.
  induction 2 as [|st1 st2 st3 Hs _ IH]; [done|]. apply IH. by eapply step_safe.
Qed.

Lemma drop_all al au w : rtc move (al, au, w) (al, au, ∅).
Proof.
  induction w as [|p w Hp IH] using set_ind_L; [done|].
  eapply rtc_l; [apply (Drop p); set_solver|].
  by replace (({[p]} ∪ w) ∖ {[p]}) with w by set_solver.
Qed.

Lemma connect_all al au w : w ⊆ au → rtc move (al, au, ∅) (al, au, w).
Proof.
  induction w as [|p w Hp IH] using set_ind_L; intros Hsub; [done|].
  eapply rtc_r; [apply IH; set_solver|]. apply Connect. set_solver.
Qed.

Lemma moves al au w w' : w' ⊆ au → rtc move (al, au, w) (al, au, w').
Proof. intros Hw. etrans; [apply drop_all|by apply connect_all]. Qed.

Lemma moves_steps st st' : rtc move st st' → rtc step st st'.
Proof. induction 1; [done|]. eapply rtc_l; [by apply MoveStep|done]. Qed.

End ClusterWireAdmission.

(** ** Who is on the wire *)

Section wire.
  Context `{!Libp2p, !Libp2pLaws, !Crypto}.
  Implicit Types (t : transport) (a : string).

(** An eviction under way. *)
Definition is_evicting t a : bool :=
  existsb (λ c, match c with Disconnect b => bool_decide (b = a) | _ => false end) (queue t)
  || bool_decide (unsent t = Some a).

Definition is_gated t (p : PeerId) : bool :=
  bool_decide (p ∈ blacklist t) && bool_decide (score t !! p = Some UNADMITTED_APP_SCORE).

(** The addresses of the identified peers that gossip: not gated, not being evicted. *)
Definition wire t : gset string :=
  list_to_set (List.filter (λ a, negb (is_evicting t a))
    (map snd (List.filter (λ e, negb (is_gated t e.1)) (map_to_list (peer_addr t))))).

Lemma is_evicting_spec t a : is_evicting t a = true ↔ evicting t a.
Proof.
  unfold is_evicting, evicting. rewrite orb_true_iff, bool_decide_eq_true, existsb_exists.
  split; (intros [Hc|Hc]; [left|by right]).
  - destruct Hc as (c & Hc & Hb). destruct c; try done. apply bool_decide_eq_true in Hb as ->.
    by apply list_elem_of_In.
  - exists (Disconnect a). split; [by apply list_elem_of_In|by apply bool_decide_eq_true].
Qed.

Lemma is_gated_spec t p : is_gated t p = true ↔ gated t p.
Proof. unfold is_gated, gated. by rewrite andb_true_iff, !bool_decide_eq_true. Qed.

Lemma elem_of_wire t a :
  a ∈ wire t ↔ (∃ p, peer_addr t !! p = Some a ∧ ¬ gated t p) ∧ ¬ evicting t a.
Proof.
  unfold wire. rewrite elem_of_list_to_set, list_elem_of_In, filter_In, in_map_iff.
  rewrite negb_true_iff, <-not_true_iff_false, is_evicting_spec.
  split; intros [Hp He]; (split; [|done]).
  - destruct Hp as ([p b] & <- & [Hin Hg]%filter_In). exists p. simpl in *.
    apply list_elem_of_In, elem_of_map_to_list in Hin. split; [done|].
    by rewrite negb_true_iff, <-not_true_iff_false, is_gated_spec in Hg.
  - destruct Hp as (p & Hp & Hg). exists (p, a). split; [done|]. apply filter_In.
    split; [by apply list_elem_of_In, elem_of_map_to_list|].
    by rewrite negb_true_iff, <-not_true_iff_false, is_gated_spec.
Qed.

Lemma settled_wire t : settled t → wire t ⊆ authorized_s (shared t).
Proof.
  intros [Hi _] a [(p & Hp & Hg) He]%elem_of_wire.
  destruct (li_gate _ Hi p (proj1 (li_dom _ Hi _ _ Hp))) as [?|(b & Hb & [?|?])]; [done|..];
    rewrite Hp in Hb; injection Hb as <-; done.
Qed.

(** Calls of the sync surface: [dial] changes nobody's connection, [disconnect] takes its
    address off the wire at once. *)
Lemma wire_dial a t : wire (surface_dial a t) = wire t.
Proof. unfold surface_dial. by destruct (canonical_address a). Qed.

Lemma wire_disconnect a t :
  is_canonical a = true → unsent t = None →
  wire (surface_disconnect a t) = wire t ∖ {[a]} ∧ unsent (surface_disconnect a t) = None.
Proof.
  intros Ha Hu. unfold surface_disconnect, disconnect_lock.
  rewrite canonical_address_id by done. split; [|done]. apply set_eq. intros b.
  rewrite elem_of_difference, !elem_of_wire, elem_of_singleton. unfold evicting, gated. simpl.
  rewrite Hu. set_unfold. naive_solver.
Qed.

Lemma wire_disconnect_all l t :
  (∀ a, a ∈ l → is_canonical a = true) → unsent t = None →
  wire (fold_left (λ t a, disconnect a t) l t) = wire t ∖ list_to_set l
  ∧ unsent (fold_left (λ t a, disconnect a t) l t) = None.
Proof.
  revert t. induction l as [|a l IH]; intros t Hl Hu; [split; [set_solver|done]|].
  destruct (wire_disconnect a t) as [Hw Hu']; [by apply Hl; left|done|].
  destruct (IH (surface_disconnect a t)) as [Hw2 Hu2]; [set_solver|done|].
  split; [|exact Hu2]. etrans; [exact Hw2|]. rewrite Hw. simpl. set_solver.
Qed.

Lemma wire_authorize_all l t : wire (fold_left (λ t a, authorize a t) l t) = wire t.
Proof.
  revert t. induction l as [|a l IH]; intros t; [done|].
  etrans; [apply (IH (surface_dial a t))|apply wire_dial].
Qed.

(** ** The daemon refines the specification *)

Definition abs (s : ClusterSession.t transport) : ClusterWireAdmission.state :=
  (allowed_f (ClusterSession.membership s),
   authorized_s (shared (ClusterSession.transport s)), wire (ClusterSession.transport s)).

(** The reconciliation of a [SetRoster] is the specification's, in one step. *)
Lemma reconciled_refines st roster s :
  session_inv st s → settled (ClusterSession.transport s) →
  authorized_s (shared (ClusterSession.transport s))
    = allowed_f (ClusterSession.membership s) →
  abs (reconciled roster s) = ClusterWireAdmission.set_roster (allowed_set roster) (abs s).
Proof.
  intros Hs Ht Hin. unfold abs, ClusterWireAdmission.set_roster. cbn [fst snd].
  assert (authorized_s (shared (ClusterSession.transport (reconciled roster s)))
    = allowed_set roster) as -> by exact (reconciled_authorized_eq st roster s Hs).
  rewrite reconciled_allowed. f_equal. unfold reconciled. cbn [ClusterSession.transport].
  rewrite reconcile_transport, wire_authorize_all, reconcile_membership, reconcile_allowed.
  pose proof (settled_wire _ Ht) as Hw. rewrite Hin in Hw.
  assert (∀ a, a ∈ allowed_f (ClusterSession.membership s) → is_canonical a = true) as Hcan
    by (intros a; by eapply session_allowed_canonical).
  destruct (wire_disconnect_all
    (ClusterMembership.reconcile roster (ClusterSession.membership s)).1
    (ClusterSession.transport s)) as [Hw1 Hu1]; [|by destruct Ht|].
  { intros a [Ha _]%elem_of_evicted. apply Hcan. by apply Hs. }
  destruct (wire_disconnect_all
    (List.filter (λ a, negb (bool_decide (a ∈ allowed_set roster)))
      (set_iter (allowed_f (ClusterSession.membership s))))
    (fold_left (λ tr e, disconnect e tr)
      (ClusterMembership.reconcile roster (ClusterSession.membership s)).1
      (ClusterSession.transport s))) as [Hw2 _]; [|done|].
  { intros a [Ha _]%list_elem_of_In%filter_In. apply list_elem_of_In, elem_of_set_iter in Ha.
    by apply Hcan. }
  etrans; [exact Hw2|]. rewrite Hw1. apply set_eq. intros a.
  rewrite elem_of_intersection, !elem_of_difference, !elem_of_list_to_set, elem_of_evicted.
  rewrite elem_of_filter_list, elem_of_set_iter, negb_true_iff, bool_decide_eq_false.
  pose proof (proj1 (proj2 Hs) a). specialize (Hw a).
  destruct (decide (a ∈ allowed_set roster)); naive_solver.
Qed.

Context `{!StrDebug}.
Implicit Types (d : ClusterDaemon.t transport).

(** The group's state in the specification: initial where there is no session. *)
Definition abs_at g d : ClusterWireAdmission.state :=
  from_option abs ClusterWireAdmission.init (groups_f d !! g).

Lemma abs_at_synced g d :
  synced d → abs_at g d = (allowed_at g d, allowed_at g d, (abs_at g d).2).
Proof.
  intros Hd. unfold abs_at, allowed_at. destruct (groups_f d !! g) as [s|] eqn:E; [|done].
  simpl. unfold abs at 1. f_equal. f_equal. exact (Hd _ _ E).
Qed.

Lemma abs_fresh t : settled t → authorized_s (shared t) = ∅ →
  abs (ClusterSession.new [] t) = ClusterWireAdmission.init.
Proof.
  intros Ht Hau. pose proof (settled_wire _ Ht) as Hw. unfold abs, ClusterWireAdmission.init.
  simpl. rewrite Hau in *. f_equal. set_solver.
Qed.

(** What holds of the daemon between two events. *)
Definition ready d : Prop := daemon_inv d ∧ synced d ∧ all_transports (λ _, settled) d.

Lemma set_roster_refines g roster links revs d s' :
  ready d → groups_f (set_roster_with_devices g roster links revs d).2 !! g = Some s' →
  abs s' = abs_at g d
  ∨ ∃ gd, device_state (set_roster_with_devices g roster links revs d).2 !! g = Some gd
      ∧ GroupDevices.roster gd = roster
      ∧ abs s' = ClusterWireAdmission.set_roster
          (allowed_set (effective_roster roster (GroupDevices.registry gd))) (abs_at g d).
Proof.
  intros (Hi & Hd & Ht). rewrite set_roster_run.
  destruct (ensure_group_allowed g d) as [[]|] eqn:Eg;
    [|simpl; intros Hs; left; unfold abs_at; by rewrite Hs].
  destruct (ensure_session g d) as [[s|e] d'] eqn:E; cycle 1.
  { apply ensure_session_Err in E as ->. simpl. intros Hs. left. unfold abs_at. by rewrite Hs. }
  pose proof (inv_ensure _ _ _ _ Hi Eg E) as Hi'. pose proof (synced_ensure _ _ _ _ Hi Hd E) as Hd'.
  pose proof (all_ensure (λ _, settled) _ _ _ _ Ht E) as Ht'.
  apply ensure_session_Ok in E as [Hs Hcase].
  destruct (updated_state g roster links revs d') as [rj gd] eqn:Eu. simpl.
  rewrite !lookup_insert_eq. intros [= <-]. right. exists gd. split; [done|].
  split; [unfold updated_state in Eu; by injection Eu as _ <-|].
  rewrite (reconciled_refines (device_state d' !! g)); [|by apply (inv_session _ Hi')
    |by apply (proj1 Ht' g)|by apply (Hd' g)]. f_equal.
  unfold abs_at. destruct Hcase as [->|(Hn & _ & _ & t & Hmk & -> & _)]; [by rewrite Hs|].
  rewrite Hn. simpl. apply abs_fresh; [by apply (proj2 Ht g)|].
  by apply (inv_factory _ Hi g).
Qed.

(** What one event may do to a group. *)
Definition refines_step e g d s' : Prop :=
  (∃ roster links revs gd, e = EvRequest (SetRoster g roster links revs)
     ∧ device_state (run_event e d) !! g = Some gd ∧ GroupDevices.roster gd = roster
     ∧ abs s' = ClusterWireAdmission.set_roster
         (allowed_set (effective_roster roster (GroupDevices.registry gd))) (abs_at g d))
  ∨ rtc ClusterWireAdmission.move (abs_at g d) (abs s').

Lemma event_refines e g d s' :
  ready d → ready (run_event e d) → no_hook e → groups_f (run_event e d) !! g = Some s' →
  refines_step e g d s'.
Proof.
  intros Hd (_ & Hsy & Ht) Hn Hs.
  assert (abs s' = (allowed_f (ClusterSession.membership s'),
    allowed_f (ClusterSession.membership s'), wire (ClusterSession.transport s'))) as Habs
    by (unfold abs; f_equal; f_equal; exact (Hsy _ _ Hs)).
  assert (wire (ClusterSession.transport s') ⊆ allowed_f (ClusterSession.membership s')) as Hw.
  { etrans; [apply settled_wire; by apply (proj1 Ht g)|].
    pose proof (Hsy _ _ Hs) as Hin. by rewrite <-Hin. }
  assert ((∃ roster links revs, e = EvRequest (SetRoster g roster links revs))
    ∨ ∀ roster links revs, e ≠ EvRequest (SetRoster g roster links revs)) as [Hset|Hno].
  { destruct e as [[]| | | |]; try (right; intros; done).
    destruct (decide (group = g)) as [->|Hne]; [left; eauto|right; congruence]. }
  - destruct Hset as (roster & links & revs & ->). cbn [run_event] in *.
    rewrite handle_request_state in *.
    destruct (set_roster_refines _ _ _ _ _ _ Hd Hs) as [Heq|(gd & ? & ? & ?)];
      [right; by rewrite Heq|left]. exists roster, links, revs, gd.
    cbn [run_event]. by rewrite handle_request_state.
  - right. rewrite Habs, (abs_at_synced g d) by apply Hd.
    rewrite (event_allowed e g d s') in * by done. by apply ClusterWireAdmission.moves.
Qed.

Lemma ready_events address pinned mk es :
  builds_fresh mk → events_ok es → Forall no_hook es →
  ready (run_events es (built address pinned mk)).
Proof.
  intros Hmk Hes Hn. pose proof (events_ok_inv es Hes) as [He Hf].
  assert (∀ g t, mk g = Ok t → authorized t = ∅) as Hfresh
    by (intros; by eapply builds_fresh_authorized).
  split_and!; [by apply inv_reachable|..].
  - apply synced_events; [done..|by apply inv_built|].
    intros g' s'. destruct pinned; simpl; by rewrite lookup_empty.
  - by apply system_all_settled.
Qed.

Lemma refines_step_steps e g d s' :
  refines_step e g d s' → rtc ClusterWireAdmission.step (abs_at g d) (abs s').
Proof.
  intros [(roster & links & revs & gd & _ & _ & _ & ->)|Hm].
  - apply rtc_once. apply ClusterWireAdmission.SetRosterStep.
  - by apply ClusterWireAdmission.moves_steps.
Qed.

Lemma system_refines_step address pinned mk es e g s' :
  builds_fresh mk → events_ok (es ++ [e]) → Forall no_hook (es ++ [e]) →
  groups_f (run_event e (run_events es (built address pinned mk))) !! g = Some s' →
  refines_step e g (run_events es (built address pinned mk)) s'.
Proof.
  intros Hmk Hes Hn. pose proof (ready_events address pinned mk (es ++ [e]) Hmk Hes Hn) as Hr.
  unfold run_events in Hr. rewrite fold_left_app in Hr.
  apply Forall_app in Hes as [Hes _], Hn as [Hn Hn1]. apply Forall_cons in Hn1 as [Hn1 _].
  apply event_refines; [by apply ready_events|exact Hr|done].
Qed.

Lemma system_reaches address pinned mk es g :
  builds_fresh mk → events_ok es → Forall no_hook es →
  rtc ClusterWireAdmission.step ClusterWireAdmission.init
    (abs_at g (run_events es (built address pinned mk))).
Proof.
  intros Hmk. induction es as [|e es IH] using rev_ind; intros Hes Hn.
  - unfold abs_at. by destruct pinned; simpl; rewrite lookup_empty.
  - unfold run_events, abs_at. rewrite fold_left_app. simpl.
    fold (run_events es (built address pinned mk)).
    destruct (groups_f (run_event e _) !! g) as [s'|] eqn:Hs; [|done]. simpl.
    pose proof (system_refines_step address pinned mk es e g s' Hmk Hes Hn Hs) as Hst.
    apply Forall_app in Hes as [Hes _], Hn as [Hn _].
    etrans; [by apply IH|by eapply refines_step_steps].
Qed.

(** C21: The daemon over libp2p refines [formal/ClusterWireAdmission.tla]: after any requests and
    network activity, and for any further event, what the event does to a group's mesh (whom
    the group allows, whom the transport authorises, whose gossip it takes) is either the one
    [SetRoster] step of the specification, for a request that sets this group's roster and
    with the effective roster as its argument, or only connects authorised peers and drops
    others. So every state of the mesh is one the specification reaches. *)
Theorem mesh_refines_wire_admission address pinned mk es e g s' :
  builds_fresh mk → events_ok (es ++ [e]) → Forall no_hook (es ++ [e]) →
  let d := run_events es (built address pinned mk) in
  groups_f (run_event e d) !! g = Some s' →
  ((∃ roster links revs gd, e = EvRequest (SetRoster g roster links revs)
      ∧ device_state (run_event e d) !! g = Some gd ∧ GroupDevices.roster gd = roster
      ∧ abs s' = ClusterWireAdmission.set_roster
          (allowed_set (effective_roster roster (GroupDevices.registry gd))) (abs_at g d))
   ∨ rtc ClusterWireAdmission.move (abs_at g d) (abs s'))
  ∧ rtc ClusterWireAdmission.step ClusterWireAdmission.init (abs s')
  ∧ ClusterWireAdmission.safe (abs s').
Proof.
  intros Hmk Hes Hn d Hs.
  pose proof (system_refines_step address pinned mk es e g s' Hmk Hes Hn Hs) as Hstep.
  pose proof Hes as [Hes' _]%Forall_app. pose proof Hn as [Hn' _]%Forall_app.
  assert (rtc ClusterWireAdmission.step ClusterWireAdmission.init (abs s')) as Hreach.
  { etrans; [by apply system_reaches|by eapply refines_step_steps]. }
  split; [exact Hstep|]. split; [exact Hreach|]. by apply ClusterWireAdmission.reachable_safe.
Qed.

End wire.

(** The example system's peer ends up on the wire, and stays within the specification. *)
Lemma example_wire :
  wire (H:=ExampleLibp2p.libp2p) (ClusterSession.transport ExampleSystem.s) = {[ExampleSwarm.A]}.
Proof. apply (bool_decide_eq_true_1 _). vm_compute. reflexivity. Qed.

Lemma mesh_refines_wire_admission_witness :
  rtc ClusterWireAdmission.step ClusterWireAdmission.init
    (abs (H:=ExampleLibp2p.libp2p) ExampleSystem.s)
  ∧ ClusterWireAdmission.safe (abs (H:=ExampleLibp2p.libp2p) ExampleSystem.s).
Proof.
  refine (proj2 (mesh_refines_wire_admission (H:=ExampleLibp2p.libp2p) (H0:=ExampleSwarm.laws)
    (H1:=ExampleCrypto.crypto) (H2:=ExampleDaemon.debug) ExampleDaemon.self None
    ExampleSystem.mk [EvRequest (SetRoster "g" [(ExampleSwarm.A, "member")] [] [])]
    (EvNetwork "g" (run (map inr ExampleSystem.network))) "g" ExampleSystem.s
    ExampleSystem.mk_builds_fresh ExampleSystem.events_are_ok _ ExampleSystem.s_eq)).
  repeat constructor.
Defined.
