(* ===== verification/Fleet.v ===== *)
(** * A fleet of nodes

    The processes of several machines, joined by the network: each node is a daemon over the
    libp2p transport (lib.rs, libp2p_transport.rs) with its own device key, clients make
    requests of it, and its swarm tasks step. The network may do anything to a node except
    forge: gossipsub runs signed and strict, so a message whose source is a node of the fleet
    is one that node published on that group's topic. Whatever is not a node of the fleet may
    connect, identify and publish as it likes. *)

From S2P Require Import Prelude RustStr Admission Membership Session Seed Device Registry.
From S2P Require Import EffectiveRoster Transport DeviceWire Daemon Ipc DaemonInv.
From S2P Require Import DaemonSafety DaemonFunctional Swarm SwarmLoop SwarmInv SwarmSafety.
From S2P Require Import System WireRefine.
Import ClusterMembership ClusterDaemon.
Local Open Scope N_scope.

(** ** Nodes, packets and the fleet's state *)

Module Packet.

(** A signed gossipsub message: who published it, on which group's topic, and its bytes. *)
Record t (Peer : Type) := mk {
  source : Peer;
  group : string;
  body : string;
}.
Global Arguments mk {Peer}.
Global Arguments source {Peer}.
Global Arguments group {Peer}.
Global Arguments body {Peer}.

#[global] Instance packet_eq {Peer} `{!EqDecision Peer} : EqDecision (t Peer).
Proof. solve_decision. Defined.

End Packet.

Section fleet.
  Context `{!Libp2p, !Crypto, !StrDebug}.
  Implicit Types (d : ClusterDaemon.t transport) (g : string).

(** What a node is started with. *)
Record NodeConfig := mkNode {
  node_key : PublicKey;
  node_pin : option string;
  node_factory : string → result transport string;
}.

Definition node_peer (c : NodeConfig) : PeerId := to_peer_id (node_key c).
Definition node_address (c : NodeConfig) : string :=
  default "" (address_from_public_key (node_key c)).
Definition node_daemon (c : NodeConfig) : ClusterDaemon.t transport :=
  built (node_address c) (node_pin c) (node_factory c).

(** Every node's daemon, and every message published so far. *)
Record Fleet := mkFleet {
  daemons : list (ClusterDaemon.t transport);
  sent : list (Packet.t PeerId);
}.

Inductive fleet_label :=
| FRequest (i : nat) (req : Request)
| FTask (i : nat) (g : string) (l : task_label)
| FFactory (i : nat) (make : string → result transport string).

(** What the label is to the node it is about. *)
Definition label_event (l : fleet_label) : nat * event transport :=
  match l with
  | FRequest i req => (i, EvRequest req)
  | FTask i g l => (i, EvNetwork g (run [inr l]))
  | FFactory i make => (i, EvFactory make)
  end.

(** A factory builds new transports, now and after a change. *)
Definition label_ok (l : fleet_label) : Prop :=
  match l with FFactory _ make => builds_fresh make | _ => True end.

Context (cfg : list NodeConfig).

Definition fleet_start : Fleet := mkFleet (map node_daemon cfg) [].

Definition is_node (p : PeerId) : bool := existsb (λ c, bool_decide (node_peer c = p)) cfg.

(** Whether the network may deliver this to a node of group [g]. It allows more than gossipsub
    does (any published message, at any later time, again and again), so that what is proved of
    every run covers gossipsub's; nothing is proved from a message being deliverable. *)
Definition deliverable (F : Fleet) (g : string) (l : task_label) : bool :=
  match l with
  | TMessage _ (Some src) data =>
      negb (is_node src) || bool_decide (Packet.mk src g data ∈ sent F)
  | _ => true
  end.

(** What a step of a swarm task has published. *)
Definition published_since (t t' : transport) : list string :=
  drop (length (published t)) (published t').

Definition packets (c : NodeConfig) (g : string) (bodies : list string)
    : list (Packet.t PeerId) :=
  map (Packet.mk (node_peer c) g) bodies.

(** A step is refused when its node does not exist, or when the swarm task of that group does
    not run, is not ready for it, or could not be delivered it. *)
Definition fleet_step (l : fleet_label) (F : Fleet) : option Fleet :=
  let '(i, e) := label_event l in
  c ← cfg !! i;
  d ← daemons F !! i;
  let F' := <[i := run_event e d]> (daemons F) in
  match l with
  | FTask _ g l =>
      s ← groups_f d !! g;
      if deliverable F g l then
        t' ← task_step l (ClusterSession.transport s);
        Some (mkFleet F' (sent F
          ++ packets c g (published_since (ClusterSession.transport s) t')))
      else None
  | _ => Some (mkFleet F' (sent F))
  end.

Definition fleet_continue (ls : list fleet_label) (F : Fleet) : option Fleet :=
  fold_left (λ o l, o ≫= fleet_step l) ls (Some F).

Definition fleet_run (ls : list fleet_label) : option Fleet := fleet_continue ls fleet_start.

(** ** A node's own history *)

Definition node_events (i : nat) (ls : list fleet_label) : list (event transport) :=
  map snd (List.filter (λ e, (e.1 =? i)%nat) (map label_event ls)).

Lemma fleet_continue_snoc ls l F0 F :
  fleet_continue (ls ++ [l]) F0 = Some F
  ↔ ∃ F1, fleet_continue ls F0 = Some F1 ∧ fleet_step l F1 = Some F.
Proof.
  unfold fleet_continue. rewrite fold_left_app. cbn [fold_left]. rewrite bind_Some. done.
Qed.

Lemma fleet_run_snoc ls l F :
  fleet_run (ls ++ [l]) = Some F ↔ ∃ F0, fleet_run ls = Some F0 ∧ fleet_step l F0 = Some F.
Proof. apply fleet_continue_snoc. Qed.

Lemma fleet_continue_app ls1 ls2 F :
  fleet_continue (ls1 ++ ls2) F = fleet_continue ls1 F ≫= fleet_continue ls2.
Proof.
  unfold fleet_continue. rewrite fold_left_app. destruct (fold_left _ ls1 _) as [F1|]; [done|].
  simpl. induction ls2; [done|]. done.
Qed.

Lemma fleet_run_app ls1 ls2 :
  fleet_run (ls1 ++ ls2) = fleet_run ls1 ≫= fleet_continue ls2.
Proof. apply fleet_continue_app. Qed.

Lemma fleet_run_prefix ls1 ls2 F :
  fleet_run (ls1 ++ ls2) = Some F → ∃ F1, fleet_run ls1 = Some F1.
Proof.
  revert F. induction ls2 as [|l ls2 IH] using rev_ind; intros F.
  - rewrite app_nil_r. eauto.
  - rewrite app_assoc. intros (F0 & HF0 & _)%fleet_run_snoc. eauto.
Qed.

Lemma fleet_run_rest ls1 ls2 F1 F :
  fleet_run ls1 = Some F1 → fleet_run (ls1 ++ ls2) = Some F → fleet_continue ls2 F1 = Some F.
Proof. rewrite fleet_run_app. by intros ->. Qed.

(** A step runs one event of one node. *)
Lemma fleet_step_daemons l F F' :
  fleet_step l F = Some F' →
  ∃ d, daemons F !! (label_event l).1 = Some d
    ∧ daemons F' = <[(label_event l).1 := run_event (label_event l).2 d]> (daemons F).
Proof.
  unfold fleet_step. destruct (label_event l) as [i e] eqn:El. cbn [fst snd].
  intros (c & _ & (d & Hd & Hs)%bind_Some)%bind_Some. exists d. split; [done|].
  destruct l; try by injection Hs as <-.
  apply bind_Some in Hs as (s & _ & Hs). destruct (deliverable _ _ _); [|done].
  apply bind_Some in Hs as (t' & _ & Hs). by injection Hs as <-.
Qed.

Lemma node_history ls F i d :
  fleet_run ls = Some F → daemons F !! i = Some d →
  ∃ c, cfg !! i = Some c ∧ d = run_events (node_events i ls) (node_daemon c).
Proof.
  revert F i d. induction ls as [|l ls IH] using rev_ind; intros F i d.
  { intros [= <-]. simpl. rewrite list_lookup_fmap. destruct (cfg !! i) as [c|]; [|done].
    intros [= <-]. by exists c. }
  intros (F0 & HF0 & Hl)%fleet_run_snoc Hd.
  apply fleet_step_daemons in Hl as (d0 & Hd0 & HF). rewrite HF in Hd.
  unfold node_events. rewrite map_app, List.filter_app, map_app. cbn [map List.filter].
  destruct (Nat.eqb_spec (label_event l).1 i) as [<-|Hne].
  - rewrite list_lookup_insert_eq in Hd by (by eapply lookup_lt_Some). injection Hd as <-.
    destruct (IH _ _ _ HF0 Hd0) as (c & Hc & ->). exists c. split; [done|].
    unfold run_events. by rewrite fold_left_app.
  - rewrite list_lookup_insert_ne in Hd by done. cbn [map]. rewrite app_nil_r.
    by apply (IH F0).
Qed.

Lemma node_events_ok i ls : Forall label_ok ls → events_ok (node_events i ls).
Proof.
  intros Hls. unfold node_events, events_ok. induction Hls as [|l ls Hl Hls IH]; [constructor|].
  cbn [map List.filter]. destruct (_ =? i)%nat; [|done]. cbn [map]. constructor; [|done].
  destruct l; simpl; try done. intros t. by exists [l].
Qed.

End fleet.
