(* ===== verification/FleetSafety.v ===== *)
(** * What a fleet of nodes guarantees

    End to end, from a client's request on one machine to another machine's answer: a file a
    node reports was shared by a client of its own or came from a peer its group allowed at
    the time, and one attributed to a node of the fleet was shared by a client of that node. *)

From S2P Require Import Prelude RustStr Admission Membership Session Seed Device Registry.
From S2P Require Import EffectiveRoster Transport DeviceWire Daemon Ipc DaemonInv.
From S2P Require Import DaemonSafety DaemonFunctional Swarm SwarmLoop SwarmInv SwarmSafety.
From S2P Require Import System WireRefine Fleet.
Import ClusterMembership ClusterDaemon.
Local Open Scope N_scope.

(** ** What one step of a swarm task publishes and takes in *)

Section steps.
  Context `{!Libp2p, !Crypto}.
  Implicit Types (t : transport).

(** What goes out and what comes in. *)
Definition traffic t : list string * list MeshMessage.t * option Mid :=
  (published t, inbox_s (shared t), mid t).

Lemma sweep_traffic now t : traffic (sweep now t) = traffic t.
Proof. unfold sweep. by apply (fold_projection traffic). Qed.

Lemma redial_traffic t : traffic (redial t) = traffic t.
Proof. unfold redial. cbv zeta. rewrite !(fold_projection traffic); done. Qed.

Lemma discovered_traffic found t : traffic (on_discovered found t) = traffic t.
Proof.
  unfold on_discovered. destruct (fold_left _ found _) as [fresh disc].
  rewrite (fold_projection traffic); [done|]. intros t' p. unfold dial_fresh. by repeat case_match.
Qed.

Lemma drop_all_traffic ps t : traffic (fold_left (λ t p, drop_peer_id p t) ps t) = traffic t.
Proof. by apply (fold_projection traffic). Qed.

Lemma closed_traffic p t : traffic (on_closed p t) = traffic t.
Proof.
  unfold on_closed. destruct (conns t !! p) as [[|[|n]]|]; try done; cbv zeta; simpl;
    by destruct (peer_addr t !! p).
Qed.

(** Only a queued command is published. *)
Lemma task_published l t t' :
  task_step l t = Some t' →
  published t' = published t
  ∨ ∃ b, Publish b ∈ queue t ∧ published t' = published t ++ [b].
Proof.
  unfold task_step. destruct (mid t) as [m|].
  { destruct l; try done. intros [= <-]. left. by destruct m. }
  destruct l as [now| |taken|p now|p key|on_topic src data|p|found|gone|addrs|]; try done.
  - intros [= <-]. left. by injection (sweep_traffic now t).
  - intros [= <-]. left. by injection (redial_traffic t).
  - destruct (queue t) as [|cmd q] eqn:Hq; [done|]. intros [= <-].
    destruct cmd as [b|a|a| |]; simpl; auto.
    + destruct taken; [right|by left]. exists b. split; [by left|done].
    + left. by injection (drop_all_traffic (peers_at a (set_queue (λ _, q) t))
        (set_queue (λ _, q) t)).
  - intros [= <-]. left. unfold on_established. by case_decide.
  - case_decide; [|done]. intros [= <-]. left. unfold on_identify.
    destruct (negb _); simpl; [done|].
    destruct (address_from_public_key key); simpl; [|done]. by case_decide.
  - intros [= <-]. left. unfold on_message. by repeat case_match.
  - case_decide; [|done]. intros [= <-]. left. by injection (closed_traffic p t).
  - intros [= <-]. left. by injection (discovered_traffic found t).
  - intros [= <-]. by left.
  - intros [= <-]. by left.
Qed.

(** A message held for the daemon, or about to be. *)
Definition holds t (m : MeshMessage.t) : Prop :=
  m ∈ inbox_s (shared t) ∨ mid t = Some (MidPush m).

Lemma traffic_holds t t' m : traffic t' = traffic t → holds t' m → holds t m.
Proof. unfold holds. by intros [= _ -> ->]. Qed.

(** Only a delivered message of an identified and authorised peer is taken in. *)
Lemma task_holds l t t' m :
  task_step l t = Some t' → holds t' m →
  holds t m
  ∨ ∃ src, l = TMessage true (Some src) (MeshMessage.data m)
      ∧ peer_addr t !! src = Some (MeshMessage.from m)
      ∧ MeshMessage.from m ∈ authorized_s (shared t).
Proof.
  unfold task_step. destruct (mid t) as [md|] eqn:Hm.
  { destruct l; try done. intros [= <-]. unfold holds. destruct md as [a|m']; simpl.
    - intros [?|?]; [by left; left|done].
    - intros [Hin|?]; [left|done]. unfold push_inbox in Hin.
      destruct (MAX_INBOX <=? _); simpl in Hin; [by left|].
      apply elem_of_app in Hin as [?|Hin]; [by left|right].
      by apply list_elem_of_singleton in Hin as ->. }
  destruct l as [now| |taken|p now|p key|on_topic src data|p|found|gone|addrs|]; try done.
  - intros [= <-]. left. by eapply traffic_holds; [apply sweep_traffic|].
  - intros [= <-]. left. by eapply traffic_holds; [apply redial_traffic|].
  - destruct (queue t) as [|cmd q] eqn:Hq; [done|]. intros [= <-].
    intros Hh. left. revert Hh. destruct cmd as [b|a|a| |]; simpl; try done; [by destruct taken|].
    intros Hh. apply (traffic_holds (set_queue (λ _, q) t)) in Hh; [done|].
    apply drop_all_traffic.
  - intros [= <-] Hh. left. revert Hh. unfold on_established. by case_decide.
  - case_decide; [|done]. intros [= <-] H'. left. revert H'. unfold on_identify.
    destruct (negb _); simpl; [done|].
    destruct (address_from_public_key key); simpl; [|done]. case_decide; [|done].
    unfold holds. simpl. intros [?|?]; [by left|done].
  - intros [= <-]. unfold on_message. destruct on_topic; simpl; [|by left].
    destruct src as [src|]; [|by left]. destruct (peer_addr t !! src) as [a|] eqn:Ha; [|by left].
    case_decide; [|by left]. unfold accept_payload.
    destruct (utf8_valid data && is_valid_cid data); [|by left].
    unfold holds. simpl. intros [?|[= <-]]; [by left; left|right]. by exists src.
  - case_decide; [|done]. intros [= <-] H'. left.
    by eapply traffic_holds; [apply closed_traffic|].
  - intros [= <-]. left. by eapply traffic_holds; [apply discovered_traffic|].
  - intros [= <-]. by left.
  - intros [= <-]. by left.
Qed.

(** A peer has an address only by identifying with a key of it, which its peer id is of. *)
Lemma task_identified l t t' p a :
  task_step l t = Some t' → peer_addr t' !! p = Some a →
  peer_addr t !! p = Some a
  ∨ ∃ key, l = TIdentify p key ∧ to_peer_id key = p ∧ address_from_public_key key = Some a.
Proof.
  unfold task_step. destruct (mid t) as [m|].
  { destruct l; try done. intros [= <-] Hp. left. by destruct m. }
  assert (∀ t1, peer_addr t1 = peer_addr t → Some t1 = Some t' → peer_addr t' !! p = Some a →
    peer_addr t !! p = Some a
    ∨ ∃ key, l = TIdentify p key ∧ to_peer_id key = p ∧ address_from_public_key key = Some a)
    as Heq by (intros t1 Ht1 [= <-] Hp; left; by rewrite <-Ht1).
  destruct l as [now| |taken|q now|q key|on_topic src data|q|found|gone|addrs|]; try done.
  - apply Heq. unfold sweep. by apply (fold_projection peer_addr).
  - apply Heq. unfold redial. cbv zeta. rewrite !(fold_projection peer_addr); done.
  - destruct (queue t) as [|cmd q]; [done|]. apply Heq.
    destruct cmd as [b|b|b| |]; simpl; try done; [by destruct taken|].
    by rewrite (fold_projection peer_addr).
  - apply Heq. unfold on_established. by case_decide.
  - case_decide; [|done]. intros [= <-]. unfold on_identify.
    destruct (bool_decide_reflect (to_peer_id key = q)) as [Hq|_]; simpl; [|by left].
    destruct (address_from_public_key key) as [b|] eqn:Hb; simpl; [|by left].
    case_decide; simpl; [|by left].
    intros [[<- <-]|[_ Hp]]%lookup_insert_Some; [right; eauto|by left].
  - apply Heq. unfold on_message. by repeat case_match.
  - case_decide; [|done]. intros [= <-]. unfold on_closed.
    destruct (conns t !! q) as [[|[|n]]|]; cbv zeta; simpl; [..|by left|];
      (destruct (peer_addr t !! q); simpl; [|by left]; intros [_ Hp]%lookup_delete_Some; by left).
  - apply Heq. unfold on_discovered. destruct (fold_left _ found _) as [fresh disc].
    rewrite (fold_projection peer_addr); [done|]. intros t1 x. unfold dial_fresh.
    by repeat case_match.
  - by apply Heq.
  - by apply Heq.
Qed.

Lemma task_queue l t t' c : task_step l t = Some t' → c ∈ queue t' → c ∈ queue t.
Proof.
  intros (_ & _ & [->|(_ & cmd & ->)])%task_authorized; [done|]. by right.
Qed.

End steps.

(** ** Where the files of a daemon come from *)

Section files.
  Context {T : Type} `{!MeshTransport T, !Crypto, !StrDebug}.
  Implicit Types d : ClusterDaemon.t T.

(** What the group's transport holds for the daemon. *)
Definition waiting (g : string) d : list MeshMessage.t :=
  match groups_f d !! g with
  | Some s => (drain (ClusterSession.transport s)).1
  | None => []
  end.

Lemma fold_insert_elem ms (set : gset string) c :
  c ∈ fold_left insert_shared ms set → c ∈ set ∨ ∃ m, m ∈ ms ∧ c = MeshMessage.data m.
Proof.
  revert set. induction ms as [|m ms IH]; intros set; [by left|].
  intros [[Hc| ->]%insert_shared_elem|(m' & ? & ->)]%IH; [by left| |]; right; set_solver.
Qed.

Lemma drained_files g d cid :
  cid ∈ shared_of g (drain_into_shared g d).2 →
  cid ∈ shared_of g d ∨ ∃ m, m ∈ waiting g d ∧ cid = MeshMessage.data m.
Proof.
  unfold waiting. destruct (groups_f d !! g) as [s|] eqn:Hs.
  - destruct (drain_into_shared_run g d s Hs) as (_ & -> & _).
    intros [?|(m & Hm & ->)]%fold_insert_elem; [by left|right]. exists m. split; [|done].
    by apply elem_of_filter_list in Hm as [_ ?].
  - unfold drain_into_shared. rewrite Hs. by left.
Qed.

Lemma waiting_sync g d : waiting g (sync_admission g d) = waiting g d.
Proof.
  unfold waiting, sync_admission. destruct (groups_f d !! g) as [s|] eqn:Hs; [|by rewrite Hs].
  simpl. by rewrite lookup_insert_eq.
Qed.

Lemma shared_of_put g g' s d : shared_of g (put_session g' s d) = shared_of g d.
Proof. done. Qed.

Lemma shared_of_sync g g' d : shared_of g (sync_admission g' d) = shared_of g d.
Proof. unfold shared_of. by rewrite sync_shared. Qed.

Lemma ensure_files g g' d r d' : ensure_session g' d = (r, d') → shared_of g d' = shared_of g d.
Proof.
  destruct r as [s|e]; [|by intros ->%ensure_session_Err].
  by intros [_ [->|(_ & _ & _ & t & _ & -> & ->)]]%ensure_session_Ok.
Qed.

(** A request adds a file only by sharing it, or by draining what was received. *)
Lemma request_files req g d cid :
  cid ∈ shared_of g (handle_request req d).2 →
  cid ∈ shared_of g d ∨ req = ShareFile g cid
  ∨ ∃ m, m ∈ waiting g d ∧ cid = MeshMessage.data m.
Proof.
  destruct (decide (request_group req = g)) as [<-|Hne]; cycle 1.
  { unfold shared_of. rewrite (frame_shared _ _ _ (frame_request req d)) by done. by left. }
  rewrite handle_request_state.
  destruct req as [g roster links revs|g|g|g|g|g|g cid'|g|g o l|g|g text]; simpl;
    try rewrite shared_of_sync; try by left.
  - rewrite set_roster_run. destruct (ensure_group_allowed g d); [|by left].
    destruct (ensure_session g d) as [[s|e] d'] eqn:E; apply (ensure_files g) in E;
      [|rewrite <-E; by left]. rewrite <-E.
    destruct (updated_state _ _ _ _ _). simpl. by left.
  - rewrite join_run. destruct (ensure_group_allowed g d); [|by left].
    destruct (ensure_session g d) as [[s|e] d'] eqn:E; apply (ensure_files g) in E;
      rewrite <-E; by left.
  - unfold shared_of. simpl. rewrite lookup_delete_eq. set_solver.
  - intros [Hc|Hm]%drained_files; [rewrite shared_of_sync in Hc; by left|].
    rewrite waiting_sync in Hm. by right; right.
  - unfold share_file. destruct (groups_f d !! g) as [s|]; [|by left].
    destruct (negb (is_valid_cid cid')); [by left|].
    assert (shared_of g (set_shared <[g:=default ∅ (shared_files d !! g)]> d) = shared_of g d)
      as Hset by (unfold shared_of; simpl; by rewrite lookup_insert_eq).
    case_match; simpl; [rewrite Hset; by left|].
    unfold shared_of at 1. simpl. rewrite lookup_insert_eq. simpl. set_solver.
  - intros [Hc|Hm]%drained_files; [rewrite shared_of_sync in Hc; by left|].
    rewrite waiting_sync in Hm. by right; right.
  - intros [?|?]%drained_files; [by left|by right; right].
  - rewrite add_seed_run. destruct (map_err _ _); [|by left]. destruct (negb _); [by left|].
    destruct (groups_f d !! g); by left.
Qed.

(** What the two reads answer. *)
Lemma poll_waiting g d m : m ∈ (poll g d).1 → m ∈ waiting g d.
Proof.
  unfold poll. rewrite <-(waiting_sync g d). unfold waiting.
  destruct (groups_f (sync_admission g d) !! g) as [s|] eqn:Hs.
  - destruct (drain_into_shared_run g _ s Hs) as (-> & _). by intros [_ ?]%elem_of_filter_list.
  - unfold drain_into_shared. by rewrite Hs.
Qed.

Lemma page_files g o l d cid :
  cid ∈ (shared_files_page g o l d).1.1 → cid ∈ shared_of g (drain_into_shared g d).2.
Proof.
  unfold shared_files_page, shared_of. cbv zeta.
  destruct (shared_files (drain_into_shared g d).2 !! g) as [set|]; [|simpl; set_solver].
  cbn [fst default from_option id]. intros Hc. apply elem_of_set_iter.
  eapply elem_of_submseteq; [exact Hc|]. apply sublist_submseteq.
  etrans; [apply sublist_take|apply sublist_drop].
Qed.

Lemma status_files g d cid :
  cid ∈ (status g d).1.2 → cid ∈ shared_of g (drain_into_shared g (sync_admission g d)).2.
Proof.
  unfold status, shared_of. cbv zeta.
  destruct (groups_f (drain_into_shared g (sync_admission g d)).2 !! g); [|simpl; set_solver].
  cbn [fst snd]. destruct (shared_files _ !! g) as [set|]; [|set_solver].
  simpl. by rewrite elem_of_set_iter.
Qed.

End files.

(** ** Whom the requests name *)

Section names.
  Context {T : Type} `{!MeshTransport T, !MeshView T, !MeshTransportLaws T}.
  Context `{!Crypto, !StrDebug}.
  Implicit Types d : ClusterDaemon.t T.

(** A request for group [g] names [a]: on its roster, or as a device of one of its links. *)
Definition request_names (req : Request) (g a : string) : Prop :=
  match req with
  | SetRoster g' roster links _ => g' = g ∧
      ((∃ x r, (x, r) ∈ roster ∧ canonical_address x = Some a)
       ∨ ∃ w, w ∈ links ∧ canonical_address (DeviceLinkWire.device w) = Some a)
  | _ => False
  end.

Definition named (es : list (event T)) (g a : string) : Prop :=
  ∃ req, EvRequest req ∈ es ∧ request_names req g a.

Definition state_named (es : list (event T)) (g : string) (gd : GroupDevices.t) : Prop :=
  (∀ x r a, (x, r) ∈ GroupDevices.roster gd → canonical_address x = Some a → named es g a)
  ∧ ∀ a l, DeviceRegistry.links_f (GroupDevices.registry gd) !! a = Some l → named es g a.

Lemma named_more es e g a : named es g a → named (es ++ [e]) g a.
Proof. intros (req & ? & ?). exists req. split; [set_solver|done]. Qed.

(** A link an update left in place was in the request, if the registry took the update. *)
Lemma update_link_sent links revs reg a l :
  fits (map DeviceLinkWire.into links) revs →
  DeviceRegistry.links_f
    (DeviceRegistry.update (map DeviceLinkWire.into links) revs reg).2 !! a = Some l →
  ∃ w, w ∈ links ∧ canonical_address (DeviceLinkWire.device w) = Some a.
Proof.
  intros Hf. rewrite update_links by done. intros (Hin & _)%resolved_Some.
  apply elem_of_device_links in Hin as (Ha & s & Hs & [Hv _]%verified_link_Some).
  apply list_elem_of_In, in_map_iff in Hs as (w & <- & Hw%list_elem_of_In).
  exists w. split; [done|].
  apply DeviceLink_new_Some in Hv as (_ & Hd & _). simpl in Hd. by rewrite Hd, Ha.
Qed.

Lemma update_link_named links revs reg a l :
  DeviceRegistry.links_f
    (DeviceRegistry.update (map DeviceLinkWire.into links) revs reg).2 !! a = Some l →
  DeviceRegistry.links_f reg !! a = Some l
  ∨ ∃ w, w ∈ links ∧ canonical_address (DeviceLinkWire.device w) = Some a.
Proof.
  destruct (decide (fits (map DeviceLinkWire.into links) revs)) as [Hf|Hn]; cycle 1.
  { by rewrite update_too_many by done; left. }
  intros Hl. right. by eapply update_link_sent.
Qed.

Lemma device_state_named address pinned mk es g gd :
  device_state (run_events es (built address pinned mk)) !! g = Some gd →
  state_named es g gd.
Proof.
  revert gd. induction es as [|e es IH] using rev_ind; intros gd.
  { destruct pinned; simpl; by rewrite lookup_empty. }
  unfold run_events. rewrite fold_left_app. simpl. fold (run_events es (built address pinned mk)).
  set (d := run_events es _) in *. intros Hgd.
  assert (device_state d !! g = Some gd → state_named (es ++ [e]) g gd) as Hold.
  { intros [Hr Hl]%IH. split; eauto using named_more. }
  destruct (event_devices e d) as [(g0 & roster & links & revs & ->)|Heq];
    [|rewrite Heq in Hgd; auto].
  cbn [run_event] in Hgd. rewrite handle_request_state in Hgd.
  destruct (set_roster_devices g0 roster links revs d g) as [Heq|[-> Heq]];
    rewrite Heq in Hgd; [auto|]. injection Hgd as <-. unfold updated_state. cbn [snd]. split; simpl.
  - intros x r a Hx Ha. exists (SetRoster g0 roster links revs). split; [set_solver|].
    split; [done|left]. eauto.
  - intros a l [Hl|Hw]%update_link_named.
    + apply named_more. destruct (device_state d !! g0) as [gd0|] eqn:E.
      * by eapply (IH gd0).
      * simpl in Hl. by rewrite lookup_empty in Hl.
    + exists (SetRoster g0 roster links revs). split; [set_solver|]. split; [done|by right].
Qed.

(** Whoever a group allows was named by a [SetRoster] of that group. *)
Lemma allowed_named address pinned mk es g s a :
  (∀ g t, mk g = Ok t → authorized t = ∅) → Forall event_ok es →
  groups_f (run_events es (built address pinned mk)) !! g = Some s →
  a ∈ allowed_f (ClusterSession.membership s) → named es g a.
Proof.
  intros Hmk Hes Hs Ha. pose proof (inv_reachable address pinned mk es Hmk Hes) as Hi.
  apply (inv_session _ Hi) in Hs as (_ & _ & [Hal|(gd & Hgd & Hal)]); rewrite Hal in Ha;
    [set_solver|].
  apply device_state_named in Hgd as Hn. destruct Hn as [Hr Hl].
  apply allowed_effective in Ha as [[Hin _]|(l & Hin & _)]; [|by eapply Hl|].
  - apply elem_of_allowed_set in Hin as (x & r & Hx & _ & Hc). by eapply Hr.
  - by apply (inv_registry _ Hi g).
Qed.

End names.

(** ** The fleet's invariant *)

Section invariant.
  Context `{!Libp2p, !Libp2pLaws, !Crypto, !StrDebug}.
  Implicit Types (d : ClusterDaemon.t transport) (g : string) (m : MeshMessage.t).
  Context (cfg : list NodeConfig).

(** A client of node [i] asked to share [cid] in [g]. *)
Definition asked (ls : list fleet_label) (i : nat) (g cid : string) : Prop :=
  FRequest i (ShareFile g cid) ∈ ls.

(** Peer [p] identified itself to node [i] in [g] with a key of address [a] that is the key of
    its peer id, which the connection's handshake has authenticated. *)
Definition proved (ls : list fleet_label) (i : nat) (g : string) (p : PeerId) (a : string)
    : Prop :=
  ∃ key, FTask i g (TIdentify p key) ∈ ls ∧ to_peer_id key = p
    ∧ address_from_public_key key = Some a.

(** [m] came to node [i] in [g]: at some moment of the run the network delivered it, signed by
    a peer; the peer was connected then, it had proved the sender's address, under which the
    node knew it, and the group allowed and authorised that address; and if the peer is a node
    of the fleet, a client of that node had asked for the file in the same group. *)
Definition came (ls : list fleet_label) (i : nat) (g : string) (m : MeshMessage.t) : Prop :=
  ∃ ls1 F1 d1 s1 p,
    (ls1 ++ [FTask i g (TMessage true (Some p) (MeshMessage.data m))]) `prefix_of` ls
    ∧ fleet_run cfg ls1 = Some F1 ∧ daemons F1 !! i = Some d1 ∧ groups_f d1 !! g = Some s1
    ∧ is_Some (conns (ClusterSession.transport s1) !! p)
    ∧ peer_addr (ClusterSession.transport s1) !! p = Some (MeshMessage.from m)
    ∧ proved ls1 i g p (MeshMessage.from m)
    ∧ MeshMessage.from m ∈ authorized_s (SwarmLoop.shared (ClusterSession.transport s1))
    ∧ MeshMessage.from m ∈ allowed_at g d1
    ∧ (is_node cfg p = true →
       ∃ j c, cfg !! j = Some c ∧ node_peer c = p ∧ asked ls1 j g (MeshMessage.data m)).

Lemma asked_more ls l i g cid : asked ls i g cid → asked (ls ++ [l]) i g cid.
Proof. unfold asked. set_solver. Qed.

Lemma came_more ls l i g m : came ls i g m → came (ls ++ [l]) i g m.
Proof.
  intros (ls1 & F1 & d1 & s1 & p & Hpre & Hrest). exists ls1, F1, d1, s1, p.
  split; [by apply prefix_app_r|done].
Qed.

Lemma proved_more ls l i g p a : proved ls i g p a → proved (ls ++ [l]) i g p a.
Proof. intros (key & ? & ?). exists key. set_solver. Qed.

(** What is queued to be published was asked for, what is held came, and whoever has an
    address has proved it. *)
Record kept ls i g (t : transport) : Prop := {
  kept_asked b : Publish b ∈ queue t → asked ls i g b;
  kept_came m : holds t m → came ls i g m;
  kept_proved p a : peer_addr t !! p = Some a → proved ls i g p a;
}.

Definition files_from ls i d : Prop :=
  ∀ g cid, cid ∈ shared_of g d →
    asked ls i g cid ∨ ∃ m, MeshMessage.data m = cid ∧ came ls i g m.

Record fleet_inv ls (F : Fleet) : Prop := {
  fi_sent pk : pk ∈ sent F → ∃ j c, cfg !! j = Some c ∧ node_peer c = Packet.source pk
    ∧ asked ls j (Packet.group pk) (Packet.body pk);
  fi_kept i d : daemons F !! i = Some d → all_transports (kept ls i) d;
  fi_files i d : daemons F !! i = Some d → files_from ls i d;
}.

Lemma kept_more ls l i g t : kept ls i g t → kept (ls ++ [l]) i g t.
Proof. intros [Hq Hh Hp]. split; eauto using asked_more, came_more, proved_more. Qed.

Lemma all_kept_more ls l i d :
  all_transports (kept ls i) d → all_transports (kept (ls ++ [l]) i) d.
Proof. intros [Hg Hmk]. split; eauto using kept_more. Qed.

Lemma kept_new ls i g boot local : kept ls i g (new_transport boot local).
Proof.
  split; simpl; [set_solver| |by intros p a; rewrite lookup_empty].
  intros m [?|?]; [set_solver|done].
Qed.

(** *** Calls of the surface *)

Lemma kept_queue ls i g t t' :
  inbox_s (shared t') = inbox_s (shared t) → mid t' = mid t → peer_addr t' = peer_addr t →
  (∀ b, Publish b ∈ queue t' → Publish b ∈ queue t ∨ asked ls i g b) →
  kept ls i g t → kept ls i g t'.
Proof.
  intros Hs Hm Hp Hq [Hk Hh Ha]. split.
  - intros b [?|?]%Hq; auto.
  - unfold holds. by rewrite Hs, Hm.
  - by rewrite Hp.
Qed.

Lemma kept_dial ls i g a t : kept ls i g t → kept ls i g (surface_dial a t).
Proof.
  unfold surface_dial. destruct (canonical_address a); [|done]. apply kept_queue; auto.
Qed.

Lemma kept_disconnect ls i g a t : kept ls i g t → kept ls i g (surface_disconnect a t).
Proof.
  unfold surface_disconnect, disconnect_lock, disconnect_send.
  destruct (canonical_address a) as [b|]; [|destruct (unsent t); [|done]];
    (apply kept_queue; [done..|]; simpl; set_solver).
Qed.

Lemma kept_add_peers ls i g l t : kept ls i g t → kept ls i g (surface_add_peers l t).2.
Proof.
  unfold surface_add_peers. destruct (parse_peer_addrs l _) as [mas|]; [|done]. cbn [snd].
  revert t. induction mas as [|a mas IH]; intros t Ht; simpl; [done|]. apply IH.
  eapply kept_queue; [..|exact Ht]; [done..|]. simpl. set_solver.
Qed.

Lemma kept_request ls i req d :
  all_transports (kept ls i) d →
  all_transports (kept (ls ++ [FRequest i req]) i) (handle_request req d).2.
Proof.
  intros Hd. set (ls' := ls ++ [FRequest i req]).
  apply (all_request (kept ls' i) (asked ls' i)).
  - intros g a t. apply kept_disconnect.
  - intros g a t. apply kept_dial.
  - intros g a b t Hb. apply kept_queue; [done..|]. simpl. set_solver.
  - intros g t [Hq Hh Hp]. split; [exact Hq| |exact Hp]. intros m [Hm|Hm]; [set_solver|].
    apply Hh. by right.
  - intros g l t. apply kept_add_peers.
  - destruct req; try done. unfold request_asked, asked, ls'. set_solver.
  - by apply all_kept_more.
Qed.

Lemma files_request ls i req d :
  all_transports (kept ls i) d → files_from ls i d →
  files_from (ls ++ [FRequest i req]) i (handle_request req d).2.
Proof.
  intros Hk Hf g cid [Hc|[->|(m & Hm & ->)]]%request_files.
  - destruct (Hf _ _ Hc) as [?|(m & ? & ?)]; eauto using asked_more, came_more.
  - left. unfold asked. set_solver.
  - right. exists m. split; [done|]. apply came_more. unfold waiting in Hm.
    destruct (groups_f d !! g) as [s|] eqn:Hs; [|set_solver].
    apply (proj1 Hk) in Hs as [_ Hh _]. apply Hh. by left.
Qed.

(** *** Steps of the swarm tasks *)

Context (fresh : ∀ c, c ∈ cfg → builds_fresh (node_factory c)).

(** A node of the fleet is a daemon after its events: what was proved of those holds. *)
Lemma node_ready ls F i d :
  Forall label_ok ls → fleet_run cfg ls = Some F → daemons F !! i = Some d →
  daemon_inv d ∧ all_transports (λ _, settled) d.
Proof.
  intros Hls HF Hd. destruct (node_history cfg _ _ _ _ HF Hd) as (c & Hc & ->).
  apply list_elem_of_lookup_2 in Hc as Hin. apply (node_events_ok i) in Hls. split.
  - apply inv_reachable; [|by apply events_ok_inv].
    intros g t. apply builds_fresh_authorized. by apply fresh.
  - apply system_all_settled; [by apply fresh|done].
Qed.

Lemma message_came ls F i d g s src data a :
  Forall label_ok ls → fleet_run cfg ls = Some F → fleet_inv ls F →
  daemons F !! i = Some d → groups_f d !! g = Some s →
  deliverable cfg F g (TMessage true (Some src) data) = true →
  peer_addr (ClusterSession.transport s) !! src = Some a →
  a ∈ authorized_s (SwarmLoop.shared (ClusterSession.transport s)) →
  came (ls ++ [FTask i g (TMessage true (Some src) data)]) i g
    {| MeshMessage.from := a; MeshMessage.data := data |}.
Proof.
  intros Hls HF Hinv Hd Hs Hdel Ha Hau.
  destruct (node_ready _ _ _ _ Hls HF Hd) as [Hi [Ht _]].
  destruct (Ht _ _ Hs) as [Hloop _]. pose proof (li_dom _ Hloop _ _ Ha) as [Hc _].
  exists ls, F, d, s, src. split_and!; [done..| |done| |].
  - by apply (kept_proved _ _ _ _ (proj1 (fi_kept _ _ Hinv _ _ Hd) _ _ Hs)).
  - rewrite (allowed_found _ _ _ Hs). by apply (inv_session _ Hi) in Hs as [Hsub _]; apply Hsub.
  - intros Hnode. simpl in Hdel. rewrite Hnode in Hdel. simpl in Hdel.
    apply bool_decide_eq_true in Hdel. by apply (fi_sent _ _ Hinv) in Hdel.
Qed.

Lemma kept_task ls F i d g s l t' :
  Forall label_ok ls → fleet_run cfg ls = Some F → fleet_inv ls F →
  daemons F !! i = Some d → groups_f d !! g = Some s →
  deliverable cfg F g l = true → task_step l (ClusterSession.transport s) = Some t' →
  kept (ls ++ [FTask i g l]) i g t'.
Proof.
  intros Hls HF Hinv Hd Hs Hdel Hl.
  destruct (proj1 (fi_kept _ _ Hinv _ _ Hd) _ _ Hs) as [Hq Hh Hp]. split.
  - intros b Hb. apply asked_more, Hq. by eapply task_queue.
  - intros m [?|(src & -> & Ha & Hau)]%(task_holds _ _ _ _ Hl); [by apply came_more, Hh|].
    destruct m. by eapply message_came.
  - intros p a [?|(key & -> & Hk & Ha)]%(task_identified _ _ _ _ _ Hl); [by apply proved_more, Hp|].
    exists key. set_solver.
Qed.

Lemma task_event (g : string) (l : task_label) d s t' :
  groups_f d !! g = Some s → task_step l (ClusterSession.transport s) = Some t' →
  run_event (EvNetwork g (run [inr l])) d
  = set_groups <[g := ClusterSession.transport_mut (λ _, t') s]> d.
Proof.
  intros Hs Hl. cbn [run_event]. unfold set_groups. f_equal. apply map_eq. intros g'.
  destruct (decide (g = g')) as [<-|].
  - rewrite lookup_alter_eq, lookup_insert_eq, Hs. simpl. unfold ClusterSession.transport_mut.
    unfold run. simpl. by rewrite Hl.
  - by rewrite lookup_alter_ne, lookup_insert_ne.
Qed.

Lemma published_since_spec l t t' b :
  task_step l t = Some t' → b ∈ published_since t t' → Publish b ∈ queue t.
Proof.
  unfold published_since. intros [->|(b' & Hb' & ->)]%task_published.
  - rewrite drop_all. set_solver.
  - rewrite drop_app_length. by intros ->%list_elem_of_singleton.
Qed.

Lemma fleet_inv_step ls F l F' :
  Forall label_ok ls → label_ok l → fleet_run cfg ls = Some F → fleet_inv ls F →
  fleet_step cfg l F = Some F' → fleet_inv (ls ++ [l]) F'.
Proof.
  intros Hls Hl HF Hinv Hstep.
  assert (∀ i d, daemons F !! i = Some d →
    all_transports (kept (ls ++ [l]) i) d ∧ files_from (ls ++ [l]) i d) as Hold.
  { intros i d Hd. split; [apply all_kept_more; by apply (fi_kept _ _ Hinv)|].
    intros g cid Hc. destruct (fi_files _ _ Hinv _ _ Hd g cid Hc) as [?|(m & ? & ?)];
      eauto using asked_more, came_more. }
  assert (∀ pk, pk ∈ sent F → ∃ j c, cfg !! j = Some c ∧ node_peer c = Packet.source pk
    ∧ asked (ls ++ [l]) j (Packet.group pk) (Packet.body pk)) as Hsent.
  { intros pk (j & c & ? & ? & ?)%(fi_sent _ _ Hinv). exists j, c. eauto using asked_more. }
  pose proof (fleet_step_daemons _ _ _ _ Hstep) as (d & Hd & HF').
  assert (∀ pk, pk ∈ sent F' → pk ∈ sent F
    ∨ ∃ i g cid c, cfg !! i = Some c ∧ pk = Packet.mk (node_peer c) g cid
        ∧ asked ls i g cid) as Hnew.
  { unfold fleet_step in Hstep. destruct (label_event l) as [i e] eqn:El.
    apply bind_Some in Hstep as (c & Hc & (d' & Hd' & Hs)%bind_Some).
    destruct l as [j req|j g tl|j make]; try (injection Hs as <-; by left).
    apply bind_Some in Hs as (s & Hs & Ht). destruct (deliverable _ _ _); [|done].
    apply bind_Some in Ht as (t' & Ht & [= <-]). injection El as -> <-. simpl.
    intros pk [?|Hp]%elem_of_app; [by left|right].
    unfold packets in Hp. apply list_elem_of_In, in_map_iff in Hp as (b & <- & Hb).
    apply list_elem_of_In in Hb. exists i, g, b, c. split_and!; [done..|].
    apply (proj1 (fi_kept _ _ Hinv _ _ Hd') _ _ Hs). by eapply published_since_spec. }
  assert (all_transports (kept (ls ++ [l]) (label_event l).1) (run_event (label_event l).2 d)
    ∧ files_from (ls ++ [l]) (label_event l).1 (run_event (label_event l).2 d)) as [Hk Hf].
  { destruct l as [i req|i g tl|i make]; cbn [label_event fst snd] in *.
    - split; [apply kept_request; by apply (fi_kept _ _ Hinv)|].
      apply files_request; [by apply (fi_kept _ _ Hinv)|by apply (fi_files _ _ Hinv)].
    - unfold fleet_step in Hstep. cbn [label_event] in Hstep.
      apply bind_Some in Hstep as (c & Hc & (d' & Hd' & Hs)%bind_Some).
      rewrite Hd in Hd'. injection Hd' as <-.
      apply bind_Some in Hs as (s & Hs & Ht). destruct (deliverable _ _ _) eqn:Hdel; [|done].
      apply bind_Some in Ht as (t' & Ht & _).
      destruct (Hold _ _ Hd) as [Hk Hf]. rewrite (task_event g tl d s t') by done.
      split; [|exact Hf]. apply all_put; [exact Hk|]. simpl.
      by eapply (kept_task ls F).
    - destruct (Hold _ _ Hd) as [Hk Hf]. split; [|exact Hf]. split; [apply Hk|].
      intros g t (boot & local & ->)%Hl. apply kept_new. }
  split.
  - intros pk [?|(i & g & cid & c & Hc & -> & Ha)]%Hnew; [by apply Hsent|].
    exists i, c. eauto using asked_more.
  - intros i d'. rewrite HF'. intros [(<- & <- & _)|[_ ?]]%list_lookup_insert_Some; [done|].
    by apply Hold.
  - intros i d'. rewrite HF'. intros [(<- & <- & _)|[_ ?]]%list_lookup_insert_Some; [done|].
    by apply Hold.
Qed.

Lemma fleet_inv_start : fleet_inv [] (fleet_start cfg).
Proof.
  split; simpl.
  - set_solver.
  - intros i d Hd. rewrite list_lookup_fmap in Hd. destruct (cfg !! i) as [c|] eqn:Hc; [|done].
    injection Hd as <-. apply list_elem_of_lookup_2 in Hc. unfold node_daemon, built.
    split; [by destruct (node_pin c)|].
    intros g t Ht. assert (node_factory c g = Ok t) as Ht' by by destruct (node_pin c).
    destruct (fresh _ Hc _ _ Ht') as (boot & local & ->). apply kept_new.
  - intros i d Hd. rewrite list_lookup_fmap in Hd. destruct (cfg !! i) as [c|] eqn:Hc; [|done].
    injection Hd as <-. unfold node_daemon, built, files_from, shared_of.
    intros g cid. destruct (node_pin c); simpl; set_solver.
Qed.

Lemma fleet_inv_run ls F :
  Forall label_ok ls → fleet_run cfg ls = Some F → fleet_inv ls F.
Proof.
  revert F. induction ls as [|l ls IH] using rev_ind; intros F Hls.
  - intros [= <-]. apply fleet_inv_start.
  - apply Forall_app in Hls as [Hls Hl]. apply Forall_cons in Hl as [Hl _].
    intros (F0 & HF0 & Hs)%fleet_run_snoc. by eapply (fleet_inv_step ls F0); auto.
Qed.

End invariant.

(** ** What an answer reports *)

Definition messages_of (r : Response.t) : list MeshMessage.t :=
  match r with Response.Messages ms => ms | _ => [] end.

Definition files_of (r : Response.t) : list string :=
  match r with
  | Response.Status _ _ files | Response.SharedFiles files _ _ => files
  | Response.Messages ms => map MeshMessage.data ms
  | _ => []
  end.

Section answers.
  Context {T : Type} `{!MeshTransport T, !Crypto, !StrDebug}.
  Implicit Types d : ClusterDaemon.t T.

Lemma respond_messages {A} (m : M (ClusterDaemon.t T) A) ok d :
  (∀ a, messages_of (ok a) = []) → messages_of (respond m ok d).1 = [].
Proof. intros Hok. unfold respond. by destruct (m d) as [[a|e] d']; [apply Hok|]. Qed.

Lemma respond_files {A} (m : M (ClusterDaemon.t T) A) ok d :
  (∀ a, files_of (ok a) = []) → files_of (respond m ok d).1 = [].
Proof. intros Hok. unfold respond. by destruct (m d) as [[a|e] d']; [apply Hok|]. Qed.

Lemma answer_messages req d m :
  m ∈ messages_of (handle_request req d).1 → m ∈ waiting (request_group req) d.
Proof.
  destruct req; simpl; try (rewrite respond_messages by done; set_solver);
    try set_solver.
  - destruct (devices group d). simpl. set_solver.
  - destruct (status group d) as [[[]]]. simpl. set_solver.
  - destruct (peers group d). simpl. set_solver.
  - intros Hm. apply poll_waiting. destruct (poll group d). exact Hm.
  - destruct (shared_files_page _ _ _ d) as [[]]. simpl. set_solver.
  - destruct (seed group d) as [[]|]; simpl; set_solver.
Qed.

Lemma answer_files req d cid :
  cid ∈ files_of (handle_request req d).1 →
  cid ∈ shared_of (request_group req) (handle_request req d).2
  ∨ ∃ m, m ∈ waiting (request_group req) d ∧ cid = MeshMessage.data m.
Proof.
  destruct req; simpl; try (rewrite respond_files by done; set_solver);
    try set_solver.
  - destruct (devices group d). simpl. set_solver.
  - intros Hc. left. pose proof (status_files group d cid) as Hst.
    pose proof (status_state group d) as Hs. destruct (status group d) as [[[]]].
    cbn [fst snd] in *. rewrite Hs. by apply Hst.
  - destruct (peers group d). simpl. set_solver.
  - intros Hc. right. pose proof (poll_waiting group d) as Hp. destruct (poll group d) as [ms d'].
    simpl in *. apply list_elem_of_In, in_map_iff in Hc as (m & <- & Hm%list_elem_of_In). eauto.
  - intros Hc. left.
    pose proof (page_files group offset (default MAX_SHARED_FILES_PAGE limit) d cid) as Hp.
    pose proof (page_state group offset (default MAX_SHARED_FILES_PAGE limit) d) as Hs.
    destruct (shared_files_page _ _ _ d) as [[]]. cbn [fst snd] in *. rewrite Hs. by apply Hp.
  - destruct (seed group d) as [[]|]; simpl; set_solver.
Qed.
End answers.

(** ** Theorems *)

Section theorems.
  Context `{!Libp2p, !Libp2pLaws, !Crypto, !StrDebug}.
  Context (cfg : list NodeConfig).

(** Only nodes of the fleet hold a key of the address. *)
Definition only_nodes (a : string) : Prop :=
  ∀ key, address_from_public_key key = Some a → is_node cfg (to_peer_id key) = true.

Lemma node_of_key key c : node_peer c = to_peer_id key → node_key c = key.
Proof. apply to_peer_id_inj. Qed.

Lemma elem_of_node_events i req ls :
  EvRequest req ∈ node_events i ls → FRequest i req ∈ ls.
Proof.
  unfold node_events. intros Hin. apply list_elem_of_In, in_map_iff in Hin as ([j e] & He & Hin).
  simpl in He. subst e. apply filter_In in Hin as [Hin Hj]. simpl in Hj.
  apply Nat.eqb_eq in Hj as ->. apply in_map_iff in Hin as (l & Hl & Hin).
  apply list_elem_of_In in Hin. destruct l; simpl in Hl; [by injection Hl as -> ->|congruence..].
Qed.

Lemma came_named ls i g m :
  (∀ c, c ∈ cfg → builds_fresh (node_factory c)) → Forall label_ok ls → came cfg ls i g m →
  ∃ req, FRequest i req ∈ ls ∧ request_names req g (MeshMessage.from m).
Proof.
  intros fresh Hls (ls1 & F1 & d1 & s & p & [ls2 ->] & HF1 & Hd1 & Hs & _ & _ & _ & _ & Ha & _).
  apply Forall_app in Hls as [[Hls _]%Forall_app _]. rewrite (allowed_found _ _ _ Hs) in Ha.
  destruct (node_history cfg _ _ _ _ HF1 Hd1) as (c & Hc & ->).
  apply list_elem_of_lookup_2 in Hc. apply (node_events_ok i) in Hls.
  assert (named (node_events i ls1) g (MeshMessage.from m))
    as (req & Hreq%elem_of_node_events & Hnames).
  { eapply allowed_named; [| |exact Hs|exact Ha]; [|by apply events_ok_inv].
    intros g' t. apply builds_fresh_authorized. by apply fresh. }
  exists req. split; [set_solver|done].
Qed.

Lemma came_attributed ls i g m :
  came cfg ls i g m → only_nodes (MeshMessage.from m) →
  ∃ j c, cfg !! j = Some c ∧ node_address c = MeshMessage.from m
    ∧ asked ls j g (MeshMessage.data m).
Proof.
  intros (ls1 & F1 & d1 & s & p & [ls2 ->] & _ & _ & _ & _ & _ & Hproved & _ & _ & Hsent) Honly.
  destruct Hproved as (key & _ & <- & Hkey).
  destruct (Hsent (Honly _ Hkey)) as (j & c & Hc & Hp & Hask). exists j, c.
  split_and!; [done| |].
  - unfold node_address. by rewrite (node_of_key key c Hp), Hkey.
  - unfold asked in *. set_solver.
Qed.

(** C3: Authenticity across machines: in a fleet of nodes on a network that does anything but
    forge signatures, whatever a node answers after any run: a message it hands out came from
    a peer that proved its address while the group allowed that address, and the address was
    named by a roster or link a client gave this node for this group; if only nodes of the
    fleet hold a key of that address, a client of such a node had asked it to share exactly
    that file in the same group. A file it reports was shared by its own client or came so. *)
Theorem shared_files_are_authentic ls F i d (req : Request) :
  (∀ c, c ∈ cfg → builds_fresh (node_factory c)) → Forall label_ok ls →
  fleet_run cfg ls = Some F → daemons F !! i = Some d →
  let g := request_group req in
  let answer := (handle_request req d).1 in
  (∀ m, m ∈ messages_of answer →
     came cfg ls i g m
     ∧ (∃ req', FRequest i req' ∈ ls ∧ request_names req' g (MeshMessage.from m))
     ∧ (only_nodes (MeshMessage.from m) →
        ∃ j c, cfg !! j = Some c ∧ node_address c = MeshMessage.from m
          ∧ asked ls j g (MeshMessage.data m)))
  ∧ ∀ cid, cid ∈ files_of answer →
      asked (ls ++ [FRequest i req]) i g cid
      ∨ ∃ m, MeshMessage.data m = cid ∧ came cfg ls i g m.
Proof.
  intros fresh Hls HF Hd g answer.
  pose proof (fleet_inv_run cfg fresh _ _ Hls HF) as Hinv.
  assert (∀ m, m ∈ waiting g d → came cfg ls i g m) as Hwait.
  { intros m Hm. unfold waiting in Hm. destruct (groups_f d !! g) as [s|] eqn:Hs; [|set_solver].
    apply (proj1 (fi_kept _ _ _ Hinv _ _ Hd)) in Hs as [_ Hh _]. apply Hh. by left. }
  split.
  - intros m Hm%answer_messages%Hwait.
    split_and!; [done|by apply came_named|by apply (came_attributed ls i)].
  - intros cid [[Hc|[->|(m & Hm & ->)]]%request_files|(m & Hm & ->)]%answer_files; eauto.
    + destruct (fi_files _ _ _ Hinv _ _ Hd g cid Hc) as [?|?]; eauto using asked_more.
    + left. unfold asked. set_solver.
Qed.

(** C24: A closed group lists only its own files: if every address the clients of a node named
    for a group is one only nodes of the fleet hold a key of, then every file the node
    reports for the group, whatever strangers did on the network, was asked to be shared in
    that group by a client of some node. *)
Theorem closed_group_lists_only_shared_files ls F i d (req : Request) cid :
  (∀ c, c ∈ cfg → builds_fresh (node_factory c)) → Forall label_ok ls →
  fleet_run cfg ls = Some F → daemons F !! i = Some d →
  (∀ req' a, FRequest i req' ∈ ls → request_names req' (request_group req) a → only_nodes a) →
  cid ∈ files_of (handle_request req d).1 →
  ∃ j, asked (ls ++ [FRequest i req]) j (request_group req) cid.
Proof.
  intros fresh Hls HF Hd Hclosed Hc.
  pose proof (fleet_inv_run cfg fresh _ _ Hls HF) as Hinv. set (g := request_group req) in *.
  assert (∀ m, came cfg ls i g m → ∃ j, asked (ls ++ [FRequest i req]) j g (MeshMessage.data m))
    as Hcame.
  { intros m Hm. destruct (came_named ls i g m fresh Hls Hm) as (req' & Hreq & Hn).
    destruct (came_attributed ls i g m Hm) as (j & _ & _ & _ & Hask); [by eapply Hclosed|].
    eauto using asked_more. }
  assert (∀ m, m ∈ waiting g d → came cfg ls i g m) as Hwait.
  { intros m Hm. unfold waiting in Hm. destruct (groups_f d !! g) as [s|] eqn:Hs; [|set_solver].
    apply (proj1 (fi_kept _ _ _ Hinv _ _ Hd)) in Hs as [_ Hh _]. apply Hh. by left. }
  apply answer_files in Hc as [[Hc|[Heq|(m & Hm & ->)]]%request_files|(m & Hm & ->)].
  - destruct (fi_files _ _ _ Hinv _ _ Hd g cid Hc) as [?|(m & <- & Hm)]; eauto using asked_more.
  - exists i. unfold asked, g. rewrite Heq. set_solver.
  - eauto.
  - eauto.
Qed.

End theorems.

(** ** Two nodes of one group, and a stranger *)

Module ExampleFleet.

#[local] Instance crypto : Crypto := ExampleCrypto.crypto.
#[local] Instance debug : StrDebug := ExampleDaemon.debug.

(** As [ExampleLibp2p], with keys of exactly 20 bytes. *)
#[local] Instance libp2p : Libp2p := {|
  PeerId := string;
  Other := unit;
  parse_multiaddr s := if str_is_empty s then Err "empty" else Ok [Tcp 4001; P2p s];
  multiaddr_to_string _ := "/tcp/4001/p2p/peer";
  PublicKey := string;
  Secp := string;
  to_peer_id pk := pk;
  try_into_secp256k1 pk := if (String.length pk =? 20)%nat then Some pk else None;
  to_bytes_uncompressed pk := String "004" pk;
  multihash_code _ := 0;
  multihash_digest p := p;
  try_decode_protobuf s := Some s;
|}.

#[local] Instance laws : Libp2pLaws.
Proof. split. intros x y Hxy. exact Hxy. Qed.

Definition KA : string := "aaaaaaaaaaaaaaaaaaaa".
Definition KB : string := "bbbbbbbbbbbbbbbbbbbb".
Definition KC : string := "cccccccccccccccccccc".
Definition A : string := "6161616161616161616161616161616161616161".
Definition B : string := "6262626262626262626262626262626262626262".
Definition cid : string := ExampleSwarm.CID.

Definition mk (key : string) (_ : string) : result transport string :=
  Ok (new_transport [] key).

Definition node (key : string) : NodeConfig := mkNode key None (mk key).
Definition cfg : list NodeConfig := [node KA; node KB].

Definition set_roster : Request := SetRoster "g" [(A, "member"); (B, "member")] [] [].

(** Both set the roster, connect and identify; a stranger speaks to the second in vain. *)
Definition meeting : list fleet_label :=
  [FRequest 0 set_roster; FRequest 1 set_roster;
   FTask 0 "g" (TEstablished KB 0); FTask 0 "g" (TIdentify KB KB); FTask 0 "g" TMid;
   FTask 1 "g" (TEstablished KA 0); FTask 1 "g" (TIdentify KA KA); FTask 1 "g" TMid;
   FTask 1 "g" (TEstablished KC 0); FTask 1 "g" (TIdentify KC KC);
   FTask 1 "g" (TMessage true (Some KC) cid)].

(** The first shares a file and its task takes the command. *)
Definition sharing : list fleet_label :=
  [FRequest 0 (ShareFile "g" cid); FTask 0 "g" (TRecv true)].

Definition delivery : list fleet_label :=
  [FTask 1 "g" (TMessage true (Some KA) cid); FTask 1 "g" TMid].

Definition run_of (ls : list fleet_label) : Fleet :=
  default (fleet_start cfg) (fleet_run cfg ls).
Definition daemon_of (F : Fleet) (i : nat) : ClusterDaemon.t transport :=
  default (node_daemon (node KA)) (daemons F !! i).

Definition met : Fleet := run_of meeting.
Definition told : Fleet := run_of (meeting ++ sharing ++ delivery).
Definition told_labels : list fleet_label := meeting ++ sharing ++ delivery.

Lemma builds_fresh_cfg c : c ∈ cfg → builds_fresh (node_factory c).
Proof.
  intros [->|[->| []%not_elem_of_nil]%elem_of_cons]%elem_of_cons g t [= <-]; eauto.
Qed.

Lemma told_ok : Forall label_ok told_labels.
Proof. repeat constructor. Qed.

Lemma told_run : fleet_run cfg told_labels = Some told.
Proof. unfold told, run_of. apply some_default, (bool_decide_eq_true_1 _). vm_compute. reflexivity. Qed.

Lemma told_second : daemons told !! 1%nat = Some (daemon_of told 1).
Proof. apply some_default, (bool_decide_eq_true_1 _). vm_compute. reflexivity. Qed.

(** An address names its key. *)
Lemma hex_char c : ExampleCrypto.hex_val (ExampleCrypto.hex_digit (N_of_ascii c / 16))
  = Some (N_of_ascii c / 16)
  ∧ ExampleCrypto.hex_val (ExampleCrypto.hex_digit (N_of_ascii c mod 16))
  = Some (N_of_ascii c mod 16)
  ∧ ascii_of_N (16 * (N_of_ascii c / 16) + N_of_ascii c mod 16) = c.
Proof. by destruct c as [[] [] [] [] [] [] [] []]. Qed.

Lemma hex_round_trip s : ExampleCrypto.hex_dec (ExampleCrypto.hex_enc s) = Some s.
Proof.
  induction s as [|c s IH]; [done|]. cbn [ExampleCrypto.hex_enc ExampleCrypto.hex_dec].
  destruct (hex_char c) as (-> & -> & Hc). simpl. rewrite IH. simpl. by rewrite Hc.
Qed.

Lemma address_hex key a :
  address_from_public_key key = Some a → a = ExampleCrypto.hex_enc key.
Proof.
  unfold address_from_public_key. intros (k & Hk & Ha)%bind_Some. revert Hk Ha. simpl.
  destruct (Nat.eqb_spec (String.length key) 20) as [Hlen|]; [|done].
  intros [= <-] [= <-].
  do 20 (destruct key as [|? key]; [done|]). destruct key; [|done]. reflexivity.
Qed.

Lemma only_A_B key a :
  address_from_public_key key = Some a → a = A ∨ a = B → is_node cfg (to_peer_id key) = true.
Proof.
  intros Ha%address_hex Hor. pose proof (hex_round_trip key) as Hk. rewrite <-Ha in Hk.
  destruct Hor as [->| ->]; vm_compute in Hk; injection Hk as <-; vm_compute; reflexivity.
Qed.

Lemma named_A_B req a :
  FRequest 1 req ∈ told_labels → request_names req "g" a → a = A ∨ a = B.
Proof.
  intros Hin Hn.
  assert (req = set_roster ∨ req = ShareFile "g" cid) as [->| ->].
  { unfold told_labels, meeting, sharing, delivery in Hin. simpl in Hin.
    repeat (apply elem_of_cons in Hin as [Hin|Hin]; [try discriminate Hin;
      injection Hin as ->; auto|]). by apply not_elem_of_nil in Hin. }
  - destruct Hn as [_ [(x & r & Hx & Ha)|(w & Hw & _)]]; [|by apply not_elem_of_nil in Hw].
    apply elem_of_cons in Hx as [[= -> ->]|Hx]; [left; vm_compute in Ha; by injection Ha as <-|].
    apply elem_of_cons in Hx as [[= -> ->]|Hx]; [right; vm_compute in Ha; by injection Ha as <-|].
    by apply not_elem_of_nil in Hx.
  - destruct Hn.
Qed.

End ExampleFleet.

Lemma shared_files_are_authentic_witness :
  ∃ j c, ExampleFleet.cfg !! j = Some c
    ∧ node_address (H:=ExampleFleet.libp2p) (H0:=ExampleFleet.crypto) c = ExampleFleet.A
    ∧ asked (H:=ExampleFleet.libp2p) ExampleFleet.told_labels j "g" ExampleFleet.cid.
Proof.
  destruct (shared_files_are_authentic (H:=ExampleFleet.libp2p) (H0:=ExampleFleet.laws)
    (H1:=ExampleFleet.crypto) (H2:=ExampleFleet.debug) ExampleFleet.cfg
    ExampleFleet.told_labels ExampleFleet.told 1 (ExampleFleet.daemon_of ExampleFleet.told 1)
    (Poll "g") ExampleFleet.builds_fresh_cfg ExampleFleet.told_ok ExampleFleet.told_run
    ExampleFleet.told_second) as [Hm _].
  destruct (Hm {| MeshMessage.from := ExampleFleet.A; MeshMessage.data := ExampleFleet.cid |})
    as (_ & _ & Hnode).
  - apply (bool_decide_eq_true_1 _). vm_compute. reflexivity.
  - apply Hnode. intros key Hk. apply (ExampleFleet.only_A_B key ExampleFleet.A Hk). by left.
Defined.

Lemma closed_group_lists_only_shared_files_witness :
  ∃ j, asked (H:=ExampleFleet.libp2p)
    (ExampleFleet.told_labels ++ [FRequest 1 (Status "g")]) j "g" ExampleFleet.cid.
Proof.
  apply (closed_group_lists_only_shared_files (H:=ExampleFleet.libp2p)
    (H0:=ExampleFleet.laws) (H1:=ExampleFleet.crypto) (H2:=ExampleFleet.debug)
    ExampleFleet.cfg ExampleFleet.told_labels ExampleFleet.told 1
    (ExampleFleet.daemon_of ExampleFleet.told 1) (Status "g") ExampleFleet.cid
    ExampleFleet.builds_fresh_cfg ExampleFleet.told_ok ExampleFleet.told_run
    ExampleFleet.told_second).
  - intros req' a Hreq Hn key Hk. apply (ExampleFleet.only_A_B key a Hk).
    by apply (ExampleFleet.named_A_B req').
  - apply (bool_decide_eq_true_1 _). vm_compute. reflexivity.
Defined.
