(* ===== verification/FleetLive.v ===== *)
(** * A shared file arrives

    From a client's [ShareFile] on one machine to another machine's answer: what was accepted
    is published when the swarm task takes its queue, unless gossipsub refuses it, and what
    the network delivers to a node linked to the publisher is listed, through every
    interleaving. Whether gossipsub delivers is its own affair. *)

From S2P Require Import Prelude RustStr Admission Membership Session Seed Device Registry.
From S2P Require Import EffectiveRoster Transport DeviceWire Daemon Ipc DaemonInv.
From S2P Require Import DaemonSafety DaemonFunctional Swarm SwarmLoop SwarmInv SwarmSafety.
From S2P Require Import System WireRefine Fleet FleetSafety.
Import ClusterMembership ClusterDaemon.
Local Open Scope N_scope.

(** ** What a request does to a session that stays *)

Section requests.
  Context {T : Type} `{!MeshTransport T, !Crypto, !StrDebug}.
  Implicit Types (d : ClusterDaemon.t T) (s : ClusterSession.t T) (g : string).

Definition drains (req : Request) (g : string) : bool :=
  match req with
  | Status g' | Poll g' | SharedFiles g' _ _ => bool_decide (g' = g)
  | _ => false
  end.

(** Kept by every call that does not drain. *)
Record call_closed (P : T → Prop) : Prop := {
  cc_disconnect a t : P t → P (disconnect a t);
  cc_authorize a t : P t → P (authorize a t);
  cc_publish a b t : P t → P (publish a b t);
  cc_add_peers l t : P t → P (add_peers l t).2;
}.

Lemma closed_reconciled P roster s :
  call_closed P → P (ClusterSession.transport s) →
  P (ClusterSession.transport (reconciled roster s)).
Proof.
  intros HP. apply (P_reconciled (λ _, P)) with (g := ""); intros _;
    [apply (cc_disconnect _ HP)|apply (cc_authorize _ HP)].
Qed.

Lemma sync_transport g d s :
  groups_f d !! g = Some s → ∃ s', groups_f (sync_admission g d) !! g = Some s'
    ∧ ClusterSession.transport s' = ClusterSession.transport s.
Proof. intros Hs. eexists. split; [by apply sync_session|done]. Qed.

Lemma drain_session g d s :
  groups_f d !! g = Some s →
  groups_f (drain_into_shared g d).2 !! g
  = Some (ClusterSession.transport_mut (λ _, (drain (ClusterSession.transport s)).2) s).
Proof. intros Hs. by destruct (drain_into_shared_run g d s Hs) as (_ & _ & ? & _). Qed.

(** A session outlives every request but a [Leave], and its transport keeps what calls keep. *)
Lemma request_keeps (P : T → Prop) req g d s :
  call_closed P → (drains req g = true → ∀ t, P t → P (drain t).2) →
  req ≠ Leave g → groups_f d !! g = Some s → P (ClusterSession.transport s) →
  ∃ s', groups_f (handle_request req d).2 !! g = Some s' ∧ P (ClusterSession.transport s').
Proof.
  intros HP Hdr Hreq Hs Ht.
  destruct (decide (request_group req = g)) as [<-|Hne]; cycle 1.
  { exists s. by rewrite (frame_groups _ _ _ (frame_request req d)). }
  rewrite handle_request_state.
  destruct req as [g roster links revs|g|g|g|g|g|g cid|g|g o l|g|g text]; simpl in *;
    rewrite ?bool_decide_eq_true_2 in Hdr by done; try (by exists s);
    try (destruct (sync_transport g d s Hs) as (s1 & Hs1 & Heq1)).
  - rewrite set_roster_run. destruct (ensure_group_allowed g d); [|by exists s].
    rewrite (ensure_session_exists _ _ _ Hs). destruct (updated_state _ _ _ _ _).
    cbn [snd]. eexists. split; [simpl; by rewrite lookup_insert_eq|].
    by apply closed_reconciled.
  - exists s1. by rewrite Heq1.
  - rewrite join_run. destruct (ensure_group_allowed g d); [|by exists s].
    rewrite (ensure_session_exists _ _ _ Hs). by exists s.
  - eexists. split; [by apply drain_session|]. simpl. rewrite Heq1. by apply Hdr.
  - exists s1. by rewrite Heq1.
  - unfold share_file. rewrite Hs. destruct (negb (is_valid_cid cid)); [by exists s|].
    case_match; simpl; [by exists s|]. eexists. split; [by rewrite lookup_insert_eq|].
    simpl. by apply (cc_publish _ HP).
  - eexists. split; [by apply drain_session|]. simpl. rewrite Heq1. by apply Hdr.
  - eexists. split; [by apply drain_session|]. by apply Hdr.
  - rewrite add_seed_run. destruct (map_err _ _) as [sd|]; [|by exists s].
    destruct (negb _); [by exists s|]. rewrite Hs. simpl. eexists.
    split; [by rewrite lookup_insert_eq|]. simpl. by apply (cc_add_peers _ HP).
Qed.

(** Files are never taken off the list but by a [Leave]. *)
Lemma request_files_mono req g d :
  req ≠ Leave g → shared_of g d ⊆ shared_of g (handle_request req d).2.
Proof.
  intros Hreq. destruct (decide (request_group req = g)) as [<-|Hne]; cycle 1.
  { unfold shared_of. by rewrite (frame_shared _ _ _ (frame_request req d)). }
  assert (∀ d, shared_of (request_group req) d
    ⊆ shared_of (request_group req) (drain_into_shared (request_group req) d).2) as Hdrain.
  { intros d'. destruct (groups_f d' !! request_group req) as [s|] eqn:Hs.
    - destruct (drain_into_shared_run _ d' s Hs) as (_ & -> & _). apply fold_insert_mono.
    - unfold drain_into_shared. by rewrite Hs. }
  rewrite handle_request_state.
  destruct req as [g roster links revs|g|g|g|g|g|g cid|g|g o l|g|g text]; simpl in *;
    rewrite ?shared_of_sync; try done.
  - rewrite set_roster_run. destruct (ensure_group_allowed g d); [|done].
    destruct (ensure_session g d) as [[s|e] d'] eqn:E; apply (ensure_files g) in E;
      [|by rewrite <-E]. rewrite <-E. by destruct (updated_state _ _ _ _ _).
  - rewrite join_run. destruct (ensure_group_allowed g d); [|done].
    by destruct (ensure_session g d) as [[s|e] d'] eqn:E; apply (ensure_files g) in E;
      rewrite <-E.
  - by rewrite <-Hdrain, shared_of_sync.
  - unfold share_file. destruct (groups_f d !! g) as [s|]; [|done].
    destruct (negb (is_valid_cid cid)); [done|].
    unfold shared_of. case_match; simpl; rewrite lookup_insert_eq; simpl; set_solver.
  - by rewrite <-Hdrain, shared_of_sync.
  - rewrite add_seed_run. destruct (map_err _ _); [|done]. destruct (negb _); [done|].
    by destruct (groups_f d !! g).
Qed.

(** A request that drains lists what the transport held, unless the list is full. *)
Lemma request_drains req g d s m :
  drains req g = true → groups_f d !! g = Some s → m ∈ (drain (ClusterSession.transport s)).1 →
  is_valid_cid (MeshMessage.data m) = true →
  let set := shared_of g (handle_request req d).2 in
  MeshMessage.data m ∈ set ∨ MAX_SHARED_FILES <= N.of_nat (size set).
Proof.
  intros Hdr Hs Hm Hv. cbv zeta. rewrite handle_request_state.
  assert (∀ d s', groups_f d !! g = Some s' →
    ClusterSession.transport s' = ClusterSession.transport s →
    MeshMessage.data m ∈ shared_of g (drain_into_shared g d).2
    ∨ MAX_SHARED_FILES <= N.of_nat (size (shared_of g (drain_into_shared g d).2))) as Hdrain.
  { intros d' s' Hs' Heq. destruct (drain_into_shared_run g d' s' Hs') as (_ & -> & _).
    apply fold_insert_delivered. apply elem_of_filter_list. by rewrite Heq. }
  destruct (sync_transport g d s Hs) as (s1 & Hs1 & Heq1).
  destruct req; simpl in Hdr; try done; apply bool_decide_eq_true in Hdr as ->;
    [by apply (Hdrain _ s1)|by apply (Hdrain _ s1)|by apply (Hdrain _ s)].
Qed.

End requests.

(** ** What a swarm task does to what is queued and what has arrived *)

Section tasks.
  Context `{!Libp2p, !Crypto}.
  Implicit Types (t : transport).

(** What is queued stays queued until it is published, or gossipsub refuses it. *)
Lemma task_publishes l t t' b :
  task_step l t = Some t' → Publish b ∈ queue t →
  Publish b ∈ queue t' ∨ b ∈ published_since t t'
  ∨ l = TRecv false ∧ ∃ q, queue t = Publish b :: q.
Proof.
  intros Hl Hb. pose proof Hl as (_ & _ & [->|([taken ->] & cmd & Hq)])%task_authorized; [by left|].
  rewrite Hq in Hb. apply elem_of_cons in Hb as [<-|?]; [right|by left].
  unfold task_step in Hl. destruct (mid t); [done|]. rewrite Hq in Hl. injection Hl as <-.
  destruct taken; [left|right; eauto].
  unfold published_since. simpl. rewrite drop_app_length. set_solver.
Qed.

(** What has arrived stays. *)
Lemma task_inbox l t t' m :
  task_step l t = Some t' → m ∈ inbox_s (shared t) → m ∈ inbox_s (shared t').
Proof.
  unfold task_step. destruct (mid t) as [md|].
  { destruct l; try done. intros [= <-]. destruct md as [a|m']; simpl; [done|].
    unfold push_inbox. case_match; simpl; set_solver. }
  assert (∀ t1, traffic t1 = traffic t → m ∈ inbox_s (shared t) → m ∈ inbox_s (shared t1))
    as Htr by by intros t1 [= _ -> _].
  destruct l as [now| |taken|p now|p key|on_topic src data|p|found|gone|addrs|]; try done.
  - intros [= <-]. apply Htr, sweep_traffic.
  - intros [= <-]. apply Htr, redial_traffic.
  - destruct (queue t) as [|cmd q]; [done|]. intros [= <-].
    destruct cmd as [b|a|a| |]; simpl; try done; [by destruct taken|].
    apply Htr. by rewrite drop_all_traffic.
  - intros [= <-]. unfold on_established. by case_decide.
  - case_decide; [|done]. intros [= <-]. unfold on_identify.
    destruct (negb _); simpl; [done|].
    destruct (address_from_public_key key); simpl; [|done]. by case_decide.
  - intros [= <-]. unfold on_message. by repeat case_match.
  - case_decide; [|done]. intros [= <-]. apply Htr, closed_traffic.
  - intros [= <-]. apply Htr, discovered_traffic.
  - intros [= <-]. done.
  - intros [= <-]. done.
Qed.

Lemma closed_queued b : call_closed (λ t : transport, Publish b ∈ queue t).
Proof.
  split; simpl.
  - intros a t Hb. unfold surface_disconnect, disconnect_lock, disconnect_send.
    destruct (canonical_address a); simpl; [set_solver|].
    destruct (unsent t); simpl; set_solver.
  - intros a t Hb. unfold surface_dial. by destruct (canonical_address a).
  - intros _ b' t. set_solver.
  - intros l t. unfold surface_add_peers. destruct (parse_peer_addrs l _) as [mas|]; [|done].
    cbn [snd]. revert t. induction mas as [|a mas IH]; intros t Hb; simpl; [done|].
    apply IH. simpl. set_solver.
Qed.

Lemma closed_arrived m : call_closed (λ t : transport, m ∈ inbox_s (shared t)).
Proof.
  split; simpl.
  - intros a t Hm. unfold surface_disconnect, disconnect_lock, disconnect_send.
    destruct (canonical_address a); simpl; [done|]. by destruct (unsent t).
  - intros a t Hm. unfold surface_dial. by destruct (canonical_address a).
  - done.
  - intros l t. unfold surface_add_peers. destruct (parse_peer_addrs l _) as [mas|]; [|done].
    cbn [snd]. by rewrite fold_dial_multiaddr.
Qed.

(** The message handler is between its two halves, with room for the message. *)
Definition pushing (m : MeshMessage.t) t : Prop :=
  mid t = Some (MidPush m) ∧ N.of_nat (length (inbox_s (shared t))) < MAX_INBOX.

Lemma closed_pushing m : call_closed (pushing m).
Proof.
  split; simpl; unfold pushing.
  - intros a t Hm. unfold surface_disconnect, disconnect_lock, disconnect_send.
    destruct (canonical_address a); simpl; [done|]. by destruct (unsent t).
  - intros a t Hm. unfold surface_dial. by destruct (canonical_address a).
  - done.
  - intros l t. unfold surface_add_peers. destruct (parse_peer_addrs l _) as [mas|]; [|done].
    cbn [snd]. by rewrite fold_dial_multiaddr, (fold_projection mid).
Qed.

End tasks.

(** ** Through the run *)

Section runs.
  Context `{!Libp2p, !Libp2pLaws, !Crypto, !StrDebug}.
  Context (cfg : list NodeConfig).
  Implicit Types (F : Fleet) (l : fleet_label) (g : string).

Definition session_at F (i : nat) g : option (ClusterSession.t transport) :=
  d ← daemons F !! i; groups_f d !! g.

Definition files_at F (i : nat) g : gset string :=
  from_option (shared_of g) ∅ (daemons F !! i).

(** The node's part of the group lasts through these steps. *)
Definition stays (i : nat) g (ls : list fleet_label) : Prop := FRequest i (Leave g) ∉ ls.

(** What a step does to one node's session of one group. *)
Lemma step_keeps (P : transport → Prop) l F F' i g s :
  fleet_step cfg l F = Some F' → l ≠ FRequest i (Leave g) →
  session_at F i g = Some s → P (ClusterSession.transport s) →
  (∀ req, l = FRequest i req →
     call_closed P ∧ (drains req g = true → ∀ t, P t → P (drain t).2)) →
  (∀ tl t', l = FTask i g tl → task_step tl (ClusterSession.transport s) = Some t' → P t') →
  ∃ s', session_at F' i g = Some s' ∧ P (ClusterSession.transport s').
Proof.
  intros Hstep Hl Hs HP Hreq Htask. pose proof Hstep as (d & Hd & HF')%fleet_step_daemons.
  unfold session_at in *. apply bind_Some in Hs as (di & Hdi & Hs).
  destruct (decide ((label_event l).1 = i)) as [Hi|Hne]; cycle 1.
  { exists s. split; [|done]. rewrite HF', list_lookup_insert_ne by done. by rewrite Hdi. }
  rewrite Hi in *. rewrite Hd in Hdi. injection Hdi as <-.
  rewrite HF', list_lookup_insert_eq by (by eapply lookup_lt_Some). simpl.
  destruct l as [i' req|i' g' tl|i' make]; simpl in Hi; subst i'; cbn [label_event snd run_event].
  - destruct (Hreq req eq_refl) as [Hc Hdr]. by apply (request_keeps P req g d s); [..|congruence| |].
  - destruct (decide (g' = g)) as [->|Hne].
    + unfold fleet_step in Hstep. cbn [label_event] in Hstep.
      apply bind_Some in Hstep as (c & _ & (d' & Hd' & Hst)%bind_Some).
      rewrite Hd in Hd'. injection Hd' as <-.
      apply bind_Some in Hst as (s' & Hs' & Ht). rewrite Hs in Hs'. injection Hs' as <-.
      destruct (deliverable _ _ _ _); [|done]. apply bind_Some in Ht as (t' & Ht & _).
      pose proof (task_event g tl d s t' Hs Ht) as Hev. cbn [run_event] in Hev. rewrite Hev.
      eexists. simpl. rewrite lookup_insert_eq. split; [done|]. simpl. by eapply Htask.
    + exists s. simpl. by rewrite lookup_alter_ne.
  - by exists s.
Qed.

Lemma step_session l F F' i g s :
  fleet_step cfg l F = Some F' → l ≠ FRequest i (Leave g) → session_at F i g = Some s →
  ∃ s', session_at F' i g = Some s'.
Proof.
  intros Hstep Hl Hs.
  destruct (step_keeps (λ _, True) l F F' i g s) as (s' & ? & _); [done..| |done|by exists s'].
  intros req _. split; [by split|done].
Qed.

Lemma step_sent l F F' : fleet_step cfg l F = Some F' → ∀ pk, pk ∈ sent F → pk ∈ sent F'.
Proof.
  unfold fleet_step. destruct (label_event l) as [i e].
  intros (c & _ & (d & _ & Hs)%bind_Some)%bind_Some pk Hpk.
  destruct l; try (by injection Hs as <-).
  apply bind_Some in Hs as (s & _ & Hs). destruct (deliverable _ _ _ _); [|done].
  apply bind_Some in Hs as (t' & _ & Hs). injection Hs as <-. simpl. set_solver.
Qed.

(** *** Publishing *)

Definition on_its_way F (j : nat) (c : NodeConfig) g (b : string) : Prop :=
  Packet.mk (node_peer c) g b ∈ sent F
  ∨ ∃ s, session_at F j g = Some s ∧ Publish b ∈ queue (ClusterSession.transport s).

Lemma step_on_its_way l F F' j c g b :
  cfg !! j = Some c → fleet_step cfg l F = Some F' → l ≠ FRequest j (Leave g) →
  on_its_way F j c g b →
  on_its_way F' j c g b
  ∨ l = FTask j g (TRecv false)
    ∧ ∃ s q, session_at F j g = Some s ∧ queue (ClusterSession.transport s) = Publish b :: q.
Proof.
  intros Hc Hstep Hl [Hin|(s & Hs & Hb)]; [left; left; by eapply step_sent|].
  set (refusal := l = FTask j g (TRecv false)
    ∧ ∃ s q, session_at F j g = Some s ∧ queue (ClusterSession.transport s) = Publish b :: q).
  destruct (decide (Packet.mk (node_peer c) g b ∈ sent F')) as [?|Hn]; [by left; left|].
  destruct (step_keeps (λ t, Publish b ∈ queue t ∨ refusal) l F F' j g s) as (s' & Hs' & Hor);
    [done..|by left| | |destruct Hor; [left; right; eauto|by right]].
  - intros req _. split; [|tauto]. pose proof (closed_queued b) as [H1' H2' H3' H4'].
    split; intros; (destruct_or!; [left; eauto|by right]).
  - intros tl t' -> Ht. destruct (task_publishes _ _ _ _ Ht Hb) as [?|[Hp|(-> & q & Hq)]];
      [by left| |right; split; [done|eauto]].
    exfalso. apply Hn. unfold fleet_step in Hstep. cbn [label_event] in Hstep.
    rewrite Hc in Hstep. simpl in Hstep. unfold session_at in Hs.
    apply bind_Some in Hs as (d & Hd & Hs). rewrite Hd in Hstep. simpl in Hstep.
    rewrite Hs in Hstep. simpl in Hstep. destruct (deliverable _ _ _ _); [|done].
    rewrite Ht in Hstep. simpl in Hstep. injection Hstep as <-. simpl.
    apply elem_of_app. right. unfold packets. apply list_elem_of_In, in_map.
    by apply list_elem_of_In.
Qed.

(** *** Arriving *)

Definition arrived F (i : nat) g (m : MeshMessage.t) : Prop :=
  ∃ s, session_at F i g = Some s
    ∧ (m ∈ inbox_s (SwarmLoop.shared (ClusterSession.transport s))
       ∨ MeshMessage.data m ∈ files_at F i g
       ∨ MAX_SHARED_FILES <= N.of_nat (size (files_at F i g))).

Lemma files_at_step l F F' i g :
  fleet_step cfg l F = Some F' → l ≠ FRequest i (Leave g) → files_at F i g ⊆ files_at F' i g.
Proof.
  intros (d & Hd & HF')%fleet_step_daemons Hl. unfold files_at. rewrite HF'.
  destruct (decide ((label_event l).1 = i)) as [Hi|Hne];
    [|by rewrite list_lookup_insert_ne by done].
  rewrite Hi in *. rewrite Hd, list_lookup_insert_eq by (by eapply lookup_lt_Some). simpl.
  destruct l as [i' req|i' g' tl|i' make]; simpl in *; try done. subst i'.
  apply request_files_mono. congruence.
Qed.

Definition draining (l : fleet_label) (i : nat) g : bool :=
  match l with FRequest j req => (j =? i)%nat && drains req g | _ => false end.

Lemma step_drains l F F' i g s m :
  fleet_step cfg l F = Some F' → draining l i g = true → session_at F i g = Some s →
  m ∈ inbox_s (SwarmLoop.shared (ClusterSession.transport s)) →
  is_valid_cid (MeshMessage.data m) = true →
  MeshMessage.data m ∈ files_at F' i g
  ∨ MAX_SHARED_FILES <= N.of_nat (size (files_at F' i g)).
Proof.
  intros (d & Hd & HF')%fleet_step_daemons Hdr Hs Hm Hv.
  destruct l as [j req| |]; try done. simpl in *.
  apply andb_true_iff in Hdr as [->%Nat.eqb_eq Hdr].
  unfold session_at in Hs. apply bind_Some in Hs as (d' & Hd' & Hs).
  rewrite Hd in Hd'. injection Hd' as <-.
  unfold files_at. rewrite HF', list_lookup_insert_eq by (by eapply lookup_lt_Some). simpl.
  by apply (request_drains req g d s).
Qed.

Lemma step_arrived l F F' i g m :
  fleet_step cfg l F = Some F' → l ≠ FRequest i (Leave g) →
  is_valid_cid (MeshMessage.data m) = true → arrived F i g m → arrived F' i g m.
Proof.
  intros Hstep Hl Hv (s & Hs & Hor).
  pose proof (files_at_step l F F' i g Hstep Hl) as Hsub.
  assert (size (files_at F i g) ≤ size (files_at F' i g))%nat as Hsize
    by by apply subseteq_size.
  destruct (step_session l F F' i g s) as (s' & Hs'); [done..|].
  destruct Hor as [Hm|Hor]; cycle 1.
  { exists s'. split; [done|right]. destruct Hor as [?|?]; [left; set_solver|right; lia]. }
  destruct (draining l i g) eqn:Hdr.
  { exists s'. split; [done|right]. by eapply step_drains. }
  destruct (step_keeps (λ t, m ∈ inbox_s (SwarmLoop.shared t)) l F F' i g s)
    as (s1 & Hs1 & Hm1); try done; [..|exists s1; by split; [|left]].
  - intros req ->. split; [apply closed_arrived|]. simpl in Hdr.
    rewrite Nat.eqb_refl in Hdr. simpl in Hdr. congruence.
  - intros tl t' _ Ht. by eapply task_inbox.
Qed.

(** A property that steps of a kind keep is kept through a run of them. *)
Lemma continue_keeps (Q : Fleet → Prop) (allowed : fleet_label → Prop) ls F F' :
  (∀ l F F', fleet_step cfg l F = Some F' → allowed l → Q F → Q F') →
  fleet_continue cfg ls F = Some F' → (∀ l, l ∈ ls → allowed l) → Q F → Q F'.
Proof.
  intros HQ. revert F'. induction ls as [|l ls IH] using rev_ind; intros F' Hc Hst HF.
  { by injection Hc as <-. }
  apply fleet_continue_snoc in Hc as (F1 & Hc & Hl).
  eapply HQ; [exact Hl|apply Hst; set_solver|]. apply IH; [done| |done].
  intros l' Hl'. apply Hst. set_solver.
Qed.

(** *** Delivering *)

(** The message handler lets the packet in: it is delivered and the peer is linked. *)
Lemma deliver_pushes F i g s p a cid :
  session_at F i g = Some s → mid (ClusterSession.transport s) = None →
  peer_addr (ClusterSession.transport s) !! p = Some a →
  a ∈ authorized_s (SwarmLoop.shared (ClusterSession.transport s)) →
  accept_payload cid = Some cid → 
  task_step (TMessage true (Some p) cid) (ClusterSession.transport s)
  = Some (set_mid (Some (MidPush {| MeshMessage.from := a; MeshMessage.data := cid |}))
            (ClusterSession.transport s)).
Proof.
  intros _ Hm Ha Hau Hacc. unfold task_step. rewrite Hm. unfold on_message. cbn [negb].
  rewrite Ha, decide_True by done. by rewrite Hacc.
Qed.

(** What a step of a swarm task that the network has made did. *)
Lemma task_made F F' i g tl s :
  fleet_step cfg (FTask i g tl) F = Some F' → session_at F i g = Some s →
  ∃ t', task_step tl (ClusterSession.transport s) = Some t'
    ∧ session_at F' i g = Some (ClusterSession.transport_mut (λ _, t') s).
Proof.
  intros Hstep Hs. pose proof Hstep as (d & Hd & HF')%fleet_step_daemons.
  cbn [label_event fst snd] in *. unfold session_at in *. rewrite Hd in Hs. simpl in Hs.
  unfold fleet_step in Hstep. cbn [label_event] in Hstep.
  apply bind_Some in Hstep as (c & _ & (d' & Hd' & Hst)%bind_Some).
  rewrite Hd in Hd'. injection Hd' as <-. apply bind_Some in Hst as (s' & Hs' & Ht).
  rewrite Hs in Hs'. injection Hs' as <-. destruct (deliverable _ _ _ _); [|done].
  apply bind_Some in Ht as (t' & Ht & _). exists t'. split; [done|].
  rewrite HF', (task_event g tl d s t' Hs Ht), list_lookup_insert_eq
    by (by eapply lookup_lt_Some).
  simpl. by rewrite lookup_insert_eq.
Qed.

End runs.

(** ** Theorems *)

Section theorems.
  Context `{!Libp2p, !Libp2pLaws, !Crypto, !StrDebug}.
  Context (cfg : list NodeConfig).

Lemma share_accepted g cid (d : ClusterDaemon.t transport) :
  (handle_request (ShareFile g cid) d).1 = Response.Ok →
  is_valid_cid cid = true
  ∧ ∃ s, groups_f (handle_request (ShareFile g cid) d).2 !! g = Some s
      ∧ Publish cid ∈ queue (ClusterSession.transport s).
Proof.
  rewrite handle_request_state. cbn [handle_request]. unfold respond, share_file.
  destruct (groups_f d !! g) as [s|] eqn:Hs; [|done].
  destruct (is_valid_cid cid) eqn:Hv; [|done]. cbn [negb].
  destruct (negb _ && _); [done|]. intros _. split; [done|]. simpl. rewrite lookup_insert_eq. eexists. split; [done|]. simpl. set_solver.
Qed.

(** The swarm task took the command to publish [cid], and gossipsub refused it. *)
Definition refused F0 ls (j : nat) g cid : Prop :=
  ∃ la lb F s q, ls = la ++ FTask j g (TRecv false) :: lb
    ∧ fleet_continue cfg la F0 = Some F ∧ session_at F j g = Some s
    ∧ queue (ClusterSession.transport s) = Publish cid :: q.

(** An accepted share is on its way, and stays so until it is published or refused. *)
Lemma shared_file_published F0 F1 j cj d0 g cid ls1 :
  cfg !! j = Some cj → daemons F0 !! j = Some d0 →
  (handle_request (ShareFile g cid) d0).1 = Response.Ok →
  fleet_continue cfg (FRequest j (ShareFile g cid) :: ls1) F0 = Some F1 → stays j g ls1 →
  on_its_way F1 j cj g cid ∨ refused F0 (FRequest j (ShareFile g cid) :: ls1) j g cid.
Proof.
  intros Hcj Hd0 [_ (s & Hs & Hq)]%share_accepted.
  set (share := FRequest j (ShareFile g cid)).
  revert F1. induction ls1 as [|l ls1 IH] using rev_ind; intros F1 Hrun Hst.
  - left. right. exists s. split; [|done]. unfold fleet_continue in Hrun.
    cbn [fold_left mbind option_bind] in Hrun.
    pose proof Hrun as (d & Hd & HFd)%fleet_step_daemons.
    cbn [label_event fst snd run_event share] in *. rewrite Hd0 in Hd. injection Hd as <-.
    unfold session_at. rewrite HFd, list_lookup_insert_eq by (by eapply lookup_lt_Some). done.
  - unfold stays in *. rewrite app_comm_cons in Hrun |- *.
    apply fleet_continue_snoc in Hrun as (F & HF & Hl).
    destruct (IH F HF) as [Hway|(la & lb & Fa & sa & q & Heq & Hrest)]; [set_solver| |].
    + destruct (step_on_its_way cfg l F F1 j cj g cid Hcj Hl) as [?|(-> & sq & q & Hsq & Hq')];
        [set_solver|done|by left|right].
      by exists (share :: ls1), [], F, sq, q.
    + right. exists la, (lb ++ [l]), Fa, sa, q. by rewrite Heq, <-app_assoc.
Qed.

(** The two critical sections of the message handler put a delivered file in the inbox,
    whatever happens between them. *)
Lemma delivery_arrives F F' i g s p a cid ls :
  session_at F i g = Some s →
  let t := ClusterSession.transport s in
  peer_addr t !! p = Some a → a ∈ authorized_s (SwarmLoop.shared t) →
  N.of_nat (length (inbox_s (SwarmLoop.shared t))) < MAX_INBOX → is_valid_cid cid = true →
  fleet_continue cfg (FTask i g (TMessage true (Some p) cid) :: ls ++ [FTask i g TMid]) F
    = Some F' →
  stays i g ls → FTask i g TMid ∉ ls →
  ∃ s', session_at F' i g = Some s'
    ∧ {| MeshMessage.from := a; MeshMessage.data := cid |}
        ∈ inbox_s (SwarmLoop.shared (ClusterSession.transport s')).
Proof.
  intros Hs t Ha Hau Hroom Hv Hrun Hst Hmid.
  set (m := {| MeshMessage.from := a; MeshMessage.data := cid |}).
  rewrite app_comm_cons in Hrun. apply fleet_continue_snoc in Hrun as (F2 & Hrun & Hlast).
  change (FTask i g (TMessage true (Some p) cid) :: ls)
    with ([FTask i g (TMessage true (Some p) cid)] ++ ls) in Hrun.
  rewrite fleet_continue_app in Hrun. apply bind_Some in Hrun as (F1 & HF1 & Hrun).
  unfold fleet_continue in HF1. cbn [fold_left mbind option_bind] in HF1.
  destruct (task_made cfg _ _ _ _ _ _ HF1 Hs) as (t1 & Ht1 & Hs1).
  assert (accept_payload cid = Some cid) as Hacc
    by (unfold accept_payload; by rewrite cid_utf8, Hv).
  assert (mid (ClusterSession.transport s) = None) as Hm
    by (unfold task_step in Ht1; by destruct (mid (ClusterSession.transport s))).
  rewrite (deliver_pushes F i g s p a cid Hs Hm Ha Hau Hacc) in Ht1. injection Ht1 as <-.
  assert (∃ s2, session_at F2 i g = Some s2 ∧ pushing m (ClusterSession.transport s2))
    as (s2 & Hs2 & Hm2 & Hroom2).
  { apply (continue_keeps cfg (λ F, ∃ s2, session_at F i g = Some s2
      ∧ pushing m (ClusterSession.transport s2))
      (λ l, l ≠ FRequest i (Leave g) ∧ l ≠ FTask i g TMid) ls F1 F2); [|done| |by eexists].
    - intros l Fa Fb Hl [Hno Hnm] (sa & Hsa & Hpu). apply (step_keeps cfg _ l Fa Fb i g sa); try done.
      + intros req _. split; [apply closed_pushing|]. intros _ t2 [Hp _]. split; [done|]. simpl.
        unfold MAX_INBOX. lia.
      + intros tl t2 -> Ht2. unfold task_step in Ht2. rewrite (proj1 Hpu) in Ht2.
        by destruct tl.
    - intros l Hl. split; intros ->; done. }
  destruct (task_made cfg _ _ _ _ _ _ Hlast Hs2) as (t3 & Ht3 & Hs3). eexists. split; [exact Hs3|].
  unfold task_step in Ht3. rewrite Hm2 in Ht3. injection Ht3 as <-. simpl. unfold push_inbox.
  rewrite (proj2 (N.leb_gt _ _)) by done. simpl. set_solver.
Qed.

(** What has arrived is in the next answer. *)
Lemma arrived_reported F i g d m :
  arrived F i g m → daemons F !! i = Some d → is_valid_cid (MeshMessage.data m) = true →
  let files := files_of (handle_request (Status g) d).1 in
  MeshMessage.data m ∈ files ∨ MAX_SHARED_FILES <= N.of_nat (length files).
Proof.
  intros (s & Hs & Hor) Hd Hv. cbv zeta. unfold session_at in Hs. rewrite Hd in Hs. simpl in Hs.
  unfold files_at in Hor. rewrite Hd in Hor. simpl in Hor.
  set (d' := (drain_into_shared g (sync_admission g d)).2).
  assert (∃ s', groups_f d' !! g = Some s') as (s' & Hs').
  { destruct (sync_transport g d s Hs) as (s1 & Hs1 & _). eexists. by apply drain_session. }
  assert (files_of (handle_request (Status g) d).1 = set_iter (shared_of g d')) as ->.
  { simpl. unfold status. cbv zeta. fold d'. rewrite Hs'. unfold shared_of. simpl.
    destruct (shared_files d' !! g); [done|]. simpl. by vm_compute. }
  rewrite length_set_iter, elem_of_set_iter.
  assert (d' = (handle_request (Status g) d).2) as -> by by rewrite handle_request_state.
  destruct Hor as [Hm|Hor].
  - apply (request_drains (Status g) g d s); [simpl; by apply bool_decide_eq_true|done..].
  - assert (shared_of g d ⊆ shared_of g (handle_request (Status g) d).2) as Hsub
      by by apply request_files_mono.
    destruct Hor as [?|Hfull]; [left; set_solver|right].
    apply subseteq_size in Hsub. lia.
Qed.

(** C17: A shared file arrives: once a node accepts [ShareFile] and its swarm task has taken
    its queue, whatever else happened meanwhile, the file has been published, or gossipsub
    refused this publication when the task handed it over (it is then lost, as the code
    leaves a retry to the client). And when the network delivers it to a node linked to the
    publisher (identified, authorised) with room in its inbox, it is, as soon as the message
    handler is through and whatever happened inside it, in the next [Poll] with the sender's
    address, and after anything short of leaving the group it is in every [Status], or the
    list is full. *)
Theorem shared_file_arrives F0 ls1 F1 i j cj d0 s g cid a :
  cfg !! j = Some cj → daemons F0 !! j = Some d0 →
  (handle_request (ShareFile g cid) d0).1 = Response.Ok →
  let share := FRequest j (ShareFile g cid) in
  fleet_continue cfg (share :: ls1) F0 = Some F1 → stays j g ls1 →
  (∀ sj, session_at F1 j g = Some sj → queue (ClusterSession.transport sj) = []) →
  session_at F1 i g = Some s →
  let t := ClusterSession.transport s in
  peer_addr t !! node_peer cj = Some a → a ∈ authorized_s (SwarmLoop.shared t) →
  N.of_nat (length (inbox_s (SwarmLoop.shared t))) < MAX_INBOX →
  let m := {| MeshMessage.from := a; MeshMessage.data := cid |} in
  let delivered := FTask i g (TMessage true (Some (node_peer cj)) cid) in
  (Packet.mk (node_peer cj) g cid ∈ sent F1 ∨ refused F0 (share :: ls1) j g cid)
  ∧ ∀ ls2 F2, fleet_continue cfg (delivered :: ls2 ++ [FTask i g TMid]) F1 = Some F2 →
      stays i g ls2 → FTask i g TMid ∉ ls2 →
      (∀ d2, daemons F2 !! i = Some d2 → m ∈ messages_of (handle_request (Poll g) d2).1)
      ∧ ∀ ls3 F3 d3, fleet_continue cfg ls3 F2 = Some F3 → stays i g ls3 →
          daemons F3 !! i = Some d3 →
          let files := files_of (handle_request (Status g) d3).1 in
          cid ∈ files ∨ MAX_SHARED_FILES <= N.of_nat (length files).
Proof.
  intros Hcj Hd0 Hok share Hrun Hst Hq Hs t Ha Hau Hroom m delivered.
  pose proof (shared_file_published F0 F1 j cj d0 g cid ls1 Hcj Hd0 Hok Hrun Hst) as Hway.
  apply share_accepted in Hok as [Hv _]. split.
  { destruct Hway as [[?|(sj & Hsj & Hin)]|?]; [by left| |by right].
    rewrite (Hq _ Hsj) in Hin. set_solver. }
  intros ls2 F2 HF2 Hst2 Hmid2.
  destruct (delivery_arrives F1 F2 i g s (node_peer cj) a cid ls2) as (s2 & Hs2 & Hm2); try done.
  split.
  - intros d2 Hd2. unfold session_at in Hs2. rewrite Hd2 in Hs2. simpl in Hs2. simpl.
    unfold poll. pose proof (sync_session g d2 s2 Hs2) as Hs3.
    destruct (drain_into_shared_run g _ _ Hs3) as (Hms & _).
    destruct (drain_into_shared g (sync_admission g d2)) as [ms d']. simpl in *. rewrite Hms.
    apply elem_of_filter_list. done.
  - intros ls3 F3 d3 HF3 Hst3 Hd3. apply (arrived_reported F3 i g d3 m); [|done..].
    assert (arrived F2 i g m) as HF2a by (exists s2; by split; [|left]).
    revert HF2a. apply (continue_keeps cfg (λ F, arrived F i g m) (λ l, l ≠ FRequest i (Leave g))
      ls3); [|done|by intros l Hl ->].
    intros l F F' Hstep Hl. by apply (step_arrived cfg l).
Qed.

End theorems.

(** The second node's session when the first has published. *)
Module ExampleDelivery.

#[local] Instance crypto : Crypto := ExampleFleet.crypto.
#[local] Instance debug : StrDebug := ExampleFleet.debug.
#[local] Instance libp2p : Libp2p := ExampleFleet.libp2p.

Definition published_fleet : Fleet :=
  ExampleFleet.run_of (ExampleFleet.meeting ++ ExampleFleet.sharing).

Definition second : ClusterSession.t transport :=
  default (ClusterSession.new [] (new_transport [] "me"))
    (session_at published_fleet 1 "g").

Lemma second_at : session_at published_fleet 1 "g" = Some second.
Proof. apply some_default, (bool_decide_eq_true_1 _). vm_compute. reflexivity. Qed.

Lemma first_met : daemons ExampleFleet.met !! 0%nat = Some (ExampleFleet.daemon_of ExampleFleet.met 0).
Proof. apply some_default, (bool_decide_eq_true_1 _). vm_compute. reflexivity. Qed.

Lemma first_shares :
  fleet_continue ExampleFleet.cfg ExampleFleet.sharing ExampleFleet.met = Some published_fleet.
Proof.
  assert (fleet_run ExampleFleet.cfg ExampleFleet.meeting = Some ExampleFleet.met) as Hmet.
  { apply some_default, (bool_decide_eq_true_1 _). vm_compute. reflexivity. }
  assert (fleet_run ExampleFleet.cfg (ExampleFleet.meeting ++ ExampleFleet.sharing)
    = Some published_fleet) as Hpub.
  { apply some_default, (bool_decide_eq_true_1 _). vm_compute. reflexivity. }
  exact (fleet_run_rest _ _ _ _ _ Hmet Hpub).
Qed.

Lemma second_told :
  fleet_continue ExampleFleet.cfg ExampleFleet.delivery published_fleet
  = Some ExampleFleet.told.
Proof.
  assert (fleet_run ExampleFleet.cfg (ExampleFleet.meeting ++ ExampleFleet.sharing)
    = Some published_fleet) as Hpub.
  { apply some_default, (bool_decide_eq_true_1 _). vm_compute. reflexivity. }
  exact (fleet_run_rest _ (_ ++ _) _ _ _ Hpub ExampleFleet.told_run).
Qed.

Lemma first_quiet sj :
  session_at published_fleet 0 "g" = Some sj → queue (ClusterSession.transport sj) = [].
Proof.
  assert (forallb (λ s, bool_decide (length (queue (ClusterSession.transport s)) = O))
    (option_list (session_at published_fleet 0 "g")) = true) as Hq
    by (vm_compute; reflexivity).
  intros Hs. rewrite Hs in Hq. simpl in Hq. apply andb_true_iff in Hq as [Hq _].
  apply bool_decide_eq_true in Hq. by apply length_zero_iff_nil.
Qed.

End ExampleDelivery.

Lemma shared_file_arrives_witness :
  {| MeshMessage.from := ExampleFleet.A; MeshMessage.data := ExampleFleet.cid |}
    ∈ messages_of (handle_request (H:=ExampleFleet.crypto) (H0:=ExampleFleet.debug) (Poll "g")
        (ExampleFleet.daemon_of ExampleFleet.told 1)).1.
Proof.
  destruct (shared_file_arrives (H:=ExampleFleet.libp2p)
    (H0:=ExampleFleet.laws) (H1:=ExampleFleet.crypto) (H2:=ExampleFleet.debug)
    ExampleFleet.cfg ExampleFleet.met
    [FTask 0 "g" (TRecv true)] ExampleDelivery.published_fleet 1 0
    (ExampleFleet.node ExampleFleet.KA)
    (ExampleFleet.daemon_of ExampleFleet.met 0) ExampleDelivery.second "g"
    ExampleFleet.cid ExampleFleet.A eq_refl ExampleDelivery.first_met) as [_ Hdelivered].
  - vm_compute. reflexivity.
  - exact ExampleDelivery.first_shares.
  - intros Hin. apply list_elem_of_singleton in Hin. discriminate Hin.
  - exact ExampleDelivery.first_quiet.
  - exact ExampleDelivery.second_at.
  - apply (bool_decide_eq_true_1 _). vm_compute. reflexivity.
  - apply (bool_decide_eq_true_1 _). vm_compute. reflexivity.
  - vm_compute. reflexivity.
  - apply (proj1 (Hdelivered [] ExampleFleet.told ExampleDelivery.second_told
      (not_elem_of_nil _) (not_elem_of_nil _))).
    exact ExampleFleet.told_second.
Defined.
