(* ===== verification/Eviction.v ===== *)
(** * An evicted peer is silent

    From the request that leaves a peer out to what any later request answers: the gate, the
    swarm task and the drain together. A node keeps nothing new of an evicted peer, whatever
    the network delivers in its name. *)

From S2P Require Import Prelude RustStr Admission Membership Session Seed Device Registry.
From S2P Require Import EffectiveRoster Transport DeviceWire Daemon Ipc DaemonInv.
From S2P Require Import DaemonSafety Swarm SwarmLoop SwarmInv SwarmSafety System Fleet.
From S2P Require Import FleetSafety.
Import ClusterMembership ClusterDaemon.
Local Open Scope N_scope.

(** ** What a daemon knows of an address *)

Section unknown.
  Context {T : Type} `{!MeshTransport T, !MeshView T, !MeshTransportLaws T}.
  Context `{!Crypto, !StrDebug}.
  Implicit Types d : ClusterDaemon.t T.

(** Neither the group's roster nor a link of its registry has the address. *)
Definition unknown (g a : string) d : Prop :=
  ∀ gd, device_state d !! g = Some gd →
    ¬ on_roster (GroupDevices.roster gd) a
    ∧ DeviceRegistry.links_f (GroupDevices.registry gd) !! a = None.

(** Who is unknown is not allowed. *)
Lemma unknown_not_allowed g a d : daemon_inv d → unknown g a d → a ∉ allowed_at g d.
Proof.
  intros Hi Hn Ha. unfold allowed_at in Ha.
  destruct (groups_f d !! g) as [s|] eqn:Hs; [|set_solver]. simpl in Ha.
  apply (inv_session _ Hi) in Hs as (_ & _ & [Hal|(gd & Hgd & Hal)]); rewrite Hal in Ha;
    [set_solver|].
  destruct (Hn _ Hgd) as [Hr Hl].
  apply allowed_effective in Ha as [[Hin _]|(l & Hin & _)]; [|by rewrite Hl in Hin|].
  - apply Hr. apply elem_of_allowed_set in Hin as (x & r & Hx & _ & Hc). by exists x, r.
  - by apply (inv_registry _ Hi g).
Qed.

(** The state after an update that does not name the address: it stays unknown; the links of
    an update the registry takes replace the old ones, so they need not have been without it. *)
Lemma updated_unknown g roster links revs d a :
  ¬ request_names (SetRoster g roster links revs) g a →
  fits (map DeviceLinkWire.into links) (map RevocationWire.into revs) ∨ unknown g a d →
  let gd := (updated_state g roster links revs d).2 in
  ¬ on_roster (GroupDevices.roster gd) a
  ∧ DeviceRegistry.links_f (GroupDevices.registry gd) !! a = None.
Proof.
  intros Hnot Hor gd. split.
  - intros (x & r & Hx & Hc). apply Hnot. split; [done|]. left. by exists x, r.
  - apply eq_None_not_Some. intros [l Hl]. apply Hnot. split; [done|]. right.
    unfold gd, updated_state in Hl. cbn [snd GroupDevices.registry] in Hl.
    destruct Hor as [Hf|Hu]; [by eapply update_link_sent|].
    apply update_link_named in Hl as [Hl|?]; [|done]. exfalso.
    destruct (device_state d !! g) as [gd0|] eqn:E; simpl in Hl.
    + by rewrite (proj2 (Hu _ E)) in Hl.
    + by rewrite lookup_empty in Hl.
Qed.

Lemma unknown_event e g a d :
  (∀ req, e = EvRequest req → ¬ request_names req g a) →
  unknown g a d → unknown g a (run_event e d).
Proof.
  intros He Hu gd. destruct (event_devices e d) as [(g0 & roster & links & revs & ->)|Heq];
    [|rewrite Heq; apply Hu].
  cbn [run_event]. rewrite handle_request_state.
  destruct (set_roster_devices g0 roster links revs d g) as [Heq|[<- Heq]]; rewrite Heq;
    [apply Hu|].
  intros [= <-]. apply updated_unknown; [by apply He|by right].
Qed.
End unknown.

(** ** What a transport holds of an address *)

Section silence.
  Context `{!Libp2p, !Libp2pLaws, !Crypto, !StrDebug}.
  Implicit Types (d : ClusterDaemon.t transport) (t : transport) (m : MeshMessage.t).
  Context (g a : string) (W : MeshMessage.t → Prop).

(** Of the messages of [a], the transport of [g] holds only some of [W]. *)
Definition silent (g' : string) t : Prop :=
  g' = g → ∀ m, holds t m → MeshMessage.from m = a → W m.

Lemma silent_held g' t t' :
  inbox_s (shared t') = inbox_s (shared t) → mid t' = mid t → silent g' t → silent g' t'.
Proof. unfold silent, holds. by intros -> ->. Qed.

Lemma silent_dial g' b t : silent g' t → silent g' (surface_dial b t).
Proof. apply silent_held; unfold surface_dial; by destruct (canonical_address b). Qed.

Lemma silent_disconnect g' b t : silent g' t → silent g' (surface_disconnect b t).
Proof.
  apply silent_held; unfold surface_disconnect, disconnect_lock, disconnect_send;
    destruct (canonical_address b); try done; by destruct (unsent t).
Qed.

Lemma silent_drain g' t : silent g' t → silent g' (surface_drain t).2.
Proof.
  intros Ht Hg m [Hm|Hm]; [simpl in Hm; set_solver|]. apply Ht; [done|by right].
Qed.

Lemma silent_add_peers g' l t : silent g' t → silent g' (surface_add_peers l t).2.
Proof.
  apply silent_held; unfold surface_add_peers; (destruct (parse_peer_addrs l _); [|done]);
    cbn [snd]; by rewrite ?fold_dial_multiaddr, ?(fold_projection mid).
Qed.

Lemma silent_new g' boot local : silent g' (new_transport boot local).
Proof. intros _ m [Hm|Hm]; [simpl in Hm; set_solver|done]. Qed.

Lemma silent_fresh (mk : string → result transport string) g' t :
  builds_fresh mk → mk g' = Ok t → silent g' t.
Proof. intros Hmk Ht. destruct (Hmk _ _ Ht) as (boot & local & ->). apply silent_new. Qed.

(** The swarm task takes in nothing of an address that is not authorised. *)
Lemma silent_tasks ls t :
  a ∉ authorized_s (shared t) → silent g t → silent g (run (map inr ls) t).
Proof.
  unfold run. revert t. induction ls as [|l ls IH]; intros t Ha Ht; simpl; [done|].
  destruct (task_step l t) as [t'|] eqn:E; simpl; [|by apply IH].
  pose proof (task_authorized l t t' E) as (Hau & _). apply IH; [by rewrite Hau|].
  intros _ m Hm Hf. destruct (task_holds _ _ _ _ E Hm) as [?|(_ & _ & _ & Hin)]; [by apply Ht|].
  rewrite Hf in Hin. done.
Qed.

(** Requests, hooks and a new factory keep it; a network event needs the gate. *)
Lemma silent_keeps e d :
  event_keeps silent (λ _ _, True) e → all_transports silent d →
  all_transports silent (run_event e d).
Proof.
  intros He Hd. apply (all_event silent (λ _ _, True)); [..|done|done]; simpl;
    eauto using silent_dial, silent_disconnect, silent_add_peers. apply silent_drain.
Qed.

Lemma silent_run_event e d :
  daemon_inv d → unknown g a d → events_ok [e] →
  all_transports silent d → all_transports silent (run_event e d).
Proof.
  intros Hi Hu [He _]%Forall_cons Hd.
  destruct e as [req| | |g' f|mk]; try (apply silent_keeps; [simpl; by try destruct req|done]).
  - destruct Hd as [Hg Hmk]. split; [|exact Hmk]. intros g2 s2. simpl.
    destruct (decide (g' = g2)) as [<-|]; [|rewrite lookup_alter_ne by done; apply Hg].
    rewrite lookup_alter_eq. destruct (groups_f d !! g') as [s|] eqn:E; [|done].
    intros [= <-]. simpl. destruct (He (ClusterSession.transport s)) as [ls ->].
    intros ->. apply silent_tasks; [|by apply Hg|done].
    intros Ha. apply (unknown_not_allowed _ _ _ Hi Hu). rewrite (allowed_found _ _ _ E).
    by apply (inv_session _ Hi) in E as [Hau _]; apply Hau.
  - apply silent_keeps; [|done]. intros g' t. by apply silent_fresh.
Qed.

Lemma silent_run_events es d :
  daemon_inv d → unknown g a d → all_transports silent d → events_ok es →
  (∀ req, EvRequest req ∈ es → ¬ request_names req g a) →
  let d' := run_events es d in
  daemon_inv d' ∧ unknown g a d' ∧ all_transports silent d'.
Proof.
  unfold run_events. revert d. induction es as [|e es IH]; intros d Hi Hu Hd Hes Hn; [done|].
  apply Forall_cons in Hes as [He Hes]. simpl. apply IH; [| | |done|].
  - apply inv_event; [|done].
    by destruct (events_ok_inv [e]) as [[? _]%Forall_cons _]; [constructor|].
  - apply unknown_event; [|done]. intros req ->. apply Hn. by left.
  - apply silent_run_event; [done..| |done]. by constructor.
  - intros req Hreq. apply Hn. by right.
Qed.
End silence.

(** ** Theorems *)

Section theorems.
  Context `{!Libp2p, !Libp2pLaws, !Crypto, !StrDebug}.

(** What a reachable daemon's factory gives is new. *)
Lemma factory_fresh address pinned (mk : string → result transport string) es :
  builds_fresh mk → events_ok es →
  builds_fresh (make_transport (run_events es (built address pinned mk))).
Proof.
  intros Hmk Hes. induction es as [|e es IH] using rev_ind; [by destruct pinned|].
  apply Forall_app in Hes as [Hes [He _]%Forall_cons]. unfold run_events.
  rewrite fold_left_app. fold (run_events es (built address pinned mk)). cbn [fold_left].
  set (d := run_events es _) in *. destruct (event_group e) as [g|] eqn:Eg.
  - rewrite (frame_factory _ _ _ (frame_event e g d Eg)). by apply IH.
  - by destruct e.
Qed.

(** A request that is taken and does not name [a] makes it unknown. *)
Lemma set_roster_forgets g roster links revs a (d : ClusterDaemon.t transport) out :
  ¬ request_names (SetRoster g roster links revs) g a →
  fits (map DeviceLinkWire.into links) (map RevocationWire.into revs) →
  (set_roster_with_devices g roster links revs d).1 = Ok out →
  unknown g a (set_roster_with_devices g roster links revs d).2.
Proof.
  intros Hn Hf. rewrite set_roster_run. destruct (ensure_group_allowed g d); [|done].
  destruct (ensure_session g d) as [[s|e] d'] eqn:E; [|done].
  pose proof (updated_unknown g roster links revs d' a Hn (or_introl Hf)) as Hu.
  destruct (updated_state g roster links revs d') as [rj st]. intros _ gd. simpl.
  rewrite lookup_insert_eq. by intros [= <-].
Qed.

(** C11: An evicted peer is silent: once a daemon over the libp2p mesh has answered a SetRoster
    that its registry could take and that does not name an address, neither on the roster nor
    as a device, and until a later SetRoster of the group names it: whatever clients ask and
    whatever the network delivers, connections of the old peer included, the group neither
    allows nor authorises the address, and every message of it that an answer hands out had
    been received before that request. *)
Theorem evicted_peer_is_silent (address : string) (pinned : option string)
    (mk : string → result transport string) (es1 es2 : list (event transport))
    (g : string) (roster : list (string * string)) (links : list DeviceLinkWire.t)
    (revs : list RevocationWire.t) (evicted rejected : list string) (a : string)
    (req : Request) :
  builds_fresh mk → events_ok es1 → events_ok es2 →
  let d0 := run_events es1 (built address pinned mk) in
  let set_roster := SetRoster g roster links revs in
  (handle_request set_roster d0).1 = Response.Reconciled evicted rejected →
  fits (map DeviceLinkWire.into links) (map RevocationWire.into revs) →
  ¬ request_names set_roster g a →
  (∀ req', EvRequest req' ∈ es2 → ¬ request_names req' g a) →
  request_group req = g →
  let d := run_events es2 (handle_request set_roster d0).2 in
  (a ∉ allowed_at g d)
  ∧ (∀ s, groups_f d !! g = Some s → a ∉ authorized (ClusterSession.transport s))
  ∧ ∀ m, m ∈ messages_of (handle_request req d).1 → MeshMessage.from m = a →
      ∃ s0, groups_f d0 !! g = Some s0 ∧ holds (ClusterSession.transport s0) m.
Proof.
  intros Hmk Hes1 Hes2 d0 set_roster Hok Hf Hn Hlater Hg d.
  set (W m := ∃ s0, groups_f d0 !! g = Some s0 ∧ holds (ClusterSession.transport s0) m).
  assert (daemon_inv d0) as Hi0.
  { apply inv_reachable; [|by apply events_ok_inv]. intros g' t. by apply builds_fresh_authorized. }
  assert (all_transports (silent g a W) d0) as Hd0.
  { split; [intros g' s0 Hs -> m Hm _; by exists s0|]. intros g' t Ht.
    by eapply (silent_fresh g a W (make_transport d0)); [apply factory_fresh|]. }
  assert (unknown g a (run_event (EvRequest set_roster) d0)) as Hu.
  { cbn [run_event]. rewrite handle_request_state. revert Hok. simpl. unfold respond.
    destruct (set_roster_with_devices g roster links revs d0) as [[out|e] d1] eqn:E; [|done].
    intros _. replace d1 with (set_roster_with_devices g roster links revs d0).2 by by rewrite E.
    eapply set_roster_forgets; [done|done|by rewrite E]. }
  destruct (silent_run_events g a W es2 (run_event (EvRequest set_roster) d0))
    as (Hi' & Hu' & Hd'); [by apply inv_event|done|by apply silent_keeps|done..|].
  cbn [run_event] in Hi', Hu', Hd'. fold d in Hi', Hu', Hd'.
  pose proof (unknown_not_allowed _ _ _ Hi' Hu') as Hna.
  split_and!; [done| |].
  - intros s Hs Ha. apply Hna. rewrite (allowed_found _ _ _ Hs).
    by apply (inv_session _ Hi') in Hs as [Hau _]; apply Hau.
  - intros m Hm%answer_messages Hfrom. rewrite Hg in Hm. unfold waiting in Hm.
    destruct (groups_f d !! g) as [s|] eqn:Hs; [|set_solver].
    apply (proj1 Hd' g s Hs); [done|by left|done].
Qed.
End theorems.

(** A member whose file was received is evicted; it stays connected and speaks again. *)
Module ExampleEviction.

#[local] Instance crypto : Crypto := ExampleCrypto.crypto.
#[local] Instance libp2p : Libp2p := ExampleLibp2p.libp2p.
#[local] Instance debug : StrDebug := ExampleDaemon.debug.

Definition speaks : event transport :=
  EvNetwork "g" (run (map inr [TMessage true (Some ExampleSwarm.K) ExampleSwarm.CID; TMid])).

Definition before : list (event transport) := ExampleSystem.events ++ [EvRequest (Peers "g"); speaks].
Definition after : list (event transport) :=
  [speaks; EvRequest (Join "g"); EvNetwork "g" (run (map inr [TRecv true])); speaks].

Definition d0 : ClusterDaemon.t transport :=
  run_events before (built ExampleDaemon.self None ExampleSystem.mk).

Lemma speaks_ok : events_ok [speaks].
Proof. constructor; [|done]. intros t. eexists. reflexivity. Qed.

Lemma before_ok : events_ok before.
Proof.
  apply Forall_app. split; [apply ExampleSystem.events_are_ok|].
  constructor; [done|apply speaks_ok].
Qed.

Lemma after_ok : events_ok after.
Proof. repeat constructor; intros t; by eexists. Qed.

Lemma after_names req g a : EvRequest req ∈ after → ¬ request_names req g a.
Proof.
  unfold after, speaks. intros Hin. assert (req = Join "g") as ->; [|intros []].
  do 4 (apply elem_of_cons in Hin as [Hin|Hin]; [first [discriminate Hin|by injection Hin]|]).
  by apply not_elem_of_nil in Hin.
Qed.

End ExampleEviction.

Lemma evicted_peer_is_silent_witness :
  let evict := SetRoster "g" [] [] [] in
  let d0 := ExampleEviction.d0 in
  let d := run_events (H:=ExampleCrypto.crypto) (H0:=ExampleDaemon.debug) ExampleEviction.after
    (handle_request (H:=ExampleCrypto.crypto) (H0:=ExampleDaemon.debug) evict d0).2 in
  let polled := messages_of
    (handle_request (H:=ExampleCrypto.crypto) (H0:=ExampleDaemon.debug) (Poll "g") d).1 in
  ExampleSwarm.A ∈ allowed_at "g" d0 ∧ (ExampleSwarm.A ∉ allowed_at "g" d)
  ∧ ∀ m, m ∈ polled → MeshMessage.from m = ExampleSwarm.A →
      ∃ s0, groups_f d0 !! "g" = Some s0 ∧ holds (ClusterSession.transport s0) m.
Proof.
  destruct (evicted_peer_is_silent (H:=ExampleLibp2p.libp2p) (H0:=ExampleSwarm.laws)
    (H1:=ExampleCrypto.crypto) (H2:=ExampleDaemon.debug) ExampleDaemon.self None
    ExampleSystem.mk ExampleEviction.before ExampleEviction.after "g" [] [] [] [ExampleSwarm.A] []
    ExampleSwarm.A (Poll "g") ExampleSystem.mk_builds_fresh ExampleEviction.before_ok
    ExampleEviction.after_ok) as (Hna & _ & Hm).
  - vm_compute. reflexivity.
  - split; vm_compute; discriminate.
  - intros [_ [(x & r & Hx & _)|(w & Hw & _)]].
    + by apply not_elem_of_nil in Hx.
    + by apply not_elem_of_nil in Hw.
  - intros req Hreq. by apply ExampleEviction.after_names.
  - reflexivity.
  - split_and!; [apply (bool_decide_eq_true_1 _); vm_compute; reflexivity|exact Hna|exact Hm].
Defined.
