(* ===== verification/Server.v ===== *)
(** * The control socket (crates/cluster-daemon/src/server.rs)

    One connection: the peer check, the capped line reader, the bearer handshake and the
    request loop; and the check of the socket's directory. JSON, the constant-time
    comparison and the socket itself are parameters. *)

From S2P Require Import Prelude RustStr Transport DeviceWire Daemon Ipc DaemonInv.
From S2P Require Import DaemonSafety.
Local Open Scope N_scope.

Definition MAX_LINE : N := 65536.

Lemma MAX_LINE_pos : (0 < N.to_nat MAX_LINE)%nat.
Proof. unfold MAX_LINE. lia. Qed.
#[local] Opaque MAX_LINE.

(** ** Octal, for the error texts *)

Definition octal_digit (n : N) : ascii := ascii_of_N (48 + n mod 8).

(** [{:04o}] of a value of at most four octal digits. *)
Definition octal4 (n : N) : string :=
  String (octal_digit (n / 512)) (String (octal_digit (n / 64))
    (String (octal_digit (n / 8)) (String (octal_digit n) ""))).

(** ** The checks before a byte is read *)

Definition peer_uid_decision (rc : Z) (peer_uid euid : N) : bool :=
  bool_decide (rc = 0%Z) && (peer_uid =? euid).

Definition group_world_writable (mode : N) : bool := negb (N.land mode 18 =? 0).
Definition sticky (mode : N) : bool := negb (N.land mode 512 =? 0).

(** The directory the socket is in. *)
Definition socket_dir (parent : option string) : string :=
  match parent with
  | Some p => if str_is_empty p then "." else p
  | None => "."
  end.

(** [check_socket_dir_for]: the directory's owner and mode, as [metadata] gives them. *)
Definition check_socket_dir_for (parent : option string)
    (metadata : string → result (N * N) string) (euid : N) : result unit string :=
  let dir := socket_dir parent in
  let? (uid, mode) := metadata dir in
  if negb (uid =? euid) && negb (uid =? 0) then
    Err ("socket dir " +:+ dir +:+ " is owned by uid " +:+ pretty uid
         +:+ " (not us or root) — fail closed")
  else if group_world_writable mode && negb (sticky mode) then
    Err ("socket dir " +:+ dir +:+ " is group/world-writable without the sticky bit (mode "
         +:+ octal4 (N.land mode 4095) +:+ ") — fail closed")
  else Ok tt.

(** [endpoint_name]'s slug of a path's base name, for named pipes. *)
Definition slug_char (c : ascii) : bool :=
  is_ascii_alphanumeric c || bool_decide (c = "."%char) || bool_decide (c = "_"%char)
  || bool_decide (c = "-"%char).

(** ** Reading *)

Inductive ErrorKind :=
| InvalidData
| WouldBlock
| OtherError (what : string).

Global Instance ErrorKind_eq_dec : EqDecision ErrorKind.
Proof. solve_decision. Defined.

(** In seconds. *)
Definition AUTH_TIMEOUT : N := 10.

(** What follows the bytes: the peer's end of the stream, an error of it, or silence: the
    connection stays open and nothing more comes. *)
Inductive Tail :=
| Eof
| Broken (k : ErrorKind)
| Silent.

(** How the calls on a stream come out: whether setting the receive time-out takes effect, and
    clearing it (the code ignores their errors); the error of [try_clone], if it fails; and
    whether a peer that takes no more answers blocks the write or breaks it. *)
Record StreamCalls := mkCalls {
  sets_timeout : bool;
  clears_timeout : bool;
  clone_error : option ErrorKind;
  blocks_writes : bool;
}.

Definition plain_calls : StreamCalls := mkCalls true true None false.

(** A stream: the bytes still to come without a pause longer than the time-out in force, what
    follows them, and the time-out. *)
Record Reader := mkReader {
  pending : string;
  tail : Tail;
  calls : StreamCalls;
  recv_timeout : option N;
}.

(** A stream as it is accepted, when its calls succeed. *)
Definition sends (bytes : string) (t : Tail) : Reader := mkReader bytes t plain_calls None.

Definition set_pending (s : string) (r : Reader) : Reader :=
  mkReader s (tail r) (calls r) (recv_timeout r).

Definition set_recv_timeout (works : bool) (t : option N) (r : Reader) : Reader :=
  if works then mkReader (pending r) (tail r) (calls r) t else r.

(** Why a read gives no line: an error, or the thread is blocked for good. *)
Inductive obstacle :=
| Fails (k : ErrorKind)
| Blocks.

(** What a read finds when the bytes are used up; nothing, at the end of the stream. *)
Definition past_end (r : Reader) : option obstacle :=
  match tail r with
  | Eof => None
  | Broken k => Some (Fails k)
  | Silent => Some match recv_timeout r with Some _ => Fails WouldBlock | None => Blocks end
  end.

(** Up to [max] bytes, through the first newline. *)
Fixpoint cut_line (max : nat) (s : string) : string * string :=
  match max with
  | O => ("", s)
  | S max' =>
      match s with
      | "" => ("", "")
      | String c s' =>
          if decide (c = "010"%char) then (String c "", s')
          else let '(line, rest) := cut_line max' s' in (String c line, rest)
      end
  end.

Fixpoint ends_with_newline (s : string) : bool :=
  match s with
  | "" => false
  | String c "" => bool_decide (c = "010"%char)
  | String _ s' => ends_with_newline s'
  end.

(** [read_capped_line]: [take(max).read_line(buf)], then the length check. [read_line]
    reports an error of the stream first, then bytes that are not UTF-8. *)
Definition read_capped_line (max : nat) (r : Reader)
    : result (N * string) obstacle * Reader :=
  let '(line, rest) := cut_line max (pending r) in
  let r' := set_pending rest r in
  let exhausted := negb (ends_with_newline line) && (str_len line <? N.of_nat max) in
  match (if exhausted then past_end r else None) with
  | Some o => (Err o, r')
  | None =>
      if negb (utf8_valid line) then (Err (Fails InvalidData), r')
      else if (str_len line =? N.of_nat max) && negb (ends_with_newline line)
      then (Err (Fails InvalidData), r')
      else (Ok (str_len line, line), r')
  end.

(** ** JSON and the constant-time comparison *)

Class Serde := {
  parse_auth : string → option string;
  parse_request : string → result Request string;
  encode_response : Response.t → option string;
  ct_eq : string → string → bool;
}.

(** [subtle]: on inputs of one length, [ct_eq] is equality. *)
Class SerdeLaws `{!Serde} : Prop := {
  ct_eq_spec a b : str_len a = str_len b → ct_eq a b = true ↔ a = b;
}.

Definition quote (s : string) : string := String "034" (s +:+ String "034" "").

Section conn.
  Context {T : Type} `{!MeshTransport T, !Crypto, !StrDebug, !Serde}.

Definition err_json (msg : string) : string :=
  default ("{" +:+ quote "type" +:+ ":" +:+ quote "error" +:+ "," +:+ quote "message"
           +:+ ":" +:+ quote "error" +:+ "}")
    (encode_response (Response.Error msg)).

Definition ready_json : string := "{" +:+ quote "type" +:+ ":" +:+ quote "ready" +:+ "}".

Definition authorized (auth_line bearer : string) : bool :=
  match parse_auth (trim auth_line) with
  | None => false
  | Some token => (str_len token =? str_len bearer) && ct_eq token bearer
  end.

(** The response to one non-blank request line. *)
Definition answer_line (line : string) (d : ClusterDaemon.t T)
    : string * ClusterDaemon.t T :=
  let '(resp, d) :=
    match parse_request (trim line) with
    | Ok req => handle_request req d
    | Err e => (Response.Error ("bad request: " +:+ e), d)
    end in
  (default (err_json "response encode failed") (encode_response resp), d).

(** A connection under way: what is left to read, the lines written, how many more writes
    the peer will take, and the shared daemon; [others n] is what the other connections do
    to it before this one's [n]-th turn. *)
Record Conn := mkConn {
  reader : Reader;
  written : list string;
  writes_left : option nat;
  daemon : ClusterDaemon.t T;
  turns : nat;
}.

(** How a handler ends: it returns, with or without an error, or it [Waits]: its thread is
    blocked on its peer and does nothing more. *)
Inductive ended :=
| Closed
| Failed (k : ErrorKind)
| Waits
| OutOfFuel.

Definition stop_of (o : obstacle) : ended :=
  match o with Fails k => Failed k | Blocks => Waits end.

Definition broken_pipe : ErrorKind := OtherError "broken pipe".

(** A write the peer does not take. *)
Definition unwritten (c : Conn) : ended :=
  if blocks_writes (calls (reader c)) then Waits else Failed broken_pipe.

(** [writeln!(w, ..)?]. *)
Definition write_line (s : string) (c : Conn) : option Conn :=
  match writes_left c with
  | Some O => None
  | Some (S n) => Some (mkConn (reader c) (written c ++ [s]) (Some n) (daemon c) (turns c))
  | None => Some (mkConn (reader c) (written c ++ [s]) None (daemon c) (turns c))
  end.

Definition set_reader (r : Reader) (c : Conn) : Conn :=
  mkConn r (written c) (writes_left c) (daemon c) (turns c).

(** One request under the daemon's lock. *)
Definition serve_line (others : nat → ClusterDaemon.t T → ClusterDaemon.t T) (line : string)
    (c : Conn) : string * Conn :=
  let '(out, d) := answer_line line (others (turns c) (daemon c)) in
  (out, mkConn (reader c) (written c) (writes_left c) d (S (turns c))).

(** Whether a handler goes on after a turn. *)
Inductive progress :=
| Continue
| Stop (e : ended).

(** One turn of the request loop. *)
Definition loop_turn (others : nat → ClusterDaemon.t T → ClusterDaemon.t T) (c : Conn)
    : progress * Conn :=
  match read_capped_line (N.to_nat MAX_LINE) (reader c) with
  | (Ok (n, line), r) =>
      let c := set_reader r c in
      if n =? 0 then (Stop Closed, c)
      else if str_is_empty (trim line) then (Continue, c)
      else
        let '(out, c) := serve_line others line c in
        match write_line out c with
        | Some c => (Continue, c)
        | None => (Stop (unwritten c), c)
        end
  | (Err (Fails InvalidData), r) =>
      let c := set_reader r c in
      match write_line (err_json "request too large") c with
      | Some c => (Stop Closed, c)
      | None => (Stop (unwritten c), c)
      end
  | (Err o, r) => (Stop (stop_of o), set_reader r c)
  end.

(** The request loop. *)
Fixpoint request_loop (fuel : nat) (others : nat → ClusterDaemon.t T → ClusterDaemon.t T)
    (c : Conn) : ended * Conn :=
  match fuel with
  | O => (OutOfFuel, c)
  | S fuel =>
      match loop_turn others c with
      | (Continue, c) => request_loop fuel others c
      | (Stop e, c) => (e, c)
      end
  end.

(** The pre-auth time-out, set before the stream is cloned, and its clearing. *)
Definition time_bounded (c : Conn) : Conn :=
  set_reader (set_recv_timeout (sets_timeout (calls (reader c))) (Some AUTH_TIMEOUT) (reader c)) c.
Definition unbounded (c : Conn) : Conn :=
  set_reader (set_recv_timeout (clears_timeout (calls (reader c))) None (reader c)) c.

(** The length-capped, time-bounded first line, and what it is answered. *)
Definition authenticate (bearer : string) (c : Conn) : progress * Conn :=
  match read_capped_line (N.to_nat MAX_LINE) (reader c) with
  | (Err Blocks, r) => (Stop Waits, set_reader r c)
  | (Err (Fails _), r) => (Stop Closed, set_reader r c)
  | (Ok (n, line), r) =>
      let c := set_reader r c in
      if n =? 0 then (Stop Closed, c)
      else if negb (authorized line bearer) then
        match write_line (err_json "unauthorized") c with
        | Some c => (Stop Closed, c)
        | None => (Stop (unwritten c), c)
        end
      else
        match write_line ready_json c with
        | Some c => (Continue, unbounded c)
        | None => (Stop (unwritten c), c)
        end
  end.

(** What [handle_conn] does before its loop; [same_uid] is the peer check. *)
Definition handshake (same_uid : bool) (bearer : string) (c : Conn) : progress * Conn :=
  if negb same_uid then (Stop Closed, c)
  else
    let c := time_bounded c in
    match clone_error (calls (reader c)) with
    | Some k => (Stop (Failed k), c)
    | None => authenticate bearer c
    end.

Definition handle_conn (fuel : nat) (others : nat → ClusterDaemon.t T → ClusterDaemon.t T)
    (same_uid : bool) (bearer : string) (c : Conn) : ended * Conn :=
  match handshake same_uid bearer c with
  | (Continue, c) => request_loop fuel others c
  | (Stop e, c) => (e, c)
  end.

(** *** Fuel: the bytes left to read are enough *)

Definition conn_fuel (c : Conn) : nat := S (String.length (pending (reader c))).

End conn.
Global Arguments Conn T : clear implicits.

(** ** The line reader *)

Lemma cut_line_spec max s line rest :
  cut_line max s = (line, rest) →
  line +:+ rest = s ∧ (String.length line <= max)%nat
  ∧ (ends_with_newline line = true
     ∨ ends_with_newline line = false ∧ (String.length line = max ∨ rest = "")).
Proof.
  revert s line rest. induction max as [|max IH]; intros s line rest; simpl.
  { intros [= <- <-]. split_and!; [done|simpl; lia|right; auto]. }
  destruct s as [|c s].
  { intros [= <- <-]. split_and!; [done|simpl; lia|right; auto]. }
  case_decide as Hc.
  { intros [= <- <-]. subst c. split_and!; [done|simpl; lia|by left]. }
  destruct (cut_line max s) as [l r] eqn:E. intros [= <- <-].
  apply IH in E as (<- & Hlen & Hor). rewrite str_cons_app. split_and!; [done|simpl; lia|].
  destruct l as [|c' l]; simpl in *.
  - right. rewrite bool_decide_eq_false_2 by done. naive_solver.
  - naive_solver lia.
Qed.

(** A line of the protocol, with its terminator. *)
Definition wire_line (body : string) : string := body +:+ String "010" "".

Definition wire (bodies : list string) : string := foldr (λ b s, wire_line b +:+ s) "" bodies.

(** A body the reader takes as it is. *)
Definition line_ok (body : string) : Prop :=
  no_sep "010"%char body ∧ utf8_valid (wire_line body) = true
  ∧ (String.length body < N.to_nat MAX_LINE)%nat.

Lemma ends_with_newline_wire b : ends_with_newline (wire_line b) = true.
Proof.
  unfold wire_line. induction b as [|c b IH]; [done|].
  rewrite str_cons_app. destruct b as [|c' b]; [done|]. exact IH.
Qed.

Lemma cut_line_wire max b rest :
  (String.length b < max)%nat → no_sep "010"%char b →
  cut_line max (wire_line b +:+ rest) = (wire_line b, rest).
Proof.
  unfold wire_line. revert b. induction max as [|max IH]; intros b Hlen Hsep; [simpl in *; lia|].
  destruct b as [|c b]; [done|]. rewrite !str_cons_app. simpl in *.
  apply orb_false_iff in Hsep as [Hc Hsep].
  rewrite decide_False by (by apply bool_decide_eq_false in Hc).
  by rewrite (IH b) by (try lia; done).
Qed.

(** What [read_capped_line] takes from the stream, whatever it answers. *)
Lemma read_capped_line_progress max r n line r' :
  read_capped_line max r = (Ok (n, line), r') → n ≠ 0 →
  (String.length (pending r') < String.length (pending r))%nat.
Proof.
  unfold read_capped_line. destruct (cut_line max (pending r)) as [l rest] eqn:E.
  apply cut_line_spec in E as (Hs & _ & _). intros Hr Hn.
  assert (n = str_len l ∧ r' = set_pending rest r) as (-> & ->)
    by (repeat case_match; simplify_eq; done).
  simpl. rewrite <-Hs, length_str_app. unfold str_len in Hn. lia.
Qed.

Lemma read_capped_line_wire b rest r :
  line_ok b → pending r = wire_line b +:+ rest →
  read_capped_line (N.to_nat MAX_LINE) r
  = (Ok (str_len (wire_line b), wire_line b), set_pending rest r).
Proof.
  intros (Hsep & Hu & Hlen) Hr. unfold read_capped_line. rewrite Hr, cut_line_wire by done.
  by rewrite ends_with_newline_wire, Hu, andb_false_r.
Qed.

Lemma read_capped_line_end max r :
  (0 < max)%nat → pending r = "" →
  read_capped_line max r
  = (match past_end r with None => Ok (0, "") | Some o => Err o end, set_pending "" r).
Proof.
  intros Hmax Hr. unfold read_capped_line. rewrite Hr. destruct max; [lia|].
  cbn [cut_line ends_with_newline negb andb]. change (str_len "") with 0.
  rewrite (proj2 (N.ltb_lt 0 _)) by lia.
  destruct (past_end r); [done|]. rewrite (proj2 (N.eqb_neq 0 _)) by lia. done.
Qed.

(** Every line handed on is one line of at most [max] bytes of UTF-8, the next of the stream;
    and a request that does not fit is an error, not a truncated request. *)
Theorem read_capped_line_spec (max : nat) (r r' : Reader) res :
  read_capped_line max r = (res, r') →
  ∃ line, line +:+ pending r' = pending r ∧ r' = set_pending (pending r') r
    ∧ (String.length line <= max)%nat
    ∧ match res with
      | Ok (n, l) =>
          l = line ∧ n = str_len line ∧ utf8_valid line = true
          ∧ (ends_with_newline line = true ∨ pending r' = "" ∧ past_end r = None
             ∧ (String.length line < max)%nat)
      | Err o =>
          pending r' = "" ∧ past_end r = Some o
          ∨ o = Fails InvalidData
          ∧ (utf8_valid line = false
             ∨ ends_with_newline line = false ∧ String.length line = max)
      end.
Proof.
  unfold read_capped_line. destruct (cut_line max (pending r)) as [line rest] eqn:E.
  apply cut_line_spec in E as (Hs & Hlen & Hend). intros Hr. exists line.
  assert (r' = set_pending rest r) as -> by (by repeat case_match; simplify_eq).
  split_and!; [exact Hs|done|exact Hlen|]. simpl. unfold str_len in *.
  destruct (utf8_valid line); destruct Hend as [Hnl|[Hnl Hend]]; rewrite Hnl in Hr; simpl in Hr;
    rewrite ?andb_false_r, ?andb_true_r in Hr; destruct (past_end r) as [o|]; simplify_eq/=;
    repeat case_match; simplify_eq/=; rewrite ?N.ltb_lt, ?N.ltb_ge, ?N.eqb_eq, ?N.eqb_neq in *;
    naive_solver lia.
Qed.

(** ** The socket's directory *)

Lemma group_world_writable_spec mode :
  group_world_writable mode = N.testbit mode 1 || N.testbit mode 4.
Proof.
  unfold group_world_writable. destruct (N.eqb_spec (N.land mode 18) 0) as [H|H]; simpl.
  - rewrite land_zero_bits in H. by rewrite (H 1), (H 4).
  - symmetry. apply not_false_iff_true. intros Hb. apply orb_false_iff in Hb as [H1 H4]. apply H.
    apply land_zero_bits. intros i Hi.
    assert (i < 5) as Hi5.
    { destruct (N.lt_ge_cases i 5) as [|Hge]; [done|].
      rewrite N.bits_above_log2 in Hi; [done|]. simpl. lia. }
    assert (i = 0 ∨ i = 1 ∨ i = 2 ∨ i = 3 ∨ i = 4) as [->|[->|[->|[->| ->]]]] by lia; done.
Qed.

Lemma sticky_spec mode : sticky mode = N.testbit mode 9.
Proof.
  unfold sticky. destruct (N.eqb_spec (N.land mode 512) 0) as [H|H]; simpl.
  - rewrite land_zero_bits in H. symmetry. by apply (H 9).
  - symmetry. apply not_false_iff_true. intros H9. apply H.
    change 512 with (2 ^ 9). apply land_zero_bits. intros i Hi.
    rewrite N.pow2_bits_eqb, N.eqb_eq in Hi. by subst.
Qed.

(** The control socket is bound only in a directory whose owner is this user or root, and
    which others cannot write to unless it is sticky: the check accepts exactly those, and
    a directory it cannot read is refused. *)
Theorem socket_dir_spec (parent : option string)
    (metadata : string → result (N * N) string) (euid : N) :
  check_socket_dir_for parent metadata euid = Ok tt ↔
  ∃ uid mode, metadata (socket_dir parent) = Ok (uid, mode) ∧ (uid = euid ∨ uid = 0)
    ∧ (N.testbit mode 1 = false ∧ N.testbit mode 4 = false ∨ N.testbit mode 9 = true).
Proof.
  unfold check_socket_dir_for. cbn zeta.
  destruct (metadata (socket_dir parent)) as [[uid mode]|e]; [|naive_solver].
  rewrite group_world_writable_spec, sticky_spec.
  split.
  - intros Hok. exists uid, mode. split; [done|].
    destruct (N.eqb_spec uid euid), (N.eqb_spec uid 0), (N.testbit mode 1),
      (N.testbit mode 4), (N.testbit mode 9); simpl in Hok; try discriminate Hok; auto.
  - intros (uid' & mode' & [= <- <-] & Hu & Hm).
    replace (negb (uid =? euid) && negb (uid =? 0)) with false
      by (destruct Hu as [->| ->]; rewrite N.eqb_refl; simpl; by rewrite ?andb_false_r).
    destruct Hm as [[-> ->]| ->]; simpl; [done|by rewrite andb_false_r].
Qed.

(** ** Connections *)

Section connections.
  Context {T : Type} `{!MeshTransport T, !Crypto, !StrDebug, !Serde}.
  Implicit Types (c : Conn T) (d : ClusterDaemon.t T)
    (others : nat → ClusterDaemon.t T → ClusterDaemon.t T).

Lemma write_line_reader s c c' : write_line s c = Some c' → reader c' = reader c.
Proof. unfold write_line. intros. by repeat case_match; simplify_eq/=. Qed.

Lemma write_line_daemon s c c' :
  write_line s c = Some c' →
  daemon c' = daemon c ∧ turns c' = turns c ∧ written c' = written c ++ [s].
Proof. unfold write_line. intros. by repeat case_match; simplify_eq/=. Qed.

Lemma serve_line_reader others line c out c' :
  serve_line others line c = (out, c') → reader c' = reader c.
Proof. unfold serve_line. intros. by repeat case_match; simplify_eq/=. Qed.

Lemma unwritten_ends c : unwritten c ≠ OutOfFuel.
Proof. unfold unwritten. by destruct (blocks_writes _). Qed.

(** A turn that goes on has read at least a byte, and a turn never runs out of fuel. *)
Lemma loop_turn_progress others c p c' :
  loop_turn others c = (p, c') →
  match p with
  | Continue => (String.length (pending (reader c')) < String.length (pending (reader c)))%nat
  | Stop e => e ≠ OutOfFuel
  end.
Proof.
  unfold loop_turn. destruct (read_capped_line _ (reader c)) as [[[n line]|[[| |w]|]] r] eqn:E;
    [| |by intros [= <- <-]..].
  - case_match eqn:Hn; [by intros [= <- <-]|]. apply N.eqb_neq in Hn.
    pose proof (read_capped_line_progress _ _ _ _ _ E Hn) as Hlt.
    case_match; [by intros [= <- <-]|].
    destruct (serve_line _ _ _) as [out c1] eqn:Es. apply serve_line_reader in Es.
    case_match eqn:Ew; [|intros [= <- <-]; by apply unwritten_ends].
    apply write_line_reader in Ew. intros [= <- <-]. by rewrite Ew, Es.
  - case_match; intros [= <- <-]; [done|apply unwritten_ends].
Qed.

(** The same connection but for its time-out. *)
Record retimed c c' : Prop := {
  rt_pending : pending (reader c') = pending (reader c);
  rt_tail : tail (reader c') = tail (reader c);
  rt_calls : calls (reader c') = calls (reader c);
  rt_written : written c' = written c;
  rt_writes : writes_left c' = writes_left c;
  rt_daemon : daemon c' = daemon c;
  rt_turns : turns c' = turns c;
}.

Lemma retimed_bounded c : retimed c (time_bounded c).
Proof. unfold time_bounded, set_recv_timeout. by destruct (sets_timeout _). Qed.

Lemma retimed_unbounded c : retimed c (unbounded c).
Proof. unfold unbounded, set_recv_timeout. by destruct (clears_timeout _). Qed.

Lemma handshake_cases same_uid bearer c p c' :
  handshake same_uid bearer c = (p, c') →
  same_uid = false ∧ p = Stop Closed ∧ c' = c
  ∨ same_uid = true ∧ (∃ k, clone_error (calls (reader c)) = Some k)
    ∧ (∃ k, p = Stop (Failed k)) ∧ c' = time_bounded c
  ∨ same_uid = true ∧ clone_error (calls (reader c)) = None
    ∧ authenticate bearer (time_bounded c) = (p, c').
Proof.
  unfold handshake. destruct same_uid; cbn [negb]; [|intros [= <- <-]; by left]. cbv zeta.
  rewrite (rt_calls _ _ (retimed_bounded c)).
  destruct (clone_error _) as [k|]; [|by right; right].
  intros [= <- <-]. right; left. eauto 10.
Qed.

Lemma authenticate_progress bearer c p c' :
  authenticate bearer c = (p, c') →
  match p with
  | Continue => (String.length (pending (reader c')) < String.length (pending (reader c)))%nat
  | Stop e => e ≠ OutOfFuel
  end.
Proof.
  unfold authenticate.
  destruct (read_capped_line _ (reader c)) as [[[n line]|[k|]] r] eqn:E;
    [|by intros [= <- <-]..].
  case_match eqn:Hn; [by intros [= <- <-]|]. apply N.eqb_neq in Hn.
  pose proof (read_capped_line_progress _ _ _ _ _ E Hn) as Hlt.
  case_match.
  { case_match; intros [= <- <-]; [done|apply unwritten_ends]. }
  case_match eqn:Ew; [|intros [= <- <-]; apply unwritten_ends]. apply write_line_reader in Ew.
  intros [= <- <-]. by rewrite (rt_pending _ _ (retimed_unbounded _)), Ew.
Qed.

Lemma handshake_progress same_uid bearer c p c' :
  handshake same_uid bearer c = (p, c') →
  match p with
  | Continue => (String.length (pending (reader c')) < String.length (pending (reader c)))%nat
  | Stop e => e ≠ OutOfFuel
  end.
Proof.
  intros [(_ & -> & ->)|[(_ & _ & [k ->] & ->)|(_ & _ & Ha)]]%handshake_cases; [done..|].
  apply authenticate_progress in Ha. by rewrite (rt_pending _ _ (retimed_bounded c)) in Ha.
Qed.

Lemma request_loop_terminates others fuel c :
  (String.length (pending (reader c)) < fuel)%nat → (request_loop fuel others c).1 ≠ OutOfFuel.
Proof.
  revert c. induction fuel as [|fuel IH]; intros c Hf; [lia|]. cbn [request_loop].
  destruct (loop_turn others c) as [[|e] c'] eqn:E; apply loop_turn_progress in E; [|done].
  apply IH. lia.
Qed.

(** *** The events of a connection

    What a connection served: the request of each turn, or nothing for a line that is not a
    request. Before each turn the other connections act. *)
Fixpoint trace_of (es : nat → list (event T)) (turn : nat) (served : list (option Request))
    : list (event T) :=
  match served with
  | [] => []
  | r :: served =>
      es turn ++ (match r with Some req => [EvRequest req] | None => [] end)
      ++ trace_of es (S turn) served
  end.

(** A request that one of the lines of [s] asks for. *)
Definition asked_in (s : string) (r : option Request) : Prop :=
  match r with
  | Some req => ∃ pre line post, s = pre +:+ line +:+ post ∧ parse_request (trim line) = Ok req
  | None => True
  end.

Lemma asked_in_later pre s r : asked_in s r → asked_in (pre +:+ s) r.
Proof.
  destruct r as [req|]; [|done]. intros (pre' & line & post & -> & Hp).
  exists (pre +:+ pre'), line, post. by rewrite str_app_assoc.
Qed.

Lemma run_events_app es1 es2 d :
  run_events (es1 ++ es2) d = run_events es2 (run_events es1 d).
Proof. apply fold_left_app. Qed.

Lemma read_capped_line_split max r n line r' :
  read_capped_line max r = (Ok (n, line), r') → pending r = line +:+ pending r'.
Proof.
  unfold read_capped_line. destruct (cut_line max (pending r)) as [l rest] eqn:E.
  apply cut_line_spec in E as (Hs & _ & _). intros Hr.
  assert (line = l ∧ r' = set_pending rest r) as (-> & ->)
    by (repeat case_match; simplify_eq; done).
  done.
Qed.

Lemma read_capped_line_rest max r res r' :
  read_capped_line max r = (res, r') → ∃ pre, pending r = pre +:+ pending r'.
Proof.
  unfold read_capped_line. destruct (cut_line max (pending r)) as [l rest] eqn:E.
  apply cut_line_spec in E as (Hs & _ & _). intros Hr. exists l.
  assert (r' = set_pending rest r) as -> by (repeat case_match; simplify_eq; done).
  by symmetry.
Qed.

(** One turn: the others act, then the line's request. *)
Lemma serve_line_turn others es line c out c' :
  (∀ n d, others n d = run_events (es n) d) → serve_line others line c = (out, c') →
  ∃ r, turns c' = S (turns c) ∧ daemon c' = run_events (trace_of es (turns c) [r]) (daemon c)
    ∧ ∀ post, asked_in (line +:+ post) r.
Proof.
  intros Hes Hs. unfold serve_line, answer_line in Hs. rewrite Hes in Hs.
  destruct (parse_request (trim line)) as [req|e] eqn:Hp.
  - destruct (handle_request req _) as [resp d] eqn:E. simplify_eq/=. exists (Some req).
    split_and!; [done| |intros post; by exists "", line, post].
    simpl. rewrite run_events_app. unfold run_events at 1. simpl. by rewrite E.
  - simplify_eq/=. exists None. by rewrite app_nil_r.
Qed.

(** What a loop has done by the time it ends. *)
Definition acted es c c' : Prop :=
  ∃ served, turns c' = (turns c + List.length served)%nat
    ∧ daemon c' = run_events (trace_of es (turns c) served) (daemon c)
    ∧ Forall (asked_in (pending (reader c))) served.

Lemma acted_nothing es c c' : turns c' = turns c → daemon c' = daemon c → acted es c c'.
Proof. intros Ht Hd. exists []. simpl. split_and!; [lia|done|by apply Forall_nil]. Qed.

Lemma acted_write es s c c' : write_line s c = Some c' → acted es c c'.
Proof. intros (Hd & Ht & _)%write_line_daemon. by apply acted_nothing. Qed.

(** After reading a line, what happens on the rest happened on the whole. *)
Lemma acted_read es line c c1 c' :
  pending (reader c) = line +:+ pending (reader c1) → turns c1 = turns c →
  daemon c1 = daemon c → acted es c1 c' → acted es c c'.
Proof.
  intros Hp Ht Hd (served & Hs & Hr & Hf). exists served. rewrite <-Ht, <-Hd, Hp.
  split_and!; [done|done|]. eapply Forall_impl; [exact Hf|]. apply asked_in_later.
Qed.

Lemma acted_turn es line c c1 r c' :
  pending (reader c) = line +:+ pending (reader c1) → turns c1 = S (turns c) →
  daemon c1 = run_events (trace_of es (turns c) [r]) (daemon c) →
  (∀ post, asked_in (line +:+ post) r) → acted es c1 c' → acted es c c'.
Proof.
  intros Hp Ht Hd Hask (served & Hs & Hr & Hf). exists (r :: served). split_and!.
  - simpl. lia.
  - rewrite Hr, Hd, Ht. simpl. by rewrite app_nil_r, app_assoc, !run_events_app.
  - rewrite Hp. constructor; [done|]. eapply Forall_impl; [exact Hf|]. apply asked_in_later.
Qed.

Lemma acted_trans es c c1 c2 line :
  pending (reader c) = line +:+ pending (reader c1) →
  acted es c c1 → acted es c1 c2 → acted es c c2.
Proof.
  intros Hp (s1 & Ht1 & Hr1 & Hf1) (s2 & Ht2 & Hr2 & Hf2). exists (s1 ++ s2). split_and!.
  - rewrite length_app. lia.
  - rewrite Hr2, Hr1, Ht1, <-run_events_app. f_equal. clear. revert c.
    intros c. generalize (turns c). induction s1 as [|r s1 IH]; intros n; simpl.
    + by rewrite Nat.add_0_r.
    + rewrite <-!app_assoc, <-IH. by rewrite Nat.add_succ_r.
  - apply Forall_app. split; [done|]. rewrite Hp. eapply Forall_impl; [exact Hf2|].
    apply asked_in_later.
Qed.

Lemma loop_turn_acted others es c p c' :
  (∀ n d, others n d = run_events (es n) d) → loop_turn others c = (p, c') →
  acted es c c' ∧ ∃ line, pending (reader c) = line +:+ pending (reader c').
Proof.
  intros Hes. unfold loop_turn.
  destruct (read_capped_line _ (reader c)) as [[[n line]|o] r] eqn:E; cycle 1.
  { pose proof (read_capped_line_rest _ _ _ _ E) as [pre Hpre].
    destruct o as [[| |w]|];
      [|intros [= <- <-]; by split; [apply acted_nothing|exists pre]..].
    case_match eqn:Ew; [|intros [= <- <-]; by split; [apply acted_nothing|exists pre]].
    intros [= <- <-]. pose proof (write_line_reader _ _ _ Ew) as Hr.
    apply write_line_daemon in Ew as (Hd & Ht & _).
    split; [by apply acted_nothing|exists pre; by rewrite Hr]. }
  apply read_capped_line_split in E.
  case_match; [intros [= <- <-]; split; [by apply acted_nothing|by exists line]|].
  case_match; [intros [= <- <-]; split; [by apply acted_nothing|by exists line]|].
  destruct (serve_line others line (set_reader r c)) as [out c1] eqn:Es.
  pose proof (serve_line_reader _ _ _ _ _ Es) as Hr1.
  destruct (serve_line_turn _ _ _ _ _ _ Hes Es) as (req & Ht & Hd & Hask).
  assert (∀ c', acted es c1 c' → acted es c c') as Hc1.
  { intros c2. apply (acted_turn es line c c1 req); [by rewrite Hr1|done..]. }
  case_match eqn:Ew; intros [= <- <-]; (split; [apply Hc1|exists line]).
  - by eapply acted_write.
  - by rewrite (write_line_reader _ _ _ Ew), Hr1.
  - by apply acted_nothing.
  - by rewrite Hr1.
Qed.

Lemma request_loop_acted others es fuel c :
  (∀ n d, others n d = run_events (es n) d) → acted es c (request_loop fuel others c).2.
Proof.
  intros Hes. revert c. induction fuel as [|fuel IH]; intros c; [by apply acted_nothing|].
  cbn [request_loop]. destruct (loop_turn others c) as [[|e] c'] eqn:E;
    apply (loop_turn_acted _ _ _ _ _ Hes) in E as [Ha [line Hl]]; [|done].
  eapply acted_trans; [exact Hl|exact Ha|apply IH].
Qed.

Lemma authenticate_quiet bearer c p c' :
  authenticate bearer c = (p, c') →
  daemon c' = daemon c ∧ turns c' = turns c
  ∧ ∃ line, pending (reader c) = line +:+ pending (reader c').
Proof.
  unfold authenticate.
  destruct (read_capped_line _ (reader c)) as [[[n line]|o] r] eqn:E; cycle 1.
  { apply read_capped_line_rest in E as [pre Hpre].
    destruct o; intros [= <- <-]; (split_and!; [done..|by exists pre]). }
  apply read_capped_line_split in E.
  case_match; [intros [= <- <-]; split_and!; [done..|by exists line]|].
  case_match; (case_match eqn:Ew; intros [= <- <-]; [|split_and!; [done..|by exists line]]);
    pose proof (write_line_reader _ _ _ Ew) as Hr; apply write_line_daemon in Ew as (Hd & Ht & _).
  - split_and!; [done..|]. exists line. by rewrite Hr.
  - split_and!; [by rewrite (rt_daemon _ _ (retimed_unbounded _))
                |by rewrite (rt_turns _ _ (retimed_unbounded _))|].
    exists line. by rewrite (rt_pending _ _ (retimed_unbounded _)), Hr.
Qed.

Lemma handshake_quiet same_uid bearer c p c' :
  handshake same_uid bearer c = (p, c') →
  daemon c' = daemon c ∧ turns c' = turns c
  ∧ ∃ line, pending (reader c) = line +:+ pending (reader c').
Proof.
  pose proof (retimed_bounded c) as [Hp _ _ _ _ Hd Ht].
  intros [(_ & -> & ->)|[(_ & _ & _ & ->)|(_ & _ & Ha)]]%handshake_cases.
  - split_and!; [done..|by exists ""].
  - split_and!; [done..|by exists ""].
  - apply authenticate_quiet in Ha as (? & ? & line & Hl). split_and!; [congruence..|].
    exists line. congruence.
Qed.

(** The server adds no way to act on the daemon: over any connection, the daemon goes
    through exactly the other connections' events and, one a turn and between them, the
    requests of lines this client sent. So nothing is lost, and what holds of every sequence
    of events holds with the server in front. *)
Theorem server_refines_events others es fuel (same_uid : bool) (bearer : string) c :
  (∀ n d, others n d = run_events (es n) d) →
  let c' := (handle_conn fuel others same_uid bearer c).2 in
  ∃ served, turns c' = (turns c + List.length served)%nat
    ∧ daemon c' = run_events (trace_of es (turns c) served) (daemon c)
    ∧ Forall (asked_in (pending (reader c))) served.
Proof.
  intros Hes c'. change (acted es c c'). subst c'. unfold handle_conn.
  destruct (handshake same_uid bearer c) as [[|e] c'] eqn:E;
    apply handshake_quiet in E as (Hd & Ht & line & Hl); [|by apply acted_nothing].
  apply (acted_read es line c c'); [done..|by apply request_loop_acted].
Qed.

(** The request the next turn of a loop puts to the daemon, if any. *)
Definition turn_request (r : Reader) : option Request :=
  match read_capped_line (N.to_nat MAX_LINE) r with
  | (Ok (n, line), _) =>
      if n =? 0 then None
      else if str_is_empty (trim line) then None
      else match parse_request (trim line) with Ok req => Some req | Err _ => None end
  | (Err _, _) => None
  end.

Definition opt_event (r : option Request) : list (event T) :=
  match r with Some req => [EvRequest req] | None => [] end.

Lemma turn_request_asked r req :
  turn_request r = Some req → asked_in (pending r) (Some req).
Proof.
  unfold turn_request. destruct (read_capped_line _ r) as [[[n line]|k] r'] eqn:E; [|done].
  apply read_capped_line_split in E. intros Ht. repeat case_match; simplify_eq/=.
  exists "", line, (pending r'). by rewrite E.
Qed.

(** A turn of a handler is a turn on the daemon as the others left it; a turn that puts
    nothing to the daemon does not ask for the lock. *)
Definition same_io (c c' : Conn T) : Prop :=
  reader c = reader c' ∧ written c = written c' ∧ writes_left c = writes_left c'
  ∧ turns c = turns c'.

Definition set_daemon d c : Conn T := mkConn (reader c) (written c) (writes_left c) d (turns c).

Lemma loop_turn_locked others c p c' :
  loop_turn others c = (p, c') →
  ∃ c2, loop_turn (λ _ d, d) (set_daemon (others (turns c) (daemon c)) c) = (p, c2)
    ∧ same_io c' c2
    ∧ daemon c2
      = run_events (opt_event (turn_request (reader c))) (others (turns c) (daemon c))
    ∧ (turns c' = S (turns c) ∧ daemon c' = daemon c2
       ∨ turns c' = turns c ∧ daemon c' = daemon c ∧ turn_request (reader c) = None).
Proof.
  unfold loop_turn, turn_request, set_daemon, same_io, unwritten. cbn [reader].
  destruct (read_capped_line _ (reader c)) as [[[n line]|o] r] eqn:E; cycle 1.
  { unfold write_line, set_reader. simpl. intros Ht.
    destruct o as [[| |w]|]; destruct (writes_left c) as [[|b]|]; simplify_eq/=;
      eexists; (split; [done|]); simpl; split_and!; auto. }
  case_match; [intros [= <- <-]; eexists; (split; [done|]); simpl; split_and!; auto|].
  case_match; [intros [= <- <-]; eexists; (split; [done|]); simpl; split_and!; auto|].
  unfold serve_line, answer_line, set_reader. cbn [reader daemon turns written writes_left].
  destruct (parse_request (trim line)) as [req|e].
  - destruct (handle_request req _) as [resp d] eqn:Eh. unfold write_line. cbn [writes_left].
    intros Ht. destruct (writes_left c) as [[|b]|]; simplify_eq/=;
      eexists; (split; [done|]); simpl; unfold run_events; simpl; rewrite Eh; split_and!; auto.
  - unfold write_line. cbn [writes_left]. intros Ht.
    destruct (writes_left c) as [[|b]|]; simplify_eq/=;
      eexists; (split; [done|]); simpl; split_and!; auto.
Qed.

(** The first line a peer sends. *)
Definition first_line (r : Reader) : string := (cut_line (N.to_nat MAX_LINE) (pending r)).1.

Lemma read_capped_line_first c n line r :
  read_capped_line (N.to_nat MAX_LINE) (reader c) = (Ok (n, line), r) → line = first_line (reader c).
Proof.
  unfold read_capped_line, first_line. destruct (cut_line _ _) as [l rest] eqn:E. simpl. intros.
  by repeat case_match; simplify_eq/=.
Qed.

Lemma authorized_iff `{!SerdeLaws} line bearer :
  authorized line bearer = true ↔ parse_auth (trim line) = Some bearer.
Proof.
  unfold authorized. destruct (parse_auth (trim line)) as [token|]; [|done].
  rewrite andb_true_iff, N.eqb_eq. split.
  - intros [Hlen Hct]. apply ct_eq_spec in Hct; [|done]. by subst.
  - intros [= ->]. split; [done|]. by apply ct_eq_spec.
Qed.

Lemma authenticate_decides `{!SerdeLaws} bearer c p c' :
  authenticate bearer c = (p, c') →
  match p with
  | Continue => parse_auth (trim (first_line (reader c))) = Some bearer
  | Stop _ => written c' = written c ∨ written c' = written c ++ [err_json "unauthorized"]
  end.
Proof.
  unfold authenticate.
  destruct (read_capped_line _ (reader c)) as [[[n line]|[k|]] r] eqn:E;
    [|intros [= <- <-]; by left..].
  apply read_capped_line_first in E as ->. case_match; [intros [= <- <-]; by left|].
  destruct (authorized (first_line (reader c)) bearer) eqn:Ha; simpl.
  - apply authorized_iff in Ha. case_match; intros [= <- <-]; [done|by left].
  - case_match eqn:Ew; intros [= <- <-]; [right|by left].
    by apply write_line_daemon in Ew as (_ & _ & ->).
Qed.

(** A handshake that goes on was with our own user, on the bearer; any other says at most
    one line, to our own user. *)
Lemma handshake_decides `{!SerdeLaws} same_uid bearer c p c' :
  handshake same_uid bearer c = (p, c') →
  match p with
  | Continue => same_uid = true ∧ parse_auth (trim (first_line (reader c))) = Some bearer
  | Stop _ =>
      written c' = written c
      ∨ same_uid = true
        ∧ (written c' = written c ++ [err_json "unauthorized"])
  end.
Proof.
  pose proof (retimed_bounded c) as [Hp _ _ Hw _ _ _].
  intros [(_ & -> & ->)|[(_ & _ & [k ->] & ->)|(-> & _ & Ha)]]%handshake_cases.
  - by left.
  - by left.
  - apply authenticate_decides in Ha. unfold first_line in *. rewrite Hp, Hw in Ha.
    destruct p; [done|]. destruct Ha; auto.
Qed.

(** C16: Nobody but a process of our own user that knows the bearer reaches the daemon: for any
    other peer the handler serves no request, leaves the daemon as it is, and writes nothing
    to another user and at most one refusal to our own. *)
Theorem no_request_without_the_bearer `{!SerdeLaws} fuel others (same_uid : bool)
    (bearer : string) c :
  (same_uid = true → parse_auth (trim (first_line (reader c))) ≠ Some bearer) →
  let c' := (handle_conn fuel others same_uid bearer c).2 in
  daemon c' = daemon c ∧ turns c' = turns c
  ∧ (written c' = written c
     ∨ same_uid = true ∧ written c' = written c ++ [err_json "unauthorized"]).
Proof.
  intros Hno. cbv zeta. unfold handle_conn.
  destruct (handshake same_uid bearer c) as [p c'] eqn:E.
  pose proof (handshake_decides _ _ _ _ _ E) as Hd. apply handshake_quiet in E as (? & ? & _).
  destruct p; [destruct Hd as [Hs Hb]; by apply Hno in Hs|by split_and!].
Qed.

(** *** The answers a client gets *)

(** The reference: the answers to a list of lines, in order, blank lines skipped. *)
Fixpoint answers others (turn : nat) (bodies : list string) d
    : list string * (nat * ClusterDaemon.t T) :=
  match bodies with
  | [] => ([], (turn, d))
  | b :: bodies =>
      if str_is_empty (trim (wire_line b)) then answers others turn bodies d
      else
        let '(out, d) := answer_line (wire_line b) (others turn d) in
        let '(outs, last) := answers others (S turn) bodies d in
        (out :: outs, last)
  end.

Lemma str_len_wire_line b : (str_len (wire_line b) =? 0) = false.
Proof. apply N.eqb_neq. unfold wire_line. rewrite str_len_app, str_len_cons. lia. Qed.

(** One whole line, to a loop whose answers are taken. *)
Lemma loop_turn_line others b rest c :
  line_ok b → pending (reader c) = wire_line b +:+ rest → writes_left c = None →
  loop_turn others c
  = if str_is_empty (trim (wire_line b)) then (Continue, set_reader (set_pending rest (reader c)) c)
    else
      let '(out, d) := answer_line (wire_line b) (others (turns c) (daemon c)) in
      (Continue,
       mkConn (set_pending rest (reader c)) (written c ++ [out]) None d (S (turns c))).
Proof.
  intros Hok Hp Hw. unfold loop_turn. rewrite (read_capped_line_wire b rest) by done.
  rewrite str_len_wire_line. case_match; [done|].
  unfold serve_line, set_reader, write_line. simpl. destruct (answer_line _ _) as [out d].
  simpl. by rewrite Hw.
Qed.

(** How a loop ends that has read everything. *)
Definition close_of (r : Reader) : ended :=
  match past_end r with None => Closed | Some o => stop_of o end.

Lemma loop_turn_end others c :
  pending (reader c) = "" → past_end (reader c) ≠ Some (Fails InvalidData) →
  loop_turn others c = (Stop (close_of (reader c)), set_reader (set_pending "" (reader c)) c).
Proof.
  intros Hp Ht. unfold loop_turn, close_of.
  rewrite read_capped_line_end by (done || apply MAX_LINE_pos).
  by destruct (past_end (reader c)) as [[[| |w]|]|].
Qed.

Lemma request_loop_answers others bodies fuel c :
  Forall line_ok bodies → (List.length bodies < fuel)%nat →
  pending (reader c) = wire bodies → past_end (reader c) ≠ Some (Fails InvalidData) →
  writes_left c = None →
  request_loop fuel others c
  = (close_of (reader c), mkConn (set_pending "" (reader c))
       (written c ++ (answers others (turns c) bodies (daemon c)).1) None
       (answers others (turns c) bodies (daemon c)).2.2
       (answers others (turns c) bodies (daemon c)).2.1).
Proof.
  revert fuel c. induction bodies as [|b bodies IH]; intros fuel c Hok Hfuel Hr Ht Hw;
    (destruct fuel as [|fuel]; [simpl in Hfuel; lia|]); cbn [request_loop].
  { rewrite loop_turn_end by done. cbn [answers fst snd]. rewrite app_nil_r.
    unfold set_reader. by rewrite Hw. }
  inversion Hok as [|? ? Hb Hbs]; subst. rewrite (loop_turn_line _ b (wire bodies)) by done.
  cbn [answers]. destruct (str_is_empty (trim (wire_line b))).
  - rewrite IH; simpl in *; done || lia.
  - destruct (answer_line (wire_line b) _) as [out d].
    rewrite IH; [|done|simpl in Hfuel; lia|done..]. simpl.
    destruct (answers others (S (turns c)) bodies d) as [outs [t last]]. simpl.
    by rewrite <-app_assoc.
Qed.

(** The right first line, from our own user, is welcomed. *)
Lemma handshake_welcomes bearer auth rest c :
  line_ok auth → authorized (wire_line auth) bearer = true →
  pending (reader c) = wire_line auth +:+ rest → writes_left c = None →
  clone_error (calls (reader c)) = None →
  ∃ c', handshake true bearer c = (Continue, c') ∧ pending (reader c') = rest
    ∧ tail (reader c') = tail (reader c) ∧ calls (reader c') = calls (reader c)
    ∧ (clears_timeout (calls (reader c)) = true → recv_timeout (reader c') = None)
    ∧ written c' = written c ++ [ready_json] ∧ writes_left c' = None
    ∧ daemon c' = daemon c ∧ turns c' = turns c.
Proof.
  intros Hok Ha Hp Hw Hk. pose proof (retimed_bounded c) as [Hp' Ht' Hc' Hw' Hl' Hd' Hn'].
  unfold handshake. cbn [negb]. cbv zeta. rewrite Hc', Hk. unfold authenticate.
  rewrite (read_capped_line_wire auth rest) by (done || congruence).
  rewrite str_len_wire_line, Ha. unfold write_line, set_reader. cbn [negb writes_left].
  rewrite Hl', Hw. eexists. split; [done|]. unfold unbounded, set_recv_timeout. cbn [reader calls].
  cbn [set_pending calls tail]. rewrite Hc'.
  destruct (clears_timeout _); simpl; (split_and!; try done; try congruence).
Qed.

Lemma wire_length bodies : (List.length bodies <= String.length (wire bodies))%nat.
Proof.
  induction bodies as [|b bodies IH]; simpl; [lia|]. unfold wire_line.
  rewrite !length_str_app. simpl. fold (wire bodies). lia.
Qed.

(** A welcomed client's lines are answered, and the handler ends as the stream does. *)
Lemma handle_conn_welcomes others bearer auth bodies c :
  Forall line_ok (auth :: bodies) → authorized (wire_line auth) bearer = true →
  pending (reader c) = wire (auth :: bodies) → writes_left c = None →
  clone_error (calls (reader c)) = None → clears_timeout (calls (reader c)) = true →
  tail (reader c) ≠ Broken InvalidData →
  handle_conn (conn_fuel c) others true bearer c
  = (close_of (set_recv_timeout true None (reader c)),
     mkConn (mkReader "" (tail (reader c)) (calls (reader c)) None)
       (written c ++ ready_json :: (answers others (turns c) bodies (daemon c)).1) None
       (answers others (turns c) bodies (daemon c)).2.2
       (answers others (turns c) bodies (daemon c)).2.1).
Proof.
  intros Hok Ha Hp Hw Hk Hclr Htl. inversion Hok as [|? ? Hauth Hbs]; subst.
  destruct (handshake_welcomes bearer auth (wire bodies) c)
    as ([[p t k rt] w wl d' n] & Hh & Hp' & Ht & Hc & Hr & Hw' & Hl & Hd & Hn); [done..|].
  simpl in *. specialize (Hr Hclr). subst. unfold handle_conn. rewrite Hh.
  rewrite request_loop_answers with (bodies := bodies); [|done| |done| |done].
  - cbn [reader calls tail written turns daemon]. unfold set_recv_timeout, set_pending.
    by rewrite <-app_assoc.
  - pose proof (wire_length bodies). unfold conn_fuel. rewrite Hp, length_str_app.
    fold (wire bodies). lia.
  - unfold past_end. simpl. destruct (tail (reader c)) as [|k|]; [done| |done].
    intros [= ->]. done.
Qed.

(** C25: What an authenticated client gets: [ready], then one answer per non-blank line, in the
    order the lines were sent, each computed by the request handler on the daemon as the
    earlier requests and the other connections left it; then the connection closes. *)
Theorem connection_answers_in_order others (bearer auth : string) (bodies : list string) d :
  Forall line_ok (auth :: bodies) → authorized (wire_line auth) bearer = true →
  let c := mkConn (sends (wire (auth :: bodies)) Eof) [] None d 0 in
  handle_conn (conn_fuel c) others true bearer c
  = (Closed, mkConn (sends "" Eof) (ready_json :: (answers others 0 bodies d).1) None
       (answers others 0 bodies d).2.2 (answers others 0 bodies d).2.1).
Proof.
  intros Hok Ha c. by rewrite (handle_conn_welcomes others bearer auth bodies c).
Qed.

(** *** When a handler ends, and when it waits *)

(** What a blocked thread is blocked on: a peer that takes no more answers, or a silent one
    without a time-out. *)
Definition blocked c : Prop :=
  blocks_writes (calls (reader c)) = true ∧ writes_left c = Some O
  ∨ tail (reader c) = Silent ∧ recv_timeout (reader c) = None.

Lemma unwritten_waits s c :
  write_line s c = None → unwritten c = Waits → blocked c.
Proof.
  unfold write_line, unwritten. intros Hw Hu. left.
  destruct (blocks_writes _), (writes_left c) as [[|]|]; done.
Qed.

Lemma read_capped_line_blocks max r r' res :
  read_capped_line max r = (res, r') →
  r' = set_pending (pending r') r
  ∧ (res = Err Blocks → tail r' = Silent ∧ recv_timeout r' = None).
Proof.
  unfold read_capped_line, past_end. destruct (cut_line max (pending r)) as [line rest]. intros Hr.
  assert (r' = set_pending rest r) as -> by (by repeat case_match; simplify_eq).
  split; [done|]. intros ->. simpl.
  destruct (tail r), (recv_timeout r); repeat case_match; simplify_eq/=; done.
Qed.

Lemma loop_turn_waits others c p c' :
  loop_turn others c = (p, c') →
  reader c' = set_pending (pending (reader c')) (reader c) ∧ (p = Stop Waits → blocked c').
Proof.
  unfold loop_turn. destruct (read_capped_line _ (reader c)) as [res r] eqn:E.
  apply read_capped_line_blocks in E as [Hr Hb].
  destruct res as [[n line]|[[| |w]|]];
    [| |by intros [= <- <-]; split..|intros [= <- <-]; split; [done|right; by apply Hb]].
  - case_match; [by intros [= <- <-]|]. case_match; [by intros [= <- <-]|].
    destruct (serve_line _ _ _) as [out c1] eqn:Es. apply serve_line_reader in Es.
    simpl in Es. case_match eqn:Ew; intros [= <- <-].
    + apply write_line_reader in Ew. by rewrite Ew, Es.
    + rewrite Es. split; [done|]. intros [= Hu]. by eapply unwritten_waits.
  - case_match eqn:Ew; intros [= <- <-].
    + apply write_line_reader in Ew. by rewrite Ew.
    + split; [done|]. intros [= Hu]. by eapply unwritten_waits.
Qed.

Lemma authenticate_waits bearer c p c' :
  authenticate bearer c = (p, c') →
  reader c' = set_pending (pending (reader c'))
    (match p with
     | Continue => set_recv_timeout (clears_timeout (calls (reader c))) None (reader c)
     | Stop _ => reader c
     end) ∧ (p = Stop Waits → blocked c').
Proof.
  unfold authenticate. destruct (read_capped_line _ (reader c)) as [res r] eqn:E.
  apply read_capped_line_blocks in E as [Hr Hb].
  destruct res as [[n line]|[k|]];
    [|by intros [= <- <-]|intros [= <- <-]; split; [done|right; by apply Hb]].
  case_match; [by intros [= <- <-]|]. case_match; (case_match eqn:Ew; intros [= <- <-]).
  - apply write_line_reader in Ew. by rewrite Ew.
  - split; [done|]. intros [= Hu]. by eapply unwritten_waits.
  - apply write_line_reader in Ew. unfold unbounded, set_recv_timeout. simpl. rewrite Ew.
    simpl. rewrite Hr. simpl. by destruct (clears_timeout _).
  - split; [done|]. intros [= Hu]. by eapply unwritten_waits.
Qed.

Lemma request_loop_waits others fuel c e c' :
  request_loop fuel others c = (e, c') →
  reader c' = set_pending (pending (reader c')) (reader c) ∧ (e = Waits → blocked c').
Proof.
  revert c. induction fuel as [|fuel IH]; intros c; cbn [request_loop].
  { intros [= <- <-]. by destruct (reader c). }
  destruct (loop_turn others c) as [[|e1] c1] eqn:E; apply loop_turn_waits in E as [Hr Hw].
  - intros [Hr' Hw']%IH. split; [|done]. by rewrite Hr' at 1; rewrite Hr.
  - intros [= <- <-]. split; [done|]. intros ->. by apply Hw.
Qed.

Lemma handle_conn_in_fuel others same_uid bearer c :
  (handle_conn (conn_fuel c) others same_uid bearer c).1 ≠ OutOfFuel.
Proof.
  unfold handle_conn. destruct (handshake _ _ c) as [[|e] c'] eqn:E;
    apply handshake_progress in E; [|done].
  apply request_loop_terminates. unfold conn_fuel. lia.
Qed.

Lemma handle_conn_waits `{!SerdeLaws} fuel others same_uid bearer c :
  recv_timeout (reader c) = None → (handle_conn fuel others same_uid bearer c).1 = Waits →
  same_uid = true ∧ clone_error (calls (reader c)) = None
  ∧ (blocks_writes (calls (reader c)) = true
     ∧ writes_left (handle_conn fuel others same_uid bearer c).2 = Some O
     ∨ tail (reader c) = Silent
       ∧ (sets_timeout (calls (reader c)) = false
          ∨ clears_timeout (calls (reader c)) = true
            ∧ parse_auth (trim (first_line (reader c))) = Some bearer)).
Proof.
  intros Ht. unfold handle_conn. destruct (handshake same_uid bearer c) as [p c1] eqn:E.
  pose proof (handshake_decides _ _ _ _ _ E) as Hd.
  apply handshake_cases in E as [(_ & -> & ->)|[(_ & _ & [k ->] & ->)|(-> & Hk & Ha)]]; [done..|].
  apply authenticate_waits in Ha as [Hr Hw].
  destruct p as [|e].
  - destruct (request_loop fuel others c1) as [e c'] eqn:El.
    apply request_loop_waits in El as [Hr' Hb]. intros Hwait.
    destruct (Hb Hwait) as [Hb'|Hb']; rewrite Hr', Hr in Hb'.
    all: unfold time_bounded, set_recv_timeout in Hb'; cbn [snd].
    all: destruct (sets_timeout (calls (reader c))) eqn:Hset; simpl in Hb'.
    all: destruct (clears_timeout (calls (reader c))) eqn:Hclr; simpl in Hb'; naive_solver.
  - cbn [fst snd]. intros ->. destruct (Hw eq_refl) as [Hb'|Hb']; rewrite Hr in Hb'.
    all: unfold time_bounded, set_recv_timeout in Hb'; cbn [snd].
    all: destruct (sets_timeout (calls (reader c))) eqn:Hset; simpl in Hb'; naive_solver.
Qed.

(** C39: A handler returns, unless its thread is blocked on its peer; and that happens to our
    own user only, when the peer stops taking answers, or when it is silent and either the
    pre-auth time-out could not be set or the peer has sent the bearer and the time-out is
    cleared. So a connection that sends nothing is closed, and an authenticated idle client
    never is: it has had the answer to every line and can go on. *)
Theorem connection_ends_or_waits `{!SerdeLaws} others (same_uid : bool) (bearer : string) c :
  recv_timeout (reader c) = None →
  let e := (handle_conn (conn_fuel c) others same_uid bearer c).1 in
  let c' := (handle_conn (conn_fuel c) others same_uid bearer c).2 in
  e ≠ OutOfFuel
  ∧ (e = Waits →
     same_uid = true ∧ clone_error (calls (reader c)) = None
     ∧ (blocks_writes (calls (reader c)) = true ∧ writes_left c' = Some O
        ∨ tail (reader c) = Silent
          ∧ (sets_timeout (calls (reader c)) = false
             ∨ clears_timeout (calls (reader c)) = true
               ∧ parse_auth (trim (first_line (reader c))) = Some bearer)))
  ∧ (∀ auth bodies,
       Forall line_ok (auth :: bodies) → same_uid = true →
       authorized (wire_line auth) bearer = true →
       reader c = sends (wire (auth :: bodies)) Silent → writes_left c = None →
       e = Waits
       ∧ written c' = written c ++ ready_json :: (answers others (turns c) bodies (daemon c)).1).
Proof.
  intros Ht e c'. split_and!.
  - apply handle_conn_in_fuel.
  - subst e c'. by apply handle_conn_waits.
  - intros auth bodies Hok -> Ha Hr Hw. subst e c'.
    rewrite (handle_conn_welcomes others bearer auth bodies c) by (try rewrite Hr; done).
    rewrite Hr. done.
Qed.

(** A request line that is short but is not UTF-8 is answered "request too large". *)
Theorem binary_line_called_too_large others fuel c (line rest : string) :
  cut_line (N.to_nat MAX_LINE) (pending (reader c)) = (line, rest) →
  ends_with_newline line = true → utf8_valid line = false →
  writes_left c = None →
  (request_loop (S fuel) others c).1 = Closed
  ∧ written (request_loop (S fuel) others c).2 = written c ++ [err_json "request too large"].
Proof.
  intros E Hnl Hu Hw. cbn [request_loop]. unfold loop_turn, read_capped_line. rewrite E, Hnl, Hu. simpl.
  unfold write_line, set_reader. by rewrite Hw.
Qed.

End connections.

(** ** A concrete server *)

Module ExampleServer.

#[local] Instance crypto : Crypto := ExampleCrypto.crypto.
#[local] Instance debug : StrDebug := ExampleDaemon.debug.

(** A toy wire format: the token is the line itself, the only request is [share]. *)
Definition serde : Serde := {|
  parse_auth s := if str_is_empty s then None else Some s;
  parse_request s :=
    if decide (s = "join") then Ok (Join "g") else
    if decide (s = "share") then Ok (ShareFile "g" ExampleDaemon.cid)
    else Err "unknown variant";
  encode_response resp :=
    Some match resp with Response.Ok => "ok" | Response.Error e => e | _ => "?" end;
  ct_eq a b := bool_decide (a = b);
|}.

Lemma laws : SerdeLaws (H:=serde).
Proof. split. intros a b _. by rewrite <-(bool_decide_eq_true (a = b)). Qed.

Definition d0 : ClusterDaemon.t SetMesh.t :=
  ClusterDaemon.with_factory ExampleDaemon.self ExampleDaemon.mk.

Definition alone (n : nat) (d : ClusterDaemon.t SetMesh.t) : ClusterDaemon.t SetMesh.t := d.

(** A client that sends these lines and closes. *)
Definition client (bodies : list string) : Conn SetMesh.t :=
  mkConn (sends (wire bodies) Eof) [] None d0 0.

(** A line of two bytes that are not UTF-8. *)
Definition binary : string := String "255" (String "254" (String "010" "")).

End ExampleServer.

Lemma read_capped_line_spec_witness :
  ∃ line, line +:+ "rest" = "ab" +:+ String "010" "rest" ∧ (String.length line <= 8)%nat.
Proof.
  destruct (read_capped_line_spec 8 (sends ("ab" +:+ String "010" "rest") Eof)
    (sends "rest" Eof) (Ok (3, "ab" +:+ String "010" "")) eq_refl)
    as (line & Hl & _ & Hlen & _).
  exists line. split; [exact Hl|exact Hlen].
Defined.

Lemma no_request_without_the_bearer_witness :
  daemon (handle_conn (H:=ExampleCrypto.crypto) (H0:=ExampleDaemon.debug)
    (H1:=ExampleServer.serde) 9 ExampleServer.alone true "secret"
    (ExampleServer.client ["guess"; "join"])).2 = ExampleServer.d0.
Proof.
  refine (proj1 (no_request_without_the_bearer (H:=ExampleCrypto.crypto)
    (H0:=ExampleDaemon.debug) (H1:=ExampleServer.serde)
    (H2:=ExampleServer.laws) 9 ExampleServer.alone true "secret"
    (ExampleServer.client ["guess"; "join"]) _)).
  intros _ Heq. vm_compute in Heq. discriminate Heq.
Defined.

Lemma connection_answers_in_order_witness :
  (handle_conn (H:=ExampleCrypto.crypto) (H0:=ExampleDaemon.debug) (H1:=ExampleServer.serde)
    (conn_fuel (ExampleServer.client ["secret"; "join"; " "; "nonsense"]))
    ExampleServer.alone true "secret"
    (ExampleServer.client ["secret"; "join"; " "; "nonsense"])).1 = Closed.
Proof.
  refine (f_equal fst (connection_answers_in_order (H:=ExampleCrypto.crypto)
    (H0:=ExampleDaemon.debug) (H1:=ExampleServer.serde) ExampleServer.alone "secret" "secret"
    ["join"; " "; "nonsense"] ExampleServer.d0 _ _)); [|vm_compute; reflexivity].
  repeat (apply Forall_cons; split); [..|apply Forall_nil_2];
    (split; [vm_compute; reflexivity|split; [vm_compute; reflexivity|]]);
    apply Nat.ltb_lt; vm_compute; reflexivity.
Defined.

(** A client that sends the token and goes silent holds its thread; one that sends nothing,
    with the time-out in force, does not. *)
Lemma connection_ends_or_waits_witness :
  let run c := (handle_conn (H:=ExampleCrypto.crypto) (H0:=ExampleDaemon.debug)
    (H1:=ExampleServer.serde) (conn_fuel c) ExampleServer.alone true "secret" c).1 in
  run (mkConn (sends (wire ["secret"; "join"]) Silent) [] None ExampleServer.d0 0) = Waits
  ∧ run (mkConn (sends "" Silent) [] None ExampleServer.d0 0) ≠ Waits.
Proof.
  split.
  - refine (proj1 (proj2 (proj2 (connection_ends_or_waits (H:=ExampleCrypto.crypto)
      (H0:=ExampleDaemon.debug) (H1:=ExampleServer.serde) (H2:=ExampleServer.laws)
      ExampleServer.alone true "secret"
      (mkConn (sends (wire ["secret"; "join"]) Silent) [] None ExampleServer.d0 0) eq_refl))
      "secret" ["join"] _ eq_refl _ eq_refl eq_refl)); [|vm_compute; reflexivity].
    repeat (apply Forall_cons; split); [..|apply Forall_nil_2];
      (split; [vm_compute; reflexivity|split; [vm_compute; reflexivity|]]);
      apply Nat.ltb_lt; vm_compute; reflexivity.
  - intros Hw.
    destruct (proj1 (proj2 (connection_ends_or_waits (H:=ExampleCrypto.crypto)
      (H0:=ExampleDaemon.debug) (H1:=ExampleServer.serde) (H2:=ExampleServer.laws)
      ExampleServer.alone true "secret"
      (mkConn (sends "" Silent) [] None ExampleServer.d0 0) eq_refl)) Hw)
      as (_ & _ & [[Hb _]|[_ [Hs|[_ Hb]]]]); [discriminate Hb|discriminate Hs|].
    vm_compute in Hb. discriminate Hb.
Defined.

Lemma server_refines_events_witness :
  ∃ served, daemon (handle_conn (H:=ExampleCrypto.crypto) (H0:=ExampleDaemon.debug)
      (H1:=ExampleServer.serde) 9 ExampleServer.alone true "secret"
      (ExampleServer.client ["secret"; "join"])).2
    = run_events (H:=ExampleCrypto.crypto) (H0:=ExampleDaemon.debug)
        (trace_of (λ _, []) 0 served) ExampleServer.d0.
Proof.
  destruct (server_refines_events (H:=ExampleCrypto.crypto) (H0:=ExampleDaemon.debug)
    (H1:=ExampleServer.serde) ExampleServer.alone (λ _, []) 9 true "secret"
    (ExampleServer.client ["secret"; "join"])) as (served & _ & Hrun & _).
  - intros n d. reflexivity.
  - exists served. exact Hrun.
Defined.

Lemma binary_line_called_too_large_witness :
  written (request_loop (H:=ExampleCrypto.crypto) (H0:=ExampleDaemon.debug)
    (H1:=ExampleServer.serde) 1 ExampleServer.alone
    (mkConn (sends ExampleServer.binary Eof) [] None ExampleServer.d0 0)).2
  = ["request too large"].
Proof.
  refine (proj2 (binary_line_called_too_large (H:=ExampleCrypto.crypto)
    (H0:=ExampleDaemon.debug) (H1:=ExampleServer.serde) ExampleServer.alone 0
    (mkConn (sends ExampleServer.binary Eof) [] None ExampleServer.d0 0)
    ExampleServer.binary "" _ _ _ _)); vm_compute; reflexivity.
Defined.
