(* ===== verification/Serve.v ===== *)
(** * Serving the control socket (crates/cluster-daemon/src/server.rs)

    [bind_hardened] and [harden] over a process's umask and the modes of the file system, and
    [serve]: the accept loop with one thread a connection over the shared daemon, as a
    transition system whose schedules interleave the threads' turns. *)

From S2P Require Import Prelude RustStr Session Transport DeviceWire Daemon Ipc DaemonInv.
From S2P Require Import DaemonSafety Server.
Local Open Scope N_scope.

(** ** Names *)

(** [endpoint_name] on Windows: the base name with every other character a dash, one dash a
    character, so the continuation bytes of UTF-8 are dropped. *)
Fixpoint endpoint_slug (base : string) : string :=
  match base with
  | "" => ""
  | String c s =>
      if slug_char c then String c (endpoint_slug s)
      else if utf8_tail c then endpoint_slug s
      else String "-" (endpoint_slug s)
  end.

Lemma endpoint_slug_char base : str_all slug_char (endpoint_slug base) = true.
Proof.
  induction base as [|c base IH]; [done|]. simpl.
  destruct (slug_char c) eqn:E; simpl; [by rewrite E|]. by destruct (utf8_tail c).
Qed.

Lemma endpoint_slug_id base : str_all slug_char base = true → endpoint_slug base = base.
Proof.
  induction base as [|c base IH]; [done|]. simpl. intros [-> Hb]%andb_true_iff.
  by rewrite IH.
Qed.

(** A pipe's name is over the slug's alphabet whatever the socket path, and a name that
    already is stays itself, so both ends may apply the rule. *)
Theorem endpoint_slug_spec (base : string) :
  str_all slug_char (endpoint_slug base) = true
  ∧ endpoint_slug (endpoint_slug base) = endpoint_slug base.
Proof. pose proof (endpoint_slug_char base). split; [done|by apply endpoint_slug_id]. Qed.

(** ** The peer *)

(** [peer_uid_matches] on Windows, where a pipe gives no credentials. *)
Definition peer_uid_matches_windows : bool := true.

(** [peer_uid_matches] on Unix: what the credentials call returned, and the peer's user. *)
Definition peer_uid_matches (cred : Z * N) (euid : N) : bool :=
  peer_uid_decision cred.1 cred.2 euid.

(** ** Binding *)

(** What the socket calls read and change: the umask, and the mode of each path. *)
Record Os := mkOs {
  umask : N;
  modes : gmap string N;
}.

Definition set_umask (m : N) (os : Os) : Os := mkOs m (modes os).
Definition set_mode (path : string) (m : N) (os : Os) : Os :=
  mkOs (umask os) (<[path := m]> (modes os)).

(** The calls into the socket library and the file system that can fail: a path as a socket
    name or a base name as a pipe's, [ListenerOptions::create_sync] on a name, and [chmod] on
    a path that exists. *)
Class LocalSocket := {
  to_fs_name : string → result string string;
  to_ns_name : string → result string string;
  create_sync : string → Os → result unit string * Os;
  chmod_refused : string → option string;
}.

(** [bind(2)]: a socket file is new, and has the mode [0777 & !umask]. *)
Class LocalSocketLaws `{!LocalSocket} : Prop := {
  create_sync_umask name os : umask (create_sync name os).2 = umask os;
  create_sync_modes name os p m :
    modes (create_sync name os).2 !! p = Some m →
    modes os !! p = Some m ∨ m = N.ldiff 511 (umask os);
}.

Section bind.
  Context `{!LocalSocket}.

(** [endpoint_name]: a path as it is on Unix, its slugged base name on Windows. [file_name] is
    the path's, where it has one and it is UTF-8. *)
Definition endpoint_name_unix (path : string) : result string string := to_fs_name path.

Definition endpoint_name_windows (file_name : option string) : result string string :=
  to_ns_name (endpoint_slug (default "citrate.sock" file_name)).

(** [bind_hardened] on Windows: the pipe has no entry in the file system to protect. *)
Definition bind_hardened_windows (path file_name : option string) (os : Os)
    : result unit string * Os :=
  match path with
  | None => (Err "socket path is not valid UTF-8", os)
  | Some _ =>
      match endpoint_name_windows file_name with
      | Err e => (Err e, os)
      | Ok name => create_sync name os
      end
  end.

(** [harden]: [metadata], then [chmod 0600]. *)
Definition harden (path : string) (os : Os) : result unit string * Os :=
  match modes os !! path with
  | None => (Err "No such file or directory (os error 2)", os)
  | Some _ =>
      match chmod_refused path with
      | Some e => (Err e, os)
      | None => (Ok tt, set_mode path 384 os)
      end
  end.

(** [bind_hardened] on Unix, with the states the process goes through. [path] is the socket
    path where it is UTF-8. *)
Definition bind_hardened (path parent : option string)
    (metadata : string → result (N * N) string) (euid : N) (os : Os)
    : result unit string * list Os :=
  match path with
  | None => (Err "socket path is not valid UTF-8", [os])
  | Some sock =>
      match check_socket_dir_for parent metadata euid with
      | Err e => (Err e, [os])
      | Ok _ =>
          match endpoint_name_unix sock with
          | Err e => (Err e, [os])
          | Ok name =>
              let old := umask os in
              let os1 := set_umask 127 os in
              let '(res, os2) := create_sync name os1 in
              let os3 := set_umask old os2 in
              match res with
              | Err e => (Err e, [os; os1; os2; os3])
              | Ok _ =>
                  let '(res, os4) := harden sock os3 in
                  (res, [os; os1; os2; os3; os4])
              end
          end
      end
  end.

(** [remove_file] of a stale socket, its error ignored; [removable] is whether it can be. *)
Definition remove_stale (path : option string) (removable : bool) (os : Os) : Os :=
  match path with
  | Some sock => if removable then mkOs (umask os) (delete sock (modes os)) else os
  | None => os
  end.

(** What [serve] does before it accepts. *)
Definition serve_bind (removable : bool) (path parent : option string)
    (metadata : string → result (N * N) string) (euid : N) (os : Os)
    : result unit string * list Os :=
  let os1 := remove_stale path removable os in
  let '(res, visited) := bind_hardened path parent metadata euid os1 in
  (res, os :: visited).

(** *** The socket is never open to others *)

(** Where the process is, against where it started: what it adds is for its own user only. *)
Definition closed_to_others (os0 os : Os) : Prop :=
  ∀ p m, modes os !! p = Some m → modes os0 !! p = Some m ∨ N.land m 63 = 0.

Lemma closed_refl os : closed_to_others os os.
Proof. by left. Qed.
#[local] Hint Resolve closed_refl : core.

Lemma closed_umask os0 os m : closed_to_others os0 os → closed_to_others os0 (set_umask m os).
Proof. done. Qed.

Lemma closed_mode os0 os p m :
  closed_to_others os0 os → N.land m 63 = 0 → closed_to_others os0 (set_mode p m os).
Proof.
  intros Hos Hm q m'. unfold set_mode. cbn [modes].
  destruct (decide (p = q)) as [<-|Hne]; [rewrite lookup_insert_eq; intros [= <-]; by right|].
  rewrite lookup_insert_ne by done. apply Hos.
Qed.

Lemma closed_create `{!LocalSocketLaws} os0 os name :
  closed_to_others os0 os → umask os = 127 → closed_to_others os0 (create_sync name os).2.
Proof.
  intros Hos Hu p m [Hm| ->]%create_sync_modes; [by apply Hos|right]. by rewrite Hu.
Qed.

Lemma closed_stale path removable os : closed_to_others os (remove_stale path removable os).
Proof.
  intros p m. unfold remove_stale. destruct path as [sock|]; [|by left].
  destruct removable; [|by left]. cbn [modes]. rewrite lookup_delete_Some. intros [_ Hm].
  by left.
Qed.

Lemma harden_spec path os res os' :
  harden path os = (res, os') →
  umask os' = umask os ∧ (∀ os0, closed_to_others os0 os → closed_to_others os0 os')
  ∧ (res = Ok tt → modes os' !! path = Some 384).
Proof.
  unfold harden. intros Hh. repeat case_match; simplify_eq; split_and!; try done.
  - intros os0 Hos. by apply closed_mode.
  - intros _. unfold set_mode. cbn [modes]. by rewrite lookup_insert_eq.
Qed.

Lemma closed_all os0 l : (∀ os, os ∈ l → closed_to_others os0 os) → Forall (closed_to_others os0) l.
Proof. by rewrite Forall_forall. Qed.

(** C20: The control socket is never open to another user, not for a moment: in every state the
    process goes through while it binds, each file that it added has no permission bit for
    the group or for others; whatever the outcome, the umask is restored; and binding
    succeeds only in a directory that passes the check, with the socket at mode 0600. *)
Theorem bind_never_exposes `{!LocalSocketLaws} (removable : bool)
    (path parent : option string) (metadata : string → result (N * N) string) (euid : N)
    (os : Os) res visited :
  serve_bind removable path parent metadata euid os = (res, visited) →
  Forall (closed_to_others os) visited
  ∧ umask (default os (last visited)) = umask os
  ∧ (res = Ok tt → check_socket_dir_for parent metadata euid = Ok tt
       ∧ ∃ sock, path = Some sock ∧ modes (default os (last visited)) !! sock = Some 384).
Proof.
  unfold serve_bind. set (os1 := remove_stale path removable os).
  assert (closed_to_others os os1) as Hos1 by apply closed_stale.
  assert (umask os1 = umask os) as Hu1 by (subst os1; by destruct path, removable).
  clearbody os1. unfold bind_hardened.
  destruct path as [sock|]; [|intros [= <- <-]; by split_and!; [apply closed_all; set_solver|..]].
  destruct (check_socket_dir_for _ _ _) as [[]|e];
    [|intros [= <- <-]; by split_and!; [apply closed_all; set_solver|..]].
  destruct (endpoint_name_unix sock) as [name|e];
    [|intros [= <- <-]; by split_and!; [apply closed_all; set_solver|..]].
  destruct (create_sync name _) as [r os2] eqn:E.
  assert (closed_to_others os os2) as Hos2.
  { replace os2 with (create_sync name (set_umask 127 os1)).2 by by rewrite E.
    by apply closed_create. }
  destruct r as [[]|e]; [|intros [= <- <-]; split_and!; [apply closed_all; set_solver|done..]].
  destruct (harden sock _) as [r os4] eqn:Eh. apply harden_spec in Eh as (Hu & Hc & Hm).
  intros [= <- <-]. split_and!.
  - assert (closed_to_others os os4) by by apply Hc. apply closed_all. set_solver.
  - simpl. by rewrite Hu.
  - intros Hr. split; [done|]. exists sock. split; [done|]. by apply Hm.
Qed.

End bind.

(** ** The threads *)

Section serve.
  Context {T : Type} `{!MeshTransport T, !Crypto, !StrDebug, !Serde}.
  Context (euid : N) (bearer : string).
  Implicit Types d : ClusterDaemon.t T.

Inductive Phase :=
| Handshaking
| Serving
| Ended (e : ended).

(** A connection's thread: the peer's credentials as the system call gives them (its return
    code and the user), what is left to read, what was written, how many more writes the
    peer takes, how many requests were served. *)
Record Client := mkClient {
  peer : Z * N;
  stream : Reader;
  out : list string;
  budget : option nat;
  served : nat;
  phase : Phase;
}.

(** The shared daemon and the threads, oldest first. *)
Record Server := mkServer {
  shared : ClusterDaemon.t T;
  clients : list Client;
}.

Definition conn_of d (c : Client) : Conn T := mkConn (stream c) (out c) (budget c) d (served c).

Definition after_turn (c : Client) (r : progress * Conn T) : ClusterDaemon.t T * Client :=
  let '(p, k) := r in
  (daemon k, mkClient (peer c) (reader k) (written k) (writes_left k) (turns k)
     (match p with Continue => Serving | Stop e => Ended e end)).

(** One turn of a thread: its handshake, or one line of its request loop. *)
Definition client_turn d (c : Client) : option (ClusterDaemon.t T * Client) :=
  match phase c with
  | Handshaking =>
      Some (after_turn c (handshake (peer_uid_matches (peer c) euid) bearer
                            (conn_of d c)))
  | Serving => Some (after_turn c (loop_turn (λ _ d, d) (conn_of d c)))
  | Ended _ => None
  end.

(** A schedule: connections accepted, turns taken, and what happens to the daemon from
    elsewhere (the network of a group, the factory's answers). *)
Inductive serve_label :=
| Accept (peer : Z * N) (stream : Reader) (budget : option nat)
| Turn (i : nat)
| Network (group : string) (f : T → T)
| Factory (mk : string → result T string).

Definition serve_step (l : serve_label) (st : Server) : option Server :=
  match l with
  | Accept p r b =>
      Some (mkServer (shared st) (clients st ++ [mkClient p r [] b 0 Handshaking]))
  | Turn i =>
      c ← clients st !! i;
      '(d, c) ← client_turn (shared st) c;
      Some (mkServer d (<[i := c]> (clients st)))
  | Network g f => Some (mkServer (run_event (EvNetwork g f) (shared st)) (clients st))
  | Factory mk => Some (mkServer (run_event (EvFactory mk) (shared st)) (clients st))
  end.

Definition serve_run (ls : list serve_label) (st : Server) : Server :=
  fold_left (λ st l, default st (serve_step l st)) ls st.

Definition serve_start d : Server := mkServer d [].

(** *** Theorems over every schedule *)

Implicit Types (st : Server) (c : Client) (ls : list serve_label).

(** What a step does to the shared daemon, as events of the daemon. *)
Definition step_events (l : serve_label) st : list (event T) :=
  match l with
  | Accept _ _ _ => []
  | Turn i =>
      match clients st !! i with
      | Some c => match phase c with Serving => opt_event (turn_request (stream c)) | _ => [] end
      | None => []
      end
  | Network g f => [EvNetwork g f]
  | Factory mk => [EvFactory mk]
  end.

Definition next (l : serve_label) st : Server := default st (serve_step l st).

Fixpoint events_of ls st : list (event T) :=
  match ls with
  | [] => []
  | l :: ls => step_events l st ++ events_of ls (next l st)
  end.

Definition accepted (l : serve_label) : option ((Z * N) * Reader * option nat) :=
  match l with Accept p r b => Some (p, r, b) | _ => None end.

(** The connections accepted, oldest first. *)
Definition accepts ls : list ((Z * N) * Reader * option nat) := omap accepted ls.

Lemma serve_run_snoc ls l st : serve_run (ls ++ [l]) st = next l (serve_run ls st).
Proof. apply fold_left_app. Qed.

Lemma events_of_snoc ls l st :
  events_of (ls ++ [l]) st = events_of ls st ++ step_events l (serve_run ls st).
Proof.
  revert st. induction ls as [|l' ls IH]; intros st; simpl; [by rewrite app_nil_r|].
  by rewrite IH, app_assoc.
Qed.

Lemma accepts_snoc ls l : accepts (ls ++ [l]) = accepts ls ++ option_list (accepted l).
Proof. unfold accepts. rewrite omap_app. simpl. by destruct (accepted l). Qed.

(** A turn's effect on the daemon is its request. *)
Lemma client_turn_events d c d' c' :
  client_turn d c = Some (d', c') →
  d' = run_events (match phase c with Serving => opt_event (turn_request (stream c))
                   | _ => [] end) d.
Proof.
  unfold client_turn. destruct (phase c); [| |done]; unfold after_turn.
  - destruct (handshake _ _ _) as [p k] eqn:E. apply handshake_quiet in E as (Hd & _).
    by intros [= <- _].
  - destruct (loop_turn _ _) as [p k] eqn:E.
    apply loop_turn_locked in E as (c2 & Hc2 & _ & Hd & [[_ Hk]|(_ & Hk & Hn)]); intros [= <- _].
    + rewrite Hk. exact Hd.
    + simpl in Hn. rewrite Hk, Hn. done.
Qed.

Lemma next_shared l st : shared (next l st) = run_events (step_events l st) (shared st).
Proof.
  unfold next. destruct l as [p r b|i|g f|mk]; [done| |done..]. simpl.
  destruct (clients st !! i) as [c|]; [|done]. simpl.
  destruct (client_turn (shared st) c) as [[d c']|] eqn:E; simpl.
  - by apply client_turn_events in E.
  - unfold client_turn in E. by destruct (phase c).
Qed.

Lemma serve_run_shared ls st :
  shared (serve_run ls st) = run_events (events_of ls st) (shared st).
Proof.
  revert st. induction ls as [|l ls IH]; intros st; [done|]. simpl.
  by rewrite run_events_app, <-next_shared, <-IH.
Qed.

(** *** Each connection of the pool *)

(** The states of the shared daemon just before each turn that connection [i] takes in its
    request loop, in the order of the schedule. *)
Definition turn_of (i : nat) (l : serve_label) st : list (ClusterDaemon.t T) :=
  match l with
  | Turn j =>
      if decide (j = i) then
        match clients st !! i with
        | Some c => match phase c with Serving => [shared st] | _ => [] end
        | None => []
        end
      else []
  | _ => []
  end.

Fixpoint turns_of (i : nat) ls st : list (ClusterDaemon.t T) :=
  match ls with
  | [] => []
  | l :: ls => turn_of i l st ++ turns_of i ls (next l st)
  end.

Lemma turns_of_snoc i ls l st :
  turns_of i (ls ++ [l]) st = turns_of i ls st ++ turn_of i l (serve_run ls st).
Proof.
  revert st. induction ls as [|l' ls IH]; intros st; simpl; [by rewrite app_nil_r|].
  by rewrite IH, app_assoc.
Qed.

(** A connection after a step: just accepted, after a turn of its own, or as it was. *)
Lemma next_client i l st c :
  clients (next l st) !! i = Some c →
  (∃ p r b, l = Accept p r b ∧ i = List.length (clients st)
     ∧ c = mkClient p r [] b 0 Handshaking)
  ∨ (∃ c0 d', clients st !! i = Some c0 ∧ client_turn (shared st) c0 = Some (d', c)
       ∧ turn_of i l st = match phase c0 with Serving => [shared st] | _ => [] end
       ∧ accepted l = None)
  ∨ clients st !! i = Some c ∧ turn_of i l st = [].
Proof.
  unfold next, turn_of. destruct l as [p r b|j|g f|mk]; simpl; [|..|by auto|by auto].
  - rewrite lookup_app_Some, list_lookup_singleton_Some.
    intros [Hc|(Hge & Hi & <-)]; [by auto|left]. exists p, r, b. split_and!; [done|lia|done].
  - destruct (clients st !! j) as [c0|] eqn:Ej; simpl.
    2: { intros Hc. rewrite decide_False by congruence. auto. }
    destruct (client_turn (shared st) c0) as [[d' c']|] eqn:Et; simpl.
    + destruct (decide (j = i)) as [->|Hne].
      * rewrite list_lookup_insert_eq by by eapply lookup_lt_Some. intros [= <-]. right; left.
        rewrite Ej. eauto 10.
      * rewrite list_lookup_insert_ne by done. auto.
    + intros Hc. right; right. split; [done|]. case_decide as Hi; [|done]. subst.
      rewrite Ej. unfold client_turn in Et. by destruct (phase c0).
Qed.

Lemma next_clients_length l st :
  List.length (clients (next l st))
  = (List.length (clients st) + List.length (option_list (accepted l)))%nat.
Proof.
  unfold next. destruct l as [p r b|j|g f|mk]; simpl; rewrite ?length_app; simpl; try lia.
  destruct (clients st !! j) as [c|]; simpl; [|lia].
  destruct (client_turn _ c) as [[d' c']|]; simpl; rewrite ?length_insert; lia.
Qed.

Lemma clients_length ls d :
  List.length (clients (serve_run ls (serve_start d))) = List.length (accepts ls).
Proof.
  induction ls as [|l ls IH] using rev_ind; [done|].
  by rewrite serve_run_snoc, accepts_snoc, length_app, next_clients_length, IH.
Qed.

Lemma turns_of_unborn i ls d :
  (List.length (clients (serve_run ls (serve_start d))) <= i)%nat →
  turns_of i ls (serve_start d) = [].
Proof.
  induction ls as [|l ls IH] using rev_ind; [done|].
  rewrite serve_run_snoc, turns_of_snoc, next_clients_length. intros Hi.
  rewrite IH by lia. unfold turn_of. destruct l as [| j | |]; try done.
  by rewrite lookup_ge_None_2 by lia; case_decide.
Qed.

(** What holds of a connection as it is accepted, and is kept by its own turns, holds of every
    connection under every schedule. *)
Lemma clients_ind (P : (Z * N) * Reader * option nat → list (ClusterDaemon.t T) → Client → Prop) :
  (∀ p r b, P (p, r, b) [] (mkClient p r [] b 0 Handshaking)) →
  (∀ a ds d c d' c', P a ds c → client_turn d c = Some (d', c') →
     P a (ds ++ match phase c with Serving => [d] | _ => [] end) c') →
  ∀ ls d i a c, accepts ls !! i = Some a → clients (serve_run ls (serve_start d)) !! i = Some c →
    P a (turns_of i ls (serve_start d)) c.
Proof.
  intros Hacc Hturn ls d. induction ls as [|l ls IH] using rev_ind; intros i a c Ha Hc; [done|].
  rewrite serve_run_snoc in Hc. rewrite accepts_snoc in Ha. rewrite turns_of_snoc.
  pose proof (clients_length ls d) as Hlen.
  destruct (next_client _ _ _ _ Hc)
    as [(p & r & b & -> & -> & ->)|[(c0 & d' & Hc0 & Ht & -> & Hl)|[Hc0 ->]]].
  - rewrite lookup_app_r in Ha by lia. rewrite <-Hlen, Nat.sub_diag in Ha.
    injection Ha as <-. rewrite turns_of_unborn by done. simpl. apply Hacc.
  - rewrite Hl, app_nil_r in Ha. eapply Hturn; [by apply IH|done].
  - rewrite app_nil_r. apply IH; [|done].
    rewrite lookup_app_l in Ha; [done|]. rewrite <-Hlen. by eapply lookup_lt_Some.
Qed.

(** A serving thread shook hands, as our own user, on the bearer; what it still has to read
    is the rest of what it was sent. *)
Definition followed (a : (Z * N) * Reader * option nat) (ds : list (ClusterDaemon.t T)) c : Prop :=
  match phase c with
  | Handshaking => stream c = a.1.2 ∧ peer c = a.1.1
  | Serving =>
      peer_uid_matches a.1.1 euid = true ∧ parse_auth (trim (first_line a.1.2)) = Some bearer
      ∧ ∃ pre, pending a.1.2 = pre +:+ pending (stream c)
  | Ended _ => True
  end.

Lemma loop_turn_rest others (c c' : Conn T) p :
  loop_turn others c = (p, c') → ∃ line, pending (reader c) = line +:+ pending (reader c').
Proof.
  intros Ht. destruct (loop_turn_locked _ _ _ _ Ht) as (c2 & Hc2 & Hio & _).
  assert (∀ (n : nat) d, (λ (_ : nat) d, d) n d = run_events [] d) as Hes by done.
  destruct (loop_turn_acted _ _ _ _ _ Hes Hc2) as [_ [line Hl]].
  exists line. rewrite (proj1 Hio). exact Hl.
Qed.

Lemma followed_turn `{!SerdeLaws} a ds ds' d c d' c' :
  followed a ds c → client_turn d c = Some (d', c') → followed a ds' c'.
Proof.
  unfold followed at 1, client_turn, after_turn. destruct (phase c); [| |done].
  - intros [Hs Hp] Ht. destruct (handshake _ _ _) as [p k] eqn:E. simplify_eq.
    destruct p as [|e]; [|done]. pose proof (handshake_decides _ _ _ _ _ E) as [Hu Hb].
    apply handshake_quiet in E as (_ & _ & Hl). unfold followed. simpl in *.
    by rewrite <-Hs, <-Hp.
  - intros (Hu & Hb & [pre Hpre]) Ht. destruct (loop_turn _ _) as [p k] eqn:E. simplify_eq.
    destruct p as [|e]; [|done]. apply loop_turn_rest in E as [line Hl]. unfold followed.
    simpl in *. split_and!; [done..|]. exists (pre +:+ line).
    by rewrite Hpre, Hl, str_app_assoc.
Qed.

Lemma run_followed `{!SerdeLaws} ls d i a c :
  accepts ls !! i = Some a → clients (serve_run ls (serve_start d)) !! i = Some c →
  followed a (turns_of i ls (serve_start d)) c.
Proof.
  apply (clients_ind followed); [done|]. intros a' ds d1 c1 d' c1'. apply followed_turn.
Qed.

(** A request reaches the daemon from a connection of our own user whose first line carries
    the bearer, and is one of its lines. *)
Definition authenticated (a : (Z * N) * Reader * option nat) (req : Request) : Prop :=
  a.1.1.1 = 0%Z ∧ a.1.1.2 = euid ∧ parse_auth (trim (first_line a.1.2)) = Some bearer
  ∧ asked_in (pending a.1.2) (Some req).

Lemma serving_authenticated `{!SerdeLaws} a ds c req :
  followed a ds c → phase c = Serving → turn_request (stream c) = Some req →
  authenticated a req.
Proof.
  unfold followed. intros Hf Hph Hreq. rewrite Hph in Hf. destruct Hf as (Hp & Hb & [pre Hpre]).
  unfold peer_uid_matches, peer_uid_decision in Hp.
  apply andb_true_iff in Hp as [Hrc%bool_decide_eq_true Hu%N.eqb_eq]. split_and!; [done..|].
  rewrite Hpre. by apply asked_in_later, turn_request_asked.
Qed.

Lemma step_event_authenticated `{!SerdeLaws} ls l d req :
  EvRequest req ∈ step_events l (serve_run ls (serve_start d)) →
  ∃ a, a ∈ accepts ls ∧ authenticated a req.
Proof.
  destruct l as [p r b|i|g f|mk]; simpl; [set_solver| |set_solver..].
  destruct (clients _ !! i) as [c|] eqn:Ec; [|set_solver].
  destruct (lookup_lt_is_Some_2 (accepts ls) i) as [a Ha].
  { rewrite <-(clients_length ls d). by eapply lookup_lt_Some. }
  pose proof (run_followed ls d i a c Ha Ec) as Hf.
  destruct (phase c) eqn:Ep; [set_solver| |set_solver].
  destruct (turn_request (stream c)) as [req'|] eqn:Er; simpl; [|set_solver].
  rewrite list_elem_of_singleton. intros [= <-]. exists a.
  split; [by eapply list_elem_of_lookup_2|]. by eapply serving_authenticated.
Qed.

Lemma events_authenticated `{!SerdeLaws} ls d req :
  EvRequest req ∈ events_of ls (serve_start d) →
  ∃ a, a ∈ accepts ls ∧ authenticated a req.
Proof.
  induction ls as [|l ls IH] using rev_ind; [set_solver|].
  rewrite events_of_snoc, accepts_snoc, elem_of_app.
  intros [(a & Ha & ?)%IH|(a & Ha & ?)%step_event_authenticated]; exists a; set_solver.
Qed.

(** C9: The server adds no way to act on the daemon. Under any schedule of connections, of
    their threads' turns and of what happens to the daemon elsewhere, the shared daemon goes
    through exactly a sequence of its own events, one request a turn, none lost and none
    overlapping; and every request among them is a line of a connection that the system says
    is our own user's and whose first line carries the bearer. *)
Theorem serve_refines_events `{!SerdeLaws} ls d :
  shared (serve_run ls (serve_start d)) = run_events (events_of ls (serve_start d)) d
  ∧ ∀ req, EvRequest req ∈ events_of ls (serve_start d) →
      ∃ a, a ∈ accepts ls ∧ authenticated a req.
Proof.
  split; [apply serve_run_shared|]. intros req. apply events_authenticated.
Qed.

(** *** What each connection of the pool is told *)

(** The answer of a line, computed on [d]; nothing for a blank one. *)
Definition line_answers (b : string) d : list string :=
  if str_is_empty (trim (wire_line b)) then [] else [(answer_line (wire_line b) d).1].

(** The answers to the lines that had their turn, each on the daemon of its turn. *)
Fixpoint answers_at (bodies : list string) (ds : list (ClusterDaemon.t T)) : list string :=
  match bodies, ds with
  | b :: bodies, d :: ds => line_answers b d ++ answers_at bodies ds
  | _, _ => []
  end.

Lemma answers_at_nil bodies : answers_at bodies [] = [].
Proof. by destruct bodies. Qed.

Lemma answers_at_snoc bodies ds d :
  answers_at bodies (ds ++ [d])
  = answers_at bodies ds
    ++ match drop (List.length ds) bodies with b :: _ => line_answers b d | [] => [] end.
Proof.
  revert ds. induction bodies as [|b bodies IH]; intros [|d' ds]; simpl; try done.
  - by destruct bodies; rewrite ?app_nil_r.
  - by rewrite IH, app_assoc.
Qed.

(** How a connection ends that is done with its lines. *)
Definition tail_end (t : Tail) : ended :=
  match t with Eof => Closed | Broken k => Failed k | Silent => Waits end.

(** The peer is ours and its first line carries the bearer. *)
Definition welcome (p : Z * N) (auth : string) : Prop :=
  p = (0%Z, euid) ∧ parse_auth (trim (wire_line auth)) = Some bearer.

(** A connection that was sent [auth] and [bodies], after its turns on the daemons [ds]. *)
Definition told (p : Z * N) (auth : string) (bodies : list string) (t : Tail)
    (ds : list (ClusterDaemon.t T)) c : Prop :=
  match phase c with
  | Handshaking => ds = [] ∧ out c = []
  | Serving =>
      welcome p auth ∧ (List.length ds <= List.length bodies)%nat
      ∧ out c = ready_json :: answers_at bodies ds
  | Ended e =>
      welcome p auth ∧ List.length ds = S (List.length bodies) ∧ e = tail_end t
      ∧ out c = ready_json :: answers_at bodies ds
      ∨ ¬ welcome p auth ∧ ds = [] ∧ e = Closed
        ∧ out c = if decide (p = (0%Z, euid)) then [err_json "unauthorized"] else []
  end.

(** What the thread has besides. *)
Definition pooled (p : Z * N) (auth : string) (bodies : list string) (t : Tail)
    (ds : list (ClusterDaemon.t T)) c : Prop :=
  told p auth bodies t ds c
  ∧ match phase c with
    | Handshaking => stream c = sends (wire (auth :: bodies)) t ∧ peer c = p ∧ budget c = None
    | Serving => stream c = sends (wire (drop (List.length ds) bodies)) t ∧ budget c = None
    | Ended _ => True
    end.

Lemma peer_uid_matches_iff p : peer_uid_matches p euid = true ↔ p = (0%Z, euid).
Proof.
  unfold peer_uid_matches, peer_uid_decision. rewrite andb_true_iff, bool_decide_eq_true, N.eqb_eq.
  destruct p as [rc u]. naive_solver.
Qed.

(** The handshake of such a connection. *)
Lemma handshake_sends `{!SerdeLaws} p auth bodies t d k q :
  line_ok auth →
  handshake (peer_uid_matches p euid) bearer (mkConn (sends (wire (auth :: bodies)) t) [] None d k)
  = q →
  welcome p auth ∧ q = (Continue, mkConn (sends (wire bodies) t) [ready_json] None d k)
  ∨ ¬ welcome p auth ∧ q.1 = Stop Closed
    ∧ written q.2 = if decide (p = (0%Z, euid)) then [err_json "unauthorized"] else [].
Proof.
  intros Hok <-. unfold welcome. rewrite <-authorized_iff.
  destruct (peer_uid_matches p euid) eqn:Hu.
  - apply peer_uid_matches_iff in Hu. rewrite decide_True by done.
    destruct (authorized (wire_line auth) bearer) eqn:Ha; [left|right].
    + destruct (handshake_welcomes bearer auth (wire bodies)
        (mkConn (sends (wire (auth :: bodies)) t) [] None d k))
        as ([[pp tt ck rt] w wl d' n] & -> & Hp & Ht & Hc & Hr & Hw & Hl & Hd & Hn); [done..|].
      simpl in *. specialize (Hr eq_refl). by subst.
    + split; [naive_solver|]. unfold handshake, authenticate. cbn [negb].
      rewrite (read_capped_line_wire auth (wire bodies)) by done.
      change (clone_error _) with (None (A:=ErrorKind)). cbv iota.
      by rewrite str_len_wire_line, Ha.
  - right. rewrite decide_False; [|intros Hp%peer_uid_matches_iff; congruence].
    split; [|done]. intros [Hp%peer_uid_matches_iff _]. congruence.
Qed.

Lemma pooled_turn `{!SerdeLaws} p auth bodies t ds d c d' c' :
  Forall line_ok (auth :: bodies) → t ≠ Broken InvalidData →
  pooled p auth bodies t ds c → client_turn d c = Some (d', c') →
  pooled p auth bodies t (ds ++ match phase c with Serving => [d] | _ => [] end) c'.
Proof.
  intros Hok Ht. inversion Hok as [|? ? Hauth Hbs]; subst.
  unfold pooled at 1, told, client_turn. destruct (phase c) eqn:Ep; [| |done].
  - intros [[-> Ho] (Hs & Hp & Hb)]. unfold conn_of. rewrite Hs, Hp, Ho, Hb.
    destruct (handshake _ _ _) as [q k] eqn:E. intros Hc. simplify_eq/=.
    apply handshake_sends in E as [[Hw Hq]|(Hw & Hq & Ho')]; [|..|done]; simplify_eq/=.
    + split; unfold told; simpl; rewrite ?answers_at_nil, ?drop_0; split_and!; try done; lia.
    + split; [|done]. unfold told. simpl. right. done.
  - intros [(Hw & Hlen & Ho) [Hs Hb]]. unfold conn_of. rewrite Hs, Hb.
    destruct (drop (List.length ds) bodies) as [|b rest] eqn:Ed.
    + rewrite loop_turn_end; [|done|by unfold past_end; destruct t; naive_solver].
      intros Hc. simplify_eq/=. split; [|done]. unfold told. simpl. left.
      rewrite answers_at_snoc, Ed, app_nil_r, length_app. simpl.
      apply (f_equal List.length) in Ed. rewrite length_drop in Ed. simpl in Ed.
      split_and!; [done|lia|by destruct t|done].
    + assert (line_ok b ∧ rest = drop (S (List.length ds)) bodies) as [Hb' ->].
      { split.
        - eapply (Forall_forall _ (drop (List.length ds) bodies)); [by apply Forall_drop|].
          rewrite Ed. left.
        - by rewrite <-(skipn_skipn 1), Ed. }
      rewrite (loop_turn_line _ b (wire (drop (S (List.length ds)) bodies))) by done.
      apply (f_equal List.length) in Ed as Hl. rewrite length_drop in Hl. simpl in Hl.
      unfold pooled, told, line_answers in *. rewrite answers_at_snoc, Ed. unfold line_answers.
      destruct (str_is_empty _); [|destruct (answer_line _ _) as [o d1]]; intros Hc; simplify_eq/=;
        rewrite length_app; simpl; rewrite Nat.add_1_r; split_and!; try done; try lia.
      all: by rewrite Ho, ?app_nil_r.
Qed.

Lemma run_pooled `{!SerdeLaws} ls d i p auth bodies t c :
  Forall line_ok (auth :: bodies) → t ≠ Broken InvalidData →
  accepts ls !! i = Some (p, sends (wire (auth :: bodies)) t, None) →
  clients (serve_run ls (serve_start d)) !! i = Some c →
  pooled p auth bodies t (turns_of i ls (serve_start d)) c.
Proof.
  intros Hok Ht Ha Hc. revert Ha Hc.
  set (a := (p, sends (wire (auth :: bodies)) t, None)). intros Ha Hc.
  apply (clients_ind (λ a' ds c, a' = a → pooled p auth bodies t ds c)) with (a := a); try done.
  - intros p' r b Heq. subst a. by simplify_eq.
  - intros a' ds d1 c1 d' c1' IH Hs Heq. by eapply pooled_turn; [..|apply IH|].
Qed.

(** C18: Threads do not mix connections up. Whatever the schedule, a connection that was sent
    well-formed lines is told [ready] and then, line by line in the order it sent them,
    exactly the answer of the request handler on the shared daemon as it was at that turn,
    when its peer is of our own user and its first line carries the bearer: it is told
    nothing else, and it ends when its lines are done, as the stream does. Any other peer
    takes no turn on the daemon, and is told nothing, or [unauthorized] if it is ours. *)
Theorem pool_answers_in_order `{!SerdeLaws} ls d i p auth bodies t c :
  accepts ls !! i = Some (p, sends (wire (auth :: bodies)) t, None) →
  clients (serve_run ls (serve_start d)) !! i = Some c →
  Forall line_ok (auth :: bodies) → t ≠ Broken InvalidData →
  told p auth bodies t (turns_of i ls (serve_start d)) c.
Proof.
  intros Ha Hc Hok Ht. by apply (run_pooled ls d i p auth bodies t c).
Qed.

End serve.
Global Arguments Server T : clear implicits.
Global Arguments serve_label T : clear implicits.

(** ** A concrete server *)

Module ExampleServe.

#[local] Instance crypto : Crypto := ExampleCrypto.crypto.
#[local] Instance debug : StrDebug := ExampleDaemon.debug.
#[local] Instance serde : Serde := ExampleServer.serde.

(** [bind(2)] on names that are paths. *)
Definition sockets : LocalSocket := {|
  to_fs_name path := Ok path;
  to_ns_name base := Ok base;
  create_sync name os :=
    match modes os !! name with
    | Some _ => (Err "Address already in use (os error 98)", os)
    | None => (Ok tt, set_mode name (N.ldiff 511 (umask os)) os)
    end;
  chmod_refused _ := None;
|}.

Lemma socket_laws : LocalSocketLaws (H:=sockets).
Proof.
  split; intros name os; simpl; destruct (modes os !! name); try done; [auto|].
  intros p m. destruct (decide (name = p)) as [<-|Hne]; simpl.
  - rewrite lookup_insert_eq. intros [= <-]. by right.
  - rewrite lookup_insert_ne by done. auto.
Qed.

(** A world-readable stale socket, under the usual umask. *)
Definition os : Os := mkOs 18 {["/run/c.sock" := 438]}.

Definition metadata (dir : string) : result (N * N) string :=
  if bool_decide (dir = "/run") then Ok (0, 493) else Err "no such directory".

(** Two connections of user 7: one with the bearer, which asks to join, and one without. *)
Definition schedule : list (serve_label SetMesh.t) :=
  [Accept (0%Z, 7) (sends (wire ["secret"; "join"]) Eof) None;
   Accept (0%Z, 7) (sends (wire ["guess"; "share"]) Silent) None;
   Turn 1; Turn 0; Turn 1; Turn 0; Turn 0].

Definition final : Server SetMesh.t :=
  serve_run 7 "secret" schedule (serve_start ExampleServer.d0).

Definition first : Client :=
  mkClient (0%Z, 7) (sends "" Eof) [ready_json; "ok"] None 1 (Ended Closed).

Lemma first_ends :
  clients (serve_run 7 "secret" schedule (serve_start ExampleServer.d0)) !! 0%nat = Some first.
Proof. vm_compute. reflexivity. Qed.

End ExampleServe.

Lemma bind_never_exposes_witness :
  ∃ os', last (serve_bind (H:=ExampleServe.sockets) true (Some "/run/c.sock") (Some "/run")
      ExampleServe.metadata 7 ExampleServe.os).2 = Some os'
    ∧ umask os' = 18 ∧ modes os' !! "/run/c.sock" = Some 384.
Proof.
  destruct (serve_bind (H:=ExampleServe.sockets) true (Some "/run/c.sock") (Some "/run")
    ExampleServe.metadata 7 ExampleServe.os) as [res visited] eqn:E.
  destruct (bind_never_exposes (H:=ExampleServe.sockets) (H0:=ExampleServe.socket_laws) true
    (Some "/run/c.sock") (Some "/run") ExampleServe.metadata 7 ExampleServe.os res visited E)
    as (_ & Hu & Hm).
  vm_compute in E. injection E as <- <-. destruct (Hm eq_refl) as (_ & sock & [= <-] & Hs).
  eexists. split; [reflexivity|]. split; [exact Hu|exact Hs].
Defined.

Lemma serve_refines_events_witness :
  shared ExampleServe.final
  = run_events (H:=ExampleCrypto.crypto) (H0:=ExampleDaemon.debug) [EvRequest (Join "g")]
      ExampleServer.d0
  ∧ ∃ a, a ∈ accepts ExampleServe.schedule
      ∧ authenticated (H1:=ExampleServer.serde) 7 "secret" a (Join "g").
Proof.
  destruct (serve_refines_events (H:=ExampleCrypto.crypto) (H0:=ExampleDaemon.debug)
    (H1:=ExampleServer.serde) (H2:=ExampleServer.laws) 7 "secret" ExampleServe.schedule
    ExampleServer.d0) as [Hs Ha].
  assert (events_of (H:=ExampleCrypto.crypto) (H0:=ExampleDaemon.debug)
    (H1:=ExampleServer.serde) 7 "secret" ExampleServe.schedule
    (serve_start ExampleServer.d0) = [EvRequest (Join "g")]) as E
    by (vm_compute; reflexivity).
  rewrite E in Hs, Ha. split; [exact Hs|]. apply Ha. left.
Defined.

(** The client with the bearer: one turn for its request and one to see the stream end. *)
Lemma pool_answers_in_order_witness :
  out ExampleServe.first = ready_json ::
    answers_at (H:=ExampleCrypto.crypto) (H0:=ExampleDaemon.debug) (H1:=ExampleServer.serde)
      ["join"]
      (turns_of (H:=ExampleCrypto.crypto) (H0:=ExampleDaemon.debug) (H1:=ExampleServer.serde)
         7 "secret" 0 ExampleServe.schedule (serve_start ExampleServer.d0))
  ∧ out ExampleServe.first = [ready_json; "ok"].
Proof.
  split; [|reflexivity].
  destruct (pool_answers_in_order (H:=ExampleCrypto.crypto) (H0:=ExampleDaemon.debug)
    (H1:=ExampleServer.serde) (H2:=ExampleServer.laws) 7 "secret" ExampleServe.schedule
    ExampleServer.d0 0 (0%Z, 7) "secret" ["join"] Eof ExampleServe.first eq_refl
    ExampleServe.first_ends) as [(_ & _ & _ & Ho)|(Hno & _)].
  - repeat (apply Forall_cons; split); [..|apply Forall_nil_2];
      (split; [vm_compute; reflexivity|split; [vm_compute; reflexivity|]]);
      apply Nat.ltb_lt; vm_compute; reflexivity.
  - discriminate.
  - exact Ho.
  - destruct Hno. split; vm_compute; reflexivity.
Defined.
