(* ===== verification/SwarmConfig.v ===== *)
(** * How a group's swarm is configured (crates/cluster-daemon/src/libp2p_transport.rs)

    [build_swarm] and what it is built from: the gossipsub configuration, the peer score used
    as an admission gate, mDNS, and the connection limits. The calls into the libp2p crates
    are the operations of a [SwarmLib]; a built swarm is the configuration it has. *)

From Stdlib Require Import QArith Lqa.
From S2P Require Import Prelude RustStr Swarm.
Local Open Scope N_scope.

Definition IDENTIFY_PROTOCOL : string := "/citrate/cluster/1.0.0".

(** Durations in milliseconds. *)
Definition GOSSIPSUB_HEARTBEAT : N := 200.
Definition IDLE_TIMEOUT : N := 60000.
Definition MDNS_QUERY_INTERVAL : N := 30000.
Definition MDNS_TTL : N := 120000.

Definition MAX_ESTABLISHED_INCOMING : N := 64.
Definition MAX_PENDING_INCOMING : N := 16.
Definition MAX_ESTABLISHED_PER_PEER : N := 2.

(** ** Gossipsub *)

Inductive ValidationMode := Strict | Permissive | Anonymous | NoValidation.

(** What the code sets of a configuration; the rest is the crate's default. *)
Record GossipsubConfig := {
  heartbeat_interval : N;
  validation_mode : ValidationMode;
  flood_publish : bool;
}.

Definition gossipsub_config : GossipsubConfig :=
  {| heartbeat_interval := GOSSIPSUB_HEARTBEAT; validation_mode := Strict;
     flood_publish := false |}.

(** The weights of a peer's score (an [f64] each), and the topics that are scored. *)
Record PeerScoreParams := {
  app_specific_weight : Q;
  ip_colocation_factor_weight : Q;
  behaviour_penalty_weight : Q;
  slow_peer_weight : Q;
  scored_topics : list string;
}.

Record PeerScoreThresholds := {
  gossip_threshold : Q;
  publish_threshold : Q;
  graylist_threshold : Q;
  accept_px_threshold : Q;
  opportunistic_graft_threshold : Q;
}.

(** ** mDNS *)

Record MdnsConfig := {
  ttl : N;
  query_interval : N;
  enable_ipv6 : bool;
}.

Definition mdns_config : MdnsConfig :=
  {| ttl := MDNS_TTL; query_interval := MDNS_QUERY_INTERVAL; enable_ipv6 := false |}.

(** ** Connection limits *)

Record ConnectionLimits := {
  max_established_incoming : option N;
  max_pending_incoming : option N;
  max_established_per_peer : option N;
}.

Definition limits : ConnectionLimits :=
  {| max_established_incoming := Some MAX_ESTABLISHED_INCOMING;
     max_pending_incoming := Some MAX_PENDING_INCOMING;
     max_established_per_peer := Some MAX_ESTABLISHED_PER_PEER |}.

Definition NO_MDNS_BUILD : string :=
  "this cluster-daemon was built without mDNS (cargo feature `mdns`); unset CITRATE_CLUSTER_MDNS".

Section swarm.
  Context `{!Libp2p}.

Inductive TransportError :=
| BadSecret (e : string)
| SelfAddress
| RuntimeError (e : string)
| Build (e : string)
| Subscribe (e : string)
| Listen (addr : Multiaddr) (reason : string)
| SwarmClosed.

(** The [Display] of the error ([thiserror]). *)
Definition transport_error_to_string (e : TransportError) : string :=
  match e with
  | BadSecret e => "invalid secp256k1 secret: " +:+ e
  | SelfAddress => "could not derive this node's address from its key"
  | RuntimeError e => "tokio runtime: " +:+ e
  | Build e => "swarm build: " +:+ e
  | Subscribe e => "subscribe to group topic: " +:+ e
  | Listen addr reason => "listen on " +:+ multiaddr_to_string addr +:+ ": " +:+ reason
  | SwarmClosed => "swarm task is gone"
  end.

(** The calls of the libp2p crates: the transport upgrade with its Noise prologue, the
    gossipsub configuration and behaviour of a signing key, its peer score, the mDNS socket;
    and the crate's defaults for the score. [mdns_built_in] is the cargo feature. *)
Record SwarmLib := {
  mdns_built_in : bool;
  with_tcp : bool → PublicKey → string → result unit string;
  gossipsub_build : GossipsubConfig → result unit string;
  gossipsub_new : PublicKey → GossipsubConfig → result unit string;
  default_score_params : PeerScoreParams;
  default_score_thresholds : PeerScoreThresholds;
  with_peer_score : PeerScoreParams → PeerScoreThresholds → result unit string;
  mdns_new : MdnsConfig → PeerId → result unit string;
}.

(** A built swarm. *)
Record SwarmSpec := {
  tcp_nodelay : bool;
  noise_prologue : string;
  signing_key : PublicKey;
  gossipsub : GossipsubConfig;
  score_params : PeerScoreParams;
  score_thresholds : PeerScoreThresholds;
  identify_protocol : string;
  identify_key : PublicKey;
  connection_limits : ConnectionLimits;
  mdns_discovery : option MdnsConfig;
  idle_connection_timeout : N;
}.

Context (lib : SwarmLib).

Definition admission_score_params : PeerScoreParams :=
  let d := default_score_params lib in
  {| app_specific_weight := 1; ip_colocation_factor_weight := 0;
     behaviour_penalty_weight := behaviour_penalty_weight d;
     slow_peer_weight := slow_peer_weight d; scored_topics := scored_topics d |}.

Definition admission_score_thresholds : PeerScoreThresholds :=
  let d := default_score_thresholds lib in
  {| gossip_threshold := inject_Z GOSSIP_THRESHOLD;
     publish_threshold := inject_Z PUBLISH_THRESHOLD;
     graylist_threshold := inject_Z GRAYLIST_THRESHOLD;
     accept_px_threshold := accept_px_threshold d;
     opportunistic_graft_threshold := opportunistic_graft_threshold d |}.

(** Both builds of [mdns_behaviour]: with the [mdns] feature and without. *)
Definition mdns_behaviour (on : bool) (key : PublicKey) : result (option MdnsConfig) string :=
  if mdns_built_in lib then
    if negb on then Ok None
    else
      let? _ := map_err (λ e, "mDNS: " +:+ e) (mdns_new lib mdns_config (to_peer_id key)) in
      Ok (Some mdns_config)
  else if on then Err NO_MDNS_BUILD
  else Ok None.

(** The closure of [with_behaviour]. *)
Definition cluster_behaviour (key : PublicKey) (mdns_on : bool)
    : result (option MdnsConfig) string :=
  let? _ := gossipsub_build lib gossipsub_config in
  let? _ := gossipsub_new lib key gossipsub_config in
  let? _ := with_peer_score lib admission_score_params admission_score_thresholds in
  mdns_behaviour mdns_on key.

Definition build_swarm (key : PublicKey) (group_id : string) (mdns_on : bool)
    : result SwarmSpec TransportError :=
  let? _ := map_err (λ e, Build ("tcp: " +:+ e)) (with_tcp lib true key group_id) in
  let? mdns :=
    map_err (λ e, Build ("behaviour: " +:+ e)) (cluster_behaviour key mdns_on) in
  Ok {| tcp_nodelay := true; noise_prologue := group_id; signing_key := key;
        gossipsub := gossipsub_config; score_params := admission_score_params;
        score_thresholds := admission_score_thresholds;
        identify_protocol := IDENTIFY_PROTOCOL; identify_key := key;
        connection_limits := limits; mdns_discovery := mdns;
        idle_connection_timeout := IDLE_TIMEOUT |}.

(** ** What the configuration gives *)

Lemma mdns_behaviour_Ok on key m :
  mdns_behaviour on key = Ok m → m = (if on then Some mdns_config else None)
    ∧ (on = true → mdns_built_in lib = true).
Proof.
  unfold mdns_behaviour. destruct (mdns_built_in lib), on; simpl; try done; [|naive_solver..].
  destruct (mdns_new lib _ _); simpl; naive_solver.
Qed.

(** The settings that admission on the wire relies on, as values: messages are signed and
    checked, a publication goes to the mesh only, a peer's score is its application score
    (wherever it connects from), one that is not admitted scores between the graylist and the
    two gates and an admitted one above them, and inbound connections are capped. *)
Record gate_settings (s : SwarmSpec) : Prop := {
  gs_signed : validation_mode (gossipsub s) = Strict;
  gs_no_flood : flood_publish (gossipsub s) = false;
  gs_app_score : app_specific_weight (score_params s) = 1%Q;
  gs_no_colocation : ip_colocation_factor_weight (score_params s) = 0%Q;
  gs_unadmitted :
    (graylist_threshold (score_thresholds s) < inject_Z UNADMITTED_APP_SCORE
     ∧ inject_Z UNADMITTED_APP_SCORE < publish_threshold (score_thresholds s)
     ∧ publish_threshold (score_thresholds s) < gossip_threshold (score_thresholds s)
     ∧ gossip_threshold (score_thresholds s) < 0)%Q;
  gs_established : max_established_incoming (connection_limits s) = Some 64;
  gs_pending : max_pending_incoming (connection_limits s) = Some 16;
  gs_per_peer : max_established_per_peer (connection_limits s) = Some 2;
}.

Lemma build_swarm_Ok key group mdns s :
  build_swarm key group mdns = Ok s →
  noise_prologue s = group ∧ signing_key s = key ∧ identify_key s = key
  ∧ gate_settings s
  ∧ mdns_discovery s = (if mdns then Some mdns_config else None)
  ∧ (mdns = true → mdns_built_in lib = true).
Proof.
  unfold build_swarm. destruct (with_tcp lib true key group); simpl; [|done].
  unfold cluster_behaviour. destruct (gossipsub_build lib _); simpl; [|done].
  destruct (gossipsub_new lib _ _); simpl; [|done].
  destruct (with_peer_score lib _ _); simpl; [|done].
  destruct (mdns_behaviour mdns key) as [m|] eqn:E; simpl; [|done].
  apply mdns_behaviour_Ok in E as [-> ?]. by intros [= <-]; split_and!.
Qed.

Lemma build_swarm_Err key group mdns e :
  build_swarm key group mdns = Err e → ∃ reason, e = Build reason.
Proof.
  unfold build_swarm. destruct (with_tcp lib true key group); simpl; [|naive_solver].
  destruct (cluster_behaviour key mdns); simpl; naive_solver.
Qed.

(** *** The score as an admission gate

    The crate's score of a peer: a weighted sum of the application's score and of counters
    that are never negative, when no topic is scored. *)

Class ScoreLaws (Counters : Type)
    (peer_score : PeerScoreParams → Q → Counters → Q)
    (colocation misbehaviour slowness : Counters → Q) : Prop := {
  score_sum params app c :
    scored_topics params = [] →
    Qeq (peer_score params app c)
      (app_specific_weight params * app
       + ip_colocation_factor_weight params * colocation c
       + behaviour_penalty_weight params * misbehaviour c
       + slow_peer_weight params * slowness c)%Q;
  counters_nonneg c : (0 <= misbehaviour c ∧ 0 <= slowness c)%Q;
  defaults_penalise :
    scored_topics (default_score_params lib) = []
    ∧ (behaviour_penalty_weight (default_score_params lib) <= 0
       ∧ slow_peer_weight (default_score_params lib) <= 0)%Q;
}.

Lemma penalty_nonpos (w x : Q) : (w <= 0 → 0 <= x → w * x <= 0)%Q.
Proof. intros Hw Hx. nra. Qed.

(** The score is an admission gate: whatever the crate counts for it, a peer that is not
    admitted scores below the thresholds for gossip and for publishing, so it is sent nothing
    and never grafted; one that has not misbehaved stays above the graylist, so its
    subscription is recorded, and once admitted it scores zero, above every threshold; and
    peers that share an address are not penalised for it. *)
Theorem score_gates_admission `{!ScoreLaws Counters peer_score colocation misbehaviour slowness}
    (c : Counters) :
  let score app := peer_score admission_score_params app c in
  let th := admission_score_thresholds in
  (score (inject_Z UNADMITTED_APP_SCORE) < publish_threshold th
   ∧ score (inject_Z UNADMITTED_APP_SCORE) < gossip_threshold th
   ∧ graylist_threshold th < publish_threshold th
   ∧ publish_threshold th < gossip_threshold th
   ∧ (misbehaviour c == 0 → slowness c == 0 →
      graylist_threshold th < score (inject_Z UNADMITTED_APP_SCORE)
      ∧ score 0 == 0 ∧ gossip_threshold th < score 0)
   ∧ ∀ c' app, misbehaviour c == misbehaviour c' → slowness c == slowness c' →
      score app == peer_score admission_score_params app c')%Q.
Proof.
  destruct (defaults_penalise (Counters:=Counters)) as (Ht & Hb & Hs).
  destruct (counters_nonneg (Counters:=Counters) c) as [Hm Hl]. cbv zeta.
  assert (∀ app c, (peer_score admission_score_params app c
    == app + behaviour_penalty_weight (default_score_params lib) * misbehaviour c
         + slow_peer_weight (default_score_params lib) * slowness c)%Q) as Hsum.
  { intros app c'. rewrite score_sum by exact Ht. simpl. ring. }
  pose proof (penalty_nonpos _ _ Hb Hm). pose proof (penalty_nonpos _ _ Hs Hl).
  unfold admission_score_thresholds, UNADMITTED_APP_SCORE, GOSSIP_THRESHOLD, PUBLISH_THRESHOLD,
    GRAYLIST_THRESHOLD, inject_Z. cbn [publish_threshold gossip_threshold graylist_threshold].
  split_and!.
  - rewrite Hsum. lra.
  - rewrite Hsum. lra.
  - lra.
  - lra.
  - intros Em El. rewrite !Hsum, Em, El. split_and!; lra.
  - intros c' app Em El. by rewrite !Hsum, Em, El.
Qed.

End swarm.

(** ** A concrete library *)

Module ExampleConfig.

#[local] Instance libp2p : Libp2p := ExampleLibp2p.libp2p.

(** Every call succeeds; the score's defaults are small penalties. *)
Definition lib : SwarmLib := {|
  mdns_built_in := false;
  with_tcp _ _ _ := Ok tt;
  gossipsub_build _ := Ok tt;
  gossipsub_new _ _ := Ok tt;
  default_score_params :=
    {| app_specific_weight := 10; ip_colocation_factor_weight := -5;
       behaviour_penalty_weight := -10; slow_peer_weight := -(1 # 5); scored_topics := [] |};
  default_score_thresholds :=
    {| gossip_threshold := -10; publish_threshold := -50; graylist_threshold := -80;
       accept_px_threshold := 10; opportunistic_graft_threshold := 20 |};
  with_peer_score _ _ := Ok tt;
  mdns_new _ _ := Ok tt;
|}.

(** Counters of shared addresses, misbehaviour and slowness. *)
Definition count (n : nat) : Q := inject_Z (Z.of_nat n).

Definition score (p : PeerScoreParams) (app : Q) (c : nat * nat * nat) : Q :=
  (app_specific_weight p * app + ip_colocation_factor_weight p * count c.1.1
   + behaviour_penalty_weight p * count c.1.2 + slow_peer_weight p * count c.2)%Q.

Lemma count_nonneg n : (0 <= count n)%Q.
Proof. unfold count. change 0%Q with (inject_Z 0). rewrite <-Zle_Qle. lia. Qed.

Lemma score_laws :
  ScoreLaws lib (nat * nat * nat) score (λ c, count c.1.1) (λ c, count c.1.2) (λ c, count c.2).
Proof.
  split.
  - intros. reflexivity.
  - intros c. split; apply count_nonneg.
  - by split_and!.
Qed.

End ExampleConfig.

Lemma score_gates_admission_witness :
  (ExampleConfig.score (admission_score_params (H:=ExampleLibp2p.libp2p) ExampleConfig.lib)
     (inject_Z UNADMITTED_APP_SCORE) (3%nat, 2%nat, 7%nat) < -50)%Q.
Proof.
  exact (proj1 (score_gates_admission (H:=ExampleLibp2p.libp2p) ExampleConfig.lib
    (ScoreLaws0 := ExampleConfig.score_laws) (3%nat, 2%nat, 7%nat))).
Defined.
