(* ===== verification/Startup.v ===== *)
(** * Start-up (cluster-daemon/src/{lib.rs,libp2p_transport.rs,main.rs})

    What the binary does before it serves: secret files, the environment, the identity and
    the transport factory. The file system, the environment, the sockets and the swarm
    builder are parameters. *)

From S2P Require Import Prelude RustStr Admission Session Transport DeviceWire Daemon Ipc.
From S2P Require Import DaemonInv DaemonSafety Swarm SwarmLoop SwarmInv SwarmSafety System.
From S2P Require Import Server SwarmConfig.
Local Open Scope N_scope.

(** ** Secret files *)

Definition MAX_SECRET_FILE : N := 4096.

Record Metadata := {
  is_file : bool;
  mode : N;
  uid : N;
}.

(** An open file: its metadata, the bytes a reader gets and the error they end with, if any. *)
Record File := {
  file_metadata : result Metadata string;
  bytes : string;
  read_error : option string;
}.

(** [f.take(MAX_SECRET_FILE + 1).read_to_end(..)], the cap and the UTF-8 check. *)
Definition read_capped (f : File) (path : string) : result string string :=
  let buf := String.substring 0 (N.to_nat (MAX_SECRET_FILE + 1)) (bytes f) in
  match read_error f with
  | Some e =>
      if str_len (bytes f) <? MAX_SECRET_FILE + 1
      then Err ("reading secret file " +:+ path +:+ ": " +:+ e)
      else Err ("secret file " +:+ path +:+ " exceeds " +:+ pretty MAX_SECRET_FILE
                +:+ " bytes — fail closed")
  | None =>
      if MAX_SECRET_FILE <? str_len buf
      then Err ("secret file " +:+ path +:+ " exceeds " +:+ pretty MAX_SECRET_FILE
                +:+ " bytes — fail closed")
      else if utf8_valid buf then Ok buf
      else Err ("secret file " +:+ path +:+ " is not UTF-8")
  end.

(** The checks on mode and owner that [assert_secure_file] and [read_secret_file] share. *)
Definition check_mode_owner (path : string) (md : Metadata) (euid : N) : result unit string :=
  let perm := N.land (mode md) 511 in
  if negb (N.land perm 63 =? 0) then
    Err ("secret file " +:+ path +:+ " is group/world-accessible (mode " +:+ octal4 perm
         +:+ "); it must be 0600 — fail closed")
  else if negb (uid md =? euid) then
    Err ("secret file " +:+ path +:+ " is owned by uid " +:+ pretty (uid md)
         +:+ " not the daemon's uid " +:+ pretty euid +:+ " — fail closed")
  else Ok tt.

Definition assert_secure_file (stat : string → result Metadata string) (euid : N)
    (path : string) : result unit string :=
  let? md := map_err (λ e, "stat secret file " +:+ path +:+ ": " +:+ e) (stat path) in
  check_mode_owner path md euid.

(** [open_nofollow] is the open with [O_NOFOLLOW | O_NONBLOCK]. *)
Definition read_secret_file (open_nofollow : string → result File string) (euid : N)
    (path : string) : result string string :=
  let? f := map_err (λ e, "open secret file " +:+ path +:+ ": " +:+ e
                           +:+ " (symlinks are refused)") (open_nofollow path) in
  let? md := map_err (λ e, "stat secret file " +:+ path +:+ ": " +:+ e) (file_metadata f) in
  if negb (is_file md) then
    Err ("secret file " +:+ path +:+ " is not a regular file — fail closed")
  else
    let? _ := check_mode_owner path md euid in
    read_capped f path.

(** Where there are no modes and owners to check, the size cap still applies. [open_file] is
    the plain open, which follows symbolic links. *)
Definition assert_secure_file_other (path : string) : result unit string := Ok tt.

Definition read_secret_file_other (open_file : string → result File string) (path : string)
    : result string string :=
  let? f := map_err (λ e, "open secret file " +:+ path +:+ ": " +:+ e) (open_file path) in
  read_capped f path.

(** ** The host: the environment, the files, the keys and the sockets *)

Section startup.
  Context `{!Libp2p, !Crypto, !StrDebug}.

(** What the process runs on. [listen_on] opens the listening socket; the addresses it has are
    learned later, when the swarm runs. *)
Record Host := {
  env_var : string → option string;
  args : list string;
  open_nofollow : string → result File string;
  euid : N;
  key_of_secret : string → result PublicKey string;
  peer_id_to_string : PeerId → string;
  swarm_lib : SwarmLib;
  build_runtime : result unit string;
  subscribe : string → result unit string;
  listen_on : string → Multiaddr → result unit string;
}.

Context (host : Host).

(** ** One group's swarm *)

Record Libp2pConfig := {
  secret : string;
  listen : Multiaddr;
  group_id : string;
  bootstrap_peers : list Multiaddr;
  mdns : bool;
}.

(** A [Libp2pTransport] just built, with the start-up dials it made. *)
Record Started := {
  self_address : string;
  topic : string;
  swarm : SwarmSpec;
  startup_dials : list Multiaddr;
  mesh : transport;
}.

Definition key_identity (s : string) : result (PublicKey * string) TransportError :=
  let? key := map_err BadSecret (key_of_secret host s) in
  match address_from_public_key key with
  | None => Err SelfAddress
  | Some a => Ok (key, a)
  end.

(** The runtime of threads a swarm runs on; what shows of it is whether it could be built. *)
Definition swarm_runtime : result unit TransportError :=
  map_err RuntimeError (build_runtime host).

Definition identity_from_secret (s : string) : result (string * string) TransportError :=
  let? (key, address) := key_identity s in
  Ok (address, peer_id_to_string host (to_peer_id key)).

Definition new_on (cfg : Libp2pConfig) : result Started TransportError :=
  if mdns cfg && negb (mdns_built_in (swarm_lib host)) then Err (Build NO_MDNS_BUILD)
  else
    let? (key, address) := key_identity (secret cfg) in
    let? swarm := build_swarm (swarm_lib host) key (group_id cfg) (mdns cfg) in
    let? _ := map_err Subscribe (subscribe host (group_id cfg)) in
    let? _ := map_err (Listen (listen cfg)) (listen_on host (group_id cfg) (listen cfg)) in
    Ok {| self_address := address; topic := group_id cfg; swarm := swarm;
          startup_dials := bootstrap_peers cfg;
          mesh := new_transport (bootstrap_peers cfg) (to_peer_id key) |}.

(** One swarm on a runtime of its own. *)
Definition new (cfg : Libp2pConfig) : result Started TransportError :=
  let? _ := swarm_runtime in new_on cfg.

(** ** The environment *)

Record NodeConfig := {
  node_secret : string;
  node_listen : Multiaddr;
  pinned_group : option string;
  node_bootstrap : list Multiaddr;
  node_mdns : bool;
}.

(** [Result<Vec<_>, _>::collect]. *)
Fixpoint collect_bootstrap (l : list string) : result (list Multiaddr) string :=
  match l with
  | [] => Ok []
  | s :: l =>
      let? a := map_err (λ e, "bad bootstrap multiaddr " +:+ str_debug s +:+ ": " +:+ e)
                  (parse_multiaddr (trim s)) in
      let? rest := collect_bootstrap l in
      Ok (a :: rest)
  end.

(** The 32 bytes of a hex secret. *)
Definition decode_secret (text : string) : result string string :=
  match hex_decode text with
  | None => Err "seed must be hex"
  | Some bytes => if str_len bytes =? 32 then Ok bytes else Err "seed must be 32 bytes"
  end.

Definition from_env : result NodeConfig string :=
  match env_var host "CITRATE_CLUSTER_SEED_FILE" with
  | None | Some "" => Err "CITRATE_CLUSTER_SEED_FILE is required for the libp2p transport"
  | Some seed_file =>
      let? text := read_secret_file (open_nofollow host) (euid host) seed_file in
      if str_is_empty (trim text) then Err "seed file is empty (fail closed)"
      else
        let? secret := decode_secret (trim text) in
        let? listen :=
          match env_var host "CITRATE_CLUSTER_LISTEN" with
          | None => Err "CITRATE_CLUSTER_LISTEN is required"
          | Some s => map_err (λ e, "CITRATE_CLUSTER_LISTEN is not a multiaddr: " +:+ e)
                        (parse_multiaddr s)
          end in
        let? pinned_group :=
          match env_var host "CITRATE_CLUSTER_GROUP" with
          | Some g => if str_is_empty (trim g) then Err "CITRATE_CLUSTER_GROUP is empty"
                      else Ok (Some g)
          | None => Ok None
          end in
        let? bootstrap :=
          match env_var host "CITRATE_CLUSTER_BOOTSTRAP" with
          | Some l => if str_is_empty (trim l) then Ok []
                      else collect_bootstrap (str_split ","%char l)
          | None => Ok []
          end in
        let? mdns := parse_flag str_debug (env_var host "CITRATE_CLUSTER_MDNS") in
        if mdns && negb (mdns_built_in (swarm_lib host)) then Err NO_MDNS_BUILD
        else Ok {| node_secret := secret; node_listen := listen; pinned_group := pinned_group;
                   node_bootstrap := bootstrap; node_mdns := mdns |}
  end.

Definition identity (node : NodeConfig) : result (string * string) TransportError :=
  identity_from_secret (node_secret node).

(** ** The factory *)

Definition is_pinned (node : NodeConfig) (group : string) : bool :=
  bool_decide (pinned_group node = Some group).

(** The settings [group]'s swarm is built with, on a given listen address. *)
Definition group_config (node : NodeConfig) (group : string) (listen : Multiaddr)
    : Libp2pConfig :=
  {| secret := node_secret node; listen := listen; group_id := group;
     bootstrap_peers := if is_pinned node group then node_bootstrap node else [];
     mdns := node_mdns node |}.

Definition base_listen (node : NodeConfig) (group : string) : Multiaddr :=
  if is_pinned node group then node_listen node else group_listen (node_listen node) group.

Definition transport_for (node : NodeConfig) (group : string) : result Started string :=
  if str_is_empty (trim group) then Err "empty group id"
  else
    let listen := base_listen node group in
    match new_on (group_config node group listen) with
    | Ok t => Ok t
    | Err (Listen _ _ as e) =>
        if is_pinned node group then Err (transport_error_to_string e)
        else map_err transport_error_to_string
               (new_on (group_config node group (ephemeral listen)))
    | Err e => Err (transport_error_to_string e)
    end.

(** [Libp2pFactory]: the node's settings, and the runtime its swarms share. *)
Record Libp2pFactory := { factory_node : NodeConfig }.

Definition factory_new (node : NodeConfig) : result Libp2pFactory TransportError :=
  let? _ := swarm_runtime in Ok {| factory_node := node |}.

Definition factory_pinned_group (f : Libp2pFactory) : option string :=
  pinned_group (factory_node f).

(** The daemon's view of the factory. *)
Definition make_transport (node : NodeConfig) (group : string) : result transport string :=
  let? s := transport_for node group in Ok (mesh s).

(** ** [main] *)

Inductive Outcome :=
| PrintIdentity (line : string)
| ServeMesh (daemon : ClusterDaemon.t transport) (socket bearer : string)
| ServeLocal (daemon : ClusterDaemon.t InProcessTransport.t) (socket bearer : string).

Definition required (key : string) : result string string :=
  match env_var host key with
  | Some v => Ok v
  | None => Err (key +:+ " is required")
  end.

Definition print_identity : result Outcome string :=
  let? seed_file := required "CITRATE_CLUSTER_SEED_FILE" in
  let? text := read_secret_file (open_nofollow host) (euid host) seed_file in
  let? secret := decode_secret (trim text) in
  let? (address, peer_id) := map_err transport_error_to_string (identity_from_secret secret) in
  Ok (PrintIdentity ("{" +:+ quote "address" +:+ ":" +:+ quote address +:+ ","
                     +:+ quote "peerId" +:+ ":" +:+ quote peer_id +:+ "}")).

(** The libp2p branch. *)
Definition start_mesh (self_addr self_canonical socket bearer : string)
    : result Outcome string :=
  let? node := map_err (λ e, "libp2p transport config: " +:+ e) from_env in
  let? (derived, _) :=
    map_err (λ e, "deriving identity from the seed: " +:+ transport_error_to_string e)
      (identity node) in
  if negb (bool_decide (derived = self_canonical)) then
    Err ("CITRATE_CLUSTER_SELF_ADDR (" +:+ self_canonical
         +:+ ") does not match the address derived from the seed file (" +:+ derived
         +:+ ") — fail closed")
  else
    let? factory := map_err (λ e, "libp2p runtime: " +:+ transport_error_to_string e)
                      (factory_new node) in
    let make := make_transport (factory_node factory) in
    Ok (ServeMesh
          match pinned_group node with
          | Some group => ClusterDaemon.with_factory_single_group self_addr make group
          | None => ClusterDaemon.with_factory self_addr make
          end socket bearer).

Definition main : result Outcome string :=
  if bool_decide ("--print-identity" ∈ args host) then print_identity
  else
    let? socket := required "CITRATE_CLUSTER_SOCKET" in
    let? bearer_file := required "CITRATE_CLUSTER_BEARER_FILE" in
    let? bearer_text := read_secret_file (open_nofollow host) (euid host) bearer_file in
    let bearer := trim bearer_text in
    if str_is_empty bearer then Err "bearer file is empty (fail closed)"
    else
      let? self_addr := required "CITRATE_CLUSTER_SELF_ADDR" in
      match canonical_address self_addr with
      | None => Err "CITRATE_CLUSTER_SELF_ADDR is not a 20-byte hex address"
      | Some self_canonical =>
          match env_var host "CITRATE_CLUSTER_LISTEN" with
          | Some _ => start_mesh self_addr self_canonical socket bearer
          | None =>
              Ok (ServeLocal
                    (ClusterDaemon.new self_addr (λ _ : unit, InProcessTransport.new))
                    socket bearer)
          end
      end.

End startup.

(** ** Secret files *)

Lemma substring_length n s :
  String.length (String.substring 0 n s) = Nat.min n (String.length s).
Proof. revert n. induction s as [|c s IH]; intros [|n]; simpl; auto. Qed.

Lemma substring_whole n s : (String.length s <= n)%nat → String.substring 0 n s = s.
Proof.
  revert n. induction s as [|c s IH]; intros [|n] Hn; simpl in *; [done|done|lia|].
  by rewrite IH by lia.
Qed.

Lemma read_capped_Ok f path s :
  read_capped f path = Ok s ↔
  read_error f = None ∧ bytes f = s ∧ str_len s <= MAX_SECRET_FILE ∧ utf8_valid s = true.
Proof.
  unfold read_capped. destruct (read_error f) as [e|]; [case_match; naive_solver|].
  set (buf := String.substring 0 _ (bytes f)).
  assert (str_len buf = N.min (MAX_SECRET_FILE + 1) (str_len (bytes f))) as Hlen
    by (unfold buf, str_len; rewrite substring_length; lia).
  assert (str_len (bytes f) <= MAX_SECRET_FILE → buf = bytes f) as Hbuf
    by (intros; unfold buf; apply substring_whole; unfold str_len in *; lia).
  clearbody buf.
  destruct (N.ltb_spec MAX_SECRET_FILE (str_len buf)) as [Hlt|Hge].
  - split; [done|]. intros (_ & <- & Hs & _). rewrite Hbuf in Hlt by done. lia.
  - assert (str_len (bytes f) <= MAX_SECRET_FILE) as Hs by lia.
    rewrite Hbuf by exact Hs. destruct (utf8_valid (bytes f)) eqn:Hu.
    + split; [intros [= <-]; done|by intros (_ & -> & _)].
    + split; [done|]. intros (_ & <- & _ & Hu'). congruence.
Qed.

(** Without modes and owners to check a secret is any file that opens, the cap and the encoding
    apart: neither a regular file nor a private one is asked for. *)
Theorem secret_file_other_spec (open_file : string → result File string) path s :
  read_secret_file_other open_file path = Ok s ↔
  ∃ f, open_file path = Ok f ∧ read_error f = None ∧ bytes f = s
    ∧ str_len s <= MAX_SECRET_FILE ∧ utf8_valid s = true.
Proof.
  unfold read_secret_file_other. destruct (open_file path) as [f|e]; simpl.
  - rewrite read_capped_Ok. naive_solver.
  - naive_solver.
Qed.

Lemma land_low_bits m (k : N) :
  N.land m (N.ones k) = 0 ↔ ∀ i, i < k → N.testbit m i = false.
Proof.
  rewrite land_zero_bits. split; intros H i Hi; apply H.
  - by apply N.ones_spec_low.
  - destruct (N.lt_ge_cases i k) as [|Hge]; [done|]. by rewrite N.ones_spec_high in Hi.
Qed.

Lemma check_mode_owner_Ok path md euid :
  check_mode_owner path md euid = Ok tt ↔
  (∀ i, i < 6 → N.testbit (mode md) i = false) ∧ uid md = euid.
Proof.
  unfold check_mode_owner. change 63 with (N.ones 6). rewrite <-land_low_bits.
  assert (N.land (N.land (mode md) 511) (N.ones 6) = N.land (mode md) (N.ones 6)) as ->
    by (rewrite <-N.land_assoc; done).
  destruct (N.eqb_spec (N.land (mode md) (N.ones 6)) 0), (N.eqb_spec (uid md) euid); simpl;
    naive_solver.
Qed.

(** C40: A secret is read exactly when it is safe to: the file opens without following a
    symbolic link, is a regular file of this user's that nobody else can read, write or
    run, and its whole content is at most [MAX_SECRET_FILE] bytes of UTF-8, which is what
    is returned, unchanged. *)
Theorem secret_file_spec (open_nofollow : string → result File string) (euid : N)
    (path s : string) :
  read_secret_file open_nofollow euid path = Ok s ↔
  ∃ f md, open_nofollow path = Ok f ∧ file_metadata f = Ok md ∧ is_file md = true
    ∧ uid md = euid ∧ (∀ i, i < 6 → N.testbit (mode md) i = false)
    ∧ read_error f = None ∧ bytes f = s ∧ str_len s <= MAX_SECRET_FILE
    ∧ utf8_valid s = true.
Proof.
  unfold read_secret_file.
  destruct (open_nofollow path) as [f|e]; cbn [map_err];
    [|split; [done|by intros (? & ? & ? & _)]].
  destruct (file_metadata f) as [md|e] eqn:Hmd; cbn [map_err];
    [|split; [done|intros (? & ? & [= <-] & ? & _); congruence]].
  destruct (is_file md) eqn:Hf; cbn [negb];
    [|split; [done|intros (? & ? & [= <-] & ? & ? & _); congruence]].
  pose proof (check_mode_owner_Ok path md euid) as Hc.
  destruct (check_mode_owner path md euid) as [[]|e].
  - destruct (proj1 Hc eq_refl) as [Hm Hu]. rewrite read_capped_Ok. split.
    + intros (Hr & Hb & Hs). exists f, md.
      exact (conj eq_refl (conj Hmd (conj Hf (conj Hu (conj Hm (conj Hr (conj Hb Hs))))))).
    + intros (f' & md' & Hf' & _ & _ & _ & _ & Hr & Hb & Hs). injection Hf' as <-. done.
  - split; [done|]. intros (f' & md' & [= <-] & Hmd' & _ & Hu & Hm & _).
    rewrite Hmd in Hmd'. injection Hmd' as <-.
    discriminate (proj2 Hc (conj Hm Hu)).
Qed.

(** *** The factory and [main] *)

Section startup_lemmas.
  Context `{!Libp2p, !Libp2pLaws, !Crypto, !StrDebug}.
  Implicit Types (host : Host) (node : NodeConfig).

Lemma key_identity_Ok host s key a :
  key_identity host s = Ok (key, a) ↔
  key_of_secret host s = Ok key ∧ address_from_public_key key = Some a.
Proof.
  unfold key_identity. destruct (key_of_secret host s) as [k|e]; simpl; [|naive_solver].
  destruct (address_from_public_key k) eqn:E; naive_solver.
Qed.

(** What a transport that starts is. *)
Definition started_as host (cfg : Libp2pConfig) (s : Started) : Prop :=
  ∃ key, key_of_secret host (secret cfg) = Ok key
    ∧ address_from_public_key key = Some (self_address s)
    ∧ build_swarm (swarm_lib host) key (group_id cfg) (mdns cfg) = Ok (swarm s)
    ∧ listen_on host (group_id cfg) (listen cfg) = Ok tt
    ∧ topic s = group_id cfg ∧ startup_dials s = bootstrap_peers cfg
    ∧ mesh s = new_transport (bootstrap_peers cfg) (to_peer_id key).

Lemma new_on_Ok host cfg s : new_on host cfg = Ok s → started_as host cfg s.
Proof.
  unfold new_on. case_match; [done|].
  destruct (key_identity host (secret cfg)) as [[key a]|] eqn:Ek; [|done].
  destruct (build_swarm _ _ _ _) as [sw|] eqn:Eb; [|done].
  destruct (map_err Subscribe _); [|done].
  destruct (listen_on host _ _) as [[]|] eqn:El; simpl; [|done].
  intros [= <-]. apply key_identity_Ok in Ek as [Hk Ha]. by exists key.
Qed.


Lemma transport_for_config host node group s :
  transport_for host node group = Ok s →
  trim group ≠ "" ∧ ∃ l, started_as host (group_config node group l) s
    ∧ (l = base_listen node group
       ∨ is_pinned node group = false ∧ l = ephemeral (base_listen node group)
         ∧ ∃ addr reason, new_on host (group_config node group (base_listen node group))
             = Err (Listen addr reason)).
Proof.
  unfold transport_for. destruct (str_is_empty (trim group)) eqn:Ht; [done|].
  intros Hs. split; [by intros Heq; rewrite Heq in Ht|].
  destruct (new_on host _) as [t|e] eqn:E.
  - injection Hs as ->. apply new_on_Ok in E. eauto.
  - destruct e as [| | | | |addr reason|]; try done.
    destruct (is_pinned node group) eqn:Hp; [done|].
    destruct (new_on host (group_config node group (ephemeral _))) as [t|] eqn:E'; [|done].
    injection Hs as ->. apply new_on_Ok in E'. eauto 10.
Qed.

Lemma factory_builds_fresh host node : builds_fresh (make_transport host node).
Proof.
  intros g t. unfold make_transport. destruct (transport_for host node g) as [s|] eqn:E; [|done].
  intros [= <-]. apply transport_for_config in E as (_ & l & (key & _ & _ & _ & _ & _ & _ & ->) & _).
  eauto.
Qed.


(** The bearer [main] serves with. *)
Definition secure_bearer host (bearer : string) : Prop :=
  bearer ≠ "" ∧ ∃ path text, env_var host "CITRATE_CLUSTER_BEARER_FILE" = Some path
    ∧ read_secret_file (open_nofollow host) (euid host) path = Ok text ∧ bearer = trim text.

(** What a start-up that succeeds has established. *)
Definition main_outcome host (out : Outcome) : Prop :=
  match out with
  | PrintIdentity _ => "--print-identity" ∈ args host
  | ServeMesh d _ bearer =>
      secure_bearer host bearer
      ∧ ∃ address node key,
          from_env host = Ok node
          ∧ key_of_secret host (node_secret node) = Ok key
          ∧ address_from_public_key key = Some (ClusterDaemon.self_address d)
          ∧ canonical_address address = Some (ClusterDaemon.self_address d)
          ∧ d = built address (pinned_group node) (make_transport host node)
          ∧ builds_fresh (make_transport host node)
  | ServeLocal d _ bearer =>
      secure_bearer host bearer
      ∧ env_var host "CITRATE_CLUSTER_LISTEN" = None
      ∧ ∃ address, canonical_address address = Some (ClusterDaemon.self_address d)
          ∧ d = built address None (λ _, Ok InProcessTransport.new)
  end.

Lemma main_Ok host (out : Outcome) : main host = Ok out → main_outcome host out.
Proof.
  unfold main. case_bool_decide as Hargs.
  { unfold print_identity. destruct (required host _); [|done].
    destruct (read_secret_file _ _ _); [|done]. destruct (decode_secret _); [|done].
    destruct (map_err _ _) as [[]|]; [|done]. by intros [= <-]. }
  unfold required. destruct (env_var host "CITRATE_CLUSTER_SOCKET") as [socket|]; [|done].
  destruct (env_var host "CITRATE_CLUSTER_BEARER_FILE") as [path|] eqn:Hpath; [|done].
  destruct (read_secret_file _ _ path) as [text|] eqn:Htext; [|done].
  destruct (str_is_empty (trim text)) eqn:Hne; [done|].
  assert (secure_bearer host (trim text)) as Hbearer.
  { split; [by intros Heq; rewrite Heq in Hne|eauto]. }
  destruct (env_var host "CITRATE_CLUSTER_SELF_ADDR") as [address|]; [|done].
  destruct (canonical_address address) as [want|] eqn:Hcan; [|done].
  destruct (env_var host "CITRATE_CLUSTER_LISTEN") eqn:Hlisten.
  - unfold start_mesh. destruct (from_env host) as [node|] eqn:Hnode; simpl; [|done].
    destruct (identity host node) as [[derived pid]|] eqn:Hid; simpl; [|done].
    case_bool_decide as Hsame; simpl; [|done]. subst want.
    unfold factory_new, swarm_runtime.
    destruct (build_runtime host); simpl; [|done].
    intros [= <-]. split; [exact Hbearer|].
    unfold identity, identity_from_secret in Hid.
    destruct (key_identity host _) as [[key adr]|] eqn:Hk; [|done]. injection Hid as -> _.
    apply key_identity_Ok in Hk as [Hk Ha].
    assert (∀ p mk, ClusterDaemon.self_address (built (T:=transport) address p mk) = derived)
      as Hself by (intros [g|] mk; simpl; by rewrite Hcan).
    exists address, node, key. unfold built in Hself |- *.
    destruct (pinned_group node) as [g|].
    + rewrite (Hself (Some g)). split_and!; try done. apply factory_builds_fresh.
    + rewrite (Hself None). split_and!; try done. apply factory_builds_fresh.
  - intros [= <-]. split; [exact Hbearer|]. split; [done|]. exists address.
    split; [|done]. simpl. by rewrite Hcan.
Qed.

Lemma main_ServeMesh host d socket bearer :
  main host = Ok (ServeMesh d socket bearer) →
  secure_bearer host bearer ∧ ∃ address node, from_env host = Ok node
    ∧ d = built address (pinned_group node) (make_transport host node)
    ∧ builds_fresh (make_transport host node).
Proof.
  intros (Hb & address & node & key & ? & _ & _ & _ & ? & ?)%main_Ok. split; [done|].
  by exists address, node.
Qed.

(** C27: Start-up fails closed: when the binary serves, its bearer is non-empty and comes from a
    secret file; and over libp2p the address it reports as its own is the one its secret key
    proves on the wire, the daemon is the one of the environment (pinned or not), and its
    factory builds only transports that authorise nobody, which is what the theorems on
    running daemons start from. *)
Theorem startup_fails_closed host (out : Outcome) :
  main host = Ok out →
  match out with
  | PrintIdentity _ => "--print-identity" ∈ args host
  | ServeMesh d _ bearer =>
      secure_bearer host bearer
      ∧ ∃ address node key,
          from_env host = Ok node
          ∧ key_of_secret host (node_secret node) = Ok key
          ∧ address_from_public_key key = Some (ClusterDaemon.self_address d)
          ∧ canonical_address address = Some (ClusterDaemon.self_address d)
          ∧ d = built address (pinned_group node) (make_transport host node)
          ∧ builds_fresh (make_transport host node)
  | ServeLocal d _ bearer =>
      secure_bearer host bearer
      ∧ env_var host "CITRATE_CLUSTER_LISTEN" = None
      ∧ ∃ address, canonical_address address = Some (ClusterDaemon.self_address d)
          ∧ d = built address None (λ _, Ok InProcessTransport.new)
  end.
Proof. apply main_Ok. Qed.

End startup_lemmas.

(** ** A concrete host *)

Module ExampleStartup.

#[local] Instance crypto : Crypto := ExampleCrypto.crypto.
#[local] Instance libp2p : Libp2p := ExampleLibp2p.libp2p.
#[local] Instance debug : StrDebug := ExampleDaemon.debug.

Definition secret_hex : string :=
  "6161616161616161616161616161616161616161616161616161616161616161".

Definition file (s : string) : File :=
  {| file_metadata := Ok {| is_file := true; mode := 33152; uid := 1000 |};
     bytes := s; read_error := None |}.

Definition env (key : string) : option string :=
  if decide (key = "CITRATE_CLUSTER_SOCKET") then Some "/run/c.sock" else
  if decide (key = "CITRATE_CLUSTER_BEARER_FILE") then Some "/b" else
  if decide (key = "CITRATE_CLUSTER_SELF_ADDR") then Some ("0x" +:+ ExampleSwarm.A) else
  if decide (key = "CITRATE_CLUSTER_SEED_FILE") then Some "/s" else
  if decide (key = "CITRATE_CLUSTER_LISTEN") then Some "me" else
  if decide (key = "CITRATE_CLUSTER_GROUP") then Some "team" else
  if decide (key = "CITRATE_CLUSTER_BOOTSTRAP") then Some "peer-a, peer-b" else None.

Definition host : Host := {|
  env_var := env;
  args := [];
  open_nofollow path :=
    if decide (path = "/b") then Ok (file ("token" +:+ String "010" ""))
    else if decide (path = "/s") then Ok (file secret_hex) else Err "not found";
  euid := 1000;
  key_of_secret s := if str_len s =? 32 then Ok (str_drop 12 s) else Err "bad key";
  peer_id_to_string p := p;
  swarm_lib := ExampleConfig.lib;
  build_runtime := Ok tt;
  subscribe _ := Ok tt;
  listen_on _ addr := if decide (Tcp 4001 ∈ addr) then Ok tt else Err "in use";
|}.

Definition node : NodeConfig :=
  {| node_secret := str_drop 0 "aaaaaaaaaaaaaaaaaaaaaaaaaaaaaaaa";
     node_listen := [Tcp 4001; P2p "me"];
     pinned_group := Some "team";
     node_bootstrap := [[Tcp 4001; P2p "peer-a"]; [Tcp 4001; P2p "peer-b"]];
     node_mdns := false |}.

Definition outcome : Outcome :=
  ServeMesh (ClusterDaemon.with_factory_single_group ("0x" +:+ ExampleSwarm.A)
               (make_transport host node) "team") "/run/c.sock" "token".


Lemma bearer_read :
  read_secret_file (open_nofollow host) (euid host) "/b" = Ok ("token" +:+ String "010" "").
Proof. vm_compute. reflexivity. Qed.

Lemma from_env_ok : from_env host = Ok node.
Proof. vm_cast_no_check (eq_refl (from_env host)). Qed.


Lemma identity_ok : identity host node = Ok (ExampleSwarm.A, "aaaaaaaaaaaaaaaaaaaa").
Proof. vm_compute. reflexivity. Qed.

Lemma self_ok : canonical_address ("0x" +:+ ExampleSwarm.A) = Some ExampleSwarm.A.
Proof. vm_compute. reflexivity. Qed.

Lemma main_ok : main host = Ok outcome.
Proof.
  unfold main, start_mesh, required. cbn [args env_var host].
  change (env "CITRATE_CLUSTER_SOCKET") with (Some "/run/c.sock").
  change (env "CITRATE_CLUSTER_BEARER_FILE") with (Some "/b").
  change (env "CITRATE_CLUSTER_SELF_ADDR") with (Some ("0x" +:+ ExampleSwarm.A)).
  change (env "CITRATE_CLUSTER_LISTEN") with (Some "me").
  rewrite bool_decide_eq_false_2 by set_solver. cbv iota.
  rewrite bearer_read. cbv iota beta. cbn [trim]. 
  change (trim ("token" +:+ String "010" "")) with "token". cbn [str_is_empty].
  rewrite self_ok, from_env_ok. cbn [map_err]. rewrite identity_ok. cbn [map_err].
  rewrite bool_decide_eq_true_2 by reflexivity. reflexivity.
Qed.

End ExampleStartup.


Lemma startup_fails_closed_witness :
  ∃ address, canonical_address address
    = Some (ClusterDaemon.self_address
        (ClusterDaemon.with_factory_single_group ("0x" +:+ ExampleSwarm.A)
           (make_transport (H:=ExampleLibp2p.libp2p) (H0:=ExampleCrypto.crypto)
              ExampleStartup.host ExampleStartup.node) "team")).
Proof.
  destruct (startup_fails_closed (H:=ExampleLibp2p.libp2p) (H1:=ExampleCrypto.crypto)
    (H2:=ExampleDaemon.debug) ExampleStartup.host ExampleStartup.outcome)
    as (_ & address & node & key & _ & _ & _ & Hc & _).
  - exact ExampleStartup.main_ok.
  - exists address. exact Hc.
Defined.
