(* ===== verification/Process.v ===== *)
(** * The running process (crates/cluster-daemon/src/main.rs over the rest)

    Start-up, the served control socket, the daemon and the libp2p mesh put together: what
    holds of a process that [main] started, whatever its clients, its network and its host
    do. *)

From S2P Require Import Prelude RustStr Admission Membership Session Device Registry.
From S2P Require Import EffectiveRoster.
From S2P Require Import Transport DeviceWire Daemon Ipc DaemonInv DaemonSafety.
From S2P Require Import Swarm SwarmLoop SwarmInv SwarmSafety System Server Serve.
From S2P Require Import SwarmConfig Startup.
Import ClusterMembership ClusterDaemon.
Local Open Scope N_scope.

(** ** What a process is run with *)

Section process.
  Context `{!Libp2p, !Libp2pLaws, !Crypto, !StrDebug, !Serde, !SerdeLaws}.

(** What may happen besides the clients: each transport's swarm task runs, and the host
    changes, so that the factory's answers do. *)
Definition schedule_ok (ls : list (serve_label transport)) : Prop :=
  Forall (λ l, match l with
               | Network _ f => ∀ t, env t (f t)
               | Factory f => builds_fresh f
               | _ => True
               end) ls.

Lemma step_events_ok euid bearer l ls d :
  schedule_ok [l] → events_ok (step_events l (serve_run euid bearer ls (serve_start d))).
Proof.
  intros [Hl _]%Forall_cons. destruct l as [p r b|i|g f|mk]; simpl; try by repeat constructor.
  repeat case_match; try constructor. unfold opt_event. case_match; repeat constructor.
Qed.

Lemma schedule_events_ok euid bearer ls d :
  schedule_ok ls → events_ok (events_of euid bearer ls (serve_start d)).
Proof.
  induction ls as [|l ls IH] using rev_ind; [constructor|].
  intros [Hls Hl]%Forall_app. rewrite events_of_snoc. apply Forall_app.
  split; [by apply IH|by apply step_events_ok].
Qed.

(** The group a pinned daemon serves. *)
Lemma pinned_group_only address group mk es g s :
  builds_fresh mk → events_ok es →
  groups_f (run_events es (built address (Some group) mk)) !! g = Some s → g = group.
Proof.
  intros Hmk [He _]%events_ok_inv Hs.
  assert (∀ g t, mk g = Ok t → Transport.authorized t = ∅) as Hfresh
    by (intros; by eapply builds_fresh_authorized).
  apply (inv_group _ (inv_reachable address (Some group) mk es Hfresh He)) in Hs as [_ Hok].
  unfold ensure_group_allowed in Hok. rewrite run_events_single in Hok. cbn in Hok.
  by case_decide.
Qed.

(** C1: The whole program: a process that [main] started over libp2p, under any schedule of
    its clients, of the swarm tasks and of its host's answers. In every group it serves, a peer
    with an open connection is shut out of the topic, or has proved the key of an address
    that is allowed, or whose eviction is queued; whom the group allows is nobody, or the
    role-gated effective roster of a [SetRoster] that a process of the daemon's own user sent
    on a connection it opened with the bearer of the secret file; and a pinned process serves
    its one group. *)
Theorem process_keeps_the_gate (host : Host) (d : ClusterDaemon.t transport)
    (socket bearer : string) (ls : list (serve_label transport)) (g : string)
    (s : ClusterSession.t transport) :
  main host = Ok (ServeMesh d socket bearer) → schedule_ok ls →
  let st := serve_run (euid host) bearer ls (serve_start d) in
  groups_f (Serve.shared st) !! g = Some s →
  let allowed := allowed_f (ClusterSession.membership s) in
  lets_in allowed (ClusterSession.transport s)
  ∧ (allowed = ∅ ∨ ∃ gd links revs a,
       device_state (Serve.shared st) !! g = Some gd
       ∧ allowed = allowed_set (effective_roster (GroupDevices.roster gd)
                                  (GroupDevices.registry gd))
       ∧ a ∈ accepts ls
       ∧ authenticated (euid host) bearer a (SetRoster g (GroupDevices.roster gd) links revs))
  ∧ secure_bearer host bearer
  ∧ ∀ node group, from_env host = Ok node → pinned_group node = Some group → g = group.
Proof.
  intros Hmain Hls st Hs allowed.
  destruct (main_ServeMesh host d socket bearer Hmain)
    as (Hb & address & node & Hnode & Hd & Hmk).
  subst st. rewrite serve_run_shared in *. cbn [Serve.shared serve_start] in *.
  pose proof (schedule_events_ok (euid host) bearer ls d Hls) as Hes.
  set (es := events_of (euid host) bearer ls (serve_start d)) in *.
  rewrite Hd in Hs. rewrite Hd.
  destruct (system_lets_in address (pinned_group node) (Startup.make_transport host node) es g s
    Hmk Hes Hs) as [Hin Hal].
  split; [exact Hin|]. split; [|split; [exact Hb|]].
  - destruct Hal as [?|(gd & Hgd & Heq)]; [by left|right].
    destruct (roster_requested _ _ _ _ _ _ Hgd) as (links & revs & Hreq).
    destruct (events_authenticated _ _ _ _ _ Hreq) as (a & Ha & Hau).
    by exists gd, links, revs, a.
  - intros node' group Hnode' Hp. rewrite Hnode in Hnode'. injection Hnode' as <-.
    rewrite Hp in Hs. by eapply pinned_group_only.
Qed.

End process.

(** ** A concrete process *)

Module ExampleProcess.

#[local] Instance crypto : Crypto := ExampleCrypto.crypto.
#[local] Instance libp2p : Libp2p := ExampleLibp2p.libp2p.
#[local] Instance debug : StrDebug := ExampleDaemon.debug.

(** A toy wire format whose one request sets the roster of the pinned group. *)
#[local] Instance serde : Serde := {|
  parse_auth s := if str_is_empty s then None else Some s;
  parse_request s :=
    if decide (s = "roster") then Ok (SetRoster "team" [(ExampleSwarm.A, "member")] [] [])
    else Err "unknown variant";
  encode_response resp := None;
  ct_eq a b := bool_decide (a = b);
|}.

Lemma serde_laws : SerdeLaws.
Proof. split. intros a b _. by rewrite <-(bool_decide_eq_true (a = b)). Qed.

Definition d : ClusterDaemon.t transport :=
  ClusterDaemon.with_factory_single_group ("0x" +:+ ExampleSwarm.A)
    (Startup.make_transport ExampleStartup.host ExampleStartup.node) "team".

(** A client of the daemon's user sets the roster, and the network connects a peer. *)
Definition schedule : list (serve_label transport) :=
  [Accept (0%Z, 1000) (sends (wire ["token"; "roster"]) Eof) None;
   Turn 0; Turn 0; Network "team" (run (map inr ExampleSystem.network))].

Lemma schedule_is_ok : schedule_ok schedule.
Proof. repeat constructor. intros t. by exists ExampleSystem.network. Qed.

Definition st : Server transport :=
  serve_run 1000 "token" schedule (serve_start d).

Definition s : ClusterSession.t transport :=
  default (ClusterSession.new [] (new_transport [] "me"))
    (groups_f (Serve.shared st) !! "team").

Lemma session_eq : groups_f (Serve.shared st) !! "team" = Some s.
Proof. apply some_default, (bool_decide_eq_true_1 _). vm_compute. reflexivity. Qed.

Lemma somebody_allowed : allowed_f (ClusterSession.membership s) ≠ ∅.
Proof.
  intros Heq. assert (bool_decide (allowed_f (ClusterSession.membership s) = ∅) = false) as Hb
    by (vm_compute; reflexivity).
  by rewrite bool_decide_eq_true_2 in Hb.
Qed.

End ExampleProcess.

Lemma process_keeps_the_gate_witness :
  ∃ (gd : GroupDevices.t) links revs a,
    a ∈ accepts ExampleProcess.schedule
    ∧ authenticated (H1:=ExampleProcess.serde) 1000 "token" a
        (SetRoster "team" (GroupDevices.roster gd) links revs).
Proof.
  destruct (process_keeps_the_gate (H:=ExampleLibp2p.libp2p) (H0:=ExampleSwarm.laws)
    (H1:=ExampleCrypto.crypto) (H2:=ExampleDaemon.debug) (H3:=ExampleProcess.serde)
    (H4:=ExampleProcess.serde_laws) ExampleStartup.host ExampleProcess.d "/run/c.sock" "token"
    ExampleProcess.schedule "team" ExampleProcess.s ExampleStartup.main_ok
    ExampleProcess.schedule_is_ok ExampleProcess.session_eq) as (_ & [He|Ha] & _).
  - destruct (ExampleProcess.somebody_allowed He).
  - destruct Ha as (gd & links & revs & a & _ & _ & Hin & Hau).
    exists gd, links, revs, a. exact (conj Hin Hau).
Defined.
